(* ===== verification/_CoqProject ===== *)
-Q . S2P
Prelude.v
Utf8.v
PodTypes.v
PodCodec.v
PodLaws.v
PodCompound.v
PodParser.v
PodParserLaws.v
PodBuilder.v
PodTree.v
FrameHeader.v
FrameControl.v
FrameRecv.v
FrameRecvLaws.v
FrameStream.v
FrameSend.v
FrameFuel.v
FrameChannel.v
ClientNode.v
ClientNodeLaws.v
ClientNodeWire.v
ClientNodeEvents.v
ClientNodeMethods.v
NodeMemory.v
IdMap.v
SpaParam.v
NodeShared.v
NodeActivation.v
NodePort.v
NodeCycle.v
NodeConfig.v
NodeOutput.v
NodeSession.v
NodeSessionLaws.v
NodeWake.v
NodeHistory.v
NodeRuntime.v
NodeRuntimeProps.v
NodeWakeProps.v
NodeOwnerProps.v
HookList.v
Marshal.v
MarshalLaws.v
MarshalMessages.v
InboundMessage.v
Connection.v
ConnectionProps.v
Properties.v
Demarshal.v
DemarshalLaws.v
CoreClient.v
CoreClientLaws.v
CoreClientProps.v
CoreClientSafe.v
MemoryBridge.v
MemoryBridgeProps.v
EventDispatch.v
SessionBridge.v
WireSession.v
ServerMessages.v
ServerMessagesLaws.v
ServerEvents.v
ServerScript.v
ServerScriptProps.v
ServerRuntime.v
ServerRuntimeProps.v
ServerInterop.v
ServerTermination.v
