(* ===== verification/Prelude.v ===== *)
(** * A verification of the pipewire-native-rs workspace

    pipewire-native-rs is a client of the PipeWire media server in Rust. Its
    messages are SPA PODs ([spa/src/pod]); they travel in frames with file
    descriptors over a Unix socket ([protocol/src/native/frame]). The client
    library ([pipewire/src]) sends the methods of its proxies as such
    messages and hands the events it receives to listeners; the ClientNode
    interface ([protocol/src/wire/client_node]) has a codec of its own; a
    node session ([node/src/session]) executes the
    server's ClientNode events: it maps shared memory, negotiates a format
    and buffers, and runs one output callback per process cycle, taking turns
    with the server and other nodes through records in that shared memory.
    A scripted server ([server/src]) plays the other side for tests: it
    answers a client's methods with the events its script lists.
    The development follows these paths from bytes to listeners and cycles.

    ** Files

    - Prelude: outcomes of Rust code (value, error or panic), fixed-width
      integers as [Z] with explicit wrap-around, checked arithmetic, byte
      slices, automation.
    - Utf8, PodTypes, PodCodec: strings, [pod/types.rs] with the derived
      number conversions of [macros/src/derive_enum_u32.rs], and the trait
      [Pod] with an instance for every implementing type of [pod/mod.rs].
      PodLaws and PodCompound prove each instance safe and exact (classes
      [PodLaws], [PodExact]), the interface the parser and builder proofs use.
    - PodParser, PodParserLaws, PodBuilder, PodTree: [pod/parser.rs] and
      [pod/builder.rs]; whole messages as trees of values.
    - SpaParam: the parameter enumerations of [spa/src/param].
    - FrameHeader, FrameControl, FrameRecv, FrameRecvLaws, FrameStream,
      FrameSend, FrameFuel, FrameChannel: [native/frame/header.rs], the
      ancillary data code of [recv.rs] and [send.rs], [recv.rs] as a state
      machine over an arbitrary socket, the same over a socket that carries
      whole frames, [send.rs], runs that end on any fuel, and both ends
      joined.
    - ClientNode, ClientNodeLaws, ClientNodeWire, ClientNodeEvents,
      ClientNodeMethods: [wire/client_node/mod.rs], its decoders' safety, the
      wire form of its messages and their round trips.
    - NodeMemory: [session/memory/mod.rs], [shm/memfd.rs], [shm/registry.rs].
    - IdMap: [pipewire/src/id_map.rs].
    - HookList: [spa/src/hook.rs], as operations on a list and as steps of
      any number of threads.
    - Marshal, MarshalLaws, MarshalMessages: what the macros
      [derive_pod_struct.rs] and [derive_marshallable.rs] generate, as
      functions from the codecs of the fields, with laws proved once; every
      message of [pipewire/src/protocol/marshal].
    - InboundMessage, Connection, ConnectionProps: [marshal/message.rs] and
      [protocol/connection.rs], and histories of a connection.
    - Properties: [pipewire/src/properties.rs].
    - Demarshal, DemarshalLaws: the [demarshal] functions of
      [protocol/marshal] and the structs of [pipewire/src/proxy] that
      listeners are given.
    - CoreClient: [pipewire/src/core.rs], [protocol/client.rs] and the method
      closures of [protocol/marshal], as computations on the state of a core
      that produce emissions, and the I/O callback over a socket. A thread
      that would take a lock it holds ends there with a panic, which is one
      of the two documented outcomes. CoreClientLaws proves what every call
      and every callback keeps, for all runs of a client; CoreClientProps has
      the properties of reading, writing and errors; CoreClientSafe says
      which frames stop a client.
    - NodeShared: the world of a session: shared memory in which others may
      change anything before each access, eventfds ([signal/eventfd.rs]), a
      log of visible actions, and a flag for undefined accesses; the
      judgement [steps] with a rule per access.
    - NodeActivation, NodePort, NodeCycle, NodeConfig, NodeOutput: the files
      of the same names under [session/] (NodePort is [port/mod.rs]).
    - NodeSession: [transport.rs], [peer.rs] and [owner.rs]; a session is a
      record, its methods are computations on session and world, so what a
      failed call leaves behind is part of the model. NodeSessionLaws proves
      the invariant for every command; NodeWake describes every path of a
      wake; NodeHistory runs arbitrary sequences of calls and has a concrete
      configuration for examples; NodeWakeProps and NodeOwnerProps hold the
      remaining properties.
    - NodeRuntime, NodeRuntimeProps: [node/src/runtime/mod.rs], the task that
      owns a session, one turn of its loop at a time, and any use of it by
      senders, the executor and the holder of its handle.
    - MemoryBridge, MemoryBridgeProps: [pipewire/src/node/session/memory.rs],
      critical sections and the steps of dispatching threads, in any
      interleaving.
    - EventDispatch: the event handler of [pipewire/src/proxy/client_node.rs],
      called and replaced by any threads, one critical section at a time.
    - SessionBridge: [pipewire/src/node/session/client_node.rs], from events
      of the proxy and the pool to commands of the runtime.
    - WireSession: the decoder's events satisfy what the session asks for.
    - ServerMessages, ServerMessagesLaws, ServerEvents, ServerScript,
      ServerScriptProps, ServerRuntime, ServerRuntimeProps, ServerInterop,
      ServerTermination: the scripted server. Its own decoders and encoders
      ([server/src/protocol/messages.rs]) and how they agree with the
      client's; scripts, their state and the table of objects
      ([script/mod.rs], [state/mod.rs]); the run of a script over a socket
      and a clock ([runtime/mod.rs]), with a class for the operating system.

    ** What is shown

    - PODs: what is built parses back, for every type and nesting
      ([message_roundtrip], [object_roundtrip]); no parser program panics on
      any bytes ([parser_never_panics]); iteration ends ([object_iteration]);
      the exact outcome of pushing ([push_pod_outcome]) and the one case in
      which [push_struct] panics ([push_struct_out_of_room]).
    - Frames: sender and receiver over any splitting of the stream deliver
      the same frames with their own descriptors ([channel_roundtrip],
      [receive_next_frame]); against any peer, one that never stops sending
      included, the receiver returns, is safe and bounded ([receive_safe]); ancillary data is parsed inside its buffer
      ([parse_control_memory_safe], [control_roundtrip]); nothing is lost or
      duplicated on partial writes ([flush_conserves], [enqueue_accounting]);
      headers and descriptor tables ([header_roundtrip], [take_once]).
    - ClientNode: every method and event round trips ([method_roundtrip],
      [event_roundtrip]); decoding never panics and respects the limits; the
      exact outcome of encoding.
    - Messages: a push has one of two outcomes ([push_outcome]), a history of
      pushes is numbered and acknowledged in order ([connection_order]), and
      the peer decodes what was pushed ([connection_delivers]).
    - Client: reading amounts to handling the frames one by one
      ([read_loop_refines]), encoded events reach the handler of their
      interface ([event_inbound]), a queued frame is never forgotten
      ([no_lost_flush]) and is written when the socket allows it
      ([flush_outcome]), a lost connection is reported once and final
      ([hangup_final]), and a server can stop a client only by the frames
      named in [frame_stops_client].
    - Memory: the pool follows a specification that says by itself which
      imports succeed and what every refusal is ([pool_contract]),
      mappings are checked ([mapping_checked]), and the overlap test is exact.
    - Sessions: for every history, kernel, interference and callback there is
      no panic and no undefined access and the invariant holds
      ([session_invariant]); disconnecting is final; removed memory is let go
      of; a wake's actions are ordered ([wake_order]) and stay inside the
      session's mappings ([wake_confined]); a published cycle leaves exactly
      the promised words ([cycle_published]); every peer has its turn
      and the error names the first that failed ([peers_all_triggered]);
      concurrent decrements are all counted
      ([pending_decrement_atomic]); formats and buffer sets are converted
      exactly ([format_negotiation], [buffer_set_conversion]); and a command
      that leaves a cycle pending is applied and refused
      ([pending_cycle_refuses]).
    - Runtime and bridge: what a server sends is checked and typed for the
      session ([wire_commands_typed]); any use of a runtime is a history of its
      session, with a disconnect at its end unless the handle is dropped or
      the user's clock panics ([runtime_refines]), accepted commands are applied
      ([runtime_drains]) and a full queue ends it ([overflow_terminates]);
      memory subscribers know the active generations ([subscribers_informed])
      from one dispatcher at a time ([dispatch_exclusive]); events of a proxy
      are taken once and in order, and while one thread makes the calls by the
      handler set last ([events_handed_over]); and nothing is
      lost between them without a recorded failure ([bridge_lossless]).
    - Hooks: in every interleaving emissions exclude each other and callbacks
      are in one place ([hook_exclusion]), no waiting thread is forgotten,
      and only a callback that waits for a thread that waits to emit
      deadlocks ([hook_no_lost_wakeup]), and an emission calls its snapshot
      ([emission_calls_snapshot]).
    - Server: a run that reports is the conversation of its script
      ([script_conversation]); the accepted client cannot hold or crash it
      ([server_returns]), although a stream of others can
      ([connections_hold_the_run]); client and server understand each other's
      messages ([client_methods_understood], [actions_heard]); and the route
      table follows the client's creations and destructions
      ([routes_follow_history]).

    ** Bounds and fuel

    Loops that are not structural take fuel. The parser's and decoder's loops
    get a fuel derived from the length of their input, and the theorems show
    it suffices (an item takes at least eight bytes); [receive] ends within
    the signals to come and the bytes that fit into its buffer, [flush] within
    the interruptions to come and the bytes queued, and so do the descriptor
    loops within theirs; a run of the server needs these and the polls until
    its deadline, and in single-client mode the connections to come. The
    compare-and-swap loop of [decrement_pending] gets one step more than the
    list of the others' remaining changes. The others' changes are a finite
    list, one consumed before each access; any execution in which calls
    return is covered, since it contains finitely many accesses. The
    dispatchers of events are run for as many steps as their queues hold work,
    and are shown to be done by then.

    ** Parameters

    The kernel ([fstat], [mmap], seals, sockets, [fcntl], [read], [write]),
    the socket's peer, the application's callback and its clock are
    parameters. What is assumed of a socket is in the classes [SocketLaws]
    (finitely many signals interrupt it, an end of stream carries no
    descriptors), [StreamSocket] and [SendSocket] (bytes arrive in order with
    the descriptors sent with them). Arithmetic that overflows panics, as in a
    build with overflow checks; without them the counter of hook ids would
    wrap instead. Shared
    memory is sequentially consistent in the model: the fences and orderings
    of the code are not weakened or checked.

    ** Not modelled

    The executor of the runtime is a parameter: the turns it gives and what
    they find are arbitrary. Destructors of handlers do not panic in the
    model, and a memory subscriber whose callback panics keeps those behind it
    from that one event, as in the code. Of the client library, the listeners of
    an application are not part of the state: what is emitted to them is an
    output. Its event loops, configuration files, text formats of properties,
    logging, the C plugin bindings, the diagnostic printer of PODs, the
    server's fixture actions (which drive the memory and eventfds of the test
    kit's fixture) and its frame helpers for tests, the test kit, the tools,
    examples and benchmarks are not modelled. *)

From stdpp Require Export base list gmap strings.
From coqutil Require Export Byte Word.LittleEndianList.
From Stdlib Require Export ZArith Lia.
From Stdlib Require Strings.Byte.

#[global] Open Scope Z_scope.

(** ** Outcomes of fallible Rust code

    [Ok] and [Err] are Rust's [Result]; [Panic] is the third way a call can
    end: an out-of-range slice, a failed [assert!], an [unwrap] of [None].
    Keeping it as a value makes "this code cannot panic" a statement. *)
Inductive Res (E A : Type) : Type :=
| Ok (a : A)
| Err (e : E)
| Panic.
Arguments Ok {E A} a.
Arguments Err {E A} e.
Arguments Panic {E A}.

#[global] Instance res_ret {E} : MRet (Res E) := λ A a, Ok a.
#[global] Instance res_bind {E} : MBind (Res E) := λ A B f m,
  match m with Ok a => f a | Err e => Err e | Panic => Panic end.
#[global] Instance res_fmap {E} : FMap (Res E) := λ A B f m,
  match m with Ok a => Ok (f a) | Err e => Err e | Panic => Panic end.

Definition map_err {E F A} (f : E → F) (m : Res E A) : Res F A :=
  match m with Ok a => Ok a | Err e => Err (f e) | Panic => Panic end.

Definition ok_or {E A} (o : option A) (e : E) : Res E A :=
  match o with Some a => Ok a | None => Err e end.

(** [total m] : the computation returns to its caller, with a value or an
    error, instead of panicking. *)
Definition total {E A} (m : Res E A) : Prop := m ≠ Panic.

Section res_lemmas.
Context {E A B : Type}.
Implicit Types (m : Res E A) (f : A → Res E B).

Lemma bind_Ok_inv m f b : m ≫= f = Ok b → ∃ a, m = Ok a ∧ f a = Ok b.
Proof. destruct m; simpl; naive_solver. Qed.

Lemma total_bind m f : total m → (∀ a, m = Ok a → total (f a)) → total (m ≫= f).
Proof. unfold total. destruct m; simpl; naive_solver. Qed.

Lemma total_Ok (a : A) : total (E:=E) (Ok a).
Proof. discriminate. Qed.

Lemma total_Err (e : E) : total (A:=A) (Err e).
Proof. discriminate. Qed.
End res_lemmas.

Lemma total_map_err {E F A} (f : E → F) (m : Res E A) : total m → total (map_err f m).
Proof. destruct m; unfold total; simpl; congruence. Qed.

Lemma map_err_Ok_inv {E F A} (f : E → F) (m : Res E A) a :
  map_err f m = Ok a → m = Ok a.
Proof. destruct m; simpl; congruence. Qed.

Lemma total_ok_or {E A} (o : option A) (e : E) : total (ok_or o e).
Proof. destruct o; discriminate. Qed.

Create HintDb total.
#[export] Hint Resolve total_Ok total_Err total_map_err total_ok_or : total.

(** Invert every successful bind of the context. *)
Ltac res_inv :=
  repeat match goal with
  | H : mbind (M:=Res _) _ _ = Ok _ |- _ =>
      apply bind_Ok_inv in H;
      let x := fresh "v" in let H1 := fresh "E" in let H2 := fresh "E" in
      destruct H as (x & H1 & H2); simpl in H2
  | H : Ok _ = Ok _ |- _ => injection H; clear H; intros; subst
  | H : Err _ = Ok _ |- _ => discriminate H
  | H : Panic = Ok _ |- _ => discriminate H
  | H : map_err _ _ = Ok _ |- _ => apply map_err_Ok_inv in H
  end.

(** ** Machine integers

    Integers are [Z]; the width is written at each conversion. [wrap w] is
    Rust's [as uN], [swrap w] is [as iN]. *)
Definition wrap (w z : Z) : Z := z mod 2 ^ w.
Definition swrap (w z : Z) : Z := (z + 2 ^ (w - 1)) mod 2 ^ w - 2 ^ (w - 1).

Definition u8_range (z : Z) : Prop := 0 ≤ z < 2 ^ 8.
Definition u32_range (z : Z) : Prop := 0 ≤ z < 2 ^ 32.
Definition u64_range (z : Z) : Prop := 0 ≤ z < 2 ^ 64.
Definition i32_range (z : Z) : Prop := - 2 ^ 31 ≤ z < 2 ^ 31.
Definition i64_range (z : Z) : Prop := - 2 ^ 63 ≤ z < 2 ^ 63.

Definition u32_max : Z := 2 ^ 32 - 1.
Definition usize_max : Z := 2 ^ 64 - 1.
Definition isize_max : Z := 2 ^ 63 - 1.

(** [checked_add], [saturating_add] and [saturating_mul] of [usize]/[u64]
    (both 64 bits wide on the supported target). *)
Definition checked_add (w a b : Z) : option Z :=
  if bool_decide (a + b < 2 ^ w) then Some (a + b) else None.
Definition checked_mul (w a b : Z) : option Z :=
  if bool_decide (a * b < 2 ^ w) then Some (a * b) else None.
Definition saturating_add (a b : Z) : Z := Z.min usize_max (a + b).
Definition saturating_mul (a b : Z) : Z := Z.min usize_max (a * b).
Definition saturating_sub (a b : Z) : Z := Z.max 0 (a - b).

(** [a - b] on [usize]: an overflow panics. *)
Definition usize_sub {E} (a b : Z) : Res E Z :=
  if bool_decide (b ≤ a) then Ok (a - b) else Panic.

Lemma wrap_small w z : 0 ≤ z < 2 ^ w → wrap w z = z.
Proof. apply Z.mod_small. Qed.

Lemma wrap_range w z : 0 ≤ w → 0 ≤ wrap w z < 2 ^ w.
Proof. intros. apply Z.mod_pos_bound. lia. Qed.

Lemma swrap_small w z : - 2 ^ (w - 1) ≤ z < 2 ^ (w - 1) → 0 < w → swrap w z = z.
Proof.
  intros Hz Hw. unfold swrap.
  assert (2 ^ w = 2 * 2 ^ (w - 1)) as ->.
  { rewrite <- Z.pow_succ_r by lia. f_equal. lia. }
  rewrite Z.mod_small; lia.
Qed.

Lemma swrap_range w z : 0 < w → - 2 ^ (w - 1) ≤ swrap w z < 2 ^ (w - 1).
Proof.
  intros Hw. unfold swrap.
  assert (2 ^ w = 2 * 2 ^ (w - 1)) as ->.
  { rewrite <- Z.pow_succ_r by lia. f_equal. lia. }
  pose proof (Z.mod_pos_bound (z + 2 ^ (w - 1)) (2 * 2 ^ (w - 1))). lia.
Qed.

Lemma swrap_wrap w z : 0 ≤ w → swrap w (wrap w z) = swrap w z.
Proof.
  intros Hw. unfold swrap, wrap. rewrite Z.add_mod_idemp_l; [done|].
  apply Z.pow_nonzero; lia.
Qed.

Lemma wrap_swrap w z : 0 ≤ w → wrap w (swrap w z) = wrap w z.
Proof.
  intros Hw. unfold swrap, wrap. rewrite Zminus_mod_idemp_l. f_equal. lia.
Qed.

(** A value cast to the signed type of its width and back is unchanged. *)
Lemma u32_i32_u32 z : u32_range z → wrap 32 (swrap 32 z) = z.
Proof. intros. rewrite wrap_swrap by lia. by apply wrap_small. Qed.

Lemma u64_i64_u64 z : u64_range z → wrap 64 (swrap 64 z) = z.
Proof. intros. rewrite wrap_swrap by lia. by apply wrap_small. Qed.

Lemma i32_of_u32_range z : i32_range (swrap 32 z).
Proof. apply (swrap_range 32); lia. Qed.

Lemma i64_of_u64_range z : i64_range (swrap 64 z).
Proof. apply (swrap_range 64); lia. Qed.

Lemma u32_wrap_range z : u32_range (wrap 32 z).
Proof. by apply wrap_range. Qed.

Create HintDb ranges.
Create Rewrite HintDb ranges.
#[export] Hint Resolve i32_of_u32_range i64_of_u64_range u32_wrap_range : ranges.
#[export] Hint Rewrite u32_i32_u32 u64_i64_u64 using done : ranges.

(** ** Byte buffers

    A Rust slice or vector of bytes is a [list byte]; lengths and offsets
    are [Z], as the code computes them. [slice d a b] is [&d[a..b]], which
    panics unless [a <= b <= d.len()]. *)
#[global] Instance byte_eq_dec : EqDecision byte := Byte.byte_eq_dec.

Definition len {A} (l : list A) : Z := Z.of_nat (length l).

Definition slice {E A} (d : list A) (a b : Z) : Res E (list A) :=
  if bool_decide (0 ≤ a ∧ a ≤ b ∧ b ≤ len d)
  then Ok (take (Z.to_nat (b - a)) (drop (Z.to_nat a) d))
  else Panic.

Definition slice_from {E A} (d : list A) (a : Z) : Res E (list A) := slice d a (len d).

(** [x.to_ne_bytes()] and [uN::from_ne_bytes(..)]: the supported target is
    x86_64, so native order is little-endian. *)
Definition u16_bytes (z : Z) : list byte := le_split 2 z.
Definition u32_bytes (z : Z) : list byte := le_split 4 z.
Definition u64_bytes (z : Z) : list byte := le_split 8 z.

Definition read_u32 {E} (d : list byte) (a : Z) : Res E Z :=
  bs ← slice d a (a + 4); Ok (le_combine bs).
Definition read_u64 {E} (d : list byte) (a : Z) : Res E Z :=
  bs ← slice d a (a + 8); Ok (le_combine bs).

Definition zeros (n : Z) : list byte := replicate (Z.to_nat n) Byte.x00.

Lemma len_nonneg {A} (l : list A) : 0 ≤ len l.
Proof. unfold len. lia. Qed.
Lemma len_nil {A} : len (@nil A) = 0.
Proof. done. Qed.
Lemma len_cons {A} (x : A) l : len (x :: l) = 1 + len l.
Proof. unfold len. simpl. lia. Qed.
Lemma len_app {A} (l k : list A) : len (l ++ k) = len l + len k.
Proof. unfold len. rewrite length_app. lia. Qed.
Lemma len_u32_bytes z : len (u32_bytes z) = 4.
Proof. unfold len, u32_bytes. by rewrite length_le_split. Qed.
Lemma len_u64_bytes z : len (u64_bytes z) = 8.
Proof. unfold len, u64_bytes. by rewrite length_le_split. Qed.
Lemma len_zeros n : 0 ≤ n → len (zeros n) = n.
Proof. intros. unfold len, zeros. rewrite length_replicate. lia. Qed.
Lemma len_take {A} n (l : list A) : 0 ≤ n ≤ len l → len (take (Z.to_nat n) l) = n.
Proof. unfold len. intros. rewrite length_take. lia. Qed.
Lemma len_drop {A} n (l : list A) : 0 ≤ n ≤ len l → len (drop (Z.to_nat n) l) = len l - n.
Proof. unfold len. intros. rewrite length_drop. lia. Qed.
Lemma len_map {A B} (f : A → B) l : len (f <$> l) = len l.
Proof. unfold len. by rewrite length_fmap. Qed.

Create Rewrite HintDb len.
#[export] Hint Rewrite @len_nil @len_cons @len_app len_u32_bytes len_u64_bytes @len_map : len.
#[export] Hint Rewrite len_zeros using lia : len.
#[export] Hint Rewrite @len_take @len_drop using lia : len.

(** Arithmetic on lengths. *)
Ltac len_facts :=
  repeat match goal with
  | |- context [len ?l] =>
      lazymatch goal with
      | _ : 0 ≤ len l |- _ => fail
      | _ => pose proof (len_nonneg l)
      end
  | _ : context [len ?l] |- _ =>
      lazymatch goal with
      | _ : 0 ≤ len l |- _ => fail
      | _ => pose proof (len_nonneg l)
      end
  end.
Ltac len_lia := autorewrite with len in *; len_facts; lia.

(** Slices of concatenations, read piece by piece. *)
Section slices.
Context {E A : Type}.
Implicit Types (x y d : list A).

Lemma slice_Ok d a b :
  0 ≤ a → a ≤ b → b ≤ len d →
  slice (E:=E) d a b = Ok (take (Z.to_nat (b - a)) (drop (Z.to_nat a) d)).
Proof. intros. unfold slice. by rewrite bool_decide_eq_true_2. Qed.

Lemma slice_inv d a b s :
  slice (E:=E) d a b = Ok s →
  0 ≤ a ∧ a ≤ b ∧ b ≤ len d ∧ s = take (Z.to_nat (b - a)) (drop (Z.to_nat a) d).
Proof. unfold slice. case_bool_decide; naive_solver. Qed.

Lemma slice_len d a b s : slice (E:=E) d a b = Ok s → len s = b - a.
Proof.
  intros (Ha & Hb & Hc & ->)%slice_inv. unfold len in *.
  rewrite length_take, length_drop. lia.
Qed.

Lemma slice_hd x y a b : a = 0 → b = len x → slice (E:=E) (x ++ y) a b = Ok x.
Proof.
  intros -> ->. rewrite slice_Ok by len_lia.
  rewrite drop_0. f_equal. replace (Z.to_nat (len x - 0)) with (length x) by (unfold len; lia).
  apply take_app_length.
Qed.

Lemma slice_skip x y a b :
  len x ≤ a → slice (E:=E) (x ++ y) a b = slice y (a - len x) (b - len x).
Proof.
  intros Ha. unfold slice.
  destruct (decide (0 ≤ a ∧ a ≤ b ∧ b ≤ len (x ++ y))) as [H|H].
  - rewrite !bool_decide_eq_true_2 by len_lia. do 2 f_equal; [lia|].
    rewrite drop_app_ge by (unfold len in Ha; lia). f_equal. unfold len. lia.
  - rewrite !bool_decide_eq_false_2; [done|len_lia|done].
Qed.

Lemma slice_app_l x y a b : b ≤ len x → slice (E:=E) (x ++ y) a b = slice x a b.
Proof.
  intros Hb. unfold slice.
  destruct (decide (0 ≤ a ∧ a ≤ b ∧ b ≤ len x)) as [H|H].
  - rewrite !bool_decide_eq_true_2 by len_lia. f_equal.
    unfold len in *. rewrite drop_app_le by lia. rewrite take_app_le; [done|].
    rewrite length_drop. lia.
  - rewrite !bool_decide_eq_false_2; [done|done|len_lia].
Qed.

Lemma slice_all d a b : a = 0 → b = len d → slice (E:=E) d a b = Ok d.
Proof.
  intros -> ->. rewrite <- (app_nil_r d) at 1. by apply slice_hd.
Qed.

Lemma slice_total d a b : 0 ≤ a → a ≤ b → b ≤ len d → total (slice (E:=E) d a b).
Proof. intros. rewrite slice_Ok by done. discriminate. Qed.
End slices.

Lemma read_u32_total {E} d a : 0 ≤ a → a + 4 ≤ len d → total (read_u32 (E:=E) d a).
Proof. intros. unfold read_u32. rewrite slice_Ok by lia. discriminate. Qed.

Lemma le_combine_range4 bs : len bs = 4 → u32_range (le_combine bs).
Proof. intros H. pose proof (le_combine_bound bs). unfold len in H. rewrite H in *. done. Qed.

Lemma le_combine_range8 bs : len bs = 8 → u64_range (le_combine bs).
Proof. intros H. pose proof (le_combine_bound bs). unfold len in H. rewrite H in *. done. Qed.

Lemma read_u32_range {E} d a v : read_u32 (E:=E) d a = Ok v → u32_range v.
Proof.
  unfold read_u32. intros H. res_inv. apply le_combine_range4.
  erewrite slice_len by done. lia.
Qed.

Lemma combine_u32_bytes z : le_combine (u32_bytes z) = wrap 32 z.
Proof. apply le_combine_split. Qed.
Lemma combine_u64_bytes z : le_combine (u64_bytes z) = wrap 64 z.
Proof. apply le_combine_split. Qed.

(** The bytes of a word only depend on its low 32 bits. *)
Lemma u32_bytes_wrap z : u32_bytes (wrap 32 z) = u32_bytes z.
Proof. unfold u32_bytes, wrap. symmetry. apply (le_split_mod z 4). Qed.

Lemma read_u32_hd {E} z y a : a = 0 → read_u32 (E:=E) (u32_bytes z ++ y) a = Ok (wrap 32 z).
Proof.
  intros ->. unfold read_u32. rewrite slice_hd by (by rewrite ?len_u32_bytes).
  simpl. by rewrite combine_u32_bytes.
Qed.

Lemma read_u32_skip {E} x y a :
  len x ≤ a → read_u32 (E:=E) (x ++ y) a = read_u32 y (a - len x).
Proof.
  intros. unfold read_u32. rewrite slice_skip by done. do 2 f_equal. lia.
Qed.

Lemma read_u32_app_l {E} x y a :
  a + 4 ≤ len x → read_u32 (E:=E) (x ++ y) a = read_u32 x a.
Proof. intros. unfold read_u32. by rewrite slice_app_l. Qed.

Lemma read_u32_ok {E} d a :
  0 ≤ a → a + 4 ≤ len d → ∃ v, read_u32 (E:=E) d a = Ok v ∧ 0 ≤ v < 2 ^ 32.
Proof.
  intros. destruct (read_u32 d a) as [v|e|] eqn:Hr.
  - exists v. split; [done|]. by eapply read_u32_range.
  - exfalso. revert Hr. unfold read_u32. rewrite slice_Ok by lia. done.
  - by apply read_u32_total in Hr.
Qed.

Lemma read_u32_bytes {E} z : read_u32 (E:=E) (u32_bytes z) 0 = Ok (wrap 32 z).
Proof. rewrite <- (app_nil_r (u32_bytes z)). by apply read_u32_hd. Qed.

Lemma read_u64_bytes {E} z : read_u64 (E:=E) (u64_bytes z) 0 = Ok (wrap 64 z).
Proof.
  unfold read_u64. rewrite slice_all by (rewrite ?len_u64_bytes; done).
  simpl. by rewrite combine_u64_bytes.
Qed.

Lemma read_u64_ok {E} d a :
  0 ≤ a → a + 8 ≤ len d → ∃ v, read_u64 (E:=E) d a = Ok v ∧ u64_range v.
Proof.
  intros. unfold read_u64. rewrite slice_Ok by lia. simpl. eexists; split; [done|].
  apply le_combine_range8. autorewrite with len. rewrite len_take; [lia|]. rewrite len_drop; lia.
Qed.

#[global] Opaque u32_bytes u64_bytes read_u32.

(** Reduce a bind whose first computation is known. *)
Ltac res_cbn := cbn beta iota zeta delta [mbind res_bind].

(** Evaluate the next read or slice, at a constant offset of a concatenation. *)
Ltac slice_at r :=
  match r with
  | @read_u32 ?E (u32_bytes ?z ++ ?y) ?a => rewrite (@read_u32_hd E z y a) by len_lia
  | @read_u32 ?E (?x ++ ?y) ?a => rewrite (@read_u32_skip E x y a) by len_lia
  | @slice ?E ?A (?x ++ ?y) ?a ?b =>
      first [ rewrite (@slice_hd E A x y a b) by len_lia
            | rewrite (@slice_skip E A x y a b) by len_lia ]
  | @slice ?E ?A ?x ?a ?b => rewrite (@slice_all E A x a b) by len_lia
  end.
Ltac slice_step :=
  match goal with
  | |- mbind (M:=Res _) _ (mbind (M:=Res _) _ ?r) = _ => slice_at r
  | |- mbind (M:=Res _) _ ?r = _ => slice_at r
  | |- context [mbind (M:=Res _) _ ?r] => slice_at r
  end; res_cbn.

(** ** Writing into a borrowed buffer

    Code that takes [data: &mut [u8]] is a computation on the buffer's
    contents: it returns the new contents, of the same length, together with
    its outcome, so what a failing call leaves behind stays visible. *)
Definition W (E A : Type) : Type := list byte → list byte * Res E A.

#[global] Instance w_ret {E} : MRet (W E) := λ A a data, (data, Ok a).
#[global] Instance w_bind {E} : MBind (W E) := λ A B f m data,
  match m data with
  | (data', Ok a) => f a data'
  | (data', Err e) => (data', Err e)
  | (data', Panic) => (data', Panic)
  end.

Definition w_err {E A} (e : E) : W E A := λ data, (data, Err e).

(** [data[a..a + bs.len()].copy_from_slice(bs)] *)
Definition put_at {E} (a : Z) (bs : list byte) : W E unit := λ data,
  if bool_decide (0 ≤ a ∧ a + len bs ≤ len data)
  then (take (Z.to_nat a) data ++ bs ++ drop (Z.to_nat (a + len bs)) data, Ok tt)
  else (data, Panic).

(** Run [m] on [&mut data[a..]]. *)
Definition within {E A} (a : Z) (m : W E A) : W E A := λ data,
  if bool_decide (0 ≤ a ≤ len data)
  then let '(d, r) := m (drop (Z.to_nat a) data) in (take (Z.to_nat a) data ++ d, r)
  else (data, Panic).

(** [writes w m bs a]: run after [w] has been written, [m] writes exactly
    [bs] behind it and returns [a], whatever the rest of the buffer holds. *)
Definition writes {E A} (w : list byte) (m : W E A) (bs : list byte) (a : A) : Prop :=
  ∀ data, len w + len bs ≤ len data →
    m (w ++ drop (length w) data) = ((w ++ bs) ++ drop (length (w ++ bs)) data, Ok a).

Section writes_lemmas.
Context {E : Type}.

Lemma writes_ret {A} w (a : A) : writes (E:=E) w (mret a) [] a.
Proof. intros data _. by rewrite app_nil_r. Qed.

Lemma writes_bind {A B} w (m : W E A) (f : A → W E B) bs cs a b :
  writes w m bs a → writes (w ++ bs) (f a) cs b → writes w (m ≫= f) (bs ++ cs) b.
Proof.
  intros Hm Hf data Hlen. unfold mbind, w_bind.
  rewrite Hm by len_lia. rewrite Hf by len_lia. by rewrite !app_assoc.
Qed.

Lemma writes_put w a bs : a = len w → writes (E:=E) w (put_at a bs) bs tt.
Proof.
  intros -> data Hlen. unfold put_at.
  assert (length (drop (length w) data) = (length data - length w)%nat) by apply length_drop.
  rewrite bool_decide_eq_true_2 by (unfold len in *; rewrite length_app; lia).
  f_equal. unfold len. rewrite take_app_length' by lia.
  rewrite drop_app_ge by lia. rewrite drop_drop, length_app, <- app_assoc.
  do 3 f_equal. lia.
Qed.

Lemma writes_within {A} w off (m : W E A) bs a :
  off = len w → writes [] m bs a → writes w (within off m) bs a.
Proof.
  intros -> Hm data Hlen. unfold within.
  assert (length (drop (length w) data) = (length data - length w)%nat) by apply length_drop.
  rewrite bool_decide_eq_true_2 by (unfold len in *; rewrite length_app; lia).
  replace (Z.to_nat (len w)) with (length w) by (unfold len; lia).
  rewrite drop_app_length. specialize (Hm (drop (length w) data)).
  simpl in Hm. rewrite drop_0 in Hm. rewrite Hm by (unfold len in *; simpl; lia).
  rewrite take_app_length. rewrite drop_drop, length_app, app_assoc. done.
Qed.

Lemma writes_run {A} (m : W E A) bs a data :
  writes [] m bs a → len bs ≤ len data → m data = (bs ++ drop (length bs) data, Ok a).
Proof. intros Hm Hl. specialize (Hm data). simpl in Hm. rewrite drop_0 in Hm. apply Hm. len_lia. Qed.

Lemma within_app {A} (m : W E A) off w d :
  off = len w → within off m (w ++ d) = (w ++ (m d).1, (m d).2).
Proof.
  intros ->. unfold within. rewrite bool_decide_eq_true_2 by len_lia.
  replace (Z.to_nat (len w)) with (length w) by (unfold len; lia).
  rewrite drop_app_length, take_app_length. by destruct (m d).
Qed.

Lemma bind_run {A B} (m : W E A) (f : A → W E B) data d a :
  m data = (d, Ok a) → (m ≫= f) data = f a d.
Proof. intros Hm. unfold mbind, w_bind. by rewrite Hm. Qed.

Lemma bind_run_err {A B} (m : W E A) (f : A → W E B) data d e :
  m data = (d, Err e) → (m ≫= f) data = (d, Err e).
Proof. intros Hm. unfold mbind, w_bind. by rewrite Hm. Qed.

Lemma writes_eq {A} w (m : W E A) bs bs' a a' :
  writes w m bs a → bs = bs' → a = a' → writes w m bs' a'.
Proof. by intros ? -> ->. Qed.

Lemma put_at_len a bs data : len (put_at (E:=E) a bs data).1 = len data.
Proof.
  unfold put_at. case_bool_decide; simpl; [|done].
  autorewrite with len. rewrite len_take, len_drop; len_lia.
Qed.

Lemma bind_len {A B} (m : W E A) (f : A → W E B) data :
  len (m data).1 = len data →
  (∀ a, len (f a (m data).1).1 = len (m data).1) →
  len ((m ≫= f) data).1 = len data.
Proof.
  intros Hm Hf. unfold mbind, w_bind. destruct (m data) as [d [a|e|]]; simpl in *; [|done..].
  by rewrite Hf.
Qed.
End writes_lemmas.

(** Past the end of the buffer both panic. *)
Lemma within_beyond {E A} (m : W E A) pos data :
  len data < pos → within pos m data = (data, Panic).
Proof.
  intros. unfold within. by rewrite bool_decide_eq_false_2 by lia.
Qed.

Lemma put_at_beyond {E} a bs data : len data < a + len bs → put_at (E:=E) a bs data = (data, Panic).
Proof.
  intros. unfold put_at. by rewrite bool_decide_eq_false_2 by lia.
Qed.

#[global] Opaque put_at within.

(** Decompose a straight-line writer into its pieces. *)
Ltac writes_step :=
  first
    [ eapply writes_bind
    | eapply writes_put; len_lia
    | eapply writes_ret
    | eapply writes_within; [len_lia|] ].
