(* ===== verification/Utf8.v ===== *)
(** * UTF-8 strings as byte lists

    A Rust [String] or [&str] is a byte list that is valid UTF-8. The string
    decoder of [spa/src/pod/mod.rs] passes untrusted bytes through the
    standard library's [String::from_utf8_lossy], which copies every valid
    sequence and replaces each maximal invalid prefix (one to three bytes)
    with U+FFFD. This file models that function and shows that its result is
    always valid UTF-8 and that it is the identity on valid strings. *)

From S2P Require Import Prelude.

Definition byte_in (lo hi : Z) (o : option byte) : bool :=
  match o with
  | Some b => (lo <=? byte.unsigned b) && (byte.unsigned b <=? hi)
  | None => false
  end.

Definition is_cont : option byte → bool := byte_in 0x80 0xBF.

(** Which second bytes may follow a three- or four-byte lead. *)
Definition second_of_3 (x : Z) : option byte → bool :=
  if x =? 0xE0 then byte_in 0xA0 0xBF
  else if x =? 0xED then byte_in 0x80 0x9F
  else is_cont.
Definition second_of_4 (x : Z) : option byte → bool :=
  if x =? 0xF0 then byte_in 0x90 0xBF
  else if x =? 0xF4 then byte_in 0x80 0x8F
  else is_cont.

(** Length of the next sequence and whether it is a complete character. *)
Definition utf8_char (bs : list byte) : nat * bool :=
  match bs with
  | [] => (0%nat, false)
  | b :: r =>
      let x := byte.unsigned b in
      if x <? 0x80 then (1%nat, true)
      else if (0xC2 <=? x) && (x <=? 0xDF) then
        if is_cont (r !! 0%nat) then (2%nat, true) else (1%nat, false)
      else if (0xE0 <=? x) && (x <=? 0xEF) then
        if second_of_3 x (r !! 0%nat) then
          if is_cont (r !! 1%nat) then (3%nat, true) else (2%nat, false)
        else (1%nat, false)
      else if (0xF0 <=? x) && (x <=? 0xF4) then
        if second_of_4 x (r !! 0%nat) then
          if is_cont (r !! 1%nat) then
            if is_cont (r !! 2%nat) then (4%nat, true) else (3%nat, false)
          else (2%nat, false)
        else (1%nat, false)
      else (1%nat, false)
  end.

Definition replacement_char : list byte := [Byte.xef; Byte.xbf; Byte.xbd].

Fixpoint lossy (fuel : nat) (bs : list byte) : list byte :=
  match fuel, bs with
  | S fuel, _ :: _ =>
      let '(n, ok) := utf8_char bs in
      (if ok then take n bs else replacement_char) ++ lossy fuel (drop n bs)
  | _, _ => []
  end.

Fixpoint valid (fuel : nat) (bs : list byte) : bool :=
  match fuel, bs with
  | S fuel, _ :: _ =>
      let '(n, ok) := utf8_char bs in ok && valid fuel (drop n bs)
  | _, _ => true
  end.

(** One character at least is consumed per step: the length is enough fuel. *)
Definition from_utf8_lossy (bs : list byte) : list byte := lossy (length bs) bs.
Definition utf8_valid (bs : list byte) : bool := valid (length bs) bs.

Lemma utf8_char_pos b r : (1 ≤ (utf8_char (b :: r)).1)%nat.
Proof. simpl. repeat case_match; simpl; lia. Qed.

Lemma byte_in_lookup lo hi (r : list byte) i : byte_in lo hi (r !! i) = true → (i < length r)%nat.
Proof.
  destruct (r !! i) eqn:Hi; simpl; [|done]. intros _. by eapply lookup_lt_Some.
Qed.

Lemma second_of_3_lookup x (r : list byte) i : second_of_3 x (r !! i) = true → (i < length r)%nat.
Proof. unfold second_of_3, is_cont. repeat case_match; apply byte_in_lookup. Qed.
Lemma second_of_4_lookup x (r : list byte) i : second_of_4 x (r !! i) = true → (i < length r)%nat.
Proof. unfold second_of_4, is_cont. repeat case_match; apply byte_in_lookup. Qed.

Lemma utf8_char_length bs n : utf8_char bs = (n, true) → (n ≤ length bs)%nat.
Proof.
  destruct bs as [|b r]; simpl; [congruence|].
  intros H. repeat case_match; simplify_eq/=; try lia;
    repeat match goal with
    | H : is_cont _ = true |- _ => apply byte_in_lookup in H
    | H : second_of_3 _ _ = true |- _ => apply second_of_3_lookup in H
    | H : second_of_4 _ _ = true |- _ => apply second_of_4_lookup in H
    end; lia.
Qed.

(** A complete character is recognised whatever follows it. *)
Lemma utf8_char_app bs n rest :
  utf8_char bs = (n, true) → utf8_char (take n bs ++ rest) = (n, true).
Proof.
  intros H. pose proof (utf8_char_length _ _ H) as Hlen.
  destruct bs as [|b r]; [simpl in H; congruence|].
  pose proof (utf8_char_pos b r) as Hp. rewrite H in Hp. simpl in Hp.
  assert (∀ i, (S i < n)%nat → (take (n - 1) r ++ rest) !! i = r !! i) as Hl.
  { intros i Hi. simpl in Hlen. rewrite lookup_app_l by (rewrite length_take; lia).
    apply lookup_take_lt. lia. }
  destruct n as [|n]; [lia|]. simpl in Hl. rewrite Nat.sub_0_r in Hl.
  simpl in *. repeat case_match; simplify_eq/=; try done;
    repeat match goal with
    | H : context [(take _ _ ++ _) !! _] |- _ => rewrite Hl in H by lia
    end; congruence.
Qed.

Lemma valid_fuel f g bs :
  (length bs ≤ f)%nat → (length bs ≤ g)%nat → valid f bs = valid g bs.
Proof.
  revert g bs. induction f as [|f IH]; intros [|g] bs Hf Hg; destruct bs as [|b r];
    simpl in Hf, Hg; try done; try lia.
  cbn [valid]. destruct (utf8_char (b :: r)) as [n ok] eqn:Hc.
  pose proof (utf8_char_pos b r) as Hp. rewrite Hc in Hp. simpl in Hp.
  f_equal. apply IH; rewrite length_drop; simpl; lia.
Qed.

Lemma utf8_valid_char bs n rest :
  utf8_char bs = (n, true) → utf8_valid rest = true → utf8_valid (take n bs ++ rest) = true.
Proof.
  intros Hc Hr. pose proof (utf8_char_app _ _ rest Hc) as Ha.
  pose proof (utf8_char_length _ _ Hc) as Hl.
  destruct bs as [|b r]; [simpl in Hc; congruence|].
  pose proof (utf8_char_pos b r) as Hp. rewrite Hc in Hp. simpl in Hp.
  assert (length (take n (b :: r)) = n) as Ht by (rewrite length_take; lia).
  unfold utf8_valid. destruct (take n (b :: r)) as [|c cs] eqn:Hk; [simpl in Ht; lia|].
  rewrite <- app_comm_cons in *. cbn [length valid]. rewrite Ha. simpl andb.
  rewrite app_comm_cons, <- Ht, drop_app_length.
  unfold utf8_valid in Hr. rewrite <- Hr. apply valid_fuel; [|done].
  rewrite length_app. lia.
Qed.

Lemma lossy_valid fuel bs : (length bs ≤ fuel)%nat → utf8_valid (lossy fuel bs) = true.
Proof.
  revert bs. induction fuel as [|f IH]; intros [|b r] Hf; simpl in Hf; try done; try lia.
  cbn [lossy]. destruct (utf8_char (b :: r)) as [n ok] eqn:Hc.
  pose proof (utf8_char_pos b r) as Hp. rewrite Hc in Hp. simpl in Hp.
  assert (utf8_valid (lossy f (drop n (b :: r))) = true) as Hv.
  { apply IH. rewrite length_drop. simpl. lia. }
  destruct ok; [by apply utf8_valid_char|].
  by apply (utf8_valid_char replacement_char 3%nat).
Qed.

Lemma from_utf8_lossy_valid bs : utf8_valid (from_utf8_lossy bs) = true.
Proof. by apply lossy_valid. Qed.

Lemma from_utf8_lossy_id bs : utf8_valid bs = true → from_utf8_lossy bs = bs.
Proof.
  unfold utf8_valid, from_utf8_lossy.
  assert (∀ f cs, (length cs ≤ f)%nat → valid f cs = true → lossy f cs = cs) as Hgen.
  { intros f. induction f as [|f IH]; intros [|b r] Hf Hv; simpl in Hf; try done; try lia.
    cbn [lossy valid] in *. destruct (utf8_char (b :: r)) as [n ok] eqn:Hc.
    pose proof (utf8_char_pos b r) as Hp. rewrite Hc in Hp. simpl in Hp.
    apply andb_true_iff in Hv as [-> Hv]. rewrite IH; [apply take_drop|..|done].
    rewrite length_drop. simpl. lia. }
  by apply Hgen.
Qed.
