(* ===== verification/PodTypes.v ===== *)
(** * SPA POD data types

    Models [spa/src/pod/types.rs] and the [EnumU32] derive macro of
    [macros/src/derive_enum_u32.rs] that gives its enumerations their
    conversions from and to the wire. *)

From S2P Require Import Prelude.

(** ** The EnumU32 derive macro

    The macro walks the variants once. A variant's value is its explicit
    discriminant, or one more than the previous value, or 0 for a first
    variant without one; [try_from] tests the values in declaration order. *)
Section derive_enum.
Context {V : Type} `{EqDecision V}.

Fixpoint variant_values (last_value : option Z) (vs : list (V * option Z)) : list (V * Z) :=
  match vs with
  | [] => []
  | (id, disc) :: vs =>
      let value :=
        match disc with
        | Some d => d
        | None => match last_value with Some v => v + 1 | None => 0 end
        end in
      (id, value) :: variant_values (Some value) vs
  end.

Fixpoint derive_try_from (arms : list (V * Z)) (value : Z) : option V :=
  match arms with
  | [] => None
  | (id, z) :: arms => if value =? z then Some id else derive_try_from arms value
  end.

Fixpoint derive_into (arms : list (V * Z)) (v : V) : Z :=
  match arms with
  | [] => 0
  | (id, z) :: arms => if decide (v = id) then z else derive_into arms v
  end.

Lemma derive_try_from_elem arms z v : derive_try_from arms z = Some v → (v, z) ∈ arms.
Proof.
  induction arms as [|[id z'] arms IH]; simpl; [done|].
  destruct (Z.eqb_spec z z') as [->|]; intros; simplify_eq; [by left|right; by apply IH].
Qed.

Lemma derive_into_elem arms v : v ∈ arms.*1 → (v, derive_into arms v) ∈ arms.
Proof.
  induction arms as [|[id z'] arms IH]; simpl; [intros []%not_elem_of_nil|].
  intros [->|Hin]%elem_of_cons; case_decide; simplify_eq; try by left.
  right. by apply IH.
Qed.

Lemma derive_try_from_hit arms z v :
  NoDup (arms.*2) → (v, z) ∈ arms → derive_try_from arms z = Some v.
Proof.
  induction arms as [|[id z'] arms IH]; simpl; [intros _ []%not_elem_of_nil|].
  intros [Hnin Hnd]%NoDup_cons [Heq|Hin]%elem_of_cons; simplify_eq.
  - by rewrite Z.eqb_refl.
  - destruct (Z.eqb_spec z z') as [->|]; [|by apply IH].
    destruct Hnin. apply list_elem_of_fmap. by exists (v, z').
Qed.

Lemma derive_into_hit arms z v :
  NoDup (arms.*1) → (v, z) ∈ arms → derive_into arms v = z.
Proof.
  induction arms as [|[id z'] arms IH]; simpl; [intros _ []%not_elem_of_nil|].
  intros [Hnin Hnd]%NoDup_cons [Heq|Hin]%elem_of_cons; case_decide; simplify_eq; try done.
  - destruct Hnin. apply list_elem_of_fmap. by exists (id, z).
  - by apply IH.
Qed.
End derive_enum.

(** ** Values that travel as a u32: [T: Into<u32> + TryFrom<u32>] *)
Class U32Conv (T : Type) := {
  into_u32 : T → Z;
  try_from_u32 : Z → option T;
}.

#[global] Arguments into_u32 : simpl never.
#[global] Arguments try_from_u32 : simpl never.

(** What the codecs rely on: converting to the wire and back is the identity
    on the values of the type, and whatever [try_from] accepts is such a value. *)
Class U32ConvLaws (T : Type) `{U32Conv T} := {
  u32_ok : T → Prop;
  into_u32_range t : u32_ok t → u32_range (into_u32 t);
  try_from_into t : u32_ok t → try_from_u32 (into_u32 t) = Some t;
  try_from_ok z t : u32_range z → try_from_u32 z = Some t → u32_ok t ∧ into_u32 t = z;
}.

(** [u32] itself. *)
#[global] Instance u32_conv : U32Conv Z :=
  {| into_u32 := λ z, z; try_from_u32 := λ z, Some z |}.
#[global, refine] Instance u32_conv_laws : U32ConvLaws Z :=
  {| u32_ok := u32_range |}.
Proof. all: unfold into_u32, try_from_u32; simpl; naive_solver. Defined.

(** Laws of a derived enumeration, from a table that lists every variant
    once, with distinct u32 values. *)
Definition derived_conv {V} `{EqDecision V} (vs : list (V * option Z)) : U32Conv V :=
  {| into_u32 := derive_into (variant_values None vs);
     try_from_u32 := derive_try_from (variant_values None vs) |}.

Definition table_ok {V} `{EqDecision V} (vs : list (V * option Z)) : bool :=
  let arms := variant_values None vs in
  bool_decide (NoDup (arms.*1)) && bool_decide (NoDup (arms.*2)) &&
  forallb (λ z, (0 <=? z) && (z <? 2 ^ 32)) (arms.*2).

Lemma table_ok_spec {V} `{EqDecision V} (vs : list (V * option Z)) :
  table_ok vs = true →
  NoDup ((variant_values None vs).*1) ∧ NoDup ((variant_values None vs).*2) ∧
  ∀ v z, (v, z) ∈ variant_values None vs → u32_range z.
Proof.
  unfold table_ok. rewrite !andb_true_iff, !bool_decide_eq_true.
  intros [[Hn1 Hn2] Hr]. split_and!; [done..|]. intros v z Hin. rewrite forallb_forall in Hr.
  specialize (Hr z). rewrite andb_true_iff, Z.leb_le, Z.ltb_lt in Hr. apply Hr.
  apply list_elem_of_In, list_elem_of_fmap. by exists (v, z).
Qed.

#[refine] Definition derived_laws {V} `{EqDecision V} (vs : list (V * option Z))
    (Hok : table_ok vs = true) (Hall : ∀ v, v ∈ (variant_values None vs).*1) :
    @U32ConvLaws V (derived_conv vs) :=
  {| u32_ok := λ _, True |}.
Proof.
  all: pose proof (table_ok_spec vs Hok) as (Hn1 & Hn2 & Hrange);
    unfold into_u32, try_from_u32; simpl.
  - intros t _. eapply Hrange, derive_into_elem, Hall.
  - intros t _. apply derive_try_from_hit; [done|]. apply derive_into_elem, Hall.
  - intros z t _ Ht. split; [done|]. apply derive_into_hit; [done|].
    by apply derive_try_from_elem.
Defined.

Ltac solve_table :=
  apply derived_laws; [vm_compute; reflexivity|intros []; vm_compute; repeat (first [by left|right])].

(** ** enum Type *)
Inductive PodType :=
| TStart | TNone | TBool | TId | TInt | TLong | TFloat | TDouble | TString | TBytes
| TRectangle | TFraction | TBitmap | TArray | TStruct | TObject | TSequence | TPointer
| TFd | TChoice | TPod.

#[global] Instance PodType_eq_dec : EqDecision PodType.
Proof. solve_decision. Defined.

Definition PodType_variants : list (PodType * option Z) :=
  [(TStart, Some 0); (TNone, None); (TBool, None); (TId, None); (TInt, None); (TLong, None);
   (TFloat, None); (TDouble, None); (TString, None); (TBytes, None); (TRectangle, None);
   (TFraction, None); (TBitmap, None); (TArray, None); (TStruct, None); (TObject, None);
   (TSequence, None); (TPointer, None); (TFd, None); (TChoice, None); (TPod, None)].

#[global] Instance PodType_conv : U32Conv PodType := derived_conv PodType_variants.
#[global] Instance PodType_laws : U32ConvLaws PodType.
Proof. solve_table. Defined.

Lemma PodType_range (t : PodType) : u32_range (into_u32 t).
Proof. apply into_u32_range. exact I. Qed.
#[export] Hint Resolve PodType_range : ranges.

Definition is_primitive (t : PodType) : bool :=
  match t with
  | TNone | TBool | TId | TInt | TLong | TFloat | TDouble | TRectangle | TFraction | TFd => true
  | _ => false
  end.

(** ** enum ObjectType *)
Inductive ObjectType :=
| OStart | OPropInfo | OProps | OFormat | OParamBuffers | OParamMeta | OParamIo
| OParamProfile | OParamPortConfig | OParamRoute | OProfiler | OParamLatency
| OParamProcessLatency | OParamTag.

#[global] Instance ObjectType_eq_dec : EqDecision ObjectType.
Proof. solve_decision. Defined.

Definition ObjectType_variants : list (ObjectType * option Z) :=
  [(OStart, Some 0x40000); (OPropInfo, None); (OProps, None); (OFormat, None);
   (OParamBuffers, None); (OParamMeta, None); (OParamIo, None); (OParamProfile, None);
   (OParamPortConfig, None); (OParamRoute, None); (OProfiler, None); (OParamLatency, None);
   (OParamProcessLatency, None); (OParamTag, None)].

#[global] Instance ObjectType_conv : U32Conv ObjectType := derived_conv ObjectType_variants.
#[global] Instance ObjectType_laws : U32ConvLaws ObjectType.
Proof. solve_table. Defined.

(** ** Compound values *)
Record Id (T : Type) := mkId { id_value : T }.
Arguments mkId {T} _.
Arguments id_value {T} _.

(** A pointer is its address; [*const c_void] is 64 bits wide on the target. *)
Record Pointer := mkPointer { ptr_type : PodType; ptr : Z }.

Record Fd := mkFd { fd_value : Z }.
Record Rectangle := mkRectangle { width : Z; height : Z }.
Record Fraction := mkFraction { num : Z; denom : Z }.

Inductive Choice (T : Type) :=
| ChNone (v : T)
| ChRange (default min max : T)
| ChStep (default min max step : T)
| ChEnum (default : T) (alternatives : list T)
| ChFlags (default flags : T).
Arguments ChNone {T} _.
Arguments ChRange {T} _ _ _.
Arguments ChStep {T} _ _ _ _.
Arguments ChEnum {T} _ _.
Arguments ChFlags {T} _ _.

(** [PropertyFlags]: the bitflags set is the union of the declared constants
    and [from_bits] rejects any other bit. *)
Definition READ_ONLY : Z := 0x01.
Definition HARDWARE : Z := 0x02.
Definition HINT_DICT : Z := 0x04.
Definition MANDATORY : Z := 0x08.
Definition DONT_FIXATE : Z := 0x0F.
Definition PropertyFlags_all : Z :=
  Z.lor READ_ONLY (Z.lor HARDWARE (Z.lor HINT_DICT (Z.lor MANDATORY DONT_FIXATE))).
Definition PropertyFlags_from_bits (bits : Z) : option Z :=
  if Z.ldiff bits PropertyFlags_all =? 0 then Some bits else None.

Record Property (K V : Type) := mkProperty { key : K; flags : Z; value : V }.
Arguments mkProperty {K V} _ _ _.
Arguments key {K V} _.
Arguments flags {K V} _.
Arguments value {K V} _.

(** Errors of the codec. The text of an [Invalid] message is kept without its
    formatted arguments. *)
Inductive PodError := Invalid (msg : string) | NoSpace.

Notation PodRes := (Res PodError).
Notation PodW := (W PodError).
