(* ===== verification/PodCodec.v ===== *)
(** * The POD codec

    Models [spa/src/pod/mod.rs]: the [Primitive] and [Pod] traits and every
    implementation of them. A trait is a record of operations, an [impl] a
    value of that record. [encode] works on the caller's buffer (see [W]),
    [decode] reads a byte slice and returns the value with the number of
    bytes it occupied. Floating-point values are their bit patterns. *)

From S2P Require Import Prelude Utf8 PodTypes.

(** [size.is_multiple_of(8)] is false exactly when the remainder is not 0. *)
Definition pad_8 (size : Z) : Z :=
  if bool_decide (size mod 8 ≠ 0) then 8 - size mod 8 else 0.

Definition pod_total_size (body_size : Z) : PodRes Z :=
  ok_or (size ← checked_add 64 8 body_size; checked_add 64 size (pad_8 body_size))
        (Invalid "Pod size overflow").

Record Primitive (T : Type) := {
  pod_type : PodType;
  pod_size : Z;
  encode_body : T → PodW unit;
  decode_body : list byte → PodRes T;
}.
Arguments pod_type {T} _.
Arguments pod_size {T} _.
Arguments encode_body {T} _ _ _.
Arguments decode_body {T} _ _.

Record Pod (T : Type) := {
  encode : T → PodW Z;
  decode : list byte → PodRes (T * Z);
}.
Arguments encode {T} _ _ _.
Arguments decode {T} _ _.

(** [&data.len()], as a computation on the buffer. *)
Definition buf_len : PodW Z := λ data, (data, Ok (len data)).

(** ** RawPod and RawPodOwned: a pod kept as bytes *)
Record RawPod := mkRawPod { raw_size : Z; raw_type : PodType; raw_data : list byte }.

Definition RawPod_wrap (data : list byte) : PodRes RawPod :=
  if bool_decide (len data < 8) then Err NoSpace else
  internal_size ← read_u32 data 0;
  size ← pod_total_size internal_size;
  if bool_decide (size > len data) then Err NoSpace else
  t ← read_u32 data 4;
  type_ ← ok_or (try_from_u32 t) (Invalid "Could not decode pod type");
  d ← slice data 0 size;
  Ok (mkRawPod size type_ d).

(** The owned variant truncates its vector instead of re-slicing. *)
Definition RawPodOwned_wrap (data : list byte) : PodRes RawPod :=
  if bool_decide (len data < 8) then Err NoSpace else
  internal_size ← read_u32 data 0;
  size ← pod_total_size internal_size;
  if bool_decide (size > len data) then Err NoSpace else
  t ← read_u32 data 4;
  type_ ← ok_or (try_from_u32 t) (Invalid "Could not decode pod type");
  Ok (mkRawPod size type_ (take (Z.to_nat size) data)).

Definition RawPod_decode {T} (P : Pod T) (p : RawPod) : PodRes T :=
  fst <$> decode P (raw_data p).

Definition pod_raw : Pod RawPod := {|
  encode p :=
    l ← buf_len;
    if bool_decide (l < raw_size p) then w_err NoSpace else
    λ data,
      match slice (raw_data p) 0 (raw_size p) with
      | Ok bs => (put_at 0 bs ;; mret (raw_size p)) data
      | Err e => (data, Err e)
      | Panic => (data, Panic)
      end;
  decode data :=
    res ← RawPodOwned_wrap data;
    Ok (res, raw_size res);
|}.

(** ** impl Pod for T: Primitive *)
Definition pod_prim {T} (P : Primitive T) : Pod T := {|
  encode v :=
    let size := pod_size P in
    let padding := pad_8 size in
    l ← buf_len;
    if bool_decide (l < 8 + size + padding) then w_err NoSpace else
    put_at 0 (u32_bytes (pod_size P)) ;;
    put_at 4 (u32_bytes (into_u32 (pod_type P))) ;;
    within 8 (encode_body P v) ;;
    (if bool_decide (padding > 0) then put_at (8 + size) (zeros padding) else mret tt) ;;
    mret (8 + size + padding);
  decode data :=
    if bool_decide (len data < 8) then Err (Invalid "Not enough data for primitive") else
    size ← read_u32 data 0;
    if bool_decide (size ≠ pod_size P) then Err (Invalid "Mismatched pod size") else
    t ← read_u32 data 4;
    if bool_decide (t ≠ into_u32 (pod_type P)) then Err (Invalid "Type mismatch") else
    total_size ← pod_total_size size;
    if bool_decide (len data < total_size)
    then Err (Invalid "Not enough data for primitive") else
    body ← slice data 8 (8 + size);
    val ← decode_body P body;
    Ok (val, total_size);
|}.

(** ** Primitive instances *)
Definition prim_unit : Primitive unit := {|
  pod_type := TNone; pod_size := 0;
  encode_body _ := mret tt;
  decode_body _ := Ok tt;
|}.

Definition prim_bool : Primitive bool := {|
  pod_type := TBool; pod_size := 4;
  encode_body b := put_at 0 (u32_bytes (Z.b2z b));
  decode_body data := v ← read_u32 data 0; Ok (bool_decide (v ≠ 0));
|}.

Definition prim_id (T : Type) `{U32Conv T} : Primitive (Id T) := {|
  pod_type := TId; pod_size := 4;
  encode_body i := put_at 0 (u32_bytes (into_u32 (id_value i)));
  decode_body data :=
    raw_val ← read_u32 data 0;
    match try_from_u32 raw_val with
    | Some val => Ok (mkId val)
    | None => Err (Invalid "Could not decode Id")
    end;
|}.

Definition prim_i32 : Primitive Z := {|
  pod_type := TInt; pod_size := 4;
  encode_body v := put_at 0 (u32_bytes v);
  decode_body data := v ← read_u32 data 0; Ok (swrap 32 v);
|}.

Definition prim_i64 : Primitive Z := {|
  pod_type := TLong; pod_size := 8;
  encode_body v := put_at 0 (u64_bytes v);
  decode_body data := v ← read_u64 data 0; Ok (swrap 64 v);
|}.

Definition prim_f32 : Primitive Z := {|
  pod_type := TFloat; pod_size := 4;
  encode_body v := put_at 0 (u32_bytes v);
  decode_body data := read_u32 data 0;
|}.

Definition prim_f64 : Primitive Z := {|
  pod_type := TDouble; pod_size := 8;
  encode_body v := put_at 0 (u64_bytes v);
  decode_body data := read_u64 data 0;
|}.

Definition prim_fd : Primitive Fd := {|
  pod_type := TFd; pod_size := 8;
  encode_body f := put_at 0 (u64_bytes (fd_value f));
  decode_body data := v ← read_u64 data 0; Ok (mkFd (swrap 64 v));
|}.

Definition prim_rectangle : Primitive Rectangle := {|
  pod_type := TRectangle; pod_size := 8;
  encode_body r := put_at 0 (u32_bytes (width r)) ;; put_at 4 (u32_bytes (height r));
  decode_body data :=
    w ← read_u32 data 0; h ← read_u32 data 4; Ok (mkRectangle w h);
|}.

Definition prim_fraction : Primitive Fraction := {|
  pod_type := TFraction; pod_size := 8;
  encode_body f := put_at 0 (u32_bytes (num f)) ;; put_at 4 (u32_bytes (denom f));
  decode_body data :=
    n ← read_u32 data 0; d ← read_u32 data 4; Ok (mkFraction n d);
|}.

(** ** Strings and byte arrays

    The first guard compares a value already truncated to 32 bits with
    [u32::MAX], so it never fires. *)
Definition pod_str : Pod (list byte) := {|
  encode s :=
    let l := len s + 1 in
    let padding := pad_8 l in
    n ← buf_len;
    if bool_decide (wrap 32 l > u32_max ∨ n < 8 + l + padding) then w_err NoSpace else
    put_at 0 (u32_bytes (wrap 32 l)) ;;
    put_at 4 (u32_bytes (into_u32 TString)) ;;
    put_at 8 s ;;
    put_at (8 + len s) [Byte.x00] ;;
    put_at (8 + l) (zeros padding) ;;
    mret (8 + l + padding);
  decode data :=
    if bool_decide (len data < 8) then Err (Invalid "Not enough data for string") else
    l ← read_u32 data 0;
    if bool_decide (l = 0) then Err (Invalid "String has no null terminator") else
    total_size ← pod_total_size l;
    if bool_decide (len data < total_size)
    then Err (Invalid "Not enough data for string") else
    t ← slice data 4 8;
    if bool_decide (t ≠ u32_bytes (into_u32 TString)) then Err (Invalid "Type is not string") else
    body ← slice data 8 (8 + l - 1);
    let s := from_utf8_lossy body in
    nul ← slice data (8 + l - 1) (8 + l);
    if bool_decide (nul ≠ [Byte.x00]) then Err (Invalid "Not enough data for string") else
    Ok (s, total_size);
|}.

Definition pod_bytes : Pod (list byte) := {|
  encode s :=
    let l := len s in
    let padding := pad_8 l in
    n ← buf_len;
    if bool_decide (wrap 32 l > u32_max ∨ n < 8 + l + padding) then w_err NoSpace else
    put_at 0 (u32_bytes (wrap 32 l)) ;;
    put_at 4 (u32_bytes (into_u32 TBytes)) ;;
    put_at 8 s ;;
    put_at (8 + l) (zeros padding) ;;
    mret (8 + l + padding);
  decode data :=
    if bool_decide (len data < 8) then Err (Invalid "Not enough data for byte array") else
    l ← read_u32 data 0;
    total_size ← pod_total_size l;
    if bool_decide (len data < total_size)
    then Err (Invalid "Not enough data for byte array") else
    t ← slice data 4 8;
    if bool_decide (t ≠ u32_bytes (into_u32 TBytes)) then Err (Invalid "Type is not bytes") else
    body ← slice data 8 (8 + l);
    Ok (body, total_size);
|}.

(** ** Pointers: [std::mem::size_of::<*const c_void>()] is 8 *)
Definition ptr_size : Z := 8.

Definition pod_pointer : Pod Pointer := {|
  encode p :=
    let size := 4 + 4 + ptr_size in
    n ← buf_len;
    if bool_decide (n < 24) then w_err NoSpace else
    put_at 0 (u32_bytes size) ;;
    put_at 4 (u32_bytes (into_u32 TPointer)) ;;
    put_at 8 (u32_bytes (into_u32 (ptr_type p))) ;;
    put_at 12 (zeros 4) ;;
    put_at 16 (u64_bytes (ptr p)) ;;
    mret 24;
  decode data :=
    if bool_decide (len data < 8) then Err (Invalid "Not enough data for pointer") else
    size ← read_u32 data 0;
    let expected_size := 8 + ptr_size in
    total_size ← pod_total_size size;
    if bool_decide (size ≠ expected_size ∨ len data < total_size)
    then Err (Invalid "Not enough data for pointer") else
    t ← slice data 4 8;
    if bool_decide (t ≠ u32_bytes (into_u32 TPointer)) then Err (Invalid "Type is not pointer") else
    pt ← read_u32 data 8;
    type_ ← ok_or (try_from_u32 pt) (Invalid "Could not decode type");
    p ← read_u64 data 16;
    Ok (mkPointer type_ p, total_size);
|}.

(** ** Arrays of primitives *)

(** [self[i].encode_body(&mut data[base + i * child_size..])?] for [i] from
    [i0] on. *)
Fixpoint encode_bodies {T} (P : Primitive T) (base i : Z) (vs : list T) : PodW unit :=
  match vs with
  | [] => mret tt
  | v :: vs =>
      within (base + i * pod_size P) (encode_body P v) ;; encode_bodies P base (i + 1) vs
  end.

(** [l.chunks_exact(n)], for [n > 0]. *)
Fixpoint chunks_fuel {A} (fuel : nat) (n : Z) (l : list A) : list (list A) :=
  match fuel with
  | O => []
  | S fuel =>
      if bool_decide (len l < n) then []
      else take (Z.to_nat n) l :: chunks_fuel fuel n (drop (Z.to_nat n) l)
  end.
Definition chunks_exact {A} (n : Z) (l : list A) : list (list A) := chunks_fuel (length l) n l.

Definition pod_array {T} (P : Primitive T) : Pod (list T) := {|
  encode vs :=
    let child_size := pod_size P in
    let elems_size := child_size * len vs in
    let padding := pad_8 elems_size in
    n ← buf_len;
    if bool_decide (n < 8 + 8 + elems_size + padding) then w_err NoSpace else
    put_at 0 (u32_bytes (wrap 32 (8 + wrap 32 elems_size))) ;;
    put_at 4 (u32_bytes (into_u32 TArray)) ;;
    put_at 8 (u32_bytes child_size) ;;
    put_at 12 (u32_bytes (into_u32 (pod_type P))) ;;
    encode_bodies P 16 0 vs ;;
    mret (8 + 8 + elems_size + padding);
  decode data :=
    if bool_decide (len data < 16) then Err (Invalid "Not enough data for array") else
    size ← read_u32 data 0;
    if bool_decide (size < 8) then Err (Invalid "Array body is smaller than its header") else
    total_size ← pod_total_size size;
    if bool_decide (len data < total_size) then Err (Invalid "Not enough data for array") else
    t ← read_u32 data 4;
    if bool_decide (try_from_u32 t ≠ Some TArray) then Err (Invalid "Type is not array") else
    child_size ← read_u32 data 8;
    if bool_decide (child_size = 0 ∨ child_size ≠ pod_size P)
    then Err (Invalid "Invalid array child size") else
    type_ ← read_u32 data 12;
    if bool_decide (try_from_u32 type_ ≠ Some (pod_type P))
    then Err (Invalid "Invalid array type") else
    let elements_size := size - 8 in
    if bool_decide (elements_size mod child_size ≠ 0)
    then Err (Invalid "Array body has a partial child") else
    elements ← slice data 16 (16 + elements_size);
    res ← mapM (decode_body P) (chunks_exact child_size elements);
    Ok (res, total_size);
|}.

(** ** Choices *)
Definition choice_children {T} (c : Choice T) : Z :=
  match c with
  | ChNone _ => 1
  | ChRange _ _ _ => 3
  | ChStep _ _ _ _ => 4
  | ChEnum _ alternatives => 1 + len alternatives
  | ChFlags _ _ => 2
  end.

Definition choice_type {T} (c : Choice T) : Z :=
  match c with
  | ChNone _ => 0 | ChRange _ _ _ => 1 | ChStep _ _ _ _ => 2 | ChEnum _ _ => 3 | ChFlags _ _ => 4
  end.

Definition encode_choice_body {T} (P : Primitive T) (c : Choice T) : PodW unit :=
  let child_size := pod_size P in
  match c with
  | ChNone v => within 24 (encode_body P v)
  | ChRange default min max =>
      within 24 (encode_body P default) ;;
      within (24 + child_size) (encode_body P min) ;;
      within (24 + child_size * 2) (encode_body P max)
  | ChStep default min max step =>
      within 24 (encode_body P default) ;;
      within (24 + child_size) (encode_body P min) ;;
      within (24 + child_size * 2) (encode_body P max) ;;
      within (24 + child_size * 3) (encode_body P step)
  | ChEnum default alternatives =>
      within 24 (encode_body P default) ;;
      encode_bodies P (24 + child_size) 0 alternatives
  | ChFlags default flags =>
      within 24 (encode_body P default) ;;
      within (24 + child_size) (encode_body P flags)
  end.

(** The [match choice_type] that closes both choice decoders; [child] reads
    the value at an index. *)
Definition build_choice {T} (child : Z → PodRes T) (choice_type child_count : Z) :
    PodRes (Choice T) :=
  if choice_type =? 0 then
    if bool_decide (child_count ≠ 1) then Err (Invalid "Invalid none choice size") else
    v ← child 0; Ok (ChNone v)
  else if choice_type =? 1 then
    if bool_decide (child_count ≠ 3) then Err (Invalid "Not enough data for choice range") else
    default ← child 0; min ← child 1; max ← child 2; Ok (ChRange default min max)
  else if choice_type =? 2 then
    if bool_decide (child_count ≠ 4) then Err (Invalid "Not enough data for choice step") else
    default ← child 0; min ← child 1; max ← child 2; step ← child 3;
    Ok (ChStep default min max step)
  else if choice_type =? 3 then
    if bool_decide (child_count = 0) then Err (Invalid "Enum choice has no default") else
    default ← child 0;
    alternatives ← mapM child (seqZ 1 (child_count - 1));
    Ok (ChEnum default alternatives)
  else if choice_type =? 4 then
    if bool_decide (child_count ≠ 2) then Err (Invalid "Not enough data for choice flags") else
    default ← child 0; flags ← child 1; Ok (ChFlags default flags)
  else Err (Invalid "Invalid choice type").

Definition pod_choice {T} (P : Primitive T) : Pod (Choice T) := {|
  encode c :=
    let child_size := pod_size P in
    let size := 16 + child_size * choice_children c in
    let padding := pad_8 size in
    n ← buf_len;
    if bool_decide (n < 24 + size + padding) then w_err NoSpace else
    put_at 0 (u32_bytes (wrap 32 size)) ;;
    put_at 4 (u32_bytes (into_u32 TChoice)) ;;
    put_at 8 (u32_bytes (choice_type c)) ;;
    put_at 12 (u32_bytes 0) ;;
    put_at 16 (u32_bytes (pod_size P)) ;;
    put_at 20 (u32_bytes (into_u32 (pod_type P))) ;;
    encode_choice_body P c ;;
    mret (8 + size + padding);
  decode data :=
    if bool_decide (len data < 24) then Err (Invalid "Not enough data for choice") else
    size ← read_u32 data 0;
    if bool_decide (size < 16) then Err (Invalid "Choice body is smaller than its header") else
    total_size ← pod_total_size size;
    if bool_decide (len data < total_size) then Err (Invalid "Not enough data for choice") else
    t ← read_u32 data 4;
    if bool_decide (t ≠ into_u32 TChoice) then Err (Invalid "Type is not choice") else
    ctype ← read_u32 data 8;
    child_size ← read_u32 data 16;
    if bool_decide (child_size = 0 ∨ child_size ≠ pod_size P)
    then Err (Invalid "Not enough data for choice") else
    child_type ← read_u32 data 20;
    if bool_decide (child_type ≠ into_u32 (pod_type P)) then Err (Invalid "Invalid child type") else
    let children_size := size - 16 in
    if bool_decide (children_size mod child_size ≠ 0)
    then Err (Invalid "Choice body has a partial child") else
    let child_count := children_size / child_size in
    let child index :=
      body ← slice data (24 + index * child_size) (24 + index * child_size + child_size);
      decode_body P body in
    choice ← build_choice child ctype child_count;
    Ok (choice, total_size);
|}.

(** ** Properties and options *)
Definition pod_property {K V} `{U32Conv K} (U : Pod V) : Pod (Property K V) := {|
  encode p :=
    n ← buf_len;
    if bool_decide (n < 8) then w_err NoSpace else
    put_at 0 (u32_bytes (into_u32 (key p))) ;;
    put_at 4 (u32_bytes (flags p)) ;;
    value_size ← within 8 (encode U (value p));
    mret (8 + value_size);
  decode data :=
    if bool_decide (len data < 8) then Err (Invalid "Not enough data for property") else
    k ← read_u32 data 0;
    key ← ok_or (try_from_u32 k) (Invalid "Invalid property key");
    f ← read_u32 data 4;
    flags ← ok_or (PropertyFlags_from_bits f) (Invalid "Invalid property flags");
    d ← slice_from data 8;
    '(value, size) ← decode U d;
    Ok (mkProperty key flags value, 8 + size);
|}.

Definition pod_option {T} (P : Pod T) : Pod (option T) := {|
  encode o :=
    match o with
    | Some v => encode P v
    | None => encode (pod_prim prim_unit) tt
    end;
  decode data :=
    match decode P data with
    | Ok (v, size) => Ok (Some v, size)
    | Err _ =>
        '(_, size) ← decode (pod_prim prim_unit) data;
        Ok (None, size)
    | Panic => Panic
    end;
|}.

(** Named instances. *)
Definition pod_none : Pod unit := pod_prim prim_unit.
Definition pod_bool : Pod bool := pod_prim prim_bool.
Definition pod_id (T : Type) `{U32Conv T} : Pod (Id T) := pod_prim (prim_id T).
Definition pod_i32 : Pod Z := pod_prim prim_i32.
Definition pod_i64 : Pod Z := pod_prim prim_i64.
Definition pod_f32 : Pod Z := pod_prim prim_f32.
Definition pod_f64 : Pod Z := pod_prim prim_f64.
Definition pod_fd : Pod Fd := pod_prim prim_fd.
Definition pod_rectangle : Pod Rectangle := pod_prim prim_rectangle.
Definition pod_fraction : Pod Fraction := pod_prim prim_fraction.
