(* ===== verification/PodLaws.v ===== *)
(** * Laws of the POD codec

    The contract every [Pod] implementation of [spa/src/pod/mod.rs] keeps
    with its callers (the builder and the parser), as type classes with one
    instance per implementation:
    - decoding never panics, whatever the bytes, and reports a size that is
      at least a header, a multiple of 8, and within the input;
    - encoding a valid value into a large enough buffer succeeds, touches
      only the bytes it reports, and those bytes decode back to the value;
    - encoding into a smaller buffer is [NoSpace], never a panic. *)

From S2P Require Import Prelude Utf8 PodTypes PodCodec.

Lemma pad_8_range s : 0 ≤ pad_8 s < 8.
Proof. unfold pad_8. pose proof (Z.mod_pos_bound s 8). case_bool_decide; lia. Qed.

Lemma pad_8_aligned s : (s + pad_8 s) mod 8 = 0.
Proof.
  unfold pad_8. case_bool_decide as H.
  - replace (s + (8 - s mod 8)) with ((s / 8 + 1) * 8); [apply Z.mod_mul; lia|].
    pose proof (Z.div_mod s 8). lia.
  - rewrite Z.add_0_r. lia.
Qed.

Lemma total_aligned s : (8 + s + pad_8 s) mod 8 = 0.
Proof.
  replace (8 + s + pad_8 s) with (s + pad_8 s + 1 * 8) by lia.
  rewrite Z.mod_add by lia. apply pad_8_aligned.
Qed.

(** The checked additions cannot fail on a size read from the wire. *)
Lemma pod_total_size_u32 s : u32_range s → pod_total_size s = Ok (8 + s + pad_8 s).
Proof.
  intros [H1 H2]. pose proof (pad_8_range s). unfold pod_total_size, checked_add.
  rewrite bool_decide_eq_true_2 by lia. simpl. by rewrite bool_decide_eq_true_2 by lia.
Qed.

(** Step through a decoder that only reads inside its input. *)
Ltac read_step :=
  match goal with
  | |- context [read_u32 ?d ?a] =>
      let v := fresh "w" in let Hv := fresh "Hw" in let Hr := fresh "Hr" in
      destruct (read_u32_ok (E:=PodError) d a) as (v & Hv & Hr); [lia..|];
      rewrite Hv; clear Hv; simpl
  | Hr : 0 ≤ ?s < 2 ^ 32 |- context [pod_total_size ?s] =>
      pose proof (pad_8_range s); rewrite (pod_total_size_u32 s Hr); simpl
  | |- context [slice _ _ _] => rewrite slice_Ok by lia; simpl
  | |- context [ok_or ?o _] => destruct o eqn:?; simpl
  | |- context [bool_decide ?P] => destruct (bool_decide_reflect P); simpl
  end.

(** Run a decoder on a concatenation of known pieces. *)
Ltac decode_step :=
  first
    [ slice_step
    | rewrite wrap_small by (first [apply PodType_range | unfold u32_range in *; lia])
    | rewrite bool_decide_eq_false_2 by first [lia | naive_solver]
    | rewrite pod_total_size_u32 by (unfold u32_range in *; lia); res_cbn ].

(** ** Contracts *)
Class PrimitiveLaws {T} (P : Primitive T) := {
  prim_ok : T → Prop;
  body_bytes : T → list byte;
  prim_size : 0 ≤ pod_size P ≤ 8;
  body_bytes_len v : len (body_bytes v) = pod_size P;
  body_writes v : writes [] (encode_body P v) (body_bytes v) tt;
  body_decode v : prim_ok v → decode_body P (body_bytes v) = Ok v;
  decode_body_total bs : len bs = pod_size P → total (decode_body P bs);
  decode_body_ok bs v : len bs = pod_size P → decode_body P bs = Ok v → prim_ok v;
}.
#[global] Hint Mode PrimitiveLaws ! ! : typeclass_instances.
Arguments prim_ok {T} P {_} _.
Arguments body_bytes {T} P {_} _.

Definition safe_decode {T} (l : Z) (r : PodRes (T * Z)) : Prop :=
  match r with
  | Ok (_, n) => 8 ≤ n ≤ l ∧ n mod 8 = 0
  | Err _ => True
  | Panic => False
  end.

Class PodLaws {T} (P : Pod T) := {
  pod_ok : T → Prop;
  pod_space : T → Z;
  encode_fits v data :
    pod_ok v → pod_space v ≤ len data →
    ∃ bs, encode P v data = (bs ++ drop (length bs) data, Ok (len bs)) ∧
          len bs ≤ pod_space v ∧ 8 ≤ len bs ∧ len bs mod 8 = 0 ∧
          ∀ rest, decode P (bs ++ rest) = Ok (v, len bs);
  encode_nospace v data :
    pod_ok v → len data < pod_space v →
    ∃ data', encode P v data = (data', Err NoSpace) ∧ len data' = len data;
  decode_safe data : safe_decode (len data) (decode P data);
}.
#[global] Hint Mode PodLaws ! ! : typeclass_instances.
Arguments pod_ok {T} P {_} _.
Arguments pod_space {T} P {_} _.

(** Pods whose encoding is a function of the value alone (arrays and choices
    leave their padding bytes as they find them, so they are not). *)
Class PodExact {T} (P : Pod T) := {
  wire : T → list byte;
  exact_ok : T → Prop;
  wire_min v : exact_ok v → 8 ≤ len (wire v);
  wire_aligned v : exact_ok v → len (wire v) mod 8 = 0;
  exact_encode v data :
    exact_ok v → len (wire v) ≤ len data →
    encode P v data = (wire v ++ drop (length (wire v)) data, Ok (len (wire v)));
  exact_nospace v data :
    exact_ok v → len data < len (wire v) →
    ∃ data', encode P v data = (data', Err NoSpace) ∧ len data' = len data;
  exact_decode v rest : exact_ok v → decode P (wire v ++ rest) = Ok (v, len (wire v));
  exact_safe data : safe_decode (len data) (decode P data);
}.
#[global] Hint Mode PodExact ! ! : typeclass_instances.
Arguments wire {T} P {_} _.
Arguments exact_ok {T} P {_} _.

#[global, refine] Instance exact_laws {T} (P : Pod T) `{!PodExact P} : PodLaws P :=
  {| pod_ok := exact_ok P; pod_space := λ v, len (wire P v) |}.
Proof.
  - intros v data Hok Hl. exists (wire P v).
    split_and!; [by apply exact_encode|done|by apply wire_min|by apply wire_aligned|].
    intros. by apply exact_decode.
  - apply exact_nospace.
  - apply exact_safe.
Defined.

Lemma decode_total {T} (P : Pod T) `{!PodLaws P} data : total (decode P data).
Proof. intros H. pose proof (decode_safe (P:=P) data) as Hs. by rewrite H in Hs. Qed.

(** ** Primitive instances *)
#[global, refine] Instance unit_laws : PrimitiveLaws prim_unit :=
  {| prim_ok := λ _, True; body_bytes := λ _, [] |}.
Proof.
  - simpl; lia.
  - done.
  - intros []. apply writes_ret.
  - by intros [].
  - done.
  - done.
Defined.


(** One 32-bit word: [conv] turns the value into the word, [dec] turns the
    word read back into the value. *)
Section word_primitive.
Context {T : Type} (t : PodType) (conv : T → Z) (dec : Z → PodRes T) (ok : T → Prop).
Context (Hdec : ∀ v, ok v → dec (wrap 32 (conv v)) = Ok v).
Context (Htot : ∀ w, total (dec w)).
Context (Hok : ∀ w v, u32_range w → dec w = Ok v → ok v).

Definition word_prim : Primitive T := {|
  pod_type := t; pod_size := 4;
  encode_body v := put_at 0 (u32_bytes (conv v));
  decode_body data := v ← read_u32 data 0; dec v;
|}.

Definition word_laws : PrimitiveLaws word_prim.
Proof.
  refine {| prim_ok := ok; body_bytes := λ v, u32_bytes (conv v) |}.
  - simpl; lia.
  - intros. apply len_u32_bytes.
  - intros v. by apply writes_put.
  - intros v Hv. simpl. rewrite read_u32_bytes. by apply Hdec.
  - intros bs Hl. simpl in *. read_step. apply Htot.
  - intros bs v Hl. simpl in *. read_step. by apply Hok.
Defined.
End word_primitive.

Section long_primitive.
Context {T : Type} (t : PodType) (conv : T → Z) (dec : Z → PodRes T) (ok : T → Prop).
Context (Hdec : ∀ v, ok v → dec (wrap 64 (conv v)) = Ok v).
Context (Htot : ∀ w, total (dec w)).
Context (Hok : ∀ w v, u64_range w → dec w = Ok v → ok v).

Definition long_prim : Primitive T := {|
  pod_type := t; pod_size := 8;
  encode_body v := put_at 0 (u64_bytes (conv v));
  decode_body data := v ← read_u64 data 0; dec v;
|}.

Definition long_laws : PrimitiveLaws long_prim.
Proof.
  refine {| prim_ok := ok; body_bytes := λ v, u64_bytes (conv v) |}.
  - simpl; lia.
  - intros. apply len_u64_bytes.
  - intros v. by apply writes_put.
  - intros v Hv. simpl. rewrite read_u64_bytes. by apply Hdec.
  - intros bs Hl. simpl in *. destruct (read_u64_ok (E:=PodError) bs 0) as (w & -> & ?); [lia..|].
    simpl. apply Htot.
  - intros bs v Hl. simpl in *. destruct (read_u64_ok (E:=PodError) bs 0) as (w & -> & ?); [lia..|].
    simpl. by apply Hok.
Defined.
End long_primitive.

#[global] Instance bool_laws : PrimitiveLaws prim_bool.
Proof.
  apply (word_laws TBool Z.b2z (λ v, Ok (bool_decide (v ≠ 0))) (λ _, True)).
  - by intros [] _.
  - done.
  - done.
Defined.

#[global] Instance id_laws T `{U32ConvLaws T} : PrimitiveLaws (prim_id T).
Proof.
  apply (word_laws TId (λ i : Id T, into_u32 (id_value i))
    (λ raw_val, match try_from_u32 raw_val with
       | Some val => Ok (mkId val)
       | None => Err (Invalid "Could not decode Id") end)
    (λ i, u32_ok (id_value i))).
  - intros [v] Hv. simpl in *. rewrite wrap_small by (by apply into_u32_range).
    by rewrite try_from_into.
  - intros w. case_match; done.
  - intros w [v] Hw Hd. case_match eqn:Ht; simplify_eq. by eapply try_from_ok.
Defined.

#[global] Instance i32_laws : PrimitiveLaws prim_i32.
Proof.
  apply (word_laws TInt (λ v, v) (λ v, Ok (swrap 32 v)) i32_range).
  - intros v Hv. f_equal. rewrite swrap_wrap by lia. by apply swrap_small.
  - done.
  - intros w v _ [= <-]. apply i32_of_u32_range.
Defined.

#[global] Instance f32_laws : PrimitiveLaws prim_f32.
Proof.
  refine {| prim_ok := u32_range; body_bytes := u32_bytes |}.
  - simpl; lia.
  - intros. apply len_u32_bytes.
  - intros v. by apply writes_put.
  - intros v Hv. simpl. rewrite read_u32_bytes. f_equal. by apply wrap_small.
  - intros bs Hl. simpl in *. by read_step.
  - intros bs v Hl. simpl in *. apply read_u32_range.
Defined.

#[global] Instance f64_laws : PrimitiveLaws prim_f64.
Proof.
  refine {| prim_ok := u64_range; body_bytes := u64_bytes |}.
  - simpl; lia.
  - intros. apply len_u64_bytes.
  - intros v. by apply writes_put.
  - intros v Hv. simpl. rewrite read_u64_bytes. f_equal. by apply wrap_small.
  - intros bs Hl. simpl in *.
    by destruct (read_u64_ok (E:=PodError) bs 0) as (w & -> & ?); [lia..|].
  - intros bs v Hl. simpl in *.
    destruct (read_u64_ok (E:=PodError) bs 0) as (w & -> & ?); [lia..|]. by intros [= <-].
Defined.

#[global] Instance i64_laws : PrimitiveLaws prim_i64.
Proof.
  apply (long_laws TLong (λ v, v) (λ v, Ok (swrap 64 v)) i64_range).
  - intros v Hv. f_equal. rewrite swrap_wrap by lia. by apply swrap_small.
  - done.
  - intros w v _ [= <-]. apply i64_of_u64_range.
Defined.

#[global] Instance fd_laws : PrimitiveLaws prim_fd.
Proof.
  apply (long_laws TFd fd_value (λ v, Ok (mkFd (swrap 64 v))) (λ f, i64_range (fd_value f))).
  - intros [v] Hv. simpl in *. do 2 f_equal. rewrite swrap_wrap by lia. by apply swrap_small.
  - done.
  - intros w v _ [= <-]. apply i64_of_u64_range.
Defined.

(** Two 32-bit words. *)
Lemma two_words_writes a b :
  writes (E:=PodError) [] (put_at 0 (u32_bytes a) ;; put_at 4 (u32_bytes b))
    (u32_bytes a ++ u32_bytes b) tt.
Proof. repeat writes_step. Qed.

#[global, refine] Instance rectangle_laws : PrimitiveLaws prim_rectangle :=
  {| prim_ok r := u32_range (width r) ∧ u32_range (height r);
     body_bytes r := u32_bytes (width r) ++ u32_bytes (height r) |}.
Proof.
  - simpl; lia.
  - intros. simpl. len_lia.
  - intros. apply two_words_writes.
  - intros [w h] [Hw Hh]. simpl in *.
    rewrite <- (app_nil_r (u32_bytes h)). repeat slice_step. by rewrite !wrap_small.
  - intros bs Hl. simpl in *. by repeat read_step.
  - intros bs v Hl. simpl in *. repeat read_step. by intros [= <-].
Defined.

#[global, refine] Instance fraction_laws : PrimitiveLaws prim_fraction :=
  {| prim_ok r := u32_range (num r) ∧ u32_range (denom r);
     body_bytes r := u32_bytes (num r) ++ u32_bytes (denom r) |}.
Proof.
  - simpl; lia.
  - intros. simpl. len_lia.
  - intros. apply two_words_writes.
  - intros [w h] [Hw Hh]. simpl in *.
    rewrite <- (app_nil_r (u32_bytes h)). repeat slice_step. by rewrite !wrap_small.
  - intros bs Hl. simpl in *. by repeat read_step.
  - intros bs v Hl. simpl in *. repeat read_step. by intros [= <-].
Defined.

(** ** Pods built from primitives *)
Lemma buf_len_bind {A} (f : Z → PodW A) data : (buf_len ≫= f) data = f (len data) data.
Proof. done. Qed.

(** Prove what a straight-line encoder writes. *)
Ltac solve_writes :=
  eapply writes_eq; [repeat writes_step| |].

Section prim_pod.
Context {T : Type} (P : Primitive T) `{!PrimitiveLaws P}.

Definition prim_wire (v : T) : list byte :=
  u32_bytes (pod_size P) ++ u32_bytes (into_u32 (pod_type P)) ++
  body_bytes P v ++ zeros (pad_8 (pod_size P)).

Lemma prim_wire_len v : len (prim_wire v) = 8 + pod_size P + pad_8 (pod_size P).
Proof.
  unfold prim_wire. pose proof (pad_8_range (pod_size P)).
  autorewrite with len. rewrite body_bytes_len. lia.
Qed.

Lemma prim_encode v data :
  len (prim_wire v) ≤ len data →
  encode (pod_prim P) v data
  = (prim_wire v ++ drop (length (prim_wire v)) data, Ok (len (prim_wire v))).
Proof.
  intros Hl. pose proof (pad_8_range (pod_size P)). pose proof (prim_size (P:=P)).
  pose proof (prim_wire_len v) as Hw. rewrite Hw in Hl. rewrite Hw.
  unfold pod_prim, encode. rewrite buf_len_bind.
  rewrite bool_decide_eq_false_2 by lia.
  apply writes_run; [|lia]. unfold prim_wire.
  eapply writes_eq; [| |reflexivity].
  { do 3 (eapply writes_bind; [first [apply writes_put; len_lia
      | apply writes_within; [len_lia|apply body_writes]]|]).
    eapply (writes_bind _ _ _ (zeros (pad_8 (pod_size P)))); [|apply writes_ret].
    case_bool_decide.
    - apply writes_put. autorewrite with len. rewrite body_bytes_len. lia.
    - replace (pad_8 (pod_size P)) with 0 by lia. apply writes_ret. }
  by rewrite app_nil_r.
Qed.

Lemma prim_decode v rest :
  prim_ok P v → decode (pod_prim P) (prim_wire v ++ rest) = Ok (v, len (prim_wire v)).
Proof.
  intros Hv. pose proof (pad_8_range (pod_size P)). pose proof (prim_size (P:=P)).
  pose proof (prim_wire_len v) as Hw. pose proof (body_bytes_len (P:=P) v).
  assert (u32_range (into_u32 (pod_type P))) by apply PodType_range.
  assert (len (prim_wire v ++ rest) = 8 + pod_size P + pad_8 (pod_size P) + len rest) as Hl
    by (rewrite len_app; lia). pose proof (len_nonneg rest).
  unfold pod_prim, decode. rewrite bool_decide_eq_false_2 by lia.
  unfold prim_wire in *. rewrite <- !app_assoc in *.
  slice_step. rewrite !wrap_small by (unfold u32_range in *; lia).
  rewrite bool_decide_eq_false_2 by lia. do 2 slice_step. rewrite wrap_small by done.
  rewrite bool_decide_eq_false_2 by lia.
  rewrite pod_total_size_u32 by (unfold u32_range; lia). simpl.
  rewrite bool_decide_eq_false_2 by lia.
  do 3 slice_step. rewrite body_decode by done. simpl. do 2 f_equal. lia.
Qed.

Lemma prim_safe data : safe_decode (len data) (decode (pod_prim P) data).
Proof.
  pose proof (prim_size (P:=P)). unfold pod_prim, decode, safe_decode.
  repeat read_step; try done.
  destruct (decode_body _ _) eqn:Hb; simpl; [|done|].
  - split; [lia|]. apply total_aligned.
  - revert Hb. apply decode_body_total. rewrite len_take; [lia|]. rewrite len_drop; lia.
Qed.

#[global, refine] Instance prim_exact : PodExact (pod_prim P) :=
  {| wire := prim_wire; exact_ok := prim_ok P |}.
Proof.
  - intros v _. rewrite prim_wire_len. pose proof (pad_8_range (pod_size P)).
    pose proof (prim_size (P:=P)). lia.
  - intros v _. rewrite prim_wire_len. apply total_aligned.
  - intros. by apply prim_encode.
  - intros v data _ Hl. rewrite prim_wire_len in Hl. exists data.
    unfold pod_prim, encode. rewrite buf_len_bind. by rewrite bool_decide_eq_true_2.
  - apply prim_decode.
  - apply prim_safe.
Defined.
End prim_pod.

(** ** Strings and byte arrays *)

(** A header, a body of [l] bytes and its zero padding. *)
Definition sized_wire (t : PodType) (body : list byte) : list byte :=
  u32_bytes (len body) ++ u32_bytes (into_u32 t) ++ body ++ zeros (pad_8 (len body)).

Lemma sized_wire_len t body : len (sized_wire t body) = 8 + len body + pad_8 (len body).
Proof. unfold sized_wire. pose proof (pad_8_range (len body)). len_lia. Qed.

Lemma sized_wire_min t body : 8 ≤ len (sized_wire t body).
Proof. rewrite sized_wire_len. pose proof (pad_8_range (len body)). len_lia. Qed.

Lemma sized_wire_aligned t body : len (sized_wire t body) mod 8 = 0.
Proof. rewrite sized_wire_len. apply total_aligned. Qed.

Definition str_wire (s : list byte) : list byte := sized_wire TString (s ++ [Byte.x00]).

Lemma len_nul (s : list byte) : len (s ++ [Byte.x00]) = len s + 1.
Proof. len_lia. Qed.

Lemma wrap_not_big l : ¬ wrap 32 l > u32_max.
Proof. pose proof (wrap_range 32 l). unfold u32_max. lia. Qed.

Lemma str_encode s data :
  len s + 1 < 2 ^ 32 → len (str_wire s) ≤ len data →
  encode pod_str s data = (str_wire s ++ drop (length (str_wire s)) data, Ok (len (str_wire s))).
Proof.
  intros Hs Hl. pose proof (pad_8_range (len s + 1)). pose proof (wrap_not_big (len s + 1)).
  pose proof (len_nonneg s).
  unfold str_wire in *. rewrite sized_wire_len, len_nul in Hl |- *.
  unfold pod_str, encode. rewrite buf_len_bind.
  rewrite bool_decide_eq_false_2 by lia.
  apply writes_run; [|rewrite sized_wire_len, len_nul; lia].
  unfold sized_wire. rewrite len_nul, wrap_small by lia.
  eapply writes_eq; [repeat writes_step| |reflexivity].
  by rewrite app_nil_r, <- (app_assoc s).
Qed.

Lemma str_decode s rest :
  utf8_valid s = true → len s + 1 < 2 ^ 32 →
  decode pod_str (str_wire s ++ rest) = Ok (s, len (str_wire s)).
Proof.
  intros Hu Hs. pose proof (pad_8_range (len s + 1)).
  pose proof (len_nonneg s). pose proof (len_nonneg rest).
  unfold str_wire in *. rewrite sized_wire_len, len_nul.
  assert (len (sized_wire TString (s ++ [Byte.x00]) ++ rest)
          = 8 + (len s + 1) + pad_8 (len s + 1) + len rest) as Hlen
    by (rewrite len_app, sized_wire_len, len_nul; lia).
  unfold pod_str, decode. rewrite Hlen. rewrite bool_decide_eq_false_2 by lia.
  unfold sized_wire. rewrite len_nul, <- !app_assoc.
  repeat decode_step. by rewrite from_utf8_lossy_id by done.
Qed.

Lemma str_safe data : safe_decode (len data) (decode pod_str data).
Proof.
  unfold pod_str, decode, safe_decode. repeat read_step; try done.
  split; [lia|apply total_aligned].
Qed.

#[global, refine] Instance str_exact : PodExact pod_str :=
  {| wire := str_wire; exact_ok s := utf8_valid s = true ∧ len s + 1 < 2 ^ 32 |}.
Proof.
  - intros. apply sized_wire_min.
  - intros. apply sized_wire_aligned.
  - intros v data [_ ?]. by apply str_encode.
  - intros v data _ Hl. exists data. unfold str_wire in Hl. rewrite sized_wire_len, len_nul in Hl.
    unfold pod_str, encode. rewrite buf_len_bind. by rewrite bool_decide_eq_true_2 by lia.
  - intros v rest []. by apply str_decode.
  - apply str_safe.
Defined.

#[global, refine] Instance bytes_exact : PodExact pod_bytes :=
  {| wire := sized_wire TBytes; exact_ok s := len s < 2 ^ 32 |}.
Proof.
  - intros. apply sized_wire_min.
  - intros. apply sized_wire_aligned.
  - intros s data Hs Hl. pose proof (pad_8_range (len s)). pose proof (wrap_not_big (len s)).
    pose proof (len_nonneg s). rewrite sized_wire_len in Hl |- *.
    unfold pod_bytes, encode. rewrite buf_len_bind. rewrite bool_decide_eq_false_2 by lia.
    apply writes_run; [|rewrite sized_wire_len; lia].
    unfold sized_wire. rewrite wrap_small by lia.
    eapply writes_eq; [repeat writes_step| |reflexivity]. by rewrite app_nil_r.
  - intros v data _ Hl. exists data. rewrite sized_wire_len in Hl.
    unfold pod_bytes, encode. rewrite buf_len_bind. by rewrite bool_decide_eq_true_2 by lia.
  - intros s rest Hs. pose proof (pad_8_range (len s)).
    pose proof (len_nonneg s). pose proof (len_nonneg rest).
    assert (len (sized_wire TBytes s ++ rest) = 8 + len s + pad_8 (len s) + len rest) as Hlen
      by (rewrite len_app, sized_wire_len; lia).
    rewrite sized_wire_len. unfold pod_bytes, decode. rewrite Hlen.
    rewrite bool_decide_eq_false_2 by lia. unfold sized_wire. rewrite <- !app_assoc.
    by repeat decode_step.
  - intros data. unfold pod_bytes, decode, safe_decode. repeat read_step; try done.
    split; [lia|apply total_aligned].
Defined.

(** ** Pointers *)
Definition pointer_wire (p : Pointer) : list byte :=
  u32_bytes 16 ++ u32_bytes (into_u32 TPointer) ++ u32_bytes (into_u32 (ptr_type p)) ++
  zeros 4 ++ u64_bytes (ptr p).

Lemma pointer_wire_len p : len (pointer_wire p) = 24.
Proof. unfold pointer_wire. len_lia. Qed.

#[global, refine] Instance pointer_exact : PodExact pod_pointer :=
  {| wire := pointer_wire; exact_ok p := u64_range (ptr p) |}.
Proof.
  - intros. rewrite pointer_wire_len. lia.
  - intros. by rewrite pointer_wire_len.
  - intros p data Hp Hl. rewrite pointer_wire_len in Hl |- *.
    unfold pod_pointer, encode. rewrite buf_len_bind. rewrite bool_decide_eq_false_2 by lia.
    apply writes_run; [|by rewrite pointer_wire_len]. unfold pointer_wire.
    eapply writes_eq; [repeat writes_step| |reflexivity]. by rewrite app_nil_r.
  - intros v data _ Hl. exists data. rewrite pointer_wire_len in Hl.
    unfold pod_pointer, encode. rewrite buf_len_bind. by rewrite bool_decide_eq_true_2 by lia.
  - intros p rest Hp. pose proof (len_nonneg rest).
    assert (len (pointer_wire p ++ rest) = 24 + len rest) as Hlen
      by (rewrite len_app, pointer_wire_len; lia).
    rewrite pointer_wire_len. unfold pod_pointer, decode. rewrite Hlen.
    rewrite bool_decide_eq_false_2 by lia. unfold pointer_wire. rewrite <- !app_assoc.
    unfold ptr_size, read_u64. repeat decode_step. change (pad_8 16) with 0.
    rewrite try_from_into by exact I. cbn [ok_or]. repeat decode_step.
    rewrite combine_u64_bytes, wrap_small by done. by destruct p.
  - intros data. unfold pod_pointer, decode, safe_decode, read_u64, ptr_size.
    repeat read_step; try done. split; [lia|apply total_aligned].
Defined.

(** ** Raw pods *)
Lemma RawPodOwned_wrap_eq d : RawPodOwned_wrap d = RawPod_wrap d.
Proof.
  unfold RawPodOwned_wrap, RawPod_wrap.
  case_bool_decide; [done|].
  destruct (read_u32_ok (E:=PodError) d 0) as (s & -> & Hs); [lia..|]. res_cbn.
  rewrite pod_total_size_u32 by done. res_cbn. pose proof (pad_8_range s).
  case_bool_decide; [done|].
  destruct (read_u32_ok (E:=PodError) d 4) as (t & -> & Ht); [lia..|]. res_cbn.
  destruct (try_from_u32 t); simpl; [|done]. rewrite slice_Ok by lia. simpl.
  by rewrite Z.sub_0_r, drop_0.
Qed.

(** What a successful [wrap] establishes. *)
Lemma RawPod_wrap_inv d p :
  RawPod_wrap d = Ok p →
  ∃ s t, read_u32 (E:=PodError) d 0 = Ok s ∧ read_u32 (E:=PodError) d 4 = Ok t ∧
    0 ≤ s < 2 ^ 32 ∧ raw_size p = 8 + s + pad_8 s ∧ raw_size p ≤ len d ∧
    try_from_u32 t = Some (raw_type p) ∧ raw_data p = take (Z.to_nat (raw_size p)) d.
Proof.
  unfold RawPod_wrap. case_bool_decide; [done|].
  destruct (read_u32_ok (E:=PodError) d 0) as (s & -> & Hs); [lia..|]. res_cbn.
  rewrite pod_total_size_u32 by done. res_cbn. pose proof (pad_8_range s).
  case_bool_decide; [done|].
  destruct (read_u32_ok (E:=PodError) d 4) as (t & -> & Ht); [lia..|]. res_cbn.
  destruct (try_from_u32 t) eqn:Htt; simpl; [|done]. rewrite slice_Ok by lia. simpl.
  intros [= <-]. exists s, t. simpl. rewrite Z.sub_0_r, drop_0.
  split_and!; done || lia.
Qed.

Lemma RawPod_wrap_intro d s t p :
  read_u32 (E:=PodError) d 0 = Ok s → read_u32 (E:=PodError) d 4 = Ok t →
  0 ≤ s < 2 ^ 32 → raw_size p = 8 + s + pad_8 s → raw_size p ≤ len d →
  try_from_u32 t = Some (raw_type p) → raw_data p = take (Z.to_nat (raw_size p)) d →
  RawPod_wrap d = Ok p.
Proof.
  intros H0 H4 Hs Hsz Hl Ht Hd. pose proof (pad_8_range s). unfold RawPod_wrap.
  rewrite bool_decide_eq_false_2 by lia. rewrite H0. res_cbn.
  rewrite pod_total_size_u32 by done. res_cbn.
  rewrite bool_decide_eq_false_2 by lia. rewrite H4. res_cbn. rewrite Ht. simpl.
  rewrite slice_Ok by lia. simpl. rewrite Z.sub_0_r, drop_0, <- Hsz. destruct p; simpl in *.
  by subst.
Qed.

(** The fields of a raw pod are private, so every one comes from [wrap]. *)
Definition raw_wf (p : RawPod) : Prop := RawPod_wrap (raw_data p) = Ok p.

Lemma raw_wf_size p : raw_wf p → len (raw_data p) = raw_size p.
Proof.
  intros (s & t & _ & _ & Hs & Hsz & Hl & _ & Hd)%RawPod_wrap_inv.
  pose proof (pad_8_range s). rewrite Hd, len_take; lia.
Qed.

Lemma raw_wrap_wf d p : RawPod_wrap d = Ok p → raw_wf p.
Proof.
  intros (s & t & H0 & H4 & Hs & Hsz & Hl & Ht & Hd)%RawPod_wrap_inv.
  pose proof (pad_8_range s). assert (len (raw_data p) = raw_size p) as Hlen
    by (rewrite Hd, len_take; lia).
  assert (d = raw_data p ++ drop (Z.to_nat (raw_size p)) d) as Hsplit
    by (by rewrite Hd, take_drop).
  rewrite Hsplit in H0, H4. rewrite read_u32_app_l in H0, H4 by lia.
  apply (RawPod_wrap_intro _ s t); try done; [lia|].
  rewrite <- Hlen, take_ge; [done|]. unfold len. lia.
Qed.

Lemma raw_wrap_app p rest : raw_wf p → RawPod_wrap (raw_data p ++ rest) = Ok p.
Proof.
  intros Hw. pose proof (raw_wf_size p Hw) as Hlen.
  apply RawPod_wrap_inv in Hw as (s & t & H0 & H4 & Hs & Hsz & Hl & Ht & Hd).
  pose proof (pad_8_range s). pose proof (len_nonneg rest).
  apply (RawPod_wrap_intro _ s t); try done.
  - by rewrite read_u32_app_l by lia.
  - by rewrite read_u32_app_l by lia.
  - rewrite len_app. lia.
  - rewrite take_app_le by (unfold len in *; lia). done.
Qed.

Lemma RawPod_wrap_total d : total (RawPod_wrap d).
Proof. unfold RawPod_wrap. repeat read_step; done. Qed.

#[global, refine] Instance raw_exact : PodExact pod_raw :=
  {| wire := raw_data; exact_ok := raw_wf |}.
Proof.
  - intros p Hp. rewrite raw_wf_size by done.
    apply RawPod_wrap_inv in Hp as (s & t & _ & _ & Hs & Hsz & _).
    pose proof (pad_8_range s). lia.
  - intros p Hp. rewrite raw_wf_size by done.
    apply RawPod_wrap_inv in Hp as (s & t & _ & _ & Hs & -> & _). apply total_aligned.
  - intros p data Hp Hl. pose proof (raw_wf_size p Hp) as Hs.
    pose proof (len_nonneg (raw_data p)). unfold pod_raw, encode.
    rewrite buf_len_bind, bool_decide_eq_false_2 by lia.
    rewrite slice_all by lia. rewrite Hs. apply writes_run; [|lia].
    eapply writes_eq; [repeat writes_step|by rewrite app_nil_r|done].
  - intros p data Hp Hl. rewrite raw_wf_size in Hl by done. exists data.
    unfold pod_raw, encode. rewrite buf_len_bind. by rewrite bool_decide_eq_true_2 by lia.
  - intros p rest Hp. unfold pod_raw, decode.
    rewrite RawPodOwned_wrap_eq, raw_wrap_app by done. simpl. by rewrite raw_wf_size.
  - intros data. unfold pod_raw, decode. rewrite RawPodOwned_wrap_eq.
    destruct (RawPod_wrap data) as [p| |] eqn:Hp; simpl; [|done|].
    + apply RawPod_wrap_inv in Hp as (s & t & _ & _ & Hs & Hsz & Hl & _).
      pose proof (pad_8_range s). split; [lia|]. rewrite Hsz. apply total_aligned.
    + by apply RawPod_wrap_total in Hp.
Defined.
