(* ===== verification/PodCompound.v ===== *)
(** * Laws of the compound pods: arrays, choices, properties, options

    These encoders write into what they find in the buffer: the padding of
    an array or a choice keeps its previous bytes. The round trip therefore
    holds for every buffer the encoder is given. *)

From S2P Require Import Prelude Utf8 PodTypes PodCodec PodLaws.

(** ** Sequences of bodies *)
Section bodies.
Context {T : Type} (P : Primitive T) `{!PrimitiveLaws P}.

Definition bodies (vs : list T) : list byte := concat (body_bytes P <$> vs).

Lemma bodies_cons v vs : bodies (v :: vs) = body_bytes P v ++ bodies vs.
Proof. done. Qed.

Lemma bodies_len vs : len (bodies vs) = pod_size P * len vs.
Proof.
  induction vs as [|v vs IH]; [unfold len; simpl; lia|].
  rewrite bodies_cons, len_app, len_cons, IH, body_bytes_len. lia.
Qed.

Lemma encode_bodies_writes w base i vs :
  base + i * pod_size P = len w → writes w (encode_bodies P base i vs) (bodies vs) tt.
Proof.
  revert w i. induction vs as [|v vs IH]; intros w i Hw; simpl; [apply writes_ret|].
  rewrite bodies_cons. eapply writes_bind.
  - apply writes_within; [lia|]. apply body_writes.
  - apply IH. rewrite len_app, body_bytes_len. lia.
Qed.

Lemma decode_bodies vs :
  Forall (prim_ok P) vs → mapM (decode_body P) (body_bytes P <$> vs) = Ok vs.
Proof.
  induction 1 as [|v vs Hv Hvs IH]; [done|]. rewrite fmap_cons.
  change (mapM (decode_body P) (body_bytes P v :: (body_bytes P <$> vs)))
    with (y ← decode_body P (body_bytes P v); k ← mapM (decode_body P) (body_bytes P <$> vs);
          mret (y :: k)).
  by rewrite body_decode, IH.
Qed.
End bodies.

(** [chunks_exact] undoes concatenation of equally long pieces. *)
Lemma chunks_fuel_concat {A} fuel n (ls : list (list A)) :
  0 < n → (∀ l, l ∈ ls → len l = n) → (length (concat ls) ≤ fuel)%nat →
  chunks_fuel fuel n (concat ls) = ls.
Proof.
  intros Hn. revert ls. induction fuel as [|f IH]; intros [|l ls] Hls Hf; simpl.
  - done.
  - pose proof (Hls l ltac:(left)) as Hl. simpl in Hf. rewrite length_app in Hf.
    unfold len in Hl. lia.
  - by rewrite bool_decide_eq_true_2.
  - pose proof (Hls l ltac:(left)) as Hl.
    rewrite bool_decide_eq_false_2 by (rewrite len_app; pose proof (len_nonneg (concat ls)); lia).
    replace (Z.to_nat n) with (length l) by (unfold len in Hl; lia).
    rewrite take_app_length, drop_app_length. f_equal. apply IH.
    + intros l' Hl'. apply Hls. by right.
    + simpl in Hf. rewrite length_app in Hf. unfold len in Hl. lia.
Qed.

Lemma chunks_exact_concat {A} n (ls : list (list A)) :
  0 < n → (∀ l, l ∈ ls → len l = n) → chunks_exact n (concat ls) = ls.
Proof. intros. by apply chunks_fuel_concat. Qed.

(** Every chunk has the requested length, whatever the input. *)
Lemma chunks_fuel_len {A} fuel n (l c : list A) :
  0 < n → c ∈ chunks_fuel fuel n l → len c = n.
Proof.
  intros Hn. revert l. induction fuel as [|f IH]; intros l; simpl; [by intros []%not_elem_of_nil|].
  case_bool_decide; [by intros []%not_elem_of_nil|].
  intros [->|Hc]%elem_of_cons; [apply len_take; lia|by eapply IH].
Qed.

Lemma mapM_total {A B} (f : A → PodRes B) l :
  (∀ x, x ∈ l → total (f x)) → total (mapM f l).
Proof.
  induction l as [|x l IH]; intros Hf; simpl; [done|].
  apply total_bind; [apply Hf; left|]. intros y _.
  apply total_bind; [apply IH; intros; apply Hf; by right|]. done.
Qed.

Lemma pad_8_add_8 s k : pad_8 (s + 8 * k) = pad_8 s.
Proof.
  unfold pad_8. replace (s + 8 * k) with (s + k * 8) by lia.
  rewrite Z.mod_add by lia. done.
Qed.

(** Extend what was written by the [p] bytes found behind it. *)
Lemma keep_padding (w data : list byte) p :
  0 ≤ p → len w + p ≤ len data →
  let q := take (Z.to_nat p) (drop (length w) data) in
  len q = p ∧ w ++ drop (length w) data = (w ++ q) ++ drop (length (w ++ q)) data.
Proof.
  intros Hp Hl q. assert (length q = Z.to_nat p) as Hq.
  { unfold q. rewrite length_take, length_drop. unfold len in Hl. lia. }
  split; [unfold len; lia|].
  rewrite length_app, Hq, <- app_assoc. f_equal.
  rewrite <- (take_drop (Z.to_nat p) (drop (length w) data)) at 1. by rewrite drop_drop.
Qed.

(** ** Arrays *)
Section array.
Context {T : Type} (P : Primitive T) `{!PrimitiveLaws P}.

Definition array_written (vs : list T) : list byte :=
  u32_bytes (8 + pod_size P * len vs) ++ u32_bytes (into_u32 TArray) ++
  u32_bytes (pod_size P) ++ u32_bytes (into_u32 (pod_type P)) ++ bodies P vs.

Definition array_ok (vs : list T) : Prop :=
  0 < pod_size P ∧ Forall (prim_ok P) vs ∧ 8 + pod_size P * len vs < 2 ^ 32.

Definition array_space (vs : list T) : Z :=
  16 + pod_size P * len vs + pad_8 (pod_size P * len vs).

Lemma array_written_len vs : len (array_written vs) = 16 + pod_size P * len vs.
Proof. unfold array_written. autorewrite with len. rewrite bodies_len. lia. Qed.

Lemma array_decode vs q rest :
  array_ok vs → len q = pad_8 (pod_size P * len vs) →
  decode (pod_array P) (array_written vs ++ q ++ rest) = Ok (vs, array_space vs).
Proof.
  intros (Hsz & Hvs & Hbig) Hq. pose proof (prim_size (P:=P)).
  set (e := pod_size P * len vs) in *. assert (0 ≤ e) by (unfold e; len_facts; nia).
  pose proof (pad_8_range e). pose proof (len_nonneg rest).
  assert (pad_8 (8 + e) = pad_8 e) as Hpad.
  { rewrite <- (pad_8_add_8 e 1). f_equal. lia. }
  assert (len (array_written vs ++ q ++ rest) = 16 + e + pad_8 e + len rest) as Hlen
    by (rewrite !len_app, array_written_len, Hq; lia).
  pose proof (bodies_len P vs) as Hb. fold e in Hb.
  unfold pod_array, decode. rewrite Hlen. unfold array_written. rewrite <- !app_assoc. fold e.
  repeat decode_step. rewrite Hpad.
  repeat first [ decode_step | rewrite try_from_into by exact I ].
  rewrite bool_decide_eq_false_2; last first.
  { replace (8 + e - 8) with (len vs * pod_size P) by (unfold e; lia).
    rewrite Z.mod_mul; lia. }
  repeat decode_step. unfold bodies. rewrite chunks_exact_concat; [|done|].
  - rewrite decode_bodies by done. simpl. unfold array_space. fold e. do 2 f_equal. lia.
  - intros l (v & -> & _)%list_elem_of_fmap. apply body_bytes_len.
Qed.

Lemma array_safe data : safe_decode (len data) (decode (pod_array P) data).
Proof.
  unfold pod_array, decode, safe_decode. repeat read_step; try done.
  destruct (mapM _ _) eqn:Hm; simpl; [|done|].
  - split; [lia|apply total_aligned].
  - revert Hm. apply mapM_total. intros c Hc. apply decode_body_total.
    eapply chunks_fuel_len in Hc; lia.
Qed.

#[global, refine] Instance array_laws : PodLaws (pod_array P) :=
  {| pod_ok := array_ok; pod_space := array_space |}.
Proof.
  - intros vs data Hok Hl. pose proof Hok as (Hsz & Hvs & Hbig).
    pose proof (pad_8_range (pod_size P * len vs)).
    assert (0 ≤ pod_size P * len vs) by (len_facts; nia).
    pose proof (array_written_len vs) as Hwl. unfold array_space in Hl.
    destruct (keep_padding (array_written vs) data (pad_8 (pod_size P * len vs)))
      as [Hq Hk]; [lia..|].
    set (q := take _ _) in Hq, Hk.
    assert (len (array_written vs ++ q) = array_space vs) as Hsp
      by (rewrite len_app, Hq, Hwl; unfold array_space; lia).
    exists (array_written vs ++ q). rewrite Hsp. unfold array_space in *.
    split_and!; [|lia|lia|..].
    + unfold pod_array, encode. rewrite buf_len_bind, bool_decide_eq_false_2 by lia.
      erewrite (writes_run _ (array_written vs)); [|..|lia].
      * by rewrite Hk at 1.
      * unfold array_written. rewrite (wrap_small 32 (pod_size P * len vs)) by lia.
        rewrite wrap_small by lia.
        eapply writes_eq;
          [do 4 (eapply writes_bind; [apply writes_put; len_lia|]);
           eapply writes_bind; [apply encode_bodies_writes; len_lia|apply writes_ret]
          |by rewrite app_nil_r|lia].
    + replace (16 + pod_size P * len vs + pad_8 (pod_size P * len vs))
        with (pod_size P * len vs + pad_8 (pod_size P * len vs) + 2 * 8) by lia.
      rewrite Z.mod_add by lia. apply pad_8_aligned.
    + intros rest. rewrite <- app_assoc. by apply array_decode.
  - intros vs data _ Hl. exists data. unfold array_space in Hl.
    unfold pod_array, encode. rewrite buf_len_bind. by rewrite bool_decide_eq_true_2 by lia.
  - apply array_safe.
Defined.
End array.

(** ** Choices *)
Definition choice_list {T} (c : Choice T) : list T :=
  match c with
  | ChNone v => [v]
  | ChRange default min max => [default; min; max]
  | ChStep default min max step => [default; min; max; step]
  | ChEnum default alternatives => default :: alternatives
  | ChFlags default flags => [default; flags]
  end.

Lemma choice_children_list {T} (c : Choice T) : choice_children c = len (choice_list c).
Proof. destruct c; simpl; unfold len; simpl; lia. Qed.

Lemma mapM_lookup {A B} (f : A → PodRes B) l vs :
  length l = length vs →
  (∀ i x v, l !! i = Some x → vs !! i = Some v → f x = Ok v) → mapM f l = Ok vs.
Proof.
  revert vs. induction l as [|x l IH]; intros [|v vs] Hl Hf; try done.
  change (mapM f (x :: l)) with (y ← f x; k ← mapM f l; mret (y :: k)).
  rewrite (Hf 0%nat x v) by done. res_cbn. rewrite (IH vs); [done|naive_solver|].
  intros i. apply (Hf (S i)).
Qed.

(** The decoder rebuilds a choice from children that read back its values. *)
Lemma build_choice_spec {T} (child : Z → PodRes T) (c : Choice T) :
  (∀ i v, choice_list c !! i = Some v → child (Z.of_nat i) = Ok v) →
  build_choice child (choice_type c) (choice_children c) = Ok c.
Proof.
  intros Hc.
  assert (∀ i v, 0 ≤ i → choice_list c !! Z.to_nat i = Some v → child i = Ok v) as Hz.
  { intros i v Hi Hv. specialize (Hc _ _ Hv). by rewrite Z2Nat.id in Hc. }
  destruct c as [v|d mi ma|d mi ma st|d alts|d fl]; unfold build_choice; simpl in *.
  - by rewrite (Hz 0 v).
  - by rewrite (Hz 0 d), (Hz 1 mi), (Hz 2 ma).
  - by rewrite (Hz 0 d), (Hz 1 mi), (Hz 2 ma), (Hz 3 st).
  - pose proof (len_nonneg alts). rewrite bool_decide_eq_false_2 by lia.
    rewrite (Hz 0 d) by done. res_cbn. rewrite (mapM_lookup _ _ alts); [done|..].
    + rewrite length_seqZ. unfold len. lia.
    + intros i x v (-> & Hi)%lookup_seqZ Hv. apply Hz; [lia|].
      replace (Z.to_nat (1 + Z.of_nat i)) with (S i) by lia. done.
  - by rewrite (Hz 0 d), (Hz 1 fl).
Qed.

Lemma build_choice_total {T} (child : Z → PodRes T) t n :
  0 ≤ n → (∀ i, 0 ≤ i < n → total (child i)) → total (build_choice child t n).
Proof.
  intros Hn Hc. unfold build_choice.
  repeat match goal with
  | |- total (if ?b then _ else _) => destruct b eqn:?
  | |- total (Err _) => done
  | |- total (Ok _) => done
  | H : bool_decide _ = false |- _ => apply bool_decide_eq_false in H
  | |- total (child _ ≫= _) => apply total_bind; [apply Hc; lia|intros]
  | |- total (mapM _ _ ≫= _) =>
      apply total_bind; [apply mapM_total; intros i Hi%elem_of_seqZ; apply Hc; lia|intros]
  end.
Qed.

Section choice.
Context {T : Type} (P : Primitive T) `{!PrimitiveLaws P}.

Definition choice_body_size (c : Choice T) : Z := 16 + pod_size P * choice_children c.

Definition choice_written (c : Choice T) : list byte :=
  u32_bytes (choice_body_size c) ++ u32_bytes (into_u32 TChoice) ++
  u32_bytes (choice_type c) ++ u32_bytes 0 ++
  u32_bytes (pod_size P) ++ u32_bytes (into_u32 (pod_type P)) ++ bodies P (choice_list c).

Definition choice_ok (c : Choice T) : Prop :=
  0 < pod_size P ∧ Forall (prim_ok P) (choice_list c) ∧ choice_body_size c < 2 ^ 32.

(** The encoder asks for 16 bytes more than it writes. *)
Definition choice_space (c : Choice T) : Z :=
  24 + choice_body_size c + pad_8 (choice_body_size c).

Lemma choice_written_len c : len (choice_written c) = 8 + choice_body_size c.
Proof.
  unfold choice_written, choice_body_size. autorewrite with len.
  rewrite bodies_len, choice_children_list. lia.
Qed.

Lemma encode_choice_body_writes w c :
  len w = 24 → writes w (encode_choice_body P c) (bodies P (choice_list c)) tt.
Proof.
  intros Hw. destruct c; simpl; unfold bodies; simpl; rewrite ?app_nil_r;
    repeat (first [eapply writes_bind
      | apply writes_within; [autorewrite with len; rewrite ?body_bytes_len; lia|apply body_writes]]).
  apply encode_bodies_writes. autorewrite with len. rewrite body_bytes_len. lia.
Qed.

(** The [i]-th body sits at its offset. *)
Lemma bodies_slice vs rest (i : nat) v :
  vs !! i = Some v →
  slice (E:=PodError) (bodies P vs ++ rest) (Z.of_nat i * pod_size P)
    (Z.of_nat i * pod_size P + pod_size P) = Ok (body_bytes P v).
Proof.
  revert i. induction vs as [|v' vs IH]; intros [|i] Hv; simplify_eq/=.
  - rewrite bodies_cons, <- app_assoc. apply slice_hd; rewrite ?body_bytes_len; lia.
  - rewrite bodies_cons, <- app_assoc. pose proof (prim_size (P:=P)).
    rewrite slice_skip by (rewrite body_bytes_len; nia). rewrite body_bytes_len.
    rewrite <- (IH i Hv). f_equal; lia.
Qed.

Lemma choice_decode c q rest :
  choice_ok c → len q = pad_8 (choice_body_size c) →
  decode (pod_choice P) (choice_written c ++ q ++ rest)
  = Ok (c, 8 + choice_body_size c + pad_8 (choice_body_size c)).
Proof.
  intros (Hsz & Hvs & Hbig) Hq. pose proof (prim_size (P:=P)).
  assert (0 ≤ choice_type c < 2 ^ 32) by (destruct c; simpl; lia).
  assert (1 ≤ choice_children c) by (destruct c; simpl; len_facts; lia).
  assert (16 ≤ choice_body_size c) by (unfold choice_body_size; nia).
  pose proof (pad_8_range (choice_body_size c)). pose proof (len_nonneg rest).
  assert (len (choice_written c ++ q ++ rest)
    = 8 + choice_body_size c + pad_8 (choice_body_size c) + len rest) as Hlen
    by (rewrite !len_app, choice_written_len, Hq; lia).
  unfold pod_choice, decode. rewrite Hlen. unfold choice_written. rewrite <- !app_assoc.
  repeat decode_step.
  assert (choice_body_size c - 16 = choice_children c * pod_size P) as Hcs
    by (unfold choice_body_size; lia).
  rewrite Hcs, bool_decide_eq_false_2 by (rewrite Z.mod_mul; lia).
  rewrite Z.div_mul by lia. rewrite build_choice_spec; [done|].
  intros i v Hv. rewrite !slice_skip by len_lia. autorewrite with len.
  replace (24 + Z.of_nat i * pod_size P - 4 - 4 - 4 - 4 - 4 - 4)
    with (Z.of_nat i * pod_size P) by lia.
  replace (24 + Z.of_nat i * pod_size P + pod_size P - 4 - 4 - 4 - 4 - 4 - 4)
    with (Z.of_nat i * pod_size P + pod_size P) by lia.
  rewrite (bodies_slice _ _ i v Hv). res_cbn. apply body_decode.
  eapply Forall_lookup_1; done.
Qed.

Lemma choice_safe data : safe_decode (len data) (decode (pod_choice P) data).
Proof.
  unfold pod_choice, decode, safe_decode. repeat (lazymatch goal with
    | |- context [build_choice] => first [
        match goal with |- context [read_u32] => read_step end
      | match goal with |- context [pod_total_size] => read_step end
      | match goal with |- context [bool_decide] => read_step end ]
    end); try done.
  match goal with |- context [build_choice ?f ?t ?n] =>
    assert (total (build_choice f t n)) as Htot end.
  { apply build_choice_total; [apply Z.div_pos; lia|]. intros i Hi.
    match goal with H : ¬ ((?a - 16) mod ?b ≠ 0) |- _ => rename a into sz; rename b into cs end.
    assert (sz - 16 = cs * ((sz - 16) / cs)) by (apply Z_div_exact_full_2; lia).
    assert (cs * (i + 1) ≤ sz - 16) by nia.
    rewrite slice_Ok by nia. res_cbn. apply decode_body_total.
    rewrite len_take; [lia|]. rewrite len_drop; nia. }
  destruct (build_choice _ _ _); simpl; [|done|done].
  split; [lia|apply total_aligned].
Qed.

#[global, refine] Instance choice_laws : PodLaws (pod_choice P) :=
  {| pod_ok := choice_ok; pod_space := choice_space |}.
Proof.
  - intros c data Hok Hl. pose proof Hok as (Hsz & Hvs & Hbig).
    pose proof (pad_8_range (choice_body_size c)). unfold choice_space in *.
    pose proof (choice_written_len c) as Hwl.
    destruct (keep_padding (choice_written c) data (pad_8 (choice_body_size c)))
      as [Hq Hk]; [lia..|].
    set (q := take _ _) in Hq, Hk.
    assert (len (choice_written c ++ q)
      = 8 + choice_body_size c + pad_8 (choice_body_size c)) as Hsp
      by (rewrite len_app, Hq, Hwl; lia).
    assert (16 ≤ choice_body_size c)
      by (unfold choice_body_size; destruct c; simpl; len_facts; nia).
    exists (choice_written c ++ q). rewrite Hsp. split_and!; [|lia|lia|apply total_aligned|].
    + unfold pod_choice, encode. fold (choice_body_size c).
      rewrite buf_len_bind, bool_decide_eq_false_2 by lia.
      erewrite (writes_run _ (choice_written c)); [|..|lia].
      * by rewrite Hk at 1.
      * unfold choice_written. rewrite wrap_small by lia.
        eapply writes_eq;
          [do 6 (eapply writes_bind; [apply writes_put; len_lia|]);
           eapply writes_bind; [apply encode_choice_body_writes; len_lia|apply writes_ret]
          |by rewrite app_nil_r|lia].
    + intros rest. rewrite <- app_assoc. by apply choice_decode.
  - intros c data _ Hl. exists data. unfold choice_space, choice_body_size in Hl.
    unfold pod_choice, encode. rewrite buf_len_bind. by rewrite bool_decide_eq_true_2 by lia.
  - apply choice_safe.
Defined.
End choice.

(** ** Properties *)
Lemma from_bits_range f : 0 ≤ f < 16 → PropertyFlags_from_bits f = Some f.
Proof.
  intros Hf. unfold PropertyFlags_from_bits.
  replace (Z.ldiff f PropertyFlags_all) with 0; [done|].
  symmetry. change PropertyFlags_all with (Z.ones 4).
  rewrite Z.ldiff_ones_r by lia. rewrite Z.shiftr_div_pow2 by lia.
  rewrite Z.div_small by (change (2 ^ 4) with 16; lia). done.
Qed.

Section property.
Context {K V : Type} `{U32ConvLaws K} (U : Pod V) `{!PodLaws U}.

Definition property_ok (p : Property K V) : Prop :=
  u32_ok (key p) ∧ 0 ≤ flags p < 16 ∧ pod_ok U (value p).

Definition property_header (p : Property K V) : list byte :=
  u32_bytes (into_u32 (key p)) ++ u32_bytes (flags p).

Lemma property_header_len p : len (property_header p) = 8.
Proof. unfold property_header. len_lia. Qed.

(** The header is written first, then the value behind it. *)
Lemma property_encode p data :
  8 ≤ len data →
  encode (pod_property U) p data =
  let '(d, r) := encode U (value p) (drop 8 data) in
  (property_header p ++ d, match r with Ok n => Ok (8 + n) | Err e => Err e | Panic => Panic end).
Proof.
  intros Hl. unfold pod_property, encode at 1.
  rewrite buf_len_bind, bool_decide_eq_false_2 by lia.
  pose proof (property_header_len p) as Hh.
  assert (writes (E:=PodError) [] (put_at 0 (u32_bytes (into_u32 (key p))) ;;
    put_at 4 (u32_bytes (flags p))) (property_header p) tt) as Hw by repeat writes_step.
  apply (writes_run _ _ _ data) in Hw; [|lia]. revert Hw.
  unfold mbind, w_bind. destruct (put_at 0 _ data) as [d1 [[]|e|]]; try done.
  intros ->. rewrite within_app by done.
  replace (length (property_header p)) with 8%nat by (unfold len in Hh; lia).
  destruct (encode U (value p) (drop 8 data)) as [d [n|e|]]; done.
Qed.

#[global, refine] Instance property_laws : PodLaws (pod_property (K:=K) U) :=
  {| pod_ok := property_ok; pod_space p := Z.max 8 (8 + pod_space U (value p)) |}.
Proof.
  - intros p data (Hk & Hf & Hv) Hl.
    destruct (encode_fits (P:=U) (value p) (drop 8 data) Hv) as (bs & He & Hb1 & Hb2 & Hb3 & Hd).
    { rewrite (len_drop 8) by lia. lia. }
    pose proof (property_header_len p) as Hh.
    exists (property_header p ++ bs). rewrite len_app, Hh. split_and!; [|lia|lia|..].
    + rewrite property_encode by lia. rewrite He, <- app_assoc, drop_drop. do 3 f_equal.
    + replace (8 + len bs) with (len bs + 1 * 8) by lia. by rewrite Z.mod_add by lia.
    + intros rest. pose proof (len_nonneg rest).
      assert (u32_range (into_u32 (key p))) by (by apply into_u32_range).
      unfold pod_property, decode, property_header. rewrite <- !app_assoc.
      rewrite bool_decide_eq_false_2 by len_lia.
      repeat decode_step. rewrite try_from_into, from_bits_range by done. simpl.
      unfold slice_from. autorewrite with len. repeat decode_step. rewrite Hd. simpl.
      by destruct p.
  - intros p data (Hk & Hf & Hv) Hl. destruct (decide (len data < 8)) as [Hs|Hs].
    + exists data. unfold pod_property, encode. rewrite buf_len_bind.
      by rewrite bool_decide_eq_true_2 by lia.
    + rewrite property_encode by lia.
      destruct (encode_nospace (P:=U) (value p) (drop 8 data)) as (d & -> & Hd); [done|..].
      { rewrite (len_drop 8) by lia. lia. }
      eexists; split; [done|]. rewrite len_app, property_header_len, Hd, (len_drop 8); lia.
  - intros data. cbn [decode pod_property]. unfold safe_decode, slice_from.
    repeat read_step; try done.
    match goal with |- context [decode U ?d] => pose proof (decode_safe (P:=U) d) as Hs end.
    rewrite len_take in Hs by (rewrite (len_drop 8); lia). unfold safe_decode in Hs.
    destruct (decode U _) as [[v m]| |]; simpl; [|done|done].
    destruct Hs as [Hn1 Hn2]. split; [lia|].
    replace (8 + m) with (m + 1 * 8) by lia. by rewrite Z.mod_add by lia.
Defined.
End property.

(** ** Options

    [None] is written as a None pod. It reads back as [None] only if the
    inner decoder refuses that pod; [Option<RawPod>] and [Option<()>] accept
    it and return [Some]. *)
Section option.
Context {T : Type} (P : Pod T) `{!PodLaws P}.

Definition refuses_none : Prop :=
  ∀ rest, ∃ e, decode P (wire pod_none tt ++ rest) = Err e.

Definition option_ok (o : option T) : Prop :=
  match o with Some v => pod_ok P v | None => refuses_none end.

#[global, refine] Instance option_laws : PodLaws (pod_option P) :=
  {| pod_ok := option_ok;
     pod_space o := match o with Some v => pod_space P v | None => 8 end |}.
Proof.
  - intros [v|] data Hok Hl.
    + destruct (encode_fits (P:=P) v data Hok Hl) as (bs & He & Hb1 & Hb2 & Hb3 & Hd).
      exists bs. split_and!; try done. intros rest. simpl. by rewrite Hd.
    + exists (wire pod_none tt). split_and!; try done.
      * change (encode (pod_option P) None data) with (encode pod_none tt data).
        by apply exact_encode.
      * intros rest. destruct (Hok rest) as [e He].
        unfold pod_option at 1, decode at 1. rewrite He. fold pod_none.
        by rewrite exact_decode.
  - intros [v|] data Hok Hl; [by apply (encode_nospace (P:=P))|].
    change (encode (pod_option P) None data) with (encode pod_none tt data).
    by apply exact_nospace.
  - intros data. pose proof (decode_safe (P:=P) data) as Hs.
    pose proof (exact_safe (P:=pod_none) data) as Hn. unfold safe_decode, pod_none in *.
    unfold pod_option, decode at 1. destruct (decode P data) as [[v n]| |]; [done| |done].
    by destruct (decode (pod_prim prim_unit) data) as [[v n]| |].
Defined.
End option.

(** A primitive of another type refuses the None pod. *)
Lemma prim_refuses_none {T} (Q : Primitive T) :
  pod_size Q ≠ 0 → refuses_none (pod_prim Q).
Proof.
  intros Hq rest. pose proof (len_nonneg rest).
  unfold pod_none, wire, exact_ok; simpl. unfold prim_wire. simpl.
  eexists. rewrite <- !app_assoc. rewrite bool_decide_eq_false_2 by len_lia.
  slice_step. by rewrite bool_decide_eq_true_2.
Qed.

(** ** Structs and objects on the wire *)
Definition struct_wire (body : list byte) : list byte := sized_wire TStruct body.

Definition object_wire {I} `{U32Conv I} (ot : ObjectType) (id : I) (body : list byte) : list byte :=
  u32_bytes (8 + len body) ++ u32_bytes (into_u32 TObject) ++ u32_bytes (into_u32 ot) ++
  u32_bytes (into_u32 id) ++ body ++ zeros (pad_8 (8 + len body)).

Lemma object_wire_len {I} `{U32Conv I} ot (id : I) body :
  len (object_wire ot id body) = 16 + len body + pad_8 (8 + len body).
Proof. unfold object_wire. pose proof (pad_8_range (8 + len body)). len_lia. Qed.
