(* ===== verification/PodParser.v ===== *)
(** * The POD parser

    Models [spa/src/pod/parser.rs]. A parser is a byte slice with a
    position; a method is a state transformer on it that also returns the
    outcome, so the position a failing call leaves behind is part of the
    model. Closures passed to the compound methods are such transformers. *)

From S2P Require Import Prelude Utf8 PodTypes PodCodec PodLaws PodCompound.

Record Parser := mkParser { p_data : list byte; p_pos : Z }.

Definition PM (A : Type) : Type := Parser → Parser * PodRes A.

#[global] Instance pm_ret : MRet PM := λ A a p, (p, Ok a).
#[global] Instance pm_bind : MBind PM := λ A B f m p,
  match m p with
  | (p', Ok a) => f a p'
  | (p', Err e) => (p', Err e)
  | (p', Panic) => (p', Panic)
  end.

Definition pm_res {A} (r : PodRes A) : PM A := λ p, (p, r).

Definition with_pos (p : Parser) (pos : Z) : Parser := mkParser (p_data p) pos.

(** End of a method: on success store the new position. *)
Definition commit {A} (p : Parser) (r : PodRes (A * Z)) : Parser * PodRes A :=
  match r with
  | Ok (a, pos) => (with_pos p pos, Ok a)
  | Err e => (p, Err e)
  | Panic => (p, Panic)
  end.

Definition Parser_new (data : list byte) : Parser := mkParser data 0.

Definition available (p : Parser) : Z := saturating_sub (len (p_data p)) (p_pos p).

Definition pop_pod {T} (U : Pod T) : PM T := λ p,
  commit p (
    d ← slice_from (p_data p) (p_pos p);
    '(res, size) ← decode U d;
    if bool_decide (size > available p)
    then Err (Invalid "Decoded pod exceeds available data") else
    pos ← ok_or (checked_add 64 (p_pos p) size) (Invalid "Parser position overflow");
    Ok (res, pos)).

Definition pop_none : PM unit := pop_pod pod_none.
Definition pop_bool : PM bool := pop_pod pod_bool.
Definition pop_id (T : Type) `{U32Conv T} : PM (Id T) := pop_pod (pod_id T).
Definition pop_int : PM Z := pop_pod pod_i32.
Definition pop_long : PM Z := pop_pod pod_i64.
Definition pop_float : PM Z := pop_pod pod_f32.
Definition pop_double : PM Z := pop_pod pod_f64.
Definition pop_string : PM (list byte) := pop_pod pod_str.
Definition pop_bytes : PM (list byte) := pop_pod pod_bytes.
Definition pop_pointer : PM Pointer := pop_pod pod_pointer.
Definition pop_fd : PM Fd := pop_pod pod_fd.
Definition pop_rectangle : PM Rectangle := pop_pod pod_rectangle.
Definition pop_fraction : PM Fraction := pop_pod pod_fraction.
Definition pop_array {T} (P : Primitive T) : PM (list T) := pop_pod (pod_array P).
Definition pop_choice {T} (P : Primitive T) : PM (Choice T) := pop_pod (pod_choice P).

(** [parse_item] is an [FnMut] over its captured state [S]. *)
Fixpoint for_each {S A} (f : S → A → PodRes S) (s : S) (l : list A) : PodRes S :=
  match l with
  | [] => Ok s
  | x :: l => s' ← f s x; for_each f s' l
  end.

Definition pop_array_raw {S} (parse_item : S → PodType → list byte → PodRes S) (s : S) :
    PM (S * Z) := λ p,
  let data := p_data p in let pos := p_pos p in
  commit p (
    if bool_decide (available p < 16) then Err (Invalid "Not enough data for array") else
    size ← read_u32 data pos;
    if bool_decide (size < 8) then Err (Invalid "Array body is smaller than its header") else
    total_size ← pod_total_size size;
    if bool_decide (available p < total_size)
    then Err (Invalid "Not enough data for struct") else
    t ← read_u32 data (pos + 4);
    if bool_decide (t ≠ into_u32 TArray) then Err (Invalid "Type is not array") else
    child_size ← read_u32 data (pos + 8);
    if bool_decide (child_size = 0) then Err (Invalid "Array child size is zero") else
    ct ← read_u32 data (pos + 12);
    child_type ← ok_or (try_from_u32 ct) (Invalid "Could noy parse child_type");
    let elements_size := size - 8 in
    if bool_decide (elements_size mod child_size ≠ 0)
    then Err (Invalid "Array body has a partial child") else
    let body_start := pos + 16 in
    let body_end := body_start + elements_size in
    elements ← slice data body_start body_end;
    s' ← for_each (λ s body, parse_item s child_type body) s (chunks_exact child_size elements);
    Ok ((s', total_size), pos + total_size)).

Definition pop_choice_raw (parse_choice : PodType → Choice (list byte) → PodRes unit) :
    PM Z := λ p,
  commit p (
    data ← slice_from (p_data p) (p_pos p);
    if bool_decide (len data < 24) then Err (Invalid "Not enough data for choice") else
    size ← read_u32 data 0;
    if bool_decide (size < 16) then Err (Invalid "Choice body is smaller than its header") else
    total_size ← pod_total_size size;
    if bool_decide (len data < total_size) then Err (Invalid "Not enough data for choice") else
    t ← read_u32 data 4;
    if bool_decide (t ≠ into_u32 TChoice) then Err (Invalid "Type is not choice") else
    ctype ← read_u32 data 8;
    child_size ← read_u32 data 16;
    if bool_decide (child_size = 0) then Err (Invalid "Choice child size is zero") else
    ct ← read_u32 data 20;
    child_type ← ok_or (try_from_u32 ct) (Invalid "Invalid child type in choice");
    let children_size := size - 16 in
    if bool_decide (children_size mod child_size ≠ 0)
    then Err (Invalid "Choice body has a partial child") else
    let child_count := children_size / child_size in
    let child index :=
      slice data (24 + index * child_size) (24 + index * child_size + child_size) in
    choice ← build_choice child ctype child_count;
    _ ← parse_choice child_type choice;
    Ok (total_size, p_pos p + total_size)).

Definition pop_struct {T} (parse_struct : PM T) : PM (T * Z) := λ p,
  let data := p_data p in let pos := p_pos p in
  commit p (
    if bool_decide (available p < 8) then Err (Invalid "Not enough data for struct") else
    size ← read_u32 data pos;
    total_size ← pod_total_size size;
    if bool_decide (available p < total_size)
    then Err (Invalid "Not enough data for struct") else
    t ← read_u32 data (pos + 4);
    if bool_decide (t ≠ into_u32 TStruct) then Err (Invalid "Type is not struct") else
    body ← slice data (pos + 8) (pos + 8 + size);
    ret ← (parse_struct (Parser_new body)).2;
    Ok ((ret, total_size), pos + total_size)).

(** ** Objects

    [ObjectParser<K>] and [ObjectParserRaw] are again a slice and a position. *)
Record ObjectParser := mkObjectParser { o_data : list byte; o_pos : Z }.
Definition OM (A : Type) : Type := ObjectParser → ObjectParser * PodRes A.

Definition ObjectParser_new (data : list byte) : ObjectParser := mkObjectParser data 0.
Definition o_available (p : ObjectParser) : Z := saturating_sub (len (o_data p)) (o_pos p).

(** Read the object header shared by [pop_object] and [pop_object_raw]:
    body size, total size, object type and id. *)
Definition object_header {I} `{U32Conv I} (p : Parser) : PodRes (Z * Z * ObjectType * I) :=
  let data := p_data p in let pos := p_pos p in
  if bool_decide (available p < 16) then Err (Invalid "Not enough data for object") else
  size ← read_u32 data pos;
  if bool_decide (size < 8) then Err (Invalid "Object body is smaller than its header") else
  total_size ← pod_total_size size;
  if bool_decide (available p < total_size) then Err (Invalid "Not enough data for object") else
  t ← read_u32 data (pos + 4);
  if bool_decide (t ≠ into_u32 TObject) then Err (Invalid "Type is not object") else
  ot ← read_u32 data (pos + 8);
  object_type ← ok_or (try_from_u32 ot) (Invalid "Could not decode object type");
  i ← read_u32 data (pos + 12);
  id ← ok_or (try_from_u32 i) (Invalid "Could not decode id");
  Ok (size, total_size, object_type, id).

(** The rest of both methods: step over the header, hand the body to the
    closure, and only if it succeeds step over the body and its padding. *)
Definition object_body {T} (p : Parser) (size total_size : Z) (parse_object : OM T) :
    Parser * PodRes (T * Z) :=
  let p1 := with_pos p (p_pos p + 16) in
  commit p1 (
    body ← slice (p_data p1) (p_pos p1) (p_pos p1 + size - 8);
    ret ← (parse_object (ObjectParser_new body)).2;
    Ok ((ret, total_size), p_pos p1 + (size - 8 + pad_8 size))).

(** [K_TYPE] is the constant [K::TYPE] of the [ParamObject] trait. *)
Definition pop_object {I T} `{U32Conv I} (K_TYPE : ObjectType) (parse_object : I → OM T) :
    PM (T * Z) := λ p,
  match object_header (I:=I) p with
  | Ok (size, total_size, object_type, id) =>
      if bool_decide (object_type ≠ K_TYPE) then (p, Err (Invalid "Unexpected object type"))
      else object_body p size total_size (parse_object id)
  | Err e => (p, Err e)
  | Panic => (p, Panic)
  end.

Definition pop_object_raw {I T} `{U32Conv I} (parse_object : ObjectType → I → OM T) :
    PM (T * Z) := λ p,
  match object_header (I:=I) p with
  | Ok (size, total_size, object_type, id) =>
      object_body p size total_size (parse_object object_type id)
  | Err e => (p, Err e)
  | Panic => (p, Panic)
  end.

Definition pop_raw_pod : PM RawPod := λ p,
  commit p (
    d ← slice_from (p_data p) (p_pos p);
    res ← RawPod_wrap d;
    Ok (res, p_pos p + raw_size res)).

(** [pop_property] of both object parsers; [ObjectParserRaw] keeps the key as
    a plain [u32]. The position moves past key and flags before the value is
    wrapped. *)
Definition pop_property {K} `{U32Conv K} : OM (option (K * Z * RawPod)) := λ p,
  let data := o_data p in let pos := o_pos p in
  if bool_decide (o_available p = 0) then (p, Ok None) else
  if bool_decide (o_available p < 16)
  then (p, Err (Invalid "Not enough data for object property")) else
  let header : PodRes (K * Z) :=
    k ← read_u32 data pos;
    key ← ok_or (try_from_u32 k) (Invalid "Could not decode key");
    f ← read_u32 data (pos + 4);
    flags ← ok_or (PropertyFlags_from_bits f) (Invalid "Could not decode flags");
    Ok (key, flags) in
  match header with
  | Ok (key, flags) =>
      let p1 := mkObjectParser data (pos + 8) in
      match (d ← slice_from data (pos + 8); RawPod_wrap d) with
      | Ok raw => (mkObjectParser data (pos + 8 + raw_size raw), Ok (Some (key, flags, raw)))
      | Err e => (p1, Err e)
      | Panic => (p1, Panic)
      end
  | Err e => (p, Err e)
  | Panic => (p, Panic)
  end.

Definition ObjectParserRaw_pop_property : OM (option (Z * Z * RawPod)) := pop_property (K:=Z).

(** [Iterator::next]: the end of the data and a parse error both end the
    iteration. *)
Definition ObjectParser_next {K} `{U32Conv K} (p : ObjectParser) :
    ObjectParser * option (K * Z * RawPod) :=
  match pop_property p with
  | (p', Ok (Some item)) => (p', Some item)
  | (p', _) => (p', None)
  end.
