(* ===== verification/PodParserLaws.v ===== *)
(** * Laws of the POD parser

    Two contracts over [PodParser], both closed under sequencing:
    - [pm_safe]: from any position inside any data a method returns without
      panicking, never moves backwards and never leaves the data;
    - [parses]: a method consumes exactly the given bytes, wherever they
      stand in the data, and returns the given value. *)

From S2P Require Import Prelude Utf8 PodTypes PodCodec PodLaws PodCompound PodParser.

(** A Rust slice is never longer than [isize::MAX] bytes. *)
Definition parser_wf (p : Parser) : Prop :=
  0 ≤ p_pos p ≤ len (p_data p) ∧ len (p_data p) ≤ isize_max.
Definition oparser_wf (p : ObjectParser) : Prop :=
  0 ≤ o_pos p ≤ len (o_data p) ∧ len (o_data p) ≤ isize_max.

Definition moved (p p' : Parser) : Prop :=
  p_data p' = p_data p ∧ p_pos p ≤ p_pos p' ≤ len (p_data p).
Definition omoved (p p' : ObjectParser) : Prop :=
  o_data p' = o_data p ∧ o_pos p ≤ o_pos p' ≤ len (o_data p).

Definition pm_safe {A} (m : PM A) : Prop :=
  ∀ p, parser_wf p → moved p (m p).1 ∧ total (m p).2.
Definition om_safe {A} (m : OM A) : Prop :=
  ∀ p, oparser_wf p → omoved p (m p).1 ∧ total (m p).2.

Lemma moved_wf p p' : parser_wf p → moved p p' → parser_wf p'.
Proof. intros [??] [Hd ?]. unfold parser_wf. rewrite Hd. lia. Qed.

Lemma moved_trans p q r : moved p q → moved q r → moved p r.
Proof. intros [H1 ?] [H2 ?]. unfold moved. rewrite H2, H1 in *. split; [done|lia]. Qed.

Lemma moved_refl p : parser_wf p → moved p p.
Proof. intros [??]. unfold moved. split; [done|lia]. Qed.

Lemma omoved_refl p : oparser_wf p → omoved p p.
Proof. intros [??]. unfold omoved. split; [done|lia]. Qed.

Lemma moved_step p n : parser_wf p → 0 ≤ n ≤ len (p_data p) - p_pos p →
  moved p (with_pos p (p_pos p + n)).
Proof. intros [??] ?. unfold moved. simpl. split; [done|lia]. Qed.

Lemma Parser_new_wf d : len d ≤ isize_max → parser_wf (Parser_new d).
Proof. unfold parser_wf. simpl. len_lia. Qed.

Lemma ObjectParser_new_wf d : len d ≤ isize_max → oparser_wf (ObjectParser_new d).
Proof. unfold oparser_wf. simpl. len_lia. Qed.

Lemma available_wf p : parser_wf p → available p = len (p_data p) - p_pos p.
Proof. intros [??]. unfold available, saturating_sub. lia. Qed.

Lemma o_available_wf p : oparser_wf p → o_available p = len (o_data p) - o_pos p.
Proof. intros [??]. unfold o_available, saturating_sub. lia. Qed.

Lemma pm_ret_safe {A} (a : A) : pm_safe (mret a).
Proof. intros p Hp. split; [by apply moved_refl|done]. Qed.

Lemma pm_res_safe {A} (r : PodRes A) : total r → pm_safe (pm_res r).
Proof. intros Hr p Hp. split; [by apply moved_refl|done]. Qed.

Lemma pm_bind_safe {A B} (m : PM A) (f : A → PM B) :
  pm_safe m → (∀ a, pm_safe (f a)) → pm_safe (m ≫= f).
Proof.
  intros Hm Hf p Hp. unfold mbind, pm_bind. destruct (Hm p Hp) as [Hmv Ht].
  destruct (m p) as [p' [a|e|]]; simpl in *; [|done..].
  destruct (Hf a p') as [Hmv' ?]; [by eapply moved_wf|]. split; [by eapply moved_trans|done].
Qed.

(** A method that only commits a position inside the data. *)
Lemma commit_safe {A} p (r : PodRes (A * Z)) :
  parser_wf p → total r → (∀ a pos, r = Ok (a, pos) → p_pos p ≤ pos ≤ len (p_data p)) →
  moved p (commit p r).1 ∧ total (commit p r).2.
Proof.
  intros Hp Ht Hr. destruct r as [[a pos]|e|]; simpl; [|split; [by apply moved_refl|done]|done].
  split; [|done]. split; [done|]. by eapply Hr.
Qed.

Lemma pop_pod_safe {T} (U : Pod T) `{!PodLaws U} : pm_safe (pop_pod U).
Proof.
  intros p Hp. unfold pop_pod. rewrite (available_wf p) by done.
  destruct Hp as [Hpos Hmax]. unfold slice_from. rewrite slice_Ok by lia. simpl.
  set (d := take _ _). pose proof (decode_safe (P:=U) d) as Hs.
  destruct (decode U d) as [[v n]|e|]; simpl in *.
  - case_bool_decide; simpl; [by split; [apply moved_refl; split|]|].
    unfold checked_add, isize_max in *. rewrite bool_decide_eq_true_2 by lia.
    split; [|done]. apply moved_step; [by split|lia].
  - split; [by apply moved_refl; split|done].
  - done.
Qed.

#[export] Hint Resolve pm_ret_safe pm_res_safe pm_bind_safe pop_pod_safe : total.

(** ** Safety of the compound methods *)

Lemma for_each_total {S A} (f : S → A → PodRes S) l s :
  (∀ s a, total (f s a)) → total (for_each f s l).
Proof.
  intros Hf. revert s. induction l as [|a l IH]; intros s; simpl; [done|].
  by apply total_bind.
Qed.

(** Split a goal about a committed straight-line computation. *)
Ltac commit_step :=
  match goal with
  | |- context [read_u32 ?d ?a] =>
      let v := fresh "w" in let Hv := fresh "Hw" in let Hr := fresh "Hr" in
      destruct (read_u32_ok (E:=PodError) d a) as (v & Hv & Hr); [lia..|];
      rewrite Hv; clear Hv; res_cbn
  | Hr : 0 ≤ ?s < 2 ^ 32 |- context [pod_total_size ?s] =>
      pose proof (pad_8_range s); rewrite (pod_total_size_u32 s Hr); res_cbn
  | |- context [slice _ _ _] => rewrite slice_Ok by lia; res_cbn
  | |- context [ok_or ?o _] => destruct o eqn:?; cbn [ok_or]; res_cbn
  | |- context [bool_decide ?P] => destruct (bool_decide_reflect P)
  end.

Ltac commit_err := by (split; [by apply moved_refl|done]).

(** The closure of [pop_struct] runs on a part of the data. *)
Lemma pop_struct_step {T} (m : PM T) p :
  parser_wf p →
  (∀ pre body rest, p_data p = pre ++ body ++ rest → total (m (Parser_new body)).2) →
  moved p (pop_struct m p).1 ∧ total (pop_struct m p).2.
Proof.
  intros Hp Hm. pose proof Hp as [Hpos Hmax]. unfold pop_struct.
  rewrite (available_wf p) by done. cbv zeta.
  repeat (commit_step; try commit_err).
  match goal with |- context [m (Parser_new (take ?n (drop ?k ?d)))] => set (body := take n (drop k d));
    assert (total (m (Parser_new body)).2) as Ht
      by (apply (Hm (take k d) body (drop n (drop k d))); subst body; by rewrite !take_drop) end.
  destruct (m (Parser_new body)) as [? [r|e|]]; simpl; [|commit_err|done].
  split; [|done]. apply moved_step; [done|lia].
Qed.

Lemma pop_struct_safe {T} (m : PM T) : pm_safe m → pm_safe (pop_struct m).
Proof.
  intros Hm p Hp. apply pop_struct_step; [done|]. intros pre body rest Hd.
  apply Hm, Parser_new_wf. destruct Hp as [_ Hmax]. rewrite Hd in Hmax. len_lia.
Qed.

Lemma pop_array_raw_safe {S} (f : S → PodType → list byte → PodRes S) s :
  (∀ s t b, total (f s t b)) → pm_safe (pop_array_raw f s).
Proof.
  intros Hf p Hp. pose proof Hp as [Hpos Hmax]. unfold pop_array_raw.
  rewrite (available_wf p) by done. cbv zeta.
  repeat (commit_step; try commit_err).
  match goal with |- context [for_each ?g s ?l] =>
    pose proof (for_each_total g l s (λ s b, Hf s _ b)); destruct (for_each g s l) as [?|?|] end;
    simpl; [|commit_err|done].
  split; [|done]. apply moved_step; [done|lia].
Qed.

Lemma pop_raw_pod_safe : pm_safe pop_raw_pod.
Proof.
  intros p Hp. pose proof Hp as [Hpos Hmax]. unfold pop_raw_pod, slice_from.
  rewrite slice_Ok by lia. simpl. set (d := take _ _).
  pose proof (RawPod_wrap_total d). destruct (RawPod_wrap d) as [r|e|] eqn:Hr; simpl;
    [|commit_err|done].
  apply RawPod_wrap_inv in Hr as (sz & t & _ & _ & ? & ? & Hl & _).
  pose proof (pad_8_range sz). subst d. rewrite len_take in Hl; [|rewrite len_drop; lia].
  split; [|done]. apply moved_step; [done|lia].
Qed.

Lemma pop_choice_raw_safe (f : PodType → Choice (list byte) → PodRes unit) :
  (∀ t c, total (f t c)) → pm_safe (pop_choice_raw f).
Proof.
  intros Hf p Hp. pose proof Hp as [Hpos Hmax]. unfold pop_choice_raw, slice_from.
  rewrite slice_Ok by lia. res_cbn. set (d := take _ _).
  assert (len d = len (p_data p) - p_pos p) as Hd.
  { subst d. rewrite len_take; [lia|]. rewrite len_drop; lia. }
  clearbody d. cbv zeta.
  repeat ((lazymatch goal with
    | |- context [build_choice] => first [
        match goal with |- context [read_u32] => commit_step end
      | match goal with |- context [pod_total_size] => commit_step end
      | match goal with |- context [bool_decide ?P] => destruct (bool_decide_reflect P) end
      | match goal with |- context [ok_or] => commit_step end ]
    end); try commit_err).
  { commit_step; commit_err. }
  match goal with |- context [build_choice ?g ?t ?n] =>
    assert (total (build_choice g t n)) as Htot; [|destruct (build_choice g t n) as [c|e|]] end.
  { apply build_choice_total; [apply Z.div_pos; lia|]. intros i Hi.
    match goal with H : ¬ ((?a - 16) mod ?b ≠ 0) |- _ => rename a into sz; rename b into cs end.
    assert (sz - 16 = cs * ((sz - 16) / cs)) by (apply Z_div_exact_full_2; lia).
    assert (cs * (i + 1) ≤ sz - 16) by nia. apply slice_total; nia. }
  - res_cbn. match goal with |- context [f ?t ?c] => pose proof (Hf t c); destruct (f t c) as [?|?|] end;
      simpl; [|commit_err|done]. split; [|done]. apply moved_step; [done|lia].
  - commit_err.
  - done.
Qed.

Section object.
Context {I : Type} `{U32Conv I}.

(** What [object_header] establishes before the body is handed over. *)
Lemma object_header_total p : parser_wf p → total (object_header (I:=I) p).
Proof.
  intros Hp. pose proof Hp as [Hpos Hmax]. unfold object_header.
  rewrite (available_wf p) by done. cbv zeta. by repeat (commit_step; try done).
Qed.

Lemma object_header_inv p size total_size ot (id : I) :
  parser_wf p → object_header p = Ok (size, total_size, ot, id) →
  8 ≤ size < 2 ^ 32 ∧ total_size = 8 + size + pad_8 size ∧
  p_pos p + total_size ≤ len (p_data p).
Proof.
  intros Hp. pose proof Hp as [Hpos Hmax]. unfold object_header.
  rewrite (available_wf p) by done. cbv zeta.
  repeat (commit_step; try done). intros [= <- <- <- <-]. lia.
Qed.

Lemma object_body_safe {T} p size total_size (m : OM T) :
  parser_wf p → om_safe m → 8 ≤ size → total_size = 8 + size + pad_8 size →
  p_pos p + total_size ≤ len (p_data p) →
  moved p (object_body p size total_size m).1 ∧ total (object_body p size total_size m).2.
Proof.
  intros Hp Hm Hs Htot Hl. pose proof Hp as [Hpos Hmax]. pose proof (pad_8_range size).
  unfold object_body. simpl. rewrite slice_Ok by lia. res_cbn. set (body := take _ _).
  destruct (Hm (ObjectParser_new body)) as [_ Ht].
  { apply ObjectParser_new_wf. subst body. rewrite len_take; [lia|]. rewrite len_drop; lia. }
  destruct (m (ObjectParser_new body)) as [? [r|e|]]; simpl in *; [| |done];
    (split; [|done]); unfold moved; simpl; (split; [done|lia]).
Qed.

Lemma pop_object_safe {T} K_TYPE (f : I → OM T) :
  (∀ id, om_safe (f id)) → pm_safe (pop_object K_TYPE f).
Proof.
  intros Hf p Hp. unfold pop_object. pose proof (object_header_total p Hp).
  destruct (object_header p) as [[[[size ts] ot] id]|e|] eqn:Hh; [|commit_err|done].
  apply object_header_inv in Hh as (? & ? & ?); [|done].
  case_bool_decide; [commit_err|]. apply object_body_safe; auto; lia.
Qed.

Lemma pop_object_raw_safe {T} (f : ObjectType → I → OM T) :
  (∀ t id, om_safe (f t id)) → pm_safe (pop_object_raw f).
Proof.
  intros Hf p Hp. unfold pop_object_raw. pose proof (object_header_total p Hp).
  destruct (object_header p) as [[[[size ts] ot] id]|e|] eqn:Hh; [|commit_err|done].
  apply object_header_inv in Hh as (? & ? & ?); [|done].
  apply object_body_safe; auto; lia.
Qed.
End object.

(** ** Object properties *)
Section property.
Context {K : Type} `{U32Conv K}.

Lemma pop_property_safe : om_safe (pop_property (K:=K)).
Proof.
  intros p Hp. pose proof Hp as [Hpos Hmax]. unfold pop_property.
  rewrite (o_available_wf p) by done. cbv zeta.
  repeat (commit_step; try by (split; [by apply omoved_refl|done])).
  unfold slice_from. rewrite slice_Ok by lia. res_cbn. set (d := take _ _).
  pose proof (RawPod_wrap_total d). destruct (RawPod_wrap d) as [r|e|] eqn:Hwr; [| |done].
  - apply RawPod_wrap_inv in Hwr as (sz & t & _ & _ & ? & ? & Hl & _).
    pose proof (pad_8_range sz). subst d. rewrite len_take in Hl; [|rewrite len_drop; lia].
    split; [|done]. split; simpl; [done|lia].
  - split; [|done]. split; simpl; [done|lia].
Qed.

(** Every property consumes its key, its flags and at least a pod header. *)
Lemma pop_property_progress p p' x :
  oparser_wf p → pop_property (K:=K) p = (p', Ok (Some x)) →
  o_data p' = o_data p ∧ o_pos p + 16 ≤ o_pos p' ≤ len (o_data p) ∧ raw_wf x.2.
Proof.
  intros Hp. pose proof Hp as [Hpos Hmax]. unfold pop_property.
  rewrite (o_available_wf p) by done. cbv zeta.
  repeat (commit_step; try done).
  unfold slice_from. rewrite slice_Ok by lia. res_cbn. set (d := take _ _).
  destruct (RawPod_wrap d) as [r|e|] eqn:Hwr; [|done..]. intros [= <- <-]. simpl.
  pose proof (raw_wrap_wf _ _ Hwr).
  apply RawPod_wrap_inv in Hwr as (sz & t & _ & _ & ? & ? & Hl & _).
  pose proof (pad_8_range sz). subst d. rewrite len_take in Hl; [|rewrite len_drop; lia].
  split_and!; [done|lia|lia|done].
Qed.

(** A [for] loop over the properties, cut off after [fuel] of them. *)
Fixpoint drain (fuel : nat) (p : ObjectParser) : list (K * Z * RawPod) :=
  match fuel with
  | O => []
  | S fuel =>
      match ObjectParser_next (K:=K) p with
      | (p', Some x) => x :: drain fuel p'
      | (_, None) => []
      end
  end.

Lemma next_progress p p' x :
  oparser_wf p → ObjectParser_next (K:=K) p = (p', Some x) →
  oparser_wf p' ∧ o_data p' = o_data p ∧ o_pos p + 16 ≤ o_pos p' ∧ raw_wf x.2.
Proof.
  intros Hp. unfold ObjectParser_next.
  destruct (pop_property p) as [q [[y|]|e|]] eqn:Hq; intros [= -> ->].
  apply pop_property_progress in Hq as (Hd & Hpos & Hr); [|done].
  destruct Hp. unfold oparser_wf. rewrite Hd. split_and!; [lia..|done|lia|done].
Qed.

(** With fuel for one item per 16 bytes the loop has run to its end. *)
Lemma drain_enough p n m :
  oparser_wf p → (len (o_data p) - o_pos p) / 16 ≤ Z.of_nat n → (n ≤ m)%nat →
  drain m p = drain n p.
Proof.
  revert p m. induction n as [|n IH]; intros p m Hp Hn Hm.
  - destruct m as [|m]; [done|]. simpl.
    destruct (ObjectParser_next p) as [p' [x|]] eqn:Hx; [|done].
    apply next_progress in Hx as ([? _] & Hd & ? & _); [|done]. exfalso.
    rewrite Hd in *. revert Hn. apply Z.lt_nge.
    apply Z.lt_le_trans with 1; [done|]. apply Z.div_le_lower_bound; lia.
  - destruct m as [|m]; [lia|]. simpl.
    destruct (ObjectParser_next p) as [p' [x|]] eqn:Hx; [|done]. f_equal.
    apply next_progress in Hx as (? & Hd & ? & _); [|done]. apply IH; [done| |lia].
    rewrite Hd. trans ((len (o_data p) - (o_pos p + 16)) / 16); [apply Z.div_le_mono; lia|].
    replace (len (o_data p) - (o_pos p + 16)) with (len (o_data p) - o_pos p + (-1) * 16) by lia.
    rewrite Z.div_add by lia. lia.
Qed.
End property.

(** ** Exact consumption *)
Definition parses {A} (m : PM A) (bs : list byte) (a : A) : Prop :=
  ∀ pre rest, len (pre ++ bs ++ rest) ≤ isize_max →
    m (mkParser (pre ++ bs ++ rest) (len pre))
    = (mkParser (pre ++ bs ++ rest) (len pre + len bs), Ok a).

Lemma parses_ret {A} (a : A) : parses (mret a) [] a.
Proof. intros pre rest _. unfold mret, pm_ret. by rewrite len_nil, Z.add_0_r. Qed.

Lemma parses_res {A} (r : PodRes A) a : r = Ok a → parses (pm_res r) [] a.
Proof. intros -> pre rest _. unfold pm_res. by rewrite len_nil, Z.add_0_r. Qed.

Lemma parses_bind {A B} (m : PM A) (f : A → PM B) bs cs a b :
  parses m bs a → parses (f a) cs b → parses (m ≫= f) (bs ++ cs) b.
Proof.
  intros Hm Hf pre rest Hl. unfold mbind, pm_bind.
  rewrite <- (app_assoc bs cs rest) in *. rewrite Hm by done.
  rewrite (app_assoc pre bs (cs ++ rest)) in *. rewrite <- len_app, Hf by done.
  f_equal. f_equal. len_lia.
Qed.

Lemma parses_eq {A} (m : PM A) bs bs' a : parses m bs a → bs = bs' → parses m bs' a.
Proof. by intros ? ->. Qed.

(** A method that parses a prefix of a whole payload. *)
Lemma parses_run {A} (m : PM A) bs rest a :
  parses m bs a → len (bs ++ rest) ≤ isize_max →
  m (Parser_new (bs ++ rest)) = (mkParser (bs ++ rest) (len bs), Ok a).
Proof. intros Hm Hl. apply (Hm [] rest Hl). Qed.

Lemma parses_run_all {A} (m : PM A) bs a :
  parses m bs a → len bs ≤ isize_max →
  m (Parser_new bs) = (mkParser bs (len bs), Ok a).
Proof. intros Hm Hl. rewrite <- (app_nil_r bs) in Hl at 1. rewrite <- (app_nil_r bs) at 1 2.
  by apply parses_run. Qed.

Lemma slice_from_app {E A} (x y : list A) : slice_from (E:=E) (x ++ y) (len x) = Ok y.
Proof.
  unfold slice_from. rewrite slice_skip by lia. apply slice_all; [lia|len_lia].
Qed.

Lemma available_at pre bs : available (mkParser (pre ++ bs) (len pre)) = len bs.
Proof. unfold available, saturating_sub. simpl. rewrite len_app. len_facts. lia. Qed.

Lemma parses_decode {T} (U : Pod T) bs v :
  (∀ rest, len (bs ++ rest) ≤ isize_max → decode U (bs ++ rest) = Ok (v, len bs)) →
  parses (pop_pod U) bs v.
Proof.
  intros Hd pre rest Hl. unfold pop_pod. rewrite available_at. simpl.
  rewrite slice_from_app. res_cbn. rewrite Hd by len_lia. res_cbn.
  rewrite bool_decide_eq_false_2 by len_lia.
  unfold checked_add, isize_max in *. rewrite bool_decide_eq_true_2 by len_lia. done.
Qed.

Lemma parses_pop {T} (U : Pod T) `{!PodExact U} v :
  exact_ok U v → parses (pop_pod U) (wire U v) v.
Proof. intros Hv. apply parses_decode. intros rest _. by apply exact_decode. Qed.

Lemma parses_raw_pod r : raw_wf r → parses pop_raw_pod (raw_data r) r.
Proof.
  intros Hr pre rest Hl. unfold pop_raw_pod. simpl. rewrite slice_from_app. res_cbn.
  rewrite raw_wrap_app by done. res_cbn. unfold commit, with_pos. simpl.
  by rewrite raw_wf_size.
Qed.

Lemma parses_struct {T} (m : PM T) body a :
  len body < 2 ^ 32 → (m (Parser_new body)).2 = Ok a →
  parses (pop_struct m) (struct_wire body) (a, len (struct_wire body)).
Proof.
  intros Hb Hm pre rest Hl. pose proof (pad_8_range (len body)).
  pose proof (len_nonneg body). pose proof (len_nonneg rest).
  assert (u32_range (into_u32 TStruct)) by apply PodType_range.
  unfold pop_struct. rewrite available_at. simpl p_data. simpl p_pos. cbv zeta.
  unfold struct_wire. rewrite (len_app (sized_wire _ _)). rewrite sized_wire_len.
  rewrite bool_decide_eq_false_2 by lia. unfold sized_wire. rewrite <- !app_assoc.
  repeat decode_step. rewrite Hm. res_cbn. done.
Qed.

(** An object body is a sequence of properties. *)
Definition property_wire {K} `{U32Conv K} (x : K * Z * RawPod) : list byte :=
  u32_bytes (into_u32 x.1.1) ++ u32_bytes x.1.2 ++ raw_data x.2.

Section object_parses.
Context {K : Type} `{U32ConvLaws K}.

Definition prop_ok (x : K * Z * RawPod) : Prop :=
  u32_ok x.1.1 ∧ 0 ≤ x.1.2 < 16 ∧ raw_wf x.2.

Lemma pop_property_wire x pre rest :
  prop_ok x → len (pre ++ property_wire x ++ rest) ≤ isize_max →
  pop_property (mkObjectParser (pre ++ property_wire x ++ rest) (len pre))
  = (mkObjectParser (pre ++ property_wire x ++ rest) (len pre + len (property_wire x)),
     Ok (Some x)).
Proof.
  destruct x as [[k f] r]. intros (Hk & Hf & Hr) Hl. simpl in *.
  pose proof (into_u32_range k Hk). pose proof (wire_min (P:=pod_raw) r Hr) as Hmin.
  simpl in Hmin. pose proof (len_nonneg rest). pose proof (len_nonneg pre).
  unfold pop_property, o_available, saturating_sub. cbn [o_data o_pos]. cbv zeta.
  unfold property_wire in *. cbn [fst snd] in *. rewrite <- !app_assoc in *.
  rewrite !bool_decide_eq_false_2 by len_lia.
  repeat slice_step. rewrite !wrap_small by (unfold u32_range in *; lia).
  rewrite try_from_into by done. cbn [ok_or]. res_cbn.
  rewrite from_bits_range by done. cbn [ok_or]. res_cbn.
  replace (slice_from (pre ++ _) (len pre + 8))
    with (slice_from (E:=PodError) (((pre ++ u32_bytes (into_u32 k)) ++ u32_bytes f) ++ raw_data r ++ rest)
       (len ((pre ++ u32_bytes (into_u32 k)) ++ u32_bytes f)))
    by (rewrite <- !app_assoc; f_equal; len_lia).
  rewrite slice_from_app. res_cbn. rewrite raw_wrap_app by done.
  f_equal. f_equal. rewrite <- (raw_wf_size r) by done. len_lia.
Qed.

(** Iterating over an encoded object yields its properties, all and in order. *)
Lemma drain_wire xs pre n :
  Forall prop_ok xs → len (pre ++ concat (property_wire <$> xs)) ≤ isize_max →
  (length xs < n)%nat →
  drain n (mkObjectParser (pre ++ concat (property_wire <$> xs)) (len pre)) = xs.
Proof.
  intros Hxs. revert pre n. induction Hxs as [|x xs Hx Hxs IH]; intros pre n Hl Hn.
  - destruct n as [|n]; [simpl in Hn; lia|]. simpl. rewrite app_nil_r.
    unfold ObjectParser_next, pop_property, o_available, saturating_sub. simpl.
    by rewrite bool_decide_eq_true_2 by lia.
  - destruct n as [|n]; [simpl in Hn; lia|]. rewrite fmap_cons in *. simpl concat in *. simpl drain.
    unfold ObjectParser_next. rewrite pop_property_wire by done. f_equal.
    rewrite app_assoc in *. rewrite <- len_app. apply IH; [done|]. simpl in Hn. lia.
Qed.

Lemma drain_object xs n :
  Forall prop_ok xs → len (concat (property_wire <$> xs)) ≤ isize_max → (length xs < n)%nat →
  drain n (ObjectParser_new (concat (property_wire <$> xs))) = xs.
Proof. intros. by apply (drain_wire xs []). Qed.
End object_parses.

(** An encoded object, anywhere in the data. *)
Section object_at.
Context {J : Type} `{U32ConvLaws J}.

Lemma object_header_wire ot (id : J) body pre rest :
  u32_ok id → 8 + len body < 2 ^ 32 →
  object_header (I:=J) (mkParser (pre ++ object_wire ot id body ++ rest) (len pre))
    = Ok (8 + len body, 16 + len body + pad_8 (8 + len body), ot, id).
Proof.
  intros Hid Hb. pose proof (pad_8_range (8 + len body)).
  pose proof (len_nonneg body). pose proof (len_nonneg rest). pose proof (len_nonneg pre).
  assert (u32_range (into_u32 TObject)) by apply PodType_range.
  pose proof (into_u32_range id Hid). pose proof (into_u32_range ot I).
  unfold object_header. rewrite available_at. simpl p_data. simpl p_pos. cbv zeta.
  rewrite len_app, object_wire_len. rewrite bool_decide_eq_false_2 by lia.
  unfold object_wire. rewrite <- !app_assoc. repeat decode_step.
  rewrite (try_from_into ot) by exact I. cbn [ok_or]. repeat decode_step.
  rewrite try_from_into by done. cbn [ok_or]. res_cbn. do 4 f_equal. lia.
Qed.

Lemma object_body_wire {T} ot (id : J) (m : OM T) body pre rest a :
  (m (ObjectParser_new body)).2 = Ok a →
  object_body (mkParser (pre ++ object_wire ot id body ++ rest) (len pre)) (8 + len body)
    (16 + len body + pad_8 (8 + len body)) m
  = (mkParser (pre ++ object_wire ot id body ++ rest) (len pre + len (object_wire ot id body)),
     Ok (a, len (object_wire ot id body))).
Proof.
  intros Hm. pose proof (pad_8_range (8 + len body)). pose proof (len_nonneg body).
  unfold object_body. cbn [p_pos p_data with_pos].
  rewrite object_wire_len. unfold object_wire. rewrite <- !app_assoc. repeat slice_step.
  rewrite Hm. res_cbn. unfold commit, with_pos. simpl. f_equal. f_equal. lia.
Qed.

Lemma parses_object_raw {T} ot (id : J) (f : ObjectType → J → OM T) body a :
  u32_ok id → 8 + len body < 2 ^ 32 → (f ot id (ObjectParser_new body)).2 = Ok a →
  parses (pop_object_raw f) (object_wire ot id body) (a, len (object_wire ot id body)).
Proof.
  intros Hid Hb Hm pre rest Hl. unfold pop_object_raw. rewrite object_header_wire by done. by apply object_body_wire.
Qed.

Lemma parses_object {T} ot (id : J) (f : J → OM T) body a :
  u32_ok id → 8 + len body < 2 ^ 32 → (f id (ObjectParser_new body)).2 = Ok a →
  parses (pop_object ot f) (object_wire ot id body) (a, len (object_wire ot id body)).
Proof.
  intros Hid Hb Hm pre rest Hl. unfold pop_object. rewrite object_header_wire by done.
  rewrite bool_decide_eq_false_2 by auto. by apply object_body_wire.
Qed.
End object_at.
