(* ===== verification/PodBuilder.v ===== *)
(** * The POD builder

    Models [spa/src/pod/builder.rs]. A builder owns the rest of its borrowed
    buffer, a position and a sticky error. Every method consumes the builder
    and returns it, so an operation is a function on builders; since errors
    are kept inside the builder the only other outcome is a panic. *)

From S2P Require Import Prelude Utf8 PodTypes PodCodec PodLaws PodCompound.

Record Builder := mkBuilder {
  b_data : list byte;
  b_pos : Z;
  b_error : option PodError;
}.

Definition BuilderOp : Type := Builder → Res Empty_set Builder.

Definition Builder_new (data : list byte) : Builder := mkBuilder data 0 None.

Definition build (b : Builder) : PodRes (list byte) :=
  match b_error b with
  | Some e => Err e
  | None => slice (b_data b) 0 (b_pos b)
  end.

Definition push_pod {T} (U : Pod T) (value : T) : BuilderOp := λ b,
  match b_error b with
  | Some _ => Ok b
  | None =>
      match within (b_pos b) (encode U value) (b_data b) with
      | (data, Ok size) => Ok (mkBuilder data (b_pos b + size) None)
      | (data, Err e) => Ok (mkBuilder data (b_pos b) (Some e))
      | (_, Panic) => Panic
      end
  end.

Definition push_none : BuilderOp := push_pod pod_none tt.
Definition push_bool (value : bool) : BuilderOp := push_pod pod_bool value.
Definition push_id {T} `{U32Conv T} (value : Id T) : BuilderOp := push_pod (pod_id T) value.
Definition push_int (value : Z) : BuilderOp := push_pod pod_i32 value.
Definition push_long (value : Z) : BuilderOp := push_pod pod_i64 value.
Definition push_float (value : Z) : BuilderOp := push_pod pod_f32 value.
Definition push_double (value : Z) : BuilderOp := push_pod pod_f64 value.
Definition push_fd (value : Z) : BuilderOp := push_pod pod_fd (mkFd value).
Definition push_rectangle (w h : Z) : BuilderOp := push_pod pod_rectangle (mkRectangle w h).
Definition push_fraction (n d : Z) : BuilderOp := push_pod pod_fraction (mkFraction n d).
Definition push_string (value : list byte) : BuilderOp := push_pod pod_str value.
Definition push_bytes (value : list byte) : BuilderOp := push_pod pod_bytes value.
Definition push_pointer (typ : PodType) (value : Z) : BuilderOp :=
  push_pod pod_pointer (mkPointer typ value).
Definition push_array {T} (P : Primitive T) (values : list T) : BuilderOp :=
  push_pod (pod_array P) values.
Definition push_choice {T} (P : Primitive T) (value : Choice T) : BuilderOp :=
  push_pod (pod_choice P) value.

(** Fill in a header once the members are known:
    [ret.data[a..a + 4].copy_from_slice(..)] for each word. *)
Definition put_header (b : Builder) (m : W Empty_set unit) : Res Empty_set Builder :=
  match m (b_data b) with
  | (data, Ok _) => Ok (mkBuilder data (b_pos b) (b_error b))
  | (_, Err e) => Err e
  | (_, Panic) => Panic
  end.

(** A [StructBuilder] is a wrapper around its one field, the builder, and
    each of its methods is the builder's; so the closure is an operation. *)
Definition push_struct (build_struct : BuilderOp) : BuilderOp := λ b,
  match b_error b with
  | Some _ => Ok b
  | None =>
      if bool_decide (len (b_data b) < 8)
      then Ok (mkBuilder (b_data b) (b_pos b) (Some NoSpace)) else
      let old_pos := b_pos b in
      ret ← build_struct (mkBuilder (b_data b) (old_pos + 8) None);
      match b_error ret with
      | Some _ => Ok ret
      | None =>
          size ← usize_sub (b_pos ret) (old_pos + 8);
          put_header ret (
            put_at old_pos (u32_bytes (wrap 32 size)) ;;
            put_at (old_pos + 4) (u32_bytes (into_u32 TStruct)))
      end
  end.

(** [ObjectBuilder] wraps the builder in the same way. *)
Definition push_property {K V} `{U32Conv K} (U : Pod V) (k : K) (flags : Z) (v : V) : BuilderOp :=
  push_pod (pod_property U) (mkProperty k flags v).

Definition push_object {I} `{U32Conv I} (type_ : ObjectType) (id : I)
    (build_object : BuilderOp) : BuilderOp := λ b,
  match b_error b with
  | Some _ => Ok b
  | None =>
      if bool_decide (len (b_data b) < 16)
      then Ok (mkBuilder (b_data b) (b_pos b) (Some NoSpace)) else
      let old_pos := b_pos b in
      ret ← build_object (mkBuilder (b_data b) (old_pos + 16) None);
      match b_error ret with
      | Some _ => Ok ret
      | None =>
          size ← usize_sub (b_pos ret) (old_pos + 8);
          put_header ret (
            put_at old_pos (u32_bytes (wrap 32 size)) ;;
            put_at (old_pos + 4) (u32_bytes (into_u32 TObject)) ;;
            put_at (old_pos + 8) (u32_bytes (into_u32 type_)) ;;
            put_at (old_pos + 12) (u32_bytes (into_u32 id)))
      end
  end.

(** Calls are chained: [b.push_int(1).push_int(2)]. *)
Definition op_id : BuilderOp := λ b, Ok b.
Definition op_seq (f g : BuilderOp) : BuilderOp := λ b, b' ← f b; g b'.
Declare Scope builder_scope.
Delimit Scope builder_scope with builder.
Notation "f ▷ g" := (op_seq f g) (at level 62, right associativity) : builder_scope.
#[global] Open Scope builder_scope.

(** [Builder::new(data)], a chain of calls, then [build()]. *)
Definition build_with (op : BuilderOp) (data : list byte) : PodRes (list byte) :=
  match op (Builder_new data) with
  | Ok b => build b
  | Err e => match e with end
  | Panic => Panic
  end.

(** ** What an operation does

    [op_spec op bs crash]: with room for [bs] the operation appends exactly
    [bs] and leaves the bytes behind it alone; with less room it either
    records [NoSpace] or panics, and [crash r] tells which for [r] bytes of
    room. The buffer itself is assumed to hold an object header, below which
    the struct and object guards take effect. *)
Record op_spec (op : BuilderOp) (bs : list byte) (crash : Z → Prop) : Prop := {
  op_sticky b e : b_error b = Some e → op b = Ok b;
  op_fits pre rest :
    len bs ≤ len rest → 16 ≤ len (pre ++ rest) →
    op (mkBuilder (pre ++ rest) (len pre) None)
    = Ok (mkBuilder (pre ++ bs ++ drop (length bs) rest) (len (pre ++ bs)) None);
  op_short pre rest :
    len rest < len bs → ¬ crash (len rest) → 16 ≤ len (pre ++ rest) →
    ∃ d pos, op (mkBuilder (pre ++ rest) (len pre) None) = Ok (mkBuilder d pos (Some NoSpace));
  op_crash pre rest :
    crash (len rest) → 16 ≤ len (pre ++ rest) →
    op (mkBuilder (pre ++ rest) (len pre) None) = Panic;
  op_beyond data pos :
    len data < pos → 16 ≤ len data →
    op (mkBuilder data pos None) = Panic ∨
    op (mkBuilder data pos None) = Ok (mkBuilder data pos None);
  crash_short r : crash r → r < len bs;
}.

Definition no_crash : Z → Prop := λ _, False.

Lemma op_spec_id : op_spec op_id [] no_crash.
Proof.
  split; try done.
  - intros pre rest _ _. by rewrite app_nil_r.
  - intros pre rest ?. len_lia.
  - by right.
Qed.

Lemma op_spec_ext op bs bs' c c' :
  op_spec op bs c → bs = bs' → (∀ r, 0 ≤ r → (c r ↔ c' r)) → op_spec op bs' c'.
Proof.
  intros [H1 H2 H3 H4 H5 H6] <- Hc. split; try done.
  - intros pre rest ? Hn. apply H3; [done|]. by rewrite (Hc _ (len_nonneg rest)).
  - intros pre rest ?%(Hc _ (len_nonneg rest)). by apply H4.
  - intros r Hr. destruct (decide (0 ≤ r)) as [H0|H0]; [by apply H6, Hc|].
    pose proof (len_nonneg bs). lia.
Qed.

Lemma app_drop_drop (bs cs rest : list byte) :
  (length bs ≤ length rest)%nat →
  drop (length (bs ++ cs)) rest = drop (length cs) (drop (length bs) rest).
Proof. intros. by rewrite drop_drop, length_app. Qed.

Definition crash_seq (n : Z) (c d : Z → Prop) : Z → Prop := λ r, c r ∨ (n ≤ r ∧ d (r - n)).

Lemma op_spec_seq f g bs cs c d :
  op_spec f bs c → op_spec g cs d →
  op_spec (f ▷ g) (bs ++ cs) (crash_seq (len bs) c d).
Proof.
  intros Hf Hg.
  assert (∀ rest : list byte, len bs ≤ len rest → len (drop (length bs) rest) = len rest - len bs) as Hd.
  { intros rest ?. unfold len in *. rewrite length_drop. lia. }
  split.
  - intros b e He. unfold op_seq. rewrite (op_sticky _ _ _ Hf b e He). simpl.
    by apply (op_sticky _ _ _ Hg b e).
  - intros pre rest Hl H16. unfold op_seq. rewrite (op_fits _ _ _ Hf) by len_lia. simpl.
    rewrite (app_assoc pre bs). pose proof (Hd rest).
    rewrite (op_fits _ _ _ Hg) by len_lia.
    by rewrite <- !app_assoc, length_app, drop_drop.
  - intros pre rest Hl Hc H16. unfold op_seq, crash_seq in *. pose proof (Hd rest).
    destruct (decide (len bs ≤ len rest)) as [Hb|Hb].
    + rewrite (op_fits _ _ _ Hf) by done. simpl. rewrite (app_assoc pre bs).
      apply (op_short _ _ _ Hg); [len_lia| |len_lia].
      intros Hx. apply Hc. right. rewrite Hd in Hx by done. done.
    + destruct (op_short _ _ _ Hf pre rest) as (dd & pos & ->); [lia|tauto|done|]. simpl.
      rewrite (op_sticky _ _ _ Hg _ NoSpace) by done. eauto.
  - intros pre rest [Hc|[Hb Hc]] H16; unfold op_seq.
    + by rewrite (op_crash _ _ _ Hf) by done.
    + rewrite (op_fits _ _ _ Hf) by done. simpl. rewrite (app_assoc pre bs).
      pose proof (Hd rest Hb) as Hd'. apply (op_crash _ _ _ Hg); [by rewrite Hd'|len_lia].
  - intros data pos Hl H16. unfold op_seq.
    destruct (op_beyond _ _ _ Hf data pos) as [->| ->]; [done..|by left|]. simpl.
    by apply (op_beyond _ _ _ Hg).
  - intros r [Hc|[Hb Hc]]; [apply (crash_short _ _ _ Hf) in Hc|apply (crash_short _ _ _ Hg) in Hc];
      rewrite len_app; len_facts; lia.
Qed.

Lemma op_spec_pod {T} (U : Pod T) `{!PodExact U} v :
  exact_ok U v → op_spec (push_pod U v) (wire U v) no_crash.
Proof.
  intros Hv. split; try done.
  - intros b e He. unfold push_pod. by rewrite He.
  - intros pre rest Hl _. unfold push_pod. cbn [b_error b_pos b_data].
    rewrite within_app by done. rewrite exact_encode by done. simpl. by rewrite len_app.
  - intros pre rest Hl _ _. unfold push_pod. cbn [b_error b_pos b_data].
    rewrite within_app by done.
    destruct (exact_nospace (P:=U) v rest Hv Hl) as (d & -> & _). simpl. eauto.
  - intros data pos Hl _. left. unfold push_pod. cbn [b_error b_pos b_data].
    by rewrite within_beyond.
Qed.

(** ** Structs and objects

    Both leave room for a header of [n] bytes, run the closure behind it and
    fill the header in afterwards. *)
Section compound.
Context (n : Z) (header : Z → Z → W Empty_set unit).

Definition push_compound (body : BuilderOp) : BuilderOp := λ b,
  match b_error b with
  | Some _ => Ok b
  | None =>
      if bool_decide (len (b_data b) < n)
      then Ok (mkBuilder (b_data b) (b_pos b) (Some NoSpace)) else
      let old_pos := b_pos b in
      ret ← body (mkBuilder (b_data b) (old_pos + n) None);
      match b_error ret with
      | Some _ => Ok ret
      | None =>
          size ← usize_sub (b_pos ret) (old_pos + 8);
          put_header ret (header old_pos size)
      end
  end.

Context (Hn : 8 ≤ n ≤ 16).

(** Without a crash: if the closure appends [bs] then the whole call
    appends the header and [bs]. *)
Lemma push_compound_run (body : BuilderOp) bs hdr pre hole tail tail' :
  len hdr = n → len hole = n →
  writes pre (header (len pre) (n - 8 + len bs)) hdr tt →
  body (mkBuilder ((pre ++ hole) ++ tail) (len (pre ++ hole)) None)
  = Ok (mkBuilder ((pre ++ hole) ++ bs ++ tail') (len ((pre ++ hole) ++ bs)) None) →
  push_compound body (mkBuilder (pre ++ hole ++ tail) (len pre) None)
  = Ok (mkBuilder (pre ++ (hdr ++ bs) ++ tail') (len (pre ++ hdr ++ bs)) None).
Proof.
  intros Hhdr Hh Hw Hb. unfold push_compound. cbn [b_error b_data b_pos].
  rewrite bool_decide_eq_false_2 by len_lia. cbv zeta.
  rewrite <- Hh at 1. rewrite <- len_app, (app_assoc pre hole tail), Hb. res_cbn.
  cbn [b_error b_pos]. unfold usize_sub. rewrite bool_decide_eq_true_2 by len_lia. res_cbn.
  replace (len ((pre ++ hole) ++ bs) - (len pre + 8)) with (n - 8 + len bs) by len_lia.
  unfold put_header. cbn [b_data b_pos b_error].
  specialize (Hw (pre ++ hole ++ bs ++ tail')). rewrite drop_app_length, app_assoc in Hw.
  rewrite Hw by len_lia. do 2 f_equal; [|len_lia].
  rewrite <- !app_assoc. do 2 f_equal. rewrite length_app, <- drop_drop, drop_app_length.
  replace (length hdr) with (length hole) by (unfold len in *; lia). by rewrite drop_app_length.
Qed.

Lemma split_room (rest : list byte) :
  n ≤ len rest →
  ∃ hole tail, rest = hole ++ tail ∧ len hole = n ∧ len tail = len rest - n.
Proof.
  intros Hr. exists (take (Z.to_nat n) rest), (drop (Z.to_nat n) rest).
  rewrite take_drop, len_take, len_drop by lia. done.
Qed.

Lemma drop_hole (hdr bs hole tail : list byte) :
  len hdr = n → len hole = n →
  drop (length (hdr ++ bs)) (hole ++ tail) = drop (length bs) tail.
Proof.
  intros. rewrite length_app, <- drop_drop. f_equal.
  replace (length hdr) with (length hole) by (unfold len in *; lia). apply drop_app_length.
Qed.

Context (bs hdr : list byte) (body : BuilderOp) (c : Z → Prop).
Context (Hhdr : len hdr = n) (Hbody : op_spec body bs c).
Context (Hwrites : ∀ pre, writes pre (header (len pre) (n - 8 + len bs)) hdr tt).
Context (Hbeyond : ∀ old size data, len data < old + n → (header old size data).2 = Panic).

Lemma put_header_beyond b old size :
  len (b_data b) < old + n → put_header b (header old size) = Panic.
Proof.
  intros Hl. unfold put_header. pose proof (Hbeyond old size _ Hl) as Hp.
  destruct (header old size (b_data b)) as [d r]. simpl in Hp. by subst.
Qed.

(** Without room for the header the closure starts past the end. *)
Lemma push_compound_beyond data pos :
  len data < pos + n → 16 ≤ len data → push_compound body (mkBuilder data pos None) = Panic.
Proof.
  intros Hl H16. unfold push_compound. cbn [b_error b_data b_pos].
  rewrite bool_decide_eq_false_2 by lia. cbv zeta.
  destruct (op_beyond _ _ _ Hbody data (pos + n)) as [->| ->]; [done..|]. res_cbn.
  cbn [b_error b_pos]. unfold usize_sub. rewrite bool_decide_eq_true_2 by lia. res_cbn.
  by apply put_header_beyond.
Qed.

Lemma op_spec_compound :
  op_spec (push_compound body) (hdr ++ bs) (λ r, r < n ∨ c (r - n)).
Proof.
  split.
  - intros b e He. unfold push_compound. by rewrite He.
  - intros pre rest Hl H16.
    destruct (split_room rest) as (hole & tail & -> & Hh & Ht); [len_lia|].
    rewrite drop_hole by done. apply push_compound_run; [done..|].
    apply (op_fits _ _ _ Hbody); len_lia.
  - intros pre rest Hl Hc H16.
    destruct (split_room rest) as (hole & tail & -> & Hh & Ht); [lia|].
    unfold push_compound. cbn [b_error b_data b_pos].
    rewrite bool_decide_eq_false_2 by len_lia. cbv zeta.
    rewrite <- Hh, <- len_app, (app_assoc pre hole tail).
    destruct (op_short _ _ _ Hbody (pre ++ hole) tail) as (d & pos & ->);
      [len_lia|rewrite Ht; tauto|len_lia|]. simpl. eauto.
  - intros pre rest Hc H16. destruct (decide (len rest < n)) as [Hr|Hr].
    { apply push_compound_beyond; [len_lia|done]. }
    destruct (split_room rest) as (hole & tail & -> & Hh & Ht); [lia|].
    unfold push_compound. cbn [b_error b_data b_pos].
    rewrite bool_decide_eq_false_2 by len_lia. cbv zeta.
    rewrite <- Hh, <- len_app, (app_assoc pre hole tail).
    rewrite (op_crash _ _ _ Hbody); [done|rewrite Ht; destruct Hc; [lia|done]|len_lia].
  - intros data pos Hl H16. left. apply push_compound_beyond; lia.
  - intros r [Hr|Hr]; rewrite len_app; len_facts; [lia|].
    apply (crash_short _ _ _ Hbody) in Hr. lia.
Qed.
End compound.

Lemma pad_8_of_aligned s : s mod 8 = 0 → pad_8 s = 0.
Proof. intros H. unfold pad_8. by rewrite H. Qed.

Lemma struct_wire_aligned bs :
  len bs mod 8 = 0 →
  struct_wire bs = (u32_bytes (len bs) ++ u32_bytes (into_u32 TStruct)) ++ bs.
Proof.
  intros. unfold struct_wire, sized_wire. rewrite pad_8_of_aligned by done.
  change (zeros 0) with (@nil byte). by rewrite app_nil_r, <- app_assoc.
Qed.

Definition struct_header (old size : Z) : W Empty_set unit :=
  put_at old (u32_bytes (wrap 32 size)) ;; put_at (old + 4) (u32_bytes (into_u32 TStruct)).

Lemma struct_header_writes pre (bs : list byte) :
  writes pre (struct_header (len pre) (8 - 8 + len bs))
    (u32_bytes (len bs) ++ u32_bytes (into_u32 TStruct)) tt.
Proof.
  unfold struct_header. rewrite u32_bytes_wrap. repeat writes_step.
Qed.

Lemma push_struct_run (body : BuilderOp) bs pre hole tail tail' :
  len hole = 8 → len bs mod 8 = 0 →
  body (mkBuilder ((pre ++ hole) ++ tail) (len (pre ++ hole)) None)
  = Ok (mkBuilder ((pre ++ hole) ++ bs ++ tail') (len ((pre ++ hole) ++ bs)) None) →
  push_struct body (mkBuilder (pre ++ hole ++ tail) (len pre) None)
  = Ok (mkBuilder (pre ++ struct_wire bs ++ tail') (len (pre ++ struct_wire bs)) None).
Proof.
  intros Hh Ha Hb. rewrite struct_wire_aligned by done.
  apply (push_compound_run 8 struct_header); [lia|done|done|apply struct_header_writes|done].
Qed.

Lemma op_spec_struct body bs c :
  op_spec body bs c → len bs mod 8 = 0 →
  op_spec (push_struct body) (struct_wire bs) (λ r, r < 8 ∨ c (r - 8)).
Proof.
  intros Hb Ha. rewrite struct_wire_aligned by done.
  apply (op_spec_compound 8 struct_header); [lia|done|done| |].
  - intros pre. apply struct_header_writes.
  - intros old size data Hd. unfold struct_header, mbind, w_bind.
    pose proof (put_at_len (E:=Empty_set) old (u32_bytes (wrap 32 size)) data) as Hp.
    destruct (put_at old _ data) as [d [[]|[]|]]; simpl in *; [|done].
    by rewrite put_at_beyond by len_lia.
Qed.

Lemma put_at_seq_beyond (m : W Empty_set unit) a bs data :
  len (m data).1 = len data → len data < a + len bs →
  ((m ;; put_at a bs) data).2 = Panic.
Proof.
  intros Hm Hl. unfold mbind, w_bind. destruct (m data) as [d [[]|[]|]]; simpl in *; [|done].
  by rewrite put_at_beyond by lia.
Qed.

Lemma op_spec_object {J} `{U32ConvLaws J} ot (id : J) body bs c :
  op_spec body bs c → len bs mod 8 = 0 → 8 + len bs < 2 ^ 32 → u32_ok id →
  op_spec (push_object ot id body) (object_wire ot id bs) (λ r, r < 16 ∨ c (r - 16)).
Proof.
  intros Hb Ha Hl Hid. pose proof (len_nonneg bs).
  set (hdr := u32_bytes (8 + len bs) ++ u32_bytes (into_u32 TObject) ++
    u32_bytes (into_u32 ot) ++ u32_bytes (into_u32 id)).
  assert (object_wire ot id bs = hdr ++ bs) as ->.
  { unfold object_wire, hdr. rewrite pad_8_of_aligned.
    2: { replace (8 + len bs) with (len bs + 1 * 8) by lia. by rewrite Z.mod_add by lia. }
    change (zeros 0) with (@nil byte). by rewrite app_nil_r, <- !app_assoc. }
  apply (op_spec_compound 16 (λ old size, put_at old (u32_bytes (wrap 32 size)) ;;
    put_at (old + 4) (u32_bytes (into_u32 TObject)) ;;
    put_at (old + 8) (u32_bytes (into_u32 ot)) ;;
    put_at (old + 12) (u32_bytes (into_u32 id)))); [lia|unfold hdr; len_lia|done| |].
  - intros pre. unfold hdr. rewrite wrap_small by lia. repeat writes_step.
  - intros old size data Hd. unfold mbind at 1, w_bind at 1.
    pose proof (put_at_len (E:=Empty_set) old (u32_bytes (wrap 32 size)) data) as Hp.
    destruct (put_at old _ data) as [d [[]|[]|]]; simpl in *; [|done].
    unfold mbind at 1, w_bind at 1.
    pose proof (put_at_len (E:=Empty_set) (old + 4) (u32_bytes (into_u32 TObject)) d) as Hp2.
    destruct (put_at (old + 4) _ d) as [d2 [[]|[]|]]; simpl in *; [|done].
    apply put_at_seq_beyond; [apply put_at_len|len_lia].
Qed.

(** ** Building into a fresh buffer *)
Section build_with.
Context (op : BuilderOp) (bs : list byte) (c : Z → Prop) (data : list byte).
Context (Hop : op_spec op bs c) (H16 : 16 ≤ len data).

Lemma build_fits : len bs ≤ len data → build_with op data = Ok bs.
Proof.
  intros Hl. unfold build_with. pose proof (op_fits _ _ _ Hop [] data Hl H16) as Hf.
  unfold Builder_new. change (len []) with 0 in Hf. simpl in Hf. rewrite Hf.
  by apply slice_hd.
Qed.

Lemma build_short : len data < len bs → ¬ c (len data) → build_with op data = Err NoSpace.
Proof.
  intros Hl Hc. destruct (op_short _ _ _ Hop [] data Hl Hc H16) as (d & pos & Hf).
  unfold build_with, Builder_new. change (len []) with 0 in Hf. simpl in Hf. by rewrite Hf.
Qed.

Lemma build_crash : c (len data) → build_with op data = Panic.
Proof.
  intros Hc. pose proof (op_crash _ _ _ Hop [] data Hc H16) as Hf.
  unfold build_with, Builder_new. change (len []) with 0 in Hf. simpl in Hf. by rewrite Hf.
Qed.
End build_with.
