(* ===== verification/PodTree.v ===== *)
(** * Messages: what is built is what is parsed

    The builder of [spa/src/pod/builder.rs] against the parser of
    [spa/src/pod/parser.rs], over every type that implements [Pod]. [Kind]
    names those types, [Tree] is a message: pods of any kind, grouped into
    structs nested to any depth. *)

From S2P Require Import Prelude Utf8 PodTypes PodCodec PodLaws PodCompound.
From S2P Require Import PodParser PodParserLaws PodBuilder.

(** ** The types that implement [Pod] *)
Inductive PrimKind :=
| PkNone | PkBool | PkId | PkInt | PkLong | PkFloat | PkDouble | PkFd | PkRectangle | PkFraction.

Definition prim_type (k : PrimKind) : Type :=
  match k with
  | PkNone => unit
  | PkBool => bool
  | PkId => Id Z
  | PkInt | PkLong | PkFloat | PkDouble => Z
  | PkFd => Fd
  | PkRectangle => Rectangle
  | PkFraction => Fraction
  end.

Definition prim_impl (k : PrimKind) : Primitive (prim_type k) :=
  match k with
  | PkNone => prim_unit
  | PkBool => prim_bool
  | PkId => prim_id Z
  | PkInt => prim_i32
  | PkLong => prim_i64
  | PkFloat => prim_f32
  | PkDouble => prim_f64
  | PkFd => prim_fd
  | PkRectangle => prim_rectangle
  | PkFraction => prim_fraction
  end.

#[global] Instance prim_impl_laws k : PrimitiveLaws (prim_impl k).
Proof. destruct k; apply _. Defined.

Inductive Kind :=
| KPrim (k : PrimKind)
| KString
| KBytes
| KPointer
| KRaw
| KArray (k : PrimKind)
| KChoice (k : PrimKind)
| KProperty (k : Kind)
| KOption (k : Kind).

Fixpoint kind_type (k : Kind) : Type :=
  match k with
  | KPrim k => prim_type k
  | KString | KBytes => list byte
  | KPointer => Pointer
  | KRaw => RawPod
  | KArray k => list (prim_type k)
  | KChoice k => Choice (prim_type k)
  | KProperty k => Property Z (kind_type k)
  | KOption k => option (kind_type k)
  end.

Fixpoint kind_pod (k : Kind) : Pod (kind_type k) :=
  match k with
  | KPrim k => pod_prim (prim_impl k)
  | KString => pod_str
  | KBytes => pod_bytes
  | KPointer => pod_pointer
  | KRaw => pod_raw
  | KArray k => pod_array (prim_impl k)
  | KChoice k => pod_choice (prim_impl k)
  | KProperty k => pod_property (kind_pod k)
  | KOption k => pod_option (kind_pod k)
  end.

#[global] Instance kind_laws k : PodLaws (kind_pod k).
Proof. induction k; simpl; apply _. Defined.

(** ** Messages *)
Inductive Tree :=
| Leaf (k : Kind) (v : kind_type k)
| Struct (ts : list Tree).

Inductive Shape :=
| SLeaf (k : Kind)
| SStruct (ss : list Shape).

Fixpoint shape (t : Tree) : Shape :=
  match t with
  | Leaf k _ => SLeaf k
  | Struct ts => SStruct (shape <$> ts)
  end.

Fixpoint push_tree (t : Tree) : BuilderOp :=
  match t with
  | Leaf k v => push_pod (kind_pod k) v
  | Struct ts => push_struct (foldr (λ t op, push_tree t ▷ op) op_id ts)
  end.

Definition push_trees (ts : list Tree) : BuilderOp := foldr (λ t op, push_tree t ▷ op) op_id ts.

Fixpoint pop_tree (s : Shape) : PM Tree :=
  match s with
  | SLeaf k => v ← pop_pod (kind_pod k); mret (Leaf k v)
  | SStruct ss =>
      r ← pop_struct (foldr (λ s m, t ← pop_tree s; ts ← m; mret (t :: ts)) (mret []) ss);
      mret (Struct r.1)
  end.

Definition pop_trees (ss : list Shape) : PM (list Tree) :=
  foldr (λ s m, t ← pop_tree s; ts ← m; mret (t :: ts)) (mret []) ss.

(** Room a message needs, and which values can be sent. *)
Fixpoint tree_space (t : Tree) : Z :=
  match t with
  | Leaf k v => pod_space (kind_pod k) v
  | Struct ts => 8 + foldr (λ t n, tree_space t + n) 0 ts
  end.
Definition trees_space (ts : list Tree) : Z := foldr (λ t n, tree_space t + n) 0 ts.

Fixpoint tree_ok (t : Tree) : Prop :=
  match t with
  | Leaf k v => pod_ok (kind_pod k) v
  | Struct ts => foldr (λ t P, tree_ok t ∧ P) True ts ∧ trees_space ts < 2 ^ 32
  end.
Definition trees_ok (ts : list Tree) : Prop := foldr (λ t P, tree_ok t ∧ P) True ts.

Lemma tree_rec (P : Tree → Prop) :
  (∀ k v, P (Leaf k v)) → (∀ ts, Forall P ts → P (Struct ts)) → ∀ t, P t.
Proof.
  intros Hl Hs. fix IH 1. intros [k v|ts]; [apply Hl|]. apply Hs.
  induction ts; constructor; [apply IH|done].
Qed.

(** [op] appends bytes from which [m] reads back [a]. *)
Definition transfers {A} (op : BuilderOp) (space : Z) (m : PM A) (a : A) : Prop :=
  ∀ pre rest, space ≤ len rest →
    ∃ bs, op (mkBuilder (pre ++ rest) (len pre) None)
          = Ok (mkBuilder (pre ++ bs ++ drop (length bs) rest) (len (pre ++ bs)) None) ∧
      len bs ≤ space ∧ len bs mod 8 = 0 ∧ parses m bs a.

Lemma transfers_leaf k v :
  pod_ok (kind_pod k) v →
  transfers (push_tree (Leaf k v)) (tree_space (Leaf k v)) (pop_tree (SLeaf k)) (Leaf k v).
Proof.
  intros Hv pre rest Hl. simpl in Hl.
  destruct (encode_fits (P:=kind_pod k) v rest Hv Hl) as (bs & He & Hs & Hm & Ha & Hd).
  exists bs. split_and!; [|done|done|].
  - unfold push_tree, push_pod. cbn [b_error b_pos b_data].
    rewrite within_app by done. rewrite He. simpl. by rewrite len_app.
  - rewrite <- (app_nil_r bs). eapply parses_bind; [by apply parses_decode|]. apply parses_ret.
Qed.

Lemma transfers_nil : transfers op_id 0 (mret (@nil Tree)) [].
Proof.
  intros pre rest _. exists []. split_and!; [by rewrite app_nil_r|done|done|apply parses_ret].
Qed.

Lemma transfers_cons {A} op op' n n' (m : PM A) (m' : PM (list A)) a l :
  0 ≤ n' → transfers op n m a → transfers op' n' m' l →
  transfers (op ▷ op') (n + n') (t ← m; ts ← m'; mret (t :: ts)) (a :: l).
Proof.
  intros Hn' H1 H2 pre rest Hl.
  destruct (H1 pre rest) as (bs & Hb & Hbn & Hba & Hbp); [lia|].
  pose proof (len_nonneg bs).
  destruct (H2 (pre ++ bs) (drop (length bs) rest)) as (cs & Hc & Hcn & Hca & Hcp).
  { unfold len in *. rewrite length_drop. lia. }
  exists (bs ++ cs). split_and!; [|len_lia| |].
  - unfold op_seq. rewrite Hb. res_cbn. rewrite app_assoc, Hc.
    by rewrite <- !app_assoc, length_app, drop_drop.
  - rewrite len_app, Z.add_mod, Hba, Hca by lia. done.
  - eapply parses_bind; [done|]. rewrite <- (app_nil_r cs). eapply parses_bind; [done|].
    apply parses_ret.
Qed.

Lemma tree_space_nonneg t : tree_ok t → 0 ≤ tree_space t.
Proof.
  revert t. apply (tree_rec (λ t, tree_ok t → 0 ≤ tree_space t)).
  - intros k v Hv. simpl in *. destruct (decide (0 ≤ pod_space (kind_pod k) v)); [done|].
    destruct (encode_fits (P:=kind_pod k) v [] Hv) as (bs & _ & ? & ? & _).
    { rewrite len_nil. lia. } lia.
  - intros ts IH [Hts _]. simpl. enough (0 ≤ trees_space ts) by (unfold trees_space in *; lia).
    unfold trees_space. induction IH as [|t ts Ht _ IH]; simpl in *; [done|].
    destruct Hts as [? ?]. specialize (IH ltac:(done)). specialize (Ht ltac:(done)). lia.
Qed.

Lemma trees_space_nonneg ts : trees_ok ts → 0 ≤ trees_space ts.
Proof.
  induction ts as [|t ts IH]; simpl; [done|]. intros [Ht Hts].
  pose proof (tree_space_nonneg t Ht). unfold trees_space in *. specialize (IH Hts). lia.
Qed.

Lemma transfers_struct op n (m : PM (list Tree)) ts :
  0 ≤ n < 2 ^ 32 → transfers op n m ts →
  transfers (push_struct op) (8 + n) (r ← pop_struct m; mret (Struct r.1)) (Struct ts).
Proof.
  intros Hn Hop pre rest Hl.
  destruct (split_room 8 ltac:(lia) rest) as (hole & tail & -> & Hh & Ht); [lia|].
  destruct (Hop (pre ++ hole) tail) as (bs & Hb & Hbn & Hba & Hbp); [lia|].
  pose proof (push_struct_run op bs pre hole tail (drop (length bs) tail) Hh Hba Hb) as Hr.
  exists (struct_wire bs). split_and!.
  - rewrite Hr. do 4 f_equal. rewrite struct_wire_aligned by done.
    symmetry. by apply (drop_hole 8).
  - rewrite struct_wire_aligned by done. len_lia.
  - apply sized_wire_aligned.
  - rewrite <- (app_nil_r (struct_wire bs)). eapply parses_bind; [|apply (parses_ret (Struct (ts, len (struct_wire bs)).1))].
    apply parses_struct; [lia|]. rewrite parses_run_all with (a := ts); [done|done|].
    unfold isize_max. lia.
Qed.

Lemma transfers_tree t : tree_ok t → transfers (push_tree t) (tree_space t) (pop_tree (shape t)) t.
Proof.
  revert t. apply (tree_rec (λ t, tree_ok t → transfers _ _ _ t)); [by apply transfers_leaf|].
  intros ts IH [Hts Hsz]. pose proof (trees_space_nonneg ts Hts). simpl.
  apply transfers_struct; [done|]. clear Hsz H. induction IH as [|t ts Ht _ IH]; simpl in *.
  - apply transfers_nil.
  - destruct Hts as [? Hts]. apply transfers_cons; [by apply trees_space_nonneg|by apply Ht|by apply IH].
Qed.

Lemma transfers_trees ts :
  trees_ok ts → transfers (push_trees ts) (trees_space ts) (pop_trees (shape <$> ts)) ts.
Proof.
  induction ts as [|t ts IH]; simpl; [intros; apply transfers_nil|]. intros [Ht Hts].
  apply transfers_cons; [by apply trees_space_nonneg|by apply transfers_tree|by apply IH].
Qed.

(** Every client of an object parser, and every client of the parser: any
    program made of the methods, in any order and nesting, with any
    computation between them. *)
Inductive object_client : ∀ {A : Type}, OM A → Prop :=
| object_property K `{U32Conv K} : object_client (pop_property (K:=K))
| object_res A (r : PodRes A) : total r → object_client (λ p, (p, r))
| object_bind A B (m : OM A) (f : A → OM B) :
    object_client m → (∀ a, object_client (f a)) →
    object_client (λ p, match m p with
      | (p', Ok a) => f a p' | (p', Err e) => (p', Err e) | (p', Panic) => (p', Panic) end).

Inductive parser_client : ∀ {A : Type}, PM A → Prop :=
| client_pop k : parser_client (pop_pod (kind_pod k))
| client_id T `{U32ConvLaws T} : parser_client (pop_id T)
| client_raw_pod : parser_client pop_raw_pod
| client_array_raw S (f : S → PodType → list byte → PodRes S) s :
    (∀ s t b, total (f s t b)) → parser_client (pop_array_raw f s)
| client_choice_raw (f : PodType → Choice (list byte) → PodRes unit) :
    (∀ t c, total (f t c)) → parser_client (pop_choice_raw f)
| client_struct A (m : PM A) : parser_client m → parser_client (pop_struct m)
| client_object I A `{U32Conv I} K_TYPE (f : I → OM A) :
    (∀ id, object_client (f id)) → parser_client (pop_object K_TYPE f)
| client_object_raw I A `{U32Conv I} (f : ObjectType → I → OM A) :
    (∀ t id, object_client (f t id)) → parser_client (pop_object_raw f)
| client_res A (r : PodRes A) : total r → parser_client (pm_res r)
| client_bind A B (m : PM A) (f : A → PM B) :
    parser_client m → (∀ a, parser_client (f a)) → parser_client (m ≫= f).

Lemma object_client_safe {A} (m : OM A) : object_client m → om_safe m.
Proof.
  induction 1 as [K ?|A r Hr|A B m f _ IHm _ IHf]; intros p Hp.
  - by apply pop_property_safe.
  - split; [by apply omoved_refl|done].
  - destruct (IHm p Hp) as [Hm Ht]. destruct (m p) as [p' [a|e|]]; simpl in *; [|done..].
    destruct Hm as [Hd ?]. destruct (IHf a p') as [[Hd' ?] ?].
    { destruct Hp. unfold oparser_wf. rewrite Hd. lia. }
    split; [|done]. unfold omoved. rewrite Hd', Hd in *. split; [done|lia].
Qed.

Lemma parser_client_safe {A} (m : PM A) : parser_client m → pm_safe m.
Proof.
  induction 1.
  - apply pop_pod_safe, kind_laws.
  - apply pop_pod_safe, exact_laws, prim_exact, id_laws, _.
  - apply pop_raw_pod_safe.
  - by apply pop_array_raw_safe.
  - by apply pop_choice_raw_safe.
  - by apply pop_struct_safe.
  - apply pop_object_safe. intros. by apply object_client_safe.
  - apply pop_object_raw_safe. intros. by apply object_client_safe.
  - by apply pm_res_safe.
  - by apply pm_bind_safe.
Qed.

(** Past the end of the buffer every push panics. *)
Lemma push_tree_beyond t data pos :
  len data < pos → 8 ≤ len data → push_tree t (mkBuilder data pos None) = Panic.
Proof.
  intros Hl H8. revert t pos Hl. apply (tree_rec (λ t, ∀ pos, len data < pos →
    push_tree t (mkBuilder data pos None) = Panic)).
  - intros k v pos Hl. simpl. unfold push_pod. cbn [b_error b_pos b_data].
    by rewrite within_beyond.
  - intros ts IH pos Hl. simpl. unfold push_struct. cbn [b_error b_pos b_data].
    rewrite bool_decide_eq_false_2 by lia. cbv zeta. destruct IH as [|t ts Ht _].
    + simpl. unfold usize_sub. rewrite bool_decide_eq_true_2 by lia. res_cbn.
      unfold put_header, mbind, w_bind. cbn [b_data].
      by rewrite put_at_beyond by (rewrite len_u32_bytes; lia).
    + simpl. unfold op_seq. by rewrite Ht by lia.
Qed.

(** ** Objects *)
Section objects.
Context {I K : Type} `{U32ConvLaws I, U32ConvLaws K}.

Definition push_properties (xs : list (K * Z * RawPod)) : BuilderOp :=
  foldr (λ x op, push_property pod_raw x.1.1 x.1.2 x.2 ▷ op) op_id xs.

Lemma push_property_spec (x : K * Z * RawPod) :
  prop_ok x → op_spec (push_property pod_raw x.1.1 x.1.2 x.2) (property_wire x) no_crash.
Proof.
  destruct x as [[k f] r]. intros (Hk & Hf & Hr). simpl in *.
  assert (∀ data : list byte, 8 ≤ len data → len (drop 8 data) = len data - 8) as Hd8.
  { intros data ?. unfold len in *. rewrite length_drop. lia. }
  split; try done.
  - intros b e He. unfold push_property, push_pod. by rewrite He.
  - intros pre rest Hl _. unfold push_property, push_pod. cbn [b_error b_pos b_data].
    rewrite within_app by done. unfold property_wire in *. cbn [fst snd] in *.
    rewrite property_encode by len_lia. cbn [value].
    rewrite exact_encode; [simpl|done|change (wire pod_raw r) with (raw_data r); rewrite Hd8; len_lia].
    unfold property_header. simpl. rewrite <- !app_assoc, drop_drop.
    f_equal. apply f_equal3; [|len_lia|done]. do 5 f_equal.
  - intros pre rest Hl _ _. unfold push_property, push_pod. cbn [b_error b_pos b_data].
    rewrite within_app by done. unfold property_wire in *. cbn [fst snd] in *.
    destruct (decide (len rest < 8)) as [Hs|Hs].
    { unfold pod_property, encode. rewrite buf_len_bind, bool_decide_eq_true_2 by lia.
      simpl. eauto. }
    rewrite property_encode by lia. cbn [value].
    destruct (exact_nospace (P:=pod_raw) r (drop 8 rest)) as (d & -> & _); [done|..].
    { change (wire pod_raw r) with (raw_data r). rewrite Hd8; len_lia. }
    simpl. eauto.
  - intros data pos Hl _. left. unfold push_property, push_pod. cbn [b_error b_pos b_data].
    by rewrite within_beyond.
Qed.

Lemma property_wire_aligned (x : K * Z * RawPod) :
  prop_ok x → len (property_wire x) mod 8 = 0.
Proof.
  destruct x as [[k f] r]. intros (_ & _ & Hr).
  pose proof (wire_aligned (P:=pod_raw) r Hr) as Ha. simpl in Ha.
  unfold property_wire. cbn [fst snd].
  replace (len _) with (len (raw_data r) + 1 * 8) by len_lia. by rewrite Z.mod_add.
Qed.

Lemma push_properties_spec xs :
  Forall prop_ok xs →
  op_spec (push_properties xs) (concat (property_wire <$> xs)) no_crash ∧
  len (concat (property_wire <$> xs)) mod 8 = 0.
Proof.
  induction 1 as [|x xs Hx _ [IH Ha]]; simpl; [split; [apply op_spec_id|done]|]. split.
  - eapply op_spec_ext; [by apply op_spec_seq, IH; apply push_property_spec|done|].
    unfold crash_seq, no_crash. tauto.
  - rewrite len_app, Z.add_mod, property_wire_aligned by done. unfold fmap in Ha.
    by rewrite Ha.
Qed.
End objects.

(** ** Properties *)

(** C1: Whatever is built is what is parsed. Take any sequence of pods of
    any type that implements [Pod], grouped into structs of any depth, with
    valid values. Pushing it through a [Builder] over a buffer with room for
    it succeeds, and the matching [pop_*] calls on the bytes of [build()],
    followed by any other bytes, return exactly the values pushed and stop
    exactly behind them. *)
Theorem message_roundtrip (ts : list Tree) (data : list byte) :
  trees_ok ts → trees_space ts ≤ len data →
  ∃ bs, build_with (push_trees ts) data = Ok bs ∧ len bs ≤ trees_space ts ∧
    ∀ rest, len (bs ++ rest) ≤ isize_max →
      pop_trees (shape <$> ts) (Parser_new (bs ++ rest)) = (mkParser (bs ++ rest) (len bs), Ok ts).
Proof.
  intros Hts Hl. destruct (transfers_trees ts Hts [] data Hl) as (bs & Hb & Hn & _ & Hp).
  exists bs. split_and!; [|done|intros rest Hr; by apply parses_run].
  unfold build_with, Builder_new. change 0 with (len (@nil byte)).
  simpl in Hb. rewrite Hb. by apply slice_hd.
Qed.

Definition sample_message : list Tree :=
  [ Leaf (KPrim PkInt) (-5);
    Struct [ Leaf KString [Byte.x68; Byte.x69]; Leaf (KArray PkInt) [1; 2; 3];
             Struct [ Leaf (KChoice PkInt) (ChRange 4 0 10) ] ];
    Leaf (KOption (KPrim PkLong)) None ].

Lemma sample_message_ok : trees_ok sample_message.
Proof.
  split; [by vm_compute; split|]. split; [|split; [|done]].
  - split; [|by vm_compute]. split; [by split; vm_compute|]. split; [|split; [|done]].
    + split_and!; [by vm_compute| |by vm_compute].
      repeat constructor; by vm_compute.
    + split; [|by vm_compute]. split; [|done]. split_and!; [by vm_compute| |by vm_compute].
      repeat constructor; by vm_compute.
  - apply prim_refuses_none. done.
Qed.

Lemma message_roundtrip_witness :
  ∃ bs, build_with (push_trees sample_message) (zeros 256) = Ok bs ∧
    len bs ≤ trees_space sample_message ∧
    ∀ rest, len (bs ++ rest) ≤ isize_max →
      pop_trees (shape <$> sample_message) (Parser_new (bs ++ rest))
      = (mkParser (bs ++ rest) (len bs), Ok sample_message).
Proof.
  apply (message_roundtrip sample_message (zeros 256)); [apply sample_message_ok|].
  by vm_compute.
Defined.

(** C2: The parser is safe on hostile input. For every client program made
    of the parser's methods (each typed [pop_*], the raw variants, structs
    and objects with nested clients), from any position inside any data:
    the run returns a value or an error, it does not panic, the data is
    untouched, and the position never moves backwards or past the end, also
    when the run fails half way. *)
Theorem parser_never_panics {A} (m : PM A) (p : Parser) :
  parser_client m → parser_wf p →
  total (m p).2 ∧ p_data (m p).1 = p_data p ∧ p_pos p ≤ p_pos (m p).1 ≤ len (p_data p).
Proof. intros Hm Hp. by destruct (parser_client_safe m Hm p Hp) as [[? ?] ?]. Qed.

Lemma parser_never_panics_witness :
  let m := r ← pop_struct pop_raw_pod; pop_pod (kind_pod (KArray PkInt)) in
  let p := Parser_new (u32_bytes 4294967295 ++ u32_bytes 14) in
  total (m p).2 ∧ p_data (m p).1 = p_data p ∧ p_pos p ≤ p_pos (m p).1 ≤ len (p_data p).
Proof.
  apply (parser_never_panics (pop_struct pop_raw_pod ≫= λ r, pop_pod (kind_pod (KArray PkInt)))).
  - constructor; [|intros; constructor]. repeat constructor.
  - unfold parser_wf. by vm_compute.
Defined.

(** C37: Iterating over an object terminates. The properties of an object
    body take at least 16 bytes each, so a loop over [ObjectParser] yields
    at most one item per 16 bytes and then ends, whatever the bytes are; and
    on the body of a well-formed object it yields exactly its properties. *)
Theorem object_iteration (d : list byte) (n : nat) (xs : list (Z * Z * RawPod)) :
  len d ≤ isize_max → len d / 16 ≤ Z.of_nat n →
  (∀ m, (n ≤ m)%nat → drain (K:=Z) m (ObjectParser_new d) = drain n (ObjectParser_new d)) ∧
  (Forall prop_ok xs → d = concat (property_wire <$> xs) → drain n (ObjectParser_new d) = xs).
Proof.
  intros Hl Hn. assert (oparser_wf (ObjectParser_new d)) as Hwf by (by apply ObjectParser_new_wf).
  assert (∀ m, (n ≤ m)%nat → drain (K:=Z) m (ObjectParser_new d) = drain n (ObjectParser_new d)) as Hd.
  { intros m Hm. apply drain_enough; [done| |done]. simpl. by rewrite Z.sub_0_r. }
  split; [done|]. intros Hxs ->.
  rewrite <- (Hd (n + S (length xs))%nat) by lia. apply drain_object; [done|done|lia].
Qed.

Definition int_pod (v : Z) : RawPod := mkRawPod 16 TInt (wire pod_i32 v).

Lemma object_iteration_witness :
  let xs := [(1, 0, int_pod 7); (2, 3, int_pod (-1))] in
  drain 3 (ObjectParser_new (concat (property_wire <$> xs))) = xs.
Proof.
  intros xs.
  apply (object_iteration (concat (property_wire <$> xs)) 3 xs); [by vm_compute..| |done].
  repeat constructor; by vm_compute.
Defined.

(** Objects survive the trip. Building an object of any type and id with
    any list of properties, then parsing it with [pop_object_raw] and
    iterating over its properties, returns the type, the id and the
    properties in order, and consumes the object exactly. *)
Lemma object_roundtrip {I K} `{U32ConvLaws I, U32ConvLaws K}
    (ot : ObjectType) (id : I) (xs : list (K * Z * RawPod)) (data : list byte) :
  let body := concat (property_wire <$> xs) in
  u32_ok id → Forall prop_ok xs → 8 + len body < 2 ^ 32 → 16 + len body ≤ len data →
  ∃ bs, build_with (push_object ot id (push_properties xs)) data = Ok bs ∧
    ∀ rest, len (bs ++ rest) ≤ isize_max →
      pop_object_raw (λ t i p, (p, Ok (t, i, drain (S (length xs)) p))) (Parser_new (bs ++ rest))
      = (mkParser (bs ++ rest) (len bs), Ok ((ot, id, xs), len bs)).
Proof.
  intros body Hid Hxs Hsz Hl. destruct (push_properties_spec xs Hxs) as [Hop Ha].
  exists (object_wire ot id body). fold body in Hop, Ha. pose proof (len_nonneg body).
  assert (len (object_wire ot id body) = 16 + len body) as Hlen.
  { rewrite object_wire_len, pad_8_of_aligned; [lia|].
    replace (8 + len body) with (len body + 1 * 8) by lia. by rewrite Z.mod_add. }
  split.
  - eapply build_fits; [by apply op_spec_object|lia|lia].
  - intros rest Hr. apply parses_run; [|done]. apply parses_object_raw; [done..|].
    cbn [snd]. do 2 f_equal. apply drain_object; [done| |lia].
    unfold isize_max. fold body. lia.
Qed.

Lemma object_roundtrip_witness :
  let xs := [(65537, 0, int_pod 7); (65538, 3, int_pod (-1))] in
  ∃ bs, build_with (push_object OProps (4 : Z) (push_properties xs)) (zeros 64) = Ok bs ∧
    ∀ rest, len (bs ++ rest) ≤ isize_max →
      pop_object_raw (λ t i p, (p, Ok (t, i, drain (S (length xs)) p))) (Parser_new (bs ++ rest))
      = (mkParser (bs ++ rest) (len bs), Ok ((OProps, 4 : Z, xs), len bs)).
Proof.
  intros xs. apply (object_roundtrip OProps (4 : Z) xs (zeros 64)); [by vm_compute| |by vm_compute..].
  repeat constructor; by vm_compute.
Defined.

(** Pushing a single pod is total. From any builder whose position is
    inside its buffer, pushing a valid value of any type either advances the
    position by the encoded size, or records [NoSpace] and keeps the
    position, and never panics; a builder that already failed is returned
    unchanged. *)
Lemma push_pod_outcome (k : Kind) (v : kind_type k) (b : Builder) :
  pod_ok (kind_pod k) v → 0 ≤ b_pos b ≤ len (b_data b) →
  ∃ b', push_pod (kind_pod k) v b = Ok b' ∧
    len (b_data b') = len (b_data b) ∧
    match b_error b with
    | Some e => b' = b
    | None =>
        if bool_decide (pod_space (kind_pod k) v ≤ len (b_data b) - b_pos b)
        then b_error b' = None ∧ b_pos b + 8 ≤ b_pos b' ≤ b_pos b + pod_space (kind_pod k) v
        else b_error b' = Some NoSpace ∧ b_pos b' = b_pos b
    end.
Proof.
  intros Hv Hpos. destruct b as [data pos err]. simpl in *. unfold push_pod.
  destruct err as [e|]; cbn [b_error b_data b_pos]; [by eexists|].
  assert (∃ pre rest, data = pre ++ rest ∧ len pre = pos) as (pre & rest & -> & Hpre).
  { exists (take (Z.to_nat pos) data), (drop (Z.to_nat pos) data).
    rewrite take_drop, len_take by lia. done. }
  rewrite len_app in *. pose proof (len_nonneg rest).
  rewrite within_app by done. case_bool_decide as Hs.
  - destruct (encode_fits (P:=kind_pod k) v rest Hv) as (bs & -> & ? & ? & _); [lia|].
    simpl. eexists; split; [done|]. simpl. split_and!; [|done|lia..].
    rewrite !len_app. unfold len at 3. rewrite length_drop. unfold len in *. lia.
  - destruct (encode_nospace (P:=kind_pod k) v rest Hv) as (d & -> & Hd); [lia|].
    simpl. eexists; split; [done|]. simpl. split_and!; [|done|done]. rewrite len_app, Hd. done.
Qed.

Lemma push_pod_outcome_witness :
  ∃ b', push_pod (kind_pod KString) [Byte.x68; Byte.x69] (mkBuilder (zeros 20) 16 None) = Ok b' ∧
    len (b_data b') = 20 ∧ b_error b' = Some NoSpace ∧ b_pos b' = 16.
Proof.
  destruct (push_pod_outcome KString [Byte.x68; Byte.x69] (mkBuilder (zeros 20) 16 None))
    as (b' & H1 & H2 & H3); [by split; vm_compute|by vm_compute|].
  cbn [b_error] in H3. rewrite bool_decide_eq_false_2 in H3 by (by vm_compute).
  destruct H3 as [H3 H4]. by exists b'.
Defined.

(** [push_struct] (and with it every nested struct) panics instead of
    recording [NoSpace] when fewer than 8 bytes are left: its guard compares
    the header size with the length of the whole buffer, not with the room
    behind the position, so the closure runs with a position past the end. *)
Lemma push_struct_out_of_room (ts : list Tree) (data : list byte) (pos : Z) :
  8 ≤ len data → pos ≤ len data < pos + 8 →
  push_tree (Struct ts) (mkBuilder data pos None) = Panic.
Proof.
  intros H8 Hpos. simpl. unfold push_struct. cbn [b_error b_pos b_data].
  rewrite bool_decide_eq_false_2 by lia. cbv zeta. destruct ts as [|t ts]; simpl.
  - unfold usize_sub. rewrite bool_decide_eq_true_2 by lia. res_cbn.
    unfold put_header, mbind, w_bind. cbn [b_data].
    pose proof (put_at_len (E:=Empty_set) pos (u32_bytes (wrap 32 (pos + 8 - (pos + 8)))) data) as Hp.
    destruct (put_at pos _ data) as [d [[]|[]|]]; simpl in *; [|done].
    by rewrite put_at_beyond by (rewrite len_u32_bytes; lia).
  - unfold op_seq. by rewrite push_tree_beyond by lia.
Qed.

Lemma push_struct_out_of_room_witness :
  push_tree (Struct [Leaf (KPrim PkInt) 1]) (mkBuilder (zeros 16) 16 None) = Panic.
Proof. apply (push_struct_out_of_room _ (zeros 16) 16); by vm_compute. Defined.
