(* ===== verification/FrameHeader.v ===== *)
(** * Frames of the native protocol: headers, limits, errors, descriptors

    Models [protocol/src/native/frame/header.rs] and the types of
    [protocol/src/native/frame/mod.rs]. A file descriptor is its number; an
    [OwnedFd] moved out of a table leaves a hole. *)

From S2P Require Import Prelude.

Definition HEADER_LEN : Z := 16.
Definition WIRE_MAX_PAYLOAD : Z := 0x00ffffff.

(** [io::Error]: only its kind is ever inspected. *)
Inductive IoError :=
| Interrupted
| WouldBlock
| OtherIo (code : Z).

#[global] Instance IoError_eq_dec : EqDecision IoError.
Proof. solve_decision. Defined.

Inductive FrameError :=
| Io (e : IoError)
| PayloadTooLarge (declared limit : Z)
| TooManyFrameFds (declared limit : Z)
| TooManyPendingFds (received limit : Z)
| SendQueueFull (queued additional limit : Z)
| SendFdQueueFull (queued additional limit : Z)
| TruncatedControl
| MalformedControl
| MissingFds (declared available : Z)
| UnexpectedFdsAtEof (count : Z)
| TruncatedFrame (buffered needed : Z)
| InvalidFdIndex (index count : Z)
| FdAlreadyTaken (index : Z)
| WriteZero
| Poisoned.

#[global] Instance FrameError_eq_dec : EqDecision FrameError.
Proof. solve_decision. Defined.

Notation FrameRes := (Res FrameError).

Record Header := mkHeader {
  object_id : Z;
  opcode : Z;
  payload_len : Z;
  seq : Z;
  n_fds : Z;
}.

(** The array type [[u8; HEADER_LEN]] is a list; its length is checked by the
    fixed slices. *)
Definition Header_decode {E} (bytes : list byte) : Res E Header :=
  object_id ← read_u32 bytes 0;
  opcode_size ← read_u32 bytes 4;
  seq ← read_u32 bytes 8;
  n_fds ← read_u32 bytes 12;
  Ok {|
    object_id := object_id;
    opcode := wrap 8 (Z.shiftr opcode_size 24);
    payload_len := Z.land opcode_size (wrap 32 WIRE_MAX_PAYLOAD);
    seq := seq;
    n_fds := n_fds;
  |}.

Definition Header_encode (h : Header) : FrameRes (list byte) :=
  if bool_decide (payload_len h > WIRE_MAX_PAYLOAD)
  then Err (PayloadTooLarge (payload_len h) WIRE_MAX_PAYLOAD) else
  Ok (u32_bytes (object_id h) ++
      u32_bytes (Z.lor (wrap 32 (Z.shiftl (opcode h) 24)) (payload_len h)) ++
      u32_bytes (seq h) ++ u32_bytes (n_fds h)).

(** Field widths of the Rust struct. *)
Definition header_typed (h : Header) : Prop :=
  u32_range (object_id h) ∧ u8_range (opcode h) ∧ u32_range (payload_len h) ∧
  u32_range (seq h) ∧ u32_range (n_fds h).

Record FrameLimits := mkLimits {
  max_payload : Z;
  max_frame_fds : Z;
  max_pending_fds : Z;
  recv_chunk_bytes : Z;
  recv_control_fds : Z;
  max_queued_bytes : Z;
  max_queued_fds : Z;
}.

Definition FrameLimits_default : FrameLimits := {|
  max_payload := WIRE_MAX_PAYLOAD;
  max_frame_fds := 1024;
  max_pending_fds := 1024;
  recv_chunk_bytes := 32 * 1024;
  recv_control_fds := 64;
  max_queued_bytes := WIRE_MAX_PAYLOAD * 4;
  max_queued_fds := 1024;
|}.

(** All limits are [usize]. *)
Definition limits_typed (l : FrameLimits) : Prop :=
  u64_range (max_payload l) ∧ u64_range (max_frame_fds l) ∧ u64_range (max_pending_fds l) ∧
  u64_range (recv_chunk_bytes l) ∧ u64_range (recv_control_fds l) ∧
  u64_range (max_queued_bytes l) ∧ u64_range (max_queued_fds l).

(** [limits.max_payload.min(WIRE_MAX_PAYLOAD)] *)
Definition payload_limit (l : FrameLimits) : Z := Z.min (max_payload l) WIRE_MAX_PAYLOAD.

Lemma payload_limit_le l : payload_limit l ≤ WIRE_MAX_PAYLOAD ∧ payload_limit l ≤ max_payload l.
Proof. unfold payload_limit. lia. Qed.

(** ** The descriptors of a received frame *)
Notation FrameFds := (list (option Z)).

Definition FrameFds_get (fds : FrameFds) (index : Z) : FrameRes Z :=
  slot ← ok_or (fds !! Z.to_nat index) (InvalidFdIndex index (len fds));
  ok_or slot (FdAlreadyTaken index).

Definition FrameFds_take (fds : FrameFds) (index : Z) : FrameFds * FrameRes Z :=
  match fds !! Z.to_nat index with
  | None => (fds, Err (InvalidFdIndex index (len fds)))
  | Some slot => (<[Z.to_nat index := None]> fds, ok_or slot (FdAlreadyTaken index))
  end.

Record ReceivedFrame := mkReceivedFrame {
  f_header : Header;
  f_payload : list byte;
  f_fds : FrameFds;
}.

(** ** Header words *)
Lemma pack_word op n :
  u8_range op → 0 ≤ n < 2 ^ 24 →
  Z.lor (wrap 32 (Z.shiftl op 24)) n = op * 2 ^ 24 + n ∧ op * 2 ^ 24 + n < 2 ^ 32.
Proof.
  unfold u8_range. intros Ho Hn. rewrite Z.shiftl_mul_pow2 by lia.
  rewrite wrap_small by lia. split; [|lia].
  rewrite <- Z.add_lor_land, Z.add_comm. replace (Z.land _ _) with 0; [lia|].
  symmetry. apply Z.bits_inj'. intros i Hi. rewrite Z.land_spec, Z.bits_0.
  destruct (decide (i < 24)).
  - by rewrite Z.mul_pow2_bits_low by lia.
  - replace n with (n mod 2 ^ 24) by (by apply Z.mod_small).
    rewrite Z.mod_pow2_bits_high by lia. apply andb_false_r.
Qed.

Lemma unpack_word w :
  0 ≤ w < 2 ^ 32 →
  wrap 8 (Z.shiftr w 24) = w / 2 ^ 24 ∧ Z.land w (wrap 32 WIRE_MAX_PAYLOAD) = w mod 2 ^ 24.
Proof.
  intros Hw. split.
  - rewrite Z.shiftr_div_pow2 by lia. apply wrap_small.
    split; [apply Z.div_pos; lia|apply Z.div_lt_upper_bound; lia].
  - change (wrap 32 WIRE_MAX_PAYLOAD) with (Z.ones 24). by apply Z.land_ones.
Qed.

Lemma Header_encode_Ok h bs :
  Header_encode h = Ok bs →
  payload_len h ≤ WIRE_MAX_PAYLOAD ∧ len bs = HEADER_LEN.
Proof.
  unfold Header_encode. case_bool_decide; [done|]. intros [= <-]. split; [lia|].
  unfold HEADER_LEN. len_lia.
Qed.

Lemma header_decode_encode h bs rest :
  header_typed h → Header_encode h = Ok bs → Header_decode (E:=FrameError) (bs ++ rest) = Ok h.
Proof.
  intros (Hi & Ho & Hp & Hs & Hn). unfold Header_encode, WIRE_MAX_PAYLOAD. case_bool_decide; [done|].
  intros [= <-]. destruct (pack_word (opcode h) (payload_len h)) as [-> Hw];
    [done|unfold u32_range in *; lia|].
  unfold u8_range, u32_range in *. unfold Header_decode. rewrite <- !app_assoc.
  repeat slice_step. rewrite (wrap_small 32 (opcode h * 2 ^ 24 + payload_len h)) by lia.
  destruct (unpack_word (opcode h * 2 ^ 24 + payload_len h)) as [-> ->]; [lia|].
  rewrite !wrap_small by lia.
  rewrite Z.div_add_l, Z.div_small, Z.add_0_r by lia.
  rewrite Z.add_comm, Z.mod_add, Z.mod_small by lia. by destruct h.
Qed.

Lemma header_decode_typed {E} bytes h :
  Header_decode (E:=E) bytes = Ok h → header_typed h ∧ payload_len h ≤ WIRE_MAX_PAYLOAD.
Proof.
  unfold Header_decode. intros H. res_inv.
  repeat match goal with H : read_u32 _ _ = Ok _ |- _ => apply read_u32_range in H end.
  match goal with |- context [Z.shiftr ?w 24] => destruct (unpack_word w) as [Ha Hb]; [done|];
    pose proof (Z.mod_pos_bound w (2 ^ 24)) end.
  unfold header_typed, u8_range, u32_range, WIRE_MAX_PAYLOAD in *. cbn [opcode payload_len object_id seq n_fds].
  rewrite Hb. pose proof (wrap_range 8 (Z.shiftr v0 24)). lia.
Qed.

(** Sixteen bytes are four words. *)
Lemma le_split_combine4 (bs : list byte) : len bs = 4 → u32_bytes (le_combine bs) = bs.
Proof.
  intros H. Transparent u32_bytes. unfold u32_bytes, len in *.
  apply split_le_combine'. lia.
Qed.
#[global] Opaque u32_bytes.

Lemma four_words (bs : list byte) :
  len bs = 16 → ∃ a b c d, bs = u32_bytes a ++ u32_bytes b ++ u32_bytes c ++ u32_bytes d ∧
    u32_range a ∧ u32_range b ∧ u32_range c ∧ u32_range d.
Proof.
  intros H.
  assert (∀ l : list byte, 4 ≤ len l → ∃ a r, l = u32_bytes a ++ r ∧ u32_range a ∧ len r = len l - 4) as Hs.
  { intros l Hl. exists (le_combine (take 4 l)), (drop 4 l).
    assert (len (take 4 l) = 4) by (apply (len_take 4); lia).
    rewrite le_split_combine4, take_drop by done. split_and!; [done|by apply le_combine_range4|].
    apply (len_drop 4). lia. }
  destruct (Hs bs) as (a & r1 & -> & Ha & H1); [lia|].
  destruct (Hs r1) as (b & r2 & -> & Hb & H2); [lia|].
  destruct (Hs r2) as (c & r3 & -> & Hc & H3); [lia|].
  destruct (Hs r3) as (d & r4 & -> & Hd & H4); [lia|].
  exists a, b, c, d. split_and!; try done. destruct r4 as [|x r4]; [by rewrite app_nil_r|].
  rewrite len_cons in H4. len_facts. lia.
Qed.

(** ** Properties *)

(** Header words on the wire. Encoding a header either fails, exactly
    when its payload length needs more than 24 bits, or yields 16 bytes that
    decode back to the header; and every 16 bytes are the encoding of the
    header they decode to. *)
Lemma header_roundtrip (h : Header) (bytes : list byte) :
  header_typed h → len bytes = HEADER_LEN →
  (if bool_decide (payload_len h > WIRE_MAX_PAYLOAD)
   then Header_encode h = Err (PayloadTooLarge (payload_len h) WIRE_MAX_PAYLOAD)
   else ∃ bs, Header_encode h = Ok bs ∧ len bs = HEADER_LEN ∧
          Header_decode (E:=FrameError) bs = Ok h) ∧
  ∃ h', Header_decode (E:=FrameError) bytes = Ok h' ∧ Header_encode h' = Ok bytes.
Proof.
  intros Hh Hl. split.
  - case_bool_decide as Hp.
    + unfold Header_encode. by rewrite bool_decide_eq_true_2.
    + assert (∃ bs, Header_encode h = Ok bs) as [bs Hbs]
        by (unfold Header_encode; rewrite bool_decide_eq_false_2 by done; eauto).
      exists bs. split_and!; [done|by eapply Header_encode_Ok|].
      rewrite <- (app_nil_r bs). by apply header_decode_encode.
  - destruct (four_words bytes Hl) as (a & b & c & d & -> & Ha & Hb & Hc & Hd).
    unfold u32_range in *. pose proof (Z.mod_pos_bound b (2 ^ 24)).
    pose proof (Z.div_mod b (2 ^ 24)).
    assert (0 ≤ b / 2 ^ 24 < 2 ^ 8)
      by (split; [apply Z.div_pos; lia|apply Z.div_lt_upper_bound; lia]).
    destruct (unpack_word b) as [Hw1 Hw2]; [done|].
    eexists. split.
    + unfold Header_decode. rewrite <- (app_nil_r (u32_bytes d)). repeat slice_step.
      rewrite (wrap_small 32 b), Hw1, Hw2, !wrap_small by lia. done.
    + unfold Header_encode, WIRE_MAX_PAYLOAD. cbn [payload_len opcode object_id seq n_fds].
      rewrite bool_decide_eq_false_2 by lia.
      destruct (pack_word (b / 2 ^ 24) (b mod 2 ^ 24)) as [-> _]; [done|lia|].
      do 2 f_equal. f_equal. f_equal. lia.
Qed.

Lemma header_roundtrip_witness :
  let h := mkHeader 3 7 0x123456 42 2 in
  (∃ bs, Header_encode h = Ok bs ∧ len bs = HEADER_LEN ∧
      Header_decode (E:=FrameError) bs = Ok h) ∧
  ∃ h', Header_decode (E:=FrameError) (zeros 16) = Ok h' ∧ Header_encode h' = Ok (zeros 16).
Proof.
  intros h. destruct (header_roundtrip h (zeros 16)) as [H1 H2]; [by vm_compute|done|].
  split; [|done]. rewrite bool_decide_eq_false_2 in H1 by (by vm_compute). done.
Defined.

(** A descriptor is handed out once. Taking index [i] from the table of
    a frame returns what [get] showed there, removes it, and leaves every
    other slot alone; taking it again is [FdAlreadyTaken], and an index past
    the table is [InvalidFdIndex]. *)
Lemma take_once (fds : FrameFds) (i : Z) :
  let '(fds', r) := FrameFds_take fds i in
  r = FrameFds_get fds i ∧ len fds' = len fds ∧
  (∀ j, 0 ≤ j → 0 ≤ i → j ≠ i → FrameFds_get fds' j = FrameFds_get fds j) ∧
  FrameFds_get fds' i =
    match fds !! Z.to_nat i with
    | Some _ => Err (FdAlreadyTaken i)
    | None => Err (InvalidFdIndex i (len fds))
    end.
Proof.
  unfold FrameFds_take, FrameFds_get.
  destruct (fds !! Z.to_nat i) as [slot|] eqn:Hi; simpl; [|by rewrite Hi].
  assert (len (<[Z.to_nat i:=None]> fds) = len fds) as Hl
    by (unfold len; f_equal; apply length_insert).
  split_and!; [done|done| |].
  - intros j Hj Hi' Hne. rewrite list_lookup_insert_ne by lia. by rewrite Hl.
  - rewrite list_lookup_insert_eq by (by eapply lookup_lt_Some). done.
Qed.
