(* ===== verification/FrameControl.v ===== *)
(** * Ancillary data of the native protocol

    Models the control-message code of [protocol/src/native/frame/recv.rs]
    ([cmsg_align], [parse_control]) and of [.../send.rs] ([align] and the
    control buffer [send_once] fills). The target is x86_64 Linux:
    [libc::cmsghdr] is a [usize] length and two [c_int]s, 16 bytes aligned to
    8. A raw pointer read outside the buffer, which Rust leaves undefined,
    is a panic of the model, so totality is memory safety. *)

From S2P Require Import Prelude FrameHeader.

Definition SOL_SOCKET : Z := 1.
Definition SCM_RIGHTS : Z := 1.
Definition MSG_CTRUNC : Z := 8.
Definition cmsghdr_size : Z := 16.
Definition cmsghdr_align : Z := 8.
Definition RawFd_size : Z := 4.

Definition cmsg_align (value : Z) : option Z :=
  v ← checked_add 64 value (cmsghdr_align - 1);
  Some (Z.land v (wrap 64 (Z.lnot (cmsghdr_align - 1)))).

Record cmsghdr := mkCmsghdr { cmsg_len : Z; cmsg_level : Z; cmsg_type : Z }.

(** [std::ptr::read_unaligned(control.as_ptr().add(offset).cast())] *)
Definition read_cmsghdr {E} (control : list byte) (offset : Z) : Res E cmsghdr :=
  l ← read_u64 control offset;
  level ← read_u32 control (offset + 8);
  type ← read_u32 control (offset + 12);
  Ok (mkCmsghdr l (swrap 32 level) (swrap 32 type)).

(** The loop that adopts descriptors. The first component is the vector
    [owned] when the loop ends: what an error return drops, and closes. *)
Fixpoint adopt_fds (control : list byte) (data_start : Z) (indices owned : list Z) :
    list Z * FrameRes unit :=
  match indices with
  | [] => (owned, Ok tt)
  | index :: indices =>
      match read_u32 control (data_start + index * RawFd_size) with
      | Ok w =>
          let fd := swrap 32 w in
          if bool_decide (fd < 0) then (owned, Err MalformedControl)
          else adopt_fds control data_start indices (owned ++ [fd])
      | Err e => (owned, Err e)
      | Panic => (owned, Panic)
      end
  end.

(** The descriptors of one record: [data_start], and [data_len] cut to what
    both the record and the buffer cover. *)
Definition rights_data (visible offset length data_offset : Z) : option Z * Z :=
  let data_start := checked_add 64 offset data_offset in
  let declared_end := checked_add 64 offset length in
  let data_end := Z.min (default visible declared_end) visible in
  let data_len :=
    match data_start with
    | Some start => if bool_decide (start ≤ data_end) then data_end - start else 0
    | None => 0
    end in
  (data_start, data_len).

Definition adopt_rights (control : list byte) (offset length data_offset : Z) (owned : list Z) :
    list Z * FrameRes unit :=
  let '(data_start, data_len) := rights_data (len control) offset length data_offset in
  match adopt_fds control (default 0 data_start) (seqZ 0 (data_len / RawFd_size)) owned with
  | (owned', Ok _) =>
      if bool_decide (data_len mod RawFd_size ≠ 0) then (owned', Err MalformedControl)
      else (owned', Ok tt)
  | r => r
  end.

(** The record loop. Each round moves [offset] by at least one header, so
    the buffer length is fuel enough ([parse_control_safe]). *)
Fixpoint parse_records (fuel : nat) (control : list byte) (data_offset offset : Z) (owned : list Z) :
    list Z * FrameRes unit :=
  match fuel with
  | O => (owned, Panic)
  | S fuel =>
      let visible := len control in
      if bool_decide (offset < visible) then
        if bool_decide (visible - offset < cmsghdr_size) then (owned, Err MalformedControl) else
        match read_cmsghdr control offset with
        | Ok header =>
            let length := cmsg_len header in
            match
              (if bool_decide (cmsg_level header = SOL_SOCKET ∧ cmsg_type header = SCM_RIGHTS)
               then adopt_rights control offset length data_offset owned
               else (owned, Ok tt))
            with
            | (owned', Ok _) =>
                if bool_decide (length < data_offset ∨ length > visible - offset)
                then (owned', Err MalformedControl) else
                match (l ← cmsg_align length; checked_add 64 offset l) with
                | None => (owned', Err MalformedControl)
                | Some next =>
                    if bool_decide (next ≤ offset) then (owned', Err MalformedControl)
                    else parse_records fuel control data_offset next owned'
                end
            | r => r
            end
        | Err e => (owned, Err e)
        | Panic => (owned, Panic)
        end
      else (owned, Ok tt)
  end.

(** The second component is the function's result; the first the
    descriptors adopted on the way. *)
Definition parse_control (control : list byte) (flags : Z) : list Z * FrameRes (list Z) :=
  match cmsg_align cmsghdr_size with
  | None => ([], Err MalformedControl)
  | Some data_offset =>
      match parse_records (S (length control)) control data_offset 0 [] with
      | (owned, Ok _) =>
          if bool_decide (Z.land flags MSG_CTRUNC ≠ 0) then (owned, Err TruncatedControl)
          else (owned, Ok owned)
      | (owned, Err e) => (owned, Err e)
      | (owned, Panic) => (owned, Panic)
      end
  end.

(** ** The sender's control buffer *)
Definition align (value : Z) : Z :=
  Z.land (value + cmsghdr_align - 1) (wrap 64 (Z.lnot (cmsghdr_align - 1))).

Definition div_ceil (a b : Z) : Z := (a + b - 1) / b.

Definition data_offset : Z := align cmsghdr_size.

Definition control_len (fds : option (list Z)) : Z :=
  match fds with
  | None => 0
  | Some fds => align (data_offset + len fds * RawFd_size)
  end.

Definition cmsghdr_bytes (h : cmsghdr) : list byte :=
  u64_bytes (cmsg_len h) ++ u32_bytes (cmsg_level h) ++ u32_bytes (cmsg_type h).

(** [for (index, fd) in fds.iter().enumerate()] from [index] on. *)
Fixpoint write_fds (index : Z) (fds : list Z) : W FrameError unit :=
  match fds with
  | [] => mret tt
  | fd :: fds =>
      put_at (data_offset + index * RawFd_size) (u32_bytes fd) ;; write_fds (index + 1) fds
  end.

(** The bytes [msg_control] points to, [msg_controllen] of them. *)
Definition build_control (fds : option (list Z)) : FrameRes (list byte) :=
  let control := zeros (div_ceil (control_len fds) 8 * 8) in
  match fds with
  | None => Ok []
  | Some l =>
      let header := mkCmsghdr (data_offset + len l * RawFd_size) SOL_SOCKET SCM_RIGHTS in
      match (put_at 0 (cmsghdr_bytes header) ;; write_fds 0 l) control with
      | (control, Ok _) => slice control 0 (control_len fds)
      | (_, Err e) => Err e
      | (_, Panic) => Panic
      end
  end.

(** ** Alignment *)
Lemma land_align v : 0 ≤ v < 2 ^ 64 → Z.land v (wrap 64 (Z.lnot 7)) = v / 8 * 8.
Proof.
  intros Hv. change (wrap 64 (Z.lnot 7)) with (Z.ldiff (Z.ones 64) (Z.ones 3)).
  replace (Z.land v (Z.ldiff (Z.ones 64) (Z.ones 3))) with (Z.ldiff (Z.land v (Z.ones 64)) (Z.ones 3)).
  - rewrite Z.land_ones, Z.mod_small by lia.
    rewrite Z.ldiff_ones_r by lia. by rewrite Z.shiftl_mul_pow2, Z.shiftr_div_pow2 by lia.
  - apply Z.bits_inj'. intros i Hi. rewrite !Z.ldiff_spec, !Z.land_spec, Z.ldiff_spec.
    by rewrite andb_assoc.
Qed.

Definition round8 (v : Z) : Z := (v + 7) / 8 * 8.

Lemma round8_bounds v : v ≤ round8 v < v + 8 ∧ round8 v mod 8 = 0.
Proof.
  unfold round8. pose proof (Z.div_mod (v + 7) 8). pose proof (Z.mod_pos_bound (v + 7) 8).
  split; [lia|]. apply Z.mod_mul. lia.
Qed.

Lemma cmsg_align_Some v : 0 ≤ v → v + 7 < 2 ^ 64 → cmsg_align v = Some (round8 v).
Proof.
  intros. unfold cmsg_align, checked_add, cmsghdr_align. change (8 - 1) with 7.
  rewrite bool_decide_eq_true_2 by lia. simpl. by rewrite land_align by lia.
Qed.

Lemma align_round8 v : 0 ≤ v → v + 7 < 2 ^ 64 → align v = round8 v.
Proof.
  intros. unfold align, cmsghdr_align. replace (v + 8 - 1) with (v + 7) by lia.
  change (8 - 1) with 7. by rewrite land_align by lia.
Qed.

(** ** Memory safety *)
Lemma adopt_fds_safe control start indices owned :
  (∀ i, i ∈ indices → 0 ≤ start + i * 4 ∧ start + i * 4 + 4 ≤ len control) →
  Forall (λ fd, 0 ≤ fd) owned →
  total (adopt_fds control start indices owned).2 ∧
  Forall (λ fd, 0 ≤ fd) (adopt_fds control start indices owned).1 ∧
  len (adopt_fds control start indices owned).1 ≤ len owned + len indices.
Proof.
  revert owned. induction indices as [|i indices IH]; intros owned Hi Ho; simpl.
  { split_and!; [done|done|len_lia]. }
  unfold RawFd_size. destruct (Hi i) as [? ?]; [by left|].
  destruct (read_u32_ok (E:=FrameError) control (start + i * 4)) as (w & -> & Hw); [done|lia|].
  rewrite len_cons. pose proof (len_nonneg indices).
  case_bool_decide; simpl; [split_and!; [done|done|lia]|].
  destruct (IH (owned ++ [swrap 32 w])) as (? & ? & Hl).
  - intros j Hj. apply Hi. by right.
  - apply Forall_app; split; [done|]. constructor; [lia|done].
  - split_and!; [done|done|]. rewrite len_app in Hl. change (len [swrap 32 w]) with 1 in Hl. lia.
Qed.

Lemma rights_data_bounds visible offset length :
  0 ≤ offset → offset + 16 ≤ visible → visible ≤ isize_max → 0 ≤ length →
  rights_data visible offset length 16
  = (Some (offset + 16), Z.max 0 (Z.min (offset + length) visible - (offset + 16))).
Proof.
  intros. unfold rights_data, checked_add, isize_max in *.
  rewrite (bool_decide_eq_true_2 (offset + 16 < _)) by lia. f_equal.
  destruct (bool_decide_reflect (offset + length < 2 ^ 64)); simpl; case_bool_decide; lia.
Qed.

Lemma len_seqZ a n : 0 ≤ n → len (seqZ a n) = n.
Proof. intros. unfold len. rewrite length_seqZ. lia. Qed.

Lemma adopt_rights_safe control offset length owned :
  0 ≤ offset → offset + 16 ≤ len control → len control ≤ isize_max → 0 ≤ length →
  Forall (λ fd, 0 ≤ fd) owned → len owned * 4 ≤ offset →
  let '(owned', r) := adopt_rights control offset length 16 owned in
  total r ∧ Forall (λ fd, 0 ≤ fd) owned' ∧
  len owned' * 4 ≤ Z.max offset (Z.min (offset + length) (len control)).
Proof.
  intros Ho Hv Hmax Hl Hown Hsz. unfold adopt_rights. rewrite rights_data_bounds by done. simpl.
  set (n := Z.max 0 _). unfold RawFd_size.
  pose proof (Z.div_mod n 4). pose proof (Z.mod_pos_bound n 4).
  destruct (adopt_fds_safe control (offset + 16) (seqZ 0 (n / 4)) owned) as (Ht & Hf & Hn);
    [|done|].
  { intros i Hi%elem_of_seqZ. lia. }
  rewrite len_seqZ in Hn by (apply Z.div_pos; lia).
  destruct (adopt_fds _ _ _ _) as [owned' [[]|e|]]; simpl in *; [|split_and!; [done|done|lia]|done].
  case_bool_decide; (split_and!; [done|done|lia]).
Qed.

Lemma read_cmsghdr_ok control offset :
  0 ≤ offset → offset + 16 ≤ len control →
  ∃ h, read_cmsghdr (E:=FrameError) control offset = Ok h ∧ 0 ≤ cmsg_len h < 2 ^ 64.
Proof.
  intros. unfold read_cmsghdr.
  destruct (read_u64_ok (E:=FrameError) control offset) as (l & -> & Hl); [lia..|]. res_cbn.
  destruct (read_u32_ok (E:=FrameError) control (offset + 8)) as (a & -> & Ha); [lia..|]. res_cbn.
  destruct (read_u32_ok (E:=FrameError) control (offset + 12)) as (b & -> & Hb); [lia..|]. res_cbn.
  eexists; split; [done|]. done.
Qed.

Lemma parse_records_safe fuel control offset owned :
  0 ≤ offset → Z.max 0 (len control - offset) < Z.of_nat fuel → len control ≤ isize_max →
  Forall (λ fd, 0 ≤ fd) owned → len owned * 4 ≤ Z.min offset (len control) →
  let '(owned', r) := parse_records fuel control 16 offset owned in
  total r ∧ Forall (λ fd, 0 ≤ fd) owned' ∧ len owned' * 4 ≤ len control.
Proof.
  intros Ho Hf Hmax. revert offset owned Ho Hf.
  induction fuel as [|fuel IH]; intros offset owned Ho Hf Hown Hsz; simpl.
  { len_lia. } cbv zeta.
  case_bool_decide as H1; [|split_and!; [done|done|lia]].
  unfold cmsghdr_size. case_bool_decide as H2; [split_and!; [done|done|lia]|].
  destruct (read_cmsghdr_ok control offset) as (h & -> & Hh); [lia..|].
  assert (let '(owned', r) :=
    (if bool_decide (cmsg_level h = SOL_SOCKET ∧ cmsg_type h = SCM_RIGHTS)
     then adopt_rights control offset (cmsg_len h) 16 owned else (owned, Ok tt)) in
    total r ∧ Forall (λ fd, 0 ≤ fd) owned' ∧
    len owned' * 4 ≤ Z.max offset (Z.min (offset + cmsg_len h) (len control))) as Hr.
  { case_bool_decide; [apply adopt_rights_safe; done || lia|]. split_and!; [done|done|lia]. }
  destruct (if bool_decide _ then _ else _) as [owned' [[]|e|]];
    [|destruct Hr as (? & ? & ?); split_and!; [done|done|lia]|by destruct Hr].
  destruct Hr as (_ & Hown' & Hsz'). case_bool_decide as H3; [split_and!; [done|done|lia]|].
  unfold isize_max in *. rewrite cmsg_align_Some by lia.
  pose proof (round8_bounds (cmsg_len h)). simpl. unfold checked_add.
  rewrite bool_decide_eq_true_2 by lia. rewrite bool_decide_eq_false_2 by lia.
  pose proof (IH (offset + round8 (cmsg_len h)) owned') as IH'.
  destruct (parse_records fuel control 16 _ owned') as [o r].
  destruct IH' as (? & ? & Hl); [lia|lia|done|lia|]. done.
Qed.

Lemma cmsg_align_header : cmsg_align cmsghdr_size = Some 16.
Proof. done. Qed.

(** ** Well-formed control buffers *)
Inductive ControlRecord :=
| Rights (fds : list Z)
| OtherRecord (level type : Z) (payload : list byte).

Definition record_header (r : ControlRecord) : Z * Z :=
  match r with Rights _ => (SOL_SOCKET, SCM_RIGHTS) | OtherRecord l t _ => (l, t) end.
Definition record_payload (r : ControlRecord) : list byte :=
  match r with Rights fds => concat (u32_bytes <$> fds) | OtherRecord _ _ p => p end.
Definition record_fds (r : ControlRecord) : list Z :=
  match r with Rights fds => fds | OtherRecord _ _ _ => [] end.

Definition record_ok (r : ControlRecord) : Prop :=
  match r with
  | Rights fds => Forall (λ fd, 0 ≤ fd < 2 ^ 31) fds
  | OtherRecord l t _ => i32_range l ∧ i32_range t ∧ ¬ (l = SOL_SOCKET ∧ t = SCM_RIGHTS)
  end.

Definition record_bytes (r : ControlRecord) : list byte :=
  let p := record_payload r in
  cmsghdr_bytes (mkCmsghdr (16 + len p) (record_header r).1 (record_header r).2) ++
  p ++ zeros (round8 (16 + len p) - (16 + len p)).

Lemma len_words (fds : list Z) : len (concat (u32_bytes <$> fds)) = 4 * len fds.
Proof. induction fds as [|fd fds IH]; [done|]. rewrite fmap_cons. simpl. len_lia. Qed.

Lemma cmsghdr_bytes_len h : len (cmsghdr_bytes h) = 16.
Proof. unfold cmsghdr_bytes. len_lia. Qed.

Lemma record_bytes_len r : len (record_bytes r) = round8 (16 + len (record_payload r)).
Proof.
  unfold record_bytes. pose proof (round8_bounds (16 + len (record_payload r))).
  rewrite len_app, cmsghdr_bytes_len. len_lia.
Qed.

Lemma read_u64_hd {E} z y a : a = 0 → read_u64 (E:=E) (u64_bytes z ++ y) a = Ok (wrap 64 z).
Proof.
  intros ->. unfold read_u64. rewrite slice_hd by (by rewrite ?len_u64_bytes). simpl.
  by rewrite combine_u64_bytes.
Qed.

Lemma read_u64_skip {E} x y a :
  len x ≤ a → read_u64 (E:=E) (x ++ y) a = read_u64 y (a - len x).
Proof. intros. unfold read_u64. rewrite slice_skip by done. do 2 f_equal. lia. Qed.

Lemma read_cmsghdr_hd pre h rest :
  0 ≤ cmsg_len h < 2 ^ 64 → i32_range (cmsg_level h) → i32_range (cmsg_type h) →
  read_cmsghdr (E:=FrameError) (pre ++ cmsghdr_bytes h ++ rest) (len pre) = Ok h.
Proof.
  intros Hl Hv Ht. unfold read_cmsghdr, cmsghdr_bytes. rewrite <- !app_assoc.
  rewrite read_u64_skip, read_u64_hd by lia. res_cbn.
  do 3 slice_step. do 4 slice_step. rewrite wrap_small by done.
  rewrite !swrap_wrap by lia. unfold i32_range in *. rewrite !swrap_small by (simpl; lia).
  by destruct h.
Qed.

Lemma adopt_fds_words pre rest (fds : list Z) (k : Z) owned w :
  Forall (λ fd, 0 ≤ fd < 2 ^ 31) fds → 0 ≤ k → len w = 4 * k →
  adopt_fds (pre ++ w ++ concat (u32_bytes <$> fds) ++ rest) (len pre) (seqZ k (len fds)) owned
  = (owned ++ fds, Ok tt).
Proof.
  intros Hf. revert k owned w. induction Hf as [|fd fds Hfd Hf IH]; intros k owned w Hk Hw.
  { simpl. by rewrite app_nil_r. }
  rewrite len_cons. rewrite seqZ_cons by len_lia. rewrite fmap_cons. simpl.
  unfold RawFd_size. rewrite read_u32_skip by lia. rewrite read_u32_skip by lia.
  rewrite <- app_assoc, read_u32_hd by lia. rewrite wrap_small by lia.
  rewrite swrap_small by (simpl; lia). rewrite bool_decide_eq_false_2 by lia.
  replace (Z.pred (1 + len fds)) with (len fds) by lia.
  rewrite (app_assoc w). rewrite IH; [by rewrite <- app_assoc|lia|len_lia].
Qed.

Lemma round8_mod v : 0 ≤ v → len (zeros (round8 v - v)) = round8 v - v.
Proof. intros. pose proof (round8_bounds v). by rewrite len_zeros by lia. Qed.

(** One well-formed record is consumed whole and yields its descriptors. *)
Lemma parse_records_step fuel r pre rest owned :
  record_ok r → len (pre ++ record_bytes r ++ rest) ≤ isize_max →
  parse_records (S fuel) (pre ++ record_bytes r ++ rest) 16 (len pre) owned
  = parse_records fuel (pre ++ record_bytes r ++ rest) 16 (len (pre ++ record_bytes r))
      (owned ++ record_fds r).
Proof.
  intros Hr Hmax. set (p := record_payload r). pose proof (len_nonneg p).
  pose proof (round8_bounds (16 + len p)) as [Hrd _].
  pose proof (record_bytes_len r) as Hlen. fold p in Hlen.
  assert (len (pre ++ record_bytes r ++ rest) = len pre + round8 (16 + len p) + len rest) as Hv
    by (rewrite !len_app; lia).
  pose proof (len_nonneg pre). pose proof (len_nonneg rest). unfold isize_max in *.
  set (h := mkCmsghdr (16 + len p) (record_header r).1 (record_header r).2).
  assert (read_cmsghdr (E:=FrameError) (pre ++ record_bytes r ++ rest) (len pre) = Ok h) as Hread.
  { unfold record_bytes. rewrite <- !app_assoc. apply read_cmsghdr_hd; simpl; [fold p; lia|..];
      destruct r; simpl in *; tauto || done. }
  simpl. rewrite Hread. cbv zeta. rewrite (bool_decide_eq_true_2 (len pre < _)) by lia.
  unfold cmsghdr_size. rewrite (bool_decide_eq_false_2 (_ - _ < 16)) by lia.
  replace (if bool_decide (cmsg_level h = SOL_SOCKET ∧ cmsg_type h = SCM_RIGHTS) then _ else _)
    with (owned ++ record_fds r, Ok (E:=FrameError) tt).
  - cbn [cmsg_len h]. rewrite bool_decide_eq_false_2 by lia.
    rewrite cmsg_align_Some by lia. simpl. unfold checked_add.
    rewrite bool_decide_eq_true_2 by lia. rewrite bool_decide_eq_false_2 by lia.
    by rewrite len_app, Hlen.
  - symmetry. destruct r as [fds|l t pl]; simpl in *.
    + unfold adopt_rights.
      rewrite rights_data_bounds by (unfold isize_max; lia). rewrite Hv. simpl.
      assert (len p = 4 * len fds) as Hp by apply len_words.
      replace (Z.max 0 _) with (len fds * 4) by lia. unfold RawFd_size.
      rewrite Z.div_mul, Z.mod_mul by lia.
      unfold record_bytes. fold p h. rewrite <- !app_assoc, (app_assoc pre).
      replace (len pre + 16) with (len (pre ++ cmsghdr_bytes h))
        by (rewrite len_app, cmsghdr_bytes_len; done).
      pose proof (adopt_fds_words (pre ++ cmsghdr_bytes h)
        (zeros (round8 (16 + len p) - (16 + len p)) ++ rest) fds 0 owned []) as Ha.
      simpl app in Ha. subst p. simpl record_payload in *. subst h. cbn [record_header fst snd] in *. by rewrite Ha.
    + rewrite bool_decide_eq_false_2 by tauto. by rewrite app_nil_r.
Qed.

Lemma parse_records_done fuel control offset owned :
  len control ≤ offset → parse_records (S fuel) control 16 offset owned = (owned, Ok tt).
Proof. intros. simpl. by rewrite bool_decide_eq_false_2 by lia. Qed.

Lemma parse_records_all rs pre owned fuel :
  Forall record_ok rs → len (pre ++ concat (record_bytes <$> rs)) ≤ isize_max →
  (length rs < fuel)%nat →
  parse_records fuel (pre ++ concat (record_bytes <$> rs)) 16 (len pre) owned
  = (owned ++ concat (record_fds <$> rs), Ok tt).
Proof.
  intros Hrs. revert pre owned fuel. induction Hrs as [|r rs Hr Hrs IH]; intros pre owned fuel Hl Hf.
  { destruct fuel; [simpl in Hf; lia|]. rewrite app_nil_r, parse_records_done by done.
    by rewrite app_nil_r. }
  destruct fuel as [|fuel]; [simpl in Hf; lia|]. rewrite !fmap_cons in *. simpl concat in *.
  rewrite parse_records_step by done. rewrite (app_assoc pre) in *.
  rewrite IH; [by rewrite <- app_assoc|done|simpl in Hf; lia].
Qed.

Lemma records_length rs : (length rs ≤ length (concat (record_bytes <$> rs)))%nat.
Proof.
  induction rs as [|r rs IH]; [done|]. rewrite fmap_cons. cbn [concat length]. rewrite length_app.
  pose proof (record_bytes_len r) as Hr. pose proof (round8_bounds (16 + len (record_payload r))).
  pose proof (len_nonneg (record_payload r)). unfold len in *. lia.
Qed.

Lemma parse_control_records rs flags :
  Forall record_ok rs → len (concat (record_bytes <$> rs)) ≤ isize_max →
  parse_control (concat (record_bytes <$> rs)) flags
  = (concat (record_fds <$> rs),
     if bool_decide (Z.land flags MSG_CTRUNC ≠ 0) then Err TruncatedControl
     else Ok (concat (record_fds <$> rs))).
Proof.
  intros Hrs Hl. unfold parse_control. rewrite cmsg_align_header.
  pose proof (records_length rs).
  pose proof (parse_records_all rs [] [] (S (length (concat (record_bytes <$> rs)))) Hrs Hl) as Hp.
  simpl app in Hp. change (len []) with 0 in Hp. rewrite Hp by lia. by case_bool_decide.
Qed.

(** ** The sender's buffer is one rights record *)
Lemma write_fds_writes w (fds : list Z) k :
  0 ≤ k → len w = 16 + 4 * k → writes w (write_fds k fds) (concat (u32_bytes <$> fds)) tt.
Proof.
  revert w k. induction fds as [|fd fds IH]; intros w k Hk Hw; [apply writes_ret|].
  rewrite fmap_cons. cbn [concat write_fds]. eapply writes_bind.
  - apply writes_put. change data_offset with 16. unfold RawFd_size. lia.
  - apply IH; [lia|]. len_lia.
Qed.

Lemma build_control_record fds :
  4 * len fds + 31 < 2 ^ 64 → build_control (Some fds) = Ok (record_bytes (Rights fds)).
Proof.
  intros Hl. pose proof (len_nonneg fds).
  set (p := concat (u32_bytes <$> fds)). assert (len p = 4 * len fds) as Hp by apply len_words.
  pose proof (round8_bounds (16 + len p)) as [Hrd Hrm].
  unfold build_control, control_len. change data_offset with 16. unfold RawFd_size.
  replace (16 + len fds * 4) with (16 + len p) by lia.
  rewrite align_round8 by lia. unfold div_ceil.
  replace ((round8 (16 + len p) + 8 - 1) / 8 * 8) with (round8 (16 + len p)).
  2: { apply Z.div_exact in Hrm; [|lia]. rewrite Hrm at 2.
       replace (8 * _ + 8 - 1) with (7 + round8 (16 + len p) / 8 * 8) by lia.
       rewrite Z.div_add, Z.div_small by lia. lia. }
  set (h := mkCmsghdr (16 + len p) SOL_SOCKET SCM_RIGHTS).
  assert (writes [] (put_at (E:=FrameError) 0 (cmsghdr_bytes h) ;; write_fds 0 fds)
    (cmsghdr_bytes h ++ p) tt) as Hw.
  { eapply writes_bind; [by apply writes_put|]. apply write_fds_writes; [done|].
    simpl. by rewrite cmsghdr_bytes_len. }
  cbv zeta.
  rewrite (writes_run _ _ _ _ Hw) by (rewrite len_app, cmsghdr_bytes_len, len_zeros; lia).
  assert (drop (length (cmsghdr_bytes h ++ p)) (zeros (round8 (16 + len p)))
    = zeros (round8 (16 + len p) - (16 + len p))) as ->.
  { unfold zeros. rewrite drop_replicate. f_equal.
    pose proof (cmsghdr_bytes_len h). rewrite length_app. unfold len in *. lia. }
  rewrite slice_all; [by rewrite <- app_assoc|done|].
  rewrite !len_app, cmsghdr_bytes_len, len_zeros; lia.
Qed.

(** ** Properties *)

(** C23: Reading ancillary data is memory safe. Whatever bytes and flags the
    kernel leaves in the control buffer, [parse_control] reads only inside
    the visible part and its record loop ends; it returns or drops only
    non-negative descriptors, no more than the buffer has room for, and on
    success returns exactly the ones it adopted. *)
Theorem parse_control_memory_safe (control : list byte) (flags : Z) :
  len control ≤ isize_max →
  let '(owned, r) := parse_control control flags in
  total r ∧ Forall (λ fd, 0 ≤ fd) owned ∧ len owned * 4 ≤ len control ∧
  (∀ fds, r = Ok fds → fds = owned).
Proof.
  intros Hl. unfold parse_control. rewrite cmsg_align_header.
  pose proof (parse_records_safe (S (length control)) control 0 []) as Hs.
  destruct (parse_records _ _ _ _ _) as [owned r].
  destruct Hs as (Ht & Hf & Hn); [done|unfold len; lia|done|done|change (len (@nil Z)) with 0; len_lia|].
  destruct r as [[]|e|]; [case_bool_decide|..];
    (split_and!; [done|done|done|intros fds [=]; congruence]).
Qed.

Lemma parse_control_memory_safe_witness :
  let control := u64_bytes 4096 ++ u32_bytes 1 ++ u32_bytes 1 ++ u32_bytes 5 ++ u32_bytes 6 in
  parse_control control 0 = ([5; 6], Err MalformedControl) ∧
  let '(owned, r) := parse_control control 0 in
  total r ∧ Forall (λ fd, 0 ≤ fd) owned ∧ len owned * 4 ≤ len control ∧
  (∀ fds, r = Ok fds → fds = owned).
Proof.
  intros control. split; [by vm_compute|]. apply (parse_control_memory_safe control 0). by vm_compute.
Defined.

(** Descriptors cross the socket. The control buffer the sender builds
    for a list of descriptors parses back to that list; and in any sequence
    of well-formed records the receiver collects the descriptors of the
    rights records in order and skips the rest, unless the kernel flagged
    the buffer as truncated. *)
Lemma control_roundtrip (fds : list Z) (before after : list ControlRecord) (flags : Z) :
  Forall (λ fd, 0 ≤ fd < 2 ^ 31) fds → Forall record_ok before → Forall record_ok after →
  len (concat (record_bytes <$> (before ++ Rights fds :: after))) ≤ isize_max →
  ∃ control, build_control (Some fds) = Ok control ∧
    (parse_control
       (concat (record_bytes <$> before) ++ control ++ concat (record_bytes <$> after)) flags).2
    = if bool_decide (Z.land flags MSG_CTRUNC ≠ 0) then Err TruncatedControl
      else Ok (concat (record_fds <$> before) ++ fds ++ concat (record_fds <$> after)).
Proof.
  intros Hf Hb Ha Hl. exists (record_bytes (Rights fds)).
  assert (concat (record_bytes <$> before) ++ record_bytes (Rights fds) ++
    concat (record_bytes <$> after) = concat (record_bytes <$> (before ++ Rights fds :: after))) as ->.
  { by rewrite fmap_app, fmap_cons, concat_app. }
  split.
  - apply build_control_record. revert Hl. rewrite fmap_app, fmap_cons, concat_app.
    cbn [concat]. rewrite !len_app, record_bytes_len. cbn [record_payload]. rewrite len_words.
    pose proof (round8_bounds (16 + 4 * len fds)). unfold isize_max. len_facts. lia.
  - rewrite parse_control_records; [|apply Forall_app; split; [done|by constructor]|done].
    simpl. by rewrite fmap_app, fmap_cons, concat_app.
Qed.

Lemma control_roundtrip_witness :
  ∃ control, build_control (Some [3; 4; 5]) = Ok control ∧
    (parse_control (record_bytes (OtherRecord 1 2 (u32_bytes 7)) ++ control ++ []) 0).2
    = Ok [3; 4; 5].
Proof.
  destruct (control_roundtrip [3; 4; 5] [OtherRecord 1 2 (u32_bytes 7)] [] 0) as (c & H1 & H2).
  - repeat constructor; by vm_compute.
  - repeat constructor; vm_compute; naive_solver.
  - constructor.
  - by vm_compute.
  - exists c. split; [done|]. simpl in H2. rewrite app_nil_r in H2. done.
Defined.
