(* ===== verification/FrameRecv.v ===== *)
(** * Receiving frames

    Models [FrameReceiver] and [recv_once] of
    [protocol/src/native/frame/recv.rs]. The socket is a parameter: a state
    [K] and a function [recvmsg] that takes the sizes of the data and the
    control buffer and returns what one [recvmsg(2)] call does. *)

From S2P Require Import Prelude FrameHeader FrameControl.

(** One [recvmsg] call: an error, or the data bytes, the control bytes
    ([msg_controllen] of them) and [msg_flags]. *)
Inductive RawRecv :=
| RawErr (e : IoError)
| RawOk (data control : list byte) (flags : Z).

Inductive ReceiveOutcome :=
| Frame (f : ReceivedFrame)
| ReceiveWouldBlock
| Closed.

Record FdBatch := mkFdBatch { at_pos : Z; batch_fds : list Z }.

Inductive RecvState :=
| StHeader
| StPayload (header : Header) (frame_start frame_end : Z)
| StEof
| StFailed.

Record FrameReceiver := mkReceiver {
  limits : FrameLimits;
  state : RecvState;
  bytes : list byte;
  byte_base : Z;
  stream_end : Z;
  fd_batches : list FdBatch;
}.

Definition FrameReceiver_new (l : FrameLimits) : FrameReceiver :=
  mkReceiver l StHeader [] 0 0 [].

Definition buffered_bytes (r : FrameReceiver) : Z := len (bytes r).

Definition sum_fds (bs : list FdBatch) : Z := foldr (λ b n, len (batch_fds b) + n) 0 bs.
Definition pending_fds (r : FrameReceiver) : Z := sum_fds (fd_batches r).

Definition clear (r : FrameReceiver) : FrameReceiver :=
  let terminal :=
    match state r with StFailed => Some StFailed | StEof => Some StEof | _ => None end in
  mkReceiver (limits r) (default StHeader terminal) [] (stream_end r) (stream_end r) [].

(** [fail] leaves the state the error is returned in. *)
Definition fail_state (r : FrameReceiver) : FrameReceiver :=
  mkReceiver (limits r) StFailed [] (byte_base r) (stream_end r) [].

(** A part of the body of [receive]: the receiver, and [Some] result when
    the function returns there. *)
Definition Step : Type := FrameReceiver * option (FrameRes ReceiveOutcome).
Definition fail (r : FrameReceiver) (e : FrameError) : Step := (fail_state r, Some (Err e)).

Definition with_state (r : FrameReceiver) (s : RecvState) : FrameReceiver :=
  mkReceiver (limits r) s (bytes r) (byte_base r) (stream_end r) (fd_batches r).

(** First part of the loop: decode a header once 16 bytes are there. *)
Definition header_step (r : FrameReceiver) : Step :=
  match state r with
  | StHeader =>
      if bool_decide (HEADER_LEN ≤ len (bytes r)) then
        match Header_decode (take (Z.to_nat HEADER_LEN) (bytes r)) with
        | Ok header =>
            let payload := payload_len header in
            let fds := n_fds header in
            if bool_decide (payload > payload_limit (limits r))
            then fail r (PayloadTooLarge payload (payload_limit (limits r))) else
            if bool_decide (fds > max_frame_fds (limits r))
            then fail r (TooManyFrameFds fds (max_frame_fds (limits r))) else
            let frame_start := byte_base r in
            match checked_add 64 HEADER_LEN payload with
            | None => (r, Some (Err (PayloadTooLarge payload (max_payload (limits r)))))
            | Some frame_len =>
                match checked_add 64 frame_start frame_len with
                | None => fail r (TruncatedFrame (len (bytes r)) frame_len)
                | Some frame_end => (with_state r (StPayload header frame_start frame_end), None)
                end
            end
        | Err e => (r, Some (Err e))
        | Panic => (r, Some Panic)
        end
      else (r, None)
  | _ => (r, None)
  end.

Definition eligible (frame_end : Z) (bs : list FdBatch) : Z :=
  sum_fds (filter (λ b, at_pos b < frame_end) bs).

(** The loop that moves [declared] descriptors out of the batches. A batch
    with descriptors left means the inner loop stopped at [declared]. *)
Fixpoint drain_fds (bs : list FdBatch) (declared frame_end : Z) (fds : list Z) :
    list FdBatch * FrameRes (list Z) :=
  if bool_decide (len fds < declared) then
    match bs with
    | [] => ([], Panic)
    | batch :: bs' =>
        if bool_decide (frame_end ≤ at_pos batch) then (bs, Panic) else
        let k := Z.to_nat (declared - len fds) in
        let fds' := fds ++ take k (batch_fds batch) in
        match drop k (batch_fds batch) with
        | [] => drain_fds bs' declared frame_end fds'
        | rest => (mkFdBatch (at_pos batch) rest :: bs', Ok fds')
        end
    end
  else (bs, Ok fds).

(** Second part: return the frame once its bytes are there. *)
Definition payload_step (r : FrameReceiver) : Step :=
  match state r with
  | StPayload header frame_start frame_end =>
      let needed := frame_end - frame_start in
      if bool_decide (needed ≤ len (bytes r)) then
        let available := eligible frame_end (fd_batches r) in
        let declared := n_fds header in
        if bool_decide (available < declared)
        then fail r (MissingFds declared available) else
        match
          (b1 ← slice_from (bytes r) HEADER_LEN;
           payload ← slice b1 0 (payload_len header);
           b2 ← slice_from b1 (payload_len header);
           Ok (payload, b2)),
          drain_fds (fd_batches r) declared frame_end []
        with
        | Ok (payload, b2), (batches, Ok fds) =>
            (mkReceiver (limits r) StHeader b2 frame_end (stream_end r) batches,
             Some (Ok (Frame (mkReceivedFrame header payload (Some <$> fds)))))
        | Err e, _ => (r, Some (Err e))
        | _, (_, Err e) => (r, Some (Err e))
        | _, _ => (r, Some Panic)
        end
      else (r, None)
  | _ => (r, None)
  end.

(** Size of the next read. *)
Definition next_chunk_len (r : FrameReceiver) : Z :=
  let max_buffer := saturating_add HEADER_LEN (max_payload (limits r)) in
  let room := saturating_sub max_buffer (len (bytes r)) in
  Z.min (Z.max (recv_chunk_bytes (limits r)) 1) (Z.max room 1).

(** The read returned no bytes: end of stream. The [debug_assert!] is on. *)
Definition eof_step (r : FrameReceiver) (fds : list Z) : Step :=
  if bool_decide (fds ≠ []) then (r, Some Panic) else
  if bool_decide (bytes r ≠ []) then
    let needed := match state r with StPayload _ s e => e - s | _ => HEADER_LEN end in
    fail r (TruncatedFrame (len (bytes r)) needed)
  else if bool_decide (pending_fds r ≠ 0)
  then fail r (UnexpectedFdsAtEof (pending_fds r))
  else (with_state r StEof, Some (Ok Closed)).

(** The read returned bytes: append them. *)
Definition append_step (r : FrameReceiver) (data : list byte) (fds : list Z) : Step :=
  let pending := pending_fds r in
  if bool_decide (saturating_add pending (len fds) > max_pending_fds (limits r))
  then fail r (TooManyPendingFds (pending + len fds) (max_pending_fds (limits r))) else
  match checked_add 64 (stream_end r) (len data) with
  | None => fail r (Io (OtherIo 0))
  | Some end_ =>
      (mkReceiver (limits r) (state r) (bytes r ++ data) (byte_base r) end_
         (match fds with [] => fd_batches r | _ => fd_batches r ++ [mkFdBatch (stream_end r) fds] end),
       None)
  end.

(** Allocating more than [isize::MAX] bytes panics. *)
Definition alloc (n : Z) : FrameRes unit :=
  if bool_decide (n > isize_max) then Panic else Ok tt.

Definition control_buffer_len (control_fds : Z) : FrameRes Z :=
  data_offset ← ok_or (cmsg_align cmsghdr_size) MalformedControl;
  n ← ok_or (checked_add 64 data_offset (saturating_mul control_fds RawFd_size)) MalformedControl;
  control_len ← ok_or (cmsg_align n) MalformedControl;
  Ok (div_ceil control_len 8 * 8).

Section socket.
Context {K : Type} (recvmsg : K → Z → Z → K * RawRecv).

(** Retry while interrupted. *)
Fixpoint recvmsg_loop (fuel : nat) (k : K) (iov_len controllen : Z) :
    K * FrameRes (list byte * list byte * Z) :=
  match fuel with
  | O => (k, Panic)
  | S fuel =>
      match recvmsg k iov_len controllen with
      | (k', RawErr Interrupted) => recvmsg_loop fuel k' iov_len controllen
      | (k', RawErr e) => (k', Err (Io e))
      | (k', RawOk data control flags) => (k', Ok (data, control, flags))
      end
  end.

(** The buffers hold [chunk_len] and [buffer] bytes, whatever is reported. *)
Definition recv_once (fuel : nat) (k : K) (chunk_len control_fds : Z) :
    K * FrameRes (list byte * list Z) :=
  match (_ ← alloc chunk_len;
         buffer ← control_buffer_len control_fds;
         _ ← alloc buffer;
         Ok buffer) with
  | Ok buffer =>
      match recvmsg_loop fuel k chunk_len buffer with
      | (k', Ok (data, control, flags)) =>
          (k', owned ← (parse_control (take (Z.to_nat buffer) control) flags).2;
               Ok (take (Z.to_nat chunk_len) data, owned))
      | (k', Err e) => (k', Err e)
      | (k', Panic) => (k', Panic)
      end
  | Err e => (k, Err e)
  | Panic => (k, Panic)
  end.

Fixpoint receive_loop (fuel : nat) (k : K) (r : FrameReceiver) :
    K * FrameReceiver * FrameRes ReceiveOutcome :=
  match fuel with
  | O => (k, r, Panic)
  | S fuel =>
      match header_step r with
      | (r, Some res) => (k, r, res)
      | (r, None) =>
          match payload_step r with
          | (r, Some res) => (k, r, res)
          | (r, None) =>
              match recv_once (S fuel) k (next_chunk_len r) (recv_control_fds (limits r)) with
              | (k, Ok (data, fds)) =>
                  match (match data with [] => eof_step r fds | _ => append_step r data fds end) with
                  | (r, Some res) => (k, r, res)
                  | (r, None) => receive_loop fuel k r
                  end
              | (k, Err (Io WouldBlock)) => (k, r, Ok ReceiveWouldBlock)
              | (k, Err e) => (k, fail_state r, Err e)
              | (k, Panic) => (k, r, Panic)
              end
          end
      end
  end.

Definition receive (fuel : nat) (k : K) (r : FrameReceiver) :
    K * FrameReceiver * FrameRes ReceiveOutcome :=
  match state r with
  | StFailed => (k, r, Err Poisoned)
  | StEof => (k, r, Ok Closed)
  | _ => receive_loop fuel k r
  end.
End socket.
