(* ===== verification/FrameRecvLaws.v ===== *)
(** * Laws of the frame receiver

    First the invariant of [FrameReceiver] and that every operation keeps
    it, for any socket; then, for a socket that delivers what was sent in
    order, that frames come out as they went in. *)

From S2P Require Import Prelude FrameHeader FrameControl FrameRecv.

(** ** Descriptor batches *)

(** Descriptors in arrival order, each with the stream position its read
    started at. *)
Definition flat (bs : list FdBatch) : list (Z * Z) :=
  concat ((λ b, (at_pos b,.) <$> batch_fds b) <$> bs).

(** Non-empty batches at strictly increasing positions of [lo, hi). *)
Fixpoint ascending (lo hi : Z) (bs : list FdBatch) : Prop :=
  match bs with
  | [] => True
  | b :: bs => lo ≤ at_pos b < hi ∧ batch_fds b ≠ [] ∧ ascending (at_pos b + 1) hi bs
  end.

Lemma flat_cons b bs : flat (b :: bs) = ((at_pos b,.) <$> batch_fds b) ++ flat bs.
Proof. done. Qed.

Lemma flat_app bs cs : flat (bs ++ cs) = flat bs ++ flat cs.
Proof. unfold flat. by rewrite fmap_app, concat_app. Qed.

Lemma sum_fds_flat bs : sum_fds bs = len (flat bs).
Proof.
  induction bs as [|b bs IH]; [done|]. rewrite flat_cons, len_app, len_map. simpl. by rewrite IH.
Qed.

Lemma sum_fds_nonneg bs : 0 ≤ sum_fds bs.
Proof. rewrite sum_fds_flat. apply len_nonneg. Qed.

Lemma ascending_weaken lo lo' hi hi' bs :
  lo' ≤ lo → hi ≤ hi' → ascending lo hi bs → ascending lo' hi' bs.
Proof.
  intros Hlo Hhi. revert lo lo' Hlo. induction bs as [|b bs IH]; intros lo lo' Hlo; simpl; [done|].
  intros (? & ? & ?). split_and!; [lia|lia|done|by eapply IH].
Qed.

Lemma ascending_snoc lo hi hi' bs fds :
  lo ≤ hi → hi < hi' → fds ≠ [] → ascending lo hi bs → ascending lo hi' (bs ++ [mkFdBatch hi fds]).
Proof.
  intros Hlo Hhi Hf. revert lo Hlo. induction bs as [|b bs IH]; intros lo Hlo; simpl.
  - intros _. split_and!; [lia|lia|done|done].
  - intros (? & ? & Hb). split_and!; [lia|lia|done|]. apply IH; [lia|done].
Qed.

Lemma ascending_no_fds lo hi bs : ascending lo hi bs → sum_fds bs = 0 → bs = [].
Proof.
  destruct bs as [|b bs]; [done|]. simpl. intros (_ & Hne & _) H0.
  pose proof (sum_fds_nonneg bs). destruct (batch_fds b); [done|]. rewrite len_cons in H0.
  len_facts. lia.
Qed.

Lemma eligible_cons e b bs :
  eligible e (b :: bs) = (if bool_decide (at_pos b < e) then len (batch_fds b) else 0) + eligible e bs.
Proof.
  unfold eligible. rewrite filter_cons. case_decide; case_bool_decide; try done; lia.
Qed.

Lemma eligible_none e lo hi bs : ascending lo hi bs → e ≤ lo → eligible e bs = 0.
Proof.
  revert lo. induction bs as [|b bs IH]; intros lo; [done|]. simpl. intros (? & _ & Hb) He.
  rewrite eligible_cons, bool_decide_eq_false_2 by lia. rewrite (IH (at_pos b + 1)); [done|done|lia].
Qed.

Lemma eligible_le e bs : eligible e bs ≤ sum_fds bs.
Proof.
  induction bs as [|b bs IH]; [done|]. rewrite eligible_cons. simpl.
  case_bool_decide; len_facts; lia.
Qed.

(** Enough eligible descriptors: the drain loop takes the first [n] of
    them, in order, and never reaches its [expect] or [unreachable!]. *)
Lemma drain_fds_spec bs lo hi e n acc :
  ascending lo hi bs → 0 ≤ n ≤ eligible e bs →
  ∃ bs', drain_fds bs (len acc + n) e acc = (bs', Ok (acc ++ (take (Z.to_nat n) (flat bs)).*2)) ∧
    flat bs' = drop (Z.to_nat n) (flat bs) ∧ ascending lo hi bs'.
Proof.
  revert lo n acc. induction bs as [|b bs IH]; intros lo n acc Ha Hn.
  { exists []. unfold eligible in Hn. simpl in Hn. assert (n = 0) as -> by lia. simpl.
    rewrite bool_decide_eq_false_2 by lia. by rewrite app_nil_r. }
  destruct Ha as (Hlo & Hne & Ha). rewrite eligible_cons in Hn. simpl drain_fds.
  pose proof (len_nonneg (batch_fds b)) as Hb.
  destruct (decide (n = 0)) as [->|Hn0].
  { exists (b :: bs). rewrite bool_decide_eq_false_2 by lia. simpl. rewrite app_nil_r. done. }
  rewrite bool_decide_eq_true_2 by lia.
  destruct (decide (at_pos b < e)) as [He|He].
  2: { rewrite bool_decide_eq_false_2 in Hn by done.
       rewrite (eligible_none e (at_pos b + 1) hi) in Hn; [lia|done|lia]. }
  rewrite bool_decide_eq_true_2 in Hn by done. rewrite bool_decide_eq_false_2 by lia.
  replace (len acc + n - len acc) with n by lia. rewrite flat_cons.
  destruct (decide (len (batch_fds b) ≤ n)) as [Hle|Hgt].
  - rewrite drop_ge, take_ge by (unfold len in *; lia).
    destruct (IH (at_pos b + 1) (n - len (batch_fds b)) (acc ++ batch_fds b)) as (bs' & Hd & Hf & Hs);
      [done|lia|].
    exists bs'. rewrite len_app in Hd.
    replace (len acc + len (batch_fds b) + (n - len (batch_fds b))) with (len acc + n) in Hd by lia.
    rewrite Hd. rewrite take_app_ge, drop_app_ge by (rewrite length_fmap; unfold len in *; lia).
    rewrite length_fmap.
    replace (Z.to_nat n - length (batch_fds b))%nat with (Z.to_nat (n - len (batch_fds b)))
      by (unfold len; lia).
    split_and!; [|done|eapply ascending_weaken; [| |done]; lia].
    do 2 f_equal. rewrite fmap_app, app_assoc. do 2 f_equal.
    rewrite <- list_fmap_compose. symmetry. apply list_fmap_id.
  - set (k := Z.to_nat n). assert (k < length (batch_fds b))%nat by (unfold k, len in *; lia).
    destruct (drop k (batch_fds b)) as [|x rest] eqn:Hd.
    { apply (f_equal length) in Hd. rewrite length_drop in Hd. simpl in Hd. lia. }
    exists (mkFdBatch (at_pos b) (x :: rest) :: bs).
    rewrite take_app_le, drop_app_le by (rewrite length_fmap; lia).
    split_and!; [|rewrite flat_cons; simpl; by rewrite <- fmap_drop, Hd|simpl; done].
    do 3 f_equal. rewrite <- fmap_take, <- list_fmap_compose. symmetry. apply list_fmap_id.
Qed.

(** ** The invariant *)

(** Buffers the receiver allocates and counts stay below [isize::MAX]. *)
Definition limits_ok (l : FrameLimits) : Prop :=
  limits_typed l ∧ recv_chunk_bytes l ≤ isize_max ∧ recv_control_fds l ≤ 2 ^ 60 ∧
  max_pending_fds l ≤ isize_max.

Definition max_buffer (l : FrameLimits) : Z := saturating_add HEADER_LEN (max_payload l).

Definition live (r : FrameReceiver) : Prop :=
  0 ≤ byte_base r ∧ stream_end r = byte_base r + len (bytes r) ∧ stream_end r < 2 ^ 64 ∧
  len (bytes r) ≤ max_buffer (limits r) ∧
  ascending 0 (stream_end r) (fd_batches r) ∧ pending_fds r ≤ max_pending_fds (limits r).

Definition frame_len (h : Header) : Z := HEADER_LEN + payload_len h.

Definition accepted (l : FrameLimits) (h : Header) : Prop :=
  header_typed h ∧ payload_len h ≤ payload_limit l ∧ n_fds h ≤ max_frame_fds l.

Definition recv_inv (r : FrameReceiver) : Prop :=
  limits_ok (limits r) ∧
  match state r with
  | StFailed | StEof => bytes r = [] ∧ fd_batches r = []
  | StHeader => live r
  | StPayload h s e =>
      live r ∧ s = byte_base r ∧ e = s + frame_len h ∧ e < 2 ^ 64 ∧
      Header_decode (E:=FrameError) (take 16 (bytes r)) = Ok h ∧ HEADER_LEN ≤ len (bytes r) ∧
      accepted (limits r) h
  end.

Lemma fail_inv r : recv_inv r → recv_inv (fail_state r).
Proof. intros [Hl _]. done. Qed.

Lemma frame_len_bounds l h :
  limits_ok l → accepted l h →
  16 ≤ frame_len h ≤ max_buffer l ∧ frame_len h ≤ 16 + WIRE_MAX_PAYLOAD.
Proof.
  intros [(Hp & _) _] ((_ & _ & Hr & _) & Hp' & _).
  pose proof (payload_limit_le l) as [Hw ?]. unfold WIRE_MAX_PAYLOAD in Hw.
  unfold frame_len, max_buffer, saturating_add, usize_max, HEADER_LEN, u64_range, u32_range in *.
  change (16 + WIRE_MAX_PAYLOAD) with 16777231. lia.
Qed.

(** What the two decoding steps of the loop do. *)
Lemma header_step_spec r :
  recv_inv r →
  match header_step r with
  | (r', Some res) => r' = fail_state r ∧ ∃ e, res = Err e
  | (r', None) =>
      recv_inv r' ∧ (state r' = StHeader → len (bytes r') < HEADER_LEN) ∧
      limits r' = limits r ∧ bytes r' = bytes r ∧ byte_base r' = byte_base r ∧
      fd_batches r' = fd_batches r ∧ stream_end r' = stream_end r ∧
      (state r' = state r ∨ ∃ h s e, state r' = StPayload h s e)
  end.
Proof.
  intros Hinv. pose proof Hinv as [Hl Hst]. unfold header_step.
  destruct (state r) eqn:Hs; try (split_and!; try done; [by rewrite Hs|by left]).
  case_bool_decide as H16; [|split_and!; try done; [intros _; lia|by left]].
  set (raw := take _ _). assert (len raw = 16) as Hraw by (apply (len_take 16); unfold HEADER_LEN in *; lia).
  destruct (four_words raw Hraw) as (a & b & c & d & Hw & _).
  destruct (Header_decode raw) as [h|e|] eqn:Hd.
  2,3: rewrite Hw, <- (app_nil_r (u32_bytes d)) in Hd; unfold Header_decode in Hd;
    revert Hd; repeat slice_step; done.
  destruct (header_decode_typed _ _ Hd) as [Ht Hwp]. cbv zeta.
  case_bool_decide; [split; [done|eauto]|]. case_bool_decide; [split; [done|eauto]|].
  assert (accepted (limits r) h) as Hacc by (split_and!; done || lia).
  destruct (frame_len_bounds _ _ Hl Hacc). unfold checked_add, frame_len, WIRE_MAX_PAYLOAD in *.
  rewrite bool_decide_eq_true_2 by lia. case_bool_decide; [|split; [done|eauto]].
  split; [|split_and!; try done; right; eauto].
  split; [done|]. cbn [state with_state]. split_and!; try done; lia.
Qed.

(** A complete frame is cut from the front of the buffer, with the first
    descriptors that arrived. *)
Definition frame_out (r : FrameReceiver) (h : Header) : ReceivedFrame :=
  mkReceivedFrame h (take (Z.to_nat (payload_len h)) (drop 16 (bytes r)))
    (Some <$> (take (Z.to_nat (n_fds h)) (flat (fd_batches r))).*2).

Definition frame_taken (r : FrameReceiver) (h : Header) (bs : list FdBatch) : FrameReceiver :=
  mkReceiver (limits r) StHeader (drop (Z.to_nat (frame_len h)) (bytes r))
    (byte_base r + frame_len h) (stream_end r) bs.

Lemma payload_step_spec r :
  recv_inv r →
  match payload_step r with
  | (r', Some res) =>
      (∃ h s e, state r = StPayload h s e ∧ r' = fail_state r ∧ frame_len h ≤ len (bytes r) ∧
         eligible e (fd_batches r) < n_fds h ∧
         res = Err (MissingFds (n_fds h) (eligible e (fd_batches r)))) ∨
      (∃ h s e bs, state r = StPayload h s e ∧ frame_len h ≤ len (bytes r) ∧
         n_fds h ≤ eligible e (fd_batches r) ∧
         r' = frame_taken r h bs ∧ res = Ok (Frame (frame_out r h)) ∧
         flat bs = drop (Z.to_nat (n_fds h)) (flat (fd_batches r)) ∧ recv_inv r')
  | (r', None) =>
      r' = r ∧ match state r with StPayload h _ _ => len (bytes r) < frame_len h | _ => True end
  end.
Proof.
  intros Hinv. pose proof Hinv as [Hl Hst]. unfold payload_step.
  destruct (state r) as [|h s e| |] eqn:Hs; try done.
  destruct Hst as ((Hb0 & Hse & Hmax & Hbuf & Hasc & Hpend) & -> & He & Hemax & Hd & H16 & Hacc).
  pose proof (frame_len_bounds _ _ Hl Hacc) as [Hfl _].
  destruct Hacc as ((_ & _ & Hpr & _ & Hnr) & Hplim & Hnlim). unfold u32_range in *.
  replace (e - byte_base r) with (frame_len h) by lia.
  case_bool_decide as Hfull; [|split; [done|lia]].
  case_bool_decide as Hav; [cbv beta iota delta [fail]; left; eauto 10|].
  destruct (drain_fds_spec (fd_batches r) 0 (stream_end r) e (n_fds h) []) as (bs & Hdr & Hbs & Hba);
    [done|lia|].
  change (len [] + n_fds h) with (n_fds h) in Hdr. rewrite Hdr.
  unfold slice_from, frame_len, HEADER_LEN in *.
  rewrite slice_Ok by lia. res_cbn.
  replace (take (Z.to_nat (len (bytes r) - 16)) (drop (Z.to_nat 16) (bytes r))) with (drop 16 (bytes r)).
  2: { rewrite take_ge; [done|]. rewrite length_drop. unfold len. lia. }
  assert (len (drop 16 (bytes r)) = len (bytes r) - 16) as H1 by (apply (len_drop 16); lia).
  rewrite slice_Ok by lia. res_cbn. rewrite slice_Ok by lia. res_cbn.
  rewrite Z.sub_0_r, drop_0, drop_drop.
  rewrite (take_ge (drop (16 + _) _)) by (rewrite length_drop; unfold len in *; lia).
  right. exists h, (byte_base r), e, bs.
  replace (16 + Z.to_nat (payload_len h))%nat with (Z.to_nat (16 + payload_len h)) by lia.
  unfold frame_taken, frame_out, frame_len, HEADER_LEN. subst e.
  split_and!; try done; [lia|].
  assert (len (drop (Z.to_nat (16 + payload_len h)) (bytes r)) = len (bytes r) - (16 + payload_len h))
    as Hrest by (apply len_drop; lia).
  split; [done|]. cbn [state]. unfold live, pending_fds in *.
  cbn [byte_base stream_end bytes limits fd_batches state].
  split_and!; try done; try lia. rewrite sum_fds_flat, Hbs, len_drop; rewrite sum_fds_flat in *; [lia|].
  pose proof (eligible_le (byte_base r + (16 + payload_len h)) (fd_batches r)).
  rewrite sum_fds_flat in *. lia.
Qed.

Definition waiting (r : FrameReceiver) : Prop :=
  recv_inv r ∧
  match state r with
  | StHeader => len (bytes r) < HEADER_LEN
  | StPayload h _ _ => len (bytes r) < frame_len h
  | _ => False
  end.

(** While a frame is incomplete there is room for at least one byte, so the
    buffer never outgrows the header and the largest payload. *)
Lemma waiting_room r :
  waiting r → live r ∧ len (bytes r) < max_buffer (limits r) ∧ 1 ≤ next_chunk_len r ≤ isize_max ∧
    len (bytes r) + next_chunk_len r ≤ max_buffer (limits r).
Proof.
  intros [[Hl Hst] Hw].
  assert (live r ∧ len (bytes r) < max_buffer (limits r)) as [Hlive Hlt].
  { destruct (state r) as [|h s e| |] eqn:Hs; try done.
    - split; [done|]. destruct Hl as [(Hp & _) _]. unfold max_buffer, saturating_add, usize_max, u64_range, HEADER_LEN in *. lia.
    - destruct Hst as (? & _ & _ & _ & _ & _ & Hacc). split; [done|].
      pose proof (frame_len_bounds _ _ Hl Hacc). lia. }
  split_and!; [done|done|..].
  all: destruct Hl as ((_ & _ & _ & Hc & _) & Hc' & _).
  all: unfold next_chunk_len, saturating_sub, u64_range, isize_max in *; fold (max_buffer (limits r)); lia.
Qed.

Definition appended (r : FrameReceiver) (data : list byte) (fds : list Z) : FrameReceiver :=
  mkReceiver (limits r) (state r) (bytes r ++ data) (byte_base r) (stream_end r + len data)
    (match fds with [] => fd_batches r | _ => fd_batches r ++ [mkFdBatch (stream_end r) fds] end).

Lemma flat_snoc r fds :
  flat (match fds with [] => fd_batches r | _ => fd_batches r ++ [mkFdBatch (stream_end r) fds] end)
  = flat (fd_batches r) ++ ((stream_end r,.) <$> fds).
Proof.
  destruct fds as [|x fds]; [by rewrite app_nil_r|]. rewrite flat_app. f_equal.
  unfold flat. simpl. by rewrite app_nil_r.
Qed.

Lemma append_step_spec r data fds :
  waiting r → data ≠ [] → len data ≤ next_chunk_len r → len fds ≤ isize_max →
  match append_step r data fds with
  | (r', Some res) => r' = fail_state r ∧ ∃ e, res = Err e
  | (r', None) => r' = appended r data fds ∧ recv_inv r' ∧ state r' ≠ StEof ∧ state r' ≠ StFailed
  end.
Proof.
  intros Hw Hne Hlen Hfds. destruct (waiting_room r Hw) as (Hlive & Hlt & Hch & Hroom).
  destruct Hw as [[Hl Hst] Hw]. pose proof Hlive as (Hb0 & Hse & Hmax & Hbuf & Hasc & Hpend).
  unfold append_step. case_bool_decide as Hp; [split; [done|eauto]|].
  unfold checked_add. case_bool_decide as Hov; [|split; [done|eauto]].
  pose proof (len_nonneg fds). pose proof (sum_fds_nonneg (fd_batches r)).
  pose proof (len_nonneg (bytes r)).
  assert (1 ≤ len data) by (destruct data; [done|rewrite len_cons; len_facts; lia]).
  assert (live (appended r data fds)) as Hlive'.
  { unfold live, appended, pending_fds in *. cbn [byte_base stream_end bytes limits fd_batches state].
    rewrite len_app. split_and!; try lia.
    - destruct fds as [|x fds]; [eapply ascending_weaken; [| |done]; lia|].
      apply ascending_snoc; [lia|lia|done|done].
    - rewrite sum_fds_flat, flat_snoc, len_app, len_map, <- sum_fds_flat.
      destruct Hl as (_ & _ & _ & Hmp). unfold saturating_add, usize_max, isize_max in *. lia. }
  fold (appended r data fds). split; [done|]. split.
  - split; [done|]. cbn [state appended]. destruct (state r) as [|h s e| |]; try done.
    destruct Hst as (_ & -> & -> & ? & Hd & H16 & ?). unfold HEADER_LEN in *.
    split_and!; try done; cbn [bytes appended]; [|rewrite len_app; lia].
    rewrite take_app_le by (unfold len in *; lia). done.
  - cbn [state appended]. by destruct (state r).
Qed.

Lemma eof_step_spec r :
  waiting r →
  match eof_step r [] with
  | (r', Some (Ok Closed)) =>
      r' = with_state r StEof ∧ recv_inv r' ∧ bytes r = [] ∧ fd_batches r = []
  | (r', Some (Err e)) => r' = fail_state r
  | _ => False
  end.
Proof.
  intros Hw. destruct (waiting_room r Hw) as (Hlive & _). destruct Hw as [[Hl _] _].
  unfold eof_step. rewrite bool_decide_eq_false_2 by naive_solver.
  case_bool_decide as Hb; [done|]. case_bool_decide as Hp; [done|].
  destruct (bytes r) eqn:Hbs; [|naive_solver].
  destruct Hlive as (_ & _ & _ & _ & Hasc & _).
  assert (fd_batches r = []) as Hn by (eapply ascending_no_fds; [done|unfold pending_fds in *; lia]).
  split_and!; try done.
Qed.

(** ** Reading from the socket *)
Lemma control_buffer_len_ok c :
  0 ≤ c ≤ 2 ^ 60 →
  ∃ n, control_buffer_len c = Ok n ∧ 16 + 4 * c ≤ n ≤ isize_max ∧ n = round8 (16 + 4 * c).
Proof.
  intros Hc. pose proof (round8_bounds (16 + 4 * c)) as [Hb Hm]. exists (round8 (16 + 4 * c)).
  split; [|unfold isize_max; lia].
  unfold control_buffer_len. rewrite cmsg_align_header. simpl.
  unfold saturating_mul, usize_max, RawFd_size, checked_add.
  rewrite Z.min_r, bool_decide_eq_true_2 by lia. simpl.
  replace (16 + c * 4) with (16 + 4 * c) by lia. rewrite cmsg_align_Some by lia. simpl.
  f_equal. unfold div_ceil. apply Z.div_exact in Hm; [|lia]. rewrite Hm at 1.
  replace (8 * (round8 (16 + 4 * c) / 8) + 8 - 1) with (7 + round8 (16 + 4 * c) / 8 * 8) by lia.
  rewrite Z.div_add, Z.div_small by lia. lia.
Qed.

Lemma parse_control_ok control flags fds :
  len control ≤ isize_max → (parse_control control flags).2 = Ok fds → len fds * 4 ≤ len control.
Proof.
  intros Hl. unfold parse_control. rewrite cmsg_align_header.
  pose proof (parse_records_safe (S (length control)) control 0 []) as Hs.
  destruct (parse_records _ _ _ _ _) as [owned r].
  destruct Hs as (_ & _ & Hn); [done|unfold len; lia|done|done|change (len (@nil Z)) with 0; len_lia|].
  destruct r as [[]|e|]; [case_bool_decide|..]; simpl; try done. by intros [= <-].
Qed.

Lemma parse_control_total control flags :
  len control ≤ isize_max → total (parse_control control flags).2.
Proof.
  intros Hl. unfold parse_control. rewrite cmsg_align_header.
  pose proof (parse_records_safe (S (length control)) control 0 []) as Hs.
  destruct (parse_records _ _ _ _ _) as [owned r].
  destruct Hs as (Ht & _); [done|unfold len; lia|done|done|change (len (@nil Z)) with 0; len_lia|].
  destruct r as [[]|e|]; [case_bool_decide|..]; done.
Qed.

Lemma parse_control_nil flags fds : (parse_control [] flags).2 = Ok fds → fds = [].
Proof. unfold parse_control. simpl. case_bool_decide; simpl; [done|]. by intros [= <-]. Qed.

Lemma len_take_le {A} n (l : list A) : 0 ≤ n → len (take (Z.to_nat n) l) ≤ n.
Proof. intros. unfold len. rewrite length_take. lia. Qed.

(** What is relied on of any socket: finitely many signals interrupt its
    calls ([signals] bounds those still to come), and descriptors never come
    without data, as [unix(7)] has it for stream sockets. How much the peer
    sends, and for how long, is left open. *)
Class SocketLaws {K} (recvmsg : K → Z → Z → K * RawRecv) := {
  signals : K → nat;
  signals_interrupted k n c k' :
    recvmsg k n c = (k', RawErr Interrupted) → (signals k' < signals k)%nat;
  signals_left k n c : (signals (recvmsg k n c).1 ≤ signals k)%nat;
  eof_no_control k n c k' control flags :
    1 ≤ n → recvmsg k n c = (k', RawOk [] control flags) → control = [];
}.

(** The bytes that still fit into the buffer: what bounds the reads of one
    call, since an incomplete frame always leaves room. *)
Definition recv_room (r : FrameReceiver) : nat := Z.to_nat (max_buffer (limits r) - len (bytes r)).

Section any_socket.
Context {K : Type} (recvmsg : K → Z → Z → K * RawRecv) `{!SocketLaws recvmsg}.

Lemma recvmsg_loop_spec fuel k n c :
  (signals k < fuel)%nat →
  match recvmsg_loop recvmsg fuel k n c with
  | (k', Ok (data, control, flags)) =>
      (∃ k0, (signals k0 ≤ signals k)%nat ∧ recvmsg k0 n c = (k', RawOk data control flags))
  | (k', Err e) => True
  | (k', Panic) => False
  end.
Proof.
  revert k. induction fuel as [|fuel IH]; intros k Hf; simpl; [lia|].
  destruct (recvmsg k n c) as [k' [[| |code]|data control flags]] eqn:Hr.
  - apply signals_interrupted in Hr as Hd. specialize (IH k' ltac:(lia)).
    destruct (recvmsg_loop recvmsg fuel k' n c) as [k2 [[[data control] flags]|e|]]; try done.
    destruct IH as (k0 & ? & ?). exists k0. split; [lia|done].
  - done.
  - done.
  - exists k. split; [lia|done].
Qed.

Lemma recv_once_spec fuel k chunk ctl :
  (signals k < fuel)%nat → 1 ≤ chunk ≤ isize_max → 0 ≤ ctl ≤ 2 ^ 60 →
  match recv_once recvmsg fuel k chunk ctl with
  | (k', Ok (data, fds)) =>
      len data ≤ chunk ∧ len fds ≤ isize_max ∧ (data = [] → fds = []) ∧
      (signals k' ≤ signals k)%nat
  | (k', Err e) => True
  | (k', Panic) => False
  end.
Proof.
  intros Hf Hch Hctl. destruct (control_buffer_len_ok ctl Hctl) as (n & Hn & Hnb & _).
  unfold recv_once, alloc. rewrite bool_decide_eq_false_2 by lia. res_cbn. rewrite Hn. res_cbn.
  rewrite bool_decide_eq_false_2 by lia. res_cbn.
  pose proof (recvmsg_loop_spec fuel k chunk n Hf) as Hloop.
  destruct (recvmsg_loop recvmsg fuel k chunk n) as [k' [[[data control] flags]|e|]]; [|done|done].
  destruct Hloop as (k0 & Hk0 & Hr).
  assert (len (take (Z.to_nat n) control) ≤ isize_max) as Hc
    by (pose proof (len_take_le n control ltac:(lia)); lia).
  pose proof (parse_control_total (take (Z.to_nat n) control) flags Hc) as Ht.
  destruct (parse_control (take (Z.to_nat n) control) flags).2 as [fds|e|] eqn:Hp; simpl; [|done|done].
  pose proof (parse_control_ok _ _ _ Hc Hp). pose proof (len_nonneg fds).
  split_and!; [apply len_take_le; lia|lia|..].
  - intros Hd. assert (data = []) as ->.
    { apply (f_equal length) in Hd. rewrite length_take in Hd. destruct data; [done|].
      cbn [length] in Hd. lia. }
    apply eof_no_control in Hr as ->; [|lia]. rewrite take_nil in Hp. by apply parse_control_nil in Hp.
  - pose proof (signals_left k0 chunk n) as Hs. rewrite Hr in Hs. simpl in Hs. lia.
Qed.

(** One round of the loop up to the read: a result, or an incomplete frame. *)
Lemma steps_spec r :
  recv_inv r → state r ≠ StEof → state r ≠ StFailed →
  match header_step r with
  | (r1, Some res) => r1 = fail_state r ∧ ∃ e, res = Err e
  | (r1, None) =>
      match payload_step r1 with
      | (r2, Some res) =>
          (r2 = fail_state r1 ∧ ∃ e, res = Err e) ∨ (recv_inv r2 ∧ ∃ f, res = Ok (Frame f))
      | (r2, None) => r2 = r1 ∧ waiting r1
      end
  end.
Proof.
  intros Hinv He Hf. pose proof (header_step_spec r Hinv) as Hh.
  destruct (header_step r) as [r1 [res|]]; [done|].
  destruct Hh as (Hinv1 & Hhdr & _ & _ & _ & _ & _ & Hst).
  pose proof (payload_step_spec r1 Hinv1) as Hp.
  destruct (payload_step r1) as [r2 [res|]].
  - destruct Hp as [(h & s & e & _ & ? & _ & _ & ?)|(h & s & e & bs & _ & _ & _ & _ & ? & _ & ?)]; [left|right]; eauto.
  - destruct Hp as [-> Hp]. split; [done|]. split; [done|].
    destruct (state r1) eqn:Hs1; [by apply Hhdr|done|..];
      destruct Hst as [?|(? & ? & ? & ?)]; congruence.
Qed.

Lemma receive_loop_spec fuel k r :
  (signals k + recv_room r < fuel)%nat → recv_inv r → state r ≠ StEof → state r ≠ StFailed →
  let '(k', r', res) := receive_loop recvmsg fuel k r in
  total res ∧ recv_inv r' ∧ (∀ e, res = Err e → state r' = StFailed) ∧
  (res = Ok Closed → state r' = StEof).
Proof.
  revert k r. induction fuel as [|fuel IH]; intros k r Hc Hinv He Hf; [lia|]. simpl.
  pose proof (steps_spec r Hinv He Hf) as Hs. destruct (header_step r) as [r1 [res|]] eqn:Hh.
  { destruct Hs as (-> & e & ->). split_and!; [done|by apply fail_inv|done|done]. }
  pose proof (header_step_spec r Hinv) as Hh1. rewrite Hh in Hh1. destruct Hh1 as (Hinv1 & _ & Hlim & Hby & _).
  destruct (payload_step r1) as [r2 [res|]].
  { destruct Hs as [(-> & e & ->)|(Hi & f & ->)];
      [split_and!; [done|by apply fail_inv|done|done]|split_and!; done]. }
  destruct Hs as [-> Hw]. destruct (waiting_room r1 Hw) as (_ & Hlt & Hch & _).
  assert (0 ≤ recv_control_fds (limits r1) ≤ 2 ^ 60) as Hctl.
  { destruct Hinv1 as [((_ & _ & _ & _ & [? _] & _) & _ & ? & _) _]. lia. }
  pose proof (recv_once_spec (S fuel) k (next_chunk_len r1) _ ltac:(lia) Hch Hctl) as Hr.
  destruct (recv_once recvmsg (S fuel) k _ _) as [k' [[data fds]|err|]]; [| |done].
  - destruct Hr as (Hdl & Hfl & Heof & Hcalls). destruct data as [|x data].
    + rewrite Heof by done. pose proof (eof_step_spec r1 Hw) as Hes.
      destruct (eof_step r1 []) as [r2 [[[f| |]|e|]|]]; try done.
      * destruct Hes as (-> & ? & _). by split_and!.
      * subst. split_and!; [done|by apply fail_inv|done|done].
    + pose proof (append_step_spec r1 (x :: data) fds Hw ltac:(done) Hdl Hfl) as Ha.
      destruct (append_step r1 (x :: data) fds) as [r2 [res|]].
      * destruct Ha as (-> & e & ->). split_and!; [done|by apply fail_inv|done|done].
      * destruct Ha as (-> & Hi & ? & ?). apply IH; [|done..].
        unfold recv_room, appended in *. cbn [limits bytes] in *. rewrite <- Hlim, <- Hby in Hc.
        rewrite len_app, len_cons. pose proof (len_nonneg data). lia.
  - destruct err as [[]| | | | | | | | | | | | | |];
      (split_and!; [done|first [done|by apply fail_inv]|done|done]).
Qed.
End any_socket.
