(* ===== verification/FrameStream.v ===== *)
(** * Frames over a stream socket

    What [FrameReceiver] delivers when the other side sends whole frames:
    each frame once, in order, with its payload and its own descriptors, no
    matter how the stream is cut into reads. The socket is described by
    what unix(7) promises of it ([StreamSocket]). *)

From S2P Require Import Prelude FrameHeader FrameControl FrameRecv FrameRecvLaws.

(** ** What was sent *)
Record SentFrame := mkSent { s_header : Header; s_payload : list byte; s_fds : list Z }.

Definition header_bytes (h : Header) : list byte :=
  match Header_encode h with Ok bs => bs | _ => [] end.
Definition frame_bytes (f : SentFrame) : list byte := header_bytes (s_header f) ++ s_payload f.

Definition sent_ok (l : FrameLimits) (f : SentFrame) : Prop :=
  accepted l (s_header f) ∧ payload_len (s_header f) = len (s_payload f) ∧
  n_fds (s_header f) = len (s_fds f) ∧ Forall (λ fd, 0 ≤ fd < 2 ^ 31) (s_fds f).

Definition delivered (f : SentFrame) : ReceivedFrame :=
  mkReceivedFrame (s_header f) (s_payload f) (Some <$> s_fds f).

(** Each descriptor with the stream position of its frame. *)
Fixpoint fd_positions (base : Z) (fs : list SentFrame) : list (Z * Z) :=
  match fs with
  | [] => []
  | f :: fs => ((base,.) <$> s_fds f) ++ fd_positions (base + len (frame_bytes f)) fs
  end.

Lemma accepted_header l h : accepted l h → ∃ bs, Header_encode h = Ok bs ∧ len bs = HEADER_LEN.
Proof.
  intros (_ & Hp & _). unfold payload_limit in Hp.
  assert (∃ bs, Header_encode h = Ok bs) as [bs Hb]
    by (unfold Header_encode; rewrite bool_decide_eq_false_2 by lia; eauto).
  exists bs. split; [done|]. by apply Header_encode_Ok in Hb as [_ ?].
Qed.

Lemma frame_bytes_len l f : sent_ok l f → len (frame_bytes f) = frame_len (s_header f).
Proof.
  intros (Ha & Hp & _). destruct (accepted_header _ _ Ha) as (bs & Hb & Hl).
  unfold frame_bytes, header_bytes, frame_len. rewrite Hb, len_app. lia.
Qed.

Lemma frame_bytes_header l f rest :
  sent_ok l f → Header_decode (E:=FrameError) (take 16 (frame_bytes f ++ rest)) = Ok (s_header f).
Proof.
  intros (Ha & _). destruct (accepted_header _ _ Ha) as (bs & Hb & Hl).
  unfold frame_bytes, header_bytes. rewrite Hb, <- app_assoc. unfold HEADER_LEN, len in Hl.
  rewrite take_app_length' by lia. rewrite <- (app_nil_r bs).
  apply header_decode_encode; [by destruct Ha|done].
Qed.

Lemma frame_bytes_payload l f rest :
  sent_ok l f → take (Z.to_nat (payload_len (s_header f))) (drop 16 (frame_bytes f ++ rest)) = s_payload f.
Proof.
  intros (Ha & Hp & _). destruct (accepted_header _ _ Ha) as (bs & Hb & Hl).
  unfold frame_bytes, header_bytes. rewrite Hb, <- app_assoc. unfold HEADER_LEN, len in *.
  rewrite drop_app_length' by lia. by rewrite take_app_length' by lia.
Qed.

(** ** What the socket promises *)
Class StreamSocket {K} (recvmsg : K → Z → Z → K * RawRecv) := {
  (** bytes sent and not read; messages with descriptors among them, with
      their offset; a bound on the calls until one blocks *)
  unread : K → list byte;
  rights : K → list (Z * list Z);
  retries : K → nat;
  stream_recv k n c :
    1 ≤ n → Forall (λ m, 16 + 4 * len m.2 ≤ c) (rights k) →
    match recvmsg k n c with
    | (k', RawErr Interrupted) =>
        (retries k' < retries k)%nat ∧ unread k' = unread k ∧ rights k' = rights k
    | (k', RawErr WouldBlock) =>
        (retries k' ≤ retries k)%nat ∧ unread k = [] ∧ unread k' = [] ∧ rights k' = rights k
    | (k', RawErr (OtherIo _)) => False
    | (k', RawOk data control flags) =>
        (retries k' < retries k)%nat ∧ data ≠ [] ∧ len data ≤ n ∧
        Z.land flags MSG_CTRUNC = 0 ∧ unread k = data ++ unread k' ∧
        ∃ taken rest, rights k = option_list taken ++ rest ∧
          Forall (λ m, len data ≤ m.1) rest ∧
          rights k' = (λ m : Z * list Z, (m.1 - len data, m.2)) <$> rest ∧
          control = match taken with None => [] | Some m => record_bytes (Rights m.2) end
    end;
}.

(** Messages as descriptors at absolute positions. *)
Definition spread (base : Z) (ms : list (Z * list Z)) : list (Z * Z) :=
  concat ((λ m : Z * list Z, (base + m.1,.) <$> m.2) <$> ms).

Lemma spread_shift base d ms :
  spread (base + d) ((λ m : Z * list Z, (m.1 - d, m.2)) <$> ms) = spread base ms.
Proof.
  unfold spread. rewrite <- list_fmap_compose. f_equal. apply list_fmap_ext. intros _ m _. simpl.
  by replace (base + d + (m.1 - d)) with (base + m.1) by lia.
Qed.

Lemma spread_app base ms ns : spread base (ms ++ ns) = spread base ms ++ spread base ns.
Proof. unfold spread. by rewrite fmap_app, concat_app. Qed.

Lemma eligible_flat e bs : eligible e bs = len (filter (λ x, x.1 < e) (flat bs)).
Proof.
  induction bs as [|b bs IH]; [done|]. rewrite eligible_cons, flat_cons, filter_app, len_app, IH.
  f_equal. generalize (batch_fds b) as l. intros l. case_bool_decide as Hb.
  - induction l as [|x l IHl]; [done|]. rewrite fmap_cons, filter_cons_True by done.
    by rewrite !len_cons, IHl.
  - induction l as [|x l IHl]; [done|]. by rewrite fmap_cons, filter_cons_False by done.
Qed.

(** Descriptors matched one by one: the first ones belong to the frame. *)
Lemma Forall2_pairs_app (l : list (Z * Z)) (b : Z) (fds : list Z) P :
  Forall2 (λ x y : Z * Z, x.2 = y.2 ∧ x.1 ≤ y.1) l (((b,.) <$> fds) ++ P) →
  ∃ l1 l2, l = l1 ++ l2 ∧ l1.*2 = fds ∧ length l1 = length fds ∧ Forall (λ x, x.1 ≤ b) l1 ∧
    Forall2 (λ x y : Z * Z, x.2 = y.2 ∧ x.1 ≤ y.1) l2 P.
Proof.
  revert l. induction fds as [|fd fds IH]; intros l; simpl.
  - intros H. exists [], l. by split_and!.
  - intros (x & l' & [H1 H2] & Hl & ->)%Forall2_cons_inv_r.
    destruct (IH _ Hl) as (l1 & l2 & -> & <- & Hlen & Hf & H2').
    exists (x :: l1), l2. simpl in *. split_and!; [done|by f_equal|by f_equal|by constructor|done].
Qed.

Lemma take_frame_fds (bs : list FdBatch) (b : Z) (fds : list Z) P e :
  b < e →
  Forall2 (λ x y : Z * Z, x.2 = y.2 ∧ x.1 ≤ y.1) (flat bs) (((b,.) <$> fds) ++ P) →
  len fds ≤ eligible e bs ∧ (take (length fds) (flat bs)).*2 = fds ∧
  Forall2 (λ x y : Z * Z, x.2 = y.2 ∧ x.1 ≤ y.1) (drop (length fds) (flat bs)) P.
Proof.
  intros He (l1 & l2 & Hl & H2 & Hlen & Hf & Hrest)%Forall2_pairs_app.
  rewrite eligible_flat, Hl, filter_app, len_app.
  rewrite take_app_length', drop_app_length' by done. split_and!; [|done|done].
  assert (filter (λ x, x.1 < e) l1 = l1) as ->.
  { clear -He Hf. induction Hf as [|x l1 Hx Hf IH]; [done|].
    rewrite filter_cons_True by (simpl; lia). by f_equal. }
  unfold len. lia.
Qed.

(** A prefix whose elements lie before [b] cannot reach past [P]. *)
Lemma prefix_before (l P Q R : list (Z * Z)) e :
  l ++ R = P ++ Q → Forall (λ x, x.1 < e) l → Forall (λ x, e ≤ x.1) Q →
  ∃ P', P = l ++ P' ∧ R = P' ++ Q.
Proof.
  revert P. induction l as [|x l IH]; intros P Heq Hl HQ; [by exists P|].
  apply Forall_cons in Hl as [Hx Hl]. destruct P as [|y P]; simpl in Heq.
  - subst Q. apply Forall_cons in HQ as [? _]. lia.
  - injection Heq as -> Heq. destruct (IH P Heq Hl HQ) as (P' & -> & ->). by exists P'.
Qed.

Lemma spread_bound base ms lo :
  Forall (λ m : Z * list Z, lo ≤ base + m.1) ms → Forall (λ x, lo ≤ x.1) (spread base ms).
Proof.
  unfold spread. induction 1 as [|m ms Hm _ IH]; [done|]. rewrite fmap_cons. simpl.
  apply Forall_app; split; [|done]. apply Forall_fmap, Forall_true. done.
Qed.

Section stream.
Context {K : Type} (recvmsg : K → Z → Z → K * RawRecv) `{!StreamSocket recvmsg}.

(** The receiver, the socket and the frames still to come agree: buffered,
    unread and future bytes spell the frames; pending, unread and future
    descriptors are the frames' in order, none of them arriving after the
    first byte of its frame. *)
Record stream_inv (fs : list SentFrame) (r : FrameReceiver) (k : K) : Prop := {
  si_inv : recv_inv r;
  si_live : state r ≠ StEof ∧ state r ≠ StFailed;
  si_ok : Forall (sent_ok (limits r)) fs;
  si_total : byte_base r + len (concat (frame_bytes <$> fs)) < 2 ^ 64;
  si_fds : len (fd_positions (byte_base r) fs) ≤ max_pending_fds (limits r);
  si_bytes : ∃ later, bytes r ++ unread k ++ later = concat (frame_bytes <$> fs);
  si_rights : ∃ P later,
    fd_positions (byte_base r) fs = P ++ spread (stream_end r) (rights k) ++ later ∧
    Forall2 (λ x y : Z * Z, x.2 = y.2 ∧ x.1 ≤ y.1) (flat (fd_batches r)) P ∧
    Forall (λ y, stream_end r + len (unread k) ≤ y.1) later;
  si_msgs : Forall (λ m, 0 ≤ m.1 ∧ m.2 ≠ [] ∧ len m.2 ≤ recv_control_fds (limits r) ∧
    Forall (λ fd, 0 ≤ fd < 2 ^ 31) m.2) (rights k);
}.

Lemma stream_with_state fs r k s :
  stream_inv fs r k → recv_inv (with_state r s) → s ≠ StEof → s ≠ StFailed →
  stream_inv fs (with_state r s) k.
Proof. intros [] ? ? ?. by split. Qed.

Lemma stream_header f fs r k :
  stream_inv (f :: fs) r k → HEADER_LEN ≤ len (bytes r) →
  Header_decode (E:=FrameError) (take 16 (bytes r)) = Ok (s_header f).
Proof.
  intros [_ _ Hok _ _ [later Hb] _ _] Hl. apply Forall_cons in Hok as [Hf _].
  rewrite fmap_cons in Hb. simpl in Hb.
  rewrite <- (frame_bytes_header _ f (concat (frame_bytes <$> fs)) Hf), <- Hb.
  unfold HEADER_LEN, len in Hl. by rewrite take_app_le by lia.
Qed.

(** Waiting for the rest of the header of [f], or knowing it. *)
Lemma stream_header_step f fs r k :
  stream_inv (f :: fs) r k →
  ∃ r1, header_step r = (r1, None) ∧ stream_inv (f :: fs) r1 k ∧ bytes r1 = bytes r ∧
    match state r1 with
    | StHeader => len (bytes r) < HEADER_LEN
    | StPayload h _ _ => h = s_header f
    | _ => False
    end.
Proof.
  intros Hs. pose proof Hs as [Hinv [Hne Hnf] Hok Htot _ _ _ _].
  pose proof (header_step_spec r Hinv) as Hspec.
  destruct (decide (HEADER_LEN ≤ len (bytes r))) as [Hl|Hl].
  - pose proof (stream_header _ _ _ _ Hs Hl) as Hd. unfold header_step in *.
    destruct (state r) as [|h s e| |] eqn:Hst; try done.
    + rewrite bool_decide_eq_true_2 in * by done. change (Z.to_nat HEADER_LEN) with 16%nat in *.
      rewrite Hd in *. apply Forall_cons in Hok as [Hf _]. pose proof Hf as [Hacc _].
      pose proof Hinv as [Hlim Hlive]. rewrite Hst in Hlive. destruct Hlive as (? & _).
      destruct (frame_len_bounds _ _ Hlim Hacc) as [? ?].
      pose proof Hacc as (_ & ? & ?).
      rewrite fmap_cons in Htot. cbn [concat] in Htot.
      rewrite len_app, (frame_bytes_len _ _ Hf) in Htot.
      pose proof (len_nonneg (concat (frame_bytes <$> fs))).
      unfold checked_add, frame_len in *. cbv zeta in *.
      rewrite !(bool_decide_eq_false_2 (_ > _)) in * by lia.
      rewrite (bool_decide_eq_true_2 (HEADER_LEN + _ < _)) in * by (unfold WIRE_MAX_PAYLOAD in *; lia).
      rewrite bool_decide_eq_true_2 in * by lia.
      destruct Hspec as (Hinv1 & _). eexists; split; [done|].
      split_and!; [by apply stream_with_state|done|done].
    + exists r. split_and!; [done|done|done|]. rewrite Hst.
      destruct Hinv as [_ Hp]. rewrite Hst in Hp. destruct Hp as (_ & _ & _ & _ & Hd' & _).
      rewrite Hd in Hd'. by injection Hd'.
  - exists r. unfold header_step in *. destruct (state r) as [|h s e| |] eqn:Hst; try done.
    + rewrite bool_decide_eq_false_2 by done. split_and!; try done. lia.
    + destruct Hinv as [_ Hp]. rewrite Hst in Hp. destruct Hp as (_ & _ & _ & _ & _ & ? & _). lia.
Qed.

(** A frame whose bytes have arrived is returned with its descriptors. *)
Lemma stream_payload_step f fs r k s e :
  stream_inv (f :: fs) r k → state r = StPayload (s_header f) s e →
  frame_len (s_header f) ≤ len (bytes r) →
  ∃ r', payload_step r = (r', Some (Ok (Frame (delivered f)))) ∧ stream_inv fs r' k ∧
    bytes r = frame_bytes f ++ bytes r'.
Proof.
  intros Hs Hst Hl. pose proof Hs as [Hinv _ Hok Htot Hnfds [later Hb] (P & lf & HP & HF & Hlf) Hmsgs].
  apply Forall_cons in Hok as [Hf Hok]. pose proof Hf as (Hacc & Hpl & Hnf & _).
  pose proof (frame_bytes_len _ _ Hf) as Hfl.
  pose proof Hinv as [Hlim Hp]. rewrite Hst in Hp.
  destruct Hp as ((Hb0 & Hse & _) & -> & He & _).
  destruct (frame_len_bounds _ _ Hlim Hacc) as [Hlb _].
  rewrite fmap_cons in *. cbn [concat fd_positions] in *.
  assert (∃ rest, bytes r = frame_bytes f ++ rest ∧ rest ++ unread k ++ later = concat (frame_bytes <$> fs))
    as (rest & Hbr & Hrest).
  { exists (drop (length (frame_bytes f)) (bytes r)).
    assert (take (length (frame_bytes f)) (bytes r) = frame_bytes f) as Htk.
    { rewrite <- (take_app_le (bytes r) (unread k ++ later)), Hb by (unfold len in *; lia).
      apply take_app_length. }
    split; [by rewrite <- Htk at 1; rewrite take_drop|].
    apply (app_inv_head (frame_bytes f)). rewrite <- Hb, app_assoc. f_equal.
    rewrite <- Htk at 1. apply take_drop. }
  destruct (prefix_before ((byte_base r,.) <$> s_fds f) P (spread (stream_end r) (rights k) ++ lf)
    (fd_positions (byte_base r + len (frame_bytes f)) fs) (byte_base r + 1)) as (P' & -> & HP').
  { done. }
  { apply Forall_fmap, Forall_true. intros. simpl. lia. }
  { apply Forall_app; split.
    - apply spread_bound. eapply Forall_impl; [done|]. simpl. intros m (? & _). lia.
    - eapply Forall_impl; [done|]. simpl. intros y ?. len_facts. lia. }
  destruct (take_frame_fds (fd_batches r) (byte_base r) (s_fds f) P' e ltac:(lia) HF)
    as (Helig & Htake & HF').
  pose proof (payload_step_spec r Hinv) as Hspec.
  destruct (payload_step r) as [r' [res|]].
  2: { destruct Hspec as [_ Hspec]. rewrite Hst in Hspec. lia. }
  destruct Hspec as [(h & s' & e' & Hst' & _ & _ & Hel & _)|(h & s' & e' & bs & Hst' & _ & _ & -> & -> & Hbs & Hinv')].
  { rewrite Hst in Hst'. injection Hst' as <- <- <-. lia. }
  rewrite Hst in Hst'. injection Hst' as <- _ _.
  assert (drop (Z.to_nat (frame_len (s_header f))) (bytes r) = rest) as Hdrop.
  { rewrite Hbr, drop_app_length'; [done|]. unfold len in *. lia. }
  rewrite Hnf in *. replace (Z.to_nat (len (s_fds f))) with (length (s_fds f)) in * by (unfold len; lia).
  assert (frame_taken r (s_header f) bs
    = mkReceiver (limits r) StHeader rest (byte_base r + len (frame_bytes f)) (stream_end r) bs)
    as Hft by (unfold frame_taken; by rewrite Hdrop, Hfl).
  rewrite Hft in *.
  exists (mkReceiver (limits r) StHeader rest (byte_base r + len (frame_bytes f)) (stream_end r) bs).
  split_and!; [| |exact Hbr].
  - unfold frame_out, delivered. rewrite Hnf.
    replace (Z.to_nat (len (s_fds f))) with (length (s_fds f)) by (unfold len; lia).
    rewrite Htake, Hbr. by rewrite (frame_bytes_payload _ _ _ Hf).
  - rewrite ?len_app in Htot. rewrite ?len_app in Hnfds. split; cbn [limits state bytes byte_base stream_end fd_batches]; try done.
    + lia.
    + rewrite len_map in Hnfds. pose proof (len_nonneg (s_fds f)). lia.
    + by exists later.
    + exists P', lf. rewrite Hbs. by split_and!.
Qed.

Lemma recvmsg_loop_stream fuel k n c :
  (retries k < fuel)%nat → 1 ≤ n → Forall (λ m, 16 + 4 * len m.2 ≤ c) (rights k) →
  match recvmsg_loop recvmsg fuel k n c with
  | (k', Ok (data, control, flags)) =>
      (retries k' < retries k)%nat ∧ data ≠ [] ∧ len data ≤ n ∧
      Z.land flags MSG_CTRUNC = 0 ∧ unread k = data ++ unread k' ∧
      ∃ taken rest, rights k = option_list taken ++ rest ∧
        Forall (λ m, len data ≤ m.1) rest ∧
        rights k' = (λ m : Z * list Z, (m.1 - len data, m.2)) <$> rest ∧
        control = match taken with None => [] | Some m => record_bytes (Rights m.2) end
  | (k', Err e) =>
      e = Io WouldBlock ∧ (retries k' ≤ retries k)%nat ∧ unread k = [] ∧ unread k' = [] ∧
      rights k' = rights k
  | (k', Panic) => False
  end.
Proof.
  revert k. induction fuel as [|fuel IH]; intros k Hf Hn Hc; simpl; [lia|].
  pose proof (stream_recv k n c Hn Hc) as Hr.
  destruct (recvmsg k n c) as [k' [[| |code]|data control flags]]; [|by destruct Hr|done|done].
  destruct Hr as (Hret & Hu & Hri). specialize (IH k' ltac:(lia) Hn). rewrite Hri, Hu in IH.
  specialize (IH Hc).
  destruct (recvmsg_loop recvmsg fuel k' n c) as [k2 [[[data control] flags]|e|]]; [| |done].
  - destruct IH as (? & IH). split; [lia|done].
  - destruct IH as (? & ? & ?). split_and!; try done; lia || naive_solver.
Qed.

Lemma round8_mono a b : a ≤ b → round8 a ≤ round8 b.
Proof. intros. unfold round8. apply Z.mul_le_mono_nonneg_r; [lia|]. apply Z.div_le_mono; lia. Qed.

(** A read under the stream invariant: the next bytes, and the descriptors
    that came with them. *)
Lemma recv_once_stream fs fuel k r :
  stream_inv fs r k → (retries k < fuel)%nat → 1 ≤ next_chunk_len r ≤ isize_max →
  match recv_once recvmsg fuel k (next_chunk_len r) (recv_control_fds (limits r)) with
  | (k', Ok (data, fds)) =>
      (retries k' < retries k)%nat ∧ data ≠ [] ∧ len data ≤ next_chunk_len r ∧
      unread k = data ++ unread k' ∧
      ∃ taken rest, rights k = option_list taken ++ rest ∧
        Forall (λ m, len data ≤ m.1) rest ∧
        rights k' = (λ m : Z * list Z, (m.1 - len data, m.2)) <$> rest ∧
        fds = match taken with None => [] | Some m => m.2 end
  | (k', Err e) =>
      e = Io WouldBlock ∧ (retries k' ≤ retries k)%nat ∧ unread k = [] ∧ unread k' = [] ∧
      rights k' = rights k
  | (k', Panic) => False
  end.
Proof.
  intros Hs Hf Hch. pose proof Hs as [[Hlim _] _ _ _ _ _ _ Hmsgs].
  assert (0 ≤ recv_control_fds (limits r) ≤ 2 ^ 60) as Hctl.
  { destruct Hlim as ((_ & _ & _ & _ & [? _] & _) & _ & ? & _). lia. }
  destruct (control_buffer_len_ok _ Hctl) as (c & Hc & Hcb & Hceq).
  unfold recv_once, alloc. rewrite bool_decide_eq_false_2 by lia. res_cbn. rewrite Hc. res_cbn.
  rewrite bool_decide_eq_false_2 by lia. res_cbn.
  pose proof (recvmsg_loop_stream fuel k (next_chunk_len r) c Hf ltac:(lia)) as Hl.
  destruct (recvmsg_loop recvmsg fuel k (next_chunk_len r) c) as [k' [[[data control] flags]|e|]].
  2,3: apply Hl; eapply Forall_impl; [exact Hmsgs|]; simpl; intros m (_ & _ & ? & _); lia.
  destruct Hl as (Hret & Hne & Hdl & Hfl & Hu & taken & rest & Hri & Hrest & Hri' & ->).
  { eapply Forall_impl; [exact Hmsgs|]. simpl. intros m (_ & _ & ? & _). lia. }
  rewrite (take_ge data) by (unfold len in *; lia).
  assert (taken = None ∨ ∃ m, taken = Some m ∧ len m.2 ≤ recv_control_fds (limits r) ∧
    Forall (λ fd, 0 ≤ fd < 2 ^ 31) m.2) as Ht.
  { destruct taken as [m|]; [right|by left]. exists m. split; [done|].
    rewrite Hri in Hmsgs. simpl in Hmsgs. apply Forall_cons in Hmsgs as [(_ & _ & ? & ?) _]. done. }
  enough ((parse_control (take (Z.to_nat c) match taken with None => [] | Some m => record_bytes (Rights m.2) end)
    flags).2 = Ok (match taken with None => [] | Some m => m.2 end)) as ->.
  { res_cbn. split_and!; try done. by exists taken, rest. }
  destruct Ht as [->|(m & -> & Hm & Hfds)].
  - rewrite take_nil. unfold parse_control. simpl. by rewrite Hfl.
  - pose proof (record_bytes_len (Rights m.2)) as Hrl. simpl record_payload in Hrl.
    rewrite len_words in Hrl.
    pose proof (round8_mono (16 + 4 * len m.2) (16 + 4 * recv_control_fds (limits r)) ltac:(lia)).
    rewrite take_ge by (unfold len in *; lia).
    pose proof (parse_control_records [Rights m.2] flags) as Hp.
    simpl in Hp. rewrite !app_nil_r in Hp. rewrite Hp; [|by constructor|lia].
    simpl. by rewrite bool_decide_eq_false_2 by (rewrite Hfl; lia).
Qed.

(** Appending what was read keeps the invariant. *)
Lemma stream_append fs r k k' data fds taken rest :
  stream_inv fs r k → waiting r → data ≠ [] → len data ≤ next_chunk_len r →
  unread k = data ++ unread k' →
  rights k = option_list taken ++ rest → Forall (λ m, len data ≤ m.1) rest →
  rights k' = (λ m : Z * list Z, (m.1 - len data, m.2)) <$> rest →
  fds = match taken with None => [] | Some m => m.2 end →
  append_step r data fds = (appended r data fds, None) ∧ stream_inv fs (appended r data fds) k'.
Proof.
  intros Hs Hw Hne Hdl Hu Hri Hrest Hri' Hfds.
  pose proof Hs as [Hinv Hst Hok Htot Hnf [later Hb] (P & lf & HP & HF & Hlf) Hmsgs].
  assert (spread (stream_end r) (option_list taken) = (λ fd, (stream_end r + (default (0, []) taken).1, fd)) <$> fds)
    as Hsp.
  { subst fds. destruct taken as [m|]; [|done]. unfold spread. simpl. by rewrite app_nil_r. }
  assert (len (flat (fd_batches r)) + len fds ≤ max_pending_fds (limits r)) as Hpend.
  { rewrite HP, Hri, spread_app, Hsp in Hnf. apply Forall2_length in HF.
    rewrite !len_app, len_map in Hnf. len_facts. unfold len in *. lia. }
  destruct (waiting_room r Hw) as (Hlive & _ & Hch & _).
  assert (len fds ≤ isize_max) as Hfl.
  { destruct Hinv as [(_ & _ & _ & ?) _]. len_facts. lia. }
  pose proof (append_step_spec r data fds Hw Hne Hdl Hfl) as Ha.
  assert (∃ r', append_step r data fds = (r', None)) as [r' Hr'].
  { unfold append_step. unfold pending_fds. rewrite sum_fds_flat.
    pose proof Hlive as (Hb0 & Hse & _).
    assert (len (concat (frame_bytes <$> fs)) = len (bytes r) + len data + len (unread k') + len later) as Hc.
    { rewrite <- Hb, Hu, !len_app. lia. }
    rewrite bool_decide_eq_false_2 by (unfold saturating_add; lia).
    unfold checked_add. rewrite bool_decide_eq_true_2 by (len_facts; lia). eauto. }
  rewrite Hr' in *. destruct Ha as (-> & Hinv' & Hst1 & Hst2). split; [done|].
  split; cbn [appended limits state bytes byte_base stream_end fd_batches]; try done.
  - exists later. by rewrite <- Hb, Hu, <- !app_assoc.
  - exists (P ++ spread (stream_end r) (option_list taken)), lf.
    rewrite Hri', spread_shift, HP, Hri, spread_app, <- !app_assoc. split; [done|]. split.
    + rewrite flat_snoc. apply Forall2_app; [done|]. rewrite Hsp. apply Forall2_fmap.
      apply Forall_Forall2_diag, Forall_true. intros fd. simpl. split; [done|].
      destruct taken as [m|]; simpl; [|lia]. rewrite Hri in Hmsgs. simpl in Hmsgs.
      apply Forall_cons in Hmsgs as [[? _] _]. lia.
    + eapply Forall_impl; [exact Hlf|]. intros y. rewrite Hu, len_app. simpl. lia.
  - rewrite Hri'. rewrite Hri in Hmsgs. apply Forall_app in Hmsgs as [_ Hm].
    apply Forall_fmap. eapply Forall_impl; [exact (proj2 (Forall_and _ _) (conj Hm Hrest))|].
    intros m [(_ & ? & ? & ?) ?]. simpl in *. split_and!; try done. lia.
Qed.

Lemma receive_loop_stream f fs fuel k r :
  stream_inv (f :: fs) r k → (retries k < fuel)%nat →
  ∃ k' r', (retries k' ≤ retries k)%nat ∧
    if bool_decide (len (frame_bytes f) ≤ len (bytes r) + len (unread k))
    then receive_loop recvmsg fuel k r = (k', r', Ok (Frame (delivered f))) ∧
         stream_inv fs r' k' ∧ bytes r ++ unread k = frame_bytes f ++ bytes r' ++ unread k'
    else receive_loop recvmsg fuel k r = (k', r', Ok ReceiveWouldBlock) ∧
         stream_inv (f :: fs) r' k' ∧ bytes r ++ unread k = bytes r' ++ unread k'.
Proof.
  revert k r. induction fuel as [|fuel IH]; intros k r Hs Hf; [lia|]. simpl.
  destruct (stream_header_step f fs r k Hs) as (r1 & -> & Hs1 & Hb1 & Hst1).
  pose proof (si_ok _ _ _ Hs1) as Hok. apply Forall_cons in Hok as [Hfok _].
  pose proof (frame_bytes_len _ _ Hfok) as Hfl. rewrite <- Hb1.
  destruct (payload_step r1) as [r2 [res|]] eqn:Hp.
  - pose proof (payload_step_spec r1 (si_inv _ _ _ Hs1)) as Hspec. rewrite Hp in Hspec.
    destruct (state r1) as [|h s e| |] eqn:Hst; try done.
    1: { unfold payload_step in Hp. by rewrite Hst in Hp. } subst h.
    assert (frame_len (s_header f) ≤ len (bytes r1)) as Hl.
    { destruct Hspec as [(h & ? & ? & H1 & _ & H2 & _)|(h & ? & ? & ? & H1 & H2 & _)];
        injection H1 as <- _ _; done. }
    destruct (stream_payload_step f fs r1 k s e Hs1 Hst Hl) as (r' & Hp' & Hs' & Hb').
    rewrite Hp in Hp'. injection Hp' as -> ->. exists k, r'. split; [done|].
    rewrite bool_decide_eq_true_2 by (len_facts; lia). split_and!; try done.
    by rewrite Hb', <- app_assoc.
  - assert (waiting r1) as Hw.
    { split; [apply Hs1|]. pose proof (payload_step_spec r1 (si_inv _ _ _ Hs1)) as Hspec.
      rewrite Hp in Hspec. destruct Hspec as [_ Hspec].
      destruct (state r1); try done. by rewrite Hb1. }
    assert (r2 = r1) as ->.
    { pose proof (payload_step_spec r1 (si_inv _ _ _ Hs1)) as Hspec. rewrite Hp in Hspec. by destruct Hspec. }
    assert (len (bytes r1) < len (frame_bytes f)) as Hshort.
    { destruct Hw as [_ Hw]. destruct (state r1) as [|h s e| |]; try done.
      - destruct Hfok as (Hacc & _). pose proof (frame_len_bounds _ _ ltac:(apply Hs1) Hacc).
        unfold HEADER_LEN in *. lia.
      - subst h. lia. }
    destruct (waiting_room r1 Hw) as (_ & _ & Hch & _).
    pose proof (recv_once_stream _ (S fuel) k r1 Hs1 Hf Hch) as Hr.
    destruct (recv_once recvmsg (S fuel) k _ _) as [k' [[data fds]|e|]]; [|clear IH|done].
    + destruct Hr as (Hret & Hne & Hdl & Hu & taken & rest & Hri & Hrest & Hri' & Hfds).
      destruct (stream_append _ r1 k k' data fds taken rest Hs1 Hw) as [Ha Hs2]; try done.
      destruct data as [|x data]; [done|]. rewrite Ha.
      destruct (IH k' (appended r1 (x :: data) fds) Hs2 ltac:(lia)) as (k2 & r2 & H2).
      exists k2, r2. destruct H2 as [Hret2 H2]. split; [lia|]. cbn [bytes appended] in H2.
      rewrite Hu. rewrite !len_app in *. rewrite <- !app_assoc in H2.
      replace (len (bytes r1) + len (x :: data) + len (unread k'))
        with (len (bytes r1) + (len (x :: data) + len (unread k'))) in H2 by lia. done.
    + destruct Hr as (-> & Hret & Hu & Hu' & Hri). exists k', r1. split; [done|]. rewrite Hu, Hu'.
      rewrite bool_decide_eq_false_2 by (change (len (@nil byte)) with 0; lia).
      split_and!; try done. destruct Hs1 as [? ? ? ? ? [later Hb] (P & lf & HP & HF & Hlf) Hm].
      split; try done; rewrite ?Hri, ?Hu'; try done.
      * exists later. by rewrite Hu in Hb.
      * exists P, lf. rewrite Hu in Hlf. done.
Qed.
End stream.

(** ** A concrete socket

    A queue of segments, each a non-empty run of bytes with the descriptors
    sent along; one read returns bytes of one segment. It shows the promises
    of [StreamSocket] can be kept, and the examples run on it. *)
Module SegmentQueue.
Definition Queue : Type := list (byte * list byte * list Z).

Definition recvmsg (q : Queue) (n _ : Z) : Queue * RawRecv :=
  match q with
  | [] => ([], RawErr WouldBlock)
  | (b, bs, fds) :: q' =>
      (match drop (Z.to_nat n) (b :: bs) with [] => q' | x :: rest => (x, rest, []) :: q' end,
       RawOk (take (Z.to_nat n) (b :: bs))
         (match fds with [] => [] | _ => record_bytes (Rights fds) end) 0)
  end.

Fixpoint q_bytes (q : Queue) : list byte :=
  match q with [] => [] | (b, bs, _) :: q' => (b :: bs) ++ q_bytes q' end.

Definition message (base : Z) (fds : list Z) : option (Z * list Z) :=
  match fds with [] => None | _ => Some (base, fds) end.

Fixpoint q_rights (base : Z) (q : Queue) : list (Z * list Z) :=
  match q with
  | [] => []
  | (b, bs, fds) :: q' => option_list (message base fds) ++ q_rights (base + len (b :: bs)) q'
  end.

Lemma q_rights_bound base q : Forall (λ m, base ≤ m.1) (q_rights base q).
Proof.
  revert base. induction q as [|[[b bs] fds] q IH]; intros base; [constructor|].
  cbn [q_rights]. apply Forall_app; split.
  - destruct fds; constructor; [simpl; lia|constructor].
  - eapply Forall_impl; [apply IH|]. simpl. intros m. len_facts. lia.
Qed.

Lemma q_rights_shift base d q :
  (λ m : Z * list Z, (m.1 - d, m.2)) <$> q_rights base q = q_rights (base - d) q.
Proof.
  revert base. induction q as [|[[b bs] fds] q IH]; intros base; [done|].
  cbn [q_rights]. rewrite fmap_app, IH. f_equal; [by destruct fds|]. f_equal. lia.
Qed.

#[global, refine] Instance queue_socket : StreamSocket recvmsg :=
  {| unread := q_bytes; rights := q_rights 0; retries q := length (q_bytes q) |}.
Proof.
  intros q n c Hn _. destruct q as [|[[b bs] fds] q]; [done|]. unfold recvmsg.
  set (data := take (Z.to_nat n) (b :: bs)). set (rest := drop (Z.to_nat n) (b :: bs)).
  assert (b :: bs = data ++ rest) as Hd by (symmetry; apply take_drop).
  assert (len data ≤ n) as Hlen by (apply len_take_le; lia).
  assert (data ≠ []) as Hne.
  { unfold data. replace (Z.to_nat n) with (S (Z.to_nat (n - 1))) by lia. done. }
  assert (0 < length data)%nat by (destruct data; [done|simpl; lia]).
  set (q' := match rest with [] => q | x :: r => (x, r, []) :: q end).
  assert (q_bytes q' = rest ++ q_bytes q) as Hq' by (unfold q'; by destruct rest).
  assert (q_rights 0 q' = q_rights (len rest) q) as Hr'.
  { unfold q'. destruct rest; [done|]. simpl. f_equal. }
  cbn [q_bytes]. rewrite Hq', Hd, <- app_assoc, !length_app.
  split_and!; [lia|done|done|done|done|].
  exists (message 0 fds), (q_rights (len (data ++ rest)) q). split_and!.
  - cbn [q_rights]. by rewrite Hd.
  - eapply Forall_impl; [apply q_rights_bound|]. simpl. intros m. rewrite len_app. len_facts. lia.
  - rewrite q_rights_shift, Hr'. f_equal. rewrite len_app. lia.
  - by destruct fds.
Defined.

#[global, refine] Instance queue_laws : SocketLaws recvmsg :=
  {| signals q := 0%nat |}.
Proof.
  - intros q n c q'. by destruct q as [|[[b bs] fds] q].
  - done.
  - intros q n c q' control flags Hn. destruct q as [|[[b bs] fds] q]; [done|]. unfold recvmsg.
    intros [= _ Hd _ _]. replace (Z.to_nat n) with (S (Z.to_nat (n - 1))) in Hd by lia. done.
Defined.
End SegmentQueue.

Lemma new_inv l : limits_ok l → recv_inv (FrameReceiver_new l).
Proof.
  intros Hl. split; [done|]. simpl. unfold live, pending_fds, max_buffer. simpl.
  destruct Hl as [([? _] & _ & [? _] & _) _]. unfold saturating_add, usize_max, HEADER_LEN.
  change (len (@nil byte)) with 0. split_and!; try done; lia.
Qed.

Lemma clear_inv r : recv_inv r → 0 ≤ stream_end r < 2 ^ 64 → recv_inv (clear r).
Proof.
  intros [Hl _] Hse. split; [done|]. unfold clear.
  assert (live (mkReceiver (limits r) StHeader [] (stream_end r) (stream_end r) [])) as Hlive.
  { unfold live, pending_fds, max_buffer. simpl. destruct Hl as [([? _] & _ & [? _] & _) _].
    unfold saturating_add, usize_max, HEADER_LEN. change (len (@nil byte)) with 0.
    split_and!; try done; lia. }
  by destruct (state r).
Qed.

(** A fresh receiver at the start of a stream. *)
Lemma stream_start {K} (recvmsg : K → Z → Z → K * RawRecv) `{!StreamSocket recvmsg} l fs k later lfds :
  limits_ok l → Forall (sent_ok l) fs → len (concat (frame_bytes <$> fs)) < 2 ^ 64 →
  len (fd_positions 0 fs) ≤ max_pending_fds l →
  unread k ++ later = concat (frame_bytes <$> fs) →
  fd_positions 0 fs = spread 0 (rights k) ++ lfds →
  Forall (λ y, len (unread k) ≤ y.1) lfds →
  Forall (λ m, 0 ≤ m.1 ∧ m.2 ≠ [] ∧ len m.2 ≤ recv_control_fds l ∧
    Forall (λ fd, 0 ≤ fd < 2 ^ 31) m.2) (rights k) →
  stream_inv recvmsg fs (FrameReceiver_new l) k.
Proof.
  intros Hl Hok Htot Hn Hb Hf Hlf Hm. split; try done; [by apply new_inv|by exists later|].
  by exists [], lfds.
Qed.

(** ** Properties *)

(** C14: The receiver is safe against any peer, one that never stops sending
    included. Starting from a state that keeps the invariant (a fresh
    receiver does), [receive] returns after at most as many reads as there
    are bytes of room in its buffer and signals that interrupt it: it never
    reaches an [expect], [unreachable!] or failed assertion, whatever bytes,
    descriptors or errors arrive. The invariant is kept, so the buffer holds
    at most a header and the largest payload and the pending descriptors
    stay within their limit; an error leaves the receiver empty and
    poisoned, and a closed stream leaves it closed. *)
Theorem receive_safe {K} (recvmsg : K → Z → Z → K * RawRecv) `{!SocketLaws recvmsg}
    (fuel : nat) (k : K) (r : FrameReceiver) :
  recv_inv r → (signals k + recv_room r < fuel)%nat →
  let '(k', r', res) := receive recvmsg fuel k r in
  total res ∧ recv_inv r' ∧
  buffered_bytes r' ≤ saturating_add HEADER_LEN (max_payload (limits r')) ∧
  pending_fds r' ≤ max_pending_fds (limits r') ∧
  (∀ e, res = Err e → state r' = StFailed ∧ bytes r' = [] ∧ fd_batches r' = []) ∧
  (res = Ok Closed → state r' = StEof ∧ bytes r' = [] ∧ fd_batches r' = []).
Proof.
  intros Hinv Hf.
  assert (let '(k', r', res) := receive recvmsg fuel k r in
    total res ∧ recv_inv r' ∧ (∀ e, res = Err e → state r' = StFailed) ∧
    (res = Ok Closed → state r' = StEof)) as Hr.
  { unfold receive. destruct (state r) eqn:Hs.
    1,2: apply (receive_loop_spec recvmsg); [done|done|by rewrite Hs..].
    all: by split_and!. }
  destruct (receive recvmsg fuel k r) as [[k' r'] res].
  destruct Hr as (Ht & Hi & He & Hc). pose proof Hi as [Hl Hst].
  assert (0 ≤ max_buffer (limits r')) as Hmb.
  { destruct Hl as [([? _] & _) _]. unfold max_buffer, saturating_add, usize_max, HEADER_LEN. lia. }
  unfold buffered_bytes. fold (max_buffer (limits r')).
  split_and!; [done|done| | | |].
  - destruct (state r'); [by destruct Hst as (_ & _ & _ & ? & _)| |..];
      [by destruct Hst as ((_ & _ & _ & ? & _) & _)|..]; by destruct Hst as [-> _].
  - assert (0 ≤ max_pending_fds (limits r')) by (by destruct Hl as [(_ & _ & [? _] & _) _]).
    unfold pending_fds in *. destruct (state r'); [apply Hst|apply Hst|..]; by destruct Hst as [_ ->].
  - intros e ->. specialize (He e eq_refl). rewrite He in Hst. by destruct Hst.
  - intros ->. specialize (Hc eq_refl). rewrite Hc in Hst. by destruct Hst.
Qed.

(** Frames arrive as they were sent. Let the peer send the frames
    [f :: fs], each with its descriptors on its first byte. However the
    stream is cut into reads and interrupted, the next [receive] returns
    frame [f], with its header, its payload and exactly its descriptors, as
    soon as all its bytes are available, and blocks until then; no byte is
    lost, and the invariant for the remaining frames holds again, so the
    same is true of the next call. *)
Lemma receive_next_frame {K} (recvmsg : K → Z → Z → K * RawRecv) `{!StreamSocket recvmsg}
    (f : SentFrame) (fs : list SentFrame) (fuel : nat) (k : K) (r : FrameReceiver) :
  stream_inv recvmsg (f :: fs) r k → (retries k < fuel)%nat →
  ∃ k' r', (retries k' ≤ retries k)%nat ∧
    if bool_decide (len (frame_bytes f) ≤ len (bytes r) + len (unread k))
    then receive recvmsg fuel k r = (k', r', Ok (Frame (delivered f))) ∧
         stream_inv recvmsg fs r' k' ∧ bytes r ++ unread k = frame_bytes f ++ bytes r' ++ unread k'
    else receive recvmsg fuel k r = (k', r', Ok ReceiveWouldBlock) ∧
         stream_inv recvmsg (f :: fs) r' k' ∧ bytes r ++ unread k = bytes r' ++ unread k'.
Proof.
  intros Hs Hf. destruct (receive_loop_stream recvmsg f fs fuel k r Hs Hf) as (k' & r' & Hret & H).
  exists k', r'. destruct (si_live _ _ _ _ Hs) as [He Hfl]. split; [done|]. unfold receive.
  by destruct (state r).
Qed.

(** Two frames, the first with two descriptors, cut in the middle. *)
Definition sample_frames : list SentFrame :=
  [ mkSent (mkHeader 2 1 3 9 2) [Byte.x61; Byte.x62; Byte.x63] [7; 8];
    mkSent (mkHeader 0 4 0 10 0) [] [] ].

Definition sample_queue : SegmentQueue.Queue :=
  match concat (frame_bytes <$> sample_frames) with
  | x :: s => match drop 20 s with
              | y :: t => [(x, take 20 s, [7; 8]); (y, t, [])]
              | [] => []
              end
  | [] => []
  end.

Lemma default_limits_ok : limits_ok FrameLimits_default.
Proof. by vm_compute. Qed.

(** A peer that always has more zeros to send. *)
Module Endless.
Definition recvmsg (k : unit) (n c : Z) : unit * RawRecv := (k, RawOk (zeros n) [] 0).
#[global, refine] Instance endless_laws : SocketLaws recvmsg := {| signals _ := 0%nat |}.
Proof. 1,2: done. by intros k n c k' control flags _ [= _ _ <- _]. Defined.
Definition small : FrameLimits := mkLimits 32 4 4 8 4 1024 16.
End Endless.

Lemma receive_safe_witness :
  let '(k', r', res) := receive Endless.recvmsg 64 tt (FrameReceiver_new Endless.small) in
  total res ∧ recv_inv r' ∧
  buffered_bytes r' ≤ saturating_add HEADER_LEN (max_payload (limits r')) ∧
  pending_fds r' ≤ max_pending_fds (limits r') ∧
  (∀ e, res = Err e → state r' = StFailed ∧ bytes r' = [] ∧ fd_batches r' = []) ∧
  (res = Ok Closed → state r' = StEof ∧ bytes r' = [] ∧ fd_batches r' = []).
Proof.
  apply (receive_safe Endless.recvmsg).
  - apply new_inv. unfold limits_ok, limits_typed. split_and!; by vm_compute.
  - vm_compute. lia.
Defined.

Lemma receive_next_frame_witness :
  ∃ k' r',
    receive SegmentQueue.recvmsg 64 sample_queue (FrameReceiver_new FrameLimits_default)
    = (k', r', Ok (Frame (mkReceivedFrame (mkHeader 2 1 3 9 2) [Byte.x61; Byte.x62; Byte.x63] [Some 7; Some 8]))).
Proof.
  destruct (receive_next_frame SegmentQueue.recvmsg
    (mkSent (mkHeader 2 1 3 9 2) [Byte.x61; Byte.x62; Byte.x63] [7; 8])
    [mkSent (mkHeader 0 4 0 10 0) [] []] 64 sample_queue (FrameReceiver_new FrameLimits_default))
    as (k' & r' & _ & H).
  - apply (stream_start SegmentQueue.recvmsg FrameLimits_default sample_frames sample_queue [] []).
    + apply default_limits_ok.
    + repeat constructor; by vm_compute.
    + by vm_compute.
    + by vm_compute.
    + by vm_compute.
    + by vm_compute.
    + constructor.
    + repeat constructor; by vm_compute.
  - vm_compute. lia.
  - exists k', r'. rewrite bool_decide_eq_true_2 in H by (by vm_compute). by destruct H as [H _].
Defined.
