(* ===== verification/FrameSend.v ===== *)
(** * Sending frames

    Models [protocol/src/native/frame/send.rs]: [OutboundFrame] and
    [FrameSender]. The socket is a parameter, a state [K] and a function
    [sendmsg] from the data and control bytes of one call to its result. *)

From S2P Require Import Prelude FrameHeader FrameControl FrameRecv FrameRecvLaws FrameStream.

Inductive RawSend :=
| SendErr (e : IoError)
| SendOk (n : Z).

Inductive FlushOutcome := Drained | FlushWouldBlock.

Record OutboundFrame := mkOutbound {
  ob_header : Header;
  ob_bytes : list byte;
  ob_fds : list Z;
}.

Definition OutboundFrame_new (object_id opcode seq : Z) (payload : list byte) (fds : list Z)
    (l : FrameLimits) : FrameRes OutboundFrame :=
  if bool_decide (len payload > payload_limit l)
  then Err (PayloadTooLarge (len payload) (payload_limit l)) else
  if bool_decide (len fds > max_frame_fds l)
  then Err (TooManyFrameFds (len fds) (max_frame_fds l)) else
  let header := mkHeader object_id opcode (wrap 32 (len payload)) seq (wrap 32 (len fds)) in
  hb ← Header_encode header;
  Ok (mkOutbound header (hb ++ payload) fds).

(** [try_clone] is [BorrowedFd::try_clone_to_owned]. *)
Definition duplicate_fds (try_clone : Z → Res IoError Z) (object_id opcode seq : Z)
    (payload : list byte) (fds : list Z) (l : FrameLimits) : FrameRes OutboundFrame :=
  duplicates ← map_err Io (mapM try_clone fds);
  OutboundFrame_new object_id opcode seq payload duplicates l.

Record SendFrame := mkSendFrame {
  sf_bytes : list byte;
  sf_offset : Z;
  sf_fds : list Z;
  ancillary_sent : bool;
}.

Record FrameSender := mkSender {
  s_limits : FrameLimits;
  queue : list SendFrame;
  queued_bytes : Z;
  queued_fds : Z;
  failed : bool;
}.

Definition FrameSender_new (l : FrameLimits) : FrameSender := mkSender l [] 0 0 false.

Definition enqueue (s : FrameSender) (f : OutboundFrame) : FrameSender * FrameRes unit :=
  if failed s then (s, Err Poisoned) else
  let payload := payload_len (ob_header f) in
  let limit := payload_limit (s_limits s) in
  if bool_decide (payload > limit) then (s, Err (PayloadTooLarge payload limit)) else
  if bool_decide (len (ob_fds f) > max_frame_fds (s_limits s))
  then (s, Err (TooManyFrameFds (len (ob_fds f)) (max_frame_fds (s_limits s)))) else
  if bool_decide (saturating_add (queued_bytes s) (len (ob_bytes f)) > max_queued_bytes (s_limits s))
  then (s, Err (SendQueueFull (queued_bytes s) (len (ob_bytes f)) (max_queued_bytes (s_limits s)))) else
  if bool_decide (saturating_add (queued_fds s) (len (ob_fds f)) > max_queued_fds (s_limits s))
  then (s, Err (SendFdQueueFull (queued_fds s) (len (ob_fds f)) (max_queued_fds (s_limits s)))) else
  (mkSender (s_limits s) (queue s ++ [mkSendFrame (ob_bytes f) 0 (ob_fds f) false])
     (queued_bytes s + len (ob_bytes f)) (queued_fds s + len (ob_fds f)) (failed s),
   Ok tt).

Definition sender_clear (s : FrameSender) : FrameSender :=
  mkSender (s_limits s) [] 0 0 (failed s).

Definition sender_fail (s : FrameSender) : FrameSender :=
  mkSender (s_limits s) [] 0 0 true.

Section socket.
Context {K : Type} (sendmsg : K → list byte → list byte → K * RawSend).

Definition send_once (k : K) (data : list byte) (fds : option (list Z)) : K * Res IoError Z :=
  match build_control fds with
  | Ok control =>
      match sendmsg k data control with
      | (k', SendErr e) => (k', Err e)
      | (k', SendOk n) => (k', Ok n)
      end
  | _ => (k, Panic)
  end.

Fixpoint send_loop (fuel : nat) (k : K) (data : list byte) (fds : option (list Z)) :
    K * Res IoError Z :=
  match fuel with
  | O => (k, Panic)
  | S fuel =>
      match send_once k data fds with
      | (k', Err Interrupted) => send_loop fuel k' data fds
      | r => r
      end
  end.

(** The bookkeeping after [sent] bytes of the front frame went out. *)
Definition advance (s : FrameSender) (frame : SendFrame) (rest : list SendFrame)
    (include_fds : bool) (sent : Z) : FrameRes FrameSender :=
  qf ← (if include_fds then usize_sub (queued_fds s) (len (sf_fds frame)) else Ok (queued_fds s));
  qb ← usize_sub (queued_bytes s) sent;
  let frame' := mkSendFrame (sf_bytes frame) (sf_offset frame + sent)
    (if include_fds then [] else sf_fds frame) (ancillary_sent frame || include_fds) in
  Ok (mkSender (s_limits s)
    (if bool_decide (sf_offset frame' = len (sf_bytes frame')) then rest else frame' :: rest)
    qb qf (failed s)).

Fixpoint flush_loop (fuel : nat) (k : K) (s : FrameSender) :
    K * FrameSender * FrameRes FlushOutcome :=
  match fuel with
  | O => (k, s, Panic)
  | S fuel =>
      match queue s with
      | [] => (k, s, Ok Drained)
      | frame :: rest =>
          let include_fds := negb (ancillary_sent frame) && negb (bool_decide (sf_fds frame = [])) in
          match slice_from (sf_bytes frame) (sf_offset frame) with
          | Ok data =>
              match send_loop (S fuel) k data (if include_fds then Some (sf_fds frame) else None) with
              | (k', Err WouldBlock) => (k', s, Ok FlushWouldBlock)
              | (k', Err e) => (k', sender_fail s, Err (Io e))
              | (k', Panic) => (k', s, Panic)
              | (k', Ok sent) =>
                  if bool_decide (sent = 0) then (k', sender_fail s, Err WriteZero) else
                  match advance s frame rest include_fds sent with
                  | Ok s' => flush_loop fuel k' s'
                  | Err e => (k', s, Err e)
                  | Panic => (k', s, Panic)
                  end
              end
          | Err e => (k, s, Err e)
          | Panic => (k, s, Panic)
          end
      end
  end.

Definition flush (fuel : nat) (k : K) (s : FrameSender) :
    K * FrameSender * FrameRes FlushOutcome :=
  if failed s then (k, s, Err Poisoned) else flush_loop fuel k s.
End socket.

(** ** The invariant *)
Definition frame_left (f : SendFrame) : list byte := drop (Z.to_nat (sf_offset f)) (sf_bytes f).
Definition queue_left (q : list SendFrame) : list byte := concat (frame_left <$> q).
Definition queue_fds (q : list SendFrame) : list Z := concat (sf_fds <$> q).

(** Descriptors still to be sent, with the distance to the byte they go with. *)
Fixpoint queue_rights (base : Z) (q : list SendFrame) : list (Z * list Z) :=
  match q with
  | [] => []
  | f :: q =>
      (match sf_fds f with [] => [] | fds => [(base, fds)] end) ++
      queue_rights (base + len (frame_left f)) q
  end.

Definition frame_inv (f : SendFrame) : Prop :=
  0 ≤ sf_offset f < len (sf_bytes f) ∧
  (ancillary_sent f = true → sf_fds f = []) ∧
  (0 < sf_offset f → sf_fds f = []) ∧ 4 * len (sf_fds f) + 31 < 2 ^ 64.

(** Counters of what fits in memory do not overflow. *)
Definition send_limits_ok (l : FrameLimits) : Prop :=
  limits_typed l ∧ max_queued_bytes l ≤ isize_max ∧ max_queued_fds l ≤ isize_max.

Definition send_inv (s : FrameSender) : Prop :=
  send_limits_ok (s_limits s) ∧ Forall frame_inv (queue s) ∧
  Forall (λ f, sf_offset f = 0) (tail (queue s)) ∧
  queued_bytes s = len (queue_left (queue s)) ∧ queued_fds s = len (queue_fds (queue s)) ∧
  queued_bytes s ≤ max_queued_bytes (s_limits s) ∧ queued_fds s ≤ max_queued_fds (s_limits s).

Lemma frame_left_len f : frame_inv f → len (frame_left f) = len (sf_bytes f) - sf_offset f.
Proof. intros ([? ?] & _). unfold frame_left. rewrite len_drop; lia. Qed.

Lemma queue_left_cons f q : queue_left (f :: q) = frame_left f ++ queue_left q.
Proof. done. Qed.
Lemma queue_fds_cons f q : queue_fds (f :: q) = sf_fds f ++ queue_fds q.
Proof. done. Qed.

Lemma queue_left_app q q' : queue_left (q ++ q') = queue_left q ++ queue_left q'.
Proof. unfold queue_left. by rewrite fmap_app, concat_app. Qed.
Lemma queue_fds_app q q' : queue_fds (q ++ q') = queue_fds q ++ queue_fds q'.
Proof. unfold queue_fds. by rewrite fmap_app, concat_app. Qed.

Lemma queue_rights_app base q q' :
  queue_rights base (q ++ q') = queue_rights base q ++ queue_rights (base + len (queue_left q)) q'.
Proof.
  revert base. induction q as [|f q IH]; intros base; simpl.
  { change (len (queue_left [])) with 0. by rewrite Z.add_0_r. }
  rewrite IH, <- app_assoc. do 2 f_equal. f_equal. rewrite queue_left_cons, len_app. lia.
Qed.

Definition includes_fds (f : SendFrame) : bool :=
  negb (ancillary_sent f) && negb (bool_decide (sf_fds f = [])).

Lemma includes_fds_false f : frame_inv f → includes_fds f = false → sf_fds f = [].
Proof.
  intros (_ & Ha & _) Hi. unfold includes_fds in Hi.
  destruct (ancillary_sent f); [by apply Ha|]. simpl in Hi. by case_bool_decide.
Qed.

(** Sending a part of the front frame moves exactly that part out of the
    queue, and its descriptors with the first part; no counter underflows. *)
Lemma advance_spec s f rest sent base :
  send_inv s → queue s = f :: rest → 0 < sent ≤ len (frame_left f) →
  ∃ s', advance s f rest (includes_fds f) sent = Ok s' ∧ send_inv s' ∧ failed s' = failed s ∧
    queue_left (queue s) = take (Z.to_nat sent) (frame_left f) ++ queue_left (queue s') ∧
    queue_rights base (queue s)
    = (if includes_fds f then [(base, sf_fds f)] else []) ++ queue_rights (base + sent) (queue s').
Proof.
  intros (Hl & Hfr & Htl & Hqb & Hqf & Hmb & Hmf) Hq Hsent. rewrite Hq in *.
  apply Forall_cons in Hfr as [Hf Hrest]. simpl in Htl.
  pose proof (frame_left_len f Hf) as Hfl. pose proof Hf as ([Ho1 Ho2] & Ha & _ & Hn).
  rewrite queue_left_cons, len_app in Hqb. rewrite queue_fds_cons, len_app in Hqf.
  pose proof (len_nonneg (queue_left rest)). pose proof (len_nonneg (queue_fds rest)).
  pose proof (len_nonneg (sf_fds f)).
  set (inc := includes_fds f) in *.
  set (f' := mkSendFrame (sf_bytes f) (sf_offset f + sent) (if inc then [] else sf_fds f)
    (ancillary_sent f || inc)).
  set (qf := if inc then queued_fds s - len (sf_fds f) else queued_fds s).
  assert (sf_fds f' = []) as Hf'.
  { simpl. destruct inc eqn:Hi; [done|]. by apply includes_fds_false. }
  assert (qf = len (queue_fds rest)) as Hqf'.
  { unfold qf. destruct inc eqn:Hi; [lia|]. rewrite (includes_fds_false f Hf Hi) in Hqf.
    change (len (@nil Z)) with 0 in Hqf. lia. }
  set (q' := if bool_decide (sf_offset f' = len (sf_bytes f')) then rest else f' :: rest).
  assert (frame_left f = take (Z.to_nat sent) (frame_left f) ++ frame_left f') as Hsplit.
  { unfold f', frame_left. simpl. rewrite Z2Nat.inj_add by lia. rewrite <- drop_drop.
    by rewrite take_drop. }
  assert (sf_offset f' = sf_offset f + sent ∧ sf_bytes f' = sf_bytes f) as [Hoff Hbs] by done.
  assert (len (frame_left f') = len (frame_left f) - sent) as Hl'.
  { pose proof (f_equal len Hsplit) as H'. rewrite len_app, len_take in H' by lia. lia. }
  exists (mkSender (s_limits s) q' (queued_bytes s - sent) qf (failed s)). split_and!.
  - unfold advance, usize_sub. fold f' q' qf. unfold qf.
    rewrite (bool_decide_eq_true_2 (len (sf_fds f) ≤ _)) by lia.
    rewrite (bool_decide_eq_true_2 (sent ≤ _)) by lia. by destruct inc.
  - unfold send_inv. cbn [s_limits queue queued_bytes queued_fds]. unfold q'.
    assert (queued_bytes s - sent = len (frame_left f') + len (queue_left rest)) by lia.
    case_bool_decide as He.
    + rewrite Hoff, Hbs in He. assert (len (frame_left f') = 0) by lia. split_and!; try done; try lia.
      by destruct rest; [|apply Forall_cons in Htl as [_ ?]].
    + rewrite Hoff, Hbs in He. split_and!; try done; try lia.
      * constructor; [|done]. unfold frame_inv. rewrite Hf', Hoff, Hbs in *.
        change (len (@nil Z)) with 0. split_and!; done || lia.
      * rewrite queue_left_cons, len_app. lia.
      * by rewrite queue_fds_cons, Hf'.
  - done.
  - cbn [queue]. rewrite queue_left_cons. rewrite Hsplit at 1. rewrite <- app_assoc. f_equal.
    unfold q'. case_bool_decide as He; [|done]. rewrite Hoff, Hbs in He.
    destruct (frame_left f') eqn:Hfl'; [done|]. rewrite len_cons in Hl'. len_facts. lia.
  - cbn [queue queue_rights]. f_equal.
    + unfold inc, includes_fds. destruct (sf_fds f) as [|x l] eqn:Hfds.
      * by rewrite bool_decide_eq_true_2, andb_false_r.
      * rewrite bool_decide_eq_false_2 by done. destruct (ancillary_sent f); [|done].
        by specialize (Ha eq_refl).
    + unfold q'. case_bool_decide as He; [rewrite Hoff, Hbs in He; f_equal; lia|].
      cbn [queue_rights]. rewrite Hf'. simpl. f_equal. lia.
Qed.

(** ** What is relied on of the socket

    [sendmsg] takes a prefix of the data, and with its first byte the
    descriptors of the control buffer; an error takes nothing. The kernel
    reads a control buffer as [parse_control] does. *)
Class SendSocket {K} (sendmsg : K → list byte → list byte → K * RawSend) := {
  sent_bytes : K → list byte;
  sent_rights : K → list (Z * list Z);
  interruptions : K → nat;
  send_law k data control fds :
    (parse_control control 0).2 = Ok fds →
    match sendmsg k data control with
    | (k', SendErr e) =>
        sent_bytes k' = sent_bytes k ∧ sent_rights k' = sent_rights k ∧
        (e = Interrupted → (interruptions k' < interruptions k)%nat)
    | (k', SendOk n) =>
        0 ≤ n ≤ len data ∧ (interruptions k' ≤ interruptions k)%nat ∧
        sent_bytes k' = sent_bytes k ++ take (Z.to_nat n) data ∧
        (0 < n → sent_rights k'
          = sent_rights k ++ match fds with [] => [] | _ => [(len (sent_bytes k), fds)] end)
    end;
}.

Section flush.
Context {K : Type} (sendmsg : K → list byte → list byte → K * RawSend) `{!SendSocket sendmsg}.

Definition rights_of (base : Z) (fds : option (list Z)) : list (Z * list Z) :=
  match fds with Some ((_ :: _) as l) => [(base, l)] | _ => [] end.

Definition fds_ok (fds : option (list Z)) : Prop :=
  match fds with
  | Some l => Forall (λ fd, 0 ≤ fd < 2 ^ 31) l ∧ 4 * len l + 31 ≤ isize_max
  | None => True
  end.

Lemma control_parses fds :
  fds_ok fds → ∃ control, build_control fds = Ok control ∧
    (parse_control control 0).2 = Ok (default [] fds).
Proof.
  destruct fds as [l|]; intros Hf; [|by exists []]. destruct Hf as [Hl Hn].
  exists (record_bytes (Rights l)). split; [apply build_control_record; unfold isize_max in *; lia|].
  pose proof (record_bytes_len (Rights l)) as Hrl. simpl record_payload in Hrl. rewrite len_words in Hrl.
  pose proof (round8_bounds (16 + 4 * len l)).
  pose proof (parse_control_records [Rights l] 0) as Hp. simpl in Hp.
  rewrite !app_nil_r in Hp. rewrite Hp; [done|by constructor|lia].
Qed.

Lemma send_loop_spec fuel k data fds :
  (interruptions k < fuel)%nat → fds_ok fds →
  match send_loop sendmsg fuel k data fds with
  | (k', Ok n) =>
      0 ≤ n ≤ len data ∧ (interruptions k' ≤ interruptions k)%nat ∧
      sent_bytes k' = sent_bytes k ++ take (Z.to_nat n) data ∧
      (0 < n → sent_rights k' = sent_rights k ++ rights_of (len (sent_bytes k)) fds)
  | (k', Err e) => sent_bytes k' = sent_bytes k ∧ sent_rights k' = sent_rights k
  | (k', Panic) => False
  end.
Proof.
  intros Hf Hfds. destruct (control_parses fds Hfds) as (control & Hc & Hp).
  revert k Hf. induction fuel as [|fuel IH]; intros k Hf; [lia|]. simpl.
  unfold send_once. rewrite Hc. pose proof (send_law k data control _ Hp) as Hl.
  destruct (sendmsg k data control) as [k' [[| |c]|n]].
  - destruct Hl as (Hb & Hr & Hi). specialize (Hi eq_refl). specialize (IH k' ltac:(lia)).
    rewrite Hb, Hr in IH. destruct (send_loop sendmsg fuel k' data fds) as [k2 [n|e|]]; [|done|done].
    destruct IH as (? & ? & ?). split_and!; try done; try lia; naive_solver.
  - by destruct Hl as (? & ? & _).
  - by destruct Hl as (? & ? & _).
  - destruct Hl as (? & ? & ? & Hr). split_and!; [lia|lia|done|done|]. intros Hn. rewrite Hr by done.
     destruct fds as [[|x l]|]; reflexivity.
Qed.

(** Descriptors of queued frames are real and few enough for a buffer. *)
Definition queue_fds_ok (s : FrameSender) : Prop := Forall (λ f, fds_ok (Some (sf_fds f))) (queue s).

Lemma advance_queue s f rest inc sent s' :
  advance s f rest inc sent = Ok s' → queue_fds_ok s → queue s = f :: rest → queue_fds_ok s'.
Proof.
  unfold advance, queue_fds_ok. intros H Hq Heq. rewrite Heq in Hq.
  apply Forall_cons in Hq as [Hf Hr]. res_inv.
  simpl. case_bool_decide; [done|]. constructor; [|done]. simpl.
  destruct inc; [|done]. split; [constructor|]. by vm_compute.
Qed.

Lemma slice_frame_left f :
  frame_inv f → slice_from (E:=FrameError) (sf_bytes f) (sf_offset f) = Ok (frame_left f).
Proof.
  intros ([? ?] & _). unfold slice_from. rewrite slice_Ok by lia. unfold frame_left. f_equal.
  apply take_ge. rewrite length_drop. unfold len. lia.
Qed.

Lemma flush_loop_spec fuel k s :
  send_inv s → queue_fds_ok s → failed s = false →
  (interruptions k + length (queue_left (queue s)) < fuel)%nat →
  let '(k', s', res) := flush_loop sendmsg fuel k s in
  send_inv s' ∧ queue_fds_ok s' ∧ total res ∧
  (res = Ok Drained → queue s' = []) ∧
  (∀ o, res = Ok o → failed s' = false ∧
     sent_bytes k' ++ queue_left (queue s') = sent_bytes k ++ queue_left (queue s) ∧
     sent_rights k' ++ queue_rights (len (sent_bytes k')) (queue s')
     = sent_rights k ++ queue_rights (len (sent_bytes k)) (queue s)) ∧
  (∀ e, res = Err e → failed s' = true ∧ queue s' = []).
Proof.
  revert k s. induction fuel as [|fuel IH]; intros k s Hinv Hqok Hff Hfuel; [lia|]. cbn [flush_loop].
  destruct (queue s) as [|f rest] eqn:Hq.
  { rewrite Hq. split_and!; try done. }
  pose proof Hinv as (Hl & Hfr & _). rewrite Hq in Hfr. apply Forall_cons in Hfr as [Hf Hrest].
  rewrite slice_frame_left by done. fold (includes_fds f).
  assert (fds_ok (if includes_fds f then Some (sf_fds f) else None)) as Hfok.
  { destruct (includes_fds f); [|done]. unfold queue_fds_ok in Hqok. rewrite Hq in Hqok.
    by apply Forall_cons in Hqok as [? _]. }
  assert (send_inv (sender_fail s) ∧ queue_fds_ok (sender_fail s)) as [Hfail1 Hfail2].
  { split; [|constructor]. unfold send_inv. simpl.
    pose proof Hl as ((?&?&?&?&?&[? _]&[? _]) & ?). change (len (queue_left [])) with 0.
    change (len (queue_fds [])) with 0. split_and!; first [done|lia|by constructor]. }
  pose proof (send_loop_spec (S fuel) k (frame_left f) _ ltac:(lia) Hfok) as Hs.
  destruct (send_loop sendmsg (S fuel) k (frame_left f) _) as [k' [sent|e|]]; [| |done].
  - destruct Hs as (Hsent & Hint & Hsb & Hsr). case_bool_decide as H0.
    { by split_and!. }
    destruct (advance_spec s f rest sent (len (sent_bytes k)) Hinv Hq ltac:(lia))
      as (s' & Ha & Hinv' & Hff' & Hql & Hqr).
    rewrite Ha. rewrite Hq in Hql, Hqr.
    pose proof (advance_queue _ _ _ _ _ _ Ha Hqok Hq) as Hqok'.
    assert (len (take (Z.to_nat sent) (frame_left f)) = sent) as Htl by (apply len_take; lia).
    assert (length (queue_left (queue s')) < length (queue_left (f :: rest)))%nat.
    { rewrite Hql, length_app. unfold len in *. lia. }
    pose proof (IH k' s' Hinv' Hqok' ltac:(congruence) ltac:(lia)) as IH'.
    destruct (flush_loop sendmsg fuel k' s') as [[k2 s2] res].
    destruct IH' as (? & ? & ? & ? & Ho & ?). split_and!; try done.
    intros o Hres. destruct (Ho o Hres) as (? & -> & ->). split_and!; [done|..].
    + rewrite Hql, Hsb. by rewrite <- app_assoc.
    + rewrite Hqr, Hsr, Hsb, len_app, Htl by lia. rewrite <- app_assoc. do 2 f_equal.
      unfold includes_fds, rights_of. destruct (sf_fds f); [by rewrite andb_false_r|].
      by rewrite bool_decide_eq_false_2, andb_true_r by done; destruct (ancillary_sent f).
  - destruct Hs as [Hsb Hsr]. destruct e as [| |c];
      (split_and!; try done). intros o _. rewrite Hsb, Hsr, Hq. done.
Qed.
End flush.

(** ** Queueing *)

(** The fields of [OutboundFrame] are private, so every one comes from
    [OutboundFrame::new]; what that gives the queue: *)
Definition outbound_ok (f : OutboundFrame) : Prop :=
  len (ob_bytes f) = HEADER_LEN + payload_len (ob_header f) ∧ 0 ≤ payload_len (ob_header f) ∧
  len (ob_bytes f) ≤ isize_max ∧ fds_ok (Some (ob_fds f)).

Lemma OutboundFrame_new_inv object_id opcode seq payload fds l f h :
  OutboundFrame_new object_id opcode seq payload fds l = Ok f →
  h = mkHeader object_id opcode (len payload) seq (wrap 32 (len fds)) →
  fds_ok (Some fds) →
  f = mkOutbound h (frame_bytes (mkSent h payload fds)) fds ∧ outbound_ok f ∧
  len payload ≤ payload_limit l ∧ len fds ≤ max_frame_fds l.
Proof.
  intros H Hh Hf. pose proof (f_equal payload_len Hh) as Hpl. cbn [payload_len] in Hpl.
  pose proof (len_nonneg payload). unfold OutboundFrame_new in H.
  case_bool_decide as H1; [done|]. case_bool_decide as H2; [done|].
  assert (len payload ≤ WIRE_MAX_PAYLOAD) as Hwm by (unfold payload_limit in H1; lia).
  rewrite (wrap_small 32 (len payload)), <- Hh in H by (unfold WIRE_MAX_PAYLOAD in Hwm; lia).
  clear Hh. cbv zeta in H. apply bind_Ok_inv in H as (hb & E & Heq). injection Heq as <-.
  pose proof (Header_encode_Ok _ _ E) as [_ Hhl].
  assert (hb ++ payload = frame_bytes (mkSent h payload fds)) as Hb.
  { unfold frame_bytes, header_bytes. cbn [s_header s_payload]. by rewrite E. }
  rewrite <- Hb. split_and!; [done| |lia|lia]. unfold outbound_ok. cbn [ob_bytes ob_header ob_fds].
  rewrite len_app. split_and!; [lia|lia| |done].
  unfold WIRE_MAX_PAYLOAD, HEADER_LEN, isize_max in *. lia.
Qed.

(** Accepting a frame appends it to the queue, within both limits;
    refusing it leaves the sender as it was. *)
Lemma enqueue_spec s f :
  send_inv s → queue_fds_ok s → outbound_ok f →
  match enqueue s f with
  | (s', Ok _) =>
      send_inv s' ∧ queue_fds_ok s' ∧ failed s' = failed s ∧ s_limits s' = s_limits s ∧
      queue s' = queue s ++ [mkSendFrame (ob_bytes f) 0 (ob_fds f) false]
  | (s', Err e) => s' = s
  | (_, Panic) => False
  end.
Proof.
  intros (Hl & Hfr & Htl & Hqb & Hqf & Hmb & Hmf) Hq (Hlen & Hp & Hmax & [Hfds Hn]).
  unfold enqueue. destruct (failed s); [done|]. cbv zeta.
  do 4 (case_bool_decide; [done|]). pose proof Hl as ((_ & _ & _ & _ & _ & ? & ?) & ? & ?).
  pose proof (len_nonneg (ob_fds f)).
  unfold saturating_add, usize_max, isize_max, HEADER_LEN in *.
  split_and!; [|by apply Forall_app; split; [|constructor]|done..].
  unfold send_inv. cbn [s_limits queue queued_bytes queued_fds].
  rewrite queue_left_app, queue_fds_app, !len_app.
  assert (len (queue_left [mkSendFrame (ob_bytes f) 0 (ob_fds f) false]) = len (ob_bytes f)) as ->.
  { unfold queue_left, frame_left. simpl. by rewrite app_nil_r. }
  assert (len (queue_fds [mkSendFrame (ob_bytes f) 0 (ob_fds f) false]) = len (ob_fds f)) as ->.
  { unfold queue_fds. simpl. by rewrite app_nil_r. }
  split_and!; try done; try lia.
  - apply Forall_app; split; [done|]. constructor; [|done]. unfold frame_inv. simpl.
    split_and!; done || lia.
  - destruct (queue s); [done|]. simpl in *. apply Forall_app; split; [done|]. by constructor.
Qed.

(** ** Properties *)

(** The send queue keeps its books. From a consistent sender, offering
    a frame built by [OutboundFrame::new] either queues it behind the
    others, keeping the byte and descriptor counters equal to what is
    queued and within their limits, or returns an error and changes nothing;
    a poisoned sender takes nothing. *)
Lemma enqueue_accounting (s : FrameSender) (f : OutboundFrame) :
  send_inv s → queue_fds_ok s → outbound_ok f →
  let '(s', res) := enqueue s f in
  total res ∧ send_inv s' ∧
  match res with
  | Ok _ =>
      failed s = false ∧
      queue_left (queue s') = queue_left (queue s) ++ ob_bytes f ∧
      queued_bytes s' = queued_bytes s + len (ob_bytes f) ∧
      queued_fds s' = queued_fds s + len (ob_fds f) ∧
      queued_bytes s' ≤ max_queued_bytes (s_limits s) ∧ queued_fds s' ≤ max_queued_fds (s_limits s)
  | _ => s' = s
  end.
Proof.
  intros Hs Hq Hf. pose proof (enqueue_spec s f Hs Hq Hf) as He.
  assert (failed s = true → (enqueue s f).2 = Err Poisoned) as Hp by (unfold enqueue; by intros ->).
  assert ((enqueue s f).2 = Ok tt → queued_bytes (enqueue s f).1 = queued_bytes s + len (ob_bytes f) ∧
    queued_fds (enqueue s f).1 = queued_fds s + len (ob_fds f)) as Hc.
  { unfold enqueue. destruct (failed s); [done|]. cbv zeta. do 4 (case_bool_decide; [done|]). done. }
  destruct (enqueue s f) as [s' [[]|e|]]; [|by subst|done].
  destruct He as (Hi & _ & Hfl & Hsl & Hqq). destruct (Hc eq_refl) as [Hb Hfd].
  destruct (failed s); [by specialize (Hp eq_refl)|].
  split_and!; try done.
  - rewrite Hqq, queue_left_app. f_equal. unfold queue_left, frame_left. simpl. by rewrite app_nil_r.
  - rewrite <- Hsl. apply Hi.
  - rewrite <- Hsl. apply Hi.
Qed.

Definition sample_outbound : OutboundFrame :=
  let h := mkHeader 2 1 3 9 2 in
  mkOutbound h (frame_bytes (mkSent h [Byte.x61; Byte.x62; Byte.x63] [7; 8])) [7; 8].

Lemma new_send_inv : send_inv (FrameSender_new FrameLimits_default).
Proof.
  split; [by vm_compute|]. split; [constructor|]. split; [constructor|]. by vm_compute.
Qed.

Lemma sample_outbound_ok : outbound_ok sample_outbound.
Proof.
  split; [by vm_compute|]. split; [by vm_compute|]. split; [by vm_compute|].
  split; [repeat constructor; by vm_compute|by vm_compute].
Qed.

Lemma enqueue_accounting_witness :
  (enqueue (FrameSender_new FrameLimits_default) sample_outbound).2 = Ok tt ∧
  let '(s', res) := enqueue (FrameSender_new FrameLimits_default) sample_outbound in
  total res ∧ send_inv s'.
Proof.
  split; [by vm_compute|].
  pose proof (enqueue_accounting (FrameSender_new FrameLimits_default) sample_outbound
    new_send_inv (Forall_nil_2 _) sample_outbound_ok) as H.
  destruct (enqueue (FrameSender_new FrameLimits_default) sample_outbound) as [s' res].
  by destruct H as (? & ? & _).
Defined.

(** C16: Flushing loses and duplicates nothing. Whatever partial writes,
    interruptions and errors the socket produces, [flush] returns; if it
    drains or blocks, the bytes handed to the socket and the bytes still
    queued are together what they were before, each descriptor list is
    handed over once, with the first byte of its frame, and the counters
    stay exact, so none of the subtractions underflows; if the socket fails
    the queue is empty and the sender poisoned. *)
Theorem flush_conserves {K} (sendmsg : K → list byte → list byte → K * RawSend)
    `{!SendSocket sendmsg} (fuel : nat) (k : K) (s : FrameSender) :
  send_inv s → queue_fds_ok s →
  (interruptions k + length (queue_left (queue s)) < fuel)%nat →
  let '(k', s', res) := flush sendmsg fuel k s in
  total res ∧ send_inv s' ∧
  match res with
  | Ok o =>
      (o = Drained → queue s' = []) ∧
      sent_bytes k' ++ queue_left (queue s') = sent_bytes k ++ queue_left (queue s) ∧
      sent_rights k' ++ queue_rights (len (sent_bytes k')) (queue s')
      = sent_rights k ++ queue_rights (len (sent_bytes k)) (queue s)
  | Err e => failed s' = true ∧ (failed s = false → queue s' = [])
  | Panic => False
  end.
Proof.
  intros Hs Hq Hf. unfold flush. destruct (failed s) eqn:Hfl; [by split_and!|].
  pose proof (flush_loop_spec sendmsg fuel k s Hs Hq Hfl Hf) as H.
  destruct (flush_loop sendmsg fuel k s) as [[k' s'] res].
  destruct H as (Hi & _ & Ht & Hd & Ho & He). split_and!; [done|done|].
  destruct res as [o|e|]; [|by destruct (He e eq_refl)|done].
  destruct (Ho o eq_refl) as (_ & Hb & Hr). split_and!; [|done|done]. intros ->. by apply Hd.
Qed.

(** A concrete socket: it takes at most the planned number of bytes per
    call, 0 standing for an interruption, and blocks when the plan is over. *)
Module Pipe.
Record Pipe := mkPipe { p_bytes : list byte; p_rights : list (Z * list Z); plan : list Z }.

Definition sendmsg (k : Pipe) (data control : list byte) : Pipe * RawSend :=
  match plan k with
  | [] => (k, SendErr WouldBlock)
  | n :: plan' =>
      if bool_decide (n ≤ 0) then (mkPipe (p_bytes k) (p_rights k) plan', SendErr Interrupted) else
      let n := Z.min n (len data) in
      let m := match (parse_control control 0).2 with
        | Ok ((_ :: _) as fds) => if bool_decide (0 < n) then [(len (p_bytes k), fds)] else []
        | _ => [] end in
      (mkPipe (p_bytes k ++ take (Z.to_nat n) data) (p_rights k ++ m) plan', SendOk n)
  end.

#[global, refine] Instance pipe_socket : SendSocket sendmsg :=
  {| sent_bytes := p_bytes; sent_rights := p_rights; interruptions k := length (plan k) |}.
Proof.
  intros k data control fds Hp. unfold sendmsg. destruct (plan k) as [|n plan'] eqn:Hpl; [done|].
  case_bool_decide; [simpl; split_and!; [done|done|lia]|]. cbn [p_bytes p_rights plan].
  pose proof (len_nonneg data). rewrite Hp. split_and!; [lia|lia|simpl; lia|done|].
  intros Hn. rewrite bool_decide_eq_true_2 by done. by destruct fds.
Defined.
End Pipe.

Lemma flush_conserves_witness :
  let s := (enqueue (FrameSender_new FrameLimits_default) sample_outbound).1 in
  let '(k', s', res) := flush Pipe.sendmsg 64 (Pipe.mkPipe [] [] [0; 5; 0; 100]) s in
  res = Ok Drained ∧ Pipe.p_bytes k' = ob_bytes sample_outbound ∧ Pipe.p_rights k' = [(0, [7; 8])].
Proof.
  intros s.
  pose proof (flush_conserves Pipe.sendmsg 64 (Pipe.mkPipe [] [] [0; 5; 0; 100]) s) as H.
  destruct (flush Pipe.sendmsg 64 (Pipe.mkPipe [] [] [0; 5; 0; 100]) s) as [[k' s'] res] eqn:Hf.
  destruct H as (_ & _ & H).
  - apply (enqueue_spec _ sample_outbound new_send_inv (Forall_nil_2 _) sample_outbound_ok).
  - apply (enqueue_spec _ sample_outbound new_send_inv (Forall_nil_2 _) sample_outbound_ok).
  - vm_compute. lia.
  - assert (res = Ok Drained ∧ queue s' = []) as [-> Hq].
    { revert Hf. vm_compute. by intros [= _ <- <-]. }
    destruct H as (_ & Hb & Hr). rewrite Hq in Hb, Hr. simpl in Hb, Hr.
    rewrite app_nil_r in Hb, Hr. by rewrite Hb, Hr.
Defined.
