(* ===== verification/FrameFuel.v ===== *)
(** * Fuel of the socket loops

    More fuel never changes what [receive] and [flush] return: their laws,
    stated for enough fuel, hold of every run that ends. *)

From S2P Require Import Prelude FrameHeader FrameControl FrameRecv FrameRecvLaws FrameStream FrameSend.

Section receive.
Context {K : Type} (recvmsg : K → Z → Z → K * RawRecv).

Lemma recvmsg_loop_fuel n m k iov ctl :
  (n ≤ m)%nat → (recvmsg_loop recvmsg n k iov ctl).2 ≠ Panic →
  recvmsg_loop recvmsg m k iov ctl = recvmsg_loop recvmsg n k iov ctl.
Proof.
  revert m k. induction n as [|n IH]; intros [|m] k Hm Hp; simpl in *; try done; [lia|].
  destruct (recvmsg k iov ctl) as [k' [[]|]]; try done. apply IH; [lia|done].
Qed.

Lemma recv_once_fuel n m k chunk ctl :
  (n ≤ m)%nat → (recv_once recvmsg n k chunk ctl).2 ≠ Panic →
  recv_once recvmsg m k chunk ctl = recv_once recvmsg n k chunk ctl.
Proof.
  intros Hm. unfold recv_once. destruct (_ ≫= _) as [buffer| |]; [|done..]. intros Hp.
  rewrite (recvmsg_loop_fuel n m); [done|done|].
  destruct (recvmsg_loop recvmsg n k chunk buffer) as [k' []]; done.
Qed.

Lemma receive_loop_fuel n m k r :
  (n ≤ m)%nat → (receive_loop recvmsg n k r).2 ≠ Panic →
  receive_loop recvmsg m k r = receive_loop recvmsg n k r.
Proof.
  revert m k r. induction n as [|n IH]; intros [|m] k r Hm Hp; cbn [receive_loop] in *; try done; [lia|].
  destruct (header_step r) as [r1 [res|]]; [done|]. destruct (payload_step r1) as [r2 [res|]]; [done|].
  rewrite (recv_once_fuel (S n) (S m)); [|lia|].
  - destruct (recv_once _ _ _ _ _) as [k' [[data fds]|[[]| | | | | | | | | | | | | |]|]]; try done.
    destruct data as [|x data]; [destruct (eof_step _ _) as [r3 [res|]]|destruct (append_step _ _ _) as [r3 [res|]]];
      try done; (apply IH; [lia|done]).
  - by destruct (recv_once _ _ _ _ _) as [k' []].
Qed.
End receive.

Section flush.
Context {K : Type} (sendmsg : K → list byte → list byte → K * RawSend).

Lemma send_loop_fuel n m k data fds :
  (n ≤ m)%nat → (send_loop sendmsg n k data fds).2 ≠ Panic →
  send_loop sendmsg m k data fds = send_loop sendmsg n k data fds.
Proof.
  revert m k. induction n as [|n IH]; intros [|m] k Hm Hp; simpl in *; try done; [lia|].
  destruct (send_once sendmsg k data fds) as [k' [|[]|]]; try done. apply IH; [lia|done].
Qed.

Lemma flush_loop_fuel n m k s :
  (n ≤ m)%nat → (flush_loop sendmsg n k s).2 ≠ Panic →
  flush_loop sendmsg m k s = flush_loop sendmsg n k s.
Proof.
  revert m k s. induction n as [|n IH]; intros [|m] k s Hm Hp; cbn [flush_loop] in *; try done; [lia|].
  destruct (queue s) as [|f rest]; [done|]. destruct (slice_from _ _) as [data| |]; [|done..].
  rewrite (send_loop_fuel (S n) (S m)); [|lia|].
  - destruct (send_loop _ _ _ _ _) as [k' [sent|e|]]; try done. case_bool_decide; [done|].
    destruct (advance _ _ _ _ _) as [s'| |]; try done. apply IH; [lia|done].
  - by destruct (send_loop _ _ _ _ _) as [k' []].
Qed.
End flush.

(** ** Laws of every run that ends *)
Lemma receive_ends {K} (recvmsg : K → Z → Z → K * RawRecv) `{!SocketLaws recvmsg} fuel k r :
  recv_inv r → (receive recvmsg fuel k r).2 ≠ Panic → recv_inv (receive recvmsg fuel k r).1.2.
Proof.
  intros Hr Hp. unfold receive in *. destruct (state r) eqn:Hs; try done.
  all: pose proof (receive_loop_spec recvmsg (fuel + S (signals k + recv_room r)) k r ltac:(lia) Hr) as Hspec;
    rewrite Hs, (receive_loop_fuel recvmsg fuel) in Hspec by (done || lia);
    destruct (receive_loop _ _ _ _) as [[k' r'] res]; by apply Hspec.
Qed.

Lemma step_limits r :
  limits (header_step r).1 = limits r ∧ limits (payload_step r).1 = limits r ∧
  (∀ fds, limits (eof_step r fds).1 = limits r) ∧ ∀ data fds, limits (append_step r data fds).1 = limits r.
Proof.
  split_and!.
  - unfold header_step. destruct (state r); try done. case_bool_decide; [|done].
    destruct (Header_decode _); try done. case_bool_decide; [done|]. case_bool_decide; [done|].
    destruct (checked_add 64 HEADER_LEN _) as [fl|]; [|done]. by destruct (checked_add 64 _ fl).
  - unfold payload_step. destruct (state r); try done. case_bool_decide; [|done]. case_bool_decide; [done|].
    match goal with |- context [match ?x with _ => _ end] => destruct x as [[]| |] end;
      done || by destruct (drain_fds _ _ _ _) as [? []].
  - intros fds. unfold eof_step. by repeat case_bool_decide.
  - intros data fds. unfold append_step. case_bool_decide; [done|]. by destruct (checked_add _ _ _).
Qed.

Lemma receive_limits {K} (recvmsg : K → Z → Z → K * RawRecv) fuel k r :
  limits (receive recvmsg fuel k r).1.2 = limits r.
Proof.
  assert (limits (receive_loop recvmsg fuel k r).1.2 = limits r) as H; [|unfold receive; by destruct (state r)].
  revert k r. induction fuel as [|fuel IH]; intros k r; cbn [receive_loop]; [done|].
  destruct (step_limits r) as [<- _]. destruct (header_step r) as [r1 [|]]; [done|]. cbn [fst].
  destruct (step_limits r1) as (_ & <- & _). destruct (payload_step r1) as [r2 [|]]; [done|]. cbn [fst].
  destruct (step_limits r2) as (_ & _ & He & Ha).
  destruct (recv_once _ _ _ _ _) as [k1 [[[|x data] fds]|e|]]; [| | |done].
  - specialize (He fds). destruct (eof_step r2 fds) as [r3 [|]]; [done|]. by rewrite IH.
  - specialize (Ha (x :: data) fds). destruct (append_step r2 (x :: data) fds) as [r3 [|]]; [done|]. by rewrite IH.
  - by destruct e as [[]| | | | | | | | | | | | | |].
Qed.

Lemma flush_limits {K} (sendmsg : K → list byte → list byte → K * RawSend) fuel k s :
  s_limits (flush sendmsg fuel k s).1.2 = s_limits s.
Proof.
  unfold flush. destruct (failed s); [done|]. revert k s.
  induction fuel as [|fuel IH]; intros k s; cbn [flush_loop]; [done|].
  destruct (queue s) as [|f rest]; [done|]. destruct (slice_from _ _) as [data| |]; [|done..].
  destruct (send_loop _ _ _ _ _) as [k' [sent|[]|]]; try done. case_bool_decide; [done|].
  destruct (advance _ _ _ _ _) as [s'| |] eqn:Ha; try done. rewrite IH. unfold advance in Ha. res_inv. done.
Qed.

Lemma flush_ends {K} (sendmsg : K → list byte → list byte → K * RawSend) `{!SendSocket sendmsg} fuel k s :
  send_inv s → queue_fds_ok s → (flush sendmsg fuel k s).2 ≠ Panic →
  let '(k', s', res) := flush sendmsg fuel k s in
  send_inv s' ∧ queue_fds_ok s' ∧ (res = Ok Drained → queue s' = []) ∧
  (∀ o, res = Ok o → sent_bytes k' ++ queue_left (queue s') = sent_bytes k ++ queue_left (queue s)).
Proof.
  intros Hs Hq Hp. unfold flush in *. destruct (failed s) eqn:Hf; [by split_and!|].
  pose proof (flush_loop_spec sendmsg (fuel + S (interruptions k + length (queue_left (queue s)))) k s Hs Hq Hf
    ltac:(lia)) as Hspec.
  rewrite (flush_loop_fuel sendmsg fuel) in Hspec by (done || lia).
  destruct (flush_loop _ _ _ _) as [[k' s'] res]. destruct Hspec as (? & ? & _ & ? & Ho & _). split_and!; try done.
  intros o Hr. by destruct (Ho o Hr) as (_ & ? & _).
Qed.

Lemma flush_err {K} (sendmsg : K → list byte → list byte → K * RawSend) fuel k s :
  (flush sendmsg fuel k s).2 ≠ Err (Io WouldBlock).
Proof.
  unfold flush. destruct (failed s); [done|]. revert k s.
  induction fuel as [|fuel IH]; intros k s; cbn [flush_loop]; [done|].
  destruct (queue s) as [|f rest]; [done|]. unfold slice_from, slice. case_bool_decide; [|done].
  destruct (send_loop _ _ _ _ _) as [k' [sent|[]|]]; try done. case_bool_decide; [done|].
  unfold advance, usize_sub. destruct (_ && _); repeat case_bool_decide; res_cbn; done || apply IH.
Qed.

Lemma flush_total {K} (sendmsg : K → list byte → list byte → K * RawSend) `{!SendSocket sendmsg} fuel k s :
  send_inv s → queue_fds_ok s → (interruptions k + length (queue_left (queue s)) < fuel)%nat →
  (flush sendmsg fuel k s).2 ≠ Panic.
Proof.
  intros Hs Hq Hf. unfold flush. destruct (failed s) eqn:Hff; [done|].
  pose proof (flush_loop_spec sendmsg fuel k s Hs Hq Hff Hf) as Hspec.
  destruct (flush_loop _ _ _ _) as [[k' s'] res]. destruct Hspec as (_ & _ & Ht & _). by destruct res.
Qed.

(** Only a frame that is still queued can block. *)
Lemma flush_blocked {K} (sendmsg : K → list byte → list byte → K * RawSend) fuel k s :
  (flush sendmsg fuel k s).2 = Ok FlushWouldBlock → queue s ≠ [].
Proof.
  unfold flush. destruct (failed s); [done|]. destruct fuel; [done|]. cbn [flush_loop]. by destruct (queue s).
Qed.
