(* ===== verification/FrameChannel.v ===== *)
(** * A whole channel: sender, socket, receiver

    Composes [FrameSender] and [FrameReceiver] ([protocol/src/native/frame])
    the way two peers do: one builds and queues frames and flushes them, the
    other receives until it would block. *)

From S2P Require Import Prelude FrameHeader FrameControl FrameRecv FrameRecvLaws FrameStream FrameSend.

Record Message := mkMessage {
  m_object_id : Z; m_opcode : Z; m_seq : Z; m_payload : list byte; m_fds : list Z;
}.

Definition message_typed (m : Message) : Prop :=
  u32_range (m_object_id m) ∧ u8_range (m_opcode m) ∧ u32_range (m_seq m) ∧
  fds_ok (Some (m_fds m)).

(** [OutboundFrame::new] then [enqueue], for each message; [None] if one is
    refused. *)
Fixpoint send_messages (l : FrameLimits) (s : FrameSender) (ms : list Message) : option FrameSender :=
  match ms with
  | [] => Some s
  | m :: ms =>
      match OutboundFrame_new (m_object_id m) (m_opcode m) (m_seq m) (m_payload m) (m_fds m) l with
      | Ok f => match enqueue s f with (s', Ok _) => send_messages l s' ms | _ => None end
      | _ => None
      end
  end.

(** Receive up to [n] frames. *)
Fixpoint receive_frames {K} (recvmsg : K → Z → Z → K * RawRecv) (n fuel : nat) (k : K)
    (r : FrameReceiver) : K * FrameReceiver * list ReceivedFrame :=
  match n with
  | O => (k, r, [])
  | S n =>
      match receive recvmsg fuel k r with
      | (k', r', Ok (Frame f)) =>
          let '(k2, r2, fs) := receive_frames recvmsg n fuel k' r' in (k2, r2, f :: fs)
      | (k', r', _) => (k', r', [])
      end
  end.

Definition sent_frame (m : Message) : SentFrame :=
  mkSent (mkHeader (m_object_id m) (m_opcode m) (len (m_payload m)) (m_seq m) (len (m_fds m)))
    (m_payload m) (m_fds m).

Definition fresh (m : Message) : SendFrame :=
  mkSendFrame (frame_bytes (sent_frame m)) 0 (m_fds m) false.

Lemma sent_frame_ok l m :
  max_frame_fds l < 2 ^ 32 → message_typed m → len (m_payload m) ≤ payload_limit l →
  len (m_fds m) ≤ max_frame_fds l → sent_ok l (sent_frame m).
Proof.
  intros Hmax (Ho & Hop & Hseq & [Hf _]) Hpl Hnf.
  assert (u32_range (len (m_payload m))) as Hp.
  { pose proof (payload_limit_le l). unfold WIRE_MAX_PAYLOAD, u32_range in *. len_facts. lia. }
  assert (u32_range (len (m_fds m))) as Hn by (unfold u32_range; len_facts; lia).
  unfold sent_ok, sent_frame, accepted, header_typed.
  cbn [s_header s_payload s_fds object_id opcode payload_len seq n_fds].
  exact (conj (conj (conj Ho (conj Hop (conj Hp (conj Hseq Hn)))) (conj Hpl Hnf))
    (conj eq_refl (conj eq_refl Hf))).
Qed.

Lemma send_messages_spec l s ms s' :
  max_frame_fds l < 2 ^ 32 → s_limits s = l → send_inv s → queue_fds_ok s → failed s = false →
  Forall message_typed ms → send_messages l s ms = Some s' →
  queue s' = queue s ++ (fresh <$> ms) ∧ Forall (sent_ok l) (sent_frame <$> ms) ∧
  send_inv s' ∧ queue_fds_ok s' ∧ failed s' = false.
Proof.
  intros Hmax Hl Hs Hq Hf Hms. revert s Hl Hs Hq Hf.
  induction Hms as [|m ms (Ho & Hop & Hseq & Hfds) _ IH]; intros s Hl Hs Hq Hf; simpl.
  { intros [= <-]. rewrite app_nil_r. by split_and!. }
  destruct (OutboundFrame_new _ _ _ _ _ _) as [f|e|] eqn:Hn; [|done..].
  assert (len (m_fds m) ≤ max_frame_fds l) as Hnf.
  { by destruct (OutboundFrame_new_inv _ _ _ _ _ _ _ _ Hn eq_refl Hfds) as (_ & _ & _ & ?). }
  destruct (OutboundFrame_new_inv _ _ _ _ _ _ _ (s_header (sent_frame m)) Hn) as (Hfeq & Hok & Hpl & _);
    [|done|].
  { simpl. rewrite (wrap_small 32 (len (m_fds m))) by (len_facts; lia). done. }
  pose proof (enqueue_spec s f Hs Hq Hok) as He.
  destruct (enqueue s f) as [s1 [[]|e|]]; [|done..].
  destruct He as (Hs1 & Hq1 & Hf1 & Hl1 & Hqueue). intros Hsend.
  destruct (IH s1) as (Hq' & Hok' & Hs' & Hqf & Hff); try congruence.
  split_and!; try done.
  - rewrite Hq', Hqueue, <- app_assoc. by rewrite Hfeq.
  - simpl. constructor; [by apply sent_frame_ok|done].
Qed.

Lemma fresh_left ms : queue_left (fresh <$> ms) = concat (frame_bytes <$> (sent_frame <$> ms)).
Proof.
  induction ms as [|m ms IH]; [done|]. rewrite !fmap_cons, queue_left_cons, IH. done.
Qed.

Lemma fresh_rights ms base :
  spread 0 (queue_rights base (fresh <$> ms)) = fd_positions base (sent_frame <$> ms).
Proof.
  revert base. induction ms as [|m ms IH]; intros base; [done|]. rewrite !fmap_cons.
  cbn [queue_rights fd_positions]. rewrite spread_app. f_equal.
  - simpl. unfold spread. destruct (m_fds m); simpl; [done|]. by rewrite app_nil_r, Z.add_0_l.
  - by rewrite IH.
Qed.

Lemma fresh_messages l ms base :
  0 ≤ base → Forall (sent_ok l) (sent_frame <$> ms) →
  Forall (λ m, len (m_fds m) ≤ recv_control_fds l) ms →
  Forall (λ m, 0 ≤ m.1 ∧ m.2 ≠ [] ∧ len m.2 ≤ recv_control_fds l ∧
    Forall (λ fd, 0 ≤ fd < 2 ^ 31) m.2) (queue_rights base (fresh <$> ms)).
Proof.
  intros Hb Hok Hc. revert base Hb.
  induction Hc as [|m ms Hm _ IH]; intros base Hb; [constructor|]. rewrite fmap_cons in *.
  apply Forall_cons in Hok as [(_ & _ & _ & Hf) Hok]. cbn [queue_rights]. apply Forall_app; split.
  - simpl in *. destruct (m_fds m); constructor; [|constructor]. by split_and!.
  - apply IH; [done|]. len_facts. lia.
Qed.

Section channel.
Context {K : Type} (recvmsg : K → Z → Z → K * RawRecv) `{!StreamSocket recvmsg}.

(** Everything that was sent is unread: [n] calls return [n] frames. *)
Lemma receive_frames_spec fs fuel k r :
  stream_inv recvmsg fs r k → bytes r ++ unread k = concat (frame_bytes <$> fs) →
  (retries k < fuel)%nat →
  ∃ k' r', receive_frames recvmsg (length fs) fuel k r = (k', r', delivered <$> fs) ∧
    recv_inv r' ∧ bytes r' = [] ∧ unread k' = [].
Proof.
  revert k r. induction fs as [|f fs IH]; intros k r Hs Hb Hfuel.
  { exists k, r. simpl in *. apply app_nil in Hb as [Hb1 Hb2]. split_and!; try done. apply Hs. }
  destruct (receive_loop_stream recvmsg f fs fuel k r Hs Hfuel) as (k' & r' & Hret & H).
  rewrite fmap_cons in Hb. cbn [concat] in Hb.
  assert (len (bytes r) + len (unread k) = len (frame_bytes f) + len (concat (frame_bytes <$> fs))) as Hl
    by (rewrite <- !len_app; by f_equal).
  rewrite bool_decide_eq_true_2 in H by (len_facts; lia). destruct H as (Hr & Hs' & Hb').
  rewrite Hb in Hb'. apply app_inv_head in Hb'.
  destruct (IH k' r' Hs' (eq_sym Hb') ltac:(lia)) as (k2 & r2 & Hrec & Hinv & Hbr & Hu).
  exists k2, r2. split_and!; try done. simpl.
  destruct (si_live _ _ _ _ Hs) as [He Hf]. unfold receive.
  destruct (state r); try done; by rewrite Hr, Hrec.
Qed.
End channel.

(** A queue of whole frames, flushed and received. *)
Lemma channel_delivers {KS KR} (sendmsg : KS → list byte → list byte → KS * RawSend)
    (recvmsg : KR → Z → Z → KR * RawRecv) `{!SendSocket sendmsg, !StreamSocket recvmsg}
    (l : FrameLimits) (ms : list Message) (s s1 : FrameSender) (ks ks' : KS) (kr : KR) (sfuel rfuel : nat) :
  limits_ok l →
  Forall (λ m, len (m_fds m) ≤ recv_control_fds l) ms →
  len (concat (m_fds <$> ms)) ≤ max_pending_fds l →
  queue s = fresh <$> ms → Forall (sent_ok l) (sent_frame <$> ms) →
  send_inv s → queue_fds_ok s → failed s = false →
  sent_bytes ks = [] → sent_rights ks = [] →
  (interruptions ks + length (queue_left (queue s)) < sfuel)%nat →
  flush sendmsg sfuel ks s = (ks', s1, Ok Drained) →
  unread kr = sent_bytes ks' → rights kr = sent_rights ks' → (retries kr < rfuel)%nat →
  ∃ kr' r',
    receive_frames recvmsg (length ms) rfuel kr (FrameReceiver_new l)
    = (kr', r', delivered <$> (sent_frame <$> ms)) ∧ buffered_bytes r' = 0.
Proof.
  intros Hl Hctl Hpend Hq Hok Hs Hqf Hff Hks1 Hks2 Hsf Hflush Hu Hr Hrf.
  pose proof (flush_loop_spec sendmsg sfuel ks s Hs Hqf Hff Hsf) as Hfl.
  unfold flush in Hflush. rewrite Hff in Hflush. rewrite Hflush in Hfl.
  destruct Hfl as (_ & _ & _ & Hd & Ho & _). specialize (Hd eq_refl).
  destruct (Ho Drained eq_refl) as (_ & Hb & Hrr).
  rewrite Hd, Hks1, Hq in Hb. rewrite Hd, Hks2, Hks1, Hq in Hrr. simpl in Hb, Hrr.
  rewrite app_nil_r in Hb, Hrr. rewrite fresh_left in Hb. change (len (@nil byte)) with 0 in Hrr.
  assert (len (fd_positions 0 (sent_frame <$> ms)) = len (concat (m_fds <$> ms))) as Hnf.
  { clear. generalize 0. induction ms as [|m ms IH]; intros b; [done|]. rewrite !fmap_cons.
    cbn [fd_positions concat]. rewrite !len_app, len_map. by rewrite IH. }
  assert (len (concat (frame_bytes <$> (sent_frame <$> ms))) < 2 ^ 64) as Htot.
  { rewrite <- fresh_left, <- Hq. destruct Hs as ((_ & ? & _) & _ & _ & <- & _ & ? & _).
    unfold isize_max in *. lia. }
  destruct (receive_frames_spec recvmsg (sent_frame <$> ms) rfuel kr (FrameReceiver_new l))
    as (k' & r' & Hrec & _ & Hbr & _); [| |done|].
  - apply (stream_start recvmsg l (sent_frame <$> ms) kr [] []); try done.
    + lia.
    + by rewrite app_nil_r, Hu.
    + by rewrite app_nil_r, Hr, Hrr, fresh_rights.
    + rewrite Hr, Hrr. by apply fresh_messages.
  - simpl. by rewrite Hu.
  - rewrite length_fmap in Hrec. exists k', r'. split; [done|]. unfold buffered_bytes. by rewrite Hbr.
Qed.

(** ** Properties *)

(** C3: What one peer sends, the other receives. Send any messages through
    a [FrameSender] that accepts them, and flush it over a socket that takes
    the bytes in whatever portions; if it drains, a fresh [FrameReceiver]
    reading that stream, cut in any other way, returns one frame per
    message: same object, opcode, sequence number, payload and descriptors,
    in the order sent, and is left with nothing buffered. *)
Theorem channel_roundtrip {KS KR} (sendmsg : KS → list byte → list byte → KS * RawSend)
    (recvmsg : KR → Z → Z → KR * RawRecv) `{!SendSocket sendmsg, !StreamSocket recvmsg}
    (l : FrameLimits) (ms : list Message) (s s1 : FrameSender) (ks ks' : KS) (kr : KR) (sfuel rfuel : nat) :
  limits_ok l → send_limits_ok l → max_frame_fds l < 2 ^ 32 → Forall message_typed ms →
  Forall (λ m, len (m_fds m) ≤ recv_control_fds l) ms →
  len (concat (m_fds <$> ms)) ≤ max_pending_fds l →
  send_messages l (FrameSender_new l) ms = Some s →
  sent_bytes ks = [] → sent_rights ks = [] →
  (interruptions ks + length (queue_left (queue s)) < sfuel)%nat →
  flush sendmsg sfuel ks s = (ks', s1, Ok Drained) →
  unread kr = sent_bytes ks' → rights kr = sent_rights ks' → (retries kr < rfuel)%nat →
  ∃ kr' r',
    receive_frames recvmsg (length ms) rfuel kr (FrameReceiver_new l)
    = (kr', r', delivered <$> (sent_frame <$> ms)) ∧ buffered_bytes r' = 0.
Proof.
  intros Hl Hsl Hmf Hms Hctl Hpend Hsend Hks1 Hks2 Hsf Hflush Hu Hr Hrf.
  assert (send_inv (FrameSender_new l)) as Hnew.
  { pose proof Hsl as ((_ & _ & _ & _ & _ & [? _] & [? _]) & _).
    split; [done|]. split; [constructor|]. split; [constructor|]. done. }
  destruct (send_messages_spec l (FrameSender_new l) ms s) as (Hq & Hok & Hs & Hqf & Hff);
    try done; [constructor|]. simpl in Hq.
  by eapply (channel_delivers sendmsg recvmsg).
Qed.

Definition sample_messages : list Message :=
  [ mkMessage 2 1 9 [Byte.x61; Byte.x62; Byte.x63] [7; 8]; mkMessage 0 4 10 [] [] ].

Definition sample_sender : FrameSender :=
  default (FrameSender_new FrameLimits_default)
    (send_messages FrameLimits_default (FrameSender_new FrameLimits_default) sample_messages).

Definition sample_pipe : Pipe.Pipe := Pipe.mkPipe [] [] [5; 0; 10; 100; 100].

Definition sample_flush : Pipe.Pipe * FrameSender * FrameRes FlushOutcome :=
  flush Pipe.sendmsg 64 sample_pipe sample_sender.

Lemma channel_roundtrip_witness :
  ∃ kr' r',
    receive_frames SegmentQueue.recvmsg 2 64 sample_queue (FrameReceiver_new FrameLimits_default)
    = (kr', r', delivered <$> (sent_frame <$> sample_messages)) ∧ buffered_bytes r' = 0.
Proof.
  apply (channel_roundtrip Pipe.sendmsg SegmentQueue.recvmsg FrameLimits_default sample_messages
    sample_sender sample_flush.1.2 sample_pipe sample_flush.1.1 sample_queue 64 64).
  - apply default_limits_ok.
  - by vm_compute.
  - by vm_compute.
  - constructor; [|constructor; [|constructor]].
    + split; [by vm_compute|]. split; [by vm_compute|]. split; [by vm_compute|].
      split; [repeat constructor; by vm_compute|by vm_compute].
    + split; [by vm_compute|]. split; [by vm_compute|]. split; [by vm_compute|].
      split; [constructor|by vm_compute].
  - repeat constructor; by vm_compute.
  - by vm_compute.
  - by vm_compute.
  - done.
  - done.
  - vm_compute. lia.
  - by vm_compute.
  - by vm_compute.
  - by vm_compute.
  - vm_compute. lia.
Defined.
