(* ===== verification/ClientNode.v ===== *)
(** * ClientNode v6 messages

    Models [protocol/src/wire/client_node/mod.rs]: the data types, the
    encoders of methods and events, the decoders with their limits, and the
    selection of frame-local descriptors. Encoders run on [PodBuilder],
    decoders on [PodParser]; descriptors come from [FrameFds]. *)

From S2P Require Import Prelude Utf8 PodTypes PodCodec PodParser PodBuilder FrameHeader.

(** The kinds of [io::Error] this module returns; messages are dropped. *)
Inductive WireError := InvalidData | InvalidInput | Unsupported.
Notation WireRes := (Res WireError).

Definition INVALID_ID : Z := u32_max.
Definition SPA_IO_BUFFERS : Z := 1.
Definition SPA_PARAM_FORMAT : Z := 4.
Definition SPA_NODE_BUFFERS_FLAG_ALLOC : Z := 1.
Definition NODE_INFO_CHANGE_MASK : Z := 0x7.
Definition PORT_INFO_CHANGE_MASK : Z := 0xf.
Definition NODE_INFO_CHANGE_PROPS : Z := 2.
Definition NODE_INFO_CHANGE_PARAMS : Z := 4.
Definition INITIAL_ENCODE_CAPACITY : Z := 1024.
Definition MAX_ENCODE_CAPACITY : Z := 16 * 1024 * 1024.

Definition METHOD_UPDATE : Z := 2.
Definition METHOD_PORT_UPDATE : Z := 3.
Definition METHOD_SET_ACTIVE : Z := 4.
Definition EVENT_TRANSPORT : Z := 0.
Definition EVENT_COMMAND : Z := 4.
Definition EVENT_PORT_SET_PARAM : Z := 7.
Definition EVENT_PORT_USE_BUFFERS : Z := 8.
Definition EVENT_PORT_SET_IO : Z := 9.
Definition EVENT_SET_ACTIVATION : Z := 10.

Record Limits := mkWireLimits {
  max_params : Z;
  max_properties : Z;
  max_param_info : Z;
  max_buffers : Z;
  max_metas : Z;
  max_datas : Z;
  max_pod_bytes : Z;
}.

Definition Limits_default : Limits := {|
  max_params := 64;
  max_properties := 256;
  max_param_info := 64;
  max_buffers := 64;
  max_metas := 64;
  max_datas := 256;
  max_pod_bytes := 1024 * 1024;
|}.

Inductive Direction := Input | Output.
Definition direction_value (d : Direction) : Z := match d with Input => 0 | Output => 1 end.

Record RegionRef := mkRegion { memory_id : Z; offset : Z; size : Z }.
Record ParamInfo := mkParamInfo { pi_id : Z; pi_flags : Z }.

(** A Rust [String] is its UTF-8 bytes. *)
Notation PropertyPairs := (list (list byte * list byte)).

Record NodeInfo := mkNodeInfo {
  max_input_ports : Z;
  max_output_ports : Z;
  ni_change_mask : Z;
  ni_flags : Z;
  ni_properties : PropertyPairs;
  ni_params : list ParamInfo;
}.

Record PortInfo := mkPortInfo {
  po_change_mask : Z;
  po_flags : Z;
  rate_num : Z;
  rate_denom : Z;
  po_properties : PropertyPairs;
  po_params : list ParamInfo;
}.

Record Update := mkUpdate {
  u_change_mask : Z;
  u_params : list RawPod;
  u_info : option NodeInfo;
}.

Record PortUpdate := mkPortUpdate {
  pu_direction : Direction;
  pu_port_id : Z;
  pu_change_mask : Z;
  pu_params : list RawPod;
  pu_info : option PortInfo;
}.

Inductive Method :=
| MUpdate (v : Update)
| MPortUpdate (v : PortUpdate)
| MSetActive (active : bool).

Definition method_opcode (m : Method) : Z :=
  match m with
  | MUpdate _ => METHOD_UPDATE
  | MPortUpdate _ => METHOD_PORT_UPDATE
  | MSetActive _ => METHOD_SET_ACTIVE
  end.

Record MetaDescriptor := mkMeta { meta_type : Z; meta_size : Z }.
Record DataDescriptor := mkData {
  data_type : Z; data_id : Z; data_flags : Z; map_offset : Z; max_size : Z;
}.
Record BufferDescriptor := mkBuffer {
  metadata : RegionRef;
  metas : list MetaDescriptor;
  datas : list DataDescriptor;
}.

Record Transport := mkTransport { trigger_fd : Z; completion_fd : Z; t_activation : RegionRef }.

Record PortSetParam := mkPortSetParam {
  sp_direction : Direction; sp_port_id : Z; param_id : Z; sp_flags : Z; param : option RawPod;
}.

Record PortUseBuffers := mkPortUseBuffers {
  ub_direction : Direction; ub_port_id : Z; ub_mix_id : option Z; ub_flags : Z;
  buffers : list BufferDescriptor;
}.

Inductive PortSetIo :=
| IoSet (direction : Direction) (port_id : Z) (mix_id : option Z) (io_id : Z) (region : RegionRef)
| IoClear (direction : Direction) (port_id : Z) (mix_id : option Z) (io_id : Z).

Inductive SetActivation :=
| ActivationSet (node_id signal_fd : Z) (activation : RegionRef)
| ActivationRemove (node_id : Z).

Inductive Command := Suspend | Pause | Start.
Definition command_value (c : Command) : Z := match c with Suspend => 0 | Pause => 1 | Start => 2 end.

Inductive Event :=
| ETransport (v : Transport)
| EPortSetParam (v : PortSetParam)
| EPortUseBuffers (v : PortUseBuffers)
| EPortSetIo (v : PortSetIo)
| ESetActivation (v : SetActivation)
| ECommand (v : Command).

(** ** Helpers *)
Definition pod_error (_ : PodError) : WireError := InvalidData.

(** [value as i32] and [value as u32] *)
Notation as_i32 := (swrap 32).
Notation as_u32 := (wrap 32).
Notation as_i64 := (swrap 64).
Notation as_u64 := (wrap 64).

Definition optional_id (v : Z) : option Z := if bool_decide (v ≠ INVALID_ID) then Some v else None.
Definition wire_id (v : option Z) : Z := default INVALID_ID v.

Definition is_clear_region (r : RegionRef) : bool :=
  bool_decide (memory_id r = INVALID_ID) && bool_decide (offset r = 0) && bool_decide (size r = 0).

Definition reject_partial_clear (r : RegionRef) : PodRes unit :=
  if bool_decide (memory_id r = INVALID_ID ∨ size r = 0)
  then Err (Invalid "invalid partial region-clear sentinel") else
  _ ← ok_or (checked_add 32 (offset r) (size r)) (Invalid "region range overflows u32");
  Ok tt.

Definition direction_of (v : Z) : PodRes Direction :=
  if bool_decide (v = 0) then Ok Input else
  if bool_decide (v = 1) then Ok Output else Err (Invalid "invalid SPA direction").

(** [count]: the loop bound, a [usize]. *)
Definition count (v max : Z) : PodRes nat :=
  if bool_decide (v < 0) then Err (Invalid "negative count") else
  if bool_decide (v > max) then Err (Invalid "count exceeds limit") else
  Ok (Z.to_nat v).

Definition ensure_count (v max : Z) : WireRes unit :=
  if bool_decide (v > max ∨ v > 2 ^ 31 - 1) then Err InvalidInput else Ok tt.

Definition u32_try_from (v : Z) : option Z :=
  if bool_decide (0 ≤ v < 2 ^ 32) then Some v else None.
Definition i32_try_from (v : Z) : option Z :=
  if bool_decide (v < 2 ^ 31) then Some v else None.

Definition fd_index (v : Z) : WireRes Z := ok_or (u32_try_from v) InvalidData.
Definition pod_fd_index (v : Z) : PodRes Z :=
  ok_or (u32_try_from v) (Invalid "negative frame FD index").

Definition validate_format_object (bytes : list byte) : PodRes unit :=
  if bool_decide (len bytes < 16)
  then Err (Invalid "SPA_PARAM_Format payload is not a Format object") else
  t ← read_u32 bytes 8;
  if bool_decide (t ≠ into_u32 OFormat)
  then Err (Invalid "SPA_PARAM_Format payload is not a Format object") else Ok tt.

Definition validate_data (d : DataDescriptor) : PodRes unit :=
  if bool_decide (max_size d = 0) then Err (Invalid "data descriptor has zero max_size") else
  _ ← ok_or (checked_add 32 (map_offset d) (max_size d)) (Invalid "data mapping range overflows u32");
  Ok tt.

(** [for x in xs] with [?] in the body. *)
Fixpoint try_each {E A} (f : A → Res E unit) (xs : list A) : Res E unit :=
  match xs with [] => Ok tt | x :: xs => _ ← f x; try_each f xs end.

Definition validate_method (m : Method) (l : Limits) : WireRes unit :=
  match m with
  | MSetActive _ => Ok tt
  | MUpdate _ | MPortUpdate _ =>
      let '(params, property_count, param_info_count) :=
        match m with
        | MUpdate v =>
            (u_params v,
             match u_info v with
             | None => 0
             | Some info =>
                 Z.b2z (bool_decide (Z.land (ni_change_mask info) NODE_INFO_CHANGE_PROPS ≠ 0)) *
                 len (ni_properties info)
             end,
             match u_info v with
             | None => 0
             | Some info =>
                 Z.b2z (bool_decide (Z.land (ni_change_mask info) NODE_INFO_CHANGE_PARAMS ≠ 0)) *
                 len (ni_params info)
             end)
        | MPortUpdate v =>
            (pu_params v,
             match pu_info v with None => 0 | Some info => len (po_properties info) end,
             match pu_info v with None => 0 | Some info => len (po_params info) end)
        | MSetActive _ => ([], 0, 0)
        end in
      _ ← ensure_count (len params) (max_params l);
      _ ← ensure_count property_count (max_properties l);
      _ ← ensure_count param_info_count (max_param_info l);
      if existsb (λ pod, bool_decide (raw_size pod > max_pod_bytes l)) params
      then Err InvalidInput else Ok tt
  end.

Definition validate_port_use_buffers (v : PortUseBuffers) (l : Limits) : WireRes unit :=
  if bool_decide (Z.land (ub_flags v) SPA_NODE_BUFFERS_FLAG_ALLOC ≠ 0) then Err InvalidInput else
  _ ← ensure_count (len (buffers v)) (max_buffers l);
  try_each (λ buffer,
    _ ← map_err pod_error (reject_partial_clear (metadata buffer));
    _ ← ensure_count (len (metas buffer)) (max_metas l);
    _ ← ensure_count (len (datas buffer)) (max_datas l);
    try_each (λ d, map_err pod_error (validate_data d)) (datas buffer)) (buffers v).

(** ** Encoding *)

(** Grow the buffer until the message fits; 15 capacities reach the maximum. *)
Fixpoint encode_loop (fuel : nat) (capacity : Z) (build : BuilderOp) : WireRes (list byte) :=
  match fuel with
  | O => Panic
  | S fuel =>
      match build_with (push_struct build) (zeros capacity) with
      | Ok pod => Ok pod
      | Err NoSpace =>
          if bool_decide (capacity < MAX_ENCODE_CAPACITY)
          then encode_loop fuel (Z.min (saturating_mul capacity 2) MAX_ENCODE_CAPACITY) build
          else Err InvalidInput
      | Err e => Err (pod_error e)
      | Panic => Panic
      end
  end.

Definition encode_payload (build : BuilderOp) : WireRes (list byte) :=
  encode_loop 15 INITIAL_ENCODE_CAPACITY build.

(** [for x in xs { sb = sb.push..(x) }] *)
Definition op_each {A} (f : A → BuilderOp) (xs : list A) : BuilderOp :=
  foldr (λ x op, f x ▷ op) op_id xs.

Definition push_info_tail (properties : PropertyPairs) (params : list ParamInfo) : BuilderOp :=
  push_int (as_i32 (len properties)) ▷
  op_each (λ '(key, value), push_string key ▷ push_string value) properties ▷
  push_int (as_i32 (len params)) ▷
  op_each (λ p, push_id (mkId (pi_id p)) ▷ push_int (as_i32 (pi_flags p))) params.

Definition push_node_info (info : NodeInfo) : BuilderOp :=
  let change_mask := Z.land (ni_change_mask info) NODE_INFO_CHANGE_MASK in
  let properties :=
    if bool_decide (Z.land change_mask NODE_INFO_CHANGE_PROPS ≠ 0) then ni_properties info else [] in
  let params :=
    if bool_decide (Z.land change_mask NODE_INFO_CHANGE_PARAMS ≠ 0) then ni_params info else [] in
  push_int (as_i32 (max_input_ports info)) ▷
  push_int (as_i32 (max_output_ports info)) ▷
  push_long (as_i64 change_mask) ▷
  push_long (as_i64 (ni_flags info)) ▷
  push_info_tail properties params.

Definition push_port_info (info : PortInfo) : BuilderOp :=
  push_long (as_i64 (Z.land (po_change_mask info) PORT_INFO_CHANGE_MASK)) ▷
  push_long (as_i64 (po_flags info)) ▷
  push_int (as_i32 (rate_num info)) ▷
  push_int (as_i32 (rate_denom info)) ▷
  push_info_tail (po_properties info) (po_params info).

(** The closures of [encode_method_with_limits]. *)
Definition build_method (m : Method) : BuilderOp :=
  match m with
  | MUpdate v =>
      push_int (as_i32 (u_change_mask v)) ▷
      push_int (as_i32 (len (u_params v))) ▷
      op_each (push_pod pod_raw) (u_params v) ▷
      match u_info v with Some info => push_struct (push_node_info info) | None => push_none end
  | MPortUpdate v =>
      push_int (as_i32 (direction_value (pu_direction v))) ▷
      push_int (as_i32 (pu_port_id v)) ▷
      push_int (as_i32 (pu_change_mask v)) ▷
      push_int (as_i32 (len (pu_params v))) ▷
      op_each (push_pod pod_raw) (pu_params v) ▷
      match pu_info v with Some info => push_struct (push_port_info info) | None => push_none end
  | MSetActive active => push_bool active
  end.

Definition encode_method_with_limits (m : Method) (l : Limits) : WireRes (list byte) :=
  _ ← validate_method m l;
  encode_payload (build_method m).

Definition encode_method (m : Method) : WireRes (list byte) :=
  encode_method_with_limits m Limits_default.

Definition push_region (r : RegionRef) : BuilderOp :=
  push_int (as_i32 (memory_id r)) ▷ push_int (as_i32 (offset r)) ▷ push_int (as_i32 (size r)).

Definition encode_transport (trigger_index completion_index : Z) (activation : RegionRef) :
    WireRes (list byte) :=
  _ ← map_err pod_error (reject_partial_clear activation);
  trigger_index ← ok_or (i32_try_from trigger_index) InvalidInput;
  completion_index ← ok_or (i32_try_from completion_index) InvalidInput;
  encode_payload (push_fd trigger_index ▷ push_fd completion_index ▷ push_region activation).

Definition encode_port_set_param (v : PortSetParam) : WireRes (list byte) :=
  if bool_decide (param_id v ≠ SPA_PARAM_FORMAT) then Err InvalidInput else
  _ ← match param v with
      | Some p => map_err pod_error (validate_format_object (raw_data p))
      | None => Ok tt
      end;
  encode_payload (
    push_int (as_i32 (direction_value (sp_direction v))) ▷
    push_int (as_i32 (sp_port_id v)) ▷
    push_id (mkId (param_id v)) ▷
    push_int (as_i32 (sp_flags v)) ▷
    match param v with Some p => push_pod pod_raw p | None => push_none end).

Definition push_buffer (b : BufferDescriptor) : BuilderOp :=
  push_region (metadata b) ▷
  push_int (as_i32 (len (metas b))) ▷
  op_each (λ m, push_id (mkId (meta_type m)) ▷ push_int (as_i32 (meta_size m))) (metas b) ▷
  push_int (as_i32 (len (datas b))) ▷
  op_each (λ d,
    push_id (mkId (data_type d)) ▷ push_int (as_i32 (data_id d)) ▷
    push_int (as_i32 (data_flags d)) ▷ push_int (as_i32 (map_offset d)) ▷
    push_int (as_i32 (max_size d))) (datas b).

Definition encode_port_use_buffers (v : PortUseBuffers) : WireRes (list byte) :=
  _ ← validate_port_use_buffers v Limits_default;
  encode_payload (
    push_int (as_i32 (direction_value (ub_direction v))) ▷
    push_int (as_i32 (ub_port_id v)) ▷
    push_int (as_i32 (wire_id (ub_mix_id v))) ▷
    push_int (as_i32 (ub_flags v)) ▷
    push_int (as_i32 (len (buffers v))) ▷
    op_each push_buffer (buffers v)).

Definition clear_region : RegionRef := mkRegion INVALID_ID 0 0.

Definition encode_port_set_io (v : PortSetIo) : WireRes (list byte) :=
  let '(direction, port_id, mix_id, io_id, region) :=
    match v with
    | IoSet direction port_id mix_id io_id region => (direction, port_id, mix_id, io_id, region)
    | IoClear direction port_id mix_id io_id => (direction, port_id, mix_id, io_id, clear_region)
    end in
  if bool_decide (io_id ≠ SPA_IO_BUFFERS) then Err InvalidInput else
  _ ← (if negb (is_clear_region region) then map_err pod_error (reject_partial_clear region)
       else Ok tt);
  encode_payload (
    push_int (as_i32 (direction_value direction)) ▷
    push_int (as_i32 port_id) ▷
    push_int (as_i32 (wire_id mix_id)) ▷
    push_id (mkId io_id) ▷
    push_region region).

Definition encode_set_activation (node_id : Z) (v : option (Z * RegionRef)) : WireRes (list byte) :=
  '(fd, region) ←
    match v with
    | Some (fd, region) =>
        _ ← map_err pod_error (reject_partial_clear region);
        fd ← ok_or (i32_try_from fd) InvalidInput;
        Ok (fd, region)
    | None => Ok (-1, clear_region)
    end;
  encode_payload (push_int (as_i32 node_id) ▷ push_fd fd ▷ push_region region).

Definition command_pod (c : Command) : WireRes RawPod :=
  map_err pod_error (RawPodOwned_wrap
    (u32_bytes 8 ++ u32_bytes (into_u32 TObject) ++ u32_bytes 0x30002 ++
     u32_bytes (command_value c))).

Definition encode_command (c : Command) : WireRes (list byte) :=
  pod ← command_pod c;
  encode_payload (push_pod pod_raw pod).

(** ** Decoding *)

(** [for _ in 0..n] that pushes what the body pops. *)
Fixpoint pop_repeat {A} (n : nat) (m : PM A) : PM (list A) :=
  match n with
  | O => mret []
  | S n => x ← m; xs ← pop_repeat n m; mret (x :: xs)
  end.

(** [if sp.available() != 0 { return Err(..) }] *)
Definition no_trailing (msg : string) : PM unit := λ p,
  (p, if bool_decide (available p ≠ 0) then Err (Invalid msg) else Ok tt).

Definition parse_payload {T} (payload : list byte) (parse : PM T) : WireRes T :=
  match
    pop_struct (value ← parse; _ ← no_trailing "trailing bytes in ClientNode struct"; mret value)
      (Parser_new payload)
  with
  | (_, Ok (value, size)) =>
      if bool_decide (size ≠ len payload) then Err InvalidData else Ok value
  | (_, Err e) => Err (pod_error e)
  | (_, Panic) => Panic
  end.

Definition pop_u32 : PM Z := v ← pop_int; mret (as_u32 v).
Definition pop_u64 : PM Z := v ← pop_long; mret (as_u64 v).
Definition pop_id_u32 : PM Z := i ← pop_id Z; mret (id_value i).
Definition pop_count (max : Z) : PM nat := v ← pop_int; pm_res (count v max).
Definition pop_direction : PM Direction := v ← pop_int; pm_res (direction_of v).

Definition pop_region : PM RegionRef :=
  memory_id ← pop_u32; offset ← pop_u32; size ← pop_u32; mret (mkRegion memory_id offset size).

Definition pop_pods (n : nat) (max_bytes : Z) : PM (list RawPod) :=
  pop_repeat n (
    pod ← pop_raw_pod;
    if bool_decide (raw_size pod > max_bytes)
    then pm_res (Err (Invalid "parameter POD exceeds configured byte limit"))
    else pm_res (RawPodOwned_wrap (raw_data pod))).

Definition pop_info_tail (l : Limits) : PM (PropertyPairs * list ParamInfo) :=
  n_properties ← pop_count (max_properties l);
  properties ← pop_repeat n_properties (key ← pop_string; value ← pop_string; mret (key, value));
  n_params ← pop_count (max_param_info l);
  params ← pop_repeat n_params (id ← pop_id_u32; flags ← pop_u32; mret (mkParamInfo id flags));
  mret (properties, params).

(** Parse a nested struct out of a raw pod. *)
Definition parse_nested {T} (pod : RawPod) (parse : PM T) : PodRes T :=
  match (pop_struct parse (Parser_new (raw_data pod))).2 with
  | Ok v => Ok v.1
  | Err e => Err e
  | Panic => Panic
  end.

Definition pop_node_info (l : Limits) : PM NodeInfo :=
  max_input_ports ← pop_u32;
  max_output_ports ← pop_u32;
  m ← pop_u64;
  flags ← pop_u64;
  '(properties, params) ← pop_info_tail l;
  _ ← no_trailing "trailing node info fields";
  mret (mkNodeInfo max_input_ports max_output_ports (Z.land m NODE_INFO_CHANGE_MASK) flags
    properties params).

Definition pop_optional_node_info (l : Limits) : PM (option NodeInfo) :=
  pod ← pop_raw_pod;
  match raw_type pod with
  | TNone => mret None
  | TStruct => info ← pm_res (parse_nested pod (pop_node_info l)); mret (Some info)
  | _ => pm_res (Err (Invalid "node info must be Struct or None"))
  end.

Definition pop_port_info (l : Limits) : PM PortInfo :=
  m ← pop_u64;
  flags ← pop_u64;
  rate_num ← pop_u32;
  rate_denom ← pop_u32;
  '(properties, params) ← pop_info_tail l;
  _ ← no_trailing "trailing port info fields";
  mret (mkPortInfo (Z.land m PORT_INFO_CHANGE_MASK) flags rate_num rate_denom properties params).

Definition pop_optional_port_info (l : Limits) : PM (option PortInfo) :=
  pod ← pop_raw_pod;
  match raw_type pod with
  | TNone => mret None
  | TStruct => info ← pm_res (parse_nested pod (pop_port_info l)); mret (Some info)
  | _ => pm_res (Err (Invalid "port info must be Struct or None"))
  end.

(** The closures of [decode_method]. *)
Definition pop_update (l : Limits) : PM Method :=
  change_mask ← pop_u32;
  n ← pop_count (max_params l);
  params ← pop_pods n (max_pod_bytes l);
  info ← pop_optional_node_info l;
  mret (MUpdate (mkUpdate change_mask params info)).

Definition pop_port_update (l : Limits) : PM Method :=
  direction ← pop_direction;
  port_id ← pop_u32;
  change_mask ← pop_u32;
  n ← pop_count (max_params l);
  params ← pop_pods n (max_pod_bytes l);
  info ← pop_optional_port_info l;
  mret (MPortUpdate (mkPortUpdate direction port_id change_mask params info)).

Definition decode_method (opcode : Z) (payload : list byte) (l : Limits) : WireRes Method :=
  if bool_decide (opcode = METHOD_UPDATE) then parse_payload payload (pop_update l) else
  if bool_decide (opcode = METHOD_PORT_UPDATE) then parse_payload payload (pop_port_update l) else
  if bool_decide (opcode = METHOD_SET_ACTIVE)
  then parse_payload payload (active ← pop_bool; mret (MSetActive active)) else
  Err Unsupported.

(** ** Descriptors *)
Fixpoint require_each (fds : FrameFds) (seen indices : list Z) : WireRes unit :=
  match indices with
  | [] => Ok tt
  | index :: indices =>
      if bool_decide (index ∈ seen) then Err InvalidData else
      _ ← map_err (λ _, InvalidData) (FrameFds_get fds index);
      require_each fds (seen ++ [index]) indices
  end.

Definition require_fds (fds : FrameFds) (indices : list Z) : WireRes unit :=
  if bool_decide (len fds ≠ len indices) then Err InvalidData else require_each fds [] indices.

Definition take_fd (fds : FrameFds) (index : Z) : FrameFds * WireRes Z :=
  let '(fds', r) := FrameFds_take fds index in (fds', map_err (λ _, InvalidData) r).

(** ** Events *)
Definition decode_command (bytes : list byte) : PodRes Command :=
  if bool_decide (len bytes ≠ 16)
  then Err (Invalid "command is not an exact SPA Node command object") else
  a ← read_u32 bytes 0;
  b ← read_u32 bytes 4;
  c ← read_u32 bytes 8;
  if bool_decide (a ≠ 8 ∨ b ≠ into_u32 TObject ∨ c ≠ 0x30002)
  then Err (Invalid "command is not an exact SPA Node command object") else
  id ← read_u32 bytes 12;
  if bool_decide (id = 0) then Ok Suspend else
  if bool_decide (id = 1) then Ok Pause else
  if bool_decide (id = 2) then Ok Start else Err (Invalid "unsupported node command").

Definition pop_transport : PM (Z * Z * RegionRef) :=
  t ← pop_fd; trigger ← pm_res (pod_fd_index (fd_value t));
  c ← pop_fd; completion ← pm_res (pod_fd_index (fd_value c));
  activation ← pop_region;
  _ ← pm_res (reject_partial_clear activation);
  mret (trigger, completion, activation).

Definition pop_port_set_param (l : Limits) : PM Event :=
  direction ← pop_direction;
  port_id ← pop_u32;
  param_id ← pop_id_u32;
  if bool_decide (param_id ≠ SPA_PARAM_FORMAT)
  then pm_res (Err (Invalid "unsupported first-cycle port parameter")) else
  flags ← pop_u32;
  pod ← pop_raw_pod;
  param ← pm_res (match raw_type pod with
    | TNone => Ok None
    | TObject => _ ← validate_format_object (raw_data pod);
                 p ← RawPodOwned_wrap (raw_data pod); Ok (Some p)
    | _ => Err (Invalid "port parameter must be Object or None")
    end);
  if match param with Some p => bool_decide (raw_size p > max_pod_bytes l) | None => false end
  then pm_res (Err (Invalid "port parameter exceeds configured byte limit")) else
  mret (EPortSetParam (mkPortSetParam direction port_id param_id flags param)).

Definition pop_meta : PM MetaDescriptor :=
  type_id ← pop_id_u32; size ← pop_u32; mret (mkMeta type_id size).

Definition pop_data : PM DataDescriptor :=
  type_id ← pop_id_u32; data_id ← pop_u32; flags ← pop_u32; map_offset ← pop_u32;
  max_size ← pop_u32;
  let data := mkData type_id data_id flags map_offset max_size in
  _ ← pm_res (validate_data data);
  mret data.

Definition pop_buffer (l : Limits) : PM BufferDescriptor :=
  metadata ← pop_region;
  _ ← pm_res (reject_partial_clear metadata);
  n_metas ← pop_count (max_metas l);
  metas ← pop_repeat n_metas pop_meta;
  n_datas ← pop_count (max_datas l);
  datas ← pop_repeat n_datas pop_data;
  mret (mkBuffer metadata metas datas).

Definition pop_port_use_buffers (l : Limits) : PM Event :=
  direction ← pop_direction;
  port_id ← pop_u32;
  mix ← pop_u32;
  flags ← pop_u32;
  if bool_decide (Z.land flags SPA_NODE_BUFFERS_FLAG_ALLOC ≠ 0)
  then pm_res (Err (Invalid "client-allocated buffers are outside the first-cycle surface")) else
  n_buffers ← pop_count (max_buffers l);
  buffers ← pop_repeat n_buffers (pop_buffer l);
  mret (EPortUseBuffers (mkPortUseBuffers direction port_id (optional_id mix) flags buffers)).

Definition pop_port_set_io : PM Event :=
  direction ← pop_direction;
  port_id ← pop_u32;
  mix ← pop_u32;
  io_id ← pop_id_u32;
  if bool_decide (io_id ≠ SPA_IO_BUFFERS)
  then pm_res (Err (Invalid "unsupported first-cycle port IO")) else
  region ← pop_region;
  if is_clear_region region
  then mret (EPortSetIo (IoClear direction port_id (optional_id mix) io_id))
  else _ ← pm_res (reject_partial_clear region);
       mret (EPortSetIo (IoSet direction port_id (optional_id mix) io_id region)).

Definition decode_transport (payload : list byte) (fds : FrameFds) : FrameFds * WireRes Event :=
  match parse_payload payload pop_transport with
  | Ok (trigger, completion, activation) =>
      match require_fds fds [trigger; completion] with
      | Ok _ =>
          match take_fd fds trigger with
          | (fds, Ok trigger_fd) =>
              match take_fd fds completion with
              | (fds, Ok completion_fd) =>
                  (fds, Ok (ETransport (mkTransport trigger_fd completion_fd activation)))
              | (fds, Err e) => (fds, Err e)
              | (fds, Panic) => (fds, Panic)
              end
          | (fds, Err e) => (fds, Err e)
          | (fds, Panic) => (fds, Panic)
          end
      | Err e => (fds, Err e)
      | Panic => (fds, Panic)
      end
  | Err e => (fds, Err e)
  | Panic => (fds, Panic)
  end.

Definition decode_set_activation (payload : list byte) (fds : FrameFds) : FrameFds * WireRes Event :=
  match parse_payload payload
    (node_id ← pop_u32; fd ← pop_fd; activation ← pop_region;
     mret (node_id, fd_value fd, activation)) with
  | Ok (node_id, fd, activation) =>
      if bool_decide (fd = -1) && is_clear_region activation then
        (fds, _ ← require_fds fds []; Ok (ESetActivation (ActivationRemove node_id)))
      else
        match (_ ← map_err pod_error (reject_partial_clear activation);
               index ← fd_index fd;
               _ ← require_fds fds [index];
               Ok index) with
        | Ok index =>
            match take_fd fds index with
            | (fds, Ok signal_fd) =>
                (fds, Ok (ESetActivation (ActivationSet node_id signal_fd activation)))
            | (fds, Err e) => (fds, Err e)
            | (fds, Panic) => (fds, Panic)
            end
        | Err e => (fds, Err e)
        | Panic => (fds, Panic)
        end
  | Err e => (fds, Err e)
  | Panic => (fds, Panic)
  end.

(** An event that carries no descriptors. *)
Definition decode_plain (payload : list byte) (fds : FrameFds) (parse : PM Event) :
    FrameFds * WireRes Event :=
  (fds, _ ← require_fds fds []; parse_payload payload parse).

Definition decode_event (opcode : Z) (payload : list byte) (fds : FrameFds) (l : Limits) :
    FrameFds * WireRes Event :=
  if bool_decide (opcode = EVENT_TRANSPORT) then decode_transport payload fds else
  if bool_decide (opcode = EVENT_PORT_SET_PARAM) then decode_plain payload fds (pop_port_set_param l) else
  if bool_decide (opcode = EVENT_PORT_USE_BUFFERS)
  then decode_plain payload fds (pop_port_use_buffers l) else
  if bool_decide (opcode = EVENT_PORT_SET_IO) then decode_plain payload fds pop_port_set_io else
  if bool_decide (opcode = EVENT_SET_ACTIVATION) then decode_set_activation payload fds else
  if bool_decide (opcode = EVENT_COMMAND)
  then decode_plain payload fds
    (pod ← pop_raw_pod; c ← pm_res (decode_command (raw_data pod)); mret (ECommand c)) else
  (fds, Err Unsupported).
