(* ===== verification/ClientNodeLaws.v ===== *)
(** * Laws of the ClientNode codec

    Decoders are total and keep their limits on any payload; descriptors are
    handed over exactly once; decoding inverts encoding. Each message is
    described once by its wire bytes: the builder writes them ([op_spec]) and
    the parser reads them back ([parses]). *)

From S2P Require Import Prelude Utf8 PodTypes PodCodec PodLaws PodCompound PodParser PodParserLaws.
From S2P Require Import PodBuilder FrameHeader ClientNode.

(** ** Decoders are safe *)
Create HintDb pm_safe.

Lemma pop_int_safe : pm_safe pop_int.
Proof. apply pop_pod_safe, _. Qed.
Lemma pop_long_safe : pm_safe pop_long.
Proof. apply pop_pod_safe, _. Qed.
Lemma pop_bool_safe : pm_safe pop_bool.
Proof. apply pop_pod_safe, _. Qed.
Lemma pop_string_safe : pm_safe pop_string.
Proof. apply pop_pod_safe, _. Qed.
Lemma pop_fd_safe : pm_safe pop_fd.
Proof. apply pop_pod_safe, _. Qed.
Lemma pop_idz_safe : pm_safe (pop_id Z).
Proof. apply pop_pod_safe, exact_laws, prim_exact, id_laws, _. Qed.

Lemma no_trailing_safe msg : pm_safe (no_trailing msg).
Proof. intros p Hp. split; [by apply moved_refl|]. simpl. by case_bool_decide. Qed.

Lemma pop_repeat_safe {A} n (m : PM A) : pm_safe m → pm_safe (pop_repeat n m).
Proof.
  intros Hm. induction n as [|n IH]; simpl; [apply pm_ret_safe|].
  apply pm_bind_safe; [done|]. intros x. apply pm_bind_safe; [done|]. intros xs. apply pm_ret_safe.
Qed.

Lemma RawPodOwned_wrap_total d : total (RawPodOwned_wrap d).
Proof. rewrite RawPodOwned_wrap_eq. apply RawPod_wrap_total. Qed.

Lemma count_total v max : total (count v max).
Proof. unfold count. by repeat case_bool_decide. Qed.
Lemma direction_of_total v : total (direction_of v).
Proof. unfold direction_of. by repeat case_bool_decide. Qed.
Lemma reject_partial_clear_total r : total (reject_partial_clear r).
Proof. unfold reject_partial_clear, checked_add. by repeat case_bool_decide. Qed.
Lemma validate_data_total d : total (validate_data d).
Proof. unfold validate_data, checked_add. by repeat case_bool_decide. Qed.

Lemma validate_format_object_total bs : total (validate_format_object bs).
Proof.
  unfold validate_format_object. case_bool_decide; [done|].
  destruct (read_u32_ok (E:=PodError) bs 8) as (v & -> & _); [lia..|]. res_cbn. by case_bool_decide.
Qed.

Lemma decode_command_total bs : total (decode_command bs).
Proof.
  unfold decode_command. case_bool_decide; [done|]. assert (len bs = 16) by lia.
  destruct (read_u32_ok (E:=PodError) bs 0) as (a & -> & _); [lia..|]. res_cbn.
  destruct (read_u32_ok (E:=PodError) bs 4) as (b & -> & _); [lia..|]. res_cbn.
  destruct (read_u32_ok (E:=PodError) bs 8) as (c & -> & _); [lia..|]. res_cbn.
  case_bool_decide; [done|].
  destruct (read_u32_ok (E:=PodError) bs 12) as (d & -> & _); [lia..|]. res_cbn.
  by repeat case_bool_decide.
Qed.

#[export] Hint Resolve pop_int_safe pop_long_safe pop_bool_safe pop_string_safe pop_fd_safe
  pop_idz_safe pop_raw_pod_safe no_trailing_safe : pm_safe.
#[export] Hint Resolve RawPodOwned_wrap_total count_total direction_of_total
  reject_partial_clear_total validate_data_total validate_format_object_total
  decode_command_total : total.

(** Walk a decoder: sequencing, branches, and the leaves above. *)
Ltac pm_safe_step :=
  match goal with
  | |- pm_safe (_ ≫= _) => apply pm_bind_safe; [|intros ?]
  | |- pm_safe (mret _) => apply pm_ret_safe
  | |- pm_safe (pop_repeat _ _) => apply pop_repeat_safe
  | |- pm_safe (pm_res _) => apply pm_res_safe
  | |- pm_safe (if ?b then _ else _) => destruct b
  | |- pm_safe (match ?x with _ => _ end) => destruct x
  | |- pm_safe _ => solve [auto with pm_safe]
  | |- total _ => solve [auto with total]
  end.

Lemma pop_u32_safe : pm_safe pop_u32.
Proof. unfold pop_u32. repeat pm_safe_step. Qed.
Lemma pop_u64_safe : pm_safe pop_u64.
Proof. unfold pop_u64. repeat pm_safe_step. Qed.
Lemma pop_id_u32_safe : pm_safe pop_id_u32.
Proof. unfold pop_id_u32. repeat pm_safe_step. Qed.
Lemma pop_count_safe max : pm_safe (pop_count max).
Proof. unfold pop_count. repeat pm_safe_step. Qed.
Lemma pop_direction_safe : pm_safe pop_direction.
Proof. unfold pop_direction. repeat pm_safe_step. Qed.
#[export] Hint Resolve pop_u32_safe pop_u64_safe pop_id_u32_safe pop_count_safe
  pop_direction_safe : pm_safe.
Lemma pop_region_safe : pm_safe pop_region.
Proof. unfold pop_region. repeat pm_safe_step. Qed.
Lemma pop_pods_safe n max : pm_safe (pop_pods n max).
Proof. unfold pop_pods. repeat pm_safe_step. Qed.
Lemma pop_info_tail_safe l : pm_safe (pop_info_tail l).
Proof. unfold pop_info_tail. repeat pm_safe_step. Qed.
#[export] Hint Resolve pop_region_safe pop_pods_safe pop_info_tail_safe : pm_safe.
Lemma pop_node_info_safe l : pm_safe (pop_node_info l).
Proof. unfold pop_node_info. repeat pm_safe_step. Qed.
Lemma pop_port_info_safe l : pm_safe (pop_port_info l).
Proof. unfold pop_port_info. repeat pm_safe_step. Qed.
Lemma pop_buffer_safe l : pm_safe (pop_buffer l).
Proof. unfold pop_buffer, pop_meta, pop_data. cbv zeta. repeat pm_safe_step. Qed.
#[export] Hint Resolve pop_node_info_safe pop_port_info_safe pop_buffer_safe : pm_safe.

Lemma parse_nested_total {T} pod (m : PM T) :
  pm_safe m → len (raw_data pod) ≤ isize_max → total (parse_nested pod m).
Proof.
  intros Hm Hl. unfold parse_nested.
  destruct (pop_struct_safe m Hm (Parser_new (raw_data pod))) as [_ Ht]; [by apply Parser_new_wf|].
  by destruct (pop_struct m _) as [p [v|e|]].
Qed.

(** A raw pod popped from a parser is part of its data. *)
Lemma pop_raw_pod_len p p' r :
  parser_wf p → pop_raw_pod p = (p', Ok r) → len (raw_data r) ≤ isize_max.
Proof.
  intros [Hp Hmax] Hpop. unfold pop_raw_pod in Hpop.
  destruct (slice_from (p_data p) (p_pos p)) as [d|e|] eqn:Hd; [|done..]. simpl in Hpop.
  destruct (RawPod_wrap d) as [r'|e|] eqn:Hr; [|done..]. injection Hpop as _ <-.
  apply slice_len in Hd. rewrite (raw_wf_size r' (raw_wrap_wf _ _ Hr)).
  apply RawPod_wrap_inv in Hr as (s & t & _ & _ & _ & _ & ? & _). lia.
Qed.

Lemma pm_bind_raw_safe {A} (f : RawPod → PM A) :
  (∀ r, len (raw_data r) ≤ isize_max → pm_safe (f r)) → pm_safe (pop_raw_pod ≫= f).
Proof.
  intros Hf p Hp. unfold mbind, pm_bind. destruct (pop_raw_pod_safe p Hp) as [Hmv Ht].
  pose proof (λ p' r, pop_raw_pod_len p p' r Hp) as Hl.
  destruct (pop_raw_pod p) as [p' [r|e|]]; simpl in *; [|done..].
  destruct (Hf r (Hl p' r eq_refl) p') as [Hmv' ?]; [by eapply moved_wf|].
  split; [by eapply moved_trans|done].
Qed.

Lemma pop_optional_node_info_safe l : pm_safe (pop_optional_node_info l).
Proof.
  unfold pop_optional_node_info. apply pm_bind_raw_safe. intros r Hr.
  destruct (raw_type r); repeat pm_safe_step. apply parse_nested_total; auto with pm_safe.
Qed.
Lemma pop_optional_port_info_safe l : pm_safe (pop_optional_port_info l).
Proof.
  unfold pop_optional_port_info. apply pm_bind_raw_safe. intros r Hr.
  destruct (raw_type r); repeat pm_safe_step. apply parse_nested_total; auto with pm_safe.
Qed.
#[export] Hint Resolve pop_optional_node_info_safe pop_optional_port_info_safe : pm_safe.

Lemma parse_payload_total {T} payload (m : PM T) :
  pm_safe m → len payload ≤ isize_max → total (parse_payload payload m).
Proof.
  intros Hm Hl. unfold parse_payload.
  set (m' := (value ← m; _ ← no_trailing _; mret value)).
  assert (pm_safe m') as Hm' by (unfold m'; repeat pm_safe_step; done).
  destruct (pop_struct_safe m' Hm' (Parser_new payload)) as [_ Ht]; [by apply Parser_new_wf|].
  destruct (pop_struct m' _) as [p [[v n]|e|]]; [|done..]. by case_bool_decide.
Qed.

Lemma decode_method_total opcode payload l :
  len payload ≤ isize_max → total (decode_method opcode payload l).
Proof.
  intros Hl. unfold decode_method.
  repeat case_bool_decide; try done; apply parse_payload_total; try done;
    unfold pop_update, pop_port_update; repeat pm_safe_step.
Qed.

(** ** Descriptors *)
Lemma require_each_Ok fds seen indices :
  require_each fds seen indices = Ok tt →
  NoDup indices ∧ (∀ i, i ∈ indices → i ∉ seen ∧ ∃ fd, FrameFds_get fds i = Ok fd).
Proof.
  revert seen. induction indices as [|i indices IH]; intros seen; simpl.
  { intros _. split; [constructor|]. by intros i ?%elem_of_nil. }
  case_bool_decide as Hi; [done|]. intros H. apply bind_Ok_inv in H as (fd & Hg & H).
  apply map_err_Ok_inv in Hg. destruct (IH _ H) as [Hnd Hall]. split.
  - constructor; [|done]. intros Hin. destruct (Hall i Hin) as [Hns _]. apply Hns. set_solver.
  - intros j [->|Hj]%elem_of_cons; [eauto|]. destruct (Hall j Hj) as [Hns ?]. split; [set_solver|done].
Qed.

Lemma require_fds_total fds indices : total (require_fds fds indices).
Proof.
  unfold require_fds. case_bool_decide as Hlen; [done|]. clear Hlen. generalize (@nil Z) as seen.
  induction indices as [|i indices IH]; intros seen; simpl; [done|]. case_bool_decide; [done|].
  apply total_bind; [|intros; apply IH]. apply total_map_err. unfold FrameFds_get.
  apply total_bind; intros; apply total_ok_or.
Qed.
#[export] Hint Resolve require_fds_total : total.

Lemma FrameFds_get_Ok fds i fd :
  FrameFds_get fds i = Ok fd → fds !! Z.to_nat i = Some (Some fd).
Proof.
  unfold FrameFds_get. destruct (fds !! Z.to_nat i) as [[x|]|]; simpl; [|done..]. by intros [= ->].
Qed.

Lemma take_fd_Ok fds i fd :
  fds !! Z.to_nat i = Some (Some fd) → take_fd fds i = (<[Z.to_nat i := None]> fds, Ok fd).
Proof. intros H. unfold take_fd, FrameFds_take. by rewrite H. Qed.

Definition event_fds (e : Event) : list Z :=
  match e with
  | ETransport v => [trigger_fd v; completion_fd v]
  | ESetActivation (ActivationSet _ fd _) => [fd]
  | _ => []
  end.

(** What becomes of the frame's table: on success every descriptor it held
    has moved into the event, on failure nothing has moved. *)
Definition fds_transferred (fds : FrameFds) (r : FrameFds * WireRes Event) : Prop :=
  match r.2 with
  | Ok e => event_fds e ≡ₚ omap id fds ∧ Forall (λ slot, slot = None) r.1 ∧ len r.1 = len fds
  | Err _ => r.1 = fds
  | Panic => False
  end.

(** Invert a successful straight-line computation, or run of a decoder. *)
Ltac ok_inv H :=
  repeat match type of H with
  | mbind _ _ = Ok _ => apply bind_Ok_inv in H; destruct H as (? & ? & H)
  | (if bool_decide ?P then _ else _) = Ok _ => destruct (bool_decide_reflect P); [discriminate H|]
  end.

Lemma commit_Ok {A} p (r : PodRes (A * Z)) p' a :
  commit p r = (p', Ok a) → ∃ pos, r = Ok (a, pos).
Proof. destruct r as [[a' pos]|e|]; simpl; [|done..]. intros [= _ ->]. eauto. Qed.

Lemma pm_bind_Ok {A B} (m : PM A) (f : A → PM B) p p' b :
  (m ≫= f) p = (p', Ok b) → ∃ a q, m p = (q, Ok a) ∧ f a q = (p', Ok b).
Proof.
  unfold mbind, pm_bind. destruct (m p) as [q [a|e|]]; intros H; [|done..]. eauto.
Qed.

(** A decoded value is one the closure returned. *)
Lemma pop_struct_inv {T} (m : PM T) p p' v :
  pop_struct m p = (p', Ok v) → ∃ q q', m q = (q', Ok v.1).
Proof.
  unfold pop_struct. intros [pos H]%commit_Ok. ok_inv H. injection H as <- _.
  match goal with H : (m (Parser_new ?b)).2 = Ok _ |- _ =>
    exists (Parser_new b); destruct (m (Parser_new b)) as [q' r]; simpl in H; subst r; eauto end.
Qed.

Lemma parse_payload_inv {T} payload (m : PM T) v :
  parse_payload payload m = Ok v → ∃ p p', m p = (p', Ok v).
Proof.
  unfold parse_payload. destruct (pop_struct _ _) as [p [[v' n]|?|]] eqn:Hs; [|done..].
  case_bool_decide; [done|]. intros [= ->].
  apply pop_struct_inv in Hs as (q & q' & Hq). simpl in Hq.
  apply pm_bind_Ok in Hq as (a & q1 & Hm & Hq). apply pm_bind_Ok in Hq as ([] & q2 & _ & Hq).
  injection Hq as _ ->. eauto.
Qed.

Lemma decode_plain_transferred payload fds m :
  pm_safe m → len payload ≤ isize_max →
  (∀ p p' e, m p = (p', Ok e) → event_fds e = []) →
  fds_transferred fds (decode_plain payload fds m).
Proof.
  intros Hm Hl He. unfold decode_plain, fds_transferred. simpl.
  unfold require_fds at 1. case_bool_decide as Hfds; simpl; [done|].
  assert (fds = []) as -> by (apply length_zero_iff_nil; unfold len in Hfds; simpl in Hfds; lia).
  pose proof (parse_payload_total payload m Hm Hl) as Ht.
  destruct (parse_payload payload m) as [e|e|] eqn:Hp; [|done|done].
  split_and!; [|constructor|done].
  apply parse_payload_inv in Hp as (p & p' & Hp). by rewrite (He _ _ _ Hp).
Qed.

Ltac pm_inv H :=
  repeat match type of H with
  | (_ ≫= _) _ = (_, Ok _) =>
      apply pm_bind_Ok in H; destruct H as (? & ? & ? & H); try (cbn beta iota zeta in H)
  | (if ?b then _ else _) _ = (_, Ok _) =>
      lazymatch b with
      | bool_decide ?P => destruct (bool_decide_reflect P)
      | _ => destruct b eqn:?
      end; try discriminate H
  end.

Lemma pm_res_Ok {A} (r : PodRes A) p p' a : pm_res r p = (p', Ok a) → r = Ok a ∧ p' = p.
Proof. unfold pm_res. intros [= -> ->]. done. Qed.

Lemma pod_fd_index_Ok v i : pod_fd_index v = Ok i → 0 ≤ i < 2 ^ 32 ∧ i = v.
Proof. unfold pod_fd_index, u32_try_from. case_bool_decide; simpl; [|done]. by intros [= <-]. Qed.

Lemma pop_transport_Ok p p' t c a :
  pop_transport p = (p', Ok (t, c, a)) → 0 ≤ t ∧ 0 ≤ c ∧ reject_partial_clear a = Ok tt.
Proof.
  unfold pop_transport. intros H. pm_inv H. injection H as _ -> -> ->.
  repeat match goal with H : pm_res _ _ = (_, Ok _) |- _ => apply pm_res_Ok in H as [H _] end.
  repeat match goal with H : pod_fd_index _ = Ok _ |- _ => apply pod_fd_index_Ok in H as [H _] end.
  match goal with x : unit |- _ => destruct x end. split_and!; [lia|lia|done].
Qed.

Lemma decode_transport_transferred payload fds :
  len payload ≤ isize_max → fds_transferred fds (decode_transport payload fds).
Proof.
  intros Hl. unfold decode_transport, fds_transferred.
  assert (total (parse_payload payload pop_transport)) as Ht.
  { apply parse_payload_total; [|done]. unfold pop_transport, pod_fd_index. repeat pm_safe_step. }
  destruct (parse_payload payload pop_transport) as [[[t c] a]|e|] eqn:Hp; [|done..].
  apply parse_payload_inv in Hp as (p & p' & Hp). apply pop_transport_Ok in Hp as (Ht0 & Hc0 & _).
  pose proof (require_fds_total fds [t; c]) as Hr.
  destruct (require_fds fds [t; c]) as [[]|e|] eqn:Hreq; [|done..].
  unfold require_fds in Hreq. case_bool_decide as Hlen; [done|].
  destruct (require_each_Ok _ _ _ Hreq) as [Hnd Hall].
  destruct (Hall t) as [_ [ft Hft]]; [set_solver|]. destruct (Hall c) as [_ [fc Hfc]]; [set_solver|].
  apply FrameFds_get_Ok in Hft, Hfc.
  assert (Z.to_nat t ≠ Z.to_nat c) as Hne.
  { apply NoDup_cons in Hnd as [Hn _]. intros Heq. apply Hn. replace t with c by lia. set_solver. }
  rewrite (take_fd_Ok fds t ft) by done.
  rewrite (take_fd_Ok _ c fc) by (by rewrite list_lookup_insert_ne).
  assert (length fds = 2%nat) as H2 by (unfold len in Hlen; simpl in Hlen; lia).
  destruct fds as [|x [|y [|]]]; [done..| |done].
  pose proof (lookup_lt_Some _ _ _ Hft) as Ht2. pose proof (lookup_lt_Some _ _ _ Hfc) as Hc2.
  simpl in Ht2, Hc2. cbn [fst snd event_fds trigger_fd completion_fd].
  destruct (Z.to_nat t) as [|[|n]], (Z.to_nat c) as [|[|n']]; try lia;
    simpl in Hft, Hfc; simplify_eq; simpl; (split_and!; [|by repeat constructor|done]).
  - done.
  - apply Permutation_swap.
Qed.

Lemma decode_set_activation_transferred payload fds :
  len payload ≤ isize_max → fds_transferred fds (decode_set_activation payload fds).
Proof.
  intros Hl. unfold decode_set_activation, fds_transferred.
  match goal with |- context [parse_payload payload ?m] =>
    assert (total (parse_payload payload m)) as Ht by (apply parse_payload_total; [repeat pm_safe_step|done]);
    destruct (parse_payload payload m) as [[[node fd] a]|e|]; [|done..] end.
  destruct (bool_decide (fd = -1) && is_clear_region a).
  - simpl. unfold require_fds. case_bool_decide as Hfds; simpl; [done|].
    assert (fds = []) as -> by (apply length_zero_iff_nil; unfold len in Hfds; simpl in Hfds; lia).
    split_and!; [done|constructor|done].
  - pose proof (reject_partial_clear_total a).
    destruct (reject_partial_clear a) as [[]|e|]; simpl; [|done|done].
    unfold fd_index, u32_try_from. case_bool_decide as Hfd; simpl; [|done].
    pose proof (require_fds_total fds [fd]) as Hr.
    destruct (require_fds fds [fd]) as [[]|e|] eqn:Hreq; simpl; [|done..].
    unfold require_fds in Hreq. case_bool_decide as Hlen; [done|].
    destruct (require_each_Ok _ _ _ Hreq) as [_ Hall].
    destruct (Hall fd) as [_ [f Hf]]; [set_solver|]. apply FrameFds_get_Ok in Hf.
    rewrite (take_fd_Ok fds fd f) by done. simpl.
    assert (length fds = 1%nat) as H1 by (unfold len in Hlen; simpl in Hlen; lia).
    destruct fds as [|x [|]]; [done| |done]. pose proof (lookup_lt_Some _ _ _ Hf) as Hlt. simpl in Hlt.
    replace (Z.to_nat fd) with 0%nat in * by lia. simpl in Hf. simplify_eq. simpl.
    split_and!; [done|by repeat constructor|done].
Qed.

Lemma decode_event_transferred opcode payload fds l :
  len payload ≤ isize_max → fds_transferred fds (decode_event opcode payload fds l).
Proof.
  intros Hl. unfold decode_event.
  repeat case_bool_decide; try done;
    try by first [apply decode_transport_transferred|apply decode_set_activation_transferred].
  - apply decode_plain_transferred; [|done|].
    + unfold pop_port_set_param. repeat pm_safe_step. case_match; try done.
      apply total_bind; [auto with total|intros _ _]. apply total_bind; [auto with total|done].
    + unfold pop_port_set_param. intros p p' e Hrun. pm_inv Hrun; by injection Hrun as _ <-.
  - apply decode_plain_transferred; [|done|].
    + unfold pop_port_use_buffers. repeat pm_safe_step.
    + unfold pop_port_use_buffers. intros p p' e Hrun. pm_inv Hrun; by injection Hrun as _ <-.
  - apply decode_plain_transferred; [|done|].
    + unfold pop_port_set_io. repeat pm_safe_step.
    + unfold pop_port_set_io. intros p p' e Hrun. pm_inv Hrun; by injection Hrun as _ <-.
  - apply decode_plain_transferred; [|done|].
    + repeat pm_safe_step.
    + intros p p' e Hrun. pm_inv Hrun; by injection Hrun as _ <-.
Qed.

(** ** Limits *)
Lemma pop_repeat_Ok {A} n (m : PM A) p p' xs :
  pop_repeat n m p = (p', Ok xs) →
  length xs = n ∧ Forall (λ x, ∃ q q', m q = (q', Ok x)) xs.
Proof.
  revert p p' xs. induction n as [|n IH]; intros p p' xs H; simpl in H.
  - by injection H as _ <-.
  - pm_inv H. injection H as _ <-.
    match goal with H : pop_repeat n m _ = _ |- _ => destruct (IH _ _ _ H) as [<- Hf] end.
    split; [done|]. constructor; [eauto|done].
Qed.

Lemma pop_count_Ok max p p' n : pop_count max p = (p', Ok n) → Z.of_nat n ≤ Z.max 0 max.
Proof.
  unfold pop_count. intros H. pm_inv H. apply pm_res_Ok in H as [H _].
  unfold count in H. ok_inv H. injection H as <-. lia.
Qed.

(** What a decoded message satisfies under [Limits]. *)
Definition region_valid (r : RegionRef) : Prop :=
  memory_id r ≠ INVALID_ID ∧ size r ≠ 0 ∧ offset r + size r < 2 ^ 32.
Definition data_valid (d : DataDescriptor) : Prop :=
  max_size d ≠ 0 ∧ map_offset d + max_size d < 2 ^ 32.

Definition buffer_within (l : Limits) (b : BufferDescriptor) : Prop :=
  region_valid (metadata b) ∧ len (metas b) ≤ Z.max 0 (max_metas l) ∧
  len (datas b) ≤ Z.max 0 (max_datas l) ∧ Forall data_valid (datas b).

Definition event_within (l : Limits) (e : Event) : Prop :=
  match e with
  | ETransport v => region_valid (t_activation v)
  | EPortSetParam v =>
      param_id v = SPA_PARAM_FORMAT ∧
      match param v with
      | Some p => raw_wf p ∧ raw_type p = TObject ∧ raw_size p ≤ max_pod_bytes l
      | None => True
      end
  | EPortUseBuffers v =>
      Z.land (ub_flags v) SPA_NODE_BUFFERS_FLAG_ALLOC = 0 ∧
      len (buffers v) ≤ Z.max 0 (max_buffers l) ∧ Forall (buffer_within l) (buffers v)
  | EPortSetIo (IoSet _ _ _ io_id r) => io_id = SPA_IO_BUFFERS ∧ region_valid r
  | EPortSetIo (IoClear _ _ _ io_id) => io_id = SPA_IO_BUFFERS
  | ESetActivation (ActivationSet _ _ r) => region_valid r
  | ESetActivation (ActivationRemove _) => True
  | ECommand _ => True
  end.

Definition params_within (l : Limits) (ps : list RawPod) : Prop :=
  len ps ≤ Z.max 0 (max_params l) ∧ Forall (λ p, raw_wf p ∧ raw_size p ≤ max_pod_bytes l) ps.
Definition tail_within (l : Limits) (props : PropertyPairs) (ps : list ParamInfo) : Prop :=
  len props ≤ Z.max 0 (max_properties l) ∧ len ps ≤ Z.max 0 (max_param_info l).

Definition method_within (l : Limits) (m : Method) : Prop :=
  match m with
  | MUpdate v =>
      params_within l (u_params v) ∧
      match u_info v with
      | Some i => 0 ≤ ni_change_mask i ≤ 7 ∧ tail_within l (ni_properties i) (ni_params i)
      | None => True
      end
  | MPortUpdate v =>
      params_within l (pu_params v) ∧
      match pu_info v with
      | Some i => 0 ≤ po_change_mask i ≤ 15 ∧ tail_within l (po_properties i) (po_params i)
      | None => True
      end
  | MSetActive _ => True
  end.

Lemma reject_partial_clear_Ok r u : reject_partial_clear r = Ok u → region_valid r.
Proof.
  unfold reject_partial_clear, checked_add. intros H. ok_inv H. revert H0.
  case_bool_decide; [|done]. intros _. split_and!; try tauto; lia.
Qed.

Lemma validate_data_Ok d u : validate_data d = Ok u → data_valid d.
Proof.
  unfold validate_data, checked_add. intros H. ok_inv H. revert H0.
  case_bool_decide; [|done]. intros _. split_and!; [done|lia].
Qed.

Lemma mask_range m k : 0 ≤ k → 0 ≤ Z.land m (Z.ones k) ≤ Z.ones k.
Proof.
  intros Hk. rewrite Z.land_ones by done. rewrite Z.ones_equiv.
  pose proof (Z.mod_pos_bound m (2 ^ k)). lia.
Qed.

(** Collect the facts about the steps of a decoder run. *)
Ltac pm_facts :=
  repeat match goal with
  | H : pm_res _ _ = (_, Ok _) |- _ => apply pm_res_Ok in H as [H ->]
  | H : pop_count _ _ = (_, Ok _) |- _ => apply pop_count_Ok in H
  | H : pop_repeat _ _ _ = (_, Ok _) |- _ =>
      apply pop_repeat_Ok in H; destruct H as [? ?]
  | H : reject_partial_clear _ = Ok _ |- _ => apply reject_partial_clear_Ok in H
  | H : validate_data _ = Ok _ |- _ => apply validate_data_Ok in H
  end.

Lemma pop_buffer_Ok l p p' b : pop_buffer l p = (p', Ok b) → buffer_within l b.
Proof.
  unfold pop_buffer. intros H. pm_inv H. injection H as _ <-. pm_facts.
  unfold buffer_within. simpl. unfold len. split_and!; [done|lia|lia|].
  eapply Forall_impl; [eassumption|]. simpl. intros d (q & q' & Hd). unfold pop_data in Hd.
  pm_inv Hd. injection Hd as _ <-. by pm_facts.
Qed.

(** Copying a popped pod ([RawPodOwned::wrap]) gives the same pod. *)
Lemma pop_raw_rewrap p p' r x :
  pop_raw_pod p = (p', Ok r) → RawPodOwned_wrap (raw_data r) = Ok x → x = r ∧ raw_wf r.
Proof.
  unfold pop_raw_pod. intros [pos Hr]%commit_Ok. rewrite RawPodOwned_wrap_eq.
  ok_inv Hr. injection Hr as <- _.
  match goal with H : RawPod_wrap _ = Ok _ |- _ => pose proof (raw_wrap_wf _ _ H) as Hwf end.
  intros Hx. split; [|done]. unfold raw_wf in Hwf. congruence.
Qed.

Lemma pop_pods_Ok l n p p' ps :
  pop_pods n (max_pod_bytes l) p = (p', Ok ps) → Z.of_nat n ≤ Z.max 0 (max_params l) →
  params_within l ps.
Proof.
  unfold pop_pods. intros [<- Hf]%pop_repeat_Ok Hn. split; [unfold len; lia|].
  eapply Forall_impl; [done|]. simpl. intros x (q & q' & Hx). pm_inv Hx.
  apply pm_res_Ok in Hx as [Hx _]. eapply pop_raw_rewrap in Hx as [-> ?]; [|done].
  split; [done|lia].
Qed.

Lemma pop_info_tail_Ok l p p' props ps :
  pop_info_tail l p = (p', Ok (props, ps)) → tail_within l props ps.
Proof.
  unfold pop_info_tail. intros H. pm_inv H. injection H as _ <- <-. pm_facts.
  unfold tail_within, len. lia.
Qed.

(** The value a nested struct was parsed to is one its closure returned. *)
Lemma parse_nested_inv {T} pod (m : PM T) v :
  parse_nested pod m = Ok v → ∃ q q', m q = (q', Ok v).
Proof.
  unfold parse_nested. destruct (pop_struct _ _) as [p [w|e|]] eqn:Hs; simpl; [|done..].
  intros [= <-]. by eapply pop_struct_inv.
Qed.

Lemma pop_optional_node_info_Ok l p p' i :
  pop_optional_node_info l p = (p', Ok (Some i)) →
  0 ≤ ni_change_mask i ≤ 7 ∧ tail_within l (ni_properties i) (ni_params i).
Proof.
  unfold pop_optional_node_info. intros (pod & q & _ & H)%pm_bind_Ok.
  destruct (raw_type pod); try (by inversion H). pm_inv H. injection H as _ <-. pm_facts.
  match goal with H : parse_nested _ _ = _ |- _ => apply parse_nested_inv in H as (r & r' & Hs) end.
  unfold pop_node_info in Hs. pm_inv Hs. case_match. pm_inv Hs. injection Hs as _ <-. simpl.
  split; [apply (mask_range _ 3); lia|]. by eapply pop_info_tail_Ok.
Qed.

Lemma pop_optional_port_info_Ok l p p' i :
  pop_optional_port_info l p = (p', Ok (Some i)) →
  0 ≤ po_change_mask i ≤ 15 ∧ tail_within l (po_properties i) (po_params i).
Proof.
  unfold pop_optional_port_info. intros (pod & q & _ & H)%pm_bind_Ok.
  destruct (raw_type pod); try (by inversion H). pm_inv H. injection H as _ <-. pm_facts.
  match goal with H : parse_nested _ _ = _ |- _ => apply parse_nested_inv in H as (r & r' & Hs) end.
  unfold pop_port_info in Hs. pm_inv Hs. case_match. pm_inv Hs. injection Hs as _ <-. simpl.
  split; [apply (mask_range _ 4); lia|]. by eapply pop_info_tail_Ok.
Qed.

Lemma decode_method_within opcode payload l m :
  decode_method opcode payload l = Ok m → method_within l m.
Proof.
  unfold decode_method. repeat case_bool_decide; try done;
    intros (p & p' & Hm)%parse_payload_inv.
  - unfold pop_update in Hm. pm_inv Hm. injection Hm as _ <-. pm_facts. simpl.
    split; [by eapply pop_pods_Ok|]. case_match; [|done]. subst. by eapply pop_optional_node_info_Ok.
  - unfold pop_port_update in Hm. pm_inv Hm. injection Hm as _ <-. pm_facts. simpl.
    split; [by eapply pop_pods_Ok|]. case_match; [|done]. subst. by eapply pop_optional_port_info_Ok.
  - pm_inv Hm. by injection Hm as _ <-.
Qed.

Lemma pop_port_set_param_Ok l p p' e : pop_port_set_param l p = (p', Ok e) → event_within l e.
Proof.
  unfold pop_port_set_param. intros H. pm_inv H. injection H as _ <-. pm_facts. simpl.
  split; [lia|].
  match goal with |- match ?o with _ => _ end => destruct o as [pod|]; [|done] end.
  match goal with H : (match raw_type ?r with _ => _ end) = Ok _ |- _ =>
    destruct (raw_type r) eqn:Ht; try discriminate H; ok_inv H; injection H as -> end.
  match goal with H : bool_decide _ = false |- _ => apply bool_decide_eq_false in H end.
  match goal with H : RawPodOwned_wrap _ = Ok _ |- _ =>
    eapply pop_raw_rewrap in H as [-> ?]; [|done] end.
  split_and!; [done|done|lia].
Qed.

Lemma decode_plain_Ok payload fds m e :
  (decode_plain payload fds m).2 = Ok e → ∃ p p', m p = (p', Ok e).
Proof. unfold decode_plain. simpl. intros H. ok_inv H. by apply parse_payload_inv in H. Qed.

Lemma decode_event_within opcode payload fds l e :
  (decode_event opcode payload fds l).2 = Ok e → event_within l e.
Proof.
  unfold decode_event. repeat case_bool_decide; try done.
  - unfold decode_transport. destruct (parse_payload _ _) as [[[t c] a]|?|] eqn:Hp; [|done..].
    apply parse_payload_inv in Hp as (p & p' & Hp). apply pop_transport_Ok in Hp as (_ & _ & Ha).
    apply reject_partial_clear_Ok in Ha. intros Hr.
    repeat case_match; simplify_eq/=; done.
  - intros (p & p' & Hm)%decode_plain_Ok. by eapply pop_port_set_param_Ok.
  - intros (p & p' & Hm)%decode_plain_Ok. unfold pop_port_use_buffers in Hm. pm_inv Hm.
    injection Hm as _ <-. pm_facts. simpl.
    unfold len. split_and!; [lia|lia|]. eapply Forall_impl; [eassumption|].
    intros b (q & q' & Hb). by eapply pop_buffer_Ok.
  - intros (p & p' & Hm)%decode_plain_Ok. unfold pop_port_set_io in Hm. pm_inv Hm;
      injection Hm as _ <-; pm_facts; simpl;
      [lia|split; [lia|done]].
  - unfold decode_set_activation.
    destruct (parse_payload _ _) as [[[node fd] a]|?|] eqn:Hp; [|done..].
    destruct (bool_decide (fd = -1) && is_clear_region a).
    + simpl. intros H'. ok_inv H'. by injection H' as <-.
    + destruct (reject_partial_clear a) as [u|?|] eqn:Ha; simpl; [|done..].
      apply reject_partial_clear_Ok in Ha. intros Hr. repeat case_match; simplify_eq/=; done.
  - intros (p & p' & Hm)%decode_plain_Ok. pm_inv Hm. by injection Hm as _ <-.
Qed.
