(* ===== verification/ClientNodeWire.v ===== *)
(** * The wire form of ClientNode messages

    [carries] relates a builder program, the bytes it appends, and a decoder
    that reads a value back from exactly those bytes. It composes along the
    field order of a message, so each message's codec is proved by walking
    encoder and decoder in step. [encode_payload_outcome] gives the result of
    the growing-buffer loop for every message. *)

From S2P Require Import Prelude Utf8 PodTypes PodCodec PodLaws PodCompound PodParser PodParserLaws.
From S2P Require Import PodBuilder FrameHeader ClientNode ClientNodeLaws.

(** ** Reading

    [reads last m bs a] is [parses], except that with [last] the decoder
    is known to be at the end of its data, which is what [no_trailing]
    needs. *)
Definition reads {A} (last : bool) (m : PM A) (bs : list byte) (a : A) : Prop :=
  ∀ pre rest, len (pre ++ bs ++ rest) ≤ isize_max → (last = true → rest = []) →
    m (mkParser (pre ++ bs ++ rest) (len pre))
    = (mkParser (pre ++ bs ++ rest) (len pre + len bs), Ok a).

Lemma reads_parses {A} last (m : PM A) bs a : parses m bs a → reads last m bs a.
Proof. intros H pre rest Hl _. by apply H. Qed.

Lemma reads_bind {A B} last (m : PM A) (f : A → PM B) bs cs a b :
  reads false m bs a → reads last (f a) cs b → reads last (m ≫= f) (bs ++ cs) b.
Proof.
  intros Hm Hf pre rest Hl Hr. unfold mbind, pm_bind.
  rewrite <- (app_assoc bs cs rest) in *. rewrite Hm by done.
  rewrite (app_assoc pre bs (cs ++ rest)) in *. rewrite <- len_app, Hf by done.
  f_equal. f_equal. len_lia.
Qed.

Lemma reads_run {A} (m : PM A) bs a :
  reads true m bs a → len bs ≤ isize_max → m (Parser_new bs) = (mkParser bs (len bs), Ok a).
Proof. intros Hm Hl. specialize (Hm [] []). simpl in Hm. rewrite app_nil_r in Hm. by apply Hm. Qed.

(** ** Builder and decoder in step

    [push_struct] panics when fewer than 8 bytes are left; [hole] is where,
    if anywhere, that happens: at [n ≤ room < n + 8] for [Some n]. *)
Definition in_hole (hole : option Z) (r : Z) : Prop :=
  match hole with Some n => n ≤ r < n + 8 | None => False end.

Record carries {A} (hole : option Z) (last : bool) (op : BuilderOp) (bs : list byte)
    (m : PM A) (a : A) : Prop := {
  carries_op : op_spec op bs (in_hole hole);
  carries_hole : match hole with Some n => 0 ≤ n ∧ n mod 8 = 0 | None => True end;
  carries_aligned : len bs mod 8 = 0;
  carries_reads : len bs < 2 ^ 32 → reads last m bs a;
}.

Lemma aligned_app (bs cs : list byte) :
  len bs mod 8 = 0 → len cs mod 8 = 0 → len (bs ++ cs) mod 8 = 0.
Proof. intros H1 H2. by rewrite len_app, Z.add_mod, H1, H2 by done. Qed.

Lemma carries_ret {A} last (a : A) : carries None last op_id [] (mret a) a.
Proof. split; [apply op_spec_id|done|done|]. intros _. apply reads_parses, parses_ret. Qed.

(** Fields without a hole come first. *)
Lemma carries_seq {A B} hole last op op' bs cs (m : PM A) (f : A → PM B) a b :
  carries None false op bs m a → carries hole last op' cs (f a) b →
  carries (Z.add (len bs) <$> hole) last (op ▷ op') (bs ++ cs) (m ≫= f) b.
Proof.
  intros [H1 _ Ha Hp] [H2 Hn Ha' Hp']. pose proof (len_nonneg bs). split.
  - eapply op_spec_ext; [by apply op_spec_seq|done|].
    intros r Hr. unfold crash_seq, in_hole. destruct hole as [n|]; simpl; [lia|tauto].
  - destruct hole as [n|]; simpl; [|done]. destruct Hn as [? Hn]. split; [lia|].
    by rewrite Z.add_mod, Ha, Hn by done.
  - by apply aligned_app.
  - intros Hl. rewrite len_app in Hl. len_facts. eapply reads_bind; [apply Hp|apply Hp']; lia.
Qed.

Lemma carries_bind {A B} last op op' bs cs (m : PM A) (f : A → PM B) a b :
  carries None false op bs m a → carries None last op' cs (f a) b →
  carries None last (op ▷ op') (bs ++ cs) (m ≫= f) b.
Proof. apply carries_seq. Qed.

(** The last field, followed by a computation that reads nothing. *)
Lemma carries_map {A B} hole last op bs (m : PM A) (f : A → PM B) a b :
  carries hole false op bs m a → reads last (f a) [] b → carries hole last op bs (m ≫= f) b.
Proof.
  intros [H1 Hn Ha Hp] Hf. split; try done.
  intros Hl. rewrite <- (app_nil_r bs). eapply reads_bind; [by apply Hp|done].
Qed.

Lemma carries_res {A B} hole last op bs (r : PodRes A) (f : A → PM B) a b :
  r = Ok a → carries hole last op bs (f a) b → carries hole last op bs (pm_res r ≫= f) b.
Proof.
  intros Hr [H1 Hn Ha Hp]. split; try done.
  intros Hl. rewrite <- (app_nil_l bs). eapply reads_bind; [|by apply Hp].
  by apply reads_parses, parses_res.
Qed.

Lemma carries_pod {T} last (U : Pod T) `{!PodExact U} v :
  exact_ok U v → carries None last (push_pod U v) (wire U v) (pop_pod U) v.
Proof.
  intros Hv. split; [by apply op_spec_pod|done|by apply wire_aligned|].
  intros _. by apply reads_parses, parses_pop.
Qed.

Lemma carries_raw last r :
  raw_wf r → carries None last (push_pod pod_raw r) (raw_data r) pop_raw_pod r.
Proof.
  intros Hr. split; [exact (op_spec_pod pod_raw r Hr)|done|exact (wire_aligned (P:=pod_raw) r Hr)|].
  intros _. by apply reads_parses, parses_raw_pod.
Qed.

Lemma reads_ret {A} last (a : A) : reads last (mret a) [] a.
Proof. apply reads_parses, parses_ret. Qed.
Lemma reads_res_bind {A B} last (r : PodRes A) (f : A → PM B) a b :
  r = Ok a → reads last (f a) [] b → reads last (pm_res r ≫= f) [] b.
Proof. intros Hr Hf. by apply (reads_bind last _ f [] [] a b), Hf; apply reads_parses, parses_res. Qed.
Lemma reads_res {A} last (r : PodRes A) a : r = Ok a → reads last (pm_res r) [] a.
Proof. intros Hr. by apply reads_parses, parses_res. Qed.
Lemma reads_no_trailing {A} msg (f : unit → PM A) a :
  reads true (f tt) [] a → reads true (no_trailing msg ≫= f) [] a.
Proof.
  intros Hf pre rest Hl Hr. unfold mbind, pm_bind, no_trailing. rewrite (Hr eq_refl) in *.
  rewrite available_at. simpl. by apply (Hf pre []).
Qed.

(** ** Fields *)
Definition int_wire (v : Z) : list byte := wire pod_i32 (as_i32 v).
Definition long_wire (v : Z) : list byte := wire pod_i64 (as_i64 v).
Definition id_wire (v : Z) : list byte := wire (pod_id Z) (mkId v).
Definition fd_wire (v : Z) : list byte := wire pod_fd (mkFd v).
Definition none_wire : list byte := wire pod_none tt.

Lemma int_wire_len v : len (int_wire v) = 16.
Proof. apply prim_wire_len. Qed.
Lemma long_wire_len v : len (long_wire v) = 16.
Proof. apply prim_wire_len. Qed.
Lemma id_wire_len v : len (id_wire v) = 16.
Proof. apply prim_wire_len. Qed.
Lemma fd_wire_len v : len (fd_wire v) = 16.
Proof. apply prim_wire_len. Qed.
Lemma none_wire_len : len none_wire = 8.
Proof. apply prim_wire_len. Qed.
#[export] Hint Rewrite int_wire_len long_wire_len id_wire_len fd_wire_len none_wire_len : len.

Lemma carries_int {last} v :
  i32_range v → carries None last (push_int v) (wire pod_i32 v) pop_int v.
Proof. intros. by apply (carries_pod _ pod_i32). Qed.

Lemma carries_u32 {last} v :
  u32_range v → carries None last (push_int (as_i32 v)) (int_wire v) pop_u32 v.
Proof.
  intros Hv. eapply carries_map; [apply carries_int, i32_of_u32_range|].
  rewrite u32_i32_u32 by done. apply reads_ret.
Qed.

Lemma carries_u64 {last} v :
  u64_range v → carries None last (push_long (as_i64 v)) (long_wire v) pop_u64 v.
Proof.
  intros Hv. eapply carries_map; [apply (carries_pod _ pod_i64), i64_of_u64_range|].
  rewrite u64_i64_u64 by done. apply reads_ret.
Qed.

Lemma carries_id {last} v :
  u32_range v → carries None last (push_id (mkId v)) (id_wire v) pop_id_u32 v.
Proof.
  intros Hv. eapply carries_map; [by apply (carries_pod _ (pod_id Z))|]. apply reads_ret.
Qed.

Lemma carries_fd {last} v :
  i64_range v → carries None last (push_fd v) (fd_wire v) pop_fd (mkFd v).
Proof. intros Hv. by apply (carries_pod _ pod_fd). Qed.

Lemma carries_bool {last} b : carries None last (push_bool b) (wire pod_bool b) pop_bool b.
Proof. by apply (carries_pod _ pod_bool). Qed.

Lemma carries_string {last} s :
  utf8_valid s = true → len s + 1 < 2 ^ 32 →
  carries None last (push_string s) (str_wire s) pop_string s.
Proof. intros H1 H2. exact (carries_pod _ pod_str s (conj H1 H2)). Qed.

Lemma carries_count {last} {A} (xs : list A) max :
  len xs ≤ max → len xs < 2 ^ 31 →
  carries None last (push_int (as_i32 (len xs))) (int_wire (len xs)) (pop_count max) (length xs).
Proof.
  intros Hm H31. len_facts. eapply carries_map; [apply carries_int, i32_of_u32_range|].
  rewrite swrap_small by lia. apply reads_res. unfold count.
  rewrite !bool_decide_eq_false_2 by lia. f_equal. unfold len. lia.
Qed.

Lemma carries_direction {last} d :
  carries None last (push_int (as_i32 (direction_value d))) (int_wire (direction_value d))
    pop_direction d.
Proof. destruct d; (eapply carries_map; [apply carries_int, i32_of_u32_range|by apply reads_res]). Qed.

Lemma carries_region {last} r :
  u32_range (memory_id r) → u32_range (offset r) → u32_range (size r) →
  carries None last (push_region r)
    (int_wire (memory_id r) ++ int_wire (offset r) ++ int_wire (size r)) pop_region r.
Proof.
  intros. eapply carries_bind; [by apply carries_u32|]. eapply carries_bind; [by apply carries_u32|].
  eapply carries_map; [by apply carries_u32|]. destruct r. apply reads_ret.
Qed.

(** ** [None] and nested structs, read as raw pods *)
Definition none_pod : RawPod := mkRawPod 8 TNone none_wire.
Definition struct_pod (body : list byte) : RawPod :=
  mkRawPod (8 + len body) TStruct (struct_wire body).

Lemma none_pod_wf : raw_wf none_pod.
Proof. by vm_compute. Qed.

Lemma carries_none {last} : carries None last push_none none_wire pop_raw_pod none_pod.
Proof.
  split; [by apply (op_spec_pod pod_none)|done|done|].
  intros _. apply reads_parses, (parses_raw_pod none_pod), none_pod_wf.
Qed.

Lemma struct_pod_wf body : len body mod 8 = 0 → len body < 2 ^ 32 → raw_wf (struct_pod body).
Proof.
  intros Ha Hl. pose proof (len_nonneg body). unfold raw_wf.
  assert (len (struct_wire body) = 8 + len body) as Hlen
    by (rewrite struct_wire_aligned by done; len_lia).
  apply (RawPod_wrap_intro _ (len body) (into_u32 TStruct)); simpl.
  - rewrite struct_wire_aligned, <- app_assoc by done. rewrite read_u32_hd by done.
    by rewrite wrap_small.
  - rewrite struct_wire_aligned, <- app_assoc by done. rewrite read_u32_skip by len_lia.
    by rewrite read_u32_hd by len_lia.
  - done.
  - rewrite pad_8_of_aligned by done. lia.
  - lia.
  - done.
  - rewrite take_ge; [done|]. unfold len in *. lia.
Qed.

Lemma carries_struct {A B} last op bs (m : PM A) a b (f : RawPod → PM B) :
  carries None true op bs m a →
  (∀ pod, raw_type pod = TStruct → parse_nested pod m = Ok a → reads last (f pod) [] b) →
  carries (Some 0) last (push_struct op) (struct_wire bs) (pop_raw_pod ≫= f) b.
Proof.
  intros [Hop _ Ha Hp] Hf.
  assert (len (struct_wire bs) = 8 + len bs) as Hlen
    by (rewrite struct_wire_aligned by done; len_lia).
  split; [|done|apply sized_wire_aligned|].
  { eapply op_spec_ext; [by apply op_spec_struct|done|]. simpl. lia. }
  intros Hl. rewrite <- (app_nil_r (struct_wire bs)). eapply reads_bind.
  - apply reads_parses, (parses_raw_pod (struct_pod bs)), struct_pod_wf; [done|lia].
  - apply Hf; [done|]. unfold parse_nested. simpl raw_data.
    erewrite parses_run_all; [|apply parses_struct; [lia|]|unfold isize_max; lia]; [done|].
    rewrite (reads_run m bs a); [done|apply Hp; lia|unfold isize_max; lia].
Qed.

(** A list of items, each encoded by [f] and read back by [m]. *)
Lemma carries_each {A B} (f : A → BuilderOp) (w : A → list byte) (m : PM B) (g : A → B) xs :
  Forall (λ x, carries None false (f x) (w x) m (g x)) xs →
  carries None false (op_each f xs) (concat (w <$> xs)) (pop_repeat (length xs) m) (g <$> xs).
Proof.
  induction 1 as [|x xs Hx _ IH]; [apply carries_ret|]. simpl.
  eapply carries_bind; [done|]. eapply carries_map; [done|]. apply reads_ret.
Qed.

Lemma carries_each_id {A} (f : A → BuilderOp) (w : A → list byte) (m : PM A) xs :
  Forall (λ x, carries None false (f x) (w x) m x) xs →
  carries None false (op_each f xs) (concat (w <$> xs)) (pop_repeat (length xs) m) xs.
Proof. intros H. rewrite <- (list_fmap_id xs) at 4. by apply carries_each. Qed.

(** ** The growing buffer

    The capacities tried are [capacity 0 .. capacity 14], the last one being
    the maximum. *)
Definition capacity (k : nat) : Z := INITIAL_ENCODE_CAPACITY * 2 ^ Z.of_nat k.

Lemma capacity_S k : capacity (S k) = 2 * capacity k.
Proof. unfold capacity. rewrite Nat2Z.inj_succ, Z.pow_succ_r by lia. lia. Qed.

Lemma capacity_mono j k : (j ≤ k)%nat → capacity j ≤ capacity k.
Proof.
  intros. unfold capacity, INITIAL_ENCODE_CAPACITY.
  pose proof (Z.pow_le_mono_r 2 (Z.of_nat j) (Z.of_nat k)). lia.
Qed.

Lemma capacity_max : capacity 14 = MAX_ENCODE_CAPACITY.
Proof. done. Qed.

Lemma capacity_inj_lt j k : capacity j < capacity k → (j < k)%nat.
Proof. intros. destruct (decide (j < k)%nat); [done|]. pose proof (capacity_mono k j). lia. Qed.

Lemma capacity_min k : 1024 ≤ capacity k.
Proof. pose proof (capacity_mono 0 k ltac:(lia)) as H. by change (capacity 0) with 1024 in H. Qed.

Lemma capacity_aligned k : capacity k mod 8 = 0.
Proof.
  unfold capacity, INITIAL_ENCODE_CAPACITY.
  replace (1024 * 2 ^ Z.of_nat k) with (128 * 2 ^ Z.of_nat k * 8) by lia. by apply Z.mod_mul.
Qed.

Lemma capacity_0 : INITIAL_ENCODE_CAPACITY = capacity 0.
Proof. done. Qed.
#[global] Opaque capacity.

Section encode_payload.
Context (op : BuilderOp) (body : list byte) (c : Z → Prop).
Context (Hop : op_spec op body c) (Ha : len body mod 8 = 0).

Lemma encode_step_fits k :
  8 + len body ≤ capacity k →
  build_with (push_struct op) (zeros (capacity k)) = Ok (struct_wire body).
Proof.
  intros Hl. pose proof (capacity_min k).
  eapply build_fits; [by apply op_spec_struct|rewrite len_zeros by lia; lia|].
  rewrite len_zeros by lia. rewrite struct_wire_aligned by done. len_lia.
Qed.

Lemma encode_step_short k :
  capacity k < 8 + len body → ¬ c (capacity k - 8) →
  build_with (push_struct op) (zeros (capacity k)) = Err NoSpace.
Proof.
  intros Hl Hc. pose proof (capacity_min k).
  eapply build_short; [by apply op_spec_struct|rewrite len_zeros by lia; lia|..].
  - rewrite len_zeros by lia. rewrite struct_wire_aligned by done. len_lia.
  - rewrite len_zeros by lia. intros [?|?]; [lia|done].
Qed.

Lemma encode_step_crash k :
  c (capacity k - 8) → build_with (push_struct op) (zeros (capacity k)) = Panic.
Proof.
  intros Hc. pose proof (capacity_min k).
  eapply build_crash; [by apply op_spec_struct|rewrite len_zeros by lia; lia|].
  rewrite len_zeros by lia. by right.
Qed.

(** One round that runs out of space doubles the capacity. *)
Lemma encode_loop_grow fuel k :
  (k < 14)%nat → capacity k < 8 + len body → ¬ c (capacity k - 8) →
  encode_loop (S fuel) (capacity k) op = encode_loop fuel (capacity (S k)) op.
Proof.
  intros Hk Hl Hc. cbn [encode_loop]. rewrite encode_step_short by done.
  pose proof (capacity_mono (S k) 14 ltac:(lia)) as Hm. pose proof (capacity_min k).
  rewrite capacity_max in Hm. rewrite capacity_S in *.
  rewrite bool_decide_eq_true_2 by lia. f_equal.
  unfold saturating_mul, usize_max, MAX_ENCODE_CAPACITY in *. lia.
Qed.

Lemma encode_payload_no_crash :
  (∀ k, (k ≤ 14)%nat → capacity k < 8 + len body → ¬ c (capacity k - 8)) →
  encode_payload op
  = if bool_decide (8 + len body ≤ MAX_ENCODE_CAPACITY) then Ok (struct_wire body)
    else Err InvalidInput.
Proof.
  intros Hc. unfold encode_payload. rewrite capacity_0.
  assert (∀ n k, (n + k = 14)%nat → encode_loop (S n) (capacity k) op
    = if bool_decide (8 + len body ≤ MAX_ENCODE_CAPACITY) then Ok (struct_wire body)
      else Err InvalidInput) as H; [|by apply (H 14%nat 0%nat)].
  induction n as [|n IH]; intros k Hk.
  - assert (k = 14%nat) as -> by lia. cbn [encode_loop]. rewrite <- capacity_max.
    destruct (decide (8 + len body ≤ capacity 14)) as [Hl|Hl].
    + rewrite encode_step_fits by done. by rewrite bool_decide_eq_true_2.
    + rewrite encode_step_short; [|lia|apply Hc; lia].
      by rewrite !bool_decide_eq_false_2 by lia.
  - destruct (decide (8 + len body ≤ capacity k)) as [Hl|Hl].
    + cbn [encode_loop]. rewrite encode_step_fits by done. rewrite bool_decide_eq_true_2; [done|].
      rewrite <- capacity_max. pose proof (capacity_mono k 14 ltac:(lia)). lia.
    + rewrite encode_loop_grow; [apply IH; lia|lia|lia|apply Hc; lia].
Qed.

Lemma encode_payload_crash k :
  (k ≤ 14)%nat → c (capacity k - 8) → (∀ j, (j < k)%nat → ¬ c (capacity j - 8)) →
  encode_payload op = Panic.
Proof.
  intros Hk Hck Hj. pose proof (crash_short _ _ _ Hop _ Hck) as Hs.
  unfold encode_payload. rewrite capacity_0.
  assert (∀ n j, (j ≤ k)%nat → (n + j = 14)%nat → encode_loop (S n) (capacity j) op = Panic) as H;
    [|apply (H 14%nat 0%nat); lia].
  induction n as [|n IH]; intros j Hle Hn;
    (destruct (decide (j = k)) as [->|Hne]; [cbn [encode_loop]; by rewrite encode_step_crash|]); [lia|].
  rewrite encode_loop_grow; [apply IH; lia|lia| |apply Hj; lia].
  pose proof (capacity_mono j k ltac:(lia)). lia.
Qed.
End encode_payload.

(** ** Payloads *)
Lemma parse_payload_wire {T} (m : PM T) body v :
  reads false m body v → len body mod 8 = 0 → len body < 2 ^ 32 →
  parse_payload (struct_wire body) m = Ok v.
Proof.
  intros Hm Ha Hl. pose proof (len_nonneg body). unfold parse_payload.
  match goal with |- context [pop_struct ?m' _] => set (m1 := m') end.
  assert (len (struct_wire body) = 8 + len body) as Hlen
    by (rewrite struct_wire_aligned by done; len_lia).
  assert ((m1 (Parser_new body)).2 = Ok v) as Hv.
  { rewrite (reads_run m1 body v); [done| |unfold isize_max; lia]. unfold m1.
    rewrite <- (app_nil_r body). eapply reads_bind; [done|]. apply reads_no_trailing, reads_ret. }
  rewrite (parses_run_all _ _ _ (parses_struct m1 body v Hl Hv)) by (unfold isize_max; lia).
  by rewrite bool_decide_eq_false_2 by (intros ?; done).
Qed.

(** A message without nested structs is encoded, or refused for its size;
    what is encoded decodes to the value sent. *)
Lemma carries_payload {A} op body (m : PM A) a :
  carries None false op body m a →
  8 + len body ≤ MAX_ENCODE_CAPACITY →
  encode_payload op = Ok (struct_wire body) ∧ parse_payload (struct_wire body) m = Ok a.
Proof.
  intros [Hop _ Ha Hp] Hl. split.
  - rewrite (encode_payload_no_crash op body _ Hop Ha) by (by intros _ _ _ []).
    by rewrite bool_decide_eq_true_2.
  - unfold MAX_ENCODE_CAPACITY in Hl. apply parse_payload_wire; [apply Hp; lia|done|lia].
Qed.

(** The outcome of encoding, for every message: a nested struct whose header
    would start exactly at the end of a buffer the loop tries is a panic. *)
Definition tried_capacity (n : Z) : bool :=
  existsb (λ k, bool_decide (capacity k = n)) (List.seq 0 15).

Definition encode_result (hole : option Z) (body : list byte) : WireRes (list byte) :=
  if match hole with Some n => tried_capacity (8 + n) | None => false end then Panic else
  if bool_decide (8 + len body ≤ MAX_ENCODE_CAPACITY) then Ok (struct_wire body)
  else Err InvalidInput.

Lemma encode_payload_outcome {A} hole last op body (m : PM A) a :
  carries hole last op body m a → encode_payload op = encode_result hole body.
Proof.
  intros [Hop Hn Ha _]. unfold encode_result. destruct hole as [n|].
  2: { apply (encode_payload_no_crash op body _ Hop Ha). by intros k _ _ []. }
  destruct (tried_capacity (8 + n)) eqn:Ht.
  - apply existsb_exists in Ht as (k & Hk%in_seq & Hc%bool_decide_eq_true).
    apply (encode_payload_crash op body _ Hop Ha k); simpl; [lia..|].
    intros j Hj. pose proof (capacity_mono (S j) k ltac:(lia)) as Hm. rewrite capacity_S in Hm.
    pose proof (capacity_min j). lia.
  - apply (encode_payload_no_crash op body _ Hop Ha). simpl. intros k Hk _ Hh.
    apply not_true_iff_false in Ht. apply Ht, existsb_exists. exists k.
    split; [apply in_seq; lia|]. apply bool_decide_eq_true.
    pose proof (capacity_aligned k) as Hka. destruct Hn as [_ Hna].
    apply Z.mod_divide in Hka as [x Hx]; [|done]. apply Z.mod_divide in Hna as [y Hy]; [|done]. lia.
Qed.

Lemma encode_payload_decodes {A} hole op body (m : PM A) a payload :
  carries hole false op body m a → encode_payload op = Ok payload →
  parse_payload payload m = Ok a.
Proof.
  intros Hc. rewrite (encode_payload_outcome _ _ _ _ _ _ Hc). unfold encode_result.
  destruct (match hole with Some _ => _ | None => _ end); [done|]. case_bool_decide as Hl; [|done].
  intros [= <-]. unfold MAX_ENCODE_CAPACITY in Hl. destruct Hc as [_ _ Ha Hp].
  apply parse_payload_wire; [apply Hp; lia|done|lia].
Qed.

(** The same, for a message known to be small enough. *)
Definition sends {A} (op : BuilderOp) (m : PM A) (a : A) : Prop :=
  ∃ body, carries None false op body m a ∧ 8 + len body ≤ MAX_ENCODE_CAPACITY.

Lemma sends_payload {A} op (m : PM A) a :
  sends op m a → ∃ payload, encode_payload op = Ok payload ∧ parse_payload payload m = Ok a.
Proof. intros (body & Hc & Hl). exists (struct_wire body). by apply carries_payload. Qed.

Lemma sends_plain op (m : PM Event) e :
  sends op m e →
  ∃ payload, encode_payload op = Ok payload ∧ decode_plain payload [] m = ([], Ok e).
Proof.
  intros (payload & He & Hd)%sends_payload. exists payload. unfold decode_plain. by rewrite Hd.
Qed.
#[global] Opaque encode_payload.
