(* ===== verification/ClientNodeEvents.v ===== *)
(** * ClientNode events

    Decoding untrusted events of [protocol/src/wire/client_node/mod.rs] is
    safe, and each encoder's output decodes to the event that was sent. *)

From S2P Require Import Prelude Utf8 PodTypes PodCodec PodLaws PodCompound PodParser PodParserLaws.
From S2P Require Import PodBuilder FrameHeader ClientNode ClientNodeLaws ClientNodeWire.

(** What the Rust types guarantee, and what the encoders demand. *)
Definition region_typed (r : RegionRef) : Prop :=
  u32_range (memory_id r) ∧ u32_range (offset r) ∧ u32_range (size r).
Definition region_ok (r : RegionRef) : Prop := region_typed r ∧ region_valid r.
Definition mix_ok (m : option Z) : Prop :=
  match m with Some m => u32_range m ∧ m ≠ INVALID_ID | None => True end.

Lemma reject_region_ok r : region_ok r → reject_partial_clear r = Ok tt.
Proof.
  intros [(_ & ? & ?) (Hm & Hs & Hl)]. unfold reject_partial_clear, checked_add, u32_range in *.
  rewrite bool_decide_eq_false_2 by tauto. by rewrite bool_decide_eq_true_2 by lia.
Qed.

Lemma region_ok_not_clear r : region_ok r → is_clear_region r = false.
Proof. intros [_ (Hm & _)]. unfold is_clear_region. by rewrite bool_decide_eq_false_2. Qed.

Lemma clear_region_typed : region_typed clear_region.
Proof. by vm_compute. Qed.

Lemma optional_wire_id m : mix_ok m → optional_id (wire_id m) = m ∧ u32_range (wire_id m).
Proof.
  unfold optional_id. destruct m as [m|]; simpl.
  - intros [? ?]. by rewrite bool_decide_eq_true_2.
  - by vm_compute.
Qed.

Lemma carries_region_typed {last} r :
  region_typed r →
  carries None last (push_region r)
    (int_wire (memory_id r) ++ int_wire (offset r) ++ int_wire (size r)) pop_region r.
Proof. intros (? & ? & ?). by apply carries_region. Qed.

(** Walk encoder and decoder field by field. *)
Ltac carry :=
  lazymatch goal with
  | |- carries _ _ (_ ▷ _) _ (pm_res _ ≫= _) _ => fail
  | |- carries _ _ (_ ▷ _) _ (_ ≫= _) _ => eapply carries_bind
  end.
Ltac carry_field := carry; [first
  [ apply carries_direction | by apply carries_u32 | by apply carries_u64 | by apply carries_id
  | by apply carries_fd | by apply carries_string | by apply carries_region_typed
  | by apply carries_count ]|].
Ltac carry_last := eapply carries_map; [first
  [ apply carries_direction | by apply carries_u32 | by apply carries_u64 | by apply carries_id
  | by apply carries_fd | by apply carries_string | by apply carries_region_typed ]|].

(** The arms of [decode_event]. *)
Lemma decode_event_transport p fds l : decode_event EVENT_TRANSPORT p fds l = decode_transport p fds.
Proof. done. Qed.
Lemma decode_event_set_param p fds l :
  decode_event EVENT_PORT_SET_PARAM p fds l = decode_plain p fds (pop_port_set_param l).
Proof. done. Qed.
Lemma decode_event_use_buffers p fds l :
  decode_event EVENT_PORT_USE_BUFFERS p fds l = decode_plain p fds (pop_port_use_buffers l).
Proof. done. Qed.
Lemma decode_event_set_io p fds l :
  decode_event EVENT_PORT_SET_IO p fds l = decode_plain p fds pop_port_set_io.
Proof. done. Qed.
Lemma decode_event_set_activation p fds l :
  decode_event EVENT_SET_ACTIVATION p fds l = decode_set_activation p fds.
Proof. done. Qed.
Lemma decode_event_command p fds l :
  decode_event EVENT_COMMAND p fds l = decode_plain p fds
    (pod ← pop_raw_pod; c ← pm_res (decode_command (raw_data pod)); mret (ECommand c)).
Proof. done. Qed.

(** ** Descriptors *)
Lemma require_two fds t c ft fc :
  len fds = 2 → t ≠ c → 0 ≤ t → 0 ≤ c →
  fds !! Z.to_nat t = Some (Some ft) → fds !! Z.to_nat c = Some (Some fc) →
  require_fds fds [t; c] = Ok tt.
Proof.
  intros Hl Hne Ht Hc Hft Hfc. unfold require_fds. rewrite bool_decide_eq_false_2 by (rewrite Hl; by intros []).
  simpl. unfold FrameFds_get. rewrite Hft, Hfc. simpl.
  rewrite bool_decide_eq_false_2 by set_solver. done.
Qed.

Lemma pod_fd_index_small i : 0 ≤ i < 2 → pod_fd_index i = Ok i.
Proof. intros. unfold pod_fd_index, u32_try_from. by rewrite bool_decide_eq_true_2 by lia. Qed.

Lemma i32_try_from_small i : i < 2 → i32_try_from i = Some i.
Proof. intros. unfold i32_try_from. by rewrite bool_decide_eq_true_2 by lia. Qed.

Lemma small_i64 i : -1 ≤ i < 2 → i64_range i.
Proof. unfold i64_range. lia. Qed.

(** A Transport event with the descriptors of its frame in either order
    round trips: the encoder succeeds for every valid activation region, and
    decoding the payload with the frame's two descriptors returns the event
    with each descriptor in the role its index gave it, leaving the table
    empty. *)
Lemma transport_roundtrip (t c ft fc : Z) (a : RegionRef) (fds : FrameFds) (l : Limits) :
  region_ok a → len fds = 2 → 0 ≤ t < 2 → 0 ≤ c < 2 → t ≠ c →
  fds !! Z.to_nat t = Some (Some ft) → fds !! Z.to_nat c = Some (Some fc) →
  ∃ payload, encode_transport t c a = Ok payload ∧
    decode_event EVENT_TRANSPORT payload fds l
    = ([None; None], Ok (ETransport (mkTransport ft fc a))).
Proof.
  intros Ha Hl Ht Hc Hne Hft Hfc. unfold encode_transport.
  rewrite reject_region_ok by done. res_cbn. rewrite !i32_try_from_small by lia. res_cbn.
  destruct (sends_payload (push_fd t ▷ push_fd c ▷ push_region a) pop_transport (t, c, a))
    as (payload & He & Hd).
  { unfold pop_transport. eexists. split.
    - carry; [apply carries_fd, small_i64; lia|]. eapply carries_res; [by apply pod_fd_index_small|].
      carry; [apply carries_fd, small_i64; lia|]. eapply carries_res; [by apply pod_fd_index_small|].
      eapply carries_map; [apply carries_region_typed, Ha|].
      eapply reads_res_bind; [by apply reject_region_ok|]. apply reads_ret.
    - unfold MAX_ENCODE_CAPACITY. len_lia. }
  exists payload. split; [exact He|]. clear He.
  rewrite decode_event_transport. unfold decode_transport. rewrite Hd. clear Hd.
  rewrite (require_two fds t c ft fc) by (done || lia).
  rewrite (take_fd_Ok fds t ft) by done.
  rewrite (take_fd_Ok _ c fc) by (rewrite list_lookup_insert_ne by lia; done).
  f_equal. assert (length fds = 2%nat) by (unfold len in Hl; lia).
  destruct fds as [|x [|y [|]]]; [done..| |done].
  assert (t = 0 ∧ c = 1 ∨ t = 1 ∧ c = 0) as [[-> ->]|[-> ->]] by lia; done.
Qed.

(** The descriptor of a SetActivation event comes from the frame, its
    removal carries none. *)
Definition activation_fds (v : option (Z * RegionRef)) (fd : Z) : FrameFds :=
  match v with Some _ => [Some fd] | None => [] end.

(** SetActivation round trips in both forms: setting a peer's activation
    hands over the frame's single descriptor, removing it is encoded as the
    sentinel (index -1, clear region) and needs an empty frame. *)
Lemma set_activation_roundtrip (node fd : Z) (v : option RegionRef) (l : Limits) :
  u32_range node → match v with Some a => region_ok a | None => True end →
  let arg := (λ a, (0, a)) <$> v in
  ∃ payload, encode_set_activation node arg = Ok payload ∧
    decode_event EVENT_SET_ACTIVATION payload (activation_fds arg fd) l
    = (match v with Some _ => [None] | None => [] end,
       Ok (ESetActivation
         match v with Some a => ActivationSet node fd a | None => ActivationRemove node end)).
Proof.
  intros Hn Hv arg.
  set (x := match v with Some a => (0, a) | None => (-1, clear_region) end).
  assert (encode_set_activation node arg
    = encode_payload (push_int (as_i32 node) ▷ push_fd x.1 ▷ push_region x.2)) as ->.
  { unfold encode_set_activation, arg, x. destruct v as [a|]; simpl; [|done].
    by rewrite reject_region_ok by done. }
  assert (region_typed x.2) as Hr
    by (destruct v as [a|]; [apply Hv|apply clear_region_typed]).
  edestruct (sends_payload (push_int (as_i32 node) ▷ push_fd x.1 ▷ push_region x.2)
    (node_id ← pop_u32; fd ← pop_fd; activation ← pop_region;
     mret (node_id, fd_value fd, activation)) (node, x.1, x.2)) as (payload & He & Hd).
  { eexists. split.
    - carry; [by apply carries_u32|].
      carry; [apply carries_fd, small_i64; by destruct v|].
      eapply carries_map; [by apply carries_region_typed|]. apply reads_ret.
    - unfold MAX_ENCODE_CAPACITY. len_lia. }
  exists payload. split; [done|]. rewrite decode_event_set_activation.
  unfold decode_set_activation. rewrite Hd. unfold arg, x. destruct v as [a|]; [|done]. simpl.
  by rewrite reject_region_ok by done.
Qed.

(** PortSetIo round trips in both forms: an IO area is set with a valid
    region, and cleared with the sentinel region; the mix id [None] travels
    as [SPA_ID_INVALID]. *)
Lemma port_set_io_roundtrip (v : PortSetIo) (l : Limits) :
  match v with
  | IoSet _ port mix io r => u32_range port ∧ mix_ok mix ∧ io = SPA_IO_BUFFERS ∧ region_ok r
  | IoClear _ port mix io => u32_range port ∧ mix_ok mix ∧ io = SPA_IO_BUFFERS
  end →
  ∃ payload, encode_port_set_io v = Ok payload ∧
    decode_event EVENT_PORT_SET_IO payload [] l = ([], Ok (EPortSetIo v)).
Proof.
  intros Hv.
  set (x := match v with
    | IoSet d p m i r => (d, p, m, i, r)
    | IoClear d p m i => (d, p, m, i, clear_region) end).
  destruct x as [[[[d port] mix] io] r] eqn:Hx.
  assert (u32_range port ∧ mix_ok mix ∧ io = SPA_IO_BUFFERS ∧ region_typed r) as (Hp & Hm & -> & Hr).
  { unfold x in Hx. destruct v; simplify_eq; [by destruct Hv as (? & ? & ? & ? & ?)|].
    destruct Hv as (? & ? & ?). split_and!; try done; apply clear_region_typed. }
  destruct (optional_wire_id mix Hm) as [Hmix Hmr].
  assert (encode_port_set_io v = encode_payload (push_int (as_i32 (direction_value d)) ▷
    push_int (as_i32 port) ▷ push_int (as_i32 (wire_id mix)) ▷ push_id (mkId SPA_IO_BUFFERS) ▷
    push_region r)) as ->.
  { unfold encode_port_set_io. fold x. rewrite Hx. simpl. unfold x in Hx.
    destruct v as [??????|????]; simplify_eq; [|done]. destruct Hv as (_ & _ & _ & Hok).
    by rewrite region_ok_not_clear, reject_region_ok by done. }
  destruct (sends_plain (push_int (as_i32 (direction_value d)) ▷
    push_int (as_i32 port) ▷ push_int (as_i32 (wire_id mix)) ▷ push_id (mkId SPA_IO_BUFFERS) ▷
    push_region r) pop_port_set_io (EPortSetIo v)) as (payload & He & Hd).
  { unfold pop_port_set_io. eexists. split.
    - do 3 carry_field. carry; [by apply carries_id|]. rewrite bool_decide_eq_false_2 by tauto.
      eapply carries_map; [by apply carries_region_typed|]. rewrite Hmix. unfold x in Hx.
      destruct v as [??????|????]; simplify_eq; [|apply reads_ret]. destruct Hv as (_ & _ & _ & Hok).
      rewrite region_ok_not_clear by done.
      eapply reads_res_bind; [by apply reject_region_ok|]. apply reads_ret.
    - unfold MAX_ENCODE_CAPACITY. len_lia. }
  exists payload. split; [done|]. by rewrite decode_event_set_io, Hd.
Qed.

(** A parameter the decoder accepts: a Format object of at most [max] bytes. *)
Definition param_ok (max : Z) (p : RawPod) : Prop :=
  raw_wf p ∧ raw_type p = TObject ∧ validate_format_object (raw_data p) = Ok tt ∧ raw_size p ≤ max.

(** PortSetParam round trips, with a Format object within the decoder's
    byte limit (and small enough for the encoder's buffer) and with no
    parameter, which travels as a None pod. *)
Lemma port_set_param_roundtrip (v : PortSetParam) (l : Limits) :
  u32_range (sp_port_id v) → u32_range (sp_flags v) → param_id v = SPA_PARAM_FORMAT →
  match param v with
  | Some p => param_ok (Z.min (max_pod_bytes l) (8 * 1024 * 1024)) p
  | None => True
  end →
  ∃ payload, encode_port_set_param v = Ok payload ∧
    decode_event EVENT_PORT_SET_PARAM payload [] l = ([], Ok (EPortSetParam v)).
Proof.
  destruct v as [d port id fl p]. simpl. intros Hport Hfl -> Hp.
  set (last_op := match p with Some p => push_pod pod_raw p | None => push_none end).
  set (op := push_int (as_i32 (direction_value d)) ▷ push_int (as_i32 port) ▷
    push_id (mkId SPA_PARAM_FORMAT) ▷ push_int (as_i32 fl) ▷ last_op).
  assert (encode_port_set_param (mkPortSetParam d port SPA_PARAM_FORMAT fl p) = encode_payload op) as ->.
  { unfold encode_port_set_param. simpl. destruct p as [p|]; [|done].
    destruct Hp as (_ & _ & Hf & _). by rewrite Hf. }
  destruct (sends_plain op (pop_port_set_param l)
    (EPortSetParam (mkPortSetParam d port SPA_PARAM_FORMAT fl p))) as (payload & He & Hd).
  { exists (int_wire (direction_value d) ++ int_wire port ++ id_wire SPA_PARAM_FORMAT ++ int_wire fl ++
      match p with Some p => raw_data p | None => none_wire end). split.
    - unfold op, pop_port_set_param. do 2 carry_field. carry; [by apply carries_id|].
      rewrite bool_decide_eq_false_2 by tauto. carry_field. unfold last_op. destruct p as [p|].
      + destruct Hp as (Hwf & Ht & Hf & Hs). eapply carries_map; [by apply carries_raw|].
        rewrite Ht. eapply reads_res_bind.
        { rewrite Hf. res_cbn. rewrite RawPodOwned_wrap_eq, Hwf. by res_cbn. }
        cbv beta iota. rewrite bool_decide_eq_false_2 by lia. apply reads_ret.
      + eapply carries_map; [apply carries_none|]. simpl.
        eapply reads_res_bind; [done|]. apply reads_ret.
    - unfold MAX_ENCODE_CAPACITY. destruct p as [p|]; [|len_lia].
      destruct Hp as (Hwf & _ & _ & Hs). pose proof (raw_wf_size p Hwf). len_lia. }
  exists payload. split; [done|]. by rewrite decode_event_set_param, Hd.
Qed.

Definition format_example : RawPod :=
  mkRawPod 16 TObject (u32_bytes 8 ++ u32_bytes (into_u32 TObject) ++
    u32_bytes (into_u32 OFormat) ++ u32_bytes 4).

(** Every node command round trips. *)
Lemma command_roundtrip (c : Command) (l : Limits) :
  ∃ payload, encode_command c = Ok payload ∧
    decode_event EVENT_COMMAND payload [] l = ([], Ok (ECommand c)).
Proof.
  assert (∃ pod, command_pod c = Ok pod ∧ raw_wf pod ∧ len (raw_data pod) = 16 ∧
    decode_command (raw_data pod) = Ok c) as (pod & Hp & Hwf & Hl & Hd).
  { destruct c; (eexists; split; [by vm_compute|by vm_compute]). }
  unfold encode_command. rewrite Hp. res_cbn.
  destruct (sends_plain (push_pod pod_raw pod)
    (pod ← pop_raw_pod; c ← pm_res (decode_command (raw_data pod)); mret (ECommand c)) (ECommand c))
    as (payload & He & Hdec).
  { exists (raw_data pod). split; [|by rewrite Hl].
    eapply carries_map; [by apply carries_raw|]. eapply reads_res_bind; [done|]. apply reads_ret. }
  exists payload. split; [done|]. by rewrite decode_event_command, Hdec.
Qed.

(** ** Buffers *)
Definition meta_typed (m : MetaDescriptor) : Prop := u32_range (meta_type m) ∧ u32_range (meta_size m).
Definition data_typed (d : DataDescriptor) : Prop :=
  u32_range (data_type d) ∧ u32_range (data_id d) ∧ u32_range (data_flags d) ∧
  u32_range (map_offset d) ∧ u32_range (max_size d).
Definition buffer_typed (b : BufferDescriptor) : Prop :=
  region_typed (metadata b) ∧ Forall meta_typed (metas b) ∧ Forall data_typed (datas b).

Definition meta_wire (m : MetaDescriptor) : list byte :=
  id_wire (meta_type m) ++ int_wire (meta_size m).
Definition data_wire (d : DataDescriptor) : list byte :=
  id_wire (data_type d) ++ int_wire (data_id d) ++ int_wire (data_flags d) ++
  int_wire (map_offset d) ++ int_wire (max_size d).
Definition region_wire (r : RegionRef) : list byte :=
  int_wire (memory_id r) ++ int_wire (offset r) ++ int_wire (size r).
Definition buffer_wire (b : BufferDescriptor) : list byte :=
  region_wire (metadata b) ++ int_wire (len (metas b)) ++ concat (meta_wire <$> metas b) ++
  int_wire (len (datas b)) ++ concat (data_wire <$> datas b).

Lemma validate_data_valid d : data_typed d → data_valid d → validate_data d = Ok tt.
Proof.
  intros (_ & _ & _ & ? & ?) [Hm Hl]. unfold validate_data, checked_add, u32_range in *.
  rewrite bool_decide_eq_false_2 by done. by rewrite bool_decide_eq_true_2 by lia.
Qed.

Lemma carries_meta {last} m :
  meta_typed m →
  carries None last (push_id (mkId (meta_type m)) ▷ push_int (as_i32 (meta_size m))) (meta_wire m)
    pop_meta m.
Proof. intros [? ?]. unfold pop_meta. carry_field. carry_last. destruct m. apply reads_ret. Qed.

Lemma carries_data {last} d :
  data_typed d → data_valid d →
  carries None last (push_id (mkId (data_type d)) ▷ push_int (as_i32 (data_id d)) ▷
    push_int (as_i32 (data_flags d)) ▷ push_int (as_i32 (map_offset d)) ▷
    push_int (as_i32 (max_size d))) (data_wire d) pop_data d.
Proof.
  intros Ht Hv. pose proof Ht as (? & ? & ? & ? & ?). unfold pop_data. do 4 carry_field. carry_last.
  destruct d as [ty id fl off sz]. simpl in *.
  eapply reads_res_bind; [by apply validate_data_valid|]. apply reads_ret.
Qed.

(** The limits the encoder checks. *)
Definition buffer_valid (l : Limits) (b : BufferDescriptor) : Prop :=
  buffer_typed b ∧ region_valid (metadata b) ∧ len (metas b) ≤ max_metas l ∧
  len (datas b) ≤ max_datas l ∧ len (metas b) < 2 ^ 31 ∧ len (datas b) < 2 ^ 31 ∧
  Forall data_valid (datas b).

Lemma carries_buffer {last} l b :
  buffer_valid l b → carries None last (push_buffer b) (buffer_wire b) (pop_buffer l) b.
Proof.
  intros ((Hr & Hmt & Hdt) & Hrv & Hm & Hd & Hm31 & Hd31 & Hdv).
  unfold push_buffer, pop_buffer, buffer_wire. carry; [by apply carries_region_typed|].
  eapply carries_res; [by apply reject_region_ok|].
  carry; [by apply carries_count|]. carry.
  { apply carries_each_id. eapply Forall_impl; [exact Hmt|]. intros m. by apply carries_meta. }
  carry; [by apply carries_count|]. eapply carries_map.
  { apply carries_each_id. apply Forall_forall. intros d Hin.
    rewrite Forall_forall in Hdt, Hdv. apply carries_data; auto. }
  destruct b. apply reads_ret.
Qed.

Lemma try_each_Ok {E A} (f : A → Res E unit) xs :
  try_each f xs = Ok tt → Forall (λ x, f x = Ok tt) xs.
Proof.
  induction xs as [|x xs IH]; simpl; [constructor|]. intros ([] & Hx & H)%bind_Ok_inv.
  constructor; auto.
Qed.

Lemma ensure_count_Ok v max u : ensure_count v max = Ok u → v ≤ max ∧ v < 2 ^ 31.
Proof. unfold ensure_count. case_bool_decide as H; [done|]. lia. Qed.

Lemma validate_buffers_Ok v l :
  validate_port_use_buffers v l = Ok tt → Forall buffer_typed (buffers v) →
  Z.land (ub_flags v) SPA_NODE_BUFFERS_FLAG_ALLOC = 0 ∧ len (buffers v) ≤ max_buffers l ∧
  len (buffers v) < 2 ^ 31 ∧ Forall (buffer_valid l) (buffers v).
Proof.
  unfold validate_port_use_buffers. case_bool_decide as Hf; [done|].
  intros ([] & Hn & H)%bind_Ok_inv Ht. apply ensure_count_Ok in Hn. apply try_each_Ok in H.
  split_and!; [tauto|lia|lia|]. rewrite Forall_forall in *. intros b Hb.
  specialize (H b Hb). specialize (Ht b Hb). simpl in H.
  apply bind_Ok_inv in H as ([] & Hr & H). apply map_err_Ok_inv, reject_partial_clear_Ok in Hr.
  apply bind_Ok_inv in H as ([] & Hm & H). apply ensure_count_Ok in Hm.
  apply bind_Ok_inv in H as ([] & Hd & H). apply ensure_count_Ok in Hd. apply try_each_Ok in H.
  split_and!; try done || lia. eapply Forall_impl; [exact H|].
  intros d Hv. apply map_err_Ok_inv in Hv. by eapply validate_data_Ok.
Qed.

Lemma len_concat_le {A} (w : A → list byte) n xs :
  Forall (λ x, len (w x) ≤ n) xs → len (concat (w <$> xs)) ≤ n * len xs.
Proof.
  induction 1 as [|x xs Hx _ IH]; [unfold len; simpl; lia|]. rewrite fmap_cons. simpl concat.
  rewrite len_app, len_cons. lia.
Qed.

(** Under the default limits a buffer description takes at most 22,608 bytes
    and the message 1.4 MB. *)
Lemma buffer_wire_len b :
  buffer_valid Limits_default b → len (buffer_wire b) ≤ 22608.
Proof.
  intros (_ & _ & Hm & Hd & _). simpl in Hm, Hd. unfold buffer_wire, region_wire.
  pose proof (len_concat_le meta_wire 32 (metas b)) as H1.
  pose proof (len_concat_le data_wire 80 (datas b)) as H2.
  assert (∀ m, len (meta_wire m) ≤ 32) as Hmw by (intros; unfold meta_wire; len_lia).
  assert (∀ d, len (data_wire d) ≤ 80) as Hdw by (intros; unfold data_wire; len_lia).
  rewrite !Forall_forall in *. specialize (H1 ltac:(auto)). specialize (H2 ltac:(auto)). len_lia.
Qed.

(** A PortUseBuffers event that passes the encoder's checks is always
    encoded, and decodes to the same buffers, metas and datas in the same
    order. *)
Lemma port_use_buffers_roundtrip (v : PortUseBuffers) :
  validate_port_use_buffers v Limits_default = Ok tt →
  u32_range (ub_port_id v) → mix_ok (ub_mix_id v) → u32_range (ub_flags v) →
  Forall buffer_typed (buffers v) →
  ∃ payload, encode_port_use_buffers v = Ok payload ∧
    decode_event EVENT_PORT_USE_BUFFERS payload [] Limits_default = ([], Ok (EPortUseBuffers v)).
Proof.
  intros Hval Hport Hmix Hfl Ht. unfold encode_port_use_buffers. rewrite Hval. res_cbn.
  destruct (validate_buffers_Ok _ _ Hval Ht) as (Hf & Hn & Hn31 & Hb). clear Hval.
  destruct (optional_wire_id _ Hmix) as [Hm Hmr].
  destruct (sends_plain (
    push_int (as_i32 (direction_value (ub_direction v))) ▷ push_int (as_i32 (ub_port_id v)) ▷
    push_int (as_i32 (wire_id (ub_mix_id v))) ▷ push_int (as_i32 (ub_flags v)) ▷
    push_int (as_i32 (len (buffers v))) ▷ op_each push_buffer (buffers v))
    (pop_port_use_buffers Limits_default) (EPortUseBuffers v)) as (payload & He & Hd).
  { exists (int_wire (direction_value (ub_direction v)) ++ int_wire (ub_port_id v) ++
      int_wire (wire_id (ub_mix_id v)) ++ int_wire (ub_flags v) ++ int_wire (len (buffers v)) ++
      concat (buffer_wire <$> buffers v)). split.
    - unfold pop_port_use_buffers. do 4 carry_field. rewrite bool_decide_eq_false_2 by tauto.
      carry; [by apply carries_count|]. eapply carries_map.
      { apply carries_each_id. eapply Forall_impl; [exact Hb|]. intros b. apply carries_buffer. }
      rewrite Hm. destruct v. apply reads_ret.
    - assert (len (concat (buffer_wire <$> buffers v)) ≤ 22608 * len (buffers v)) as Hc.
      { apply len_concat_le. eapply Forall_impl; [exact Hb|]. apply buffer_wire_len. }
      simpl in Hn. unfold MAX_ENCODE_CAPACITY. len_lia. }
  exists payload. split; [done|]. by rewrite decode_event_use_buffers, Hd.
Qed.

(** ** Every event

    An event as its sender describes it, with the frame's descriptors where
    it has some. *)
Inductive SentEvent :=
| SendTransport (trigger completion : Z) (fd0 fd1 : Z) (activation : RegionRef)
| SendSetActivation (node fd : Z) (v : option RegionRef)
| SendSetIo (v : PortSetIo)
| SendSetParam (v : PortSetParam)
| SendCommand (c : Command)
| SendUseBuffers (v : PortUseBuffers).

Definition sent_encode (e : SentEvent) : WireRes (list byte) :=
  match e with
  | SendTransport t c _ _ a => encode_transport t c a
  | SendSetActivation node _ v => encode_set_activation node ((λ a, (0, a)) <$> v)
  | SendSetIo v => encode_port_set_io v
  | SendSetParam v => encode_port_set_param v
  | SendCommand c => encode_command c
  | SendUseBuffers v => encode_port_use_buffers v
  end.
Definition sent_opcode (e : SentEvent) : Z :=
  match e with
  | SendTransport _ _ _ _ _ => EVENT_TRANSPORT
  | SendSetActivation _ _ _ => EVENT_SET_ACTIVATION
  | SendSetIo _ => EVENT_PORT_SET_IO
  | SendSetParam _ => EVENT_PORT_SET_PARAM
  | SendCommand _ => EVENT_COMMAND
  | SendUseBuffers _ => EVENT_PORT_USE_BUFFERS
  end.
Definition sent_fds (e : SentEvent) : FrameFds :=
  match e with
  | SendTransport _ _ fd0 fd1 _ => [Some fd0; Some fd1]
  | SendSetActivation _ fd v => activation_fds ((λ a, (0, a)) <$> v) fd
  | _ => []
  end.
(** What the receiver gets: each descriptor in its role. *)
Definition sent_event (e : SentEvent) : Event :=
  match e with
  | SendTransport t c fd0 fd1 a =>
      ETransport (mkTransport (if bool_decide (t = 0) then fd0 else fd1) (if bool_decide (c = 0) then fd0 else fd1) a)
  | SendSetActivation node fd v =>
      ESetActivation match v with Some a => ActivationSet node fd a | None => ActivationRemove node end
  | SendSetIo v => EPortSetIo v
  | SendSetParam v => EPortSetParam v
  | SendCommand c => ECommand c
  | SendUseBuffers v => EPortUseBuffers v
  end.
Definition sent_valid (e : SentEvent) : Prop :=
  match e with
  | SendTransport t c _ _ a => region_ok a ∧ 0 ≤ t < 2 ∧ 0 ≤ c < 2 ∧ t ≠ c
  | SendSetActivation node _ v => u32_range node ∧ match v with Some a => region_ok a | None => True end
  | SendSetIo (IoSet _ port mix io r) => u32_range port ∧ mix_ok mix ∧ io = SPA_IO_BUFFERS ∧ region_ok r
  | SendSetIo (IoClear _ port mix io) => u32_range port ∧ mix_ok mix ∧ io = SPA_IO_BUFFERS
  | SendSetParam v =>
      u32_range (sp_port_id v) ∧ u32_range (sp_flags v) ∧ param_id v = SPA_PARAM_FORMAT ∧
      match param v with
      | Some p => param_ok (Z.min (max_pod_bytes Limits_default) (8 * 1024 * 1024)) p
      | None => True
      end
  | SendCommand _ => True
  | SendUseBuffers v =>
      validate_port_use_buffers v Limits_default = Ok tt ∧ u32_range (ub_port_id v) ∧ mix_ok (ub_mix_id v) ∧
      u32_range (ub_flags v) ∧ Forall buffer_typed (buffers v)
  end.

Lemma sent_event_decodes (e : SentEvent) :
  sent_valid e →
  ∃ payload, sent_encode e = Ok payload ∧
    decode_event (sent_opcode e) payload (sent_fds e) Limits_default
    = (replicate (length (sent_fds e)) None, Ok (sent_event e)).
Proof.
  destruct e as [t c fd0 fd1 a|node fd v|v|v|c|v]; cbn [sent_valid sent_encode sent_opcode sent_fds sent_event].
  - intros (Ha & Ht & Hc & Hne). apply transport_roundtrip; try done;
      (case_bool_decide as Hz; [by rewrite Hz|]);
      [by replace t with 1 by lia|by replace c with 1 by lia].
  - intros [Hn Hv]. pose proof (set_activation_roundtrip node fd v Limits_default Hn Hv) as H. by destruct v.
  - intros Hv. by apply port_set_io_roundtrip.
  - intros (H1 & H2 & H3 & H4). by apply port_set_param_roundtrip.
  - intros _. apply command_roundtrip.
  - intros (H1 & H2 & H3 & H4 & H5). by apply port_use_buffers_roundtrip.
Qed.

(** Every ClientNode event with valid contents is encoded and decodes to
    the same event, each descriptor of the frame taken in the role its index
    names: Transport with its descriptors in either order, SetActivation as a
    set and as a removal, PortSetIo as a set and a clear, PortSetParam with a
    Format object and without, every command, and PortUseBuffers with all its
    buffers, metas and datas in order. *)
Lemma event_roundtrip (e : SentEvent) :
  sent_valid e →
  ∃ payload, sent_encode e = Ok payload ∧
    decode_event (sent_opcode e) payload (sent_fds e) Limits_default
    = (replicate (length (sent_fds e)) None, Ok (sent_event e)).
Proof. apply sent_event_decodes. Qed.

Lemma event_roundtrip_witness :
  let e := SendTransport 1 0 30 31 (mkRegion 5 0 4096) in
  let v := mkPortUseBuffers Input 0 (Some 2) 0
    [mkBuffer (mkRegion 1 0 256) [mkMeta 1 32] [mkData 2 0 3 0 1024; mkData 2 1 3 1024 1024]] in
  let w := mkPortSetParam Output 3 SPA_PARAM_FORMAT 0 (Some format_example) in
  (∃ payload, sent_encode e = Ok payload ∧
    decode_event EVENT_TRANSPORT payload [Some 30; Some 31] Limits_default
    = ([None; None], Ok (ETransport (mkTransport 31 30 (mkRegion 5 0 4096))))) ∧
  (∃ payload, encode_port_set_param w = Ok payload ∧
    decode_event EVENT_PORT_SET_PARAM payload [] Limits_default = ([], Ok (EPortSetParam w))) ∧
  (∃ payload, encode_port_use_buffers v = Ok payload ∧
    decode_event EVENT_PORT_USE_BUFFERS payload [] Limits_default = ([], Ok (EPortUseBuffers v))).
Proof.
  intros e v w. split; [apply (event_roundtrip e); by vm_compute|].
  split; [apply (event_roundtrip (SendSetParam w)); by vm_compute|].
  apply (event_roundtrip (SendUseBuffers v)). split; [by vm_compute|]. split; [by vm_compute|].
  split; [by vm_compute|]. split; [by vm_compute|]. by repeat constructor.
Defined.

(** Decoding any event payload, from an untrusted peer, never panics. On
    success every descriptor of the frame is moved into the event exactly
    once and the event respects the limits and the region checks; on failure
    the descriptors stay with the frame. *)
Lemma decode_event_safe (opcode : Z) (payload : list byte) (fds : FrameFds) (l : Limits) :
  len payload ≤ isize_max →
  fds_transferred fds (decode_event opcode payload fds l) ∧
  (∀ e, (decode_event opcode payload fds l).2 = Ok e → event_within l e).
Proof.
  intros Hl. split; [by apply decode_event_transferred|]. intros e. apply decode_event_within.
Qed.

Lemma decode_event_safe_witness :
  fds_transferred [Some 4] (decode_event 0 (zeros 24) [Some 4] Limits_default) ∧
  (∀ e, (decode_event 0 (zeros 24) [Some 4] Limits_default).2 = Ok e → event_within Limits_default e).
Proof. apply decode_event_safe. by vm_compute. Defined.
