(* ===== verification/ClientNodeMethods.v ===== *)
(** * ClientNode methods

    The methods a client sends, of [protocol/src/wire/client_node/mod.rs]:
    the exact result of encoding each of them, the round trip, and the safety
    of decoding. *)

From S2P Require Import Prelude Utf8 PodTypes PodCodec PodLaws PodCompound PodParser PodParserLaws.
From S2P Require Import PodBuilder FrameHeader ClientNode ClientNodeLaws ClientNodeWire ClientNodeEvents.

(** What the Rust types guarantee. *)
Definition string_typed (s : list byte) : Prop := utf8_valid s = true ∧ len s + 1 < 2 ^ 32.
Definition pair_typed (p : list byte * list byte) : Prop := string_typed p.1 ∧ string_typed p.2.
Definition param_info_typed (p : ParamInfo) : Prop := u32_range (pi_id p) ∧ u32_range (pi_flags p).
Definition node_info_typed (i : NodeInfo) : Prop :=
  u32_range (max_input_ports i) ∧ u32_range (max_output_ports i) ∧ u64_range (ni_change_mask i) ∧
  u64_range (ni_flags i) ∧ Forall pair_typed (ni_properties i) ∧ Forall param_info_typed (ni_params i).
Definition port_info_typed (i : PortInfo) : Prop :=
  u64_range (po_change_mask i) ∧ u64_range (po_flags i) ∧ u32_range (rate_num i) ∧
  u32_range (rate_denom i) ∧ Forall pair_typed (po_properties i) ∧
  Forall param_info_typed (po_params i).
Definition opt_all {A} (P : A → Prop) (o : option A) : Prop :=
  match o with Some a => P a | None => True end.

Definition method_typed (m : Method) : Prop :=
  match m with
  | MUpdate v =>
      u32_range (u_change_mask v) ∧ Forall raw_wf (u_params v) ∧ opt_all node_info_typed (u_info v)
  | MPortUpdate v =>
      u32_range (pu_port_id v) ∧ u32_range (pu_change_mask v) ∧ Forall raw_wf (pu_params v) ∧
      opt_all port_info_typed (pu_info v)
  | MSetActive _ => True
  end.

(** What arrives: the change masks are cut to their defined bits, and a node
    info carries properties and parameter infos only if the mask says so. *)
Definition kept {A} (mask bit : Z) (xs : list A) : list A :=
  if bool_decide (Z.land mask bit ≠ 0) then xs else [].

Definition normalize_node (i : NodeInfo) : NodeInfo :=
  let mask := Z.land (ni_change_mask i) NODE_INFO_CHANGE_MASK in
  mkNodeInfo (max_input_ports i) (max_output_ports i) mask (ni_flags i)
    (kept mask NODE_INFO_CHANGE_PROPS (ni_properties i))
    (kept mask NODE_INFO_CHANGE_PARAMS (ni_params i)).
Definition normalize_port (i : PortInfo) : PortInfo :=
  mkPortInfo (Z.land (po_change_mask i) PORT_INFO_CHANGE_MASK) (po_flags i) (rate_num i)
    (rate_denom i) (po_properties i) (po_params i).
Definition normalize (m : Method) : Method :=
  match m with
  | MUpdate v => MUpdate (mkUpdate (u_change_mask v) (u_params v) (normalize_node <$> u_info v))
  | MPortUpdate v =>
      MPortUpdate (mkPortUpdate (pu_direction v) (pu_port_id v) (pu_change_mask v) (pu_params v)
        (normalize_port <$> pu_info v))
  | MSetActive a => MSetActive a
  end.

(** ** Wire form *)
Definition pair_wire (p : list byte * list byte) : list byte := str_wire p.1 ++ str_wire p.2.
Definition param_info_wire (p : ParamInfo) : list byte := id_wire (pi_id p) ++ int_wire (pi_flags p).
Definition tail_wire (props : PropertyPairs) (ps : list ParamInfo) : list byte :=
  int_wire (len props) ++ concat (pair_wire <$> props) ++
  int_wire (len ps) ++ concat (param_info_wire <$> ps).
Definition node_info_wire (i : NodeInfo) : list byte :=
  let n := normalize_node i in
  int_wire (max_input_ports n) ++ int_wire (max_output_ports n) ++
  long_wire (ni_change_mask n) ++ long_wire (ni_flags n) ++ tail_wire (ni_properties n) (ni_params n).
Definition port_info_wire (i : PortInfo) : list byte :=
  let n := normalize_port i in
  long_wire (po_change_mask n) ++ long_wire (po_flags n) ++ int_wire (rate_num n) ++
  int_wire (rate_denom n) ++ tail_wire (po_properties n) (po_params n).

Definition info_wire (o : option (list byte)) : list byte :=
  match o with Some body => struct_wire body | None => none_wire end.

(** The fields before the info, and the whole body. *)
Definition fields_wire (m : Method) : list byte :=
  match m with
  | MUpdate v =>
      int_wire (u_change_mask v) ++ int_wire (len (u_params v)) ++ concat (raw_data <$> u_params v)
  | MPortUpdate v =>
      int_wire (direction_value (pu_direction v)) ++ int_wire (pu_port_id v) ++
      int_wire (pu_change_mask v) ++ int_wire (len (pu_params v)) ++ concat (raw_data <$> pu_params v)
  | MSetActive a => wire pod_bool a
  end.
Definition method_wire (m : Method) : list byte :=
  fields_wire m ++
  match m with
  | MUpdate v => info_wire (node_info_wire <$> u_info v)
  | MPortUpdate v => info_wire (port_info_wire <$> pu_info v)
  | MSetActive _ => []
  end.
Definition has_info (m : Method) : bool :=
  match m with
  | MUpdate v => bool_decide (is_Some (u_info v))
  | MPortUpdate v => bool_decide (is_Some (pu_info v))
  | MSetActive _ => false
  end.
Definition method_hole (m : Method) : option Z :=
  if has_info m then Some (len (fields_wire m)) else None.

(** ** Encoder and decoder in step *)
Lemma carries_tail {last} props ps l :
  Forall pair_typed props → Forall param_info_typed ps →
  len props ≤ max_properties l → len props < 2 ^ 31 →
  len ps ≤ max_param_info l → len ps < 2 ^ 31 →
  carries None last (push_info_tail props ps) (tail_wire props ps) (pop_info_tail l) (props, ps).
Proof.
  intros Hp Hq Hpl Hp31 Hql Hq31. unfold push_info_tail, pop_info_tail, tail_wire.
  carry; [by apply carries_count|]. carry.
  { apply carries_each_id. eapply Forall_impl; [exact Hp|]. intros [k v] [[? ?] [? ?]].
    carry_field. carry_last. apply reads_ret. }
  carry; [by apply carries_count|]. eapply carries_map; [|apply reads_ret].
  apply carries_each_id. eapply Forall_impl; [exact Hq|]. intros [i f] [? ?].
  carry_field. carry_last. apply reads_ret.
Qed.

Lemma kept_len {A} mask bit (xs : list A) : len (kept mask bit xs) ≤ len xs.
Proof. unfold kept. case_bool_decide; [lia|]. rewrite len_nil. apply len_nonneg. Qed.

Lemma kept_Forall {A} (P : A → Prop) mask bit xs : Forall P xs → Forall P (kept mask bit xs).
Proof. unfold kept. by case_bool_decide. Qed.

Lemma land_u64 m k : 0 ≤ k → k ≤ 63 → u64_range (Z.land m (Z.ones k)).
Proof.
  intros H0 Hk. pose proof (mask_range m k H0). rewrite Z.ones_equiv in *.
  pose proof (Z.pow_le_mono_r 2 k 63). unfold u64_range. lia.
Qed.

Definition tail_counts (l : Limits) {A B} (props : list A) (ps : list B) : Prop :=
  (len props ≤ max_properties l ∧ len props < 2 ^ 31) ∧
  (len ps ≤ max_param_info l ∧ len ps < 2 ^ 31).

Lemma carries_node_info l i :
  node_info_typed i → tail_counts l (ni_properties (normalize_node i)) (ni_params (normalize_node i)) →
  carries None true (push_node_info i) (node_info_wire i) (pop_node_info l) (normalize_node i).
Proof.
  intros (? & ? & ? & ? & Hp & Hq) [[? ?] [? ?]]. unfold push_node_info, pop_node_info. cbv zeta.
  unfold node_info_wire. cbv zeta. do 2 carry_field.
  carry; [apply carries_u64, (land_u64 _ 3); lia|]. carry_field.
  eapply carries_map; [apply carries_tail; try done; by apply kept_Forall|].
  apply reads_no_trailing. simpl. rewrite <- Z.land_assoc, Z.land_diag. apply reads_ret.
Qed.

Lemma carries_port_info l i :
  port_info_typed i → tail_counts l (po_properties i) (po_params i) →
  carries None true (push_port_info i) (port_info_wire i) (pop_port_info l) (normalize_port i).
Proof.
  intros (? & ? & ? & ? & Hp & Hq) [[? ?] [? ?]]. unfold push_port_info, pop_port_info.
  unfold port_info_wire. cbv zeta.
  carry; [apply carries_u64, (land_u64 _ 4); lia|]. do 3 carry_field.
  eapply carries_map; [by apply carries_tail|].
  apply reads_no_trailing. simpl. rewrite <- Z.land_assoc, Z.land_diag. apply reads_ret.
Qed.

(** ** The encoder's checks *)
Lemma params_checked l ps :
  existsb (λ pod, bool_decide (raw_size pod > max_pod_bytes l)) ps = false →
  Forall (λ p, raw_size p ≤ max_pod_bytes l) ps.
Proof.
  intros H. apply Forall_forall. intros p Hp%list_elem_of_In.
  apply not_true_iff_false in H. destruct (decide (raw_size p ≤ max_pod_bytes l)); [done|].
  exfalso. apply H, existsb_exists. exists p. split; [done|]. apply bool_decide_eq_true. lia.
Qed.

Definition params_ok (l : Limits) (ps : list RawPod) : Prop :=
  len ps ≤ max_params l ∧ len ps < 2 ^ 31 ∧ Forall (λ p, raw_size p ≤ max_pod_bytes l) ps.

Definition method_ok (l : Limits) (m : Method) : Prop :=
  match m with
  | MUpdate v =>
      params_ok l (u_params v) ∧
      opt_all (λ i, tail_counts l (ni_properties (normalize_node i)) (ni_params (normalize_node i)))
        (u_info v)
  | MPortUpdate v =>
      params_ok l (pu_params v) ∧ opt_all (λ i, tail_counts l (po_properties i) (po_params i)) (pu_info v)
  | MSetActive _ => True
  end.

Lemma kept_count {A} mask bit (xs : list A) :
  Z.land NODE_INFO_CHANGE_MASK bit = bit →
  len (kept (Z.land mask NODE_INFO_CHANGE_MASK) bit xs)
  = Z.b2z (bool_decide (Z.land mask bit ≠ 0)) * len xs.
Proof.
  intros Hb. unfold kept. rewrite <- Z.land_assoc, Hb. case_bool_decide; unfold len; simpl; lia.
Qed.

Lemma validate_method_Ok m l : validate_method m l = Ok tt → method_ok l m.
Proof.
  destruct m as [v|v|a]; simpl; [| |done]; intros H; ok_inv H; 
    repeat match goal with H : ensure_count _ _ = Ok _ |- _ => apply ensure_count_Ok in H end;
    (destruct (existsb _ _) eqn:He; [done|]); apply params_checked in He.
  - split; [by destruct_and!|]. destruct (u_info v) as [i|]; [|done]. simpl.
    unfold tail_counts. by rewrite !kept_count.
  - split; [by destruct_and!|]. by destruct (pu_info v) as [i|].
Qed.

(** ** Methods on the wire *)
Lemma carries_eq {A} hole hole' last op bs bs' (m : PM A) a :
  carries hole last op bs m a → hole = hole' → bs = bs' → carries hole' last op bs' m a.
Proof. by intros ? <- <-. Qed.

Lemma carries_params l ps :
  params_ok l ps → Forall raw_wf ps →
  carries None false (op_each (push_pod pod_raw) ps) (concat (raw_data <$> ps))
    (pop_pods (length ps) (max_pod_bytes l)) ps.
Proof.
  intros (_ & _ & Hs) Hwf. apply carries_each_id. apply Forall_forall. intros p Hp.
  rewrite Forall_forall in Hs, Hwf. specialize (Hs p Hp). specialize (Hwf p Hp).
  eapply carries_map; [by apply carries_raw|]. rewrite bool_decide_eq_false_2 by lia.
  apply reads_res. by rewrite RawPodOwned_wrap_eq.
Qed.

Definition info_hole {A} (o : option A) : option Z := (λ _, 0) <$> o.

Lemma carries_optional_node l o :
  opt_all node_info_typed o →
  opt_all (λ i, tail_counts l (ni_properties (normalize_node i)) (ni_params (normalize_node i))) o →
  carries (info_hole o) false
    match o with Some info => push_struct (push_node_info info) | None => push_none end
    (info_wire (node_info_wire <$> o)) (pop_optional_node_info l) (normalize_node <$> o).
Proof.
  intros Ht Hc. unfold pop_optional_node_info. destruct o as [i|]; simpl in *.
  - eapply carries_struct; [by apply carries_node_info|]. intros pod -> Hp.
    eapply reads_res_bind; [exact Hp|]. apply reads_ret.
  - eapply carries_map; [apply carries_none|]. apply reads_ret.
Qed.

Lemma carries_optional_port l o :
  opt_all port_info_typed o → opt_all (λ i, tail_counts l (po_properties i) (po_params i)) o →
  carries (info_hole o) false
    match o with Some info => push_struct (push_port_info info) | None => push_none end
    (info_wire (port_info_wire <$> o)) (pop_optional_port_info l) (normalize_port <$> o).
Proof.
  intros Ht Hc. unfold pop_optional_port_info. destruct o as [i|]; simpl in *.
  - eapply carries_struct; [by apply carries_port_info|]. intros pod -> Hp.
    eapply reads_res_bind; [exact Hp|]. apply reads_ret.
  - eapply carries_map; [apply carries_none|]. apply reads_ret.
Qed.

Definition method_decoder (m : Method) (l : Limits) : PM Method :=
  match m with
  | MUpdate _ => pop_update l
  | MPortUpdate _ => pop_port_update l
  | MSetActive _ => active ← pop_bool; mret (MSetActive active)
  end.

Lemma decode_method_arm m payload l :
  decode_method (method_opcode m) payload l = parse_payload payload (method_decoder m l).
Proof. by destruct m. Qed.

Ltac carry_seq := eapply carries_seq; [first
  [ apply carries_direction | by apply carries_u32 | by apply carries_count
  | by apply carries_params ]|].

Lemma carries_method m l :
  method_typed m → method_ok l m →
  carries (method_hole m) false (build_method m) (method_wire m) (method_decoder m l) (normalize m).
Proof.
  destruct m as [v|v|a]; cbn [method_typed method_ok build_method method_decoder].
  - intros (? & Hwf & Hi) [Hp Hc]. pose proof Hp as (? & ? & _). unfold pop_update.
    eapply carries_eq.
    + do 3 carry_seq. eapply carries_map; [by apply carries_optional_node|]. apply reads_ret.
    + unfold method_hole, has_info, fields_wire. destruct (u_info v); simpl; [|done].
      f_equal. len_lia.
    + unfold method_wire, fields_wire. by rewrite <- !app_assoc.
  - intros (? & ? & Hwf & Hi) [Hp Hc]. pose proof Hp as (? & ? & _). unfold pop_port_update.
    eapply carries_eq.
    + do 5 carry_seq. eapply carries_map; [by apply carries_optional_port|]. apply reads_ret.
    + unfold method_hole, has_info, fields_wire. destruct (pu_info v); simpl; [|done].
      f_equal. len_lia.
    + unfold method_wire, fields_wire. by rewrite <- !app_assoc.
  - intros _ _. eapply carries_eq; [|done|symmetry; apply app_nil_r].
    eapply carries_map; [apply carries_bool|]. apply reads_ret.
Qed.

(** ** Properties *)

(** C36: The exact result of encoding a method that passes validation. The
    message is the struct of its fields, if it fits 16 MiB, and an error if it
    does not; but a message with an info whose preceding fields end exactly
    at the end of one of the buffers tried (1 KiB doubled up to 16 MiB)
    panics in [push_struct]. *)
Theorem method_encode_outcome (m : Method) (l : Limits) :
  method_typed m → validate_method m l = Ok tt →
  encode_method_with_limits m l
  = (if has_info m && tried_capacity (8 + len (fields_wire m)) then Panic
     else if bool_decide (8 + len (method_wire m) ≤ MAX_ENCODE_CAPACITY)
     then Ok (struct_wire (method_wire m)) else Err InvalidInput).
Proof.
  intros Ht Hv. unfold encode_method_with_limits. rewrite Hv. res_cbn.
  rewrite (encode_payload_outcome _ _ _ _ _ _ (carries_method m l Ht (validate_method_Ok m l Hv))).
  unfold encode_result, method_hole. by destruct (has_info m).
Qed.

(** A client update with one 984-byte parameter, which no limit forbids. *)
Definition update_example (n : Z) : Method :=
  MUpdate (mkUpdate 3
    [mkRawPod (8 + n) TBytes (u32_bytes n ++ u32_bytes (into_u32 TBytes) ++ zeros n)]
    (Some (mkNodeInfo 1 1 7 0 [] [mkParamInfo 4 6]))).

Lemma method_encode_outcome_witness :
  encode_method_with_limits (update_example 976) Limits_default = Panic.
Proof.
  rewrite (method_encode_outcome (update_example 976) Limits_default); [by vm_compute| |by vm_compute].
  split; [by vm_compute|]. split; [repeat constructor; by vm_compute|].
  split_and!; [by vm_compute..|by repeat constructor|]. repeat constructor; by vm_compute.
Defined.

(** C18: Every method that is encoded decodes, under the same limits, to what
    was sent: all fields, with the change masks cut to their defined bits and
    unannounced node properties dropped. *)
Theorem method_roundtrip (m : Method) (l : Limits) (payload : list byte) :
  method_typed m → encode_method_with_limits m l = Ok payload →
  decode_method (method_opcode m) payload l = Ok (normalize m).
Proof.
  unfold encode_method_with_limits. intros Ht ([] & Hv & He)%bind_Ok_inv.
  rewrite decode_method_arm. eapply encode_payload_decodes; [|exact He].
  apply carries_method; [done|]. by apply validate_method_Ok.
Qed.

Lemma method_roundtrip_witness :
  ∃ payload, encode_method_with_limits (update_example 16) Limits_default = Ok payload ∧
    decode_method METHOD_UPDATE payload Limits_default = Ok (normalize (update_example 16)).
Proof.
  eexists. split; [vm_compute; reflexivity|].
  apply (method_roundtrip (update_example 16) Limits_default); [|by vm_compute].
  split; [by vm_compute|]. split; [repeat constructor; by vm_compute|].
  split_and!; [by vm_compute..|by repeat constructor|]. repeat constructor; by vm_compute.
Defined.

(** Decoding any method payload, from an untrusted client, never panics
    and what it returns respects the limits. *)
Lemma decode_method_safe (opcode : Z) (payload : list byte) (l : Limits) :
  len payload ≤ isize_max →
  total (decode_method opcode payload l) ∧
  (∀ m, decode_method opcode payload l = Ok m → method_within l m).
Proof.
  intros Hl. split; [by apply decode_method_total|]. intros m. apply decode_method_within.
Qed.

Lemma decode_method_safe_witness :
  total (decode_method 2 (zeros 40) Limits_default) ∧
  (∀ m, decode_method 2 (zeros 40) Limits_default = Ok m → method_within Limits_default m).
Proof. apply decode_method_safe. by vm_compute. Defined.
