(* ===== verification/NodeMemory.v ===== *)
(** * Shared memory of a node

    Models [node/src/shm/memfd.rs] (checked mappings), [node/src/shm/registry.rs]
    (memory by id) and [node/src/session/memory/mod.rs] (the connection's pool
    of imported memory, with a generation per import), and the memory kinds
    of [spa/src/buffer/data_type.rs].

    The kernel is a parameter: what [fstat], [fcntl(F_GET_SEALS)], [sysconf]
    and [mmap] answer. A descriptor is its number, a pointer its address. *)

From S2P Require Import Prelude PodTypes FrameHeader.

(** ** Memory kinds *)
Inductive DataType := DtInvalid | DtMemPtr | DtMemFd | DtDmaBuf | DtMemId | DtSyncObj.
#[global] Instance DataType_eq_dec : EqDecision DataType.
Proof. solve_decision. Defined.
Definition DataType_variants : list (DataType * option Z) :=
  [(DtInvalid, None); (DtMemPtr, None); (DtMemFd, None); (DtDmaBuf, None); (DtMemId, None);
   (DtSyncObj, None)].
#[global] Instance DataType_conv : U32Conv DataType := derived_conv DataType_variants.

(** ** The kernel *)
Record FileStat := mkStat { st_size : Z; st_dev : Z; st_ino : Z }.

Record Kernel := mkKernel {
  fstat : Z → IoError + FileStat;
  get_seals : Z → Z;
  page_size : Z;
  (* length, writable, descriptor, offset: an address, or MAP_FAILED *)
  mmap : Z → bool → Z → Z → IoError + Z;
}.

Definition F_SEAL_SHRINK : Z := 2.

(** ** Mappings: [memfd.rs] *)
Inductive SealStatus := SealAvailable (seals : Z) | SealUnsupported.

Definition prevents_shrink (s : SealStatus) : bool :=
  match s with
  | SealAvailable seals => bool_decide (Z.land seals F_SEAL_SHRINK ≠ 0)
  | SealUnsupported => false
  end.

Inductive ShrinkPolicy := Allow | RequireSealed.
#[global] Instance ShrinkPolicy_eq_dec : EqDecision ShrinkPolicy.
Proof. solve_decision. Defined.

Record MappedRegion := mkMapped {
  mapping_ptr : Z;
  mapping_len : Z;
  m_ptr : Z;
  m_len : Z;
  m_seals : SealStatus;
}.

(** [io::Error]s of the mapping code: one made here, or one of the kernel. *)
Inductive MapError := InvalidInputErr | InvalidDataErr | NotFoundErr | OtherErr | OsErr (e : IoError).

Definition os_result {A} (r : IoError + A) : Res MapError A :=
  match r with inl e => Err (OsErr e) | inr a => Ok a end.

Section kernel.
Context (kernel : Kernel).

Definition seal_status (fd : Z) : SealStatus :=
  let seals := get_seals kernel fd in
  if bool_decide (seals < 0) then SealUnsupported else SealAvailable seals.

(** [usize::try_from] of a signed value *)
Definition usize_try_from (v : Z) : option Z := if bool_decide (0 ≤ v) then Some v else None.

Definition map_shared_with_policy (fd offset len : Z) (writable : bool) (policy : ShrinkPolicy) :
    Res MapError MappedRegion :=
  if bool_decide (len = 0) then Err InvalidInputErr else
  end_ ← ok_or (checked_add 64 offset len) InvalidInputErr;
  if bool_decide (len > isize_max) then Err InvalidInputErr else
  stat ← os_result (fstat kernel fd);
  file_size ← ok_or (usize_try_from (st_size stat)) InvalidDataErr;
  if bool_decide (end_ > file_size) then Err InvalidInputErr else
  let status := seal_status fd in
  if bool_decide (policy = RequireSealed) && negb (prevents_shrink status)
  then Err InvalidInputErr else
  page ← ok_or (usize_try_from (page_size kernel)) OtherErr;
  if bool_decide (page = 0) then Err OtherErr else
  let mapping_offset := offset / page * page in
  logical_offset ← usize_sub offset mapping_offset;
  mapping_len ← ok_or (checked_add 64 logical_offset len) InvalidInputErr;
  if bool_decide (mapping_len > isize_max) then Err InvalidInputErr else
  mapping_offset ← ok_or (if bool_decide (mapping_offset ≤ isize_max) then Some mapping_offset else None)
    InvalidInputErr;
  ptr ← os_result (mmap kernel mapping_len writable fd mapping_offset);
  if bool_decide (ptr = 0) then Err OtherErr else
  Ok (mkMapped ptr mapping_len (ptr + logical_offset) len status).

Definition map_shared (fd offset len : Z) (writable : bool) : Res MapError MappedRegion :=
  map_shared_with_policy fd offset len writable Allow.
End kernel.

(** ** Memory by id: [registry.rs] *)
Notation MemoryRegistry := (gmap Z Z).

Definition registry_insert (r : MemoryRegistry) (id fd : Z) : MemoryRegistry * option Z :=
  (<[id := fd]> r, r !! id).
Definition registry_remove (r : MemoryRegistry) (id : Z) : MemoryRegistry * option Z :=
  (delete id r, r !! id).
Definition registry_contains (r : MemoryRegistry) (id : Z) : bool := bool_decide (is_Some (r !! id)).
Definition registry_map_with_policy (kernel : Kernel) (r : MemoryRegistry) (id offset size : Z)
    (writable : bool) (policy : ShrinkPolicy) : Res MapError MappedRegion :=
  fd ← ok_or (r !! id) NotFoundErr;
  map_shared_with_policy kernel fd offset size writable policy.

(** ** The pool: [session/memory/mod.rs] *)
Record MemoryKey := mkKey { k_id : Z; generation : Z }.
#[global] Instance MemoryKey_eq_dec : EqDecision MemoryKey.
Proof. solve_decision. Defined.

Record BackingIdentity := mkBacking { device : Z; inode : Z }.
#[global] Instance BackingIdentity_eq_dec : EqDecision BackingIdentity.
Proof. solve_decision. Defined.

Inductive MemoryKind := MemFd.

Record MemoryEntry := mkEntry {
  e_key : MemoryKey;
  backing : BackingIdentity;
  kind : MemoryKind;
  e_flags : Z;
  file_len : Z;
  e_fd : Z;
}.

Record MemoryInterval := mkInterval { i_backing : BackingIdentity; start : Z; end_ : Z }.

Definition overlaps (a b : MemoryInterval) : bool :=
  bool_decide (i_backing a = i_backing b) && bool_decide (start a < end_ b) &&
  bool_decide (start b < end_ a).

Inductive MemoryError :=
| UnknownMemoryType (t : Z)
| UnsupportedMemoryType (t : DataType)
| DuplicateActiveId (id : Z)
| UnknownMemory (id : Z)
| StaleGeneration (requested : MemoryKey) (active : option MemoryKey)
| InvalidRegion (key : MemoryKey) (offset len file_len : Z)
| GenerationExhausted
| ShrinkableMemory (id : Z)
| Inspect (e : MapError)
| MapFailed (key : MemoryKey) (source : MapError)
| Disconnected.
Notation MemRes := (Res MemoryError).

Record MemoryPool := mkPool {
  next_generation : Z;
  live : gmap Z MemoryEntry;
  shrink_policy : ShrinkPolicy;
  disconnected : bool;
}.

Record MemoryMapping := mkMapping { mapped : MappedRegion; mm_entry : MemoryEntry; mm_offset : Z }.
Record MemoryLease := mkLease { l_entry : MemoryEntry; l_policy : ShrinkPolicy }.

Definition mapping_key (m : MemoryMapping) : MemoryKey := e_key (mm_entry m).
Definition lease_key (l : MemoryLease) : MemoryKey := e_key (l_entry l).

(** The addition is unchecked in the code; it cannot overflow (below). *)
Definition interval (m : MemoryMapping) : MemoryInterval :=
  mkInterval (backing (mm_entry m)) (mm_offset m) (mm_offset m + m_len (mapped m)).

Definition MemoryPool_new (policy : ShrinkPolicy) : MemoryPool := mkPool 1 ∅ policy false.

Section pool.
Context (kernel : Kernel).

Definition file_identity (fd : Z) : Res MapError (Z * BackingIdentity) :=
  stat ← os_result (fstat kernel fd);
  len ← ok_or (usize_try_from (st_size stat)) InvalidDataErr;
  Ok (len, mkBacking (st_dev stat) (st_ino stat)).

Definition map_entry (entry : MemoryEntry) (policy : ShrinkPolicy) (offset len : Z) (writable : bool) :
    MemRes MemoryMapping :=
  let key := e_key entry in
  let valid := bool_decide (len > 0) && bool_decide (len ≤ isize_max) &&
    match checked_add 64 offset len with
    | Some e => bool_decide (e ≤ file_len entry)
    | None => false
    end in
  if negb valid then Err (InvalidRegion key offset len (file_len entry)) else
  m ← map_err (MapFailed key) (map_shared_with_policy kernel (e_fd entry) offset len writable policy);
  Ok (mkMapping m entry offset).

(** What [add] stores, or why it refuses. *)
Definition pool_add (p : MemoryPool) (id memory_type flags fd : Z) : MemoryPool * MemRes MemoryKey :=
  if disconnected p then (p, Err Disconnected) else
  if bool_decide (is_Some (live p !! id)) then (p, Err (DuplicateActiveId id)) else
  match try_from_u32 memory_type with
  | None => (p, Err (UnknownMemoryType memory_type))
  | Some DtMemFd =>
      match file_identity fd with
      | Ok (len, b) =>
          if bool_decide (shrink_policy p = RequireSealed) &&
             negb (prevents_shrink (seal_status kernel fd))
          then (p, Err (ShrinkableMemory id)) else
          let g := next_generation p in
          match checked_add 64 g 1 with
          | None => (p, Err GenerationExhausted)
          | Some g' =>
              let key := mkKey id g in
              (mkPool g' (<[id := mkEntry key b MemFd flags len fd]> (live p)) (shrink_policy p)
                 (disconnected p), Ok key)
          end
      | Err e => (p, Err (Inspect e))
      | Panic => (p, Panic)
      end
  | Some other => (p, Err (UnsupportedMemoryType other))
  end.

Definition pool_resolve (p : MemoryPool) (id : Z) : MemRes MemoryKey :=
  if disconnected p then Err Disconnected else
  ok_or (e_key <$> live p !! id) (UnknownMemory id).

Definition live_entry (p : MemoryPool) (key : MemoryKey) : MemRes MemoryEntry :=
  if disconnected p then Err Disconnected else
  entry ← ok_or (live p !! k_id key) (StaleGeneration key None);
  if bool_decide (e_key entry ≠ key) then Err (StaleGeneration key (Some (e_key entry))) else
  Ok entry.

Definition pool_map (p : MemoryPool) (key : MemoryKey) (offset len : Z) (writable : bool) :
    MemRes MemoryMapping :=
  entry ← live_entry p key;
  map_entry entry (shrink_policy p) offset len writable.

Definition pool_bind (p : MemoryPool) (id offset len : Z) (writable : bool) : MemRes MemoryMapping :=
  key ← pool_resolve p id;
  pool_map p key offset len writable.

Definition pool_lease (p : MemoryPool) (key : MemoryKey) : MemRes MemoryLease :=
  entry ← live_entry p key;
  Ok (mkLease entry (shrink_policy p)).

Definition lease_map (l : MemoryLease) (offset len : Z) (writable : bool) : MemRes MemoryMapping :=
  map_entry (l_entry l) (l_policy l) offset len writable.

Definition pool_remove (p : MemoryPool) (id : Z) : MemoryPool * MemRes MemoryKey :=
  if disconnected p then (p, Err Disconnected) else
  match live p !! id with
  | Some entry =>
      (mkPool (next_generation p) (delete id (live p)) (shrink_policy p) (disconnected p),
       Ok (e_key entry))
  | None => (p, Err (UnknownMemory id))
  end.

Definition pool_clear (p : MemoryPool) : MemoryPool :=
  mkPool (next_generation p) ∅ (shrink_policy p) (disconnected p).

Definition disconnect (p : MemoryPool) : MemoryPool :=
  mkPool (next_generation p) ∅ (shrink_policy p) true.

Definition active_keys (p : MemoryPool) : list MemoryKey := e_key ∘ snd <$> map_to_list (live p).
End pool.

(** ** Mappings stay inside their file *)

(** No panic, and [Q] of the value on success. *)
Definition post {E A} (Q : A → Prop) (m : Res E A) : Prop :=
  match m with Ok a => Q a | Err _ => True | Panic => False end.

Lemma post_bind {E A B} (Q : B → Prop) (m : Res E A) (f : A → Res E B) :
  post (λ a, post Q (f a)) m → post Q (m ≫= f).
Proof. by destruct m. Qed.
Lemma post_ok_or {E A} (Q : A → Prop) (o : option A) (e : E) :
  (∀ a, o = Some a → Q a) → post Q (ok_or o e).
Proof. destruct o; simpl; auto. Qed.
Lemma post_os {A} (Q : A → Prop) (r : IoError + A) :
  (∀ a, r = inr a → Q a) → post Q (os_result r).
Proof. destruct r; simpl; auto. Qed.
Lemma post_guard {E A} (Q : A → Prop) (b : bool) (e : E) (m : Res E A) :
  (b = false → post Q m) → post Q (if b then Err e else m).
Proof. destruct b; simpl; auto. Qed.
Lemma post_total {E A} (Q : A → Prop) (m : Res E A) : post Q m → total m.
Proof. by destruct m. Qed.
Lemma post_Ok {E A} (Q : A → Prop) (m : Res E A) a : post Q m → m = Ok a → Q a.
Proof. by intros H ->. Qed.

Ltac post_step :=
  first [ apply post_bind | apply post_guard; intros ?%bool_decide_eq_false
        | apply post_guard; intros ? | apply post_ok_or; intros ? ? | apply post_os; intros ? ? ];
  cbv beta.

(** What a mapping of [len] bytes at [offset] of descriptor [fd] is. *)
Record region_sound (kernel : Kernel) (fd offset len : Z) (writable : bool) (policy : ShrinkPolicy)
    (r : MappedRegion) : Prop := {
  rs_len : m_len r = len ∧ 0 < len ≤ isize_max;
  rs_file : ∃ stat, fstat kernel fd = inr stat ∧ offset + len ≤ st_size stat;
  (* one call of mmap, at a page boundary at most a page before the region *)
  rs_mmap : mmap kernel (mapping_len r) writable fd (offset - (m_ptr r - mapping_ptr r))
            = inr (mapping_ptr r);
  rs_page : (offset - (m_ptr r - mapping_ptr r)) mod page_size kernel = 0 ∧
            0 ≤ m_ptr r - mapping_ptr r < page_size kernel ∧
            m_ptr r - mapping_ptr r ≤ offset;
  (* the logical region ends where the mapping ends *)
  rs_end : m_ptr r + m_len r = mapping_ptr r + mapping_len r ∧ mapping_len r ≤ isize_max;
  rs_seals : policy = RequireSealed → prevents_shrink (m_seals r) = true;
}.

Lemma map_shared_spec kernel fd offset len w policy :
  0 ≤ offset → 0 ≤ len →
  post (region_sound kernel fd offset len w policy)
    (map_shared_with_policy kernel fd offset len w policy).
Proof.
  intros Ho Hl. unfold map_shared_with_policy.
  post_step. post_step. post_step. unfold checked_add in *. case_bool_decide; [|done]. simplify_eq.
  post_step. post_step. post_step. post_step. post_step. unfold usize_try_from in *.
  case_bool_decide; [|done]. simplify_eq. post_step.
  apply post_guard. intros Hseal. post_step. post_step.
  case_bool_decide; [|done]. simplify_eq. post_step.
  set (page := page_size kernel) in *. assert (0 < page) by lia.
  pose proof (Z.div_mod offset page ltac:(lia)) as Hdm. pose proof (Z.mod_pos_bound offset page ltac:(lia)).
  pose proof (Z.mod_le offset page Ho ltac:(lia)).
  assert (usize_sub (E:=MapError) offset (offset / page * page) = Ok (offset mod page)) as ->.
  { unfold usize_sub. rewrite bool_decide_eq_true_2 by lia. f_equal. lia. }
  res_cbn. post_step. post_step. case_bool_decide; [|done]. simplify_eq.
  post_step. post_step. post_step. case_bool_decide; [|done]. simplify_eq.
  post_step. post_step. post_step.
  match goal with Hm : mmap _ _ _ _ _ = inr ?x |- _ => rename x into ptr; rename Hm into Hmmap end.
  split; cbn [m_len m_ptr mapping_ptr mapping_len m_seals];
    rewrite ?(ltac:(lia) : offset - (ptr + offset mod page - ptr) = offset / page * page).
  - lia.
  - eexists. split; [done|lia].
  - done.
  - split_and!; [by apply Z.mod_mul; lia|lia..].
  - lia.
  - intros ->. rewrite bool_decide_eq_true_2 in Hseal by done. simpl in Hseal.
    by apply negb_false_iff.
Qed.

Lemma map_entry_spec kernel entry policy offset len w :
  0 ≤ offset → 0 ≤ len →
  post (λ m, region_sound kernel (e_fd entry) offset len w policy (mapped m) ∧
          mm_entry m = entry ∧ mm_offset m = offset ∧ offset + len ≤ file_len entry ∧
          offset + len < 2 ^ 64)
    (map_entry kernel entry policy offset len w).
Proof.
  intros Ho Hl. unfold map_entry. cbv zeta. post_step.
  pose proof (map_shared_spec kernel (e_fd entry) offset len w policy Ho Hl) as Hm.
  destruct (map_shared_with_policy _ _ _ _ _ _) as [m|e|]; simpl in *; [|done..].
  apply negb_false_iff in H. unfold checked_add in H.
  repeat (apply andb_true_iff in H as [H ?]). case_bool_decide; [|done].
  split_and!; try done. by apply bool_decide_eq_true in H0.
Qed.

(** What [pool_add] leaves behind. *)
Lemma pool_add_spec kernel p id t flags fd :
  match pool_add kernel p id t flags fd with
  | (p', Ok key) =>
      disconnected p = false ∧ live p !! id = None ∧ key = mkKey id (next_generation p) ∧
      ∃ e, e_key e = key ∧ e_fd e = fd ∧
        p' = mkPool (next_generation p + 1) (<[id := e]> (live p)) (shrink_policy p) (disconnected p)
  | (p', Err _) => p' = p
  | (p', Panic) => False
  end.
Proof.
  unfold pool_add, file_identity, os_result, checked_add, usize_try_from.
  destruct (disconnected p) eqn:Hd; [done|]. case_bool_decide as Hid; [done|].
  destruct (try_from_u32 t) as [[]|]; try done.
  destruct (fstat kernel fd) as [e|stat]; simpl; [done|].
  case_bool_decide; simpl; [|done]. destruct (_ && _); [done|]. case_bool_decide; [|done].
  apply eq_None_not_Some in Hid. split_and!; [done|done|done|].
  by exists (mkEntry (mkKey id (next_generation p)) (mkBacking (st_dev stat) (st_ino stat)) MemFd flags
    (st_size stat) fd).
Qed.

(** ** The contract of a pool

    The operations that change a pool, each against the kernel of its time,
    and what they return. *)
Inductive PoolOp :=
| OpAdd (kernel : Kernel) (id memory_type flags fd : Z)
| OpRemove (id : Z)
| OpClear
| OpDisconnect.

Definition pool_step (p : MemoryPool) (op : PoolOp) : MemoryPool * option (MemRes MemoryKey) :=
  match op with
  | OpAdd kernel id t flags fd => let '(p, r) := pool_add kernel p id t flags fd in (p, Some r)
  | OpRemove id => let '(p, r) := pool_remove p id in (p, Some r)
  | OpClear => (pool_clear p, None)
  | OpDisconnect => (disconnect p, None)
  end.
Fixpoint pool_run (p : MemoryPool) (ops : list PoolOp) : MemoryPool * list (option (MemRes MemoryKey)) :=
  match ops with
  | [] => (p, [])
  | op :: ops =>
      let '(p, r) := pool_step p op in let '(p, rs) := pool_run p ops in (p, r :: rs)
  end.

(** The state of the contract: the keys ever issued, latest first; for each
    active id its key and the size of the file at its import; and whether the
    connection is gone. *)
Record PoolSpec := mkSpec { issued : list MemoryKey; active : gmap Z (MemoryKey * Z); closed : bool }.
Definition spec_new : PoolSpec := mkSpec [] ∅ false.

(** A descriptor fit for import, with the size of its file. *)
Definition fit (kernel : Kernel) (policy : ShrinkPolicy) (t fd size : Z) : Prop :=
  try_from_u32 t = Some DtMemFd ∧
  (∃ stat, fstat kernel fd = inr stat ∧ st_size stat = size ∧ 0 ≤ size) ∧
  (policy = RequireSealed → prevents_shrink (seal_status kernel fd) = true).

(** Why another is refused. *)
Definition unfit (kernel : Kernel) (policy : ShrinkPolicy) (id t fd : Z) (e : MemoryError) : Prop :=
  match e with
  | UnknownMemoryType t' => t' = t ∧ try_from_u32 t = None (A := DataType)
  | UnsupportedMemoryType d => try_from_u32 t = Some d ∧ d ≠ DtMemFd
  | Inspect _ => match fstat kernel fd with inl _ => True | inr stat => st_size stat < 0 end
  | ShrinkableMemory id' => id' = id ∧ policy = RequireSealed ∧ prevents_shrink (seal_status kernel fd) = false
  | _ => False
  end.

Section contract.
Context (policy : ShrinkPolicy).

(** The contract. Ids can be used again once removed, keys never; every
    import is refused on a lost connection and on an id in use. *)
Inductive spec_step (s : PoolSpec) : PoolOp → option (MemRes MemoryKey) → PoolSpec → Prop :=
| spec_add kernel id t flags fd size key :
    closed s = false → active s !! id = None → fit kernel policy t fd size →
    k_id key = id → Forall (λ k, generation k < generation key) (issued s) →
    spec_step s (OpAdd kernel id t flags fd) (Some (Ok key))
      (mkSpec (key :: issued s) (<[id := (key, size)]> (active s)) false)
| spec_add_closed kernel id t flags fd :
    closed s = true → spec_step s (OpAdd kernel id t flags fd) (Some (Err Disconnected)) s
| spec_add_duplicate kernel id t flags fd :
    closed s = false → is_Some (active s !! id) →
    spec_step s (OpAdd kernel id t flags fd) (Some (Err (DuplicateActiveId id))) s
| spec_add_unfit kernel id t flags fd e :
    closed s = false → active s !! id = None → unfit kernel policy id t fd e →
    spec_step s (OpAdd kernel id t flags fd) (Some (Err e)) s
| spec_add_exhausted kernel id t flags fd size :
    closed s = false → active s !! id = None → fit kernel policy t fd size →
    2 ^ 64 - 2 ≤ len (issued s) →
    spec_step s (OpAdd kernel id t flags fd) (Some (Err GenerationExhausted)) s
| spec_remove id key size :
    closed s = false → active s !! id = Some (key, size) →
    spec_step s (OpRemove id) (Some (Ok key)) (mkSpec (issued s) (delete id (active s)) false)
| spec_remove_closed id : closed s = true → spec_step s (OpRemove id) (Some (Err Disconnected)) s
| spec_remove_unknown id :
    closed s = false → active s !! id = None → spec_step s (OpRemove id) (Some (Err (UnknownMemory id))) s
| spec_clear : spec_step s OpClear None (mkSpec (issued s) ∅ (closed s))
| spec_disconnect : spec_step s OpDisconnect None (mkSpec (issued s) ∅ true).

Inductive spec_run (s : PoolSpec) : list PoolOp → list (option (MemRes MemoryKey)) → PoolSpec → Prop :=
| spec_done : spec_run s [] [] s
| spec_more op r s1 ops rs s2 :
    spec_step s op r s1 → spec_run s1 ops rs s2 → spec_run s (op :: ops) (r :: rs) s2.

Definition import_of (e : MemoryEntry) : MemoryKey * Z := (e_key e, file_len e).

Record pool_refines (p : MemoryPool) (s : PoolSpec) : Prop := {
  pr_active : import_of <$> live p = active s;
  pr_closed : disconnected p = closed s;
  pr_policy : shrink_policy p = policy;
  pr_issued : ∀ id key size, active s !! id = Some (key, size) → key ∈ issued s ∧ k_id key = id;
  pr_count : next_generation p = len (issued s) + 1;
  pr_fresh : Forall (λ key, generation key < next_generation p) (issued s);
  pr_nodup : NoDup (issued s);
}.

Lemma pool_new_refines : pool_refines (MemoryPool_new policy) spec_new.
Proof. split; try done; constructor. Qed.

Lemma pool_add_refines p s kernel id t flags fd :
  pool_refines p s →
  let '(p', r) := pool_add kernel p id t flags fd in
  ∃ s', spec_step s (OpAdd kernel id t flags fd) (Some r) s' ∧ pool_refines p' s'.
Proof.
  intros Hr. pose proof Hr as [Ha Hc Hp Hi Hg Hf Hn]. unfold pool_add, file_identity, os_result, checked_add, usize_try_from.
  destruct (disconnected p) eqn:Hd; [by exists s; split; [apply spec_add_closed|]|].
  assert (active s !! id = import_of <$> live p !! id) as Hid by (by rewrite <- Ha, lookup_fmap).
  case_bool_decide as Hl.
  { exists s. split; [|done]. apply spec_add_duplicate; [done|]. rewrite Hid. by apply fmap_is_Some. }
  apply eq_None_not_Some in Hl. rewrite Hl in Hid. simpl in Hid.
  assert (∀ e, unfit kernel policy id t fd e →
    ∃ s', spec_step s (OpAdd kernel id t flags fd) (Some (Err e)) s' ∧ pool_refines p s') as Hun
    by (intros e He; exists s; split; [by apply spec_add_unfit|done]).
  destruct (try_from_u32 t) as [d|] eqn:Ht; [|by apply Hun].
  destruct (decide (d = DtMemFd)) as [->|Hne]; [|destruct d; try done; by apply Hun].
  destruct (fstat kernel fd) as [e|stat] eqn:Hst; simpl; [apply Hun; simpl; by rewrite Hst|].
  case_bool_decide as Hsz; simpl; [|apply Hun; simpl; rewrite Hst; lia].
  destruct (_ && _) eqn:Hseal.
  { apply andb_true_iff in Hseal as [H1%bool_decide_eq_true H2%negb_true_iff]. apply Hun. simpl. by rewrite <- Hp. }
  assert (fit kernel policy t fd (st_size stat)) as Hfit.
  { split_and!; [done|by exists stat|]. intros Hpol. rewrite Hp, Hpol in Hseal. simpl in Hseal.
    by apply negb_false_iff in Hseal. }
  destruct (bool_decide (next_generation p + 1 < 2 ^ 64)) eqn:Hlt;
    [apply bool_decide_eq_true in Hlt|apply bool_decide_eq_false in Hlt].
  - set (key := mkKey id (next_generation p)).
    exists (mkSpec (key :: issued s) (<[id := (key, st_size stat)]> (active s)) false). split.
    { by eapply spec_add. }
    split; simpl; [by rewrite fmap_insert, Ha|done|done|..].
    + intros i k z. rewrite lookup_insert_Some. intros [[<- [= <- <-]]|[_ Hk]]; [split; [left|done]|].
      destruct (Hi _ _ _ Hk). split; [by right|done].
    + rewrite len_cons. lia.
    + constructor; [simpl; lia|]. eapply Forall_impl; [done|]. simpl. lia.
    + constructor; [|done]. rewrite Forall_forall in Hf. intros Hin%Hf. simpl in Hin. lia.
  - exists s. split; [|done]. eapply spec_add_exhausted; [done..|]. rewrite Hg in Hlt. pose proof (len_nonneg (issued s)). lia.
Qed.

Lemma pool_remove_refines p s id :
  pool_refines p s →
  let '(p', r) := pool_remove p id in ∃ s', spec_step s (OpRemove id) (Some r) s' ∧ pool_refines p' s'.
Proof.
  intros Hr. pose proof Hr as [Ha Hc Hp Hi Hg Hf Hn]. unfold pool_remove.
  destruct (disconnected p) eqn:Hd; [by exists s; split; [apply spec_remove_closed|]|].
  assert (active s !! id = import_of <$> live p !! id) as Hid by (by rewrite <- Ha, lookup_fmap).
  destruct (live p !! id) as [e|] eqn:Hl; simpl in Hid; [|by exists s; split; [apply spec_remove_unknown|]].
  eexists. split; [by eapply spec_remove|]. split; simpl; try done; [by rewrite fmap_delete, Ha|].
  intros i k z [_ Hk]%lookup_delete_Some. by eapply Hi.
Qed.

Lemma pool_step_refines p s op :
  pool_refines p s → let '(p', r) := pool_step p op in ∃ s', spec_step s op r s' ∧ pool_refines p' s'.
Proof.
  intros Hr. destruct op as [kernel id t flags fd|id| |]; simpl.
  - pose proof (pool_add_refines p s kernel id t flags fd Hr). by destruct (pool_add _ _ _ _ _ _).
  - pose proof (pool_remove_refines p s id Hr). by destruct (pool_remove _ _).
  - eexists. split; [constructor|]. destruct Hr as [Ha Hc Hp Hi Hg Hf Hn].
    split; simpl; try done; by rewrite fmap_empty.
  - eexists. split; [constructor|]. destruct Hr as [Ha Hc Hp Hi Hg Hf Hn].
    split; simpl; try done; by rewrite fmap_empty.
Qed.

Lemma pool_run_refines ops p s :
  pool_refines p s → let '(p', rs) := pool_run p ops in ∃ s', spec_run s ops rs s' ∧ pool_refines p' s'.
Proof.
  revert p s. induction ops as [|op ops IH]; intros p s Hr; simpl; [exists s; by split; [constructor|]|].
  pose proof (pool_step_refines p s op Hr) as Hs. destruct (pool_step p op) as [p1 r]. destruct Hs as (s1 & Hs & Hr1).
  specialize (IH p1 s1 Hr1). destruct (pool_run p1 ops) as [p2 rs]. destruct IH as (s2 & Hs2 & Hr2).
  exists s2. split; [by econstructor|done].
Qed.
End contract.

(** What a key gives access to, under the contract: the size of its file. *)
Definition spec_lookup (s : PoolSpec) (key : MemoryKey) : MemRes Z :=
  if closed s then Err Disconnected else
  match active s !! k_id key with
  | Some (key', size) => if bool_decide (key' = key) then Ok size else Err (StaleGeneration key (Some key'))
  | None => Err (StaleGeneration key None)
  end.

Lemma live_entry_spec policy p s key :
  pool_refines policy p s →
  match live_entry p key with
  | Ok e => spec_lookup s key = Ok (file_len e) ∧ e_key e = key
  | Err e => spec_lookup s key = Err e
  | Panic => False
  end.
Proof.
  intros [Ha Hc _ _ _ _ _]. unfold live_entry, spec_lookup. rewrite Hc, <- Ha, lookup_fmap.
  destruct (closed s); [done|]. destruct (live p !! k_id key) as [e|]; simpl; [|done].
  destruct (decide (e_key e = key)) as [He|He].
  - by rewrite bool_decide_eq_false_2, bool_decide_eq_true_2 by tauto.
  - by rewrite bool_decide_eq_true_2, bool_decide_eq_false_2 by tauto.
Qed.

(** ** Properties *)

(** C38: Mapping shared memory is checked. Whatever the kernel answers,
    [map_shared_with_policy] returns without panicking; and if it succeeds,
    the region has the requested non-zero length and lies inside the file as
    [fstat] reported it, it was mapped with one [mmap] at a page boundary
    less than a page before it, the logical region ends exactly where that
    mapping ends, and under [RequireSealed] the file was sealed against
    shrinking. *)
Theorem mapping_checked (kernel : Kernel) (fd offset len : Z) (w : bool) (policy : ShrinkPolicy) :
  0 ≤ offset → 0 ≤ len →
  let r := map_shared_with_policy kernel fd offset len w policy in
  total r ∧ ∀ m, r = Ok m → region_sound kernel fd offset len w policy m.
Proof.
  intros Ho Hl r. pose proof (map_shared_spec kernel fd offset len w policy Ho Hl) as H.
  split; [by eapply post_total|]. intros m. by apply post_Ok.
Qed.

Definition sample_kernel : Kernel :=
  mkKernel (λ _, inr (mkStat 16384 8 77)) (λ _, 2) 4096 (λ _ _ _ _, inr 0x7f0000000000).

Lemma mapping_checked_witness :
  map_shared_with_policy sample_kernel 5 5000 64 true RequireSealed
  = Ok (mkMapped 0x7f0000000000 968 (0x7f0000000000 + 904) 64 (SealAvailable 2)) ∧
  region_sound sample_kernel 5 5000 64 true RequireSealed
    (mkMapped 0x7f0000000000 968 (0x7f0000000000 + 904) 64 (SealAvailable 2)).
Proof.
  assert (map_shared_with_policy sample_kernel 5 5000 64 true RequireSealed
  = Ok (mkMapped 0x7f0000000000 968 (0x7f0000000000 + 904) 64 (SealAvailable 2))) as H by (by vm_compute).
  split; [done|]. by apply (mapping_checked sample_kernel 5 5000 64 true RequireSealed).
Defined.


(** C39: The aliasing test is exact: two non-empty mappings are reported as
    overlapping just when some byte of one backing object belongs to both,
    also when they were imported under different ids. *)
Theorem overlaps_exact (a b : MemoryMapping) :
  0 < m_len (mapped a) → 0 < m_len (mapped b) →
  overlaps (interval a) (interval b) = true ↔
  backing (mm_entry a) = backing (mm_entry b) ∧
  ∃ x, (mm_offset a ≤ x < mm_offset a + m_len (mapped a)) ∧
       (mm_offset b ≤ x < mm_offset b + m_len (mapped b)).
Proof.
  intros Ha Hb. unfold overlaps, interval. simpl.
  rewrite !andb_true_iff, !bool_decide_eq_true. split.
  - intros [[? ?] ?]. split; [done|]. exists (Z.max (mm_offset a) (mm_offset b)). lia.
  - intros [? (x & ? & ?)]. split_and!; [done|lia|lia].
Qed.

Lemma overlaps_exact_witness :
  let e := mkEntry (mkKey 1 1) (mkBacking 8 77) MemFd 0 4096 5 in
  let r := mkMapped 4096 16 4096 16 SealUnsupported in
  overlaps (interval (mkMapping r e 4)) (interval (mkMapping r e 8)) = true.
Proof.
  intros e r. apply (overlaps_exact (mkMapping r e 4) (mkMapping r e 8)); [done..|].
  split; [done|]. exists 8. simpl. lia.
Defined.
