(* ===== verification/IdMap.v ===== *)
(** * Object ids of a client

    Models [pipewire/src/id_map.rs]: a vector of slots whose index is the
    object's id. The contract is a finite map from ids to reserved or
    occupied slots in which a new id is the least unused one. *)

From S2P Require Import Prelude.

Inductive Item (T : Type) := Empty | Reserved | Occupied (object : T).
Arguments Empty {T}.
Arguments Reserved {T}.
Arguments Occupied {T} object.

Section id_map.
Context {T : Type}.

Definition is_empty (i : Item T) : bool := match i with Empty => true | _ => false end.
Definition item_as_ref (i : Item T) : option T :=
  match i with Occupied object => Some object | _ => None end.

(** [IdMap { objects }] *)
Notation IdMap := (list (Item T)).

Definition IdMap_new : IdMap := [].

(** [self.objects.iter().enumerate().find(|(_, o)| o.is_empty())] *)
Fixpoint find_empty (objects : IdMap) : option nat :=
  match objects with
  | [] => None
  | o :: objects => if is_empty o then Some 0%nat else S <$> find_empty objects
  end.

(** The common part of [insert] and [reserve]: [id as Id] keeps 32 bits. *)
Definition place (objects : IdMap) (item : Item T) : IdMap * Z :=
  match find_empty objects with
  | Some id => (<[id := item]> objects, wrap 32 (Z.of_nat id))
  | None => (objects ++ [item], wrap 32 (len (objects ++ [item]) - 1))
  end.

Definition insert (objects : IdMap) (object : T) : IdMap * Z := place objects (Occupied object).
Definition reserve (objects : IdMap) : IdMap * Z := place objects Reserved.

(** An [assert!] and an [unreachable!]. *)
Definition insert_at (objects : IdMap) (id : Z) (object : T) : Res Empty_set IdMap :=
  if bool_decide (len objects > id) then
    match objects !! Z.to_nat id with
    | Some Reserved => Ok (<[Z.to_nat id := Occupied object]> objects)
    | _ => Panic
    end
  else Panic.

Definition remove (objects : IdMap) (id : Z) : IdMap :=
  if bool_decide (len objects ≤ id) then objects else <[Z.to_nat id := Empty]> objects.

Definition clear (_ : IdMap) : IdMap := [].

Definition get (objects : IdMap) (id : Z) : option T :=
  if bool_decide (id < len objects) then objects !! Z.to_nat id ≫= item_as_ref else None.

Fixpoint iter_from (i : Z) (objects : IdMap) : list (Z * T) :=
  match objects with
  | [] => []
  | o :: objects =>
      match item_as_ref o with
      | Some object => (wrap 32 i, object) :: iter_from (i + 1) objects
      | None => iter_from (i + 1) objects
      end
  end.
Definition iter (objects : IdMap) : list (Z * T) := iter_from 0 objects.

(** ** The contract *)
Inductive IdOp := OInsert (x : T) | OReserve | OInsertAt (id : Z) (x : T) | ORemove (id : Z) | OClear.

Definition id_step (m : IdMap) (op : IdOp) : Res Empty_set (IdMap * option Z) :=
  match op with
  | OInsert x => let '(m', id) := insert m x in Ok (m', Some id)
  | OReserve => let '(m', id) := reserve m in Ok (m', Some id)
  | OInsertAt id x => m' ← insert_at m id x; Ok (m', None)
  | ORemove id => Ok (remove m id, None)
  | OClear => Ok (clear m, None)
  end.

Notation Slots := (gmap Z (option T)).

Definition least_free (a : Slots) (id : Z) : Prop :=
  0 ≤ id ∧ a !! id = None ∧ ∀ j, 0 ≤ j < id → is_Some (a !! j).

Inductive spec_step (a : Slots) : IdOp → option Z → Slots → Prop :=
| spec_insert x id : least_free a id → spec_step a (OInsert x) (Some id) (<[id := Some x]> a)
| spec_reserve id : least_free a id → spec_step a OReserve (Some id) (<[id := None]> a)
| spec_insert_at id x :
    a !! id = Some None → spec_step a (OInsertAt id x) None (<[id := Some x]> a)
| spec_remove id : spec_step a (ORemove id) None (delete id a)
| spec_clear : spec_step a OClear None ∅.

Inductive spec_run : Slots → list IdOp → list (option Z) → Slots → Prop :=
| spec_done a : spec_run a [] [] a
| spec_cons a a1 a2 op ops r rs :
    spec_step a op r a1 → spec_run a1 ops rs a2 → spec_run a (op :: ops) (r :: rs) a2.

Fixpoint id_run (m : IdMap) (ops : list IdOp) : Res Empty_set (IdMap * list (option Z)) :=
  match ops with
  | [] => Ok (m, [])
  | op :: ops =>
      '(m', r) ← id_step m op;
      '(m'', rs) ← id_run m' ops;
      Ok (m'', r :: rs)
  end.

(** An id argument is a [u32]; [insert_at] is only called on reserved ids. *)
Definition op_typed (op : IdOp) : Prop :=
  match op with OInsertAt id _ | ORemove id => u32_range id | _ => True end.

(** ** Simulation *)
Definition slot (i : Item T) : option (option T) :=
  match i with Empty => None | Reserved => Some None | Occupied x => Some (Some x) end.

Definition represents (m : IdMap) (a : Slots) : Prop :=
  ∀ id, a !! id = if bool_decide (0 ≤ id) then m !! Z.to_nat id ≫= slot else None.

Lemma find_empty_spec m :
  match find_empty m with
  | Some n => m !! n = Some Empty ∧ ∀ j, (j < n)%nat → is_Some (m !! j ≫= slot)
  | None => ∀ j, (j < length m)%nat → is_Some (m !! j ≫= slot)
  end.
Proof.
  induction m as [|o m IH]; simpl; [intros; lia|].
  destruct o; simpl; [split; [done|intros; lia]|..]; destruct (find_empty m) as [n|]; simpl.
  all: try (destruct IH as [? IH]; split; [done|]); intros [|j] Hj; simpl; eauto with lia.
Qed.

Lemma represents_place m a item v :
  represents m a → slot item = Some v → len m < 2 ^ 32 →
  let '(m', id) := place m item in
  least_free a id ∧ represents m' (<[id := v]> a) ∧ len m' ≤ len m + 1.
Proof.
  intros Hr Hi Hl. pose proof (find_empty_spec m) as Hf. unfold place.
  assert (∀ n : nat, Z.of_nat n < 2 ^ 32 →
    m !! n ≫= slot = None → (∀ j, (j < n)%nat → is_Some (m !! j ≫= slot)) →
    least_free a (Z.of_nat n)) as Hleast.
  { intros n Hn Hm Hj. split_and!; [lia| |].
    - rewrite Hr, bool_decide_eq_true_2 by lia. by rewrite Nat2Z.id.
    - intros j Hjn. rewrite Hr, bool_decide_eq_true_2 by lia. apply Hj. lia. }
  destruct (find_empty m) as [n|].
  - destruct Hf as [Hn Hj]. pose proof (lookup_lt_Some _ _ _ Hn) as Hlt.
    rewrite wrap_small by (unfold len in *; lia). split_and!.
    + apply Hleast; [unfold len in *; lia|by rewrite Hn|done].
    + intros i. destruct (decide (i = Z.of_nat n)) as [->|Hne].
      * rewrite lookup_insert, decide_True by done. rewrite bool_decide_eq_true_2 by lia.
        rewrite Nat2Z.id, list_lookup_insert_eq by done. simpl. by rewrite Hi.
      * rewrite lookup_insert_ne by done. rewrite Hr. case_bool_decide; [|done].
        by rewrite list_lookup_insert_ne by lia.
    + unfold len. rewrite length_insert. lia.
  - assert (len (m ++ [item]) - 1 = Z.of_nat (length m)) as -> by (unfold len; rewrite length_app; simpl; lia).
    rewrite wrap_small by (unfold len in *; lia). split_and!.
    + apply Hleast; [unfold len in *; lia|by rewrite lookup_ge_None_2|done].
    + intros i. destruct (decide (i = Z.of_nat (length m))) as [->|Hne].
      * rewrite lookup_insert, decide_True by done. rewrite bool_decide_eq_true_2 by lia.
        rewrite Nat2Z.id, lookup_app_r, Nat.sub_diag by lia. simpl. by rewrite Hi.
      * rewrite lookup_insert_ne by done. rewrite Hr. case_bool_decide; [|done].
        destruct (decide (Z.to_nat i < length m)%nat).
        -- by rewrite lookup_app_l.
        -- rewrite !lookup_ge_None_2; [done|rewrite length_app; simpl; lia|lia].
    + rewrite len_app. unfold len. simpl. lia.
Qed.

Lemma represents_remove m a id :
  0 ≤ id → represents m a → represents (remove m id) (delete id a) ∧ len (remove m id) ≤ len m.
Proof.
  intros Hid Hr. unfold remove. case_bool_decide as Hl.
  - split; [|lia]. intros i. destruct (decide (i = id)) as [->|Hne].
    + rewrite lookup_delete_eq. rewrite bool_decide_eq_true_2 by done.
      rewrite lookup_ge_None_2; [done|unfold len in *; lia].
    + by rewrite lookup_delete_ne by done.
  - split; [|unfold len; rewrite length_insert; lia]. intros i. destruct (decide (i = id)) as [->|Hne].
    + rewrite lookup_delete_eq. rewrite bool_decide_eq_true_2 by done.
      by rewrite list_lookup_insert_eq by (unfold len in *; lia).
    + rewrite lookup_delete_ne by done. rewrite Hr. case_bool_decide; [|done].
      by rewrite list_lookup_insert_ne by lia.
Qed.

(** Each operation is a step of the contract; the only panic is an
    [insert_at] of an id that is not reserved. *)
Lemma id_step_simulates m a op :
  represents m a → op_typed op → len m < 2 ^ 32 →
  match id_step m op with
  | Ok (m', r) => ∃ a', spec_step a op r a' ∧ represents m' a' ∧ len m' ≤ len m + 1
  | Err e => False
  | Panic => ∃ id x, op = OInsertAt id x ∧ a !! id ≠ Some None
  end.
Proof.
  intros Hr Ht Hl. destruct op as [x| |id x|id|]; simpl.
  - pose proof (represents_place m a (Occupied x) (Some x) Hr eq_refl Hl) as H. unfold insert.
    destruct (place _ _) as [m' id]. destruct H as (? & ? & ?). eexists. split; [by constructor|done].
  - pose proof (represents_place m a Reserved None Hr eq_refl Hl) as H. unfold reserve.
    destruct (place _ _) as [m' id]. destruct H as (? & ? & ?). eexists. split; [by constructor|done].
  - assert (a !! id = m !! Z.to_nat id ≫= slot) as Ha
      by (rewrite Hr, bool_decide_eq_true_2; [done|apply Ht]).
    destruct Ht as [Hid _]. unfold insert_at. case_bool_decide as Hlt; simpl.
    2: { exists id, x. split; [done|]. rewrite Ha, lookup_ge_None_2; [done|unfold len in *; lia]. }
    destruct (m !! Z.to_nat id) as [[| |y]|] eqn:Hm; simpl in *;
      try (exists id, x; split; [done|by rewrite Ha]).
    exists (<[id := Some x]> a). split_and!; [by constructor| |unfold len; rewrite length_insert; lia].
    intros i. destruct (decide (i = id)) as [->|Hne].
    + rewrite lookup_insert_eq, bool_decide_eq_true_2 by done.
      by rewrite list_lookup_insert_eq by (unfold len in *; lia).
    + rewrite lookup_insert_ne by done. rewrite Hr. case_bool_decide; [|done].
      by rewrite list_lookup_insert_ne by lia.
  - destruct (represents_remove m a id) as [? ?]; [apply Ht|done|].
    eexists. split; [constructor|]. split; [done|lia].
  - exists ∅. split; [constructor|]. split; [|unfold len; simpl; lia].
    intros i. rewrite lookup_empty. by case_bool_decide.
Qed.

Lemma id_run_simulates ops m a :
  represents m a → Forall op_typed ops → len m + len ops ≤ 2 ^ 32 →
  match id_run m ops with
  | Ok (m', rs) => ∃ a', spec_run a ops rs a' ∧ represents m' a' ∧ len m' ≤ 2 ^ 32
  | Err e => False
  | Panic => ∃ done id x rest a' rs, ops = done ++ OInsertAt id x :: rest ∧ spec_run a done rs a' ∧
               a' !! id ≠ Some None
  end.
Proof.
  intros Hr Ht. revert m a Hr. induction Ht as [|op ops Hop _ IH]; intros m a Hr Hl; simpl.
  { exists a. unfold len in *. simpl in *. split_and!; [constructor|done|lia]. }
  rewrite len_cons in Hl. pose proof (len_nonneg ops).
  pose proof (id_step_simulates m a op Hr Hop ltac:(lia)) as Hs.
  destruct (id_step m op) as [[m' r]|e|]; simpl; [|done|].
  - destruct Hs as (a' & Hs & Hr' & Hl'). specialize (IH m' a' Hr' ltac:(lia)).
    destruct (id_run m' ops) as [[m'' rs]|e|]; simpl; [|done|].
    + destruct IH as (a'' & ? & ? & ?). exists a''. split_and!; [by econstructor|done|done].
    + destruct IH as (d & id & x & rest & a'' & rs & -> & ? & ?).
      exists (op :: d), id, x, rest, a'', (r :: rs). split_and!; [done|by econstructor|done].
  - destruct Hs as (id & x & -> & ?). exists [], id, x, ops, a, []. split_and!; [done|constructor|done].
Qed.

Lemma iter_from_spec m i :
  0 ≤ i → i + len m ≤ 2 ^ 32 →
  ∀ id x, (id, x) ∈ iter_from i m ↔ i ≤ id ∧ m !! Z.to_nat (id - i) = Some (Occupied x).
Proof.
  revert i. induction m as [|o m IH]; intros i Hi Hl id x; simpl.
  { split; [intros []%not_elem_of_nil|by intros [_ ?]]. }
  rewrite len_cons in Hl. pose proof (len_nonneg m).
  specialize (IH (i + 1) ltac:(lia) ltac:(lia) id x).
  assert ((i + 1 ≤ id ∧ m !! Z.to_nat (id - (i + 1)) = Some (Occupied x)) ↔
    (i < id ∧ (o :: m) !! Z.to_nat (id - i) = Some (Occupied x))) as Heq.
  { split; intros [? Hm]; (split; [lia|]).
    - by replace (Z.to_nat (id - i)) with (S (Z.to_nat (id - (i + 1)))) by lia.
    - by replace (Z.to_nat (id - i)) with (S (Z.to_nat (id - (i + 1)))) in Hm by lia. }
  rewrite wrap_small by lia.
  destruct o as [| |y]; simpl; rewrite ?elem_of_cons, IH, Heq; split.
  all: try (by intros [? ?]; split; [lia|]).
  - intros [? Hm]. split; [|done]. destruct (decide (id = i)) as [->|]; [|lia].
    by rewrite Z.sub_diag in Hm.
  - intros [? Hm]. split; [|done]. destruct (decide (id = i)) as [->|]; [|lia].
    by rewrite Z.sub_diag in Hm.
  - intros [[= -> ->]|[? ?]]; [by rewrite Z.sub_diag|by split; [lia|]].
  - intros [? Hm]. destruct (decide (id = i)) as [->|]; [|by right; split; [lia|]].
    rewrite Z.sub_diag in Hm. injection Hm as ->. by left.
Qed.
End id_map.
Arguments IdOp : clear implicits.

(** ** Properties *)

(** [IdMap] implements its contract. Over any run of fewer than 2^32
    operations from an empty map: every insertion and reservation returns the
    least id that is neither reserved nor occupied, so a live id is never
    handed out twice; lookups and the iterator show exactly the occupied
    slots; and the only panic is filling an id that is not reserved. *)
Lemma id_map_contract {T} (ops : list (IdOp T)) :
  Forall op_typed ops → len ops ≤ 2 ^ 32 →
  match id_run IdMap_new ops with
  | Ok (m, rs) =>
      ∃ a, spec_run ∅ ops rs a ∧
        (∀ id, u32_range id → get m id = mjoin (a !! id)) ∧
        (∀ id x, (id, x) ∈ iter m ↔ a !! id = Some (Some x))
  | Err _ => False
  | Panic => ∃ done id x rest a rs, ops = done ++ OInsertAt id x :: rest ∧ spec_run ∅ done rs a ∧
               a !! id ≠ Some None
  end.
Proof.
  intros Ht Hl.
  assert (represents (@IdMap_new T) ∅) as Hr.
  { intros id. rewrite lookup_empty. by case_bool_decide. }
  pose proof (id_run_simulates ops _ _ Hr Ht Hl) as H.
  destruct (id_run _ ops) as [[m rs]|e|]; [|done..]. destruct H as (a & Hs & Hr' & Hl').
  exists a. split_and!; [done|..].
  - intros id [Hid _]. unfold get. rewrite Hr', (bool_decide_eq_true_2 (0 ≤ id)) by done.
    case_bool_decide; [|rewrite lookup_ge_None_2; [done|unfold len in *; lia]].
    by destruct (m !! Z.to_nat id) as [[]|].
  - intros id x. unfold iter. rewrite iter_from_spec by (unfold len in *; lia). rewrite Hr', Z.sub_0_r.
    case_bool_decide; [|split; [by intros [? _]|done]].
    destruct (m !! Z.to_nat id) as [[]|]; simpl; naive_solver.
Qed.

Lemma id_map_contract_witness :
  id_run IdMap_new [OInsert 10; OInsert 11; ORemove 0; OReserve; OInsertAt 0 12]
  = Ok ([Occupied 12; Occupied 11], [Some 0; Some 1; None; Some 0; None]) ∧
  ∃ a, spec_run ∅ [OInsert 10; OInsert 11; ORemove 0; OReserve; OInsertAt 0 12]
         [Some 0; Some 1; None; Some 0; None] a ∧
    (∀ id, u32_range id → get [Occupied 12; Occupied 11] id = mjoin (a !! id)) ∧
    (∀ id x, (id, x) ∈ iter [Occupied 12; Occupied 11] ↔ a !! id = Some (Some x)).
Proof.
  split; [done|].
  apply (id_map_contract [OInsert 10; OInsert 11; ORemove 0; OReserve; OInsertAt 0 12]); [|done].
  repeat constructor; by vm_compute.
Defined.
