(* ===== verification/SpaParam.v ===== *)
(** * SPA parameters

    Models the enumerations of [spa/src/param/]: parameter ids, the property
    keys of each parameter object and the media types of formats, each with
    the conversions [EnumU32] derives for it, and the object type each
    parameter id and key set belongs to. *)

From S2P Require Import Prelude PodTypes.

(** ** enum ParamType *)
Inductive ParamType := PtInvalid | PtPropInfo | PtProps | PtEnumFormat | PtFormat | PtBuffers |
  PtMeta | PtIO | PtEnumProfile | PtProfile | PtEnumPortConfig | PtPortConfig | PtEnumRoute |
  PtRoute | PtControl | PtLatency | PtProcessLatency | PtTag.
#[global] Instance ParamType_eq_dec : EqDecision ParamType.
Proof. solve_decision. Defined.
Definition ParamType_variants : list (ParamType * option Z) :=
  [(PtInvalid, None); (PtPropInfo, None); (PtProps, None); (PtEnumFormat, None);
   (PtFormat, None); (PtBuffers, None); (PtMeta, None); (PtIO, None); (PtEnumProfile, None);
   (PtProfile, None); (PtEnumPortConfig, None); (PtPortConfig, None); (PtEnumRoute, None);
   (PtRoute, None); (PtControl, None); (PtLatency, None); (PtProcessLatency, None);
   (PtTag, None)].
#[global] Instance ParamType_conv : U32Conv ParamType := derived_conv ParamType_variants.
#[global] Instance ParamType_laws : U32ConvLaws ParamType.
Proof. solve_table. Defined.

(** ** enum MediaType *)
Inductive MediaType := MtUnknown | MtAudio | MtVideo | MtImage | MtBinary | MtStream |
  MtApplication.
#[global] Instance MediaType_eq_dec : EqDecision MediaType.
Proof. solve_decision. Defined.
Definition MediaType_variants : list (MediaType * option Z) :=
  [(MtUnknown, None); (MtAudio, None); (MtVideo, None); (MtImage, None); (MtBinary, None);
   (MtStream, None); (MtApplication, None)].
#[global] Instance MediaType_conv : U32Conv MediaType := derived_conv MediaType_variants.
#[global] Instance MediaType_laws : U32ConvLaws MediaType.
Proof. solve_table. Defined.

(** ** enum MediaSubtype *)
Inductive MediaSubtype := MsUnknown | MsRaw | MsDsp | MsIec958 | MsDsd | MsStartAudio | MsMp3 |
  MsAac | MsVorbis | MsWma | MsRa | MsSbc | MsAdpcm | MsG723 | MsG726 | MsG729 | MsAmr | MsGsm |
  MsAlac | MsFlac | MsApe | MsOpus | MsStartVideo | MsH264 | MsMjpg | MsDv | MsMpegts | MsH263 |
  MsMpeg1 | MsMpeg2 | MsMpeg4 | MsXvid | MsVc1 | MsVp8 | MsVp9 | MsBayer | MsH265 | MsStartImage
  | MsJpeg | MsStartBinary | MsStartStream | MsMidi | MsStartApplication | MsControl.
#[global] Instance MediaSubtype_eq_dec : EqDecision MediaSubtype.
Proof. solve_decision. Defined.
Definition MediaSubtype_variants : list (MediaSubtype * option Z) :=
  [(MsUnknown, None); (MsRaw, None); (MsDsp, None); (MsIec958, None); (MsDsd, None);
   (MsStartAudio, Some 0x10000); (MsMp3, None); (MsAac, None); (MsVorbis, None);
   (MsWma, None); (MsRa, None); (MsSbc, None); (MsAdpcm, None); (MsG723, None);
   (MsG726, None); (MsG729, None); (MsAmr, None); (MsGsm, None); (MsAlac, None);
   (MsFlac, None); (MsApe, None); (MsOpus, None); (MsStartVideo, Some 0x20000);
   (MsH264, None); (MsMjpg, None); (MsDv, None); (MsMpegts, None); (MsH263, None);
   (MsMpeg1, None); (MsMpeg2, None); (MsMpeg4, None); (MsXvid, None); (MsVc1, None);
   (MsVp8, None); (MsVp9, None); (MsBayer, None); (MsH265, None);
   (MsStartImage, Some 0x30000); (MsJpeg, None); (MsStartBinary, Some 0x40000);
   (MsStartStream, Some 0x50000); (MsMidi, None); (MsStartApplication, Some 0x60000);
   (MsControl, None)].
#[global] Instance MediaSubtype_conv : U32Conv MediaSubtype := derived_conv MediaSubtype_variants.
#[global] Instance MediaSubtype_laws : U32ConvLaws MediaSubtype.
Proof. solve_table. Defined.

(** ** enum Format *)
Inductive FormatKey := FStart | FMediaType | FMediaSubtype | FStartAudio | FAudioFormat |
  FAudioFlags | FAudioRate | FAudioChannels | FAudioPosition | FAudioIec958Codec |
  FAudioBitorder | FAudioInterleave | FAudioBitrate | FAudioBlockAlign | FAudioAacStreamFormat |
  FAudioWmaProfile | FAudioAmrBandMode | FStartVideo | FVideoFormat | FVideoModifier |
  FVideoSize | FVideoFramerate | FVideoMaxFramerate | FVideoViews | FVideoInterlaceMode |
  FVideoPixelAspectRatio | FVideoMultiviewMode | FVideoMultiviewFlags | FVideoChromaSite |
  FVideoColorRange | FVideoColorMatrix | FVideoTransferFunction | FVideoColorPrimaries |
  FVideoProfile | FVideoLevel | FVideoH264StreamFormat | FVideoH264Alignment |
  FVideoH265StreamFormat | FVideoH265Alignment | FStartImage | FStartBinary | FStartStream |
  FStartApplication | FControlTypes.
#[global] Instance FormatKey_eq_dec : EqDecision FormatKey.
Proof. solve_decision. Defined.
Definition FormatKey_variants : list (FormatKey * option Z) :=
  [(FStart, None); (FMediaType, None); (FMediaSubtype, None); (FStartAudio, Some 0x10000);
   (FAudioFormat, None); (FAudioFlags, None); (FAudioRate, None); (FAudioChannels, None);
   (FAudioPosition, None); (FAudioIec958Codec, None); (FAudioBitorder, None);
   (FAudioInterleave, None); (FAudioBitrate, None); (FAudioBlockAlign, None);
   (FAudioAacStreamFormat, None); (FAudioWmaProfile, None); (FAudioAmrBandMode, None);
   (FStartVideo, Some 0x20000); (FVideoFormat, None); (FVideoModifier, None);
   (FVideoSize, None); (FVideoFramerate, None); (FVideoMaxFramerate, None);
   (FVideoViews, None); (FVideoInterlaceMode, None); (FVideoPixelAspectRatio, None);
   (FVideoMultiviewMode, None); (FVideoMultiviewFlags, None); (FVideoChromaSite, None);
   (FVideoColorRange, None); (FVideoColorMatrix, None); (FVideoTransferFunction, None);
   (FVideoColorPrimaries, None); (FVideoProfile, None); (FVideoLevel, None);
   (FVideoH264StreamFormat, None); (FVideoH264Alignment, None);
   (FVideoH265StreamFormat, None); (FVideoH265Alignment, None); (FStartImage, Some 0x30000);
   (FStartBinary, Some 0x40000); (FStartStream, Some 0x50000);
   (FStartApplication, Some 0x60000); (FControlTypes, None)].
#[global] Instance FormatKey_conv : U32Conv FormatKey := derived_conv FormatKey_variants.
#[global] Instance FormatKey_laws : U32ConvLaws FormatKey.
Proof. solve_table. Defined.

(** ** enum PropInfo *)
Inductive PropInfoKey := PiStart | PiId | PiName | PiType | PiLabels | PiContainer | PiParams |
  PiDescription.
#[global] Instance PropInfoKey_eq_dec : EqDecision PropInfoKey.
Proof. solve_decision. Defined.
Definition PropInfoKey_variants : list (PropInfoKey * option Z) :=
  [(PiStart, None); (PiId, None); (PiName, None); (PiType, None); (PiLabels, None);
   (PiContainer, None); (PiParams, None); (PiDescription, None)].
#[global] Instance PropInfoKey_conv : U32Conv PropInfoKey := derived_conv PropInfoKey_variants.
#[global] Instance PropInfoKey_laws : U32ConvLaws PropInfoKey.
Proof. solve_table. Defined.

(** ** enum Prop *)
Inductive PropKey := PrStart | PrUnknown | PrStartDevice | PrDevice | PrDeviceName | PrDeviceFd
  | PrCard | PrCardName | PrMinLatency | PrMaxLatency | PrPeriods | PrPeriodSize | PrPeriodEvent
  | PrLive | PrRate | PrQuality | PrBluetoothAudioCodec | PrBluetoothOffloadActive |
  PrStartAudio | PrWaveType | PrFrequency | PrVolume | PrMute | PrPatternType | PrDitherType |
  PrTruncate | PrChannelVolumes | PrVolumeBase | PrVolumeStep | PrChannelMap | PrMonitorMute |
  PrMonitorVolumes | PrLatencyOffsetNsec | PrSoftMute | PrSoftVolumes | PrIec958Codecs |
  PrVolumeRampSamples | PrVolumeRampStepSamples | PrVolumeRampTime | PrVolumeRampStepTime |
  PrVolumeRampScale | PrStartVideo | PrBrightness | PrContrast | PrSaturation | PrHue | PrGamma
  | PrExposure | PrGain | PrSharpness | PrStartOther | PrParams | PrStartCustom.
#[global] Instance PropKey_eq_dec : EqDecision PropKey.
Proof. solve_decision. Defined.
Definition PropKey_variants : list (PropKey * option Z) :=
  [(PrStart, None); (PrUnknown, None); (PrStartDevice, Some 0x100); (PrDevice, None);
   (PrDeviceName, None); (PrDeviceFd, None); (PrCard, None); (PrCardName, None);
   (PrMinLatency, None); (PrMaxLatency, None); (PrPeriods, None); (PrPeriodSize, None);
   (PrPeriodEvent, None); (PrLive, None); (PrRate, None); (PrQuality, None);
   (PrBluetoothAudioCodec, None); (PrBluetoothOffloadActive, None);
   (PrStartAudio, Some 0x10000); (PrWaveType, None); (PrFrequency, None); (PrVolume, None);
   (PrMute, None); (PrPatternType, None); (PrDitherType, None); (PrTruncate, None);
   (PrChannelVolumes, None); (PrVolumeBase, None); (PrVolumeStep, None); (PrChannelMap, None);
   (PrMonitorMute, None); (PrMonitorVolumes, None); (PrLatencyOffsetNsec, None);
   (PrSoftMute, None); (PrSoftVolumes, None); (PrIec958Codecs, None);
   (PrVolumeRampSamples, None); (PrVolumeRampStepSamples, None); (PrVolumeRampTime, None);
   (PrVolumeRampStepTime, None); (PrVolumeRampScale, None); (PrStartVideo, Some 0x20000);
   (PrBrightness, None); (PrContrast, None); (PrSaturation, None); (PrHue, None);
   (PrGamma, None); (PrExposure, None); (PrGain, None); (PrSharpness, None);
   (PrStartOther, Some 0x80000); (PrParams, None); (PrStartCustom, Some 0x1000000)].
#[global] Instance PropKey_conv : U32Conv PropKey := derived_conv PropKey_variants.
#[global] Instance PropKey_laws : U32ConvLaws PropKey.
Proof. solve_table. Defined.

(** ** enum Buffers *)
Inductive BuffersKey := PbStart | PbBuffers | PbBlocks | PbSize | PbStride | PbAlign |
  PbDataType | PbMetaType.
#[global] Instance BuffersKey_eq_dec : EqDecision BuffersKey.
Proof. solve_decision. Defined.
Definition BuffersKey_variants : list (BuffersKey * option Z) :=
  [(PbStart, None); (PbBuffers, None); (PbBlocks, None); (PbSize, None); (PbStride, None);
   (PbAlign, None); (PbDataType, None); (PbMetaType, None)].
#[global] Instance BuffersKey_conv : U32Conv BuffersKey := derived_conv BuffersKey_variants.
#[global] Instance BuffersKey_laws : U32ConvLaws BuffersKey.
Proof. solve_table. Defined.

(** ** enum Meta *)
Inductive MetaKey := PmStart | PmType | PmSize.
#[global] Instance MetaKey_eq_dec : EqDecision MetaKey.
Proof. solve_decision. Defined.
Definition MetaKey_variants : list (MetaKey * option Z) :=
  [(PmStart, None); (PmType, None); (PmSize, None)].
#[global] Instance MetaKey_conv : U32Conv MetaKey := derived_conv MetaKey_variants.
#[global] Instance MetaKey_laws : U32ConvLaws MetaKey.
Proof. solve_table. Defined.

(** ** enum Io *)
Inductive IoKey := PioStart | PioId | PioSize.
#[global] Instance IoKey_eq_dec : EqDecision IoKey.
Proof. solve_decision. Defined.
Definition IoKey_variants : list (IoKey * option Z) :=
  [(PioStart, None); (PioId, None); (PioSize, None)].
#[global] Instance IoKey_conv : U32Conv IoKey := derived_conv IoKey_variants.
#[global] Instance IoKey_laws : U32ConvLaws IoKey.
Proof. solve_table. Defined.

(** ** enum Profile *)
Inductive ProfileKey := PfStart | PfIndex | PfName | PfDescription | PfPriority | PfAvailable |
  PfInfo | PfClasses | PfSave.
#[global] Instance ProfileKey_eq_dec : EqDecision ProfileKey.
Proof. solve_decision. Defined.
Definition ProfileKey_variants : list (ProfileKey * option Z) :=
  [(PfStart, None); (PfIndex, None); (PfName, None); (PfDescription, None);
   (PfPriority, None); (PfAvailable, None); (PfInfo, None); (PfClasses, None);
   (PfSave, None)].
#[global] Instance ProfileKey_conv : U32Conv ProfileKey := derived_conv ProfileKey_variants.
#[global] Instance ProfileKey_laws : U32ConvLaws ProfileKey.
Proof. solve_table. Defined.

(** ** enum Profiler *)
Inductive ProfilerKey := PfrStart | PfrStartDriver | PfrInfo | PfrClock | PfrDriverBlock |
  PfrStartFollower | PfrFollowerBlock | PfrFollowerClock | PfrStartCustom.
#[global] Instance ProfilerKey_eq_dec : EqDecision ProfilerKey.
Proof. solve_decision. Defined.
Definition ProfilerKey_variants : list (ProfilerKey * option Z) :=
  [(PfrStart, None); (PfrStartDriver, Some 0x10000); (PfrInfo, None); (PfrClock, None);
   (PfrDriverBlock, None); (PfrStartFollower, Some 0x20000); (PfrFollowerBlock, None);
   (PfrFollowerClock, None); (PfrStartCustom, Some 0x1000000)].
#[global] Instance ProfilerKey_conv : U32Conv ProfilerKey := derived_conv ProfilerKey_variants.
#[global] Instance ProfilerKey_laws : U32ConvLaws ProfilerKey.
Proof. solve_table. Defined.

(** ** enum Route *)
Inductive RouteKey := RtStart | RtIndex | RtDirection | RtDevice | RtName | RtDescription |
  RtPriority | RtAvailable | RtInfo | RtProfiles | RtProps | RtDevices | RtProfile | RtSave.
#[global] Instance RouteKey_eq_dec : EqDecision RouteKey.
Proof. solve_decision. Defined.
Definition RouteKey_variants : list (RouteKey * option Z) :=
  [(RtStart, None); (RtIndex, None); (RtDirection, None); (RtDevice, None); (RtName, None);
   (RtDescription, None); (RtPriority, None); (RtAvailable, None); (RtInfo, None);
   (RtProfiles, None); (RtProps, None); (RtDevices, None); (RtProfile, None); (RtSave, None)].
#[global] Instance RouteKey_conv : U32Conv RouteKey := derived_conv RouteKey_variants.
#[global] Instance RouteKey_laws : U32ConvLaws RouteKey.
Proof. solve_table. Defined.

(** [ParamType::object_type] *)
Definition object_type (t : ParamType) : option ObjectType :=
  match t with
  | PtInvalid => None
  | PtPropInfo => Some OPropInfo
  | PtProps => Some OProps
  | PtEnumFormat => Some OFormat
  | PtFormat => Some OFormat
  | PtBuffers => Some OParamBuffers
  | PtMeta => Some OParamMeta
  | PtIO => Some OParamIo
  | PtEnumProfile => Some OParamProfile
  | PtProfile => Some OParamProfile
  | PtEnumPortConfig => Some OParamPortConfig
  | PtPortConfig => Some OParamPortConfig
  | PtEnumRoute => Some OParamRoute
  | PtRoute => Some OParamRoute
  | PtControl => None
  | PtLatency => Some OParamLatency
  | PtProcessLatency => Some OParamProcessLatency
  | PtTag => Some OParamTag
  end.

(** The trait [ParamObject]: the object type a set of keys belongs to. *)
Class ParamObject (T : Type) := PARAM_TYPE : ObjectType.
Arguments PARAM_TYPE T {_}.
#[global] Instance FormatKey_object : ParamObject FormatKey := OFormat.
#[global] Instance PropInfoKey_object : ParamObject PropInfoKey := OPropInfo.
#[global] Instance PropKey_object : ParamObject PropKey := OProps.
#[global] Instance BuffersKey_object : ParamObject BuffersKey := OParamBuffers.
#[global] Instance MetaKey_object : ParamObject MetaKey := OParamMeta.
#[global] Instance IoKey_object : ParamObject IoKey := OParamIo.
#[global] Instance ProfileKey_object : ParamObject ProfileKey := OParamProfile.
#[global] Instance ProfilerKey_object : ParamObject ProfilerKey := OProfiler.
#[global] Instance RouteKey_object : ParamObject RouteKey := OParamRoute.
