(* ===== verification/NodeShared.v ===== *)
(** * The world a node session runs in

    A session shares memory with other processes and talks to them through
    eventfds. This file holds what its components build on:

    - backing objects of shared memory as byte stores, and typed accesses
      through checked pointers into them (the raw-pointer reads, writes and
      atomics of [activation.rs] and [port/mod.rs]);
    - the other participants, who may change shared memory before every
      access of the session;
    - [node/src/signal/eventfd.rs] over a kernel given by a class;
    - the monad of computations on such a world, and two ways to reason
      about them: [runs] for any behaviour of the others, [tracks] for
      others that keep out of some memory. *)

From S2P Require Import Prelude FrameHeader NodeMemory.

(** ** State and error *)
Definition SM (St E A : Type) : Type := St → St * Res E A.

#[global] Instance sm_ret {St E} : MRet (SM St E) := λ A a s, (s, Ok a).
#[global] Instance sm_bind {St E} : MBind (SM St E) := λ A B f m s,
  match m s with
  | (s', Ok a) => f a s'
  | (s', Err e) => (s', Err e)
  | (s', Panic) => (s', Panic)
  end.

Definition throw {St E A} (e : E) : SM St E A := λ s, (s, Err e).
Definition panic {St E A} : SM St E A := λ s, (s, Panic).
(** A computation without state. *)
Definition pure {St E A} (r : Res E A) : SM St E A := λ s, (s, r).
(** [m.map_err(f)] *)
Definition mmap_err {St E F A} (f : E → F) (m : SM St E A) : SM St F A :=
  λ s, let '(s', r) := m s in (s', map_err f r).
(** The result of [m] as a value: [match m { .. }], with panics passed on. *)
Definition try {St E F A} (m : SM St E A) : SM St F (E + A) := λ s,
  match m s with
  | (s', Ok a) => (s', Ok (inr a))
  | (s', Err e) => (s', Ok (inl e))
  | (s', Panic) => (s', Panic)
  end.
(** [catch_unwind(AssertUnwindSafe(m))]: [None] if [m] panicked. *)
Definition catch_unwind {St E F A} (m : SM St E A) : SM St F (option (E + A)) := λ s,
  match m s with
  | (s', Ok a) => (s', Ok (Some (inr a)))
  | (s', Err e) => (s', Ok (Some (inl e)))
  | (s', Panic) => (s', Ok None)
  end.

(** ** Shared memory *)

(** The bytes of every backing object. *)
Definition Mem : Type := BackingIdentity → Z → byte.

Definition mem_bytes (m : Mem) (b : BackingIdentity) (o : Z) (n : nat) : list byte :=
  (λ i, m b (o + Z.of_nat i)) <$> List.seq 0 n.
Definition mem_word (m : Mem) (b : BackingIdentity) (o : Z) (n : nat) : Z :=
  le_combine (mem_bytes m b o n).
Definition mem_write (m : Mem) (b : BackingIdentity) (o : Z) (bs : list byte) : Mem := λ b' o',
  if bool_decide (b' = b ∧ o ≤ o' < o + len bs)
  then nth (Z.to_nat (o' - o)) bs Byte.x00 else m b' o'.
Definition mem_store (m : Mem) (b : BackingIdentity) (o : Z) (n : nat) (v : Z) : Mem :=
  mem_write m b o (le_split n v).

(** What a session does that others can see, in order. *)
Inductive Event :=
| EvStore (b : BackingIdentity) (o : Z) (width : nat) (v : Z)
| EvMedia (b : BackingIdentity) (o size : Z)
| EvCallback (buffer_id : Z)
| EvDrain (fd v : Z)
| EvSignal (fd v : Z).

(** [w_foreign] is what the other participants will do: one change of
    memory before each access of the session, none once it is used up.
    [w_ub] records an access outside the memory a pointer is valid for, or
    at a wrong alignment. *)
Record World (K : Type) := mkWorld {
  w_mem : Mem;
  w_foreign : list (Mem → Mem);
  w_kernel : K;
  w_ub : bool;
  w_log : list Event;
}.
Arguments mkWorld {K}. Arguments w_mem {K}. Arguments w_foreign {K}.
Arguments w_kernel {K}. Arguments w_ub {K}. Arguments w_log {K}.

(** A raw pointer: its address, the byte it points to, and how many bytes
    behind it are mapped. *)
Record Ptr := mkPtr { p_addr : Z; p_obj : BackingIdentity; p_off : Z; p_room : Z }.

(** [MemoryMapping::as_mut_ptr] *)
Definition as_mut_ptr (m : MemoryMapping) : Ptr :=
  mkPtr (m_ptr (mapped m)) (backing (mm_entry m)) (mm_offset m) (m_len (mapped m)).

Section world.
Context {K : Type}.
Notation M := (SM (World K)).
Implicit Types w : World K.

Definition foreign_step w : World K :=
  match w_foreign w with
  | [] => w
  | f :: fs => mkWorld (f (w_mem w)) fs (w_kernel w) (w_ub w) (w_log w)
  end.
Definition set_mem w (m : Mem) (e : Event) : World K :=
  mkWorld m (w_foreign w) (w_kernel w) (w_ub w) (w_log w ++ [e]).
Definition emit {E} (e : Event) : M E unit := λ w,
  (mkWorld (w_mem w) (w_foreign w) (w_kernel w) (w_ub w) (w_log w ++ [e]), Ok tt).
Definition undefined {E A} : M E A := λ w,
  (mkWorld (w_mem w) (w_foreign w) (w_kernel w) true (w_log w), Panic).

(** May [width] bytes be accessed [off] bytes behind [p]? *)
Definition access_ok (p : Ptr) (off : Z) (width : nat) : bool :=
  bool_decide (0 ≤ off ∧ off + Z.of_nat width ≤ p_room p) &&
  bool_decide ((p_addr p + off) mod Z.of_nat width = 0).

(** [p.add(n)], which must stay inside the mapping *)
Definition ptr_add {E} (p : Ptr) (n : Z) : M E Ptr :=
  if bool_decide (0 ≤ n ≤ p_room p)
  then mret (mkPtr (p_addr p + n) (p_obj p) (p_off p + n) (p_room p - n)) else undefined.

(** The contract of an [unsafe] constructor: [len] bytes behind [base] are
    mapped. *)
Definition valid_region {E} (base : Ptr) (len : Z) : M E unit :=
  if bool_decide (len ≤ p_room base) then mret tt else undefined.

(** [p.add(off).cast::<uN>().read_volatile()], and an atomic load *)
Definition load {E} (p : Ptr) (off : Z) (width : nat) : M E Z := λ w0,
  let w := foreign_step w0 in
  if access_ok p off width then (w, Ok (mem_word (w_mem w) (p_obj p) (p_off p + off) width))
  else undefined w.

(** [.write_volatile(v)], and an atomic store *)
Definition store {E} (p : Ptr) (off : Z) (width : nat) (v : Z) : M E unit := λ w0,
  let w := foreign_step w0 in
  let o := p_off p + off in
  if access_ok p off width
  then (set_mem w (mem_store (w_mem w) (p_obj p) o width v)
          (EvStore (p_obj p) o width v), Ok tt)
  else undefined w.

(** [compare_exchange(old, new, SeqCst, SeqCst)]: the value found *)
Definition compare_exchange {E} (p : Ptr) (off : Z) (width : nat) (old new : Z) : M E (Z + unit) := λ w0,
  let w := foreign_step w0 in
  let o := p_off p + off in
  if access_ok p off width then
    let found := mem_word (w_mem w) (p_obj p) o width in
    if bool_decide (found = old)
    then (set_mem w (mem_store (w_mem w) (p_obj p) o width new)
            (EvStore (p_obj p) o width new), Ok (inr tt))
    else (w, Ok (inl found))
  else undefined w.

(** [swap(new, SeqCst)] *)
Definition swap {E} (p : Ptr) (off : Z) (width : nat) (new : Z) : M E Z := λ w0,
  let w := foreign_step w0 in
  let o := p_off p + off in
  if access_ok p off width
  then (set_mem w (mem_store (w_mem w) (p_obj p) o width new)
          (EvStore (p_obj p) o width new), Ok (mem_word (w_mem w) (p_obj p) o width))
  else undefined w.
End world.

(** ** The kernel's eventfds *)

(** [fcntl(F_GETFL)], [fcntl(F_SETFL)], [read] and [write]: the flags, the
    number of bytes moved (with the value read) or an error. *)
Class EventSys (K : Type) := {
  sys_getfl : K → Z → K * (IoError + Z);
  sys_setfl : K → Z → Z → K * (IoError + unit);
  sys_read : K → Z → K * (IoError + Z * Z);
  sys_write : K → Z → Z → K * (IoError + Z);
}.

(** [io::Error]s of [eventfd.rs] *)
Inductive SignalError := SignalIo (e : IoError) | UnexpectedEof.
#[global] Instance SignalError_eq_dec : EqDecision SignalError.
Proof. solve_decision. Defined.

Definition O_NONBLOCK : Z := 2048.

Section eventfd.
Context {K : Type} `{EventSys K}.
Notation M := (SM (World K)).

(** One system call. *)
Definition syscall {A} (f : K → K * (IoError + A)) : M SignalError A := λ w,
  let '(k, r) := f (w_kernel w) in
  (mkWorld (w_mem w) (w_foreign w) k (w_ub w) (w_log w),
   match r with inl e => Err (SignalIo e) | inr a => Ok a end).

(** An [EventFd] is the number of the descriptor it owns. *)
Definition set_nonblocking (fd : Z) : M SignalError unit :=
  flags ← syscall (λ k, sys_getfl k fd);
  if bool_decide (Z.land flags O_NONBLOCK = O_NONBLOCK) then mret tt
  else syscall (λ k, sys_setfl k fd (Z.lor flags O_NONBLOCK)).

Definition from_owned_fd (fd : Z) : M SignalError Z :=
  set_nonblocking fd;; mret fd.

Definition drain_fd (fd : Z) : M SignalError Z :=
  '(n, value) ← syscall (λ k, sys_read k fd);
  if bool_decide (n ≠ 8) then throw UnexpectedEof else
  emit (EvDrain fd value);; mret value.

Definition signal_fd (fd value : Z) : M SignalError unit :=
  n ← syscall (λ k, sys_write k fd value);
  if bool_decide (n ≠ 8) then throw UnexpectedEof else
  emit (EvSignal fd value).
End eventfd.

(** ** Reasoning about memory *)
Section mem_lemmas.
Implicit Types (m : Mem) (b : BackingIdentity).

Lemma length_mem_bytes m b o n : length (mem_bytes m b o n) = n.
Proof. unfold mem_bytes. by rewrite length_fmap, length_seq. Qed.

Lemma mem_word_range m b o n : 0 ≤ mem_word m b o n < 2 ^ (8 * Z.of_nat n).
Proof.
  unfold mem_word. pose proof (le_combine_bound (mem_bytes m b o n)) as H.
  by rewrite length_mem_bytes in H.
Qed.

(** Only the bytes read matter. *)
Lemma mem_bytes_ext m m' b o n :
  (∀ x, o ≤ x < o + Z.of_nat n → m b x = m' b x) → mem_bytes m b o n = mem_bytes m' b o n.
Proof.
  intros H. unfold mem_bytes. apply list_fmap_ext. intros i x [-> ?]%lookup_seq. apply H. lia.
Qed.
Lemma mem_word_ext m m' b o n :
  (∀ x, o ≤ x < o + Z.of_nat n → m b x = m' b x) → mem_word m b o n = mem_word m' b o n.
Proof. intros H. unfold mem_word. f_equal. by apply mem_bytes_ext. Qed.

Lemma mem_write_other m b o bs b' o' :
  b' ≠ b ∨ o' < o ∨ o + len bs ≤ o' → mem_write m b o bs b' o' = m b' o'.
Proof. intros H. unfold mem_write. rewrite bool_decide_eq_false_2; [done|naive_solver lia]. Qed.

Lemma mem_bytes_write m b o bs : mem_bytes (mem_write m b o bs) b o (length bs) = bs.
Proof.
  apply list_eq. intros i. unfold mem_bytes. rewrite list_lookup_fmap.
  destruct (decide (i < length bs)%nat) as [Hi|Hi].
  - rewrite lookup_seq_lt by lia. simpl. unfold mem_write.
    rewrite bool_decide_eq_true_2 by (unfold len; split; [done|lia]).
    replace (Z.to_nat (o + Z.of_nat i - o)) with i by lia.
    destruct (lookup_lt_is_Some_2 bs i Hi) as [x Hx]. rewrite Hx. f_equal.
    by apply nth_lookup_Some.
  - rewrite lookup_seq_ge by lia. rewrite lookup_ge_None_2; [done|lia].
Qed.

Lemma mem_word_store m b o n v :
  mem_word (mem_store m b o n v) b o n = v mod 2 ^ (8 * Z.of_nat n).
Proof.
  unfold mem_word, mem_store.
  pose proof (mem_bytes_write m b o (le_split n v)) as H. rewrite length_le_split in H.
  by rewrite H, le_combine_split, Z.mul_comm.
Qed.

Lemma mem_word_store_other m b o n v b' o' n' :
  b' ≠ b ∨ o' + Z.of_nat n' ≤ o ∨ o + Z.of_nat n ≤ o' →
  mem_word (mem_store m b o n v) b' o' n' = mem_word m b' o' n'.
Proof.
  intros H. apply mem_word_ext. intros x ?. apply mem_write_other.
  unfold len. rewrite length_le_split. naive_solver lia.
Qed.

Lemma mem_store_other m b o n v b' o' :
  b' ≠ b ∨ o' < o ∨ o + Z.of_nat n ≤ o' → mem_store m b o n v b' o' = m b' o'.
Proof. intros H. apply mem_write_other. unfold len. by rewrite length_le_split. Qed.
End mem_lemmas.

(** ** Reasoning about computations

    [steps P mem m Q]: whatever else happens in the world, if nobody but the
    session writes to the bytes in [P], which hold [mem], then [m] makes no
    undefined access and ends with an outcome, contents of [P] and a list of
    visible actions that satisfy [Q]. With an empty [P] the others may do
    anything at any time. *)
Section steps.
Context {K : Type}.
Notation M := (SM (World K)).
Notation Own := (BackingIdentity → Z → Prop).
Implicit Types (P : Own) (mem : Mem) (w : World K).

Definition quiet P (f : Mem → Mem) : Prop := ∀ m b o, P b o → f m b o = m b o.
Definition tracks P mem w : Prop :=
  Forall (quiet P) (w_foreign w) ∧ ∀ b o, P b o → w_mem w b o = mem b o.
Definition steps {E A} P mem (m : M E A) (Q : Res E A → Mem → list Event → Prop) : Prop :=
  ∀ w, tracks P mem w →
    w_ub (m w).1 = w_ub w ∧ (length (w_foreign (m w).1) ≤ length (w_foreign w))%nat ∧
    ∃ mem' l, tracks P mem' (m w).1 ∧ w_log (m w).1 = w_log w ++ l ∧ Q (m w).2 mem' l.

(** [covers P p off n]: the [n] bytes accessed [off] behind [p] are in [P]. *)
Definition covers P (p : Ptr) (off n : Z) : Prop :=
  ∀ o, p_off p + off ≤ o < p_off p + off + n → P (p_obj p) o.

Context {E A B : Type}.
Implicit Types (m : M E A) (f : A → M E B).

Lemma steps_mono P mem m Q Q' :
  steps P mem m Q → (∀ r mem' l, Q r mem' l → Q' r mem' l) → steps P mem m Q'.
Proof. intros H HQ w Hw. destruct (H w Hw) as (?&?&?&?&?&?&?); eauto 10. Qed.

Lemma steps_ret P mem (a : A) Q : Q (Ok a) mem [] → steps (E:=E) P mem (mret a) Q.
Proof. intros HQ w Hw. split; [done|]. split; [done|]. exists mem, []. by rewrite app_nil_r. Qed.
Lemma steps_pure P mem (r : Res E A) Q : Q r mem [] → steps P mem (pure r) Q.
Proof. intros HQ w Hw. split; [done|]. split; [done|]. exists mem, []. by rewrite app_nil_r. Qed.
Lemma steps_throw P mem (e : E) Q : Q (Err e) mem [] → steps (A:=A) P mem (throw e) Q.
Proof. intros HQ w Hw. split; [done|]. split; [done|]. exists mem, []. by rewrite app_nil_r. Qed.

Lemma steps_bind P mem m f Q :
  steps P mem m (λ r mem' l, match r with
    | Ok a => steps P mem' (f a) (λ r' mem'' l', Q r' mem'' (l ++ l'))
    | Err e => Q (Err e) mem' l
    | Panic => Q Panic mem' l
    end) → steps P mem (m ≫= f) Q.
Proof.
  intros H w Hw. destruct (H w Hw) as (Hu & Hf & mem' & l & Ht & Hl & HQ).
  unfold mbind, sm_bind. destruct (m w) as [w' [a|e|]]; simpl in *; [|eauto 10..].
  destruct (HQ w' Ht) as (Hu' & Hf' & mem'' & l' & Ht' & Hl' & HQ').
  split; [congruence|]. split; [lia|]. exists mem'', (l ++ l'). by rewrite Hl', Hl, app_assoc.
Qed.

Lemma steps_try {F} P mem m (Q : Res F (E + A) → Mem → list Event → Prop) :
  steps P mem m (λ r mem' l, match r with
    | Ok a => Q (Ok (inr a)) mem' l | Err e => Q (Ok (inl e)) mem' l | Panic => Q Panic mem' l end) →
  steps P mem (try m) Q.
Proof.
  intros H w Hw. destruct (H w Hw) as (Hu & Hf & mem' & l & Ht & Hl & HQ). unfold try.
  destruct (m w) as [w' [a|e|]]; simpl in *; eauto 10.
Qed.
Lemma steps_catch {F} P mem m (Q : Res F (option (E + A)) → Mem → list Event → Prop) :
  steps P mem m (λ r mem' l, match r with
    | Ok a => Q (Ok (Some (inr a))) mem' l | Err e => Q (Ok (Some (inl e))) mem' l
    | Panic => Q (Ok None) mem' l end) →
  steps P mem (catch_unwind m) Q.
Proof.
  intros H w Hw. destruct (H w Hw) as (Hu & Hf & mem' & l & Ht & Hl & HQ). unfold catch_unwind.
  destruct (m w) as [w' [a|e|]]; simpl in *; eauto 10.
Qed.
Lemma steps_map_err {F} P mem m (g : E → F) Q :
  steps P mem m (λ r mem' l, Q (map_err g r) mem' l) → steps P mem (mmap_err g m) Q.
Proof.
  intros H w Hw. destruct (H w Hw) as (Hu & Hf & mem' & l & Ht & Hl & HQ). unfold mmap_err.
  destruct (m w) as [w' r]; simpl in *; eauto 10.
Qed.

Lemma steps_emit P mem (e : Event) (Q : Res E unit → _) :
  Q (Ok tt) mem [e] → steps P mem (emit e) Q.
Proof. intros HQ w [? ?]. split; [done|]. split; [done|]. by exists mem, [e]. Qed.

Lemma tracks_step P mem w : tracks P mem w → tracks P mem (foreign_step w).
Proof.
  intros [Hq Hm]. unfold foreign_step, tracks. destruct (w_foreign w) as [|g gs] eqn:Hf; simpl.
  - by rewrite Hf.
  - apply Forall_cons in Hq as [Hg Hgs]. split; [done|]. intros b o HP. rewrite Hg by done. by apply Hm.
Qed.

Lemma foreign_step_same w :
  w_ub (foreign_step w) = w_ub w ∧ w_log (foreign_step w) = w_log w ∧
  (length (w_foreign (foreign_step w)) ≤ length (w_foreign w))%nat.
Proof.
  unfold foreign_step. destruct (w_foreign w) eqn:Hf; simpl; [by rewrite Hf|].
  split_and!; [done..|lia].
Qed.

Lemma tracks_word P mem w p off n :
  tracks P mem w → covers P p off (Z.of_nat n) →
  mem_word (w_mem w) (p_obj p) (p_off p + off) n = mem_word mem (p_obj p) (p_off p + off) n.
Proof. intros [_ Hm] Hc. apply mem_word_ext. intros x ?. by apply Hm, Hc. Qed.

Lemma tracks_write P mem w b o bs e :
  tracks P mem w → tracks P (mem_write mem b o bs) (set_mem w (mem_write (w_mem w) b o bs) e).
Proof.
  intros [Hq Hm]. split; [done|]. intros b' o' HP. simpl. unfold mem_write.
  case_bool_decide; [done|by apply Hm].
Qed.
End steps.

Section access_rules.
Context {K E : Type}.
Notation M := (SM (World K)).
Implicit Types (P : BackingIdentity → Z → Prop) (mem : Mem) (p : Ptr).

(** Every access starts by letting the others move. *)
Ltac start_access w Hw Hok :=
  intros w Hw; pose proof (tracks_step _ _ _ Hw);
  destruct (foreign_step_same w) as (?&?&?); rewrite Hok; simpl.

(** What an access finds is what [mem] says where [P] covers it. *)
Lemma steps_load P mem p off n Q :
  access_ok p off n = true →
  (∀ v, 0 ≤ v < 2 ^ (8 * Z.of_nat n) →
    (covers P p off (Z.of_nat n) → v = mem_word mem (p_obj p) (p_off p + off) n) → Q (Ok v) mem []) →
  steps (K:=K) (E:=E) P mem (load p off n) Q.
Proof.
  intros Hok HQ. unfold load. start_access w Hw Hok. split_and!; [done..|].
  exists mem, []. rewrite app_nil_r. split_and!; [done..|].
  apply HQ; [apply mem_word_range|]. intros. by apply (tracks_word P).
Qed.

Lemma steps_store P mem p off n v Q :
  access_ok p off n = true →
  Q (Ok tt) (mem_store mem (p_obj p) (p_off p + off) n v) [EvStore (p_obj p) (p_off p + off) n v] →
  steps (K:=K) (E:=E) P mem (store p off n v) Q.
Proof.
  intros Hok HQ. unfold store. start_access w Hw Hok. split_and!; [done..|].
  eexists _, _. split_and!; [by apply tracks_write|simpl; by f_equal|done].
Qed.

Lemma steps_cas P mem p off n old new Q :
  access_ok p off n = true →
  (∀ v, 0 ≤ v < 2 ^ (8 * Z.of_nat n) → v ≠ old →
    (covers P p off (Z.of_nat n) → v = mem_word mem (p_obj p) (p_off p + off) n) →
    Q (Ok (inl v)) mem []) →
  ((covers P p off (Z.of_nat n) → mem_word mem (p_obj p) (p_off p + off) n = old) →
   Q (Ok (inr tt)) (mem_store mem (p_obj p) (p_off p + off) n new)
     [EvStore (p_obj p) (p_off p + off) n new]) →
  steps (K:=K) (E:=E) P mem (compare_exchange p off n old new) Q.
Proof.
  intros Hok HQ HQ'. unfold compare_exchange. start_access w Hw Hok.
  case_bool_decide; simpl; (split_and!; [done..|]).
  - eexists _, _. split_and!; [by apply tracks_write|simpl; by f_equal|].
    apply HQ'. intros. by rewrite <- (tracks_word P mem (foreign_step w)).
  - exists mem, []. rewrite app_nil_r. split_and!; [done..|].
    apply HQ; [apply mem_word_range|done|]. intros. by apply (tracks_word P).
Qed.

Lemma steps_swap P mem p off n new Q :
  access_ok p off n = true →
  (∀ v, 0 ≤ v < 2 ^ (8 * Z.of_nat n) →
    (covers P p off (Z.of_nat n) → v = mem_word mem (p_obj p) (p_off p + off) n) →
    Q (Ok v) (mem_store mem (p_obj p) (p_off p + off) n new)
      [EvStore (p_obj p) (p_off p + off) n new]) →
  steps (K:=K) (E:=E) P mem (swap p off n new) Q.
Proof.
  intros Hok HQ. unfold swap. start_access w Hw Hok. split_and!; [done..|].
  eexists _, _. split_and!; [by apply tracks_write|simpl; by f_equal|].
  apply HQ; [apply mem_word_range|]. intros. by apply (tracks_word P).
Qed.

Lemma steps_valid_region P mem p n Q :
  n ≤ p_room p → Q (Ok tt) mem [] → steps (K:=K) (E:=E) P mem (valid_region p n) Q.
Proof. intros Hn HQ. unfold valid_region. rewrite bool_decide_eq_true_2 by done. by apply steps_ret. Qed.

Lemma steps_ptr_add P mem p n Q :
  0 ≤ n ≤ p_room p →
  Q (Ok (mkPtr (p_addr p + n) (p_obj p) (p_off p + n) (p_room p - n))) mem [] →
  steps (K:=K) (E:=E) P mem (ptr_add p n) Q.
Proof. intros Hn HQ. unfold ptr_add. rewrite bool_decide_eq_true_2 by done. by apply steps_ret. Qed.
End access_rules.

Section eventfd_rules.
Context {K : Type} `{EventSys K}.
Implicit Types (P : BackingIdentity → Z → Prop) (mem : Mem).

Lemma steps_syscall {A} P mem (f : K → K * (IoError + A)) Q :
  (∀ e, Q (Err (SignalIo e)) mem []) → (∀ a, Q (Ok a) mem []) → steps P mem (syscall f) Q.
Proof.
  intros He Ha w [Hq Hm]. unfold syscall. destruct (f (w_kernel w)) as [k r]; simpl.
  split_and!; [done..|]. exists mem, []. rewrite app_nil_r. split_and!; [done..|by destruct r].
Qed.

Lemma steps_from_owned_fd P mem fd Q :
  (∀ e, Q (Err e) mem []) → Q (Ok fd) mem [] → steps P mem (from_owned_fd fd) Q.
Proof.
  intros He Ha. unfold from_owned_fd, set_nonblocking. apply steps_bind, steps_bind, steps_syscall; [done|].
  intros flags. simpl. case_bool_decide.
  - apply steps_ret. simpl. by apply steps_ret.
  - apply steps_syscall; [done|]. intros _. simpl. by apply steps_ret.
Qed.

Lemma steps_drain_fd P mem fd Q :
  (∀ e, Q (Err e) mem []) → (∀ v, Q (Ok v) mem [EvDrain fd v]) → steps P mem (drain_fd fd) Q.
Proof.
  intros He Ha. unfold drain_fd. apply steps_bind, steps_syscall; [done|]. intros [n v]. simpl.
  case_bool_decide; [by apply steps_throw|]. apply steps_bind, steps_emit. simpl. by apply steps_ret.
Qed.

Lemma steps_signal_fd P mem fd v Q :
  (∀ e, Q (Err e) mem []) → Q (Ok tt) mem [EvSignal fd v] → steps P mem (signal_fd fd v) Q.
Proof.
  intros He Ha. unfold signal_fd. apply steps_bind, steps_syscall; [done|]. intros n. simpl.
  case_bool_decide; [by apply steps_throw|]. by apply steps_emit.
Qed.
End eventfd_rules.
