(* ===== verification/NodeActivation.v ===== *)
(** * Activation records

    Models [node/src/session/activation.rs] with its ABI table
    [session/abi/x86_64_unknown_linux_gnu.rs] and the status values of
    [protocol/src/wire/client_node/mod.rs]: the [pw_node_activation] record in
    shared memory through which the graph schedules a node, and the
    transitions a client makes in it. *)

From S2P Require Import Prelude NodeMemory NodeShared.

Module abi.
Definition SIZE : Z := 2312.
Definition ALIGN : Z := 8.
Definition STATUS : Z := 0.
Definition STATE0_STATUS : Z := 8.
Definition STATE0_REQUIRED : Z := 12.
Definition STATE0_PENDING : Z := 16.
Definition SIGNAL_TIME : Z := 32.
Definition AWAKE_TIME : Z := 40.
Definition FINISH_TIME : Z := 48.
Definition CLIENT_VERSION : Z := 540.
Definition SERVER_VERSION : Z := 544.
End abi.

Definition ACTIVATION_VERSION : Z := 1.

Inductive ActivationStatus := NotTriggered | Triggered | Awake | Finished | Inactive.
#[global] Instance ActivationStatus_eq_dec : EqDecision ActivationStatus.
Proof. solve_decision. Defined.

Definition status_value (s : ActivationStatus) : Z :=
  match s with NotTriggered => 0 | Triggered => 1 | Awake => 2 | Finished => 3 | Inactive => 4 end.

Inductive ActivationError :=
| ActNull
| Undersized (actual required : Z)
| ActMisaligned (address required : Z)
| UnsupportedVersion (v : Z)
| UnknownStatus (v : Z)
| InvalidStatusTransition (expected actual : ActivationStatus)
| InvalidPending (v : Z).

Definition activation_status (value : Z) : Res ActivationError ActivationStatus :=
  if bool_decide (value = 0) then Ok NotTriggered else
  if bool_decide (value = 1) then Ok Triggered else
  if bool_decide (value = 2) then Ok Awake else
  if bool_decide (value = 3) then Ok Finished else
  if bool_decide (value = 4) then Ok Inactive else
  Err (UnknownStatus value).

Inductive TriggerOutcome := Waiting (pending : Z) | PeerTriggered.

Section view.
Context {K : Type}.
Notation M := (SM (World K) ActivationError).

(** An [ActivationView] is the pointer to its record. *)
Definition ActivationView_from_raw_parts (base : Ptr) (len : Z) : M Ptr :=
  valid_region base len;;
  if bool_decide (p_addr base = 0) then throw ActNull else
  if bool_decide (len < abi.SIZE) then throw (Undersized len abi.SIZE) else
  if bool_decide (p_addr base mod abi.ALIGN ≠ 0) then throw (ActMisaligned (p_addr base) abi.ALIGN) else
  let view := mkPtr (p_addr base) (p_obj base) (p_off base) len in
  version ← load view abi.SERVER_VERSION 4;
  if bool_decide (version ≠ ACTIVATION_VERSION) then throw (UnsupportedVersion version) else
  mret view.

Definition initialize_client_v1 (view : Ptr) : M unit :=
  store view abi.CLIENT_VERSION 4 ACTIVATION_VERSION.

Definition status (view : Ptr) : M ActivationStatus :=
  v ← load view abi.STATUS 4; pure (activation_status v).

Definition transition (view : Ptr) (from to : ActivationStatus) : M unit :=
  r ← compare_exchange view abi.STATUS 4 (status_value from) (status_value to);
  match r with
  | inr _ => mret tt
  | inl actual => actual ← pure (activation_status actual); throw (InvalidStatusTransition from actual)
  end.

Definition mark_ready (view : Ptr) : M unit := transition view Inactive Finished.

Definition deactivate (view : Ptr) : M ActivationStatus :=
  v ← swap view abi.STATUS 4 (status_value Inactive); pure (activation_status v).

(** The [CycleClaim] it returns is the view itself. *)
Definition claim_cycle (view : Ptr) (now_ns : Z) : M Ptr :=
  transition view Triggered Awake;;
  store view abi.AWAKE_TIME 8 now_ns;;
  mret view.

Definition process_result (view : Ptr) : M Z :=
  v ← load view abi.STATE0_STATUS 4; mret (swrap 32 v).
Definition required (view : Ptr) : M Z :=
  v ← load view abi.STATE0_REQUIRED 4; mret (swrap 32 v).
Definition set_required (view : Ptr) (required : Z) : M unit :=
  store view abi.STATE0_REQUIRED 4 (wrap 32 required).
Definition pending (view : Ptr) : M Z :=
  v ← load view abi.STATE0_PENDING 4; mret (swrap 32 v).

Definition reset_pending (view : Ptr) : M Z :=
  required ← required view;
  if bool_decide (required < 0) then throw (InvalidPending required) else
  store view abi.STATE0_PENDING 4 (wrap 32 required);; mret required.

(** The compare-and-swap loop: the count that was decremented. A failed
    exchange means that somebody else wrote in between. *)
Fixpoint decrement_loop (fuel : nat) (view : Ptr) (current : Z) : M Z :=
  match fuel with
  | O => panic
  | S fuel =>
      if bool_decide (current ≤ 0) then throw (InvalidPending current) else
      r ← compare_exchange view abi.STATE0_PENDING 4 (wrap 32 current) (wrap 32 (current - 1));
      match r with
      | inr _ => mret current
      | inl actual => decrement_loop fuel view (swrap 32 actual)
      end
  end.

Definition decrement_pending (view : Ptr) : M Z := λ w,
  (current ← pending view; decrement_loop (S (length (w_foreign w))) view current) w.

Definition decrement_pending_and_trigger (view : Ptr) (now_ns : Z) : M TriggerOutcome :=
  current ← decrement_pending view;
  if bool_decide (1 < current) then mret (Waiting (current - 1)) else
  transition view NotTriggered Triggered;;
  store view abi.SIGNAL_TIME 8 now_ns;;
  mret PeerTriggered.

(** [CycleClaim::publish_result_and_finish] *)
Definition publish_result_and_finish (claim : Ptr) (process_status now_ns : Z) : M unit :=
  store claim abi.STATE0_STATUS 4 (wrap 32 process_status);;
  store claim abi.FINISH_TIME 8 now_ns;;
  transition claim Awake Finished.
End view.

(** ** Accesses of a view are defined *)

(** What [from_raw_parts] establishes. *)
Definition view_ok (p : Ptr) : Prop := abi.SIZE ≤ p_room p ∧ p_addr p mod abi.ALIGN = 0.

(** The fields a view accesses, with their widths. *)
Definition fields : list (Z * nat) :=
  [(abi.STATUS, 4%nat); (abi.STATE0_STATUS, 4%nat); (abi.STATE0_REQUIRED, 4%nat);
   (abi.STATE0_PENDING, 4%nat); (abi.SIGNAL_TIME, 8%nat); (abi.AWAKE_TIME, 8%nat);
   (abi.FINISH_TIME, 8%nat); (abi.CLIENT_VERSION, 4%nat); (abi.SERVER_VERSION, 4%nat)].

Lemma field_ok p off n : view_ok p → (off, n) ∈ fields → access_ok p off n = true.
Proof.
  intros [Hs Ha] Hf. unfold access_ok, abi.SIZE, abi.ALIGN in *.
  assert (0 ≤ off ∧ off + Z.of_nat n ≤ 2312 ∧ off mod Z.of_nat n = 0 ∧
          (Z.of_nat n | 8) ∧ 0 < Z.of_nat n) as (?&?&Hm&Hd&?).
  { unfold fields in Hf. rewrite !elem_of_cons, elem_of_nil in Hf.
    destruct_or! Hf; simplify_eq; (split_and!; [done|by vm_compute|done| |done]);
      [exists 2|exists 2|exists 2|exists 2|exists 1|exists 1|exists 1|exists 2|exists 2]; done. }
  apply andb_true_iff. split; apply bool_decide_eq_true; [lia|].
  apply Z.mod_divide in Ha; [|done]. apply Z.mod_divide in Hm; [|lia]. apply Z.mod_divide; [lia|].
  apply Z.divide_add_r; [by etrans|done].
Qed.

(** Solve the side condition of an access rule. *)
Ltac field_access := apply field_ok; [done|unfold fields; set_solver].

(** The field [off] bytes into a record, and its contents. *)
Definition field (mem : Mem) (p : Ptr) (off : Z) (n : nat) : Z :=
  mem_word mem (p_obj p) (p_off p + off) n.
Definition set_field (mem : Mem) (p : Ptr) (off : Z) (n : nat) (v : Z) : Mem :=
  mem_store mem (p_obj p) (p_off p + off) n v.
Definition wrote (p : Ptr) (off : Z) (n : nat) (v : Z) : Event :=
  EvStore (p_obj p) (p_off p + off) n v.
Definition set_status (mem : Mem) (p : Ptr) (s : ActivationStatus) : Mem :=
  set_field mem p abi.STATUS 4 (status_value s).
Definition wrote_status (p : Ptr) (s : ActivationStatus) : Event :=
  wrote p abi.STATUS 4 (status_value s).

Lemma activation_status_total v : activation_status v ≠ Panic.
Proof. unfold activation_status. by repeat case_bool_decide. Qed.
Lemma activation_status_value s : activation_status (status_value s) = Ok s.
Proof. by destruct s. Qed.
Lemma activation_status_inv v s : activation_status v = Ok s → v = status_value s.
Proof. unfold activation_status. repeat case_bool_decide; naive_solver. Qed.

(** The whole record is in [P]. *)
Definition owned (P : BackingIdentity → Z → Prop) (p : Ptr) : Prop := covers P p 0 abi.SIZE.

Lemma owned_field P p off n : owned P p → (off, n) ∈ fields → covers P p off (Z.of_nat n).
Proof.
  intros Ho Hf o ?. apply Ho.
  assert (0 ≤ off ∧ off + Z.of_nat n ≤ abi.SIZE); [|lia].
  unfold fields in Hf. rewrite !elem_of_cons, elem_of_nil in Hf.
  destruct_or! Hf; simplify_eq; done.
Qed.

Ltac field_owned := apply owned_field; [done|unfold fields; set_solver].

(** What the operations do. Each rule covers any behaviour of the others;
    what they find is tied to [mem] where the record is ours alone. *)
Section rules.
Context {K : Type}.
Implicit Types (P : BackingIdentity → Z → Prop) (mem : Mem) (p : Ptr).
Notation steps := (steps (K:=K)).

Lemma steps_view P mem p n Q :
  n ≤ p_room p →
  (∀ e, (owned P p → p_addr p ≠ 0 → abi.SIZE ≤ n → p_addr p mod abi.ALIGN = 0 →
         field mem p abi.SERVER_VERSION 4 ≠ ACTIVATION_VERSION) → Q (Err e) mem []) →
  (view_ok (mkPtr (p_addr p) (p_obj p) (p_off p) n) → p_addr p ≠ 0 →
   Q (Ok (mkPtr (p_addr p) (p_obj p) (p_off p) n)) mem []) →
  steps P mem (ActivationView_from_raw_parts p n) Q.
Proof.
  intros Hn He Ha. apply steps_bind, steps_valid_region; [done|]. simpl.
  case_bool_decide; [apply steps_throw, He; naive_solver|].
  case_bool_decide; [apply steps_throw, He; naive_solver lia|].
  case_bool_decide; [apply steps_throw, He; naive_solver|].
  assert (view_ok (mkPtr (p_addr p) (p_obj p) (p_off p) n)) by (split; simpl; [lia|naive_solver]).
  apply steps_bind, steps_load; [field_access|]. intros v _ Hv. simpl.
  case_bool_decide; [|apply steps_ret; auto].
  apply steps_throw, He. intros Ho _ _ _. unfold field. simpl in Hv. rewrite <- Hv; [done|].
  apply (owned_field P p); [done|unfold fields; set_solver].
Qed.

Lemma steps_transition P mem p from to Q :
  view_ok p →
  (∀ e, (owned P p → field mem p abi.STATUS 4 ≠ status_value from ∧
       match activation_status (field mem p abi.STATUS 4) with
       | Ok a => e = InvalidStatusTransition from a | Err e' => e = e' | Panic => False end) →
    Q (Err e) mem []) →
  ((owned P p → field mem p abi.STATUS 4 = status_value from) →
   Q (Ok tt) (set_status mem p to) [wrote_status p to]) →
  steps P mem (transition p from to) Q.
Proof.
  intros Hp He Ha. apply steps_bind, steps_cas; [field_access|..].
  - intros v _ Hne Hv. simpl. apply steps_bind, steps_pure. simpl.
    destruct (activation_status v) as [a|e|] eqn:Hs; simpl; [apply steps_throw|..].
    1,2: apply He; intros Ho; rewrite Hv in Hs, Hne by field_owned; unfold field; by rewrite Hs.
    by apply activation_status_total in Hs.
  - intros Hv. simpl. apply steps_ret, Ha. intros Ho.
    apply Hv. field_owned.
Qed.

Lemma steps_initialize P mem p Q :
  view_ok p →
  Q (Ok tt) (set_field mem p abi.CLIENT_VERSION 4 ACTIVATION_VERSION)
    [wrote p abi.CLIENT_VERSION 4 ACTIVATION_VERSION] →
  steps P mem (initialize_client_v1 p) Q.
Proof. intros Hp HQ. apply steps_store; [field_access|done]. Qed.

Lemma steps_status P mem p Q :
  view_ok p →
  (∀ r, total r → (owned P p → r = activation_status (field mem p abi.STATUS 4)) → Q r mem []) →
  steps P mem (status p) Q.
Proof.
  intros Hp HQ. apply steps_bind, steps_load; [field_access|]. intros v _ Hv. simpl. apply steps_pure.
  apply HQ; [apply activation_status_total|]. intros Ho. rewrite Hv by field_owned. done.
Qed.

Lemma steps_deactivate P mem p Q :
  view_ok p →
  (∀ r, total r → (owned P p → r = activation_status (field mem p abi.STATUS 4)) →
    Q r (set_status mem p Inactive) [wrote_status p Inactive]) →
  steps P mem (deactivate p) Q.
Proof.
  intros Hp HQ. apply steps_bind, steps_swap; [field_access|]. intros v _ Hv. simpl. apply steps_pure.
  apply HQ; [apply activation_status_total|]. intros Ho. rewrite Hv by field_owned. done.
Qed.

Definition awake_mem (mem : Mem) p (now : Z) : Mem :=
  set_field (set_status mem p Awake) p abi.AWAKE_TIME 8 now.

Lemma steps_claim P mem p now Q :
  view_ok p →
  (∀ e, (owned P p → field mem p abi.STATUS 4 ≠ status_value Triggered ∧
     match activation_status (field mem p abi.STATUS 4) with
     | Ok a => e = InvalidStatusTransition Triggered a | Err e' => e = e' | Panic => False end) →
    Q (Err e) mem []) →
  ((owned P p → field mem p abi.STATUS 4 = status_value Triggered) →
   Q (Ok p) (awake_mem mem p now) [wrote_status p Awake; wrote p abi.AWAKE_TIME 8 now]) →
  steps P mem (claim_cycle p now) Q.
Proof.
  intros Hp He Ha. apply steps_bind, steps_transition; [done|done|]. intros Ho.
  apply steps_bind, steps_store; [field_access|]. apply steps_ret. by apply Ha.
Qed.

Definition result_mem (mem : Mem) p (status now : Z) : Mem :=
  set_field (set_field mem p abi.STATE0_STATUS 4 (wrap 32 status)) p abi.FINISH_TIME 8 now.
Definition wrote_result p (status now : Z) : list Event :=
  [wrote p abi.STATE0_STATUS 4 (wrap 32 status); wrote p abi.FINISH_TIME 8 now].

Lemma steps_publish_result P mem p status now Q :
  view_ok p →
  (∀ e, (owned P p → field (result_mem mem p status now) p abi.STATUS 4 ≠ status_value Awake) →
    Q (Err e) (result_mem mem p status now) (wrote_result p status now)) →
  ((owned P p → field (result_mem mem p status now) p abi.STATUS 4 = status_value Awake) →
   Q (Ok tt) (set_status (result_mem mem p status now) p Finished)
     (wrote_result p status now ++ [wrote_status p Finished])) →
  steps P mem (publish_result_and_finish p status now) Q.
Proof.
  intros Hp He Ha. apply steps_bind, steps_store; [field_access|].
  apply steps_bind, steps_store; [field_access|].
  apply steps_transition; [done|..].
  - intros e Ho. apply He. intros. by apply Ho.
  - intros Ho. by apply Ha.
Qed.
End rules.

(** Words that do not overlap do not interfere. *)
Lemma field_set_same mem p off n v : field (set_field mem p off n v) p off n = v mod 2 ^ (8 * Z.of_nat n).
Proof. apply mem_word_store. Qed.
Lemma field_set_other mem p off n v off' n' :
  off' + Z.of_nat n' ≤ off ∨ off + Z.of_nat n ≤ off' →
  field (set_field mem p off n v) p off' n' = field mem p off' n'.
Proof. intros H. apply mem_word_store_other. lia. Qed.

(** ** The dependency counter *)

(** The memory after the others have moved [k] times. *)
Fixpoint moved (k : nat) (fs : list (Mem → Mem)) (m : Mem) : Mem :=
  match k, fs with S k, f :: fs => moved k fs (f m) | _, _ => m end.
Definition pending_of (m : Mem) (p : Ptr) : Z := swrap 32 (field m p abi.STATE0_PENDING 4).

Lemma foreign_step_moved {K} (w : World K) :
  ∃ k, (k ≤ length (w_foreign w))%nat ∧ (w_foreign w ≠ [] → (0 < k)%nat) ∧
    w_mem (foreign_step w) = moved k (w_foreign w) (w_mem w) ∧
    w_foreign (foreign_step w) = drop k (w_foreign w).
Proof.
  unfold foreign_step. destruct (w_foreign w) as [|f fs] eqn:Hf.
  - exists 0%nat. by rewrite Hf.
  - exists 1%nat. simpl. rewrite drop_0. split_and!; [lia|lia|by destruct fs|done].
Qed.

Lemma moved_add k j fs m : moved j (drop k fs) (moved k fs m) = moved (k + j) fs m.
Proof.
  revert fs m. induction k as [|k IH]; intros fs m; [done|]. destruct fs as [|f fs]; simpl; [|apply IH].
  by destruct j.
Qed.

(** What the loop has done when it ends: nothing, because the count it found
    in memory was not positive; or one exchange, in a memory that held the
    count it returns. *)
Definition decremented {K} (p : Ptr) (w w' : World K) (r : Res ActivationError Z) : Prop :=
  w_ub w' = w_ub w ∧
  ∃ k, (k ≤ length (w_foreign w))%nat ∧ w_foreign w' = drop k (w_foreign w) ∧
    let now := moved k (w_foreign w) (w_mem w) in
    match r with
    | Ok c => 0 < c ∧ pending_of now p = c ∧
              w_mem w' = set_field now p abi.STATE0_PENDING 4 (wrap 32 (c - 1)) ∧
              w_log w' = w_log w ++ [wrote p abi.STATE0_PENDING 4 (wrap 32 (c - 1))]
    | Err e => ∃ c, e = InvalidPending c ∧ c ≤ 0 ∧ pending_of now p = c ∧
              w_mem w' = now ∧ w_log w' = w_log w
    | Panic => False
    end.

Lemma decremented_step {K} p (w w1 w' : World K) k r :
  w_ub w1 = w_ub w → w_log w1 = w_log w → (k ≤ length (w_foreign w))%nat →
  w_mem w1 = moved k (w_foreign w) (w_mem w) → w_foreign w1 = drop k (w_foreign w) →
  decremented p w1 w' r → decremented p w w' r.
Proof.
  intros Hu Hl Hk Hm Hf (Hu' & j & Hj & Hf' & H). split; [congruence|]. exists (k + j)%nat.
  rewrite Hf, length_drop in Hj. rewrite Hf, Hm, moved_add in H. rewrite <- Hl.
  split_and!; [lia|by rewrite Hf', Hf, drop_drop|done].
Qed.

Lemma pending_word p (m : Mem) c :
  pending_of m p = c → mem_word m (p_obj p) (p_off p + abi.STATE0_PENDING) 4 = wrap 32 c.
Proof.
  intros <-. symmetry. apply u32_i32_u32.
  apply (mem_word_range m (p_obj p) (p_off p + abi.STATE0_PENDING) 4).
Qed.

Lemma decrement_loop_spec {K} fuel p (w : World K) c :
  view_ok p → (length (w_foreign w) < fuel)%nat → pending_of (w_mem w) p = c →
  let '(w', r) := decrement_loop fuel p c w in decremented p w w' r.
Proof.
  intros Hp. revert w c. induction fuel as [|fuel IH]; intros w c Hlt Hc; [lia|]. cbn [decrement_loop].
  case_bool_decide.
  { split; [done|]. exists 0%nat. split_and!; [lia|by rewrite drop_0|]. exists c. split_and!; done. }
  unfold mbind, sm_bind, compare_exchange.
  destruct (foreign_step_moved w) as (k & Hk & Hpos & Hm & Hf).
  destruct (foreign_step_same w) as (Hu & Hl & Hlen).
  assert (access_ok p abi.STATE0_PENDING 4 = true) as -> by field_access.
  case_bool_decide as Hfound.
  - split; [done|]. exists k. split_and!; [done..|].
    assert (pending_of (moved k (w_foreign w) (w_mem w)) p = c).
    { unfold pending_of, field. rewrite <- Hm, Hfound, swrap_wrap by done. rewrite <- Hc.
      apply (swrap_small 32); [apply i32_of_u32_range|done]. }
    cbn [set_mem w_mem w_log]. unfold set_field. rewrite Hm, Hl. split_and!; [lia|done..].
  - pose proof (IH (foreign_step w) (swrap 32 (mem_word (w_mem (foreign_step w)) (p_obj p)
      (p_off p + abi.STATE0_PENDING) 4))) as IHw.
    destruct (decrement_loop fuel p _ (foreign_step w)) as [w' r].
    apply (decremented_step p w (foreign_step w) w' k); [done..|]. apply IHw; [|done].
    destruct (decide (w_foreign w = [])) as [Hnil|Hnil].
    + destruct Hfound. apply pending_word. rewrite Hm, Hnil. by destruct k.
    + specialize (Hpos Hnil). rewrite Hf, length_drop. lia.
Qed.

Lemma decrement_pending_spec {K} p (w : World K) :
  view_ok p → let '(w', r) := decrement_pending p w in decremented p w w' r.
Proof.
  intros Hp. unfold decrement_pending, pending, mbind, sm_bind, load.
  assert (access_ok p abi.STATE0_PENDING 4 = true) as -> by field_access.
  destruct (foreign_step_moved w) as (k & Hk & Hpos & Hm & Hf).
  destruct (foreign_step_same w) as (Hu & Hl & Hlen). unfold mret, sm_ret.
  pose proof (decrement_loop_spec (S (length (w_foreign w))) p (foreign_step w)
    (swrap 32 (mem_word (w_mem (foreign_step w)) (p_obj p) (p_off p + abi.STATE0_PENDING) 4)) Hp
    ltac:(lia) eq_refl) as H.
  destruct (decrement_loop _ p _ (foreign_step w)) as [w' r].
  by apply (decremented_step p w (foreign_step w) w' k).
Qed.

(** With the counter owned, one exchange does it. *)
Lemma steps_decrement_pending {K} P mem p Q :
  view_ok p →
  (∀ c, (owned P p → pending_of mem p = c) → c ≤ 0 → Q (Err (InvalidPending c)) mem []) →
  (∀ c, (owned P p → pending_of mem p = c) → 0 < c →
    Q (Ok c) (set_field mem p abi.STATE0_PENDING 4 (wrap 32 (c - 1)))
      [wrote p abi.STATE0_PENDING 4 (wrap 32 (c - 1))]) →
  steps (K:=K) P mem (decrement_pending p) Q.
Proof.
  intros Hp He Ha w Hw. pose proof (decrement_pending_spec p w Hp) as H.
  destruct (decrement_pending p w) as [w' r]. destruct H as (Hu & k & Hk & Hf & H). simpl in *.
  assert (tracks P mem (mkWorld (moved k (w_foreign w) (w_mem w)) (drop k (w_foreign w))
    (w_kernel w') (w_ub w') (w_log w'))) as Ht.
  { clear -Hw. destruct Hw as [Hq Hm]. split; simpl; [by apply Forall_drop|].
    intros b o HP. rewrite <- Hm by done. clear Hm. revert k Hq. generalize (w_mem w).
    induction (w_foreign w) as [|f fs IH]; intros m k Hq; [by destruct k|].
    apply Forall_cons in Hq as [Hf Hq]. destruct k as [|k]; [done|]. simpl. by rewrite IH, Hf. }
  assert (∀ c, pending_of (moved k (w_foreign w) (w_mem w)) p = c → owned P p → pending_of mem p = c) as Hpend.
  { intros c <- Ho. unfold pending_of, field. f_equal. symmetry.
    apply (tracks_word P mem _ p abi.STATE0_PENDING 4 Ht). field_owned. }
  split; [done|]. split; [rewrite Hf, length_drop; lia|].
  destruct r as [c|e|]; [|destruct H as (c & -> & ? & Hc & Hm & Hl)|done].
  - destruct H as (Hpos & Hc & Hm & Hl). eexists _, _. split_and!; [|done|by apply Ha; eauto].
    split; [rewrite Hf; apply Ht|]. intros b o HP. rewrite Hm. unfold set_field, mem_store, mem_write.
    case_bool_decide; [done|by apply Ht].
  - exists mem, []. rewrite app_nil_r. split_and!; [|done|by apply He; eauto].
    split; [rewrite Hf; apply Ht|]. rewrite Hm. apply Ht.
Qed.

(** The outcomes of [decrement_pending_and_trigger]. *)
Definition pending_set (mem : Mem) (p : Ptr) (c : Z) : Mem :=
  set_field mem p abi.STATE0_PENDING 4 (wrap 32 c).
Definition triggered_mem (mem : Mem) (p : Ptr) (now : Z) : Mem :=
  set_field (set_status (pending_set mem p 0) p Triggered) p abi.SIGNAL_TIME 8 now.
Inductive trigger_spec (P : BackingIdentity → Z → Prop) (mem : Mem) (p : Ptr) (now : Z) :
    Res ActivationError TriggerOutcome → Mem → list Event → Prop :=
| trigger_none c :
    (owned P p → pending_of mem p = c) → c ≤ 0 →
    trigger_spec P mem p now (Err (InvalidPending c)) mem []
| trigger_waiting c :
    (owned P p → pending_of mem p = c) → 1 < c →
    trigger_spec P mem p now (Ok (Waiting (c - 1))) (pending_set mem p (c - 1))
      [wrote p abi.STATE0_PENDING 4 (wrap 32 (c - 1))]
| trigger_refused e :
    (owned P p → pending_of mem p = 1 ∧ field mem p abi.STATUS 4 ≠ status_value NotTriggered) →
    trigger_spec P mem p now (Err e) (pending_set mem p 0) [wrote p abi.STATE0_PENDING 4 (wrap 32 0)]
| trigger_done :
    (owned P p → pending_of mem p = 1 ∧ field mem p abi.STATUS 4 = status_value NotTriggered) →
    trigger_spec P mem p now (Ok PeerTriggered) (triggered_mem mem p now)
      [wrote p abi.STATE0_PENDING 4 (wrap 32 0); wrote_status p Triggered; wrote p abi.SIGNAL_TIME 8 now].

Lemma steps_trigger {K} P mem p now :
  view_ok p → steps (K:=K) P mem (decrement_pending_and_trigger p now) (trigger_spec P mem p now).
Proof.
  intros Hp. apply steps_bind, steps_decrement_pending; [done|by intros; constructor|].
  intros c Hc Hpos. case_bool_decide; [apply steps_ret; by apply trigger_waiting|].
  assert (c = 1) as -> by lia.
  assert (∀ c, field (pending_set mem p c) p abi.STATUS 4 = field mem p abi.STATUS 4) as Hs.
  { intros. apply field_set_other. unfold abi.STATUS, abi.STATE0_PENDING. lia. }
  apply steps_bind, steps_transition; [done|..].
  - intros e He. apply trigger_refused. intros Ho. split; [by apply Hc|]. rewrite <- (Hs 0). by apply He.
  - intros He. apply steps_bind, steps_store; [field_access|]. apply steps_ret, trigger_done.
    intros Ho. split; [by apply Hc|]. rewrite <- (Hs 0). by apply He.
Qed.

(** ** Properties *)

(** Somebody else's atomic decrement of the same counter. *)
Definition decrement (p : Ptr) (m : Mem) : Mem := pending_set m p (pending_of m p - 1).
(** Others who decrement, or do nothing, before each access of ours. *)
Definition others (p : Ptr) (bs : list bool) : list (Mem → Mem) :=
  (λ b : bool, if b then decrement p else id) <$> bs.
Definition decrements (bs : list bool) : Z := len (filter (λ b, b = true) bs).

Lemma pending_set_of m p c : i32_range c → pending_of (pending_set m p c) p = c.
Proof.
  intros Hc. unfold pending_of, pending_set. rewrite field_set_same.
  change (wrap 32 c mod 2 ^ (8 * Z.of_nat 4)) with (wrap 32 (wrap 32 c)).
  rewrite !swrap_wrap by done. apply (swrap_small 32); [done|lia].
Qed.
Lemma pending_of_range m p : i32_range (pending_of m p).
Proof. apply i32_of_u32_range. Qed.

Lemma decrements_cons b bs : decrements (b :: bs) = (if b then 1 else 0) + decrements bs.
Proof. unfold decrements. rewrite filter_cons. destruct b; simpl; [by rewrite len_cons|lia]. Qed.

Lemma moved_others k p bs m :
  decrements bs ≤ pending_of m p →
  pending_of (moved k (others p bs) m) p = pending_of m p - decrements (take k bs).
Proof.
  revert bs m. induction k as [|k IH]; intros bs m Hlt; [simpl; unfold decrements, len; simpl; lia|].
  destruct bs as [|b bs]; [unfold decrements, len; simpl; lia|]. simpl.
  rewrite decrements_cons. rewrite decrements_cons in Hlt.
  assert (0 ≤ decrements bs) by apply len_nonneg. pose proof (pending_of_range m p) as Hr.
  unfold i32_range in Hr. destruct b; simpl.
  - rewrite IH; unfold decrement; rewrite pending_set_of; try lia; unfold i32_range; lia.
  - unfold id. rewrite IH; lia.
Qed.

(** C30: Decrementing a peer's dependency count loses no update. However many
    times the others change memory meanwhile, the compare-and-swap loop ends
    without an undefined access, and either it found the count not positive
    and changed nothing, or it replaced one positive count by its
    predecessor in one step. So, when the others decrement the same counter
    concurrently and the count covers all of them, every decrement is
    counted, and we are the one who sees the count reach zero exactly when
    it covered just these decrements and all the others came first. *)
Theorem pending_decrement_atomic {K} (w : World K) (view : Ptr) :
  view_ok view →
  let '(w', r) := decrement_pending view w in
  decremented view w w' r ∧
  ∀ bs, w_foreign w = others view bs → decrements bs < pending_of (w_mem w) view →
    ∃ bs1 bs2 c, bs = bs1 ++ bs2 ∧ r = Ok c ∧ w_foreign w' = others view bs2 ∧
      pending_of (moved (length bs2) (others view bs2) (w_mem w')) view
      = pending_of (w_mem w) view - decrements bs - 1 ∧
      (c = 1 ↔ decrements bs2 = 0 ∧ pending_of (w_mem w) view = decrements bs + 1).
Proof.
  intros Hp. pose proof (decrement_pending_spec view w Hp) as H.
  destruct (decrement_pending view w) as [w' r]. split; [done|]. intros bs Hf Hn.
  destruct H as (_ & k & Hk & Hf' & H). rewrite Hf in Hk, Hf', H. simpl in H.
  pose proof (moved_others k view bs (w_mem w) ltac:(lia)) as Hmv.
  assert (decrements bs = decrements (take k bs) + decrements (drop k bs)) as Hsum.
  { rewrite <- (take_drop k bs) at 1. unfold decrements. by rewrite filter_app, len_app. }
  assert (0 ≤ decrements (drop k bs)) by apply len_nonneg.
  assert (0 ≤ decrements (take k bs)) by apply len_nonneg.
  pose proof (pending_of_range (w_mem w) view) as Hr. unfold i32_range in Hr.
  exists (take k bs), (drop k bs), (pending_of (w_mem w) view - decrements (take k bs)).
  destruct r as [c|e|]; [|destruct H as (c & -> & ? & <- & _); lia|done].
  destruct H as (Hpos & Hc & Hm & _). rewrite Hmv in Hc.
  assert (pending_of (w_mem w') view = c - 1) as Hw'.
  { rewrite Hm. apply pending_set_of. unfold i32_range. lia. }
  split_and!; [by rewrite take_drop|by f_equal|by rewrite Hf'; unfold others; rewrite <- fmap_drop| |lia].
  rewrite moved_others by lia. rewrite take_ge by done. lia.
Qed.

Lemma pending_decrement_atomic_witness :
  let view := mkPtr 4096 (mkBacking 8 77) 0 2312 in
  let w := mkWorld (pending_set (λ _ _, Byte.x00) view 3) (others view [true; false; true]) tt false [] in
  let '(w', r) := decrement_pending view w in
  ∃ bs1 bs2 c, [true; false; true] = bs1 ++ bs2 ∧ r = Ok c ∧ w_foreign w' = others view bs2 ∧
    pending_of (moved (length bs2) (others view bs2) (w_mem w')) view = 0.
Proof.
  intros view w. assert (view_ok view) as H by done.
  pose proof (pending_decrement_atomic w view H) as Hd.
  destruct (decrement_pending view w). destruct Hd as [_ Hd].
  destruct (Hd [true; false; true] eq_refl) as (bs1 & bs2 & c & ? & ? & ? & Hc & _); [by vm_compute|].
  exists bs1, bs2, c. split_and!; [done..|]. rewrite Hc. by vm_compute.
Defined.
