(* ===== verification/NodePort.v ===== *)
(** * Port records in shared memory

    Models [node/src/session/port/mod.rs] with its ABI table
    [session/port/abi/x86_64_unknown_linux_gnu.rs]: the [spa_io_buffers]
    record that selects a buffer, the [spa_chunk] record that describes its
    contents, and an output buffer made of a chunk and a media plane. *)

From S2P Require Import Prelude NodeMemory NodeShared.

Module port_abi.
Definition IO_BUFFERS_SIZE : Z := 8.
Definition IO_BUFFERS_ALIGN : Z := 4.
Definition IO_STATUS : Z := 0.
Definition IO_BUFFER_ID : Z := 4.
Definition CHUNK_SIZE : Z := 16.
Definition CHUNK_ALIGN : Z := 4.
Definition CHUNK_OFFSET : Z := 0.
Definition CHUNK_DATA_SIZE : Z := 4.
Definition CHUNK_STRIDE : Z := 8.
Definition CHUNK_FLAGS : Z := 12.
End port_abi.

Inductive PortIoType := Buffers | AsyncBuffers.
#[global] Instance PortIoType_eq_dec : EqDecision PortIoType.
Proof. solve_decision. Defined.

Inductive BufferStatus := BsOk | NeedData | HaveData | BsStopped | Drained.
Definition buffer_status_value (s : BufferStatus) : Z :=
  match s with BsOk => 0 | NeedData => 1 | HaveData => 2 | BsStopped => 4 | Drained => 8 end.

Record BuffersIoState := mkIoState { io_status : Z; io_buffer_id : Z }.
Record ChunkState := mkChunk { c_offset : Z; c_size : Z; c_stride : Z; c_flags : Z }.

Inductive PortError :=
| PortNull (record : string)
| InvalidSize (record : string) (actual required : Z)
| PortMisaligned (record : string) (address required : Z)
| AsyncBuffersUnsupported
| MediaRegionTooLarge
| ZeroMaxSize
| MaxSizeOutOfRange (n : Z)
| MediaRangeOverflow
| MediaRangeOutOfBounds (end_ available : Z)
| WrappedChunk (offset size max_size : Z)
| InvalidStride (stride max_size : Z).

(** The views are pointers to their records. *)
Record OutputBuffer := mkOutputBuffer {
  ob_chunk : Ptr;
  ob_media : Ptr;
  ob_max_size : Z;
  ob_data_offset : Z;
}.

Section port.
Context {K : Type}.
Notation M := (SM (World K) PortError).

Definition checked_record (base : Ptr) (len required align : Z) (record : string) : M Ptr :=
  valid_region base len;;
  if bool_decide (p_addr base = 0) then throw (PortNull record) else
  if bool_decide (len ≠ required) then throw (InvalidSize record len required) else
  if bool_decide (p_addr base mod align ≠ 0) then throw (PortMisaligned record (p_addr base) align) else
  mret (mkPtr (p_addr base) (p_obj base) (p_off base) len).

Definition BuffersIoView_from_raw_parts (kind : PortIoType) (base : Ptr) (len : Z) : M Ptr :=
  if bool_decide (kind = AsyncBuffers) then throw AsyncBuffersUnsupported else
  checked_record base len port_abi.IO_BUFFERS_SIZE port_abi.IO_BUFFERS_ALIGN "spa_io_buffers".

Definition io_state {E} (io : Ptr) : SM (World K) E BuffersIoState :=
  status ← load io port_abi.IO_STATUS 4;
  buffer_id ← load io port_abi.IO_BUFFER_ID 4;
  mret (mkIoState (swrap 32 status) buffer_id).

Definition publish_io {E} (status : BufferStatus) (io : Ptr) (buffer_id : Z) : SM (World K) E unit :=
  store io port_abi.IO_BUFFER_ID 4 buffer_id;;
  store io port_abi.IO_STATUS 4 (wrap 32 (buffer_status_value status)).
Definition publish_have_data {E} (io : Ptr) (buffer_id : Z) : SM (World K) E unit :=
  publish_io HaveData io buffer_id.
Definition publish_need_data {E} (io : Ptr) (buffer_id : Z) : SM (World K) E unit :=
  publish_io NeedData io buffer_id.

Definition ChunkView_from_raw_parts (base : Ptr) (len : Z) : M Ptr :=
  checked_record base len port_abi.CHUNK_SIZE port_abi.CHUNK_ALIGN "spa_chunk".

Definition chunk_state {E} (chunk : Ptr) : SM (World K) E ChunkState :=
  offset ← load chunk port_abi.CHUNK_OFFSET 4;
  size ← load chunk port_abi.CHUNK_DATA_SIZE 4;
  stride ← load chunk port_abi.CHUNK_STRIDE 4;
  flags ← load chunk port_abi.CHUNK_FLAGS 4;
  mret (mkChunk offset size (swrap 32 stride) flags).

Definition chunk_publish {E} (chunk : Ptr) (s : ChunkState) : SM (World K) E unit :=
  store chunk port_abi.CHUNK_OFFSET 4 (c_offset s);;
  store chunk port_abi.CHUNK_DATA_SIZE 4 (c_size s);;
  store chunk port_abi.CHUNK_STRIDE 4 (wrap 32 (c_stride s));;
  store chunk port_abi.CHUNK_FLAGS 4 (c_flags s).

Definition OutputBuffer_from_raw_parts (chunk_base : Ptr) (chunk_len : Z) (media_base : Ptr)
    (media_len map_offset max_size : Z) : M OutputBuffer :=
  valid_region media_base media_len;;
  chunk ← ChunkView_from_raw_parts chunk_base chunk_len;
  if bool_decide (p_addr media_base = 0) then throw (PortNull "media plane") else
  if bool_decide (media_len > isize_max) then throw MediaRegionTooLarge else
  if bool_decide (max_size = 0) then throw ZeroMaxSize else
  if bool_decide (max_size > u32_max) then throw (MaxSizeOutOfRange max_size) else
  end_ ← pure (ok_or (checked_add 64 map_offset max_size) MediaRangeOverflow);
  if bool_decide (end_ > media_len) then throw (MediaRangeOutOfBounds end_ media_len) else
  state ← chunk_state chunk;
  let data_offset := c_offset state mod max_size in
  room ← pure (usize_sub max_size data_offset);
  if bool_decide (c_size state > room) then throw (WrappedChunk data_offset (c_size state) max_size) else
  if bool_decide (c_stride state < 0 ∨ c_stride state > max_size)
  then throw (InvalidStride (c_stride state) max_size) else
  media ← ptr_add media_base map_offset;
  mret (mkOutputBuffer chunk media max_size data_offset).

(** [capacity] and the length of [media_capacity]. The subtraction is
    unchecked in the code; it cannot overflow (below). *)
Definition ob_capacity (b : OutputBuffer) : Z := ob_max_size b - ob_data_offset b.

Definition ob_publish (b : OutputBuffer) (bytes_used stride flags : Z) : M unit :=
  if bool_decide (stride > ob_max_size b ∨ stride > 2 ^ 31 - 1)
  then throw (InvalidStride (Z.min stride (2 ^ 31 - 1)) (ob_max_size b)) else
  chunk_publish (ob_chunk b)
    (mkChunk (wrap 32 (ob_data_offset b)) (wrap 32 bytes_used) (swrap 32 stride) flags).

Definition ob_abort {E} (b : OutputBuffer) : SM (World K) E unit :=
  state ← chunk_state (ob_chunk b);
  chunk_publish (ob_chunk b) (mkChunk (c_offset state) 0 (c_stride state) (c_flags state)).
End port.

(** ** Accesses of the views are defined *)

(** A record of [n] bytes made of 32-bit words. *)
Definition record_ok (p : Ptr) (n : Z) : Prop := p_room p = n ∧ p_addr p mod 4 = 0.

Lemma word_ok p n off :
  record_ok p n → 0 ≤ off → off + 4 ≤ n → off mod 4 = 0 → access_ok p off 4 = true.
Proof.
  intros [Hr Ha] ? ? Ho. unfold access_ok. apply andb_true_iff.
  split; apply bool_decide_eq_true; [lia|].
  change (Z.of_nat 4) with 4. rewrite Z.add_mod, Ha, Ho by done. done.
Qed.
Ltac word_access :=
  eapply word_ok; [eassumption
                  |unfold port_abi.IO_STATUS, port_abi.IO_BUFFER_ID, port_abi.CHUNK_OFFSET,
                     port_abi.CHUNK_DATA_SIZE, port_abi.CHUNK_STRIDE, port_abi.CHUNK_FLAGS;
                   first [done|lia]..].

(** The words of a record in memory. *)
Definition word (mem : Mem) (p : Ptr) (off : Z) : Z := mem_word mem (p_obj p) (p_off p + off) 4.
Definition io_of (mem : Mem) (io : Ptr) : BuffersIoState :=
  mkIoState (swrap 32 (word mem io port_abi.IO_STATUS)) (word mem io port_abi.IO_BUFFER_ID).
Definition chunk_of (mem : Mem) (chunk : Ptr) : ChunkState :=
  mkChunk (word mem chunk port_abi.CHUNK_OFFSET) (word mem chunk port_abi.CHUNK_DATA_SIZE)
    (swrap 32 (word mem chunk port_abi.CHUNK_STRIDE)) (word mem chunk port_abi.CHUNK_FLAGS).
Definition put_word (mem : Mem) (p : Ptr) (off v : Z) : Mem :=
  mem_store mem (p_obj p) (p_off p + off) 4 v.
Definition wrote_word (p : Ptr) (off v : Z) : Event := EvStore (p_obj p) (p_off p + off) 4 v.

Definition put_io (mem : Mem) (io : Ptr) (s : BufferStatus) (id : Z) : Mem :=
  put_word (put_word mem io port_abi.IO_BUFFER_ID id) io port_abi.IO_STATUS
    (wrap 32 (buffer_status_value s)).
Definition wrote_io (io : Ptr) (s : BufferStatus) (id : Z) : list Event :=
  [wrote_word io port_abi.IO_BUFFER_ID id;
   wrote_word io port_abi.IO_STATUS (wrap 32 (buffer_status_value s))].
Definition put_chunk (mem : Mem) (c : Ptr) (s : ChunkState) : Mem :=
  put_word (put_word (put_word (put_word mem c port_abi.CHUNK_OFFSET (c_offset s))
    c port_abi.CHUNK_DATA_SIZE (c_size s)) c port_abi.CHUNK_STRIDE (wrap 32 (c_stride s)))
    c port_abi.CHUNK_FLAGS (c_flags s).
Definition wrote_chunk (c : Ptr) (s : ChunkState) : list Event :=
  [wrote_word c port_abi.CHUNK_OFFSET (c_offset s); wrote_word c port_abi.CHUNK_DATA_SIZE (c_size s);
   wrote_word c port_abi.CHUNK_STRIDE (wrap 32 (c_stride s));
   wrote_word c port_abi.CHUNK_FLAGS (c_flags s)].

(** Chunk words as the types of their fields allow. *)
Definition chunk_range (s : ChunkState) : Prop :=
  u32_range (c_offset s) ∧ u32_range (c_size s) ∧ i32_range (c_stride s) ∧ u32_range (c_flags s).

Section rules.
Context {K : Type}.
Implicit Types (P : BackingIdentity → Z → Prop) (mem : Mem) (p : Ptr).
Notation steps := (steps (K:=K)).

Lemma covers_sub P p a n off k :
  covers P p a n → a ≤ off → off + k ≤ a + n → covers P p off k.
Proof. intros H ? ? o ?. apply H. lia. Qed.

Lemma steps_checked_record P mem p n required align record Q :
  n ≤ p_room p → (∀ e, (p_addr p ≠ 0 → n = required → p_addr p mod align ≠ 0) → Q (Err e) mem []) →
  (p_addr p ≠ 0 → n = required → p_addr p mod align = 0 →
    Q (Ok (mkPtr (p_addr p) (p_obj p) (p_off p) n)) mem []) →
  steps P mem (checked_record p n required align record) Q.
Proof.
  intros Hn He Ha. apply steps_bind, steps_valid_region; [done|]. simpl.
  case_bool_decide; [apply steps_throw, He; naive_solver|].
  case_bool_decide; [apply steps_throw, He; naive_solver|].
  case_bool_decide; [apply steps_throw, He; naive_solver|]. apply steps_ret, Ha; [done|naive_solver..].
Qed.

Lemma steps_io_state {E} P mem io Q :
  record_ok io 8 →
  (∀ s, i32_range (io_status s) → u32_range (io_buffer_id s) →
    (covers P io 0 8 → s = io_of mem io) → Q (Ok s) mem []) →
  @NodeShared.steps K E _ P mem (io_state io) Q.
Proof.
  intros Hio HQ. apply steps_bind, steps_load; [word_access|]. intros st Hst1 Hst.
  apply steps_bind, steps_load; [word_access|]. intros id Hid1 Hid. apply steps_ret, HQ.
  - apply i32_of_u32_range.
  - done.
  - intros Hc. unfold io_of, word.
    rewrite <- Hst, <- Hid; [done|by eapply covers_sub..].
Qed.

Lemma steps_publish_io {E} P mem s io id Q :
  record_ok io 8 → Q (Ok tt) (put_io mem io s id) (wrote_io io s id) →
  @NodeShared.steps K E _ P mem (publish_io s io id) Q.
Proof.
  intros Hio HQ. apply steps_bind, steps_store; [word_access|]. by apply steps_store; [word_access|].
Qed.

Lemma steps_chunk_state {E} P mem c Q :
  record_ok c 16 →
  (∀ s, chunk_range s → (covers P c 0 16 → s = chunk_of mem c) → Q (Ok s) mem []) →
  @NodeShared.steps K E _ P mem (chunk_state c) Q.
Proof.
  intros Hio HQ. apply steps_bind, steps_load; [word_access|]. intros a Ha1 Ha.
  apply steps_bind, steps_load; [word_access|]. intros b Hb1 Hb.
  apply steps_bind, steps_load; [word_access|]. intros d Hd1 Hd.
  apply steps_bind, steps_load; [word_access|]. intros f Hf1 Hf. apply steps_ret, HQ.
  - split_and!; simpl; [done..| |done]. apply i32_of_u32_range.
  - intros Hc. unfold chunk_of, word.
    rewrite <- Ha, <- Hb, <- Hd, <- Hf; [done|by eapply covers_sub..].
Qed.

Lemma steps_chunk_publish {E} P mem c s Q :
  record_ok c 16 → Q (Ok tt) (put_chunk mem c s) (wrote_chunk c s) →
  @NodeShared.steps K E _ P mem (chunk_publish c s) Q.
Proof.
  intros Hc HQ. do 3 (apply steps_bind, steps_store; [word_access|]).
  by apply steps_store; [word_access|].
Qed.

(** The pointers of an output buffer cover its chunk and its plane. *)
Definition buffer_ok (b : OutputBuffer) : Prop :=
  record_ok (ob_chunk b) 16 ∧ 0 ≤ ob_data_offset b < ob_max_size b ∧
  ob_max_size b ≤ u32_max ∧ ob_max_size b ≤ p_room (ob_media b).

(** A chunk that can be given a plane of [n] bytes: it does not wrap, and
    its stride fits. *)
Definition chunk_fits (s : ChunkState) (n : Z) : Prop :=
  c_size s ≤ n - c_offset s mod n ∧ 0 ≤ c_stride s ≤ n.

Lemma steps_output_buffer P mem chunk media n Q :
  16 ≤ p_room chunk → n ≤ p_room media → 0 ≤ n →
  (∀ e, (p_addr chunk ≠ 0 → p_addr chunk mod 4 = 0 → p_addr media ≠ 0 → 0 < n ≤ u32_max →
         covers P chunk 0 16 → ¬ chunk_fits (chunk_of mem chunk) n) → Q (Err e) mem []) →
  (∀ s, let b := mkOutputBuffer (mkPtr (p_addr chunk) (p_obj chunk) (p_off chunk) 16)
          (mkPtr (p_addr media + 0) (p_obj media) (p_off media + 0) (p_room media - 0)) n
          (c_offset s mod n) in
    buffer_ok b → chunk_fits s n → (covers P chunk 0 16 → s = chunk_of mem chunk) → Q (Ok b) mem []) →
  steps P mem (OutputBuffer_from_raw_parts chunk 16 media n 0 n) Q.
Proof.
  intros Hc Hm Hn He Ha. apply steps_bind, steps_valid_region; [done|].
  apply steps_bind, steps_checked_record; [done|by intros e Hx; apply He; naive_solver|].
  intros Hnull _ Halign. set (c := mkPtr _ _ _ _).
  assert (record_ok c 16) as Hok by done.
  case_bool_decide; [by apply steps_throw, He|]. 
  case_bool_decide; [apply steps_throw, He; unfold u32_max, isize_max in *; lia|].
  case_bool_decide; [apply steps_throw, He; lia|].
  case_bool_decide; [apply steps_throw, He; unfold u32_max in *; lia|].
  apply steps_bind, steps_pure. unfold checked_add, u32_max, isize_max in *.
  rewrite bool_decide_eq_true_2 by lia. simpl.
  rewrite bool_decide_eq_false_2 by lia.
  apply steps_bind, (steps_chunk_state P mem c); [done|]. intros s (Hso & Hss & Hst & Hsf) Hs.
  change (covers P chunk 0 16 → s = chunk_of mem chunk) in Hs.
  pose proof (Z.mod_pos_bound (c_offset s) n ltac:(lia)).
  apply steps_bind, steps_pure. unfold usize_sub. rewrite bool_decide_eq_true_2 by lia. simpl.
  case_bool_decide.
  { apply steps_throw, He. intros _ _ _ _ Hcov [Hf _]. rewrite <- Hs in Hf by done. lia. }
  case_bool_decide.
  { apply steps_throw, He. intros _ _ _ _ Hcov [_ Hf]. rewrite <- Hs in Hf by done. lia. }
  apply steps_bind, steps_ptr_add; [lia|]. apply steps_ret. apply Ha; [|split; lia|done].
  split_and!; simpl; unfold u32_max; try done; lia.
Qed.

Lemma steps_ob_publish P mem b bytes stride flags Q :
  record_ok (ob_chunk b) 16 →
  (∀ e, stride > ob_max_size b ∨ stride > 2 ^ 31 - 1 → Q (Err e) mem []) →
  (let s := mkChunk (wrap 32 (ob_data_offset b)) (wrap 32 bytes) (swrap 32 stride) flags in
   stride ≤ ob_max_size b → stride ≤ 2 ^ 31 - 1 →
   Q (Ok tt) (put_chunk mem (ob_chunk b) s) (wrote_chunk (ob_chunk b) s)) →
  steps P mem (ob_publish b bytes stride flags) Q.
Proof.
  intros Hc He Ha. unfold ob_publish. case_bool_decide; [by apply steps_throw, He|].
  apply steps_chunk_publish; [done|]. apply Ha; lia.
Qed.

Definition aborted (s : ChunkState) : ChunkState := mkChunk (c_offset s) 0 (c_stride s) (c_flags s).

Lemma steps_ob_abort {E} P mem b Q :
  record_ok (ob_chunk b) 16 →
  (∀ s, (covers P (ob_chunk b) 0 16 → s = chunk_of mem (ob_chunk b)) →
    Q (Ok tt) (put_chunk mem (ob_chunk b) (aborted s)) (wrote_chunk (ob_chunk b) (aborted s))) →
  @NodeShared.steps K E _ P mem (ob_abort b) Q.
Proof.
  intros Hc HQ. apply steps_bind, steps_chunk_state; [done|]. intros s _ Hs.
  apply steps_chunk_publish; [done|]. by apply HQ.
Qed.
End rules.
