(* ===== verification/NodeCycle.v ===== *)
(** * One output cycle

    Models [node/src/session/cycle.rs] (the buffer the server selected, what
    a callback commits, its publication), the format it is sized by (of
    [session/config.rs]) and the error vocabulary [session/error.rs].

    The application's callback is a parameter: whatever state it keeps, it is
    given the selected cycle with the bytes of its media plane, and leaves
    new bytes and a result, or panics. *)

From S2P Require Import Prelude FrameHeader NodeMemory NodeShared NodeActivation NodePort.

(** ** Formats *)
Inductive AudioSampleFormat := S16Le.
#[global] Instance AudioSampleFormat_eq_dec : EqDecision AudioSampleFormat.
Proof. solve_decision. Defined.

Record NegotiatedAudioFormat := mkFormat {
  sample_format : AudioSampleFormat;
  rate : Z;
  channels : list Z;
  bytes_per_sample : Z;
  frame_stride : Z;
}.
#[global] Instance NegotiatedAudioFormat_eq_dec : EqDecision NegotiatedAudioFormat.
Proof. solve_decision. Defined.

(** ** Errors *)
Inductive CycleError :=
| InvalidBufferId (buffer_id buffer_count : Z)
| CapacityExceeded (requested capacity : Z)
| ChunkSizeOverflow (n : Z)
| FrameCountOverflow (n : Z)
| CyclePort (e : PortError)
| NoCommittedCycle.

Inductive UnsupportedFeature :=
| InputDirection
| MixFeature (mix : Z)
| PortFeature (port : Z)
| AsyncIo
| ClientAllocatedBuffers
| BufferFlags (flags : Z)
| DataPlane
| DataFlags (flags : Z)
| MediaFormat
| SampleFormat (f : Z)
| Parameter_ (id : Z)
| IoType (id : Z).

Inductive SessionError :=
| Unsupported (f : UnsupportedFeature)
| Overflow (what : string)
| TooManyDescriptors (what : string)
| InvalidFormat (what : string)
| SessMemory (e : MemoryError)
| SessActivation (e : ActivationError)
| SessPort (e : PortError)
| SessCycle (e : CycleError)
| Signal (e : SignalError)
| SessStaleGeneration (expected received : Z)
| PeerTrigger (peer : Z) (source : ActivationError)
| PeerSignal (peer : Z) (source : SignalError)
| NotReady (what : string)
| InvalidTransition (what : string)
| CallbackError (message : string)
| CallbackPanicked
| FinishClockPanicked
| SessDisconnected.

(** ** Cycles *)
Record OutputCycle := mkCycle {
  oc_buffer : OutputBuffer;
  oc_buffer_id : Z;
  oc_format : NegotiatedAudioFormat;
}.
Record CommittedOutput := mkCommitted {
  co_buffer_id : Z;
  co_bytes : Z;
  co_stride : Z;
  co_flags : Z;
}.
Record PublishedOutput := mkPublished { po_buffer_id : Z; po_bytes : Z }.

Definition CHUNK_FLAGS_NONE : Z := 0.

(** [OutputCycle::capacity], [frame_capacity] *)
Definition oc_capacity (c : OutputCycle) : Z := ob_capacity (oc_buffer c).
Definition frame_capacity (c : OutputCycle) : Z := oc_capacity c / frame_stride (oc_format c).

Definition commit_bytes (c : OutputCycle) (bytes_used stride flags : Z) : Res CycleError CommittedOutput :=
  let capacity := oc_capacity c in
  if bool_decide (bytes_used > capacity) then Err (CapacityExceeded bytes_used capacity) else
  if bool_decide (bytes_used > u32_max) then Err (ChunkSizeOverflow bytes_used) else
  Ok (mkCommitted (oc_buffer_id c) bytes_used stride flags).

Definition commit (c : OutputCycle) (frames : Z) : Res CycleError CommittedOutput :=
  let stride := frame_stride (oc_format c) in
  bytes ← ok_or (checked_mul 64 frames stride) (FrameCountOverflow frames);
  commit_bytes c bytes stride CHUNK_FLAGS_NONE.

(** [silence] also returns the media it leaves. *)
Definition silence (c : OutputCycle) (media : Z → byte) (frames : Z) :
    Res CycleError ((Z → byte) * CommittedOutput) :=
  let stride := frame_stride (oc_format c) in
  bytes ← ok_or (checked_mul 64 frames stride) (FrameCountOverflow frames);
  if bool_decide (bytes > oc_capacity c) then Err (CapacityExceeded bytes (oc_capacity c)) else
  committed ← commit_bytes c bytes stride CHUNK_FLAGS_NONE;
  Ok (λ i, if bool_decide (0 ≤ i < bytes) then Byte.x00 else media i, committed).

(** [OutputProcess]: the application, with its state, the media it is
    given, the media it leaves and its result. *)
Class OutputProcess (K : Type) := {
  op_process : K → OutputCycle → (Z → byte) → K * (Z → byte) * Res string CommittedOutput;
}.

Definition mem_fill (m : Mem) (b : BackingIdentity) (o n : Z) (g : Z → byte) : Mem := λ b' o',
  if bool_decide (b' = b ∧ o ≤ o' < o + n) then g (o' - o) else m b' o'.

(** Where the media of a cycle starts. *)
Definition media_at (b : OutputBuffer) : Z := p_off (ob_media b) + ob_data_offset b.

Section cycle.
Context {K : Type} `{OutputProcess K}.
Notation M := (SM (World K)).

Definition index {E A} (l : list A) (i : Z) : M E A :=
  match l !! Z.to_nat i with Some a => mret a | None => panic end.

(** [OutputBufferPublisher::select]: the index it stores and the cycle *)
Definition select (io : Ptr) (buffers : list OutputBuffer) (format : NegotiatedAudioFormat) :
    M CycleError (option (Z * OutputCycle)) :=
  state ← io_state io;
  if bool_decide (io_status state ≠ buffer_status_value NeedData) then mret None else
  let i := io_buffer_id state in
  buffer ← pure (ok_or (buffers !! Z.to_nat i) (InvalidBufferId i (len buffers)));
  mret (Some (i, mkCycle buffer i format)).

(** [callback.process(cycle)], on the plane [media_capacity] borrows *)
Definition call_process (c : OutputCycle) : M string CommittedOutput := λ w0,
  let w := foreign_step w0 in
  let b := oc_buffer c in
  let obj := p_obj (ob_media b) in
  if bool_decide (0 ≤ ob_data_offset b ∧ ob_max_size b ≤ p_room (ob_media b)) then
    let '(k, media, r) := op_process (w_kernel w) c (λ i, w_mem w obj (media_at b + i)) in
    (mkWorld (mem_fill (w_mem w) obj (media_at b) (ob_capacity b) media) (w_foreign w) k (w_ub w)
       (w_log w ++ [EvCallback (oc_buffer_id c); EvMedia obj (media_at b) (ob_capacity b)]), r)
  else undefined w.

Definition publish_committed (io : Ptr) (buffers : list OutputBuffer) (selected : option Z)
    (committed : CommittedOutput) : M CycleError PublishedOutput :=
  selected ← pure (ok_or selected NoCommittedCycle);
  if bool_decide (co_buffer_id committed ≠ selected)
  then throw (InvalidBufferId (co_buffer_id committed) (len buffers)) else
  b ← index buffers selected;
  mmap_err CyclePort (ob_publish b (co_bytes committed) (co_stride committed) (co_flags committed));;
  publish_have_data io (co_buffer_id committed);;
  mret (mkPublished (co_buffer_id committed) (co_bytes committed)).

(** [Drop for OutputBufferPublisher] *)
Definition publisher_drop {E} (io : Ptr) (buffers : list OutputBuffer) (selected : option Z) : M E unit :=
  match selected with
  | None => mret tt
  | Some i => b ← index buffers i; ob_abort b;; publish_need_data io i
  end.

(** Leaving a scope by an error or by unwinding runs the destructor first. *)
Definition unwinding {E A} (drop : M E unit) (m : M E A) : M E A := λ w,
  match m w with
  | (w', Ok a) => (w', Ok a)
  | (w', r) => match drop w' with (w'', Panic) => (w'', Panic) | (w'', _) => (w'', r) end
  end.
End cycle.

(** ** What a cycle leaves *)
Section rules.
Context {K : Type} `{OutputProcess K}.
Implicit Types (P : BackingIdentity → Z → Prop) (mem : Mem).
Notation steps := (steps (K:=K)).

Lemma steps_select P mem io buffers format Q :
  record_ok io 8 →
  (∀ e, (covers P io 0 8 → io_status (io_of mem io) = 1 ∧
          len buffers ≤ io_buffer_id (io_of mem io)) → Q (Err e) mem []) →
  ((covers P io 0 8 → io_status (io_of mem io) ≠ 1) → Q (Ok None) mem []) →
  (∀ i b, buffers !! Z.to_nat i = Some b → 0 ≤ i < len buffers →
    (covers P io 0 8 → io_of mem io = mkIoState 1 i) →
    Q (Ok (Some (i, mkCycle b i format))) mem []) →
  steps P mem (select io buffers format) Q.
Proof.
  intros Hio He Hn Hs. apply steps_bind, steps_io_state; [done|]. intros [st i] _ [Hi _] Hst.
  cbn [io_status io_buffer_id] in *.
  case_bool_decide as Hst'; [apply steps_ret, Hn; intros Hc; by rewrite <- Hst|].
  apply steps_bind, steps_pure. destruct (buffers !! Z.to_nat i) as [b|] eqn:Hb; simpl.
  - apply steps_ret, Hs; [done|apply lookup_lt_Some in Hb; unfold len; lia|].
    intros Hc. rewrite <- Hst by done. by f_equal.
  - apply He. intros Hc. rewrite <- Hst by done. split; [done|]. simpl.
    apply lookup_ge_None in Hb. unfold len. lia.
Qed.

Lemma steps_call_process P mem c Q :
  buffer_ok (oc_buffer c) →
  (∀ k k' media0 media r,
    op_process k c media0 = (k', media, r) →
    (covers P (ob_media (oc_buffer c)) (ob_data_offset (oc_buffer c)) (ob_capacity (oc_buffer c)) →
     ∀ i, 0 ≤ i < ob_capacity (oc_buffer c) →
       media0 i = mem (p_obj (ob_media (oc_buffer c))) (media_at (oc_buffer c) + i)) →
    Q r (mem_fill mem (p_obj (ob_media (oc_buffer c))) (media_at (oc_buffer c))
           (ob_capacity (oc_buffer c)) media)
      [EvCallback (oc_buffer_id c);
       EvMedia (p_obj (ob_media (oc_buffer c))) (media_at (oc_buffer c)) (ob_capacity (oc_buffer c))]) →
  steps P mem (call_process c) Q.
Proof.
  intros (Hc & Ho & _ & Hr) HQ w Hw. unfold call_process. rewrite bool_decide_eq_true_2 by lia.
  pose proof (tracks_step _ _ _ Hw) as [Hq Hm]. destruct (foreign_step_same w) as (?&?&?).
  destruct (op_process _ _ _) as [[k media] r] eqn:Hp. cbn [fst snd w_ub w_foreign w_log].
  split_and!; [done..|]. eexists _, _. split_and!; [|simpl; by f_equal|eapply HQ; [done|]].
  - split; [done|]. intros b o HP. simpl. unfold mem_fill. case_bool_decide; [done|by apply Hm].
  - intros Hcov i Hi. apply Hm, Hcov. unfold media_at. lia.
Qed.

Lemma steps_index {E A} P mem (l : list A) i a Q :
  l !! Z.to_nat i = Some a → Q (Ok a) mem [] → @NodeShared.steps K E _ P mem (index l i) Q.
Proof. intros Hl HQ. unfold index. rewrite Hl. by apply steps_ret. Qed.

(** The chunk a commit publishes. *)
Definition committed_chunk (b : OutputBuffer) (c : CommittedOutput) : ChunkState :=
  mkChunk (wrap 32 (ob_data_offset b)) (wrap 32 (co_bytes c)) (swrap 32 (co_stride c)) (co_flags c).

Lemma steps_publish_committed P mem io buffers i b c Q :
  record_ok io 8 → buffers !! Z.to_nat i = Some b → record_ok (ob_chunk b) 16 →
  (∀ e, co_buffer_id c ≠ i ∨ co_stride c > ob_max_size b ∨ co_stride c > 2 ^ 31 - 1 → Q (Err e) mem []) →
  (co_buffer_id c = i → co_stride c ≤ ob_max_size b → co_stride c ≤ 2 ^ 31 - 1 →
   Q (Ok (mkPublished i (co_bytes c)))
     (put_io (put_chunk mem (ob_chunk b) (committed_chunk b c)) io HaveData i)
     (wrote_chunk (ob_chunk b) (committed_chunk b c) ++ wrote_io io HaveData i)) →
  steps P mem (publish_committed io buffers (Some i) c) Q.
Proof.
  intros Hio Hb Hc He Ha. apply steps_bind, steps_pure. simpl.
  case_bool_decide as Hid; [apply steps_throw, He; by left|].
  apply steps_bind, (steps_index _ _ _ _ b); [done|]. simpl.
  apply steps_bind, steps_map_err, steps_ob_publish; [done|intros e Hs; apply He; by right|].
  intros ? ? ?. simpl. apply steps_bind, steps_publish_io; [done|]. apply steps_ret. rewrite Hid. simpl.
  by apply Ha.
Qed.

Lemma steps_drop {E} P mem io buffers i b Q :
  record_ok io 8 → buffers !! Z.to_nat i = Some b → record_ok (ob_chunk b) 16 →
  (∀ s, (covers P (ob_chunk b) 0 16 → s = chunk_of mem (ob_chunk b)) →
    Q (Ok tt) (put_io (put_chunk mem (ob_chunk b) (aborted s)) io NeedData i)
      (wrote_chunk (ob_chunk b) (aborted s) ++ wrote_io io NeedData i)) →
  @NodeShared.steps K E _ P mem (publisher_drop io buffers (Some i)) Q.
Proof.
  intros Hio Hb Hc HQ. apply steps_bind, (steps_index _ _ _ _ b); [done|].
  apply steps_bind, steps_ob_abort; [done|]. intros s Hs. apply steps_publish_io; [done|]. by apply HQ.
Qed.

Lemma steps_unwinding {E A} P mem (drop : SM (World K) E unit) (m : SM (World K) E A) Q :
  NodeShared.steps P mem m (λ r mem' l, match r with
    | Ok a => Q (Ok a) mem' l
    | r => NodeShared.steps P mem' drop (λ r' mem'' l', Q (match r' with Panic => Panic | _ => r end) mem'' (l ++ l'))
    end) → NodeShared.steps P mem (unwinding drop m) Q.
Proof.
  intros Hs w Hw. destruct (Hs w Hw) as (Hu & Hf & mem' & l & Ht & Hl & HQ).
  unfold unwinding. destruct (m w) as [w' [a|e|]]; simpl in *; [eauto 10|..].
  all: destruct (HQ w' Ht) as (Hu' & Hf' & mem'' & l' & Ht' & Hl' & HQ');
    destruct (drop w') as [w'' [?|?|]]; simpl in *; (split; [congruence|]; split; [lia|]);
    exists mem'', (l ++ l'); rewrite Hl', Hl, app_assoc; done.
Qed.
End rules.

(** ** Commits stay inside the buffer *)

Lemma commit_inv c frames out :
  commit c frames = Ok out →
  co_buffer_id out = oc_buffer_id c ∧ co_bytes out = frames * frame_stride (oc_format c) ∧
  co_bytes out ≤ oc_capacity c ∧ co_bytes out ≤ u32_max ∧
  co_stride out = frame_stride (oc_format c) ∧ co_flags out = 0.
Proof.
  unfold commit, commit_bytes, checked_mul. case_bool_decide; [|done]. simpl.
  do 2 (case_bool_decide; [done|]). intros [= <-]. simpl. split_and!; try done; lia.
Qed.
