(* ===== verification/NodeConfig.v ===== *)
(** * Session configuration

    Models the conversions of [node/src/session/config.rs]: what a decoded
    ClientNode event means for an output session, and which events are
    refused because the session does not support them. *)

From S2P Require Import Prelude Utf8 PodTypes PodCodec PodLaws PodCompound PodParser PodParserLaws.
From S2P Require Import SpaParam ClientNode NodeMemory NodeShared NodePort NodeCycle.

Notation ConfRes := (Res SessionError).

Definition OUTPUT_PORT : Z := 0.
Definition MAX_SESSION_BUFFERS : Z := 64.
Definition MAX_SESSION_METAS : Z := 64.
Definition MAX_SESSION_DATAS : Z := 1.
Definition MAX_AUDIO_CHANNELS : Z := 64.
Definition SPA_AUDIO_FORMAT_S16_LE : Z := 0x103.
Definition SPA_IO_ASYNC_BUFFERS : Z := 10.

(** Refusing an unsupported feature. *)
Definition unsupported {A} (f : UnsupportedFeature) : ConfRes A := Err (NodeCycle.Unsupported f).

(** ** Descriptors *)

(** [memory::RegionRef] *)
Record SessionRegion := mkSessionRegion { sr_memory : Z; sr_offset : Z; sr_len : Z }.
#[global] Instance SessionRegion_eq_dec : EqDecision SessionRegion.
Proof. solve_decision. Defined.

Record TransportDescriptor := mkTransportDescriptor {
  td_trigger_fd : Z; td_completion_fd : Z; td_activation : SessionRegion;
}.
Record PeerActivationDescriptor := mkPeerDescriptor {
  pd_node : Z; pd_signal_fd : Z; pd_activation : SessionRegion;
}.
Record PortIoDescriptor := mkPortIo { pio_port : Z; pio_region : SessionRegion }.
Inductive PortIoUpdate := PortIoSet (d : PortIoDescriptor) | PortIoClear.
Inductive PeerActivationUpdate := PeerSet (d : PeerActivationDescriptor) | PeerRemove (node : Z).

(** [config::MetaDescriptor], [config::BufferDescriptor] *)
Record SessionMeta := mkSessionMeta { sm_type_id : Z; sm_size : Z }.
#[global] Instance SessionMeta_eq_dec : EqDecision SessionMeta.
Proof. solve_decision. Defined.
Record SessionBuffer := mkSessionBuffer {
  sb_metadata : SessionRegion;
  sb_metas : list SessionMeta;
  sb_media_memory : Z;
  sb_map_offset : Z;
  sb_max_size : Z;
}.
#[global] Instance SessionBuffer_eq_dec : EqDecision SessionBuffer.
Proof. solve_decision. Defined.
Record BufferSetDescriptor := mkBufferSet { bs_port : Z; bs_buffers : list SessionBuffer }.
#[global] Instance BufferSetDescriptor_eq_dec : EqDecision BufferSetDescriptor.
Proof. solve_decision. Defined.

(** ** Conversions *)
Definition validate_port (direction : Direction) (port_id : Z) (mix_id : option Z) : ConfRes Z :=
  match direction with
  | Input => unsupported InputDirection
  | Output =>
      if bool_decide (port_id ≠ OUTPUT_PORT) then unsupported (PortFeature port_id) else
      match mix_id with Some mix => unsupported (MixFeature mix) | None => Ok port_id end
  end.

Definition region_try_from (v : RegionRef) : ConfRes SessionRegion :=
  let n := size v in
  if bool_decide (n = 0 ∨ checked_add 64 (offset v) n = None) then Err (Overflow "memory region") else
  Ok (mkSessionRegion (memory_id v) (offset v) n).

Definition transport_try_from (v : Transport) : ConfRes TransportDescriptor :=
  activation ← region_try_from (t_activation v);
  Ok (mkTransportDescriptor (trigger_fd v) (completion_fd v) activation).

Definition buffer_try_from (b : BufferDescriptor) : ConfRes SessionBuffer :=
  if bool_decide (len (metas b) > MAX_SESSION_METAS) then Err (TooManyDescriptors "metadata") else
  if bool_decide (len (datas b) ≠ MAX_SESSION_DATAS) then unsupported DataPlane else
  data ← match datas b with d :: _ => Ok d | [] => Panic end;
  if bool_decide (try_from_u32 (T:=DataType) (data_type data) ≠ Some DtMemId)
  then unsupported DataPlane else
  if bool_decide (data_flags data ≠ 0) then unsupported (DataFlags (data_flags data)) else
  metadata ← region_try_from (metadata b);
  Ok (mkSessionBuffer metadata ((λ m, mkSessionMeta (meta_type m) (meta_size m)) <$> metas b)
        (data_id data) (map_offset data) (max_size data)).

Fixpoint buffers_try_from (bs : list BufferDescriptor) : ConfRes (list SessionBuffer) :=
  match bs with
  | [] => Ok []
  | b :: bs => b ← buffer_try_from b; bs ← buffers_try_from bs; Ok (b :: bs)
  end.

Definition buffer_set_try_from (v : PortUseBuffers) : ConfRes BufferSetDescriptor :=
  port ← validate_port (ub_direction v) (ub_port_id v) (ub_mix_id v);
  if bool_decide (Z.land (ub_flags v) SPA_NODE_BUFFERS_FLAG_ALLOC ≠ 0)
  then unsupported ClientAllocatedBuffers else
  if bool_decide (ub_flags v ≠ 0) then unsupported (BufferFlags (ub_flags v)) else
  if bool_decide (len (buffers v) > MAX_SESSION_BUFFERS) then Err (TooManyDescriptors "buffers") else
  buffers ← buffers_try_from (buffers v);
  Ok (mkBufferSet port buffers).

Definition port_io_try_from (v : PortSetIo) : ConfRes PortIoUpdate :=
  match v with
  | IoSet direction port_id mix_id io_id region =>
      port ← validate_port direction port_id mix_id;
      if bool_decide (io_id = SPA_IO_BUFFERS)
      then region ← region_try_from region; Ok (PortIoSet (mkPortIo port region))
      else if bool_decide (io_id = SPA_IO_ASYNC_BUFFERS) then unsupported AsyncIo
      else unsupported (IoType io_id)
  | IoClear direction port_id mix_id io_id =>
      _ ← validate_port direction port_id mix_id;
      if bool_decide (io_id ≠ SPA_IO_BUFFERS) then unsupported (IoType io_id) else Ok PortIoClear
  end.

Definition set_activation_try_from (v : SetActivation) : ConfRes PeerActivationUpdate :=
  match v with
  | ActivationSet node_id signal_fd activation =>
      activation ← region_try_from activation;
      Ok (PeerSet (mkPeerDescriptor node_id signal_fd activation))
  | ActivationRemove node_id => Ok (PeerRemove node_id)
  end.

(** ** Formats *)
Definition pcm_s16le (rate channels : Z) : ConfRes NegotiatedAudioFormat :=
  if bool_decide (rate = 0) then Err (InvalidFormat "zero sample rate") else
  if bool_decide (channels = 0) then Err (InvalidFormat "zero channel count") else
  if bool_decide (channels > MAX_AUDIO_CHANNELS) then Err (TooManyDescriptors "audio channels") else
  frame_stride ← ok_or (checked_mul 64 channels 2) (Overflow "PCM frame stride");
  Ok (mkFormat S16Le rate (replicate (Z.to_nat channels) 0) 2 frame_stride).

(** The six values [from_wire] collects. *)
Record FormatValues := mkFormatValues {
  v_media_type : option MediaType;
  v_media_subtype : option MediaSubtype;
  v_sample_format : option Z;
  v_rate : option Z;
  v_channels : option Z;
  v_positions : option (list Z);
}.
Definition no_values : FormatValues := mkFormatValues None None None None None None.

(** One turn of the loop over the properties. *)
Definition format_property (v : FormatValues) (key : FormatKey) (value : RawPod) : PodRes FormatValues :=
  match key with
  | FMediaType => t ← RawPod_decode (pod_id MediaType) value;
      Ok (mkFormatValues (Some (id_value t)) (v_media_subtype v) (v_sample_format v) (v_rate v)
            (v_channels v) (v_positions v))
  | FMediaSubtype => t ← RawPod_decode (pod_id MediaSubtype) value;
      Ok (mkFormatValues (v_media_type v) (Some (id_value t)) (v_sample_format v) (v_rate v)
            (v_channels v) (v_positions v))
  | FAudioFormat => f ← RawPod_decode (pod_id Z) value;
      Ok (mkFormatValues (v_media_type v) (v_media_subtype v) (Some (id_value f)) (v_rate v)
            (v_channels v) (v_positions v))
  | FAudioRate => r ← RawPod_decode pod_i32 value;
      Ok (mkFormatValues (v_media_type v) (v_media_subtype v) (v_sample_format v) (Some r)
            (v_channels v) (v_positions v))
  | FAudioChannels => c ← RawPod_decode pod_i32 value;
      Ok (mkFormatValues (v_media_type v) (v_media_subtype v) (v_sample_format v) (v_rate v)
            (Some c) (v_positions v))
  | FAudioPosition => ps ← RawPod_decode (pod_array (prim_id Z)) value;
      Ok (mkFormatValues (v_media_type v) (v_media_subtype v) (v_sample_format v) (v_rate v)
            (v_channels v) (Some (id_value <$> ps)))
  | _ => Ok v
  end.

Fixpoint format_loop (fuel : nat) (v : FormatValues) : OM FormatValues := λ p,
  match fuel with
  | O => (p, Panic)
  | S fuel =>
      match pop_property (K:=FormatKey) p with
      | (p', Ok None) => (p', Ok v)
      | (p', Ok (Some (key, _, value))) =>
          match format_property v key value with
          | Ok v' => format_loop fuel v' p'
          | Err e => (p', Err e)
          | Panic => (p', Panic)
          end
      | (p', Err e) => (p', Err e)
      | (p', Panic) => (p', Panic)
      end
  end.

Definition parse_format (bytes : list byte) : PodRes FormatValues :=
  fst <$> (pop_object (PARAM_TYPE FormatKey) (λ (id : ParamType) p,
    if bool_decide (id ≠ PtFormat) then (p, Err (Invalid "not SPA_PARAM_Format"))
    else format_loop (S (length bytes)) no_values p) (Parser_new bytes)).2.

(** [u32::try_from] of an [i32] *)
Definition u32_of_i32 (v : Z) : option Z := if bool_decide (0 ≤ v) then Some v else None.

Definition format_of_values (v : FormatValues) : ConfRes NegotiatedAudioFormat :=
  if bool_decide (v_media_type v ≠ Some MtAudio ∨ v_media_subtype v ≠ Some MsRaw)
  then unsupported MediaFormat else
  if bool_decide (v_sample_format v ≠ Some SPA_AUDIO_FORMAT_S16_LE)
  then unsupported (SampleFormat (default 0 (v_sample_format v))) else
  rate ← ok_or (v_rate v) (InvalidFormat "missing sample rate");
  rate ← ok_or (u32_of_i32 rate) (InvalidFormat "invalid sample rate");
  count ← ok_or (v_channels v) (InvalidFormat "missing channel count");
  count ← ok_or (u32_of_i32 count) (InvalidFormat "invalid channel count");
  format ← pcm_s16le rate count;
  match v_positions v with
  | None => Ok format
  | Some positions =>
      if bool_decide (len positions ≠ len (channels format))
      then Err (InvalidFormat "channel position count mismatch") else
      Ok (mkFormat (sample_format format) (NodeCycle.rate format) positions
            (bytes_per_sample format) (frame_stride format))
  end.

Definition format_from_wire (v : PortSetParam) : ConfRes NegotiatedAudioFormat :=
  _ ← validate_port (sp_direction v) (sp_port_id v) None;
  if bool_decide (param_id v ≠ SPA_PARAM_FORMAT) then unsupported (Parameter_ (param_id v)) else
  pod ← ok_or (param v) (InvalidFormat "format was cleared");
  values ← map_err (λ _, InvalidFormat "malformed Format POD") (parse_format (raw_data pod));
  format_of_values values.

(** ** Laws *)

Lemma pop_object_total {I T} `{U32Conv I} ot (f : I → OM T) bytes :
  len bytes ≤ isize_max →
  (∀ i body, len body ≤ len bytes → total (f i (ObjectParser_new body)).2) →
  total (pop_object ot f (Parser_new bytes)).2.
Proof.
  intros Hb Hf. unfold pop_object. assert (parser_wf (Parser_new bytes)) as Hwf by (by apply Parser_new_wf).
  pose proof (object_header_total (I:=I) _ Hwf).
  destruct (object_header (I:=I) (Parser_new bytes)) as [[[[size ts] t] id]|e|] eqn:Hh; [|done..].
  case_bool_decide; [done|]. apply object_header_inv in Hh as (? & ? & ?); [|done].
  unfold object_body, commit. cbn [p_pos p_data with_pos Parser_new] in *.
  pose proof (pad_8_range size). rewrite slice_Ok by lia. res_cbn.
  match goal with |- context [ObjectParser_new ?b] => pose proof (Hf id b) as Hb' end.
  destruct (f id _).2; simpl in *; try done. exfalso. apply Hb'; [|done].
  rewrite len_take; [lia|]. rewrite len_drop; lia.
Qed.

Lemma RawPod_decode_total {T} (P : Pod T) `{!PodLaws P} r : total (RawPod_decode P r).
Proof.
  unfold RawPod_decode. pose proof (decode_safe (P:=P) (raw_data r)) as H.
  by destruct (decode P (raw_data r)).
Qed.

Lemma format_property_total v key value : total (format_property v key value).
Proof.
  destruct key; try done; simpl; apply total_bind; try done; apply RawPod_decode_total; apply _.
Qed.

(** The loop ends: a property takes at least 16 bytes. *)
Lemma format_loop_total fuel v p :
  oparser_wf p → (len (o_data p) - o_pos p) / 16 < Z.of_nat fuel → total (format_loop fuel v p).2.
Proof.
  revert v p. induction fuel as [|fuel IH]; intros v p Hp Hf.
  { destruct Hp. pose proof (Z.div_pos (len (o_data p) - o_pos p) 16). lia. }
  simpl. pose proof (pop_property_safe (K:=FormatKey) p Hp) as [_ Ht].
  destruct (pop_property p) as [p' [[[[key flags] value]|]|e|]] eqn:Hpop; try done.
  apply pop_property_progress in Hpop as (Hd & Hpos & _); [|done]. destruct Hp as [Hpp Hmax].
  pose proof (format_property_total v key value).
  destruct (format_property v key value) as [v'|e|]; try done. apply IH.
  - unfold oparser_wf. rewrite Hd. lia.
  - rewrite Hd. assert ((len (o_data p) - o_pos p') / 16 ≤ (len (o_data p) - (o_pos p + 16)) / 16)
      by (apply Z.div_le_mono; lia).
    replace (len (o_data p) - (o_pos p + 16)) with (len (o_data p) - o_pos p + (-1) * 16) in * by lia.
    rewrite Z.div_add in * by lia. lia.
Qed.

Lemma parse_format_total bytes : len bytes ≤ isize_max → total (parse_format bytes).
Proof.
  intros Hb. unfold parse_format.
  match goal with |- total (fst <$> (?m _).2) => enough (total (m (Parser_new bytes)).2) as Ht end.
  { by destruct (_ : Parser * _).2. }
  apply pop_object_total; [done|]. intros i body Hbody. case_bool_decide; [done|].
  pose proof (len_nonneg body). apply format_loop_total; [apply ObjectParser_new_wf; lia|].
  simpl o_data. simpl o_pos. rewrite Z.sub_0_r.
  pose proof (Z.div_le_upper_bound (len body) 16 (len bytes) ltac:(lia) ltac:(lia)). unfold len in *. lia.
Qed.

(** Properties are taken in order, later ones winning. *)
Fixpoint fold_properties (v : FormatValues) (xs : list (FormatKey * Z * RawPod)) : PodRes FormatValues :=
  match xs with
  | [] => Ok v
  | x :: xs => v ← format_property v x.1.1 x.2; fold_properties v xs
  end.

Lemma format_loop_wire xs pre n v v' :
  Forall prop_ok xs → len (pre ++ concat (property_wire <$> xs)) ≤ isize_max →
  (length xs < n)%nat → fold_properties v xs = Ok v' →
  (format_loop n v (mkObjectParser (pre ++ concat (property_wire <$> xs)) (len pre))).2 = Ok v'.
Proof.
  intros Hxs. revert pre n v. induction Hxs as [|[[key flags] value] xs Hx Hxs IH]; intros pre n v Hl Hn Hv.
  - destruct n as [|n]; [simpl in Hn; lia|]. simpl. rewrite app_nil_r.
    unfold pop_property, o_available, saturating_sub. simpl.
    rewrite bool_decide_eq_true_2 by lia. by simplify_eq/=.
  - destruct n as [|n]; [simpl in Hn; lia|]. rewrite fmap_cons in *. simpl concat in *. simpl format_loop.
    rewrite pop_property_wire by done. simpl in Hv. res_inv.
    match goal with H : format_property _ _ _ = Ok _ |- _ => rewrite H end.
    rewrite app_assoc in *. rewrite <- len_app. apply IH; [done..|simpl in Hn; lia|done].
Qed.

Lemma pop_object_of_raw {I T} `{U32Conv I} ot (f : I → OM T) p x :
  (pop_object_raw (λ t i p, if bool_decide (t ≠ ot) then (p, Err NoSpace) else f i p) p).2 = Ok x →
  (pop_object ot f p).2 = Ok x.
Proof.
  unfold pop_object_raw, pop_object. destruct (object_header p) as [[[[size ts] t] id]|e|]; [|done..].
  case_bool_decide; [|done]. unfold object_body. destruct (slice _ _ _); simpl; done.
Qed.

Lemma parse_format_wire xs v :
  let body := concat (property_wire <$> xs) in
  Forall prop_ok xs → 8 + len body < 2 ^ 32 → fold_properties no_values xs = Ok v →
  parse_format (object_wire OFormat PtFormat body) = Ok v.
Proof.
  intros body Hxs Hb Hv. unfold parse_format.
  pose proof (pad_8_range (8 + len body)) as Hpad. pose proof (object_wire_len OFormat PtFormat body) as Hlen.
  assert (length xs ≤ length (object_wire OFormat PtFormat body))%nat as Hn.
  { enough (len xs ≤ len body) by (unfold len in *; lia). subst body. clear -Hxs.
    induction Hxs as [|x xs Hx Hxs IH]; [done|]. rewrite fmap_cons. simpl concat.
    unfold property_wire at 1. len_lia. }
  set (f := λ (i : ParamType) p, if bool_decide (i ≠ PtFormat) then _ else _).
  assert (f PtFormat (ObjectParser_new body)
          = format_loop (S (length (object_wire OFormat PtFormat body))) no_values (ObjectParser_new body)) as Hf
    by done.
  pose proof (parses_object_raw OFormat PtFormat
    (λ t i p, if bool_decide (t ≠ OFormat) then (p, Err NoSpace) else f i p) body v I ltac:(lia)) as Hp.
  ospecialize (Hp _ [] [] _).
  - rewrite bool_decide_eq_false_2 by (by intros ?). rewrite Hf.
    apply (format_loop_wire xs []); [done| |lia|done]. simpl. unfold isize_max. fold body. lia.
  - rewrite app_nil_l, app_nil_r. unfold isize_max. lia.
  - rewrite app_nil_l, app_nil_r in Hp. erewrite (pop_object_of_raw OFormat f (Parser_new _) (v, _)); [done|].
    unfold Parser_new. change 0 with (len (@nil byte)). by rewrite Hp.
Qed.

(** What a negotiated format is. *)
Definition format_sound (f : NegotiatedAudioFormat) : Prop :=
  1 ≤ NodeCycle.rate f < 2 ^ 31 ∧ 1 ≤ len (channels f) ≤ MAX_AUDIO_CHANNELS ∧
  bytes_per_sample f = 2 ∧ frame_stride f = 2 * len (channels f).

Lemma pcm_s16le_spec rate channels :
  0 ≤ rate → 0 ≤ channels →
  post (λ f, NodeCycle.rate f = rate ∧ 1 ≤ rate ∧ len (NodeCycle.channels f) = channels ∧
          1 ≤ channels ≤ MAX_AUDIO_CHANNELS ∧ bytes_per_sample f = 2 ∧ frame_stride f = 2 * channels)
    (pcm_s16le rate channels).
Proof.
  intros Hr Hc. unfold pcm_s16le. do 3 post_step.
  post_step. post_step. unfold checked_mul in *. case_bool_decide; [|done]. simplify_eq. simpl.
  unfold len. rewrite length_replicate. split_and!; try done; lia.
Qed.

Lemma format_of_values_sound v :
  (∀ r, v_rate v = Some r → i32_range r) → post format_sound (format_of_values v).
Proof.
  intros Hr. unfold format_of_values. do 2 post_step. do 8 post_step. unfold u32_of_i32 in *.
  do 2 (case_bool_decide; [|done]). simplify_eq. post_step.
  match goal with |- post _ (pcm_s16le ?r ?c) => pose proof (pcm_s16le_spec r c) as Hp end.
  destruct (pcm_s16le _ _) as [f| |]; simpl in *; [|done|by apply Hp].
  destruct Hp as (? & ? & ? & ? & ? & ?); [done..|]. 
  match goal with H : v_rate v = Some _ |- _ => destruct (Hr _ H) as [_ ?] end.
  unfold format_sound. destruct (v_positions v) as [ps|]; simpl; [case_bool_decide; simpl; [done|]|];
    split_and!; try lia; try congruence.
Qed.

(** Rates come from an [i32]. *)
Lemma decode_i32_range r v : RawPod_decode pod_i32 r = Ok v → i32_range v.
Proof.
  unfold RawPod_decode. destruct (decode pod_i32 (raw_data r)) as [[z n]| |] eqn:Hd; [|done..].
  intros [= <-]. simpl in Hd. repeat first [progress res_inv | case_bool_decide; [done|]].
  simplify_eq. apply i32_of_u32_range.
Qed.

Definition rate_ok (v : FormatValues) : Prop := ∀ r, v_rate v = Some r → i32_range r.

Lemma format_property_rate v key value v' :
  rate_ok v → format_property v key value = Ok v' → rate_ok v'.
Proof.
  intros Hv Hp. destruct key; simpl in Hp; res_inv; try done.
  intros r [= <-]. by eapply decode_i32_range.
Qed.

Lemma format_loop_rate fuel v p v' :
  rate_ok v → (format_loop fuel v p).2 = Ok v' → rate_ok v'.
Proof.
  revert v p. induction fuel as [|fuel IH]; intros v p Hv; simpl; [done|].
  destruct (pop_property p) as [p' [[[[key flags] value]|]|e|]]; simpl; [|naive_solver|done..].
  destruct (format_property v key value) as [w|e|] eqn:Hw; simpl; [|done..].
  apply IH. by eapply format_property_rate.
Qed.

Lemma parse_format_rate bytes v : parse_format bytes = Ok v → rate_ok v.
Proof.
  unfold parse_format, pop_object. generalize (S (length bytes)) as fuel. intros fuel.
  destruct (object_header _) as [[[[size ts] t] id]|e|]; [|done..]. case_bool_decide; [done|].
  unfold object_body. destruct (slice _ _ _) as [body| |]; simpl; [|done..].
  case_bool_decide; [done|]. pose proof (format_loop_rate fuel no_values (ObjectParser_new body)) as Hr.
  destruct (format_loop fuel no_values (ObjectParser_new body)) as [p' [w|e|]]; simpl in *; [|done..].
  intros [= <-]. by apply Hr.
Qed.

Lemma region_try_from_spec v :
  0 ≤ offset v → 0 ≤ size v →
  post (λ r, r = mkSessionRegion (memory_id v) (offset v) (size v) ∧ 0 < size v ∧ offset v + size v < 2 ^ 64)
    (region_try_from v).
Proof.
  intros Ho Hs. unfold region_try_from, checked_add. post_step.
  case_bool_decide; [|naive_solver]. simpl. split_and!; [done|naive_solver lia|done].
Qed.

(** Wire integers are 32 bits wide. *)
Definition region_typed (r : RegionRef) : Prop :=
  u32_range (memory_id r) ∧ u32_range (offset r) ∧ u32_range (size r).
Definition buffer_typed (b : BufferDescriptor) : Prop := region_typed (metadata b).

Definition region_sound (r : SessionRegion) : Prop :=
  0 < sr_len r < 2 ^ 32 ∧ 0 ≤ sr_offset r < 2 ^ 32.

(** The session buffer a wire buffer stands for. *)
Definition session_buffer (b : BufferDescriptor) (d : DataDescriptor) : SessionBuffer :=
  mkSessionBuffer (mkSessionRegion (memory_id (metadata b)) (offset (metadata b)) (size (metadata b)))
    ((λ m, mkSessionMeta (meta_type m) (meta_size m)) <$> metas b) (data_id d) (map_offset d) (max_size d).
(** Buffers the session takes: one unflagged memory-id plane, few metas. *)
Definition buffer_supported (b : BufferDescriptor) (d : DataDescriptor) : Prop :=
  datas b = [d] ∧ data_type d = 4 ∧ data_flags d = 0 ∧ len (metas b) ≤ 64 ∧ 0 < size (metadata b).

Lemma buffer_try_from_spec b :
  buffer_typed b →
  match buffer_try_from b with
  | Ok s => ∃ d, buffer_supported b d ∧ s = session_buffer b d
  | Err _ => ∀ d, ¬ buffer_supported b d
  | Panic => False
  end.
Proof.
  intros (_ & [? ?] & [? ?]). unfold buffer_try_from, buffer_supported, MAX_SESSION_METAS, MAX_SESSION_DATAS.
  case_bool_decide; [intros d; naive_solver lia|].
  case_bool_decide as Hd; [intros d (Hds & _); by rewrite Hds in Hd|].
  destruct (datas b) as [|d [|d' ds]] eqn:Hds; [by rewrite len_nil in Hd| |len_lia].
  simpl. assert (try_from_u32 (data_type d) = Some DtMemId ↔ data_type d = 4) as Ht.
  { unfold try_from_u32, DataType_conv, derived_conv. cbn.
    repeat (case Z.eqb_spec; intros ?); (split; [intros [=]|]; intros; congruence || lia). }
  case_bool_decide as Hm; [intros d0; naive_solver|].
  case_bool_decide as Hf; [intros d0; naive_solver|].
  pose proof (region_try_from_spec (metadata b) ltac:(done) ltac:(done)) as Hr.
  destruct (region_try_from (metadata b)) as [r| |] eqn:Hre; simpl in *; [|..|done].
  - exists d. destruct Hr as (-> & ? & ?). split_and!; [done|naive_solver..|lia|done|done].
  - intros d0 (_ & _ & _ & _ & Hs). revert Hre. unfold region_try_from, checked_add. case_bool_decide as Hn; [|done].
    exfalso. destruct Hn as [?|Hn]; [lia|]. revert Hn. case_bool_decide; [done|lia].
Qed.

Lemma buffers_try_from_spec bs :
  Forall buffer_typed bs →
  match buffers_try_from bs with
  | Ok ss => Forall2 (λ b s, ∃ d, buffer_supported b d ∧ s = session_buffer b d) bs ss
  | Err _ => ∃ b, b ∈ bs ∧ ∀ d, ¬ buffer_supported b d
  | Panic => False
  end.
Proof.
  induction 1 as [|b bs Hb Hbs IH]; simpl; [done|]. pose proof (buffer_try_from_spec b Hb) as Hs.
  destruct (buffer_try_from b); simpl; [|set_solver|done].
  destruct (buffers_try_from bs); simpl; [by constructor|set_solver|done].
Qed.

Lemma format_from_wire_sound (v : PortSetParam) :
  (∀ pod, param v = Some pod → len (raw_data pod) ≤ isize_max) → post format_sound (format_from_wire v).
Proof.
  intros Hlen. unfold format_from_wire. post_step. destruct (validate_port _ _ _) eqn:Hv; [|done|].
  2: revert Hv; unfold validate_port; destruct (sp_direction v); [done|]; by case_bool_decide.
  simpl. post_step. post_step. post_step. post_step.
  match goal with H : param v = Some ?p |- _ => pose proof (parse_format_total (raw_data p) (Hlen _ H)) as Ht end.
  destruct (parse_format _) as [vals| |] eqn:Hp; simpl; [|done..].
  apply format_of_values_sound. by eapply parse_format_rate.
Qed.

(** ** Properties *)

(** Format negotiation. Converting a PortSetParam never panics,
    whatever bytes its pod holds (the loop over the properties ends); a
    format it accepts has a positive rate, 1 to 64 channels with as many
    positions, and a frame stride of two bytes per channel; and a
    well-formed Format object, with any properties in any order, converts
    to what its properties say, later ones winning. *)
Lemma format_negotiation (v : PortSetParam) :
  (∀ pod, param v = Some pod → len (raw_data pod) ≤ isize_max) →
  total (format_from_wire v) ∧
  (∀ f, format_from_wire v = Ok f → format_sound f) ∧
  (∀ xs values pod,
    let body := concat (property_wire <$> xs) in
    sp_direction v = Output → sp_port_id v = 0 → param_id v = SPA_PARAM_FORMAT → param v = Some pod →
    raw_data pod = object_wire OFormat PtFormat body → Forall prop_ok xs → 8 + len body < 2 ^ 32 →
    fold_properties no_values xs = Ok values →
    format_from_wire v = format_of_values values).
Proof.
  intros Hlen. pose proof (format_from_wire_sound v Hlen) as Hpost.
  split_and!.
  - by eapply post_total.
  - intros f. by apply post_Ok.
  - intros xs values pod body Hd Hport Hid Hparam Hraw Hxs Hb Hv. unfold format_from_wire, validate_port.
    rewrite Hd, Hport, Hid, Hparam. simpl. subst body. by rewrite Hraw, (parse_format_wire xs values).
Qed.

(** A pod holding one value. *)
Definition pod_of {T} (P : Pod T) `{!PodExact P} (t : PodType) (v : T) : RawPod := mkRawPod 16 t (wire P v).
Definition stereo_properties : list (FormatKey * Z * RawPod) :=
  [(FMediaType, 0, pod_of (pod_id MediaType) TId (mkId MtAudio));
   (FMediaSubtype, 0, pod_of (pod_id MediaSubtype) TId (mkId MsRaw));
   (FAudioFormat, 0, pod_of (pod_id Z) TId (mkId SPA_AUDIO_FORMAT_S16_LE));
   (FAudioRate, 0, pod_of pod_i32 TInt 48000);
   (FAudioChannels, 0, pod_of pod_i32 TInt 2)].

Lemma format_negotiation_witness :
  let body := concat (property_wire <$> stereo_properties) in
  let pod := mkRawPod (16 + len body) TObject (object_wire OFormat PtFormat body) in
  format_from_wire (mkPortSetParam Output 0 SPA_PARAM_FORMAT 0 (Some pod))
  = Ok (mkFormat S16Le 48000 [0; 0] 2 4).
Proof.
  intros body pod. set (v := mkPortSetParam _ _ _ _ _).
  destruct (format_negotiation v) as (_ & _ & H).
  - intros p [= <-]. by vm_compute.
  - rewrite (H stereo_properties (mkFormatValues (Some MtAudio) (Some MsRaw) (Some 0x103) (Some 48000)
      (Some 2) None) pod); try done; [|by vm_compute..].
    repeat constructor; by vm_compute.
Defined.

(** Buffer sets. Converting a PortUseBuffers event never panics and
    succeeds exactly when the event is for output port 0 without a mix,
    carries no flags, has at most 64 buffers, and every buffer has one
    unflagged plane of type MemId, at most 64 metas and a non-empty metadata
    region; the descriptor then holds the buffers in order with nothing
    changed. *)
Lemma buffer_set_conversion (v : PortUseBuffers) :
  Forall buffer_typed (buffers v) →
  match buffer_set_try_from v with
  | Ok d => bs_port d = 0 ∧ ub_direction v = Output ∧ ub_port_id v = 0 ∧ ub_mix_id v = None ∧
      ub_flags v = 0 ∧ len (bs_buffers d) ≤ 64 ∧
      Forall2 (λ b s, ∃ data, buffer_supported b data ∧ s = session_buffer b data) (buffers v) (bs_buffers d)
  | Err _ => ub_direction v ≠ Output ∨ ub_port_id v ≠ 0 ∨ ub_mix_id v ≠ None ∨ ub_flags v ≠ 0 ∨
      64 < len (buffers v) ∨ ∃ b, b ∈ buffers v ∧ ∀ data, ¬ buffer_supported b data
  | Panic => False
  end.
Proof.
  intros Ht. unfold buffer_set_try_from, validate_port, unsupported, OUTPUT_PORT, MAX_SESSION_BUFFERS.
  destruct (ub_direction v); simpl; [by left|].
  destruct (bool_decide_reflect (ub_port_id v ≠ 0)); simpl; [right; by left|].
  destruct (ub_mix_id v); simpl; [right; right; by left|].
  destruct (bool_decide_reflect (Z.land (ub_flags v) SPA_NODE_BUFFERS_FLAG_ALLOC ≠ 0));
    simpl; [do 3 right; left; by intros Hf; rewrite Hf in *|].
  destruct (bool_decide_reflect (ub_flags v ≠ 0)); simpl; [do 3 right; by left|].
  destruct (bool_decide_reflect (len (buffers v) > 64)); simpl; [do 4 right; left; lia|].
  pose proof (buffers_try_from_spec (buffers v) Ht) as Hb.
  destruct (buffers_try_from (buffers v)); simpl; [|by do 5 right|done].
  pose proof (Forall2_length _ _ _ Hb). unfold len in *. split_and!; try done; try lia; by apply dec_stable.
Qed.

Lemma buffer_set_conversion_witness :
  let b := mkBuffer (mkRegion 1 0 16) [mkMeta 1 8] [mkData 4 2 0 0 64] in
  let v := mkPortUseBuffers Output 0 None 0 [b] in
  Forall2 (λ b s, ∃ data, buffer_supported b data ∧ s = session_buffer b data) [b]
    [mkSessionBuffer (mkSessionRegion 1 0 16) [mkSessionMeta 1 8] 2 0 64].
Proof.
  intros b v. assert (Forall buffer_typed [b]) as H by (constructor; [by repeat split|constructor]).
  pose proof (buffer_set_conversion v H) as Hc.
  assert (buffer_set_try_from v = Ok (mkBufferSet 0
    [mkSessionBuffer (mkSessionRegion 1 0 16) [mkSessionMeta 1 8] 2 0 64])) as E by (by vm_compute).
  rewrite E in Hc. apply Hc.
Defined.
