(* ===== verification/NodeOutput.v ===== *)
(** * Output generations

    Models [node/src/session/output.rs]: a bound output (format, buffers and
    synchronous io, all mapped from imported memory), the processing of one
    cycle through it, and the interface [MemoryResolver] of
    [session/memory/mod.rs] through which memory is bound. *)

From S2P Require Import Prelude FrameHeader NodeMemory NodeShared NodePort NodeCycle NodeConfig.

(** ** The resolver interface *)
Class MemoryResolver (R : Type) := {
  resolve : R → Z → MemRes MemoryKey;
  res_map : Kernel → R → MemoryKey → Z → Z → bool → MemRes MemoryMapping;
}.

(** What a mapping of [len] bytes at [offset] of the memory [key] is. *)
Record mapping_of (key : MemoryKey) (offset len : Z) (m : MemoryMapping) : Prop := {
  mo_key : mapping_key m = key;
  mo_offset : mm_offset m = offset;
  mo_len : m_len (mapped m) = len;
  mo_pos : 0 < len;
}.

(** What clients of a resolver rely on. *)
Class ResolverLaws (R : Type) `{MemoryResolver R} := {
  resolve_total r id : total (resolve r id);
  map_spec kernel r key offset len w :
    0 ≤ offset → 0 ≤ len → post (mapping_of key offset len) (res_map kernel r key offset len w);
}.

#[global] Instance pool_resolver : MemoryResolver MemoryPool :=
  {| resolve := pool_resolve; res_map := pool_map |}.

Lemma map_entry_mapping kernel entry policy offset len w :
  0 ≤ offset → 0 ≤ len → post (mapping_of (e_key entry) offset len) (map_entry kernel entry policy offset len w).
Proof.
  intros Ho Hl. pose proof (map_entry_spec kernel entry policy offset len w Ho Hl) as Hm.
  destruct (map_entry _ _ _ _ _ _) as [m| |]; simpl in *; [|done..].
  destruct Hm as ([[? [? ?]] _ _ _ _ _] & He & ? & ? & ?). unfold mapping_key. split; try done.
  unfold mapping_key. by rewrite He.
Qed.

#[global] Instance pool_resolver_laws : ResolverLaws MemoryPool.
Proof.
  split.
  - intros p id. unfold resolve, pool_resolver, pool_resolve. destruct (disconnected p); [done|].
    apply total_ok_or.
  - intros kernel p key offset len w Ho Hl. unfold res_map, pool_resolver, pool_map. apply post_bind.
    unfold live_entry. destruct (disconnected p); [done|]. destruct (live p !! k_id key) as [e|]; simpl; [|done].
    case_bool_decide as Hk; simpl; [done|]. rewrite <- Hk. by apply map_entry_mapping.
Qed.

(** ** Output generations *)
Definition CHUNK_SIZE : Z := 16.
Definition IO_SIZE : Z := 8.

Record BoundBuffer := mkBound {
  bb_metadata_key : MemoryKey;
  bb_metadata : MemoryMapping;
  bb_chunk_offset : Z;
  bb_media_key : MemoryKey;
  bb_media : MemoryMapping;
}.

Record OutputGeneration := mkOutput {
  og_id : Z;
  og_format : NegotiatedAudioFormat;
  og_io_key : MemoryKey;
  og_io : MemoryMapping;
  og_buffers : list BoundBuffer;
}.

Definition mapping_len (m : MemoryMapping) : Z := m_len (mapped m).

(** [for (index, left) in intervals .. for right in &intervals[index + 1..]] *)
Fixpoint any_overlap (intervals : list MemoryInterval) : bool :=
  match intervals with
  | [] => false
  | i :: rest => existsb (overlaps i) rest || any_overlap rest
  end.
Definition reject_overlaps (intervals : list MemoryInterval) : Res SessionError unit :=
  if any_overlap intervals then Err (InvalidTransition "overlapping writable memory regions") else Ok tt.

(** Where the chunk lies behind the metas, each padded to 8 bytes. *)
Definition meta_step (offset : Z) (meta : SessionMeta) : option Z :=
  end_ ← checked_add 64 offset (sm_size meta);
  end_ ← checked_add 64 end_ 7;
  Some (Z.land end_ (Z.lnot 7)).
Fixpoint chunk_offset_of (offset : Z) (metas : list SessionMeta) : Res SessionError Z :=
  match metas with
  | [] => Ok offset
  | meta :: metas => offset ← ok_or (meta_step offset meta) (Overflow "metadata layout");
                     chunk_offset_of offset metas
  end.

Section output.
Context {K : Type} `{OutputProcess K} (kernel : Kernel).
Notation M := (SM (World K) SessionError).

Section bind.
Context {R : Type} `{MemoryResolver R} (memory : R).

Definition resolve_m (id : Z) : M MemoryKey := pure (map_err SessMemory (resolve memory id)).
Definition map_m (key : MemoryKey) (offset len : Z) : M MemoryMapping :=
  pure (map_err SessMemory (res_map kernel memory key offset len true)).

Definition bind_buffer (intervals : list MemoryInterval) (d : SessionBuffer) :
    M (list MemoryInterval * BoundBuffer) :=
  chunk_offset ← pure (chunk_offset_of 0 (sb_metas d));
  chunk_end ← pure (ok_or (checked_add 64 chunk_offset CHUNK_SIZE) (Overflow "chunk layout"));
  if bool_decide (chunk_end > sr_len (sb_metadata d))
  then throw (NotReady "metadata region does not contain chunk") else
  if bool_decide (sb_max_size d = 0) then throw (NotReady "zero media capacity") else
  metadata_key ← resolve_m (sr_memory (sb_metadata d));
  media_key ← resolve_m (sb_media_memory d);
  metadata ← map_m metadata_key (sr_offset (sb_metadata d)) (sr_len (sb_metadata d));
  media ← map_m media_key (sb_map_offset d) (sb_max_size d);
  let intervals := intervals ++ [interval metadata; interval media] in
  pure (reject_overlaps intervals);;
  chunk ← ptr_add (as_mut_ptr metadata) chunk_offset;
  mmap_err SessPort (OutputBuffer_from_raw_parts chunk CHUNK_SIZE (as_mut_ptr media)
    (mapping_len media) 0 (sb_max_size d));;
  mret (intervals, mkBound metadata_key metadata chunk_offset media_key media).

Fixpoint bind_buffers (intervals : list MemoryInterval) (ds : list SessionBuffer) : M (list BoundBuffer) :=
  match ds with
  | [] => mret []
  | d :: ds => '(intervals, b) ← bind_buffer intervals d;
               bs ← bind_buffers intervals ds;
               mret (b :: bs)
  end.

Definition OutputGeneration_bind (id : Z) (format : NegotiatedAudioFormat) (buffers : BufferSetDescriptor)
    (io : PortIoDescriptor) : M OutputGeneration :=
  if bool_decide (bs_buffers buffers = []) then throw (NotReady "empty output buffer set") else
  io_key ← resolve_m (sr_memory (pio_region io));
  io_mapping ← map_m io_key (sr_offset (pio_region io)) (sr_len (pio_region io));
  mmap_err SessPort (BuffersIoView_from_raw_parts Buffers (as_mut_ptr io_mapping) (mapping_len io_mapping));;
  if bool_decide (sr_len (pio_region io) ≠ IO_SIZE) then throw (NotReady "invalid Buffers IO size") else
  bound ← bind_buffers [interval io_mapping] (bs_buffers buffers);
  mret (mkOutput id format io_key io_mapping bound).
End bind.

Definition depends_on (g : OutputGeneration) (key : MemoryKey) : bool :=
  bool_decide (og_io_key g = key) ||
  existsb (λ b, bool_decide (bb_metadata_key b = key) || bool_decide (bb_media_key b = key)) (og_buffers g).

Definition output_intervals (g : OutputGeneration) : list MemoryInterval :=
  interval (og_io g) ::
  concat ((λ b, [interval (bb_metadata b); interval (bb_media b)]) <$> og_buffers g).

(** The view of one bound buffer, as [process] and [abort_published] make it. *)
Definition output_buffer (b : BoundBuffer) : M OutputBuffer :=
  chunk ← ptr_add (as_mut_ptr (bb_metadata b)) (bb_chunk_offset b);
  mmap_err SessPort (OutputBuffer_from_raw_parts chunk CHUNK_SIZE (as_mut_ptr (bb_media b))
    (mapping_len (bb_media b)) 0 (mapping_len (bb_media b))).

Fixpoint output_buffers (bs : list BoundBuffer) : M (list OutputBuffer) :=
  match bs with
  | [] => mret []
  | b :: bs => ob ← output_buffer b; obs ← output_buffers bs; mret (ob :: obs)
  end.

Definition io_view (g : OutputGeneration) : M Ptr :=
  mmap_err SessPort (BuffersIoView_from_raw_parts Buffers (as_mut_ptr (og_io g)) (mapping_len (og_io g))).

(** The publisher's [selected] field is [Some i] from a successful [select]
    to a successful [publish_committed]; leaving the scope in between drops
    the publisher with it set. *)
Definition process (g : OutputGeneration) : M (option PublishedOutput * Z) :=
  io ← io_view g;
  buffers ← output_buffers (og_buffers g);
  selected ← mmap_err SessCycle (select io buffers (og_format g));
  match selected with
  | None => mret (None, buffer_status_value BsOk)
  | Some (i, cycle) =>
      unwinding (publisher_drop io buffers (Some i)) (
        committed ← mmap_err CallbackError (call_process cycle);
        published ← mmap_err SessCycle (publish_committed io buffers (Some i) committed);
        mret (Some published, buffer_status_value HaveData))
  end.

Definition abort_published (g : OutputGeneration) : M unit :=
  io ← io_view g;
  state ← io_state io;
  if bool_decide (io_status state ≠ buffer_status_value HaveData) then mret tt else
  buffer ← pure (ok_or (og_buffers g !! Z.to_nat (io_buffer_id state))
                   (InvalidTransition "published output buffer ID"));
  output ← output_buffer buffer;
  ob_abort output;;
  publish_need_data io (io_buffer_id state).
End output.

(** ** Disjoint mappings *)
Lemma overlaps_sym a b : overlaps a b = overlaps b a.
Proof.
  apply eq_bool_prop_intro. unfold overlaps. rewrite !andb_True, !bool_decide_spec. naive_solver.
Qed.

Definition disjoint_from (i : MemoryInterval) (l : list MemoryInterval) : Prop :=
  Forall (λ j, overlaps i j = false) l.

Lemma any_overlap_cons i l : any_overlap (i :: l) = false ↔ disjoint_from i l ∧ any_overlap l = false.
Proof.
  simpl. rewrite orb_false_iff. unfold disjoint_from.
  assert (existsb (overlaps i) l = false ↔ Forall (λ j, overlaps i j = false) l) as ->; [|done].
  induction l as [|j l IH]; simpl; [by split|]. rewrite orb_false_iff, Forall_cons. naive_solver.
Qed.

Lemma any_overlap_app l k :
  any_overlap (l ++ k) = false ↔
  any_overlap l = false ∧ any_overlap k = false ∧ Forall (λ i, disjoint_from i k) l.
Proof.
  induction l as [|i l IH]; simpl app.
  - split; [done|naive_solver].
  - rewrite !any_overlap_cons, IH, Forall_cons. unfold disjoint_from. rewrite Forall_app. naive_solver.
Qed.

Lemma any_overlap_perm l k : l ≡ₚ k → any_overlap l = false → any_overlap k = false.
Proof.
  induction 1 as [|i l k Hp IH|i j l|l k m _ IH1 _ IH2]; [done| | |by auto].
  - rewrite !any_overlap_cons. unfold disjoint_from. intros [? ?].
    split; [by rewrite <- Hp|auto].
  - rewrite !any_overlap_cons. unfold disjoint_from. rewrite !Forall_cons. rewrite (overlaps_sym i j). tauto.
Qed.

(** ** Bound outputs are sound *)
Record bound_ok (b : BoundBuffer) : Prop := {
  bo_metadata : mapping_key (bb_metadata b) = bb_metadata_key b;
  bo_media : mapping_key (bb_media b) = bb_media_key b;
  bo_chunk : 0 ≤ bb_chunk_offset b ∧ bb_chunk_offset b + 16 ≤ mapping_len (bb_metadata b);
  bo_capacity : 0 < mapping_len (bb_media b);
}.
Record output_ok (g : OutputGeneration) : Prop := {
  oo_key : mapping_key (og_io g) = og_io_key g;
  oo_io : mapping_len (og_io g) = 8;
  oo_buffers : Forall bound_ok (og_buffers g);
  oo_disjoint : any_overlap (output_intervals g) = false;
}.

(** Descriptors as the conversions make them. *)
Definition region_nat (r : SessionRegion) : Prop := 0 ≤ sr_offset r ∧ 0 ≤ sr_len r.
Definition buffer_nat (d : SessionBuffer) : Prop :=
  region_nat (sb_metadata d) ∧ Forall (λ m, 0 ≤ sm_size m) (sb_metas d) ∧
  0 ≤ sb_map_offset d ∧ 0 ≤ sb_max_size d.

Lemma chunk_offset_nonneg o metas :
  0 ≤ o → Forall (λ m, 0 ≤ sm_size m) metas → post (λ c, 0 ≤ c) (chunk_offset_of o metas).
Proof.
  intros Ho Hm. revert o Ho. induction Hm as [|m metas Hm _ IH]; intros o Ho; simpl; [done|].
  post_step. post_step. apply IH. unfold meta_step, checked_add in *. simpl in *.
  repeat (case_bool_decide; simpl in *; [|done]). simplify_eq. apply Z.land_nonneg. left. lia.
Qed.

(** Computations that only look: no visible action, no change, no panic. *)
Definition looks {K E A} (m : SM (World K) E A) (Q : A → Prop) : Prop :=
  ∀ P mem, steps P mem m (λ r mem' l, mem' = mem ∧ l = [] ∧ post Q r).

Section looks.
Context {K E A B : Type}.
Implicit Types (m : SM (World K) E A) (f : A → SM (World K) E B).

Lemma looks_bind m f (Q : B → Prop) : looks m (λ a, looks (f a) Q) → looks (m ≫= f) Q.
Proof.
  intros Hm P mem. apply steps_bind. eapply steps_mono; [apply Hm|].
  intros [a|e|] mem' l (-> & -> & Hq); simpl in *; [apply Hq|done|done].
Qed.
Lemma looks_pure (r : Res E A) (Q : A → Prop) : post Q r → looks (K:=K) (pure r) Q.
Proof. intros Hr P mem. by apply steps_pure. Qed.
Lemma looks_ret (a : A) (Q : A → Prop) : Q a → looks (K:=K) (E:=E) (mret a) Q.
Proof. intros Hr P mem. by apply steps_ret. Qed.
Lemma looks_throw (e : E) (Q : A → Prop) : looks (K:=K) (throw e) Q.
Proof. intros P mem. by apply steps_throw. Qed.
Lemma looks_mono m (Q Q' : A → Prop) : looks m Q → (∀ a, Q a → Q' a) → looks m Q'.
Proof.
  intros Hm HQ P mem. eapply steps_mono; [apply Hm|]. intros [a|e|] mem' l (? & ? & ?); simpl in *; auto.
Qed.
Lemma looks_guard (b : bool) (e : E) m (Q : A → Prop) :
  (b = false → looks m Q) → looks (if b then throw e else m) Q.
Proof. destruct b; [intros _; apply looks_throw|auto]. Qed.
End looks.
Lemma looks_map_err {K E F A} (g : E → F) (m : SM (World K) E A) (Q : A → Prop) :
  looks m Q → looks (mmap_err g m) Q.
Proof.
  intros Hm P mem. apply steps_map_err. eapply steps_mono; [apply Hm|].
  intros [a|e|] mem' l (-> & -> & ?); done.
Qed.
Lemma post_mono {E A} (r : Res E A) (Q Q' : A → Prop) : post Q r → (∀ a, Q a → Q' a) → post Q' r.
Proof. destruct r; simpl; auto. Qed.
Lemma post_map_err {E F A} (g : E → F) (r : Res E A) (Q : A → Prop) : post Q r → post Q (map_err g r).
Proof. by destruct r. Qed.

(** Apply the rule for the next step. *)
Ltac look :=
  first [ apply looks_bind | apply looks_ret | apply looks_map_err | apply looks_throw
        | apply looks_guard; intros ?%bool_decide_eq_false | apply looks_pure ]; cbv beta.

Section output_laws.
Context {K : Type} `{OutputProcess K} (kernel : Kernel).

Lemma looks_ptr_add {E} (p : Ptr) n (Q : Ptr → Prop) :
  0 ≤ n ≤ p_room p → Q (mkPtr (p_addr p + n) (p_obj p) (p_off p + n) (p_room p - n)) →
  looks (K:=K) (E:=E) (ptr_add p n) Q.
Proof. intros Hn HQ P mem. by apply steps_ptr_add. Qed.

Lemma looks_output_buffer_raw chunk media n :
  16 ≤ p_room chunk → n ≤ p_room media → 0 ≤ n →
  looks (K:=K) (OutputBuffer_from_raw_parts chunk 16 media n 0 n) (λ _, True).
Proof. intros ? ? ? P mem. by apply steps_output_buffer. Qed.

Lemma looks_io_view p n :
  n ≤ p_room p → looks (K:=K) (BuffersIoView_from_raw_parts Buffers p n) (λ v, v = mkPtr (p_addr p) (p_obj p) (p_off p) n ∧ record_ok v 8).
Proof.
  intros Hn P mem. unfold BuffersIoView_from_raw_parts. rewrite bool_decide_eq_false_2 by done.
  apply steps_checked_record; [done|done|]. intros ? -> ?. done.
Qed.

Section bind.
Context {R : Type} `{ResolverLaws R} (memory : R).

Lemma looks_resolve id : looks (K:=K) (resolve_m memory id) (λ _, True).
Proof.
  apply looks_pure, post_map_err. pose proof (resolve_total memory id). by destruct (resolve memory id).
Qed.
Lemma looks_map key offset len :
  0 ≤ offset → 0 ≤ len → looks (K:=K) (map_m kernel memory key offset len) (mapping_of key offset len).
Proof. intros. by apply looks_pure, post_map_err, map_spec. Qed.

Lemma looks_bind_buffer ints d :
  buffer_nat d →
  looks (K:=K) (bind_buffer kernel memory ints d) (λ '(ints', b),
    ints' = ints ++ [interval (bb_metadata b); interval (bb_media b)] ∧
    any_overlap ints' = false ∧ bound_ok b).
Proof.
  intros ([Hro Hrl] & Hm & Hmo & Hms). unfold bind_buffer.
  look. look. eapply post_mono; [by apply chunk_offset_nonneg|]. simpl. intros c Hc. look. look.
  apply post_ok_or. unfold checked_add, CHUNK_SIZE. intros chunk_end Hce. case_bool_decide; [|done]. simplify_eq.
  look. look. look. eapply looks_mono; [apply looks_resolve|]. intros mk _.
  look. eapply looks_mono; [apply looks_resolve|]. intros dk _.
  look. eapply looks_mono; [by apply looks_map|]. intros metadata [Hmk _ Hml _].
  look. eapply looks_mono; [by apply looks_map|]. intros media [Hdk _ Hdl Hdpos].
  look. look. unfold reject_overlaps. destruct (any_overlap _) eqn:Ha; [done|]. simpl.
  look. apply looks_ptr_add; [simpl; lia|]. look. look.
  unfold mapping_len. rewrite <- Hdl. eapply looks_mono; [apply looks_output_buffer_raw; simpl; lia|].
  intros _ _. look. split_and!; [done..|]. split; simpl; try done; unfold mapping_len; lia.
Qed.

(** Later buffers extend the list of intervals that must stay disjoint. *)
Definition bound_intervals (b : BoundBuffer) : list MemoryInterval :=
  [interval (bb_metadata b); interval (bb_media b)].

Lemma looks_bind_buffers ints ds :
  Forall buffer_nat ds → any_overlap ints = false →
  looks (K:=K) (bind_buffers kernel memory ints ds) (λ bs,
    any_overlap (ints ++ concat (bound_intervals <$> bs)) = false ∧ Forall bound_ok bs).
Proof.
  intros Hds. revert ints. induction Hds as [|d ds Hd _ IH]; intros ints Hi; simpl.
  - look. simpl. by rewrite app_nil_r.
  - look. eapply looks_mono; [by apply looks_bind_buffer|]. intros [ints' b] (-> & Ha & Hb).
    look. eapply looks_mono; [by apply IH|]. intros bs (Ha' & Hbs). look.
    split; [|by constructor]. rewrite fmap_cons. simpl concat. by rewrite <- app_assoc in Ha'.
Qed.

Lemma looks_output_bind id format d io :
  Forall buffer_nat (bs_buffers d) → region_nat (pio_region io) →
  looks (K:=K) (OutputGeneration_bind kernel memory id format d io) (λ g,
    output_ok g ∧ og_id g = id ∧ og_format g = format).
Proof.
  intros Hds [Hro Hrl]. unfold OutputGeneration_bind. look.
  look. eapply looks_mono; [apply looks_resolve|]. intros key _.
  look. eapply looks_mono; [by apply looks_map|]. intros io_m [Hk _ Hl _].
  look. look. eapply looks_mono; [by apply looks_io_view|]. intros v _.
  apply looks_guard; intros Hlen%bool_decide_eq_false.
  look. eapply looks_mono; [by apply looks_bind_buffers|]. intros bs [Ha Hb]. look.
  split_and!; [|done..]. split; simpl; [done| |done|done].
  unfold mapping_len, IO_SIZE in *. lia.
Qed.
End bind.

(** ** One cycle through an output *)

(** Where the records of a bound output lie. *)
Definition io_ptr (g : OutputGeneration) : Ptr :=
  mkPtr (p_addr (as_mut_ptr (og_io g))) (p_obj (as_mut_ptr (og_io g))) (p_off (as_mut_ptr (og_io g)))
    (mapping_len (og_io g)).
Definition chunk_ptr (b : BoundBuffer) : Ptr :=
  let m := as_mut_ptr (bb_metadata b) in
  mkPtr (p_addr m + bb_chunk_offset b) (p_obj m) (p_off m + bb_chunk_offset b) 16.
Definition buffer_at (b : BoundBuffer) (s : ChunkState) : OutputBuffer :=
  let m := as_mut_ptr (bb_media b) in
  mkOutputBuffer (chunk_ptr b) (mkPtr (p_addr m + 0) (p_obj m) (p_off m + 0) (p_room m - 0))
    (mapping_len (bb_media b)) (c_offset s mod mapping_len (bb_media b)).

(** A view of a bound buffer, made when its chunk was [s]. *)
Definition viewed (P : BackingIdentity → Z → Prop) (mem : Mem) (b : BoundBuffer) (ob : OutputBuffer) : Prop :=
  ∃ s, ob = buffer_at b s ∧ buffer_ok ob ∧ chunk_fits s (mapping_len (bb_media b)) ∧
    (covers P (chunk_ptr b) 0 16 → s = chunk_of mem (chunk_ptr b)).

(** No view can be made: an address is null or misaligned, the plane is too
    large, or its chunk does not fit it. *)
Definition not_viewable (P : BackingIdentity → Z → Prop) (mem : Mem) (b : BoundBuffer) : Prop :=
  p_addr (chunk_ptr b) ≠ 0 → p_addr (chunk_ptr b) mod 4 = 0 → p_addr (as_mut_ptr (bb_media b)) ≠ 0 →
  mapping_len (bb_media b) ≤ u32_max → covers P (chunk_ptr b) 0 16 →
  ¬ chunk_fits (chunk_of mem (chunk_ptr b)) (mapping_len (bb_media b)).

Lemma steps_output_view P mem b Q :
  bound_ok b → (∀ e, not_viewable P mem b → Q (Err (SessPort e)) mem []) →
  (∀ ob, viewed P mem b ob → Q (Ok ob) mem []) → steps (K:=K) P mem (output_buffer b) Q.
Proof.
  intros [_ _ [? ?] Hcap] He Ha. unfold mapping_len in *.
  apply steps_bind, steps_ptr_add; [simpl; lia|].
  apply steps_map_err, steps_output_buffer; [simpl; unfold mapping_len; lia..| |]; simpl.
  - intros e Hn. apply He. intros ? ? ? ? ?. by apply Hn.
  - intros s Hok Hf Hs. apply Ha. by exists s.
Qed.

Lemma steps_output_buffers P mem bs Q :
  Forall bound_ok bs → (∀ e b, b ∈ bs → not_viewable P mem b → Q (Err (SessPort e)) mem []) →
  (∀ obs, Forall2 (viewed P mem) bs obs → Q (Ok obs) mem []) → steps (K:=K) P mem (output_buffers bs) Q.
Proof.
  intros Hbs. revert Q. induction Hbs as [|b bs Hb _ IH]; intros Q He Ha; simpl.
  - apply steps_ret, Ha. constructor.
  - apply steps_bind, steps_output_view; [done|intros; eapply He; [left|done]|]. intros ob Hob.
    apply steps_bind, IH; [intros; eapply He; [by right|done]|]. intros obs Hobs.
    apply steps_ret, Ha. by constructor.
Qed.

(** How [process] ends. In the last two cases the callback ran, on the
    plane of the buffer the server selected: its commit was published, or
    the chunk was emptied and the buffer handed back. *)
Definition ran_callback (i : Z) (b : OutputBuffer) : list Event :=
  [EvCallback i; EvMedia (p_obj (ob_media b)) (media_at b) (ob_capacity b)].
Definition filled (mem : Mem) (b : OutputBuffer) (media : Z → byte) : Mem :=
  mem_fill mem (p_obj (ob_media b)) (media_at b) (ob_capacity b) media.

(** The callback's answer, given what the plane held. *)
Definition answered (P : BackingIdentity → Z → Prop) (mem : Mem) (c : OutputCycle)
    (media : Z → byte) (r : Res string CommittedOutput) : Prop :=
  ∃ k k' media0, op_process k c media0 = (k', media, r) ∧
    (covers P (ob_media (oc_buffer c)) (ob_data_offset (oc_buffer c)) (ob_capacity (oc_buffer c)) →
     ∀ j, 0 ≤ j < ob_capacity (oc_buffer c) →
       media0 j = mem (p_obj (ob_media (oc_buffer c))) (media_at (oc_buffer c) + j)).

(** Why a cycle is refused before anything is done. *)
Definition refused (P : BackingIdentity → Z → Prop) (mem : Mem) (g : OutputGeneration) : Prop :=
  (p_addr (io_ptr g) ≠ 0 → p_addr (io_ptr g) mod 4 ≠ 0) ∨
  (∃ b, b ∈ og_buffers g ∧ not_viewable P mem b) ∨
  (covers P (io_ptr g) 0 8 → io_status (io_of mem (io_ptr g)) = 1 ∧
     len (og_buffers g) ≤ io_buffer_id (io_of mem (io_ptr g))).

Inductive process_spec (P : BackingIdentity → Z → Prop) (mem : Mem) (g : OutputGeneration) :
    Res SessionError (option PublishedOutput * Z) → Mem → list Event → Prop :=
| process_refused e :
    refused P mem g → (∀ s, e ≠ CallbackError s) → process_spec P mem g (Err e) mem []
| process_idle :
    (covers P (io_ptr g) 0 8 → io_status (io_of mem (io_ptr g)) ≠ 1) →
    process_spec P mem g (Ok (None, 0)) mem []
| process_published i bb b media c :
    og_buffers g !! Z.to_nat i = Some bb → viewed P mem bb b →
    (covers P (io_ptr g) 0 8 → io_of mem (io_ptr g) = mkIoState 1 i) →
    answered P mem (mkCycle b i (og_format g)) media (Ok c) → co_buffer_id c = i →
    co_stride c ≤ ob_max_size b → co_stride c ≤ 2 ^ 31 - 1 →
    process_spec P mem g (Ok (Some (mkPublished i (co_bytes c)), 2))
      (put_io (put_chunk (filled mem b media) (ob_chunk b) (committed_chunk b c)) (io_ptr g) HaveData i)
      (ran_callback i b ++ wrote_chunk (ob_chunk b) (committed_chunk b c) ++ wrote_io (io_ptr g) HaveData i)
| process_aborted i bb b media r r' s :
    og_buffers g !! Z.to_nat i = Some bb → viewed P mem bb b →
    (covers P (io_ptr g) 0 8 → io_of mem (io_ptr g) = mkIoState 1 i) →
    answered P mem (mkCycle b i (og_format g)) media r →
    (covers P (ob_chunk b) 0 16 → s = chunk_of (filled mem b media) (ob_chunk b)) →
    match r with
    | Ok c => (co_buffer_id c ≠ i ∨ co_stride c > ob_max_size b ∨ co_stride c > 2 ^ 31 - 1) ∧ ∃ e, r' = Err (SessCycle e)
    | Err m => r' = Err (CallbackError m)
    | Panic => r' = Panic
    end →
    process_spec P mem g r'
      (put_io (put_chunk (filled mem b media) (ob_chunk b) (aborted s)) (io_ptr g) NeedData i)
      (ran_callback i b ++ wrote_chunk (ob_chunk b) (aborted s) ++ wrote_io (io_ptr g) NeedData i).

Lemma steps_io_view P mem g Q :
  mapping_len (og_io g) = 8 →
  (∀ e, (p_addr (io_ptr g) ≠ 0 → p_addr (io_ptr g) mod 4 ≠ 0) → Q (Err (SessPort e)) mem []) →
  (record_ok (io_ptr g) 8 → Q (Ok (io_ptr g)) mem []) →
  steps (K:=K) P mem (io_view g) Q.
Proof.
  intros Hl He Ha. apply steps_map_err. unfold BuffersIoView_from_raw_parts.
  rewrite bool_decide_eq_false_2 by done.
  apply steps_checked_record; [done|intros e Hx; apply He; intros; by apply Hx|].
  intros ? ? ?. by apply Ha.
Qed.

Lemma steps_process P mem g :
  output_ok g → steps (K:=K) P mem (process g) (process_spec P mem g).
Proof.
  intros [_ Hl Hb _]. apply steps_bind, steps_io_view; [done|by intros; apply process_refused; [left|]|].
  intros Hio. apply steps_bind, steps_output_buffers; [done|intros; apply process_refused; [right; left; eauto|done]|].
  intros obs Hobs. assert (len obs = len (og_buffers g)) as Hn
    by (unfold len; f_equal; symmetry; by eapply Forall2_length).
  apply steps_bind, steps_map_err, steps_select; [done|..].
  { intros e He. apply process_refused; [right; right; by rewrite <- Hn|done]. }
  { intros Hs. apply steps_ret. by apply process_idle. }
  intros i b Hi _ Hsel. simpl.
  destruct (Forall2_lookup_r _ _ _ _ _ Hobs Hi) as (bb & Hbb & Hview).
  assert (buffer_ok b) as Hok by (by destruct Hview as (? & ? & ? & _)).
  assert (record_ok (ob_chunk b) 16) as Hc by apply Hok.
  apply steps_unwinding, steps_bind, steps_map_err, steps_call_process; [done|].
  intros k k' media0 media r Hp Hm. fold (filled mem b media). fold (ran_callback i b). simpl.
  assert (answered P mem (mkCycle b i (og_format g)) media r) as Hans by (by exists k, k', media0).
  destruct r as [c|m|]; simpl.
  - apply steps_bind, steps_map_err, (steps_publish_committed _ _ _ _ _ b); [done..| |].
    + intros e He. apply (steps_drop _ _ _ _ _ b); [done..|]. intros s Hs.
      apply (process_aborted P mem g i bb b media (Ok c) _ s); eauto.
    + intros Hid ? ?. apply steps_ret. by apply (process_published P mem g i bb b media c).
  - apply (steps_drop _ _ _ _ _ b); [done..|]. intros s Hs.
    by apply (process_aborted P mem g i bb b media (Err m) _ s).
  - apply (steps_drop _ _ _ _ _ b); [done..|]. intros s Hs.
    by apply (process_aborted P mem g i bb b media Panic _ s).
Qed.
End output_laws.
