(* ===== verification/NodeSession.v ===== *)
(** * The ClientNode session

    Models [node/src/session/transport.rs], [session/peer.rs] and
    [session/owner.rs]: the transport generation that owns a node's
    activation, the downstream peers it triggers, and the state machine that
    applies server commands and runs process cycles.

    A session is a record; its methods are computations on the session and
    the world, so what a failing command leaves behind is part of the model. *)

From stdpp Require Import sorting.
From S2P Require Import Prelude FrameHeader ClientNode NodeMemory NodeShared NodeActivation NodePort.
From S2P Require Import NodeCycle NodeConfig NodeOutput.
#[local] Open Scope Z_scope.

(** ** Transport generations: [transport.rs] *)
Record TransportGeneration := mkTransportGeneration {
  tg_id : Z;
  tg_trigger : Z;
  tg_completion : Z;
  tg_activation_key : MemoryKey;
  tg_activation : MemoryMapping;
}.

Inductive ClaimCompletion (T : Type) :=
| NotClaimed
| Completed (result : SessionError + T) (finish_ns : Z).
Arguments NotClaimed {T}.
Arguments Completed {T} result finish_ns.

Definition EIO : Z := 5.

(** [OrderedMemory]: the leases delivered so far. *)
Notation Leases := (gmap Z MemoryLease).
#[global] Instance leases_resolver : MemoryResolver Leases := {|
  resolve m id := ok_or (lease_key <$> m !! id) (UnknownMemory id);
  res_map kernel m key offset len w :=
    lease ← ok_or (m !! k_id key) (StaleGeneration key None);
    if bool_decide (lease_key lease ≠ key) then Err (StaleGeneration key (Some (lease_key lease))) else
    lease_map kernel lease offset len w;
|}.

Section transport.
Context {K : Type} `{EventSys K} (kernel : Kernel).
Notation M := (SM (World K) SessionError).

Definition view_of (m : MemoryMapping) : M Ptr :=
  mmap_err SessActivation (ActivationView_from_raw_parts (as_mut_ptr m) (mapping_len m)).

Definition TransportGeneration_bind (id : Z) (d : TransportDescriptor) (memory : Leases) :
    M TransportGeneration :=
  key ← resolve_m memory (sr_memory (td_activation d));
  mapping ← map_m kernel memory key (sr_offset (td_activation d)) (sr_len (td_activation d));
  activation ← view_of mapping;
  mmap_err SessActivation (initialize_client_v1 activation);;
  trigger ← mmap_err Signal (from_owned_fd (td_trigger_fd d));
  completion ← mmap_err Signal (from_owned_fd (td_completion_fd d));
  mret (mkTransportGeneration id trigger completion key mapping).

Definition transport_status (t : TransportGeneration) : M ActivationStatus :=
  view ← view_of (tg_activation t); mmap_err SessActivation (status view).
Definition transport_mark_ready (t : TransportGeneration) : M unit :=
  view ← view_of (tg_activation t); mmap_err SessActivation (mark_ready view).
Definition transport_deactivate (t : TransportGeneration) : M ActivationStatus :=
  view ← view_of (tg_activation t); mmap_err SessActivation (deactivate view).
Definition transport_drain (t : TransportGeneration) : M Z :=
  mmap_err Signal (drain_fd (tg_trigger t)).

(** [Drop for TransportGeneration] *)
Definition transport_drop {E} (t : TransportGeneration) : SM (World K) E unit :=
  _ ← try (transport_deactivate t); mret tt.

(** What the callback's end means for the cycle. *)
Definition cycle_result {T} (processed : option (SessionError + T * Z)) : (SessionError + T) * Z :=
  match processed with
  | Some (inr (value, status)) => (inr value, status)
  | Some (inl error) => (inl error, - EIO)
  | None => (inl CallbackPanicked, - EIO)
  end.

(** [finish_time] is [None] if sampling the clock panics. *)
Definition claim_and_finish {T} (t : TransportGeneration) (awake_ns : Z) (finish_time : option Z)
    (process : M (T * Z)) : M (ClaimCompletion T) :=
  activation ← view_of (tg_activation t);
  claim ← try (claim_cycle activation awake_ns);
  match claim with
  | inl (InvalidStatusTransition Triggered _) => mret NotClaimed
  | inl e => throw (SessActivation e)
  | inr claim =>
      processed ← catch_unwind process;
      let '(result, status) := cycle_result processed in
      let '(result, status, finish_ns) :=
        match finish_time with
        | Some finish_ns => (result, status, finish_ns)
        | None => (inl FinishClockPanicked, - EIO, awake_ns)
        end in
      mmap_err SessActivation (publish_result_and_finish claim status finish_ns);;
      mret (Completed result finish_ns)
  end.
End transport.

(** ** Peers: [peer.rs] *)
Record PeerActivation := mkPeer {
  pa_node : Z;
  pa_generation : Z;
  pa_signal : Z;
  pa_key : MemoryKey;
  pa_mapping : MemoryMapping;
}.
Notation PeerMap := (gmap Z PeerActivation).

(** A [BTreeMap] is visited in the order of its keys. *)
Definition key_le {A} (x y : Z * A) : Prop := x.1 ≤ y.1.
#[global] Instance key_le_dec {A} : RelDecision (@key_le A).
Proof. intros x y. unfold key_le. apply _. Defined.
Definition in_order {A} (m : gmap Z A) : list (Z * A) := merge_sort key_le (map_to_list m).

Section peers.
Context {K : Type} `{EventSys K} (kernel : Kernel).
Notation M := (SM (World K) SessionError).

Definition PeerActivation_bind (generation : Z) (d : PeerActivationDescriptor) (memory : Leases) :
    M PeerActivation :=
  key ← resolve_m memory (sr_memory (pd_activation d));
  mapping ← map_m kernel memory key (sr_offset (pd_activation d)) (sr_len (pd_activation d));
  view_of mapping;;
  signal ← mmap_err Signal (from_owned_fd (pd_signal_fd d));
  mret (mkPeer (pd_node d) generation signal key mapping).

Definition peer_trigger (p : PeerActivation) (now_ns : Z) : M TriggerOutcome :=
  view ← view_of (pa_mapping p);
  outcome ← mmap_err SessActivation (decrement_pending_and_trigger view now_ns);
  match outcome with
  | PeerTriggered => mmap_err Signal (signal_fd (pa_signal p) 1);; mret outcome
  | Waiting _ => mret outcome
  end.

Definition relabel (node : Z) (e : SessionError) : SessionError :=
  match e with
  | SessActivation source => PeerTrigger node source
  | Signal source => PeerSignal node source
  | other => other
  end.

Fixpoint trigger_peers (peers : list (Z * PeerActivation)) (first_error : option SessionError)
    (now_ns : Z) : M (option SessionError) :=
  match peers with
  | [] => mret first_error
  | (node, peer) :: peers =>
      result ← try (peer_trigger peer now_ns);
      trigger_peers peers
        match first_error, result with
        | None, inl e => Some (relabel node e)
        | _, _ => first_error
        end now_ns
  end.

Definition trigger_all (peers : PeerMap) (now_ns : Z) : M unit :=
  first_error ← trigger_peers (in_order peers) None now_ns;
  match first_error with Some e => throw e | None => mret tt end.

Definition peers_remove_memory (peers : PeerMap) (key : MemoryKey) : PeerMap :=
  filter (λ kv, pa_key kv.2 ≠ key) peers.
Definition peer_interval (p : PeerActivation) : MemoryInterval := interval (pa_mapping p).
Definition peer_intervals (peers : PeerMap) : list MemoryInterval :=
  peer_interval ∘ snd <$> in_order peers.
Definition intervals_except (peers : PeerMap) (node : Z) : list MemoryInterval :=
  peer_interval ∘ snd <$> filter (λ kv, kv.1 ≠ node) (in_order peers).
End peers.

(** ** The owner: [owner.rs] *)
Definition MAX_SESSION_PEERS : Z := 64.

Inductive NodeCommandState := CmdPause | CmdStart | CmdSuspend.
#[global] Instance NodeCommandState_eq_dec : EqDecision NodeCommandState.
Proof. solve_decision. Defined.
Inductive SessionState :=
| Configuring | Ready | Running | CycleClaimed | Stopped | Failed | DisconnectedState.
#[global] Instance SessionState_eq_dec : EqDecision SessionState.
Proof. solve_decision. Defined.

Inductive SessionCommand :=
| ReplaceTransport (d : TransportDescriptor)
| SetFormat (f : NegotiatedAudioFormat)
| ClearFormat
| UseBuffers (d : BufferSetDescriptor)
| ClearBuffers
| SetPortIo (d : PortIoDescriptor)
| ClearPortIo
| SetPeerActivation (d : PeerActivationDescriptor)
| RemovePeerActivation (node : Z)
| MemoryAvailable (lease : MemoryLease)
| RemoveMemory (key : MemoryKey)
| MemoryDisconnected
| SetActive (active : bool)
| SetNodeCommand (c : NodeCommandState)
| Disconnect.

(** [SessionCommand::from_wire] *)
Definition command_from_wire (event : ClientNode.Event) : ConfRes SessionCommand :=
  match event with
  | ETransport v => d ← transport_try_from v; Ok (ReplaceTransport d)
  | EPortSetParam v =>
      match param v with
      | None =>
          _ ← validate_port (sp_direction v) (sp_port_id v) None;
          if bool_decide (param_id v ≠ SPA_PARAM_FORMAT) then unsupported (Parameter_ (param_id v)) else
          Ok ClearFormat
      | Some _ => f ← format_from_wire v; Ok (SetFormat f)
      end
  | EPortUseBuffers v =>
      d ← buffer_set_try_from v;
      if bool_decide (bs_buffers d = []) then Ok ClearBuffers else Ok (UseBuffers d)
  | EPortSetIo v =>
      u ← port_io_try_from v;
      Ok match u with PortIoSet d => SetPortIo d | PortIoClear => ClearPortIo end
  | ESetActivation v =>
      u ← set_activation_try_from v;
      Ok match u with PeerSet d => SetPeerActivation d | PeerRemove node => RemovePeerActivation node end
  | ECommand c =>
      Ok (SetNodeCommand match c with Start => CmdStart | Pause => CmdPause | Suspend => CmdSuspend end)
  end.

Inductive ApplyOutcome := Applied | PendingMemory | AlreadyDisconnected.
#[global] Instance ApplyOutcome_eq_dec : EqDecision ApplyOutcome.
Proof. solve_decision. Defined.
Inductive WakeOutcome :=
| NoWake
| Stale (expected received : Z)
| NotRunning (drained : Z)
| WakeNotClaimed (drained missed : Z)
| Processed (drained missed : Z) (produced : bool).

Record ClientNodeSession := mkSession {
  available_memory : Leases;
  s_next_generation : Z;
  transport : option TransportGeneration;
  pending_transport : option TransportDescriptor;
  format : option NegotiatedAudioFormat;
  buffer_descriptor : option BufferSetDescriptor;
  io_descriptor : option PortIoDescriptor;
  output : option OutputGeneration;
  peers : PeerMap;
  pending_peers : gmap Z PeerActivationDescriptor;
  active_requested : bool;
  command : NodeCommandState;
  state : SessionState;
}.

Definition ClientNodeSession_new : ClientNodeSession :=
  mkSession ∅ 1 None None None None None None ∅ ∅ false CmdPause Configuring.

(** Assignments to single fields. *)
Definition set_available m s := mkSession m (s_next_generation s) (transport s) (pending_transport s)
  (format s) (buffer_descriptor s) (io_descriptor s) (output s) (peers s) (pending_peers s)
  (active_requested s) (command s) (state s).
Definition set_next_generation g s := mkSession (available_memory s) g (transport s) (pending_transport s)
  (format s) (buffer_descriptor s) (io_descriptor s) (output s) (peers s) (pending_peers s)
  (active_requested s) (command s) (state s).
Definition set_transport t s := mkSession (available_memory s) (s_next_generation s) t (pending_transport s)
  (format s) (buffer_descriptor s) (io_descriptor s) (output s) (peers s) (pending_peers s)
  (active_requested s) (command s) (state s).
Definition set_pending_transport t s := mkSession (available_memory s) (s_next_generation s) (transport s) t
  (format s) (buffer_descriptor s) (io_descriptor s) (output s) (peers s) (pending_peers s)
  (active_requested s) (command s) (state s).
Definition set_format f s := mkSession (available_memory s) (s_next_generation s) (transport s)
  (pending_transport s) f (buffer_descriptor s) (io_descriptor s) (output s) (peers s) (pending_peers s)
  (active_requested s) (command s) (state s).
Definition set_buffers b s := mkSession (available_memory s) (s_next_generation s) (transport s)
  (pending_transport s) (format s) b (io_descriptor s) (output s) (peers s) (pending_peers s)
  (active_requested s) (command s) (state s).
Definition set_io i s := mkSession (available_memory s) (s_next_generation s) (transport s)
  (pending_transport s) (format s) (buffer_descriptor s) i (output s) (peers s) (pending_peers s)
  (active_requested s) (command s) (state s).
Definition set_output o s := mkSession (available_memory s) (s_next_generation s) (transport s)
  (pending_transport s) (format s) (buffer_descriptor s) (io_descriptor s) o (peers s) (pending_peers s)
  (active_requested s) (command s) (state s).
Definition set_peers p s := mkSession (available_memory s) (s_next_generation s) (transport s)
  (pending_transport s) (format s) (buffer_descriptor s) (io_descriptor s) (output s) p (pending_peers s)
  (active_requested s) (command s) (state s).
Definition set_pending_peers p s := mkSession (available_memory s) (s_next_generation s) (transport s)
  (pending_transport s) (format s) (buffer_descriptor s) (io_descriptor s) (output s) (peers s) p
  (active_requested s) (command s) (state s).
Definition set_active_requested a s := mkSession (available_memory s) (s_next_generation s) (transport s)
  (pending_transport s) (format s) (buffer_descriptor s) (io_descriptor s) (output s) (peers s)
  (pending_peers s) a (command s) (state s).
Definition set_command c s := mkSession (available_memory s) (s_next_generation s) (transport s)
  (pending_transport s) (format s) (buffer_descriptor s) (io_descriptor s) (output s) (peers s)
  (pending_peers s) (active_requested s) c (state s).
Definition set_state x s := mkSession (available_memory s) (s_next_generation s) (transport s)
  (pending_transport s) (format s) (buffer_descriptor s) (io_descriptor s) (output s) (peers s)
  (pending_peers s) (active_requested s) (command s) x.

Definition is_ready (s : ClientNodeSession) : bool :=
  bool_decide (is_Some (transport s)) && bool_decide (is_Some (format s)) && bool_decide (is_Some (output s)).

Definition unresolved (r : MemRes MemoryKey) : ConfRes bool :=
  match r with
  | Ok _ => Ok false
  | Err (UnknownMemory _) => Ok true
  | Err e => Err (SessMemory e)
  | Panic => Panic
  end.

Definition buffer_memory_ids (d : BufferSetDescriptor) : list Z :=
  concat ((λ b, [sr_memory (sb_metadata b); sb_media_memory b]) <$> bs_buffers d).

Definition ensure_disjoint (candidate existing : list MemoryInterval) : ConfRes unit :=
  if existsb (λ l, existsb (overlaps l) existing) candidate
  then Err (InvalidTransition "overlapping generation mappings") else Ok tt.

Definition transport_interval (t : TransportGeneration) : MemoryInterval := interval (tg_activation t).
Definition opt_list {A B} (f : A → list B) (o : option A) : list B := match o with Some a => f a | None => [] end.
Definition transport_intervals (s : ClientNodeSession) : list MemoryInterval :=
  opt_list (λ t, [transport_interval t]) (transport s).
Definition session_output_intervals (s : ClientNodeSession) : list MemoryInterval :=
  opt_list output_intervals (output s).

Section owner.
Context {K : Type} `{EventSys K, OutputProcess K} (kernel : Kernel).
Notation O := (SM (ClientNodeSession * World K) SessionError).

(** Reading and assigning fields, and acting on the world. *)
Definition gets {A} (f : ClientNodeSession → A) : O A := λ sw, (sw, Ok (f sw.1)).
Definition modify (f : ClientNodeSession → ClientNodeSession) : O unit := λ sw, ((f sw.1, sw.2), Ok tt).
Definition world {E A} (m : SM (World K) E A) : SM (ClientNodeSession * World K) E A := λ sw,
  let '(w, r) := m sw.2 in ((sw.1, w), r).
Definition expect {A} (o : option A) : O A := match o with Some a => mret a | None => panic end.

(** [?] on a computation whose temporary [t] is dropped when it fails *)
Definition dropping {A} (t : TransportGeneration) (m : O A) : O A := λ sw,
  match m sw with
  | (sw', Ok a) => (sw', Ok a)
  | (sw', r) => match world (transport_drop (E:=SessionError) t) sw' with
                | (sw'', Panic) => (sw'', Panic) | (sw'', _) => (sw'', r) end
  end.

(** [self.transport = t], dropping the old value *)
Definition assign_transport (t : option TransportGeneration) : O unit :=
  old ← gets transport;
  match old with Some old => world (transport_drop old) | None => mret tt end;;
  modify (set_transport t).

Definition stop : O unit :=
  t ← gets transport;
  match t with Some t => _ ← world (transport_deactivate t); mret tt | None => mret tt end;;
  modify (λ s,
    if bool_decide (state s ≠ DisconnectedState) && bool_decide (state s ≠ Failed)
    then set_state (if is_ready s then Stopped else Configuring) s else s).

Definition fail : O unit :=
  t ← gets transport;
  match t with Some t => _ ← try (world (transport_deactivate t)); mret tt | None => mret tt end;;
  modify (set_state Failed).

Definition disconnect_session : O unit :=
  _ ← try stop;
  modify (set_pending_peers ∅);;
  modify (set_peers ∅);;
  modify (set_output None);;
  modify (set_io None);;
  modify (set_buffers None);;
  modify (set_format None);;
  modify (set_pending_transport None);;
  assign_transport None;;
  modify (set_available ∅);;
  modify (set_state DisconnectedState).

Definition refresh_state : O unit :=
  modify (λ s, match state s with
    | Running | CycleClaimed | Failed | DisconnectedState => s
    | _ => set_state (if is_ready s then Ready else Configuring) s
    end).

Definition allocate_generation : O Z :=
  generation ← gets s_next_generation;
  next ← pure (ok_or (checked_add 64 generation 1) (Overflow "session generation"));
  modify (set_next_generation next);;
  mret generation.

Definition ensure_running : O unit :=
  active ← gets active_requested;
  command ← gets command;
  if negb active || bool_decide (command ≠ CmdStart) then mret tt else
  ready ← gets is_ready;
  if negb ready then modify (set_state Configuring) else
  t ← gets transport;
  t ← expect t;
  status ← world (transport_status t);
  match status with
  | Inactive => world (transport_mark_ready t)
  | Finished => mret tt
  | _ => throw (InvalidTransition "Start activation status")
  end;;
  modify (set_state Running).

Definition bind_transport : O ApplyOutcome :=
  pending ← gets pending_transport;
  match pending with
  | None => mret Applied
  | Some d =>
      memory ← gets available_memory;
      missing ← pure (unresolved (resolve memory (sr_memory (td_activation d))));
      if missing : bool then mret PendingMemory else
      modify (set_pending_transport None);;
      generation ← allocate_generation;
      candidate ← world (TransportGeneration_bind kernel generation d memory);
      dropping candidate (
        existing ← gets (λ s, session_output_intervals s ++ peer_intervals (peers s));
        pure (ensure_disjoint [transport_interval candidate] existing);;
        stop);;
      assign_transport (Some candidate);;
      mret Applied
  end.

(** [for id in ids { if unresolved(..)? { return Ok(None) } }] *)
Fixpoint any_unresolved (memory : Leases) (ids : list Z) : ConfRes bool :=
  match ids with
  | [] => Ok false
  | id :: ids => missing ← unresolved (resolve memory id);
                 if missing : bool then Ok true else any_unresolved memory ids
  end.

Definition output_candidate (format : NegotiatedAudioFormat) (buffers : BufferSetDescriptor)
    (io : PortIoDescriptor) : O (option OutputGeneration) :=
  memory ← gets available_memory;
  missing ← pure (any_unresolved memory (buffer_memory_ids buffers ++ [sr_memory (pio_region io)]));
  if missing : bool then mret None else
  generation ← allocate_generation;
  candidate ← world (OutputGeneration_bind kernel memory generation format buffers io);
  existing ← gets (λ s, transport_intervals s ++ peer_intervals (peers s));
  pure (ensure_disjoint (output_intervals candidate) existing);;
  mret (Some candidate).

Definition bind_output : O ApplyOutcome :=
  s ← gets id;
  match format s, buffer_descriptor s, io_descriptor s with
  | Some format, Some buffers, Some io =>
      candidate ← output_candidate format buffers io;
      match candidate with
      | None => mret PendingMemory
      | Some candidate => stop;; modify (set_output (Some candidate));; mret Applied
      end
  | _, _, _ => mret Applied
  end.

Definition bind_peer (node : Z) : O ApplyOutcome :=
  pending ← gets pending_peers;
  d ← expect (pending !! node);
  memory ← gets available_memory;
  missing ← pure (unresolved (resolve memory (sr_memory (pd_activation d))));
  if missing : bool then mret PendingMemory else
  modify (set_pending_peers (delete node pending));;
  generation ← allocate_generation;
  candidate ← world (PeerActivation_bind kernel generation d memory);
  existing ← gets (λ s, transport_intervals s ++ session_output_intervals s ++
                        intervals_except (peers s) node);
  pure (ensure_disjoint [peer_interval candidate] existing);;
  modify (λ s, set_peers (<[pa_node candidate := candidate]> (peers s)) s);;
  mret Applied.

Fixpoint bind_peers (nodes : list Z) (pending : bool) : O bool :=
  match nodes with
  | [] => mret pending
  | node :: nodes => r ← bind_peer node;
                     bind_peers nodes (pending || bool_decide (r = PendingMemory))
  end.

Definition retry_pending : O ApplyOutcome :=
  t ← gets pending_transport;
  pending ← match t with
    | Some _ => r ← bind_transport; mret (bool_decide (r = PendingMemory))
    | None => mret false
    end;
  both ← gets (λ s, bool_decide (is_Some (buffer_descriptor s)) && bool_decide (is_Some (io_descriptor s)));
  pending ← (if both : bool then r ← bind_output; mret (pending || bool_decide (r = PendingMemory))
             else mret pending);
  nodes ← gets (λ s, fst <$> in_order (pending_peers s));
  pending ← bind_peers nodes pending;
  mret (if pending : bool then PendingMemory else Applied).

Definition remove_memory (key : MemoryKey) : O unit :=
  t ← gets transport;
  match t with
  | Some t => if bool_decide (tg_activation_key t = key) then stop;; assign_transport None else mret tt
  | None => mret tt
  end;;
  o ← gets output;
  match o with
  | Some g => if depends_on g key then stop;; modify (set_output None) else mret tt
  | None => mret tt
  end;;
  modify (λ s, set_peers (peers_remove_memory (peers s) key) s).

(** One command of [apply]. *)
Definition apply_command (c : SessionCommand) : O ApplyOutcome :=
  match c with
  | ReplaceTransport v => modify (set_pending_transport (Some v));; bind_transport
  | SetFormat v =>
      current ← gets format;
      modify (set_format (Some v));;
      match current with
      | Some f => if bool_decide (f ≠ v) then
                    stop;; modify (set_buffers None);; modify (set_io None);; modify (set_output None)
                  else mret tt
      | None => mret tt
      end;;
      bind_output
  | ClearFormat =>
      stop;; modify (set_output None);; modify (set_io None);; modify (set_buffers None);;
      modify (set_format None);; mret Applied
  | UseBuffers v =>
      s ← gets id;
      match buffer_descriptor s with
      | Some current =>
          if bool_decide (current ≠ v) then
            pending ← match format s, io_descriptor s with
              | Some f, Some io => o ← output_candidate f v io; mret (bool_decide (o = None))
              | _, _ => mret false
              end;
            stop;; modify (set_output None);; modify (set_io None);;
            modify (set_buffers (Some v));;
            mret (if pending : bool then PendingMemory else Applied)
          else modify (set_buffers (Some v));; bind_output
      | None => modify (set_buffers (Some v));; bind_output
      end
  | ClearBuffers =>
      stop;; modify (set_output None);; modify (set_io None);; modify (set_buffers None);; mret Applied
  | SetPortIo v =>
      s ← gets id;
      match format s, buffer_descriptor s with
      | Some f, Some b =>
          candidate ← output_candidate f b v;
          stop;;
          modify (set_io (Some v));;
          modify (set_output candidate);;
          mret (match candidate with Some _ => Applied | None => PendingMemory end)
      | _, _ => modify (set_io (Some v));; mret Applied
      end
  | ClearPortIo => stop;; modify (set_output None);; modify (set_io None);; mret Applied
  | SetPeerActivation v =>
      let node := pd_node v in
      s ← gets id;
      if bool_decide (pending_peers s !! node = None) && bool_decide (peers s !! node = None) &&
         bool_decide (MAX_SESSION_PEERS ≤ saturating_add (Z.of_nat (base.size (pending_peers s)))
                                            (Z.of_nat (base.size (peers s))))
      then throw (TooManyDescriptors "peer activations") else
      modify (set_pending_peers (<[node := v]> (pending_peers s)));;
      bind_peer node
  | RemovePeerActivation node =>
      modify (λ s, set_pending_peers (delete node (pending_peers s)) s);;
      modify (λ s, set_peers (delete node (peers s)) s);;
      mret Applied
  | MemoryAvailable lease =>
      modify (λ s, set_available (<[k_id (lease_key lease) := lease]> (available_memory s)) s);;
      retry_pending
  | RemoveMemory key =>
      modify (λ s,
        match available_memory s !! k_id key with
        | Some lease => if bool_decide (lease_key lease = key)
                        then set_available (delete (k_id key) (available_memory s)) s else s
        | None => s
        end);;
      remove_memory key;;
      mret Applied
  | MemoryDisconnected => disconnect_session;; mret Applied
  | SetActive active =>
      modify (set_active_requested active);;
      (if active then ensure_running else stop);;
      mret Applied
  | SetNodeCommand c =>
      modify (set_command c);;
      match c with
      | CmdStart => ensure_running
      | CmdPause => stop
      | CmdSuspend =>
          stop;; modify (set_output None);; modify (set_io None);; modify (set_buffers None);;
          modify (set_format None)
      end;;
      mret Applied
  | Disconnect => disconnect_session;; mret Applied
  end.

Definition apply (c : SessionCommand) : O ApplyOutcome :=
  s ← gets id;
  if bool_decide (state s = DisconnectedState) then
    match c with Disconnect => mret AlreadyDisconnected | _ => throw SessDisconnected end
  else if bool_decide (state s = CycleClaimed) then
    throw (InvalidTransition "configuration during callback")
  else
    outcome ← apply_command c;
    refresh_state;;
    s ← gets id;
    (if active_requested s && bool_decide (command s = CmdStart) && is_ready s
     then ensure_running else mret tt);;
    mret outcome.

(** [on_wake_with_finish]; the callback is the world's [OutputProcess]. *)
Definition on_wake_with_finish (generation awake_ns : Z) (finish_time : option Z) : O WakeOutcome :=
  t ← gets transport;
  match t with
  | None => throw (NotReady "transport")
  | Some t =>
      if bool_decide (generation ≠ tg_id t) then mret (Stale (tg_id t) generation) else
      drained ← try (world (transport_drain t));
      match drained with
      | inl (Signal (SignalIo WouldBlock)) => mret NoWake
      | inl e => throw e
      | inr drained =>
          s ← gets id;
          if bool_decide (state s ≠ Running) then mret (NotRunning drained) else
          let missed := saturating_sub drained 1 in
          modify (set_state CycleClaimed);;
          output ← expect (output s);
          completion ← try (world (claim_and_finish t awake_ns finish_time (process output)));
          match completion with
          | inl e => fail;; throw e
          | inr NotClaimed => modify (set_state Running);; mret (WakeNotClaimed drained missed)
          | inr (Completed (inr published) finish_ns) =>
              r ← try (world (trigger_all (peers s) finish_ns));
              match r with
              | inr _ => modify (set_state Running);;
                         mret (Processed drained missed (bool_decide (is_Some published)))
              | inl e => fail;; throw e
              end
          | inr (Completed (inl e) finish_ns) =>
              match e with
              | FinishClockPanicked => _ ← try (world (abort_published output)); mret tt
              | _ => mret tt
              end;;
              fail;; throw e
          end
      end
  end.

Definition on_wake (generation now_ns : Z) : O WakeOutcome :=
  on_wake_with_finish generation now_ns (Some now_ns).
End owner.
