(* ===== verification/NodeSessionLaws.v ===== *)
(** * Invariants of a session

    Rules for computations on a session and its world, and the invariant
    that every command and every wake keeps, whatever the kernel, the other
    participants and the callback do. *)

From stdpp Require Import sorting.
From S2P Require Import Prelude FrameHeader ClientNode NodeMemory NodeShared NodeActivation NodePort.
From S2P Require Import NodeCycle NodeConfig NodeOutput NodeSession.
#[local] Open Scope Z_scope.

#[global] Instance leases_laws : ResolverLaws Leases.
Proof.
  split.
  - intros m id. apply total_ok_or.
  - intros kernel m key offset len w Ho Hl. unfold res_map, leases_resolver.
    destruct (m !! k_id key) as [l|]; simpl; [|done]. case_bool_decide as Hk; simpl; [done|].
    rewrite <- Hk. by apply map_entry_mapping.
Qed.

(** ** World computations that only store *)

(** A plain store: no callback, no eventfd. *)
Definition silent (e : Event) : Prop := match e with EvStore _ _ _ _ => True | _ => False end.
Definition quietly {K E A} (m : SM (World K) E A) (Q : A → Prop) : Prop :=
  ∀ P mem, steps P mem m (λ r _ l, post Q r ∧ Forall silent l).

Section quietly.
Context {K E A B : Type}.
Implicit Types (m : SM (World K) E A) (f : A → SM (World K) E B).

Lemma looks_quietly m (Q : A → Prop) : looks m Q → quietly m Q.
Proof. intros Hm P mem. eapply steps_mono; [apply Hm|]. by intros r mem' l (-> & -> & ?). Qed.
Lemma quietly_bind m f (Q : B → Prop) : quietly m (λ a, quietly (f a) Q) → quietly (m ≫= f) Q.
Proof.
  intros Hm P mem. apply steps_bind. eapply steps_mono; [apply Hm|].
  intros [a|e|] mem' l [Hq Hl]; simpl in *; [|done..].
  eapply steps_mono; [apply Hq|]. intros r mem'' l' [? ?]. split; [done|]. by apply Forall_app.
Qed.
Lemma quietly_mono m (Q Q' : A → Prop) : quietly m Q → (∀ a, Q a → Q' a) → quietly m Q'.
Proof.
  intros Hm HQ P mem. eapply steps_mono; [apply Hm|]. intros [a|e|] mem' l [? ?]; simpl in *; auto.
Qed.
Lemma quietly_ret (a : A) (Q : A → Prop) : Q a → quietly (K:=K) (E:=E) (mret a) Q.
Proof. intros HQ. by apply looks_quietly, looks_ret. Qed.
Lemma quietly_throw (e : E) (Q : A → Prop) : quietly (K:=K) (throw e) Q.
Proof. apply looks_quietly, looks_throw. Qed.
Lemma quietly_pure (r : Res E A) (Q : A → Prop) : post Q r → quietly (K:=K) (pure r) Q.
Proof. intros HQ. by apply looks_quietly, looks_pure. Qed.
End quietly.

Lemma quietly_map_err {K E F A} (g : E → F) (m : SM (World K) E A) (Q : A → Prop) :
  quietly m Q → quietly (mmap_err g m) Q.
Proof.
  intros Hm P mem. apply steps_map_err. eapply steps_mono; [apply Hm|].
  intros [a|e|] mem' l [? ?]; done.
Qed.
Lemma quietly_try {K E F A} (m : SM (World K) E A) (Q : E + A → Prop) :
  quietly m (λ a, Q (inr a)) → (∀ e, Q (inl e)) → quietly (try (F:=F) m) Q.
Proof.
  intros Hm He P mem. apply steps_try. eapply steps_mono; [apply Hm|].
  intros [a|e|] mem' l [? ?]; simpl in *; auto.
Qed.

Section transport_laws.
Context {K : Type} `{EventSys K} (kernel : Kernel).

Lemma steps_view_of P mem m Q :
  (∀ e, (owned P (as_mut_ptr m) → p_addr (as_mut_ptr m) ≠ 0 → abi.SIZE ≤ mapping_len m →
         p_addr (as_mut_ptr m) mod abi.ALIGN = 0 →
         field mem (as_mut_ptr m) abi.SERVER_VERSION 4 ≠ ACTIVATION_VERSION) →
    Q (Err (SessActivation e)) mem []) →
  (view_ok (as_mut_ptr m) → Q (Ok (as_mut_ptr m)) mem []) → steps (K:=K) P mem (view_of m) Q.
Proof.
  intros He Ha. apply steps_map_err, steps_view; [done|by intros e Hx; apply He|].
  intros Hv _. by apply Ha.
Qed.

Lemma quietly_view_of m : quietly (K:=K) (view_of m) (λ v, v = as_mut_ptr m ∧ view_ok v).
Proof. intros P mem. by apply steps_view_of. Qed.

Lemma quietly_deactivate t : quietly (K:=K) (transport_deactivate t) (λ _, True).
Proof.
  apply quietly_bind. eapply quietly_mono; [apply quietly_view_of|]. intros v [-> Hv].
  apply quietly_map_err. intros P mem. apply steps_deactivate; [done|]. intros r Hr _.
  split; [by destruct r|by repeat constructor].
Qed.
Lemma steps_transport_drop {E} t P mem :
  steps (K:=K) (E:=E) P mem (transport_drop t) (λ r _ l, r = Ok tt ∧ Forall silent l).
Proof.
  apply steps_bind, steps_try. eapply steps_mono; [apply quietly_deactivate|].
  intros [a|e|] mem' l [? ?]; simpl in *; try done; apply steps_ret; by rewrite app_nil_r.
Qed.
Lemma quietly_mark_ready t : quietly (K:=K) (transport_mark_ready t) (λ _, True).
Proof.
  apply quietly_bind. eapply quietly_mono; [apply quietly_view_of|]. intros v [-> Hv].
  apply quietly_map_err. intros P mem. apply steps_transition; [done|done|].
  intros _. split; [done|by repeat constructor].
Qed.
Lemma quietly_status t : quietly (K:=K) (transport_status t) (λ _, True).
Proof.
  apply quietly_bind. eapply quietly_mono; [apply quietly_view_of|]. intros v [-> Hv].
  apply quietly_map_err. intros P mem. apply steps_status; [done|]. intros r Hr _. by destruct r.
Qed.
Lemma quietly_from_owned_fd fd : quietly (K:=K) (from_owned_fd fd) (λ v, v = fd).
Proof. intros P mem. by apply steps_from_owned_fd. Qed.

(** A bound transport names the memory it maps. *)
Definition transport_ok (t : TransportGeneration) : Prop :=
  mapping_key (tg_activation t) = tg_activation_key t.
Definition peer_ok (p : PeerActivation) : Prop := mapping_key (pa_mapping p) = pa_key p.

Lemma quietly_transport_bind id d memory :
  region_nat (td_activation d) →
  quietly (K:=K) (TransportGeneration_bind kernel id d memory) (λ t, tg_id t = id ∧ transport_ok t).
Proof.
  intros [Ho Hl]. apply quietly_bind. eapply quietly_mono; [apply looks_quietly, looks_resolve|]. intros key _.
  apply quietly_bind. eapply quietly_mono; [apply looks_quietly, looks_map; [apply _|done..]|]. intros m [Hk _ _ _].
  apply quietly_bind. eapply quietly_mono; [apply quietly_view_of|]. intros v [-> Hv].
  apply quietly_bind, quietly_map_err. intros P mem. apply steps_initialize; [done|].
  split; [|by repeat constructor]. simpl.
  apply quietly_bind, quietly_map_err. eapply quietly_mono; [apply quietly_from_owned_fd|]. intros f1 _.
  apply quietly_bind, quietly_map_err. eapply quietly_mono; [apply quietly_from_owned_fd|]. intros f2 _.
  by apply quietly_ret.
Qed.

Lemma quietly_peer_bind g d memory :
  region_nat (pd_activation d) →
  quietly (K:=K) (PeerActivation_bind kernel g d memory) (λ p, pa_node p = pd_node d ∧ pa_generation p = g ∧ peer_ok p).
Proof.
  intros [Ho Hl]. apply quietly_bind. eapply quietly_mono; [apply looks_quietly, looks_resolve|]. intros key _.
  apply quietly_bind. eapply quietly_mono; [apply looks_quietly, looks_map; [apply _|done..]|]. intros m [Hk _ _ _].
  apply quietly_bind. eapply quietly_mono; [apply quietly_view_of|]. intros v [-> Hv].
  apply quietly_bind, quietly_map_err. eapply quietly_mono; [apply quietly_from_owned_fd|]. intros f1 _.
  by apply quietly_ret.
Qed.
End transport_laws.

(** ** Session computations that only store *)
Section owner_rules.
Context {K : Type} `{EventSys K, OutputProcess K} (kernel : Kernel).
Notation O := (SM (ClientNodeSession * World K) SessionError).
Implicit Types s : ClientNodeSession.

(** From [s], [m] makes no undefined access, its visible actions are plain
    stores, and it ends with an outcome and a session that satisfy [Q]. *)
Definition oq {E A} (s : ClientNodeSession) (m : SM (ClientNodeSession * World K) E A)
    (Q : Res E A → ClientNodeSession → Prop) : Prop :=
  ∀ w : World K, w_ub (m (s, w)).1.2 = w_ub w ∧
    (∃ l, w_log (m (s, w)).1.2 = w_log w ++ l ∧ Forall silent l) ∧ Q (m (s, w)).2 (m (s, w)).1.1.

Section basic.
Context {E A B : Type}.
Implicit Types (m : SM (ClientNodeSession * World K) E A) (f : A → SM (ClientNodeSession * World K) E B).

Lemma oq_mono s m (Q Q' : Res E A → ClientNodeSession → Prop) :
  oq s m Q → (∀ r s', Q r s' → Q' r s') → oq s m Q'.
Proof. intros Hm HQ w. destruct (Hm w) as (? & ? & ?). auto. Qed.
Lemma oq_pure s (r : Res E A) (Q : Res E A → ClientNodeSession → Prop) : Q r s → oq s (pure r) Q.
Proof. intros HQ w. split; [done|]. split; [|done]. exists []. by rewrite app_nil_r. Qed.
Lemma oq_ret s (a : A) (Q : Res E A → ClientNodeSession → Prop) : Q (Ok a) s → oq s (mret a) Q.
Proof. apply oq_pure. Qed.
Lemma oq_throw s (e : E) (Q : Res E A → ClientNodeSession → Prop) : Q (Err e) s → oq s (throw e) Q.
Proof. apply oq_pure. Qed.
Lemma oq_bind s m f (Q : Res E B → ClientNodeSession → Prop) :
  oq s m (λ r s', match r with Ok a => oq s' (f a) Q | Err e => Q (Err e) s' | Panic => Q Panic s' end) →
  oq s (m ≫= f) Q.
Proof.
  intros Hm w. destruct (Hm w) as (Hu & (l & Hl & Hs) & HQ). unfold mbind, sm_bind.
  destruct (m (s, w)) as [[s' w'] [a|e|]]; simpl in *; [|eauto..].
  destruct (HQ w') as (Hu' & (l' & Hl' & Hs') & HQ'). split; [congruence|]. split; [|done].
  exists (l ++ l'). rewrite Hl', Hl, app_assoc. split; [done|by apply Forall_app].
Qed.
Lemma oq_try {F} s m (Q : Res F (E + A) → ClientNodeSession → Prop) :
  oq s m (λ r s', match r with Ok a => Q (Ok (inr a)) s' | Err e => Q (Ok (inl e)) s' | Panic => Q Panic s' end) →
  oq s (try m) Q.
Proof. intros Hm w. destruct (Hm w) as (? & ? & ?). unfold try. by destruct (m (s, w)) as [? [?|?|]]. Qed.
Lemma oq_world_steps s (m : SM (World K) E A) (R : Res E A → Prop) (Q : Res E A → ClientNodeSession → Prop) :
  (∀ P mem, steps P mem m (λ r _ l, R r ∧ Forall silent l)) → (∀ r, R r → Q r s) → oq s (world m) Q.
Proof.
  intros Hm HQ w. destruct (Hm (λ _ _, False) (w_mem w) w) as (Hu & _ & mem' & l & _ & Hl & Hp & Hs).
  { split; [|done]. apply Forall_forall. by intros f _ mm b o. }
  unfold world. simpl. destruct (m w) as [w' r]; simpl in *. split; [done|]. split; [by exists l|auto].
Qed.
Lemma oq_world s (m : SM (World K) E A) (Qa : A → Prop) (Q : Res E A → ClientNodeSession → Prop) :
  quietly m Qa → (∀ e, Q (Err e) s) → (∀ a, Qa a → Q (Ok a) s) → oq s (world m) Q.
Proof. intros Hm He Ha. apply (oq_world_steps s m (post Qa)); [apply Hm|]. intros [a|e|]; simpl; auto. done. Qed.
End basic.

Lemma oq_gets {A} s (f : ClientNodeSession → A) Q : Q (Ok (f s)) s → oq s (gets f) Q.
Proof. apply oq_pure. Qed.
Lemma oq_modify s f Q : Q (Ok tt) (f s) → oq s (modify f) Q.
Proof. intros HQ w. split; [done|]. split; [|done]. exists []. by rewrite app_nil_r. Qed.
Lemma oq_expect {A} s (o : option A) a Q : o = Some a → Q (Ok a) s → oq s (expect o) Q.
Proof. intros ->. apply oq_ret. Qed.

Lemma oq_drop {E} s t Q : Q (Ok tt) s → oq (E:=E) s (world (transport_drop t)) Q.
Proof. intros HQ. apply (oq_world_steps s _ (λ r, r = Ok tt)); [apply steps_transport_drop|by intros r ->]. Qed.

Lemma oq_dropping {A} s t (m : O A) Q : oq s m Q → oq s (dropping t m) Q.
Proof.
  intros Hm w. destruct (Hm w) as (Hu & (l & Hl & Hs) & HQ). unfold dropping.
  destruct (m (s, w)) as [[s' w'] r]. simpl in *.
  destruct (oq_drop (E:=SessionError) s' t (λ r s'', r = Ok tt ∧ s'' = s') ltac:(done) w')
    as (Hu' & (l' & Hl' & Hs') & Ht & Heq).
  destruct r as [a|e|]; simpl; [eauto 10|..];
    destruct (world (transport_drop t) (s', w')) as [[s'' w''] r']; simpl in *; subst; simpl;
    (split; [congruence|]; split; [|done]; exists (l ++ l');
     rewrite Hl', Hl, app_assoc; split; [done|by apply Forall_app]).
Qed.

Lemma set_state_id s : set_state (state s) s = s.
Proof. by destruct s. Qed.

(** Either the session is no longer scheduled, or the activation could not
    be reached and nothing changed. *)
Lemma oq_stop s Q :
  (∀ e, Q (Err e) s) →
  (∀ x, x = Stopped ∨ x = Configuring ∨ (x = state s ∧ (x = Failed ∨ x = DisconnectedState)) →
    Q (Ok tt) (set_state x s)) →
  oq s stop Q.
Proof.
  intros He Ha. apply oq_bind, oq_gets. apply oq_bind.
  assert (oq s (match transport s with
    | Some t => _ ← world (transport_deactivate t); mret tt | None => mret tt end)
    (λ r s', s' = s ∧ r ≠ Panic)) as Ht.
  { destruct (transport s); [|by apply oq_ret]. apply oq_bind.
    apply (oq_world _ _ _ _ (quietly_deactivate _)); [done|]. intros a _. by apply oq_ret. }
  eapply oq_mono; [apply Ht|]. intros [[]|e|] s' [-> ?]; [|done..]. apply oq_modify.
  case_bool_decide as Hn; [case_bool_decide as Hf|]; simpl.
  - apply Ha. destruct (is_ready s); auto.
  - rewrite <- (set_state_id s). apply Ha. right; right; auto.
  - rewrite <- (set_state_id s). apply Ha. right; right; auto.
Qed.

Lemma oq_fail s Q : Q (Ok tt) (set_state Failed s) → oq s fail Q.
Proof.
  intros HQ. apply oq_bind, oq_gets. apply oq_bind.
  assert (oq s (match transport s with
    | Some t => _ ← try (world (transport_deactivate t)); mret tt | None => mret tt end : O unit)
    (λ r s', s' = s ∧ r = Ok tt)) as Ht.
  { destruct (transport s); [|by apply oq_ret]. apply oq_bind, oq_try.
    apply (oq_world _ _ _ _ (quietly_deactivate _)); intros; by apply oq_ret. }
  eapply oq_mono; [apply Ht|]. intros r s' [-> ->]. by apply oq_modify.
Qed.

Lemma oq_assign_transport s t Q : Q (Ok tt) (set_transport t s) → oq s (assign_transport t) Q.
Proof.
  intros HQ. apply oq_bind, oq_gets. apply oq_bind. destruct (transport s).
  - apply oq_drop. by apply oq_modify.
  - apply oq_ret. by apply oq_modify.
Qed.

Lemma oq_allocate s Q :
  (∀ e, Q (Err e) s) →
  (s_next_generation s + 1 < 2 ^ 64 →
   Q (Ok (s_next_generation s)) (set_next_generation (s_next_generation s + 1) s)) →
  oq s allocate_generation Q.
Proof.
  intros He Ha. apply oq_bind, oq_gets. apply oq_bind, oq_pure. unfold checked_add.
  case_bool_decide; simpl; [|done]. apply oq_bind, oq_modify. apply oq_ret. auto.
Qed.

Lemma oq_ensure_running s Q :
  Q (Ok tt) s → (is_ready s = false → Q (Ok tt) (set_state Configuring s)) → (∀ e, Q (Err e) s) →
  (is_ready s = true → active_requested s = true → command s = CmdStart → Q (Ok tt) (set_state Running s)) →
  oq s ensure_running Q.
Proof.
  intros Hsame Hnot Herr Hrun. apply oq_bind, oq_gets. apply oq_bind, oq_gets.
  destruct (active_requested s) eqn:Ha; simpl; [|by apply oq_ret].
  case_bool_decide as Hc; simpl; [by apply oq_ret|].
  apply oq_bind, oq_gets. destruct (is_ready s) eqn:Hr; simpl; [|apply oq_modify; auto].
  apply oq_bind, oq_gets. destruct (transport s) as [t|] eqn:Ht.
  2: { unfold is_ready in Hr. by rewrite Ht in Hr. }
  apply oq_bind, (oq_expect _ _ t); [done|]. apply oq_bind.
  apply (oq_world _ _ _ _ (quietly_status _)); [done|]. intros st _.
  assert (oq s (modify (set_state Running)) Q) by (apply oq_modify; auto).
  destruct st; try (apply oq_bind, oq_throw; done).
  - apply oq_bind. by apply oq_ret.
  - apply oq_bind. apply (oq_world _ _ _ _ (quietly_mark_ready _)); [done|]. by intros [] _.
Qed.
End owner_rules.

(** ** The invariant *)

Definition session_intervals (s : ClientNodeSession) : list MemoryInterval :=
  transport_intervals s ++ session_output_intervals s ++ peer_intervals (peers s).

Definition buffers_nat (d : BufferSetDescriptor) : Prop := Forall buffer_nat (bs_buffers d).

(** Nothing is held any more. *)
Definition released (s : ClientNodeSession) : Prop :=
  transport s = None ∧ pending_transport s = None ∧ format s = None ∧ buffer_descriptor s = None ∧
  io_descriptor s = None ∧ output s = None ∧ peers s = ∅ ∧ pending_peers s = ∅ ∧ available_memory s = ∅.

Record session_inv (s : ClientNodeSession) : Prop := {
  (* a running session has everything a cycle needs *)
  si_running : state s = Running → is_ready s = true;
  (* between calls no cycle is in progress *)
  si_claimed : state s ≠ CycleClaimed;
  si_released : state s = DisconnectedState → released s;
  (* everything bound was checked when it was bound *)
  si_transport : ∀ t, transport s = Some t → transport_ok t ∧ tg_id t < s_next_generation s;
  si_output : ∀ g, output s = Some g → output_ok g ∧ og_id g < s_next_generation s;
  si_peers : map_Forall (λ n p, pa_node p = n ∧ peer_ok p ∧ pa_generation p < s_next_generation s) (peers s);
  (* no two mappings share a byte *)
  si_disjoint : any_overlap (session_intervals s) = false;
  (* at most 64 peers, bound or waiting for memory *)
  si_count : (base.size (dom (pending_peers s) ∪ dom (peers s) : gset Z) ≤ 64)%nat;
  (* descriptors kept for later are as the wire delivered them *)
  si_pending_transport : ∀ d, pending_transport s = Some d → region_nat (td_activation d);
  si_pending_peers : map_Forall (λ n d, pd_node d = n ∧ region_nat (pd_activation d)) (pending_peers s);
  si_buffers : ∀ d, buffer_descriptor s = Some d → buffers_nat d;
  si_io : ∀ d, io_descriptor s = Some d → region_nat (pio_region d);
  si_leases : map_Forall (λ id l, k_id (lease_key l) = id) (available_memory s);
}.

(** A command as the wire conversions produce it. *)
Definition command_typed (c : SessionCommand) : Prop :=
  match c with
  | ReplaceTransport d => region_nat (td_activation d)
  | UseBuffers d => buffers_nat d
  | SetPortIo d => region_nat (pio_region d)
  | SetPeerActivation d => region_nat (pd_activation d)
  | _ => True
  end.

(** *** Intervals of peers *)
Lemma in_order_perm {A} (m : gmap Z A) : in_order m ≡ₚ map_to_list m.
Proof. apply merge_sort_Permutation. Qed.

Lemma peer_intervals_perm m : peer_intervals m ≡ₚ peer_interval ∘ snd <$> map_to_list m.
Proof. unfold peer_intervals. by rewrite in_order_perm. Qed.

Lemma any_overlap_sub l k : l ⊆+ k → any_overlap k = false → any_overlap l = false.
Proof.
  intros [m Hm]%submseteq_Permutation Hk. apply (any_overlap_perm _ (l ++ m)) in Hk; [|done].
  by apply any_overlap_app in Hk as [? _].
Qed.

Lemma map_to_list_except {A} (m : gmap Z A) n :
  map_to_list (delete n m) ≡ₚ filter (λ kv, kv.1 ≠ n) (map_to_list m).
Proof.
  apply NoDup_Permutation; [apply NoDup_map_to_list|apply NoDup_filter, NoDup_map_to_list|].
  intros [i x]. rewrite list_elem_of_filter, !elem_of_map_to_list, lookup_delete_Some. naive_solver.
Qed.

Lemma peer_intervals_delete m n : peer_intervals (delete n m) ≡ₚ intervals_except m n.
Proof.
  rewrite peer_intervals_perm. unfold intervals_except. by rewrite in_order_perm, map_to_list_except.
Qed.

Lemma peer_intervals_insert m n p :
  peer_intervals (<[n := p]> m) ≡ₚ peer_interval p :: intervals_except m n.
Proof.
  rewrite <- peer_intervals_delete, !peer_intervals_perm. rewrite <- insert_delete_eq.
  by rewrite map_to_list_insert by apply lookup_delete_eq.
Qed.

Lemma peer_intervals_sub (m m' : PeerMap) : m ⊆ m' → peer_intervals m ⊆+ peer_intervals m'.
Proof.
  intros Hm. rewrite !peer_intervals_perm. apply fmap_submseteq. by apply map_to_list_submseteq.
Qed.

Lemma ensure_disjoint_spec c e :
  post (λ _, Forall (λ i, disjoint_from i e) c) (ensure_disjoint c e).
Proof.
  unfold ensure_disjoint. destruct (existsb _ c) eqn:Hc; [done|]. simpl.
  apply Forall_forall. intros i Hi. apply Forall_forall. intros j Hj.
  destruct (overlaps i j) eqn:Ho; [|done]. exfalso. apply not_true_iff_false in Hc. apply Hc.
  apply existsb_exists. exists i. split; [by apply list_elem_of_In|].
  apply existsb_exists. exists j. split; [by apply list_elem_of_In|done].
Qed.

(** *** Assignments keep it *)
Definition live (s : ClientNodeSession) : Prop := session_inv s ∧ state s ≠ DisconnectedState.
(** Live and not scheduled, as [stop] leaves it. *)
Definition idle (s : ClientNodeSession) : Prop := live s ∧ state s ≠ Running.

(** Most of the invariant does not mention the assigned field. *)
Ltac keep H := destruct H; constructor; cbn [transport pending_transport format buffer_descriptor
  io_descriptor output peers pending_peers available_memory s_next_generation state set_state set_output
  set_io set_buffers set_format set_peers set_pending_peers set_pending_transport set_transport
  set_available set_next_generation set_active_requested set_command] in *; try done.

Section assignments.
Implicit Types s : ClientNodeSession.

Lemma inv_state x s :
  session_inv s → (x = Running → is_ready s = true) → x ≠ CycleClaimed →
  (x = DisconnectedState → released s) → session_inv (set_state x s).
Proof. intros Hi ? ? ?. keep Hi. Qed.

Lemma live_state x s :
  live s → (x = Running → is_ready s = true) → x ≠ CycleClaimed → x ≠ DisconnectedState →
  live (set_state x s).
Proof. intros [Hi ?] ? ? ?. split; [by apply inv_state|done]. Qed.

Lemma idle_output s : idle s → idle (set_output None s).
Proof.
  intros [[Hi ?] ?]. split; [split; [|done]|done]. keep Hi.
  eapply any_overlap_sub; [|done]. apply submseteq_skips_l.
  by apply (submseteq_inserts_l _ (peer_intervals (peers s)) _).
Qed.

Lemma idle_io d s : idle s → (∀ x, d = Some x → region_nat (pio_region x)) → idle (set_io d s).
Proof. intros [[Hi ?] ?] ?. split; [split; [|done]|done]. keep Hi. Qed.
Lemma idle_buffers d s : idle s → (∀ x, d = Some x → buffers_nat x) → idle (set_buffers d s).
Proof. intros [[Hi ?] ?] ?. split; [split; [|done]|done]. keep Hi. Qed.
Lemma idle_format f s : idle s → idle (set_format f s).
Proof. intros [[Hi ?] ?]. split; [split; [|done]|done]. keep Hi. Qed.
Lemma idle_transport s : idle s → idle (set_transport None s).
Proof.
  intros [[Hi ?] ?]. split; [split; [|done]|done]. keep Hi.
  eapply any_overlap_sub; [|done]. by apply (submseteq_inserts_l (transport_intervals s)).
Qed.

Lemma live_format f s : live s → is_Some f → live (set_format f s).
Proof.
  intros [Hi ?] Hf. split; [|done]. keep Hi. intros Hr. specialize (si_running0 Hr).
  unfold is_ready in *. simpl. rewrite !andb_true_iff, !bool_decide_eq_true in *. naive_solver.
Qed.
Lemma live_io d s : live s → (∀ x, d = Some x → region_nat (pio_region x)) → live (set_io d s).
Proof. intros [Hi ?] ?. split; [|done]. keep Hi. Qed.
Lemma live_buffers d s : live s → (∀ x, d = Some x → buffers_nat x) → live (set_buffers d s).
Proof. intros [Hi ?] ?. split; [|done]. keep Hi. Qed.
Lemma live_active a s : live s → live (set_active_requested a s).
Proof. intros [Hi ?]. split; [|done]. keep Hi. Qed.
Lemma live_command c s : live s → live (set_command c s).
Proof. intros [Hi ?]. split; [|done]. keep Hi. Qed.
Lemma live_pending_transport d s :
  live s → (∀ x, d = Some x → region_nat (td_activation x)) → live (set_pending_transport d s).
Proof. intros [Hi ?] ?. split; [|done]. keep Hi. Qed.
Lemma live_available m s :
  live s → map_Forall (λ id l, k_id (lease_key l) = id) m → live (set_available m s).
Proof. intros [Hi ?] ?. split; [|done]. keep Hi. Qed.

Lemma live_generation s : live s → live (set_next_generation (s_next_generation s + 1) s).
Proof.
  intros [Hi ?]. split; [|done]. keep Hi.
  - intros t Ht. destruct (si_transport0 t Ht). split; [done|lia].
  - intros g Hg. destruct (si_output0 g Hg). split; [done|lia].
  - intros n p Hp. destruct (si_peers0 n p Hp) as (? & ? & ?). split_and!; [done..|lia].
Qed.

Lemma live_peers m s :
  live s → m ⊆ peers s → live (set_peers m s).
Proof.
  intros [Hi ?] Hm. split; [|done]. keep Hi.
  - intros n p Hp. by eapply si_peers0, lookup_weaken.
  - eapply any_overlap_sub; [|done]. unfold session_intervals. simpl.
    do 2 apply submseteq_skips_l. by apply peer_intervals_sub.
  - etrans; [|done]. apply subseteq_size. apply union_mono_l. by apply subseteq_dom.
Qed.

Lemma live_pending_peers m s :
  live s → map_Forall (λ n d, pd_node d = n ∧ region_nat (pd_activation d)) m →
  (base.size (dom m ∪ dom (peers s) : gset Z) ≤ 64)%nat → live (set_pending_peers m s).
Proof. intros [Hi ?] ? ?. split; [|done]. keep Hi. Qed.

Lemma live_pending_peers_delete n s : live s → live (set_pending_peers (delete n (pending_peers s)) s).
Proof.
  intros Hl. pose proof Hl as [Hi _]. apply live_pending_peers; [done|..].
  - apply map_Forall_delete, Hi.
  - etrans; [|apply Hi]. apply subseteq_size. set_solver.
Qed.
End assignments.

(** *** Commands keep it *)
Lemma cancel_state s x : state (set_state x s) = x.
Proof. done. Qed.

Section commands.
Context {K : Type} `{EventSys K, OutputProcess K} (kernel : Kernel).
Notation O := (SM (ClientNodeSession * World K) SessionError).
Notation oq := (oq (K:=K)).
Implicit Types s : ClientNodeSession.

(** No panic, and the session stays live. *)
Definition keeps {A} (r : Res SessionError A) (s : ClientNodeSession) : Prop := total r ∧ live s.

Lemma oq_stop_idle s Q :
  live s → (∀ e, Q (Err e) s) → (∀ x, idle (set_state x s) → Q (Ok tt) (set_state x s)) → oq s stop Q.
Proof.
  intros Hs He Ha. apply oq_stop; [done|]. intros x Hx. apply Ha.
  pose proof Hs as [_ Hd].
  assert (x ≠ Running ∧ x ≠ CycleClaimed ∧ x ≠ DisconnectedState) as (? & ? & ?)
    by (destruct Hx as [->|[->|[-> [->|?]]]]; done).
  split; [by apply live_state|done].
Qed.

Lemma keeps_stop s : live s → oq s stop keeps.
Proof. intros Hs. apply oq_stop_idle; [done|done|]. intros x [Hx _]. done. Qed.

Lemma keeps_ensure_running s : live s → oq s ensure_running keeps.
Proof.
  intros Hs. apply oq_ensure_running; [done| |done|]; intros; (split; [done|]); by apply live_state.
Qed.

(** Clearing configuration after a stop. *)
Ltac all_idle := repeat (apply Forall_cons_2; [intros; first
  [by apply idle_output|by apply idle_io|by apply idle_buffers|by apply idle_format]|]); apply Forall_nil_2.

Lemma keeps_cleared {A} s (a : A) (fs : list (ClientNodeSession → ClientNodeSession)) :
  live s → Forall (λ f, ∀ s, idle s → idle (f s)) fs →
  oq s (stop;; foldr (λ f m, modify f;; m) (mret a) fs) keeps.
Proof.
  intros Hs Hfs. apply oq_bind, oq_stop_idle; [done|done|]. intros x Hx. revert Hx.
  generalize (set_state x s). clear s Hs x. induction Hfs as [|f fs Hf _ IH]; intros s Hs; simpl.
  - apply oq_ret. split; [done|apply Hs].
  - apply oq_bind, oq_modify. apply IH, Hf, Hs.
Qed.

Lemma disjoint_from_sym i l : Forall (λ j, disjoint_from j [i]) l ↔ disjoint_from i l.
Proof.
  unfold disjoint_from. rewrite !Forall_forall. setoid_rewrite Forall_singleton.
  split; intros Hl j Hj; rewrite overlaps_sym; by apply Hl.
Qed.

Lemma live_new_transport s t :
  idle s → transport_ok t → tg_id t < s_next_generation s →
  disjoint_from (transport_interval t) (session_output_intervals s ++ peer_intervals (peers s)) →
  live (set_transport (Some t) s).
Proof.
  intros [[Hi Hd] Hr] Ht Hid Hdis. split; [|done]. pose proof (si_disjoint s Hi) as Ho.
  destruct Hi. constructor; simpl in *; try done.
  - by intros t' [= <-].
  - apply any_overlap_cons. split; [done|]. by apply any_overlap_app in Ho as (_ & ? & _).
Qed.

Lemma unresolved_total (memory : Leases) id : total (unresolved (resolve memory id)).
Proof. unfold resolve, leases_resolver. by destruct (memory !! id). Qed.

Lemma keeps_bind_transport s : live s → oq s (bind_transport kernel) keeps.
Proof.
  intros Hs. apply oq_bind, oq_gets. destruct (pending_transport s) as [d|] eqn:Hp; [|by apply oq_ret].
  pose proof Hs as [Hi _]. pose proof (si_pending_transport s Hi d Hp) as Hn.
  apply oq_bind, oq_gets. apply oq_bind, oq_pure.
  pose proof (unresolved_total (available_memory s) (sr_memory (td_activation d))).
  destruct (unresolved _) as [[]|e|]; [by apply oq_ret| |by split|done].
  apply oq_bind, oq_modify. set (s1 := set_pending_transport None s).
  assert (live s1) as Hs1 by (by apply live_pending_transport).
  apply oq_bind, oq_allocate; [done|]. intros Hg. set (s2 := set_next_generation _ s1).
  assert (live s2) as Hs2 by (by apply live_generation).
  apply oq_bind. apply (oq_world _ _ _ _ (quietly_transport_bind kernel _ d _ Hn)); [done|].
  intros t [Hid Ht]. apply oq_bind, oq_dropping, oq_bind, oq_gets. apply oq_bind, oq_pure.
  pose proof (ensure_disjoint_spec [transport_interval t] (session_output_intervals s2 ++ peer_intervals (peers s2))) as Hd.
  destruct (ensure_disjoint _ _) as [[]|e|]; simpl in Hd; [|done|done].
  apply oq_stop_idle; [done|done|]. intros x Hx. apply oq_bind, oq_assign_transport. apply oq_ret.
  split; [done|]. apply live_new_transport; [done|done| |exact (Forall_inv Hd)].
  rewrite Hid. simpl. lia.
Qed.

Lemma any_unresolved_total (memory : Leases) ids : total (any_unresolved memory ids).
Proof.
  induction ids as [|id ids IH]; simpl; [done|]. apply total_bind; [apply unresolved_total|].
  by intros [] _.
Qed.

(** What a new output must satisfy to be installed. *)
Definition candidate_ok s (g : OutputGeneration) : Prop :=
  output_ok g ∧ og_id g < s_next_generation s ∧
  Forall (λ i, disjoint_from i (transport_intervals s ++ peer_intervals (peers s))) (output_intervals g).

Lemma oq_output_candidate s f d io Q :
  live s → buffers_nat d → region_nat (pio_region io) →
  (∀ e s', live s' → Q (Err e) s') → Q (Ok None) s →
  (∀ g, let s' := set_next_generation (s_next_generation s + 1) s in
    live s' → candidate_ok s' g → Q (Ok (Some g)) s') →
  oq s (output_candidate kernel f d io) Q.
Proof.
  intros Hs Hd Hio He Hn Ha. apply oq_bind, oq_gets. apply oq_bind, oq_pure.
  pose proof (any_unresolved_total (available_memory s) (buffer_memory_ids d ++ [sr_memory (pio_region io)])).
  destruct (any_unresolved _ _) as [[]|e|]; [by apply oq_ret| |auto|done].
  apply oq_bind, oq_allocate; [auto|]. intros Hg. assert (live (set_next_generation (s_next_generation s + 1) s)) as Hs'
    by (by apply live_generation).
  apply oq_bind. apply (oq_world _ _ _ _ (looks_quietly _ _ (looks_output_bind kernel (available_memory s)
    (s_next_generation s) f d io Hd Hio))); [auto|].
  intros g (Hok & Hid & _). apply oq_bind, oq_gets. apply oq_bind, oq_pure.
  match goal with |- context [ensure_disjoint ?c ?e] => pose proof (ensure_disjoint_spec c e) as Hdis end.
  destruct (ensure_disjoint _ _) as [[]|e|]; simpl in Hdis; [|auto|done].
  apply oq_ret, Ha; [done|]. split_and!; [done|rewrite Hid; simpl; lia|done].
Qed.

Lemma live_new_output s g : idle s → candidate_ok s g → live (set_output (Some g) s).
Proof.
  intros [[Hi Hd] Hr] (Hok & Hid & Hdis). split; [|done]. pose proof (si_disjoint s Hi) as Ho.
  pose proof (oo_disjoint g Hok). keep Hi.
  - by intros g' [= <-].
  - apply (any_overlap_perm (output_intervals g ++ transport_intervals s ++ peer_intervals (peers s))).
    + rewrite app_assoc. etrans; [apply Permutation_app_tail, Permutation_app_comm|]. by rewrite <- app_assoc.
    + apply any_overlap_app. split_and!; [done| |done].
      apply (any_overlap_sub _ (session_intervals s)); [|done]. apply submseteq_skips_l. by apply submseteq_inserts_l.
Qed.
Lemma keeps_bind_output s : live s → oq s (bind_output kernel) keeps.
Proof.
  intros Hs. apply oq_bind, oq_gets. unfold id. pose proof Hs as [Hi _].
  destruct (format s) as [f|]; [|by apply oq_ret].
  destruct (buffer_descriptor s) as [d|] eqn:Hd; [|by apply oq_ret].
  destruct (io_descriptor s) as [io|] eqn:Hio; [|by apply oq_ret].
  apply oq_bind, oq_output_candidate; [done|by apply Hi|by apply Hi|done|by apply oq_ret|].
  intros g s' Hs' Hg. apply oq_bind, oq_stop_idle; [done|done|]. intros x Hx.
  apply oq_bind, oq_modify. apply oq_ret. split; [done|]. by apply live_new_output.
Qed.

Lemma live_new_peer s n p :
  live s → pa_node p = n → peer_ok p → pa_generation p < s_next_generation s →
  (base.size (dom (pending_peers s) ∪ dom (<[n := p]> (peers s)) : gset Z) ≤ 64)%nat →
  disjoint_from (peer_interval p) (transport_intervals s ++ session_output_intervals s ++ intervals_except (peers s) n) →
  live (set_peers (<[n := p]> (peers s)) s).
Proof.
  intros [Hi Hd] Hn Hp Hg Hc Hdis. split; [|done]. pose proof (si_disjoint s Hi) as Ho. keep Hi.
  - by apply map_Forall_insert_2.
  - apply (any_overlap_perm (peer_interval p ::
      (transport_intervals s ++ session_output_intervals s ++ intervals_except (peers s) n))).
    + unfold session_intervals. cbn [peers set_peers]. rewrite peer_intervals_insert.
      rewrite !app_assoc. apply Permutation_middle.
    + apply any_overlap_cons. split; [done|]. apply (any_overlap_sub _ (session_intervals s)); [|done].
      do 2 apply submseteq_skips_l. rewrite <- peer_intervals_delete. apply peer_intervals_sub, delete_subseteq.
Qed.

(** Binding one pending peer touches no other pending peer. *)
Lemma keeps_bind_peer s node :
  live s → is_Some (pending_peers s !! node) →
  oq s (bind_peer kernel node) (λ r s', keeps r s' ∧
    ∀ n, n ≠ node → pending_peers s' !! n = pending_peers s !! n).
Proof.
  intros Hs [d Hd]. pose proof Hs as [Hi _]. destruct (si_pending_peers s Hi node d Hd) as [Hnode Hn].
  apply oq_bind, oq_gets. apply oq_bind, (oq_expect _ _ d); [done|]. apply oq_bind, oq_gets. apply oq_bind, oq_pure.
  pose proof (unresolved_total (available_memory s) (sr_memory (pd_activation d))).
  destruct (unresolved _) as [[]|e|]; [by apply oq_ret| |done|done].
  apply oq_bind, oq_modify. set (s1 := set_pending_peers _ s).
  assert (live s1) as Hs1 by (by apply live_pending_peers_delete).
  assert (∀ n, n ≠ node → pending_peers s1 !! n = pending_peers s !! n) as Hother
    by (intros; by apply lookup_delete_ne).
  apply oq_bind, oq_allocate; [done|]. intros Hg. set (s2 := set_next_generation _ s1).
  assert (live s2) as Hs2 by (by apply live_generation).
  apply oq_bind. apply (oq_world _ _ _ _ (quietly_peer_bind kernel _ d _ Hn)); [done|].
  intros p (Hpn & Hpg & Hp). rewrite Hnode in Hpn. apply oq_bind, oq_gets. apply oq_bind, oq_pure.
  match goal with |- context [ensure_disjoint ?c ?e] => pose proof (ensure_disjoint_spec c e) as Hdis end.
  destruct (ensure_disjoint _ _) as [[]|e|]; simpl in Hdis; [|done|done].
  apply oq_bind, oq_modify. apply oq_ret. split; [|done]. split; [done|]. rewrite Hpn.
  apply live_new_peer; [done|done|done|rewrite Hpg; simpl; lia| |exact (Forall_inv Hdis)].
  etrans; [|apply Hi]. apply subseteq_size. rewrite dom_insert_L. cbn [pending_peers peers s2 s1 set_next_generation set_pending_peers].
  rewrite dom_delete_L. apply elem_of_dom_2 in Hd. set_solver.
Qed.

Lemma keeps_bind_peers s nodes b :
  live s → NoDup nodes → Forall (λ n, is_Some (pending_peers s !! n)) nodes → oq s (bind_peers kernel nodes b) keeps.
Proof.
  intros Hs Hnd. revert s b Hs. induction Hnd as [|n nodes Hn _ IH]; intros s b Hs Hall; [by apply oq_ret|].
  apply Forall_cons in Hall as [Hn' Hall]. apply oq_bind. eapply oq_mono; [by apply keeps_bind_peer|].
  intros [r|e|] s' [[Ht Hs'] Hother]; [|done..]. apply IH; [done|].
  eapply Forall_impl; [apply Forall_and; split; [exact Hall|apply Forall_forall; exact (λ x (H : x ∈ nodes), H)]|].
  intros x [? Hx]. rewrite Hother; [done|]. by intros ->.
Qed.

Lemma keeps_retry_pending s : live s → oq s (retry_pending kernel) keeps.
Proof.
  intros Hs. apply oq_bind, oq_gets. apply oq_bind.
  assert (oq s (match pending_transport s with
    | Some _ => r ← bind_transport kernel; mret (bool_decide (r = PendingMemory)) | None => mret false end) keeps) as Hfirst.
  { destruct (pending_transport s); [|by apply oq_ret]. apply oq_bind.
    eapply oq_mono; [by apply keeps_bind_transport|]. intros [r|e|] s' [? ?]; [by apply oq_ret|done|done]. }
  eapply oq_mono; [apply Hfirst|]. intros [b|e|] s1 [? Hs1]; [|done..]. clear Hfirst.
  apply oq_bind, oq_gets. apply oq_bind.
  match goal with |- oq s1 ?m _ => assert (oq s1 m keeps) as Hsecond end.
  { destruct (_ && _); [|by apply oq_ret]. apply oq_bind.
    eapply oq_mono; [by apply keeps_bind_output|]. intros [r|e|] s' [? ?]; [by apply oq_ret|done|done]. }
  eapply oq_mono; [apply Hsecond|]. intros [b'|e|] s2 [? Hs2]; [|done..]. clear Hsecond.
  apply oq_bind, oq_gets. apply oq_bind.
  eapply oq_mono; [apply keeps_bind_peers; [done|..]|].
  - rewrite in_order_perm. apply NoDup_fst_map_to_list.
  - rewrite in_order_perm. apply Forall_fmap, Forall_forall. intros [n d] Hx%elem_of_map_to_list. by exists d.
  - intros [b''|e|] s3 [? ?]; [by apply oq_ret|done|done].
Qed.

Lemma keeps_remove_memory s key : live s → oq s (remove_memory key) keeps.
Proof.
  intros Hs. apply oq_bind, oq_gets. apply oq_bind.
  match goal with |- oq s ?m _ => assert (oq s m keeps) as Hfirst end.
  { destruct (transport s); [|by apply oq_ret]. case_bool_decide; [|by apply oq_ret].
    apply oq_bind, oq_stop_idle; [done|done|]. intros x Hx. apply oq_assign_transport.
    split; [done|]. by apply idle_transport. }
  eapply oq_mono; [apply Hfirst|]. intros [[]|e|] s1 [? Hs1]; [|done..]. clear Hfirst.
  apply oq_bind, oq_gets. apply oq_bind.
  match goal with |- oq s1 ?m _ => assert (oq s1 m keeps) as Hsecond end.
  { destruct (output s1); [|by apply oq_ret]. destruct (depends_on _ _); [|by apply oq_ret].
    apply oq_bind, oq_stop_idle; [done|done|]. intros x Hx. apply oq_modify. split; [done|]. by apply idle_output. }
  eapply oq_mono; [apply Hsecond|]. intros [[]|e|] s2 [? Hs2]; [|done..].
  apply oq_modify. split; [done|]. apply live_peers; [done|]. apply map_filter_subseteq.
Qed.

(** Disconnecting always succeeds and lets go of everything. *)
Lemma oq_disconnect s Q :
  (∀ s', released s' → state s' = DisconnectedState → Q (Ok tt) s') → oq s disconnect_session Q.
Proof.
  intros HQ. apply oq_bind, oq_try, oq_stop.
  all: intros; do 7 (apply oq_bind, oq_modify); apply oq_bind, oq_assign_transport; apply oq_bind, oq_modify;
    apply oq_modify, HQ; done.
Qed.

Lemma released_inv s : released s → state s = DisconnectedState → session_inv s.
Proof.
  intros (Ht & Hpt & Hf & Hb & Hio & Ho & Hp & Hpp & Ha) Hd.
  constructor; rewrite ?Hd, ?Ht, ?Hpt, ?Hb, ?Hio, ?Ho, ?Hp, ?Hpp, ?Ha; try done.
  - unfold session_intervals, transport_intervals, session_output_intervals. by rewrite Ht, Ho, Hp.
  - rewrite !dom_empty_L, (left_id_L ∅ (∪)), size_empty. lia.
Qed.

(** Outcomes of a command: the session stays live, or is gone. *)
Definition keeps_or_gone {A} (r : Res SessionError A) (s : ClientNodeSession) : Prop :=
  total r ∧ session_inv s.

Lemma keeps_weaken {A} (r : Res SessionError A) s : keeps r s → keeps_or_gone r s.
Proof. by intros [? [? ?]]. Qed.

Lemma peers_fit s v :
  live s →
  ¬ (pending_peers s !! pd_node v = None ∧ peers s !! pd_node v = None ∧
     MAX_SESSION_PEERS ≤ saturating_add (Z.of_nat (base.size (pending_peers s))) (Z.of_nat (base.size (peers s)))) →
  (base.size (dom (<[pd_node v := v]> (pending_peers s)) ∪ dom (peers s) : gset Z) ≤ 64)%nat.
Proof.
  intros [Hi _] Hn. rewrite dom_insert_L.
  destruct (decide (pd_node v ∈ (dom (pending_peers s) ∪ dom (peers s) : gset Z))) as [Hin|Hout].
  - etrans; [|apply Hi]. apply subseteq_size. set_solver.
  - apply not_elem_of_union in Hout as [H1' H2'].
    assert (base.size (pending_peers s) + base.size (peers s) < 64)%nat as Hlt.
    { apply not_elem_of_dom in H1', H2'. unfold MAX_SESSION_PEERS, saturating_add, usize_max in Hn.
      destruct (decide (base.size (pending_peers s) + base.size (peers s) < 64)%nat); [done|].
      exfalso. apply Hn. split_and!; [done..|lia]. }
    assert (∀ X Y : gset Z, (base.size (X ∪ Y) ≤ base.size X + base.size Y)%nat) as Hsz.
    { intros X Y. rewrite size_union_alt. apply Nat.add_le_mono_l, subseteq_size. set_solver. }
    rewrite <- (assoc_L (∪)). etrans; [apply Hsz|]. rewrite size_singleton.
    pose proof (Hsz (dom (pending_peers s)) (dom (peers s))) as Hd. rewrite !size_dom in Hd. lia.
Qed.

Lemma keeps_set_format s f : live s → oq s (apply_command kernel (SetFormat f)) keeps.
Proof.
  intros Hs. apply oq_bind, oq_gets. apply oq_bind, oq_modify.
  assert (live (set_format (Some f) s)) as Hs1 by (by apply live_format).
  apply oq_bind. destruct (format s) as [f0|]; [case_bool_decide|]; [|by apply oq_ret, keeps_bind_output..].
  apply oq_bind, oq_stop_idle; [done|done|]. intros x Hx. do 2 (apply oq_bind, oq_modify). apply oq_modify.
  apply keeps_bind_output. apply idle_output. apply idle_io; [|done]. by apply idle_buffers.
Qed.

Lemma keeps_use_buffers s d : live s → buffers_nat d → oq s (apply_command kernel (UseBuffers d)) keeps.
Proof.
  intros Hs Hc. pose proof Hs as [Hi _]. apply oq_bind, oq_gets. unfold id.
  assert (live (set_buffers (Some d) s)) as Hs1 by (apply live_buffers; [done|by intros x [= <-]]).
  destruct (buffer_descriptor s) as [d0|] eqn:Hd0; [case_bool_decide|];
    [|by apply oq_bind, oq_modify; apply keeps_bind_output..].
  apply oq_bind.
  match goal with |- oq s ?m _ => assert (oq s m keeps) as Hm end.
  { destruct (format s) as [f|]; [|by apply oq_ret]. destruct (io_descriptor s) as [io|] eqn:Hio; [|by apply oq_ret].
    apply oq_bind, oq_output_candidate; [done|done|by apply Hi|done|by apply oq_ret|].
    intros g s' Hs' _. by apply oq_ret. }
  eapply oq_mono; [apply Hm|]. intros [b|e|] s1 [? Hs1']; [|done..].
  apply oq_bind, oq_stop_idle; [done|done|]. intros x Hx. do 3 (apply oq_bind, oq_modify). apply oq_ret.
  split; [done|]. apply idle_buffers; [by apply idle_io; [apply idle_output|]|by intros y [= <-]].
Qed.

Lemma keeps_set_port_io s d : live s → region_nat (pio_region d) → oq s (apply_command kernel (SetPortIo d)) keeps.
Proof.
  intros Hs Hc. pose proof Hs as [Hi _]. apply oq_bind, oq_gets. unfold id.
  assert (∀ s', live s' → live (set_io (Some d) s')) as Hio by (intros; apply live_io; [done|by intros x [= <-]]).
  assert (oq s (modify (set_io (Some d));; mret Applied) keeps) as Hsimple
    by (apply oq_bind, oq_modify; apply oq_ret; split; [done|auto]).
  destruct (format s) as [f|]; [|done]. destruct (buffer_descriptor s) as [b|] eqn:Hb; [|done].
  apply oq_bind, oq_output_candidate; [done|by apply Hi|done|done|..].
  - apply oq_bind, oq_stop_idle; [done|done|]. intros x Hx. do 2 (apply oq_bind, oq_modify). apply oq_ret.
    split; [done|]. apply idle_output, idle_io; [done|by intros y [= <-]].
  - intros g s' Hs' Hg. apply oq_bind, oq_stop_idle; [done|done|]. intros x Hx.
    do 2 (apply oq_bind, oq_modify). apply oq_ret. split; [done|]. apply live_new_output; [|done].
    apply idle_io; [done|by intros y [= <-]].
Qed.

Lemma keeps_set_peer s d : live s → region_nat (pd_activation d) → oq s (apply_command kernel (SetPeerActivation d)) keeps.
Proof.
  intros Hs Hc. pose proof Hs as [Hi _]. apply oq_bind, oq_gets. unfold id.
  destruct (_ && _ && _) eqn:Hfull; [by apply oq_throw|].
  rewrite !andb_false_iff, !bool_decide_eq_false in Hfull.
  apply oq_bind, oq_modify. eapply oq_mono; [apply keeps_bind_peer|by intros r s' [? ?]].
  - apply live_pending_peers; [done| |].
    + apply map_Forall_insert_2; [done|apply Hi].
    + apply peers_fit; [done|]. tauto.
  - simpl. rewrite lookup_insert_eq. by eexists.
Qed.

Lemma keeps_node_command s c : live s → oq s (apply_command kernel (SetNodeCommand c)) keeps.
Proof.
  intros Hs. apply oq_bind, oq_modify. assert (live (set_command c s)) by (by apply live_command).
  apply oq_bind. apply (oq_mono _ _ keeps); [|intros [?|?|] s' [? ?]; [by apply oq_ret|done|done]].
  destruct c; [by apply keeps_stop|by apply keeps_ensure_running|].
  apply oq_bind, oq_stop_idle; [done|done|]. intros x Hx. do 3 (apply oq_bind, oq_modify). apply oq_modify.
  split; [done|]. apply idle_format, idle_buffers; [|done]. apply idle_io; [|done]. by apply idle_output.
Qed.

Lemma keeps_apply_command s c :
  live s → command_typed c → oq s (apply_command kernel c) keeps_or_gone.
Proof.
  intros Hs Hc. pose proof Hs as [Hi _].
  assert (∀ m : O ApplyOutcome, oq s m keeps → oq s m keeps_or_gone) as Hk.
  { intros m Hm. eapply oq_mono; [done|]. intros r s'. apply keeps_weaken. }
  destruct c as [d|f| |d| |d| |d|n|lease|key| |b|c|]; simpl in Hc.
  12, 15: apply oq_bind, oq_disconnect; intros s' Hr Hd; apply oq_ret; split; [done|by apply released_inv].
  all: apply Hk.
  - apply oq_bind, oq_modify. apply keeps_bind_transport, live_pending_transport; [done|]. by intros x [= <-].
  - by apply keeps_set_format.
  - apply (keeps_cleared s Applied [set_output None; set_io None; set_buffers None; set_format None] Hs). clear.
    all_idle.
  - by apply keeps_use_buffers.
  - apply (keeps_cleared s Applied [set_output None; set_io None; set_buffers None] Hs). clear.
    all_idle.
  - by apply keeps_set_port_io.
  - apply (keeps_cleared s Applied [set_output None; set_io None] Hs). clear.
    all_idle.
  - by apply keeps_set_peer.
  - do 2 (apply oq_bind, oq_modify). apply oq_ret. split; [done|].
    apply (live_peers _ (set_pending_peers _ s)); [by apply live_pending_peers_delete|apply delete_subseteq].
  - apply oq_bind, oq_modify. apply keeps_retry_pending, live_available; [done|].
    apply map_Forall_insert_2; [done|apply Hi].
  - apply oq_bind, oq_modify. apply oq_bind.
    eapply oq_mono; [apply keeps_remove_memory|intros [?|?|] s' [? ?]; [by apply oq_ret|done|done]].
    destruct (available_memory s !! k_id key); [|done]. case_bool_decide; [|done].
    apply live_available; [done|]. apply map_Forall_delete, Hi.
  - apply oq_bind, oq_modify. assert (live (set_active_requested b s)) by (by apply live_active).
    apply oq_bind. eapply oq_mono; [destruct b; [by apply keeps_ensure_running|by apply keeps_stop]|].
    intros [?|?|] s' [? ?]; [by apply oq_ret|done|done].
  - by apply keeps_node_command.
Qed.

(** Every command keeps the invariant. *)
Lemma keeps_apply s c :
  session_inv s → command_typed c → oq s (apply kernel c) keeps_or_gone.
Proof.
  intros Hi Hc. apply oq_bind, oq_gets. unfold id. case_bool_decide as Hd.
  { destruct c; try by apply oq_throw. by apply oq_ret. }
  case_bool_decide; [by apply oq_throw|]. apply oq_bind.
  eapply oq_mono; [by apply keeps_apply_command|]. intros [o|e|] s1 [Ht Hi1]; [|done..].
  apply oq_bind, oq_modify. set (s2 := match state s1 with Running => _ | _ => _ end).
  assert (session_inv s2 ∧ (state s2 = DisconnectedState → is_ready s2 = false)) as [Hi2 Hd2].
  { split.
    - subst s2. destruct (state s1); try done; apply inv_state; try done; by destruct (is_ready s1).
    - intros Hd2. assert (state s1 = DisconnectedState) as Hd1.
      { subst s2. destruct (state s1) eqn:Hs; try (by rewrite Hs in Hd2); by destruct (is_ready s1). }
      subst s2. rewrite Hd1. destruct (si_released s1 Hi1 Hd1) as (Hn & _). unfold is_ready. by rewrite Hn. }
  apply oq_bind, oq_gets. unfold id. apply oq_bind.
  destruct (active_requested s2 && _ && is_ready s2) eqn:Hr; [|by apply oq_ret, oq_ret].
  apply andb_true_iff in Hr as [_ Hr].
  eapply oq_mono; [apply keeps_ensure_running; split; [done|intros Hx; by rewrite Hd2 in Hr]|].
  intros [?|?|] s' [? [? ?]]; [by apply oq_ret|done|done].
Qed.
End commands.
