(* ===== verification/NodeWake.v ===== *)
(** * Process cycles

    What one wake of a session does, on every path: a relation between the
    session before, the outcome, the session, the memory and the visible
    actions after. The shared memory is tracked where it is the session's
    alone; the others may do anything to the rest. *)

From S2P Require Import Prelude FrameHeader ClientNode NodeMemory NodeShared NodeActivation NodePort.
From S2P Require Import NodeCycle NodeConfig NodeOutput NodeSession NodeSessionLaws.
#[local] Open Scope Z_scope.

Notation Own := (BackingIdentity → Z → Prop).

(** ** Outcomes of the parts *)

(** The record a mapping holds. *)
Notation record_of m := (as_mut_ptr m).

(** A mapping cannot be viewed as an activation. *)
Definition unviewable (P : Own) (mem : Mem) (m : MemoryMapping) : Prop :=
  owned P (record_of m) → p_addr (record_of m) ≠ 0 → abi.SIZE ≤ mapping_len m →
  p_addr (record_of m) mod abi.ALIGN = 0 →
  field mem (record_of m) abi.SERVER_VERSION 4 ≠ ACTIVATION_VERSION.

Inductive deactivated (P : Own) (mem : Mem) (m : MemoryMapping) : Mem → list Event → Prop :=
| deactivated_now :
    view_ok (record_of m) →
    deactivated P mem m (set_status mem (record_of m) Inactive) [wrote_status (record_of m) Inactive]
| deactivated_not : unviewable P mem m → deactivated P mem m mem [].

(** One peer: its count goes down, and the peer is signalled if it was the
    last dependency. *)
Inductive peer_spec (P : Own) (mem : Mem) (p : PeerActivation) (now : Z) :
    Res SessionError TriggerOutcome → Mem → list Event → Prop :=
| peer_unviewable e :
    unviewable P mem (pa_mapping p) → peer_spec P mem p now (Err (SessActivation e)) mem []
| peer_refused e mem' l :
    view_ok (record_of (pa_mapping p)) →
    trigger_spec P mem (record_of (pa_mapping p)) now (Err e) mem' l →
    peer_spec P mem p now (Err (SessActivation e)) mem' l
| peer_waiting n mem' l :
    view_ok (record_of (pa_mapping p)) →
    trigger_spec P mem (record_of (pa_mapping p)) now (Ok (Waiting n)) mem' l →
    peer_spec P mem p now (Ok (Waiting n)) mem' l
| peer_signalled mem' l :
    view_ok (record_of (pa_mapping p)) →
    trigger_spec P mem (record_of (pa_mapping p)) now (Ok PeerTriggered) mem' l →
    peer_spec P mem p now (Ok PeerTriggered) mem' (l ++ [EvSignal (pa_signal p) 1])
| peer_unsignalled e mem' l :
    view_ok (record_of (pa_mapping p)) →
    trigger_spec P mem (record_of (pa_mapping p)) now (Ok PeerTriggered) mem' l →
    peer_spec P mem p now (Err (Signal e)) mem' l.

(** All of them, one after the other; the first error is kept. *)
Definition keep_first (first : option SessionError) (node : Z) (r : Res SessionError TriggerOutcome) :
    option SessionError :=
  match first, r with None, Err e => Some (relabel node e) | _, _ => first end.
Inductive peers_spec (P : Own) (now : Z) :
    list (Z * PeerActivation) → option SessionError → Mem → option SessionError → Mem → list Event → Prop :=
| peers_nil first mem : peers_spec P now [] first mem first mem []
| peers_cons node p ps first mem r mem1 l1 out mem2 l2 :
    peer_spec P mem p now r mem1 l1 →
    peers_spec P now ps (keep_first first node r) mem1 out mem2 l2 →
    peers_spec P now ((node, p) :: ps) first mem out mem2 (l1 ++ l2).

(** A claimed cycle, given how the output's part of it ended. *)
Definition completes (r : Res SessionError (option PublishedOutput * Z)) : (SessionError + option PublishedOutput) * Z :=
  match r with
  | Ok (v, status) => (inr v, status)
  | Err e => (inl e, - EIO)
  | Panic => (inl CallbackPanicked, - EIO)
  end.
Definition clocked (awake : Z) (finish : option Z) (c : (SessionError + option PublishedOutput) * Z) :
    (SessionError + option PublishedOutput) * Z * Z :=
  match finish with Some f => (c.1, c.2, f) | None => (inl FinishClockPanicked, - EIO, awake) end.

Definition wrote_awake (v : Ptr) (awake : Z) : list Event :=
  [wrote_status v Awake; wrote v abi.AWAKE_TIME 8 awake].

Section spec.
Context {K : Type} `{EventSys K, OutputProcess K}.

Inductive claim_spec (P : Own) (mem : Mem) (t : TransportGeneration) (g : OutputGeneration)
    (awake : Z) (finish : option Z) :
    Res SessionError (ClaimCompletion (option PublishedOutput)) → Mem → list Event → Prop :=
| claim_unviewable e :
    unviewable P mem (tg_activation t) →
    claim_spec P mem t g awake finish (Err (SessActivation e)) mem []
| claim_refused r :
    (owned P (record_of (tg_activation t)) →
     field mem (record_of (tg_activation t)) abi.STATUS 4 ≠ status_value Triggered) →
    r = Ok NotClaimed ∨ (∃ e, r = Err (SessActivation e)) →
    claim_spec P mem t g awake finish r mem []
| claim_ran r mem1 l1 result status fin :
    let v := record_of (tg_activation t) in
    view_ok v → (owned P v → field mem v abi.STATUS 4 = status_value Triggered) →
    process_spec P (awake_mem mem v awake) g r mem1 l1 →
    clocked awake finish (completes r) = (result, status, fin) →
    (owned P v → field (result_mem mem1 v status fin) v abi.STATUS 4 = status_value Awake) →
    claim_spec P mem t g awake finish (Ok (Completed result fin))
      (set_status (result_mem mem1 v status fin) v Finished)
      (wrote_awake v awake ++ l1 ++ wrote_result v status fin ++ [wrote_status v Finished])
| claim_taken r mem1 l1 result status fin e :
    let v := record_of (tg_activation t) in
    view_ok v → (owned P v → field mem v abi.STATUS 4 = status_value Triggered) →
    process_spec P (awake_mem mem v awake) g r mem1 l1 →
    clocked awake finish (completes r) = (result, status, fin) →
    (owned P v → field (result_mem mem1 v status fin) v abi.STATUS 4 ≠ status_value Awake) →
    claim_spec P mem t g awake finish (Err (SessActivation e))
      (result_mem mem1 v status fin) (wrote_awake v awake ++ l1 ++ wrote_result v status fin).

(** ** Rules *)
Implicit Types (P : Own) (mem : Mem).

Lemma steps_deactivated P mem t :
  steps (K:=K) P mem (transport_deactivate t) (λ r mem' l, total r ∧ deactivated P mem (tg_activation t) mem' l).
Proof.
  apply steps_bind, steps_view_of; [by intros; split; [|apply deactivated_not]|]. intros Hv.
  apply steps_map_err, steps_deactivate; [done|]. intros r Hr _. split; [by destruct r|by constructor].
Qed.

Lemma steps_peer_trigger P mem p now : steps (K:=K) P mem (peer_trigger p now) (peer_spec P mem p now).
Proof.
  apply steps_bind, steps_view_of; [intros e He; by apply peer_unviewable|]. intros Hv.
  apply steps_bind, steps_map_err. eapply steps_mono; [by apply steps_trigger|].
  intros [[n|]|e|] mem' l Ht; simpl; [| | |inversion Ht].
  - apply steps_ret. rewrite app_nil_r. by apply peer_waiting.
  - apply steps_bind, steps_map_err, steps_signal_fd; simpl.
    + intros e. rewrite app_nil_r. by apply peer_unsignalled.
    + apply steps_ret. by apply peer_signalled.
  - by apply peer_refused.
Qed.

Lemma peer_spec_total P mem p now r mem' l : peer_spec P mem p now r mem' l → total r.
Proof. by destruct 1. Qed.

Lemma steps_trigger_peers P mem ps first now :
  steps (K:=K) P mem (trigger_peers ps first now) (λ r mem' l,
    ∃ out, r = Ok out ∧ peers_spec P now ps first mem out mem' l).
Proof.
  revert mem first. induction ps as [|[node p] ps IH]; intros mem first; simpl.
  - apply steps_ret. exists first. by split; [|constructor].
  - apply steps_bind, steps_try. eapply steps_mono; [apply steps_peer_trigger|].
    intros [o|e|] mem1 l1 Hp; simpl; [| |by apply peer_spec_total in Hp].
    all: eapply steps_mono; [apply IH|]; intros r mem2 l2 (out & -> & Hps); exists out;
      split; [done|]; econstructor; [exact Hp|]; by destruct first.
Qed.

Lemma steps_trigger_all P mem (ps : PeerMap) now :
  steps (K:=K) P mem (trigger_all ps now) (λ r mem' l, ∃ out,
    r = match out with None => Ok tt | Some e => Err e end ∧
    peers_spec P now (in_order ps) None mem out mem' l).
Proof.
  apply steps_bind. eapply steps_mono; [apply steps_trigger_peers|]. intros r mem' l (out & -> & Hps). simpl.
  destruct out as [e|]; [apply steps_throw|apply steps_ret]; rewrite app_nil_r; [by exists (Some e)|by exists None].
Qed.

Lemma steps_claim_and_finish P mem t g awake finish :
  output_ok g →
  steps (K:=K) P mem (claim_and_finish t awake finish (process g)) (claim_spec P mem t g awake finish).
Proof.
  intros Hg. apply steps_bind, steps_view_of; [by intros; apply claim_unviewable|]. intros Hv.
  apply steps_bind, steps_try, steps_claim; [done|..].
  - intros e He. simpl.
    assert (owned P (record_of (tg_activation t)) →
      field mem (record_of (tg_activation t)) abi.STATUS 4 ≠ status_value Triggered) by naive_solver.
    destruct e as [| | | | |[] ?|]; try (apply steps_throw, claim_refused; [done|by eauto]).
    apply steps_ret, claim_refused; auto.
  - intros Htrig. simpl. apply steps_bind, steps_catch. eapply steps_mono; [by apply steps_process|].
    intros r mem1 l1 Hr.
    assert (cycle_result match r with Ok a => Some (inr a) | Err e => Some (inl e) | Panic => None end = completes r) as Hc
      by (by destruct r as [[? ?]|?|]).
    destruct (clocked awake finish (completes r)) as [[result status] fin] eqn:Hf.
    destruct r as [a|e|]; (rewrite Hc; destruct (completes _) as [res st] eqn:Hcr;
      unfold clocked in Hf; simpl in Hf; rewrite Hf).
    all: apply steps_bind, steps_map_err, steps_publish_result; [done|intros e' He'; simpl|].
    all: try (eapply claim_taken; [done|done|exact Hr|by rewrite Hcr|exact He']).
    all: intros Hdone; apply steps_ret; rewrite app_nil_r.
    all: eapply claim_ran; [done|done|exact Hr|by rewrite Hcr|exact Hdone].
Qed.
End spec.

(** Taking back what was published before the clock panicked. *)
Inductive abort_spec (P : Own) (mem : Mem) (g : OutputGeneration) : Mem → list Event → Prop :=
| abort_skipped :
    (p_addr (io_ptr g) ≠ 0 → p_addr (io_ptr g) mod 4 ≠ 0) ∨
    (∃ b, b ∈ og_buffers g ∧ not_viewable P mem b) ∨
    (covers P (io_ptr g) 0 8 → io_status (io_of mem (io_ptr g)) ≠ 2 ∨
       len (og_buffers g) ≤ io_buffer_id (io_of mem (io_ptr g))) →
    abort_spec P mem g mem []
| abort_done i bb b s :
    og_buffers g !! Z.to_nat i = Some bb → viewed P mem bb b →
    (covers P (io_ptr g) 0 8 → io_of mem (io_ptr g) = mkIoState 2 i) →
    (covers P (ob_chunk b) 0 16 → s = chunk_of mem (ob_chunk b)) →
    abort_spec P mem g (put_io (put_chunk mem (ob_chunk b) (aborted s)) (io_ptr g) NeedData i)
      (wrote_chunk (ob_chunk b) (aborted s) ++ wrote_io (io_ptr g) NeedData i).

(** How a claimed wake ends. *)
Inductive finish_spec (P : Own) (mem : Mem) (s : ClientNodeSession) (t : TransportGeneration)
    (g : OutputGeneration) (drained : Z) :
    Res SessionError (ClaimCompletion (option PublishedOutput)) →
    Res SessionError WakeOutcome → ClientNodeSession → Mem → list Event → Prop :=
| finish_error e mem2 l2 :
    deactivated P mem (tg_activation t) mem2 l2 →
    finish_spec P mem s t g drained (Err e) (Err e) (set_state Failed s) mem2 l2
| finish_not_claimed :
    finish_spec P mem s t g drained (Ok NotClaimed)
      (Ok (WakeNotClaimed drained (saturating_sub drained 1))) s mem []
| finish_done published fin mem2 l2 :
    peers_spec P fin (in_order (peers s)) None mem None mem2 l2 →
    finish_spec P mem s t g drained (Ok (Completed (inr published) fin))
      (Ok (Processed drained (saturating_sub drained 1) (bool_decide (is_Some published)))) s mem2 l2
| finish_peer published fin e mem2 l2 mem3 l3 :
    peers_spec P fin (in_order (peers s)) None mem (Some e) mem2 l2 →
    deactivated P mem2 (tg_activation t) mem3 l3 →
    finish_spec P mem s t g drained (Ok (Completed (inr published) fin))
      (Err e) (set_state Failed s) mem3 (l2 ++ l3)
| finish_callback e fin mem2 l2 :
    e ≠ FinishClockPanicked → deactivated P mem (tg_activation t) mem2 l2 →
    finish_spec P mem s t g drained (Ok (Completed (inl e) fin)) (Err e) (set_state Failed s) mem2 l2
| finish_clock fin mem2 l2 mem3 l3 :
    abort_spec P mem g mem2 l2 → deactivated P mem2 (tg_activation t) mem3 l3 →
    finish_spec P mem s t g drained (Ok (Completed (inl FinishClockPanicked) fin))
      (Err FinishClockPanicked) (set_state Failed s) mem3 (l2 ++ l3).

Section wake_spec.
Context {K : Type} `{EventSys K, OutputProcess K}.

Inductive wake_spec (P : Own) (mem : Mem) (s : ClientNodeSession) (generation awake : Z)
    (finish : option Z) : Res SessionError WakeOutcome → ClientNodeSession → Mem → list Event → Prop :=
| wake_no_transport :
    transport s = None →
    wake_spec P mem s generation awake finish (Err (NotReady "transport")) s mem []
| wake_stale t :
    transport s = Some t → generation ≠ tg_id t →
    wake_spec P mem s generation awake finish (Ok (Stale (tg_id t) generation)) s mem []
| wake_none t r :
    transport s = Some t → generation = tg_id t → r = Ok NoWake ∨ (∃ e, r = Err (Signal e)) →
    wake_spec P mem s generation awake finish r s mem []
| wake_idle t n :
    transport s = Some t → generation = tg_id t → state s ≠ Running →
    wake_spec P mem s generation awake finish (Ok (NotRunning n)) s mem [EvDrain (tg_trigger t) n]
| wake_cycle t g n c mem1 l1 r s' mem2 l2 :
    transport s = Some t → generation = tg_id t → state s = Running → output s = Some g →
    claim_spec P mem t g awake finish c mem1 l1 →
    finish_spec P mem1 s t g n c r s' mem2 l2 →
    wake_spec P mem s generation awake finish r s' mem2 (EvDrain (tg_trigger t) n :: l1 ++ l2).

(** ** Computations on a session and its world *)
Notation O := (SM (ClientNodeSession * World K)).
Implicit Types (P : Own) (mem : Mem) (s : ClientNodeSession).

Definition osteps {E A} P mem s (m : O E A) (Q : Res E A → ClientNodeSession → Mem → list Event → Prop) : Prop :=
  ∀ w, tracks P mem w → let '(s', w', r) := m (s, w) in
    w_ub w' = w_ub w ∧ (length (w_foreign w') ≤ length (w_foreign w))%nat ∧
    ∃ mem' l, tracks P mem' w' ∧ w_log w' = w_log w ++ l ∧ Q r s' mem' l.

Section basic.
Context {E A B : Type}.
Implicit Types (m : O E A) (f : A → O E B).

Lemma osteps_mono P mem s m (Q Q' : Res E A → ClientNodeSession → Mem → list Event → Prop) :
  osteps P mem s m Q → (∀ r s' mem' l, Q r s' mem' l → Q' r s' mem' l) → osteps P mem s m Q'.
Proof.
  intros Hm HQ w Hw. specialize (Hm w Hw). destruct (m (s, w)) as [[s' w'] r].
  destruct Hm as (? & ? & ? & ? & ? & ? & ?). eauto 10.
Qed.
Lemma osteps_pure P mem s (r : Res E A) Q : Q r s mem [] → osteps P mem s (pure r) Q.
Proof. intros HQ w Hw. simpl. split; [done|]. split; [done|]. exists mem, []. by rewrite app_nil_r. Qed.
Lemma osteps_ret P mem s (a : A) (Q : Res E A → _) : Q (Ok a) s mem [] → osteps P mem s (mret a) Q.
Proof. apply osteps_pure. Qed.
Lemma osteps_throw P mem s (e : E) (Q : Res E A → _) : Q (Err e) s mem [] → osteps P mem s (throw e) Q.
Proof. apply osteps_pure. Qed.
Lemma osteps_bind P mem s m f Q :
  osteps P mem s m (λ r s' mem' l, match r with
    | Ok a => osteps P mem' s' (f a) (λ r' s'' mem'' l', Q r' s'' mem'' (l ++ l'))
    | Err e => Q (Err e) s' mem' l
    | Panic => Q Panic s' mem' l
    end) → osteps P mem s (m ≫= f) Q.
Proof.
  intros Hm w Hw. specialize (Hm w Hw). unfold mbind, sm_bind. destruct (m (s, w)) as [[s' w'] r].
  destruct Hm as (Hu & Hf & mem' & l & Ht & Hl & HQ). destruct r as [a|e|]; [|by eauto 10..].
  specialize (HQ w' Ht). destruct (f a (s', w')) as [[s'' w''] r''].
  destruct HQ as (Hu' & Hf' & mem'' & l' & Ht' & Hl' & HQ'). split; [congruence|]. split; [lia|].
  exists mem'', (l ++ l'). by rewrite Hl', Hl, app_assoc.
Qed.
Lemma osteps_try {F} P mem s m (Q : Res F (E + A) → _) :
  osteps P mem s m (λ r s' mem' l, match r with
    | Ok a => Q (Ok (inr a)) s' mem' l | Err e => Q (Ok (inl e)) s' mem' l | Panic => Q Panic s' mem' l end) →
  osteps P mem s (try m) Q.
Proof.
  intros Hm w Hw. specialize (Hm w Hw). unfold try. destruct (m (s, w)) as [[s' w'] r].
  destruct Hm as (? & ? & mem' & l & ? & ? & HQ). destruct r; eauto 10.
Qed.
Lemma osteps_world P mem s (m : SM (World K) E A) Q :
  steps P mem m (λ r mem' l, Q r s mem' l) → osteps P mem s (world m) Q.
Proof.
  intros Hm w Hw. specialize (Hm w Hw). unfold world. cbn [snd fst]. by destruct (m w) as [w' r].
Qed.
End basic.

Lemma osteps_gets {A} P mem s (f : ClientNodeSession → A) (Q : Res SessionError A → _) :
  Q (Ok (f s)) s mem [] → osteps P mem s (gets f) Q.
Proof. apply osteps_pure. Qed.
Lemma osteps_modify P mem s f (Q : Res SessionError unit → _) :
  Q (Ok tt) (f s) mem [] → osteps P mem s (modify f) Q.
Proof. intros HQ w Hw. simpl. split; [done|]. split; [done|]. exists mem, []. by rewrite app_nil_r. Qed.

Lemma osteps_fail {A} P mem s t (e : SessionError) (Q : Res SessionError A → _) :
  transport s = Some t →
  (∀ mem' l, deactivated P mem (tg_activation t) mem' l → Q (Err e) (set_state Failed s) mem' l) →
  osteps P mem (set_state CycleClaimed s) (fail;; throw e) Q.
Proof.
  intros Ht HQ. apply osteps_bind, osteps_bind, osteps_gets. cbn [transport set_state]. rewrite Ht.
  apply osteps_bind, osteps_bind, osteps_try.
  apply osteps_world. eapply steps_mono; [apply steps_deactivated|]. intros [a|e'|] mem' l [? Hd]; [..|done].
  all: apply osteps_ret, osteps_modify, osteps_throw; rewrite !app_nil_r; simpl; by apply HQ.
Qed.

Lemma steps_abort_published P mem g :
  output_ok g →
  steps (K:=K) P mem (abort_published g) (λ r mem' l, total r ∧ abort_spec P mem g mem' l).
Proof.
  intros [_ Hl Hb _]. apply steps_bind, steps_io_view; [done|by intros; split; [|apply abort_skipped; left]|].
  intros Hio. apply steps_bind, steps_io_state; [done|]. intros [st i] _ [Hi _] Hst. cbn [io_status io_buffer_id] in *.
  case_bool_decide as Hne.
  { apply steps_ret. split; [done|]. apply abort_skipped. right; right. intros Hc. rewrite <- Hst by done. by left. }
  apply steps_bind, steps_pure. destruct (og_buffers g !! Z.to_nat i) as [bb|] eqn:Hbb; simpl.
  2: { split; [done|]. apply abort_skipped. right; right. intros Hc. rewrite <- Hst by done. right. simpl.
       apply lookup_ge_None in Hbb. unfold len. lia. }
  rewrite Forall_lookup in Hb. specialize (Hb _ _ Hbb).
  apply steps_bind, steps_output_view; [done|..].
  { intros e Hn. split; [done|]. apply abort_skipped. right; left. exists bb. split; [|done].
    by eapply list_elem_of_lookup_2. }
  intros ob Hv. assert (record_ok (ob_chunk ob) 16) by (by destruct Hv as (? & ? & [? _] & _)).
  apply steps_bind, steps_ob_abort; [done|]. intros s Hs. simpl. apply steps_publish_io; [done|].
  split; [done|]. eapply abort_done; [done..| |done]. intros Hc. rewrite <- Hst by done. by f_equal.
Qed.

Lemma set_state_twice x y s : set_state x (set_state y s) = set_state x s.
Proof. done. Qed.

Lemma osteps_finish P mem s t g n c :
  session_inv s → state s = Running → transport s = Some t → output s = Some g →
  osteps P mem (set_state CycleClaimed s)
    match c with
    | inl e => fail;; throw e
    | inr NotClaimed => modify (set_state Running);; mret (WakeNotClaimed n (saturating_sub n 1))
    | inr (Completed (inr published) finish_ns) =>
        r ← try (world (trigger_all (peers s) finish_ns));
        match r with
        | inr _ => modify (set_state Running);;
                   mret (Processed n (saturating_sub n 1) (bool_decide (is_Some published)))
        | inl e => fail;; throw e
        end
    | inr (Completed (inl e) finish_ns) =>
        match e with
        | FinishClockPanicked => _ ← try (world (abort_published g)); mret tt
        | _ => mret tt
        end;;
        fail;; throw e
    end (finish_spec P mem s t g n match c with inl e => Err e | inr x => Ok x end).
Proof.
  intros Hi Hr Ht Hg. assert (set_state Running (set_state CycleClaimed s) = s) as Hback
    by (rewrite set_state_twice, <- Hr; apply set_state_id).
  destruct c as [e|[|[e|published] fin]].
  - eapply osteps_fail; [done|]. intros. by apply finish_error.
  - apply osteps_bind, osteps_modify, osteps_ret. rewrite Hback. apply finish_not_claimed.
  - apply osteps_bind. assert (e = FinishClockPanicked ∨ e ≠ FinishClockPanicked) as [->|Hne]
      by (destruct e; auto).
    + apply osteps_bind, osteps_try, osteps_world.
      eapply steps_mono; [apply steps_abort_published, (si_output s Hi g Hg)|].
      intros [[]|e|] mem2 l2 [? Ha]; [..|done].
      all: apply osteps_ret, (osteps_fail _ _ _ t); [done|]; intros mem3 l3 Hd; rewrite app_nil_r;
        by eapply finish_clock.
    + match goal with |- osteps _ _ _ ?m _ => assert (m = mret tt) as -> by (by destruct e) end.
      apply osteps_ret, (osteps_fail _ _ _ t); [done|]. intros mem3 l3 Hd. simpl. by apply finish_callback.
  - apply osteps_bind, osteps_try, osteps_world. eapply steps_mono; [apply steps_trigger_all|].
    intros r mem2 l2 ([e|] & -> & Hp).
    + eapply osteps_fail; [done|]. intros mem3 l3 Hd. by eapply finish_peer.
    + apply osteps_bind, osteps_modify, osteps_ret. rewrite Hback, !app_nil_r. by eapply finish_done.
Qed.

Lemma osteps_on_wake P mem s generation awake finish :
  session_inv s →
  osteps P mem s (on_wake_with_finish generation awake finish) (wake_spec P mem s generation awake finish).
Proof.
  intros Hi. apply osteps_bind, osteps_gets. destruct (transport s) as [t|] eqn:Ht.
  2: by apply osteps_throw, wake_no_transport.
  case_bool_decide as Hgen; [by apply osteps_ret, wake_stale|].
  apply osteps_bind, osteps_try, osteps_world, steps_map_err, steps_drain_fd; simpl.
  { intros e. destruct e as [[]|]; [apply osteps_throw|apply osteps_ret|apply osteps_throw..];
      (eapply wake_none; [done..|]); eauto. }
  intros n. apply osteps_bind, osteps_gets. unfold id.
  case_bool_decide as Hrun; [by apply osteps_ret, wake_idle|].
  apply osteps_bind, osteps_modify. pose proof (si_running s Hi Hrun) as Hready.
  unfold is_ready in Hready. rewrite !andb_true_iff, !bool_decide_eq_true in Hready.
  destruct Hready as [_ [g Hg]]. apply osteps_bind. unfold expect. rewrite Hg.
  apply osteps_ret, osteps_bind, osteps_try, osteps_world.
  eapply steps_mono; [apply steps_claim_and_finish, (si_output s Hi g Hg)|].
  intros c mem1 l1 Hc. assert (total c) by (destruct Hc as [| ? ? [->|[? ->]]| |]; done).
  destruct c as [c|e|]; [..|done].
  - eapply osteps_mono; [by apply (osteps_finish P mem1 s t g n (inr c))|].
    intros r s' mem2 l2 Hf. simpl. by eapply wake_cycle.
  - eapply osteps_mono; [by apply (osteps_finish P mem1 s t g n (inl e))|].
    intros r s' mem2 l2 Hf. simpl. by eapply wake_cycle.
Qed.
End wake_spec.
