(* ===== verification/NodeHistory.v ===== *)
(** * Histories of a session

    A session's life as its owner drives it: server events, local commands
    and wakes, in any order and with any outcome. *)

From S2P Require Import Prelude PodCodec PodTypes PodCompound FrameHeader ClientNode NodeMemory NodeShared NodeActivation NodePort.
From S2P Require Import NodeCycle NodeConfig NodeOutput NodeSession NodeSessionLaws NodeWake.
#[local] Open Scope Z_scope.

(** ** Commands of the wire *)

(** Wire integers are naturals, and a pod lies in memory. *)
Definition region_wire_nat (r : RegionRef) : Prop := 0 ≤ offset r ∧ 0 ≤ ClientNode.size r.
Definition buffer_wire_nat (b : BufferDescriptor) : Prop :=
  NodeConfig.buffer_typed b ∧ Forall (λ m, 0 ≤ meta_size m) (metas b) ∧
  Forall (λ d, 0 ≤ map_offset d ∧ 0 ≤ max_size d) (datas b).
Definition event_nat (e : ClientNode.Event) : Prop :=
  match e with
  | ETransport v => region_wire_nat (t_activation v)
  | EPortSetParam v => ∀ pod, param v = Some pod → len (raw_data pod) ≤ isize_max
  | EPortUseBuffers v => Forall buffer_wire_nat (buffers v)
  | EPortSetIo (IoSet _ _ _ _ r) => region_wire_nat r
  | ESetActivation (ActivationSet _ _ r) => region_wire_nat r
  | _ => True
  end.

Lemma region_try_from_nat r : region_wire_nat r → post region_nat (region_try_from r).
Proof.
  intros [Ho Hs]. pose proof (region_try_from_spec r Ho Hs) as Hp.
  eapply post_mono; [exact Hp|]. by intros x (-> & ? & ?).
Qed.

Lemma validate_port_total d p m : total (validate_port d p m).
Proof. unfold validate_port. destruct d; [done|]. case_bool_decide; [done|]. by destruct m. Qed.

Lemma buffers_try_from_nat bs : Forall buffer_wire_nat bs → post (Forall buffer_nat) (buffers_try_from bs).
Proof.
  intros Hbs. assert (Forall NodeConfig.buffer_typed bs) as Ht by (eapply Forall_impl; [done|]; by intros b [? _]).
  pose proof (buffers_try_from_spec bs Ht) as Hs. destruct (buffers_try_from bs) as [ss|e|]; simpl; [|done..].
  clear Ht. induction Hs as [|b s bs ss (d & (Hd & _) & ->) _ IH]; [constructor|].
  apply Forall_cons in Hbs as [((_ & [? _] & [? _]) & Hm & Hds) Hbs]. rewrite Hd, Forall_singleton in Hds.
  constructor; [|by apply IH]. split; [done|]. split; [|apply Hds]. simpl. by apply Forall_fmap.
Qed.

(** Converting a server event never panics, and what it yields is typed. *)
Lemma command_from_wire_typed e : event_nat e → post command_typed (command_from_wire e).
Proof.
  intros He. destruct e as [v|v|v|v|v|c]; simpl in *.
  - unfold transport_try_from. apply post_bind, post_bind. eapply post_mono; [by apply region_try_from_nat|].
    by intros r Hr.
  - destruct (param v) as [pod|] eqn:Hp.
    + apply post_bind. eapply post_mono; [apply format_from_wire_sound|done]. by rewrite Hp.
    + pose proof (validate_port_total (sp_direction v) (sp_port_id v) None).
      destruct (validate_port _ _ _); simpl; [by case_bool_decide|done..].
  - unfold buffer_set_try_from. pose proof (validate_port_total (ub_direction v) (ub_port_id v) (ub_mix_id v)).
    destruct (validate_port _ _ _); simpl; [|done..]. do 3 (case_bool_decide; simpl; [done|]).
    pose proof (buffers_try_from_nat _ He) as Hb. destruct (buffers_try_from _); simpl in *; [|done..].
    by case_bool_decide.
  - destruct v as [d p m io r|d p m io]; simpl; pose proof (validate_port_total d p m);
      destruct (validate_port _ _ _); simpl; try done.
    + case_bool_decide; simpl; [|by case_bool_decide].
      pose proof (region_try_from_nat r He) as Hr. by destruct (region_try_from r).
    + by case_bool_decide.
  - destruct v as [n fd r|n]; simpl; [|done].
    pose proof (region_try_from_nat r He) as Hr. by destruct (region_try_from r).
  - by destruct c.
Qed.

(** ** Histories *)
Inductive Call :=
| CallEvent (kernel : Kernel) (e : ClientNode.Event)
| CallApply (kernel : Kernel) (c : SessionCommand)
| CallWake (generation awake : Z) (finish : option Z).
Definition call_typed (c : Call) : Prop :=
  match c with CallEvent _ e => event_nat e | CallApply _ c => command_typed c | CallWake _ _ _ => True end.

Section history.
Context {K : Type} `{EventSys K, OutputProcess K}.
Notation O := (SM (ClientNodeSession * World K) SessionError).
Implicit Types s : ClientNodeSession.

Definition call (c : Call) : O (ApplyOutcome + WakeOutcome) :=
  match c with
  | CallEvent kernel e => c ← pure (command_from_wire e); r ← apply kernel c; mret (inl r)
  | CallApply kernel c => r ← apply kernel c; mret (inl r)
  | CallWake generation awake finish => r ← on_wake_with_finish generation awake finish; mret (inr r)
  end.

(** Run calls one after the other, whatever they return. *)
Fixpoint history (calls : list Call) (sw : ClientNodeSession * World K) :
    (ClientNodeSession * World K) * list (Res SessionError (ApplyOutcome + WakeOutcome)) :=
  match calls with
  | [] => (sw, [])
  | c :: calls => let '(sw, r) := call c sw in let '(sw, rs) := history calls sw in (sw, r :: rs)
  end.

(** A wake that ends leaves the session as it was, or failed. *)
Lemma wake_spec_keeps P mem s generation awake finish r s' mem' l :
  wake_spec (K:=K) P mem s generation awake finish r s' mem' l → total r ∧ (s' = s ∨ s' = set_state Failed s).
Proof.
  destruct 1 as [| |t r ? ? [->|[? ->]]| |t g n c mem1 l1 r s' mem2 l2 _ _ _ _ _ Hf];
    [by split; auto..|]. destruct Hf; (split; [done|auto]).
Qed.

Lemma inv_failed s : session_inv s → session_inv (set_state Failed s).
Proof. intros Hi. by apply inv_state. Qed.

Lemma osteps_any s {E A} (m : SM (ClientNodeSession * World K) E A) Q w :
  (∀ mem, osteps (λ _ _, False) mem s m (Q mem)) →
  let '(s', w', r) := m (s, w) in
  w_ub w' = w_ub w ∧ ∃ mem l, w_log w' = w_log w ++ l ∧ Q (w_mem w) r s' mem l.
Proof.
  intros Hm. specialize (Hm (w_mem w) w). destruct (m (s, w)) as [[s' w'] r].
  destruct Hm as (? & _ & mem' & l & _ & ? & ?); [|by eauto 10].
  split; [|done]. apply Forall_forall. by intros f _ m' b o.
Qed.

Lemma call_keeps c s w :
  session_inv s → call_typed c →
  let '(s', w', r) := call c (s, w) in session_inv s' ∧ w_ub w' = w_ub w ∧ total r.
Proof.
  intros Hi Hc. destruct c as [kernel e|kernel c|generation awake finish]; simpl in *.
  - unfold mbind, sm_bind, pure. pose proof (command_from_wire_typed e Hc) as Hp.
    destruct (command_from_wire e) as [c|e'|]; simpl; [|done..].
    destruct (keeps_apply kernel s c Hi Hp w) as (Hu & _ & Hq).
    by destruct (apply kernel c (s, w)) as [[s' w'] [o|e'|]], Hq.
  - destruct (keeps_apply kernel s c Hi Hc w) as (Hu & _ & Hq). unfold mbind, sm_bind.
    by destruct (apply kernel c (s, w)) as [[s' w'] [o|e'|]], Hq.
  - pose proof (osteps_any s _ _ w (λ mem, osteps_on_wake (λ _ _, False) mem s generation awake finish Hi)) as Hw.
    unfold mbind, sm_bind. destruct (on_wake_with_finish _ _ _ _) as [[s' w'] r].
    destruct Hw as (Hu & mem & l & _ & Hs). apply wake_spec_keeps in Hs as [Ht Hs'].
    assert (session_inv s') by (destruct Hs' as [->| ->]; [done|by apply inv_failed]).
    by destruct r.
Qed.

Lemma history_keeps calls s w :
  session_inv s → Forall call_typed calls →
  let '(s', w', rs) := history calls (s, w) in session_inv s' ∧ w_ub w' = w_ub w ∧ Forall total rs.
Proof.
  intros Hi Hc. revert s w Hi. induction Hc as [|c calls Hc _ IH]; intros s w Hi; simpl; [done|].
  pose proof (call_keeps c s w Hi Hc) as Hk. destruct (call c (s, w)) as [[s1 w1] r].
  destruct Hk as (Hi1 & Hu & Ht). specialize (IH s1 w1 Hi1). destruct (history calls (s1, w1)) as [[s2 w2] rs].
  destruct IH as (? & ? & ?). split_and!; [done|congruence|by constructor].
Qed.

Lemma session_new_inv : session_inv ClientNodeSession_new.
Proof.
  constructor; try done. unfold ClientNodeSession_new. cbn [pending_peers peers].
  rewrite !dom_empty_L, (left_id_L ∅ (∪)), size_empty. lia.
Qed.
End history.

(** ** A concrete life

    Five memories as a server hands them out: the node's activation, one
    buffer's metadata and its plane, the port's IO area and a peer's
    activation. The server triggers the node whenever it has finished; the
    application commits four frames of stereo silence. *)
Module sample.
Definition kernel : Kernel :=
  mkKernel (λ fd, inr (mkStat 4096 8 fd)) (λ _, 2) 4096 (λ _ _ fd _, inr (0x7f0000000000 + 65536 * fd)).
Definition lease (id : Z) : MemoryLease :=
  mkLease (mkEntry (mkKey id id) (mkBacking 8 id) MemFd 3 4096 id) RequireSealed.
Definition at_record (id : Z) : Ptr := mkPtr 0 (mkBacking 8 id) 0 4096.
Definition own : Ptr := at_record 1.
Definition peer : Ptr := at_record 5.
Definition io : Ptr := at_record 4.

Definition initial : Mem :=
  let m := λ _ _, Byte.x00 in
  let m := set_field (set_field m own abi.SERVER_VERSION 4 1) peer abi.SERVER_VERSION 4 1 in
  set_field (set_field m own abi.STATUS 4 4) peer abi.STATE0_PENDING 4 1.
Definition server (m : Mem) : Mem :=
  if bool_decide (field m own abi.STATUS 4 = 3)
  then put_io (set_status m own Triggered) io NeedData 0 else m.
Definition w0 : World unit := mkWorld initial (replicate 200 server) tt false [].

#[global] Instance sys : EventSys unit := {|
  sys_getfl k _ := (k, inr 0);
  sys_setfl k _ _ := (k, inr tt);
  sys_read k _ := (k, inr (8, 1));
  sys_write k _ _ := (k, inr 8);
|}.
#[global] Instance app : OutputProcess unit := {|
  op_process k c media :=
    match silence c media 4 with
    | Ok (media, committed) => (k, media, Ok committed)
    | Err _ => (k, media, Err "silence")
    | Panic => (k, media, Panic)
    end;
|}.

Definition stereo : NegotiatedAudioFormat := mkFormat S16Le 48000 [0; 0] 2 4.
Definition configure : list Call :=
  (λ id, CallApply kernel (MemoryAvailable (lease id))) <$> [1; 2; 3; 4; 5].
Definition setup : list Call :=
  [CallEvent kernel (ETransport (mkTransport 20 21 (mkRegion 1 0 2312)));
   CallApply kernel (SetFormat stereo);
   CallEvent kernel (EPortUseBuffers (mkPortUseBuffers Output 0 None 0
     [mkBuffer (mkRegion 2 0 16) [] [mkData 4 3 0 0 64]]));
   CallEvent kernel (EPortSetIo (IoSet Output 0 None 1 (mkRegion 4 0 8)));
   CallEvent kernel (ESetActivation (ActivationSet 9 22 (mkRegion 5 0 2312)));
   CallApply kernel (SetActive true);
   CallEvent kernel (ECommand Start)].
Definition calls : list Call := configure ++ setup ++ [CallWake 1 100 (Some 200); CallWake 7 100 None].

(** The configured session while nobody else moves, and its memory once the
    server asks for buffer 0 and triggers the node. *)
Definition quiet_world : World unit := mkWorld initial [] tt false [].
Definition configured : ClientNodeSession * World unit :=
  (history (configure ++ setup) (ClientNodeSession_new, quiet_world)).1.
Definition running : ClientNodeSession := configured.1.
Definition triggered : Mem := put_io (set_status (w_mem configured.2) own Triggered) io NeedData 0.
Definition triggered_world : World unit := mkWorld triggered [] tt false [].

Definition map_at (id n : Z) : MemoryMapping :=
  let p := 0x7f0000000000 + 65536 * id in mkMapping (mkMapped p n p n (SealAvailable 2)) (l_entry (lease id)) 0.
Definition transport_of : TransportGeneration := mkTransportGeneration 1 20 21 (mkKey 1 1) (map_at 1 2312).
Definition buffer_of : BoundBuffer := mkBound (mkKey 2 2) (map_at 2 16) 0 (mkKey 3 3) (map_at 3 64).
Definition output_of : OutputGeneration := mkOutput 2 stereo (mkKey 4 4) (map_at 4 8) [buffer_of].

Lemma setup_typed : Forall call_typed (configure ++ setup).
Proof. repeat constructor; try done; by vm_compute. Qed.
Lemma running_inv : session_inv running.
Proof.
  pose proof (history_keeps (K:=unit) _ _ quiet_world session_new_inv setup_typed) as Hi.
  unfold running, configured. destruct (history _ _) as [[s w] rs]. apply Hi.
Qed.
End sample.

(** ** Properties *)

(** C5: The session invariant. Whatever events, commands and wakes a new
    session receives, whatever the kernel answers, whatever the other
    processes write to the shared memory and whatever the callback does: no
    call panics, no access is undefined, and afterwards a running session has
    its transport, format and output, no cycle is left claimed, no two
    mapped regions share a byte, at most 64 peers are held, generations are
    older than the next one, and a disconnected session holds nothing. *)
Theorem session_invariant {K} `{EventSys K, OutputProcess K} (calls : list Call) (w : World K) :
  Forall call_typed calls →
  let '(s, w', rs) := history calls (ClientNodeSession_new, w) in
  session_inv s ∧ w_ub w' = w_ub w ∧ Forall total rs.
Proof. intros Hc. apply history_keeps; [apply session_new_inv|done]. Qed.

Lemma sample_typed : Forall call_typed sample.calls.
Proof.
  unfold sample.calls. rewrite app_assoc. apply Forall_app. split; [apply sample.setup_typed|by repeat constructor].
Qed.

Lemma session_invariant_witness :
  let '(s, w, rs) := history sample.calls (ClientNodeSession_new, sample.w0) in
  session_inv s ∧ w_ub w = false ∧ rs !! 12%nat = Some (Ok (inr (Processed 1 0 true))).
Proof.
  pose proof (session_invariant sample.calls sample.w0 sample_typed) as Hi.
  assert ((history sample.calls (ClientNodeSession_new, sample.w0)).2 !! 12%nat
          = Some (Ok (inr (Processed 1 0 true)))) as Hr by (by vm_compute).
  destruct (history _ _) as [[s w] rs]. by destruct Hi as (? & ? & _).
Defined.

(** What a disconnected session answers. *)
Definition refusal (c : Call) : Res SessionError (ApplyOutcome + WakeOutcome) :=
  match c with
  | CallEvent _ e => match command_from_wire e with
                     | Ok Disconnect => Ok (inl AlreadyDisconnected) | Ok _ => Err SessDisconnected
                     | Err e => Err e | Panic => Panic end
  | CallApply _ Disconnect => Ok (inl AlreadyDisconnected)
  | CallApply _ _ => Err SessDisconnected
  | CallWake _ _ _ => Err (NotReady "transport")
  end.

Lemma released_refuses {K} `{EventSys K, OutputProcess K} s (w : World K) calls :
  released s → state s = DisconnectedState → history calls (s, w) = ((s, w), refusal <$> calls).
Proof.
  intros (Ht & _) Hd. induction calls as [|c calls IH]; [done|]. simpl.
  assert (call c (s, w) = ((s, w), refusal c)) as ->.
  { assert (∀ kernel c, apply kernel c (s, w) =
      ((s, w), match c with Disconnect => Ok AlreadyDisconnected | _ => Err SessDisconnected end)) as Ha.
    { intros kernel c'. unfold apply, mbind, sm_bind, gets. simpl. unfold id. rewrite Hd. simpl. by destruct c'. }
    destruct c as [kernel e|kernel c|generation awake finish]; simpl; unfold mbind, sm_bind, pure.
    - destruct (command_from_wire e) as [c|e'|]; [|done..]. rewrite Ha. by destruct c.
    - rewrite Ha. by destruct c.
    - unfold on_wake_with_finish, mbind, sm_bind, gets. simpl. by rewrite Ht. }
  by rewrite IH.
Qed.

Lemma disconnects {K} `{EventSys K, OutputProcess K} kernel (c : SessionCommand) s (w : World K) :
  c = Disconnect ∨ c = MemoryDisconnected → session_inv s → state s ≠ DisconnectedState →
  let '(s', w', r) := apply kernel c (s, w) in
  r = Ok Applied ∧ state s' = DisconnectedState ∧ released s'.
Proof.
  intros Hc Hi Hd.
  assert (oq s (apply (K:=K) kernel c) (λ r s', r = Ok Applied ∧ state s' = DisconnectedState ∧ released s')) as Ha.
  { apply oq_bind, oq_gets. unfold id. rewrite !bool_decide_eq_false_2 by (apply Hi || done). apply oq_bind.
    apply (oq_mono _ _ (λ r s', r = Ok Applied ∧ state s' = DisconnectedState ∧ released s')).
    { destruct Hc as [->| ->]; apply oq_bind, oq_disconnect; intros s' Hr Hs; by apply oq_ret. }
    intros r s' (-> & Hs' & Hr). apply oq_bind, oq_modify. rewrite Hs'. apply oq_bind, oq_gets. unfold id.
    unfold is_ready. pose proof Hr as (-> & _). rewrite andb_false_r. by apply oq_bind, oq_ret, oq_ret. }
  destruct (Ha w) as (_ & _ & Hr). by destruct (apply kernel c (s, w)) as [[s' w'] r].
Qed.

(** C28: Disconnecting is final. A disconnect of a live session, or the loss
    of its memory, always succeeds, however its activation answers; the
    session then holds no memory, generation or peer, and every later call,
    in any number and order, is refused without changing the session or the
    world. *)
Theorem disconnect_final {K} `{EventSys K, OutputProcess K} kernel (c : SessionCommand)
    (s : ClientNodeSession) (w : World K) (calls : list Call) :
  c = Disconnect ∨ c = MemoryDisconnected → session_inv s → state s ≠ DisconnectedState →
  let '(s', w', r) := apply kernel c (s, w) in
  r = Ok Applied ∧ state s' = DisconnectedState ∧ released s' ∧
  history calls (s', w') = ((s', w'), refusal <$> calls).
Proof.
  intros Hc Hi Hd. pose proof (disconnects kernel c s w Hc Hi Hd) as Ha.
  destruct (apply kernel c (s, w)) as [[s' w'] r]. destruct Ha as (? & ? & ?).
  split_and!; try done. by apply released_refuses.
Qed.

Lemma disconnect_final_witness :
  let '(s, w, r) := apply (K:=unit) sample.kernel Disconnect (ClientNodeSession_new, sample.w0) in
  r = Ok Applied ∧ history sample.calls (s, w) = ((s, w), refusal <$> sample.calls).
Proof.
  pose proof (disconnect_final sample.kernel Disconnect ClientNodeSession_new sample.w0 sample.calls
    (or_introl eq_refl) session_new_inv ltac:(done)) as Hd.
  destruct (apply _ _ _) as [[s w] r]. by destruct Hd as (? & _ & _ & ?).
Defined.
