(* ===== verification/NodeRuntime.v ===== *)
(** * The runtime of a node session

    Models [node/src/runtime/mod.rs]: a task owns the session, takes commands
    from a bounded queue and wakes from the registered trigger, one per turn
    of a biased [select!], until it is stopped or a call fails, and then
    disconnects the session. *)

From S2P Require Import Prelude PodCodec PodTypes PodCompound FrameHeader ClientNode NodeMemory NodeShared NodeActivation NodePort.
From S2P Require Import NodeCycle NodeConfig NodeOutput NodeSession NodeSessionLaws NodeWake NodeHistory.

Inductive CommandSendError := Full | Closed.
(** [io::Error], by where it comes from. *)
Inductive RuntimeError :=
| RtSession (e : SessionError)
| RtRegister
| RtReady
| RtCancelled
| RtInvalidInput
| RtNotConnected.

(** [RuntimeCounters]: each a [u64] with [fetch_add]. *)
Record RuntimeDiagnostics := mkDiagnostics { callbacks : Z; missed_wakes : Z; stale_wakes : Z }.

Definition record_outcome (d : RuntimeDiagnostics) (outcome : WakeOutcome) : RuntimeDiagnostics :=
  match outcome with
  | Processed _ missed _ =>
      mkDiagnostics (wrap 64 (callbacks d + 1)) (wrap 64 (missed_wakes d + missed)) (stale_wakes d)
  | WakeNotClaimed _ missed => mkDiagnostics (callbacks d) (wrap 64 (missed_wakes d + missed)) (stale_wakes d)
  | Stale _ _ => mkDiagnostics (callbacks d) (missed_wakes d) (wrap 64 (stale_wakes d + 1))
  | NoWake | NotRunning _ => d
  end.

(** What a poll of the task finds: the memory system calls of a command,
    whether the trigger is ready (or the reactor failed), the user's clock at
    the claim and at the completion ([None]: [monotonic_ns] panics), whether
    the trigger can be duplicated and registered again, and, at the first
    poll, whether it could be registered at the start. *)
Record Poll := mkPoll {
  p_kernel : Kernel;
  p_ready : option bool;
  p_awake : option Z;
  p_finish : option Z;
  p_register : bool;
  p_first : bool;
}.

Section runtime.
Context {K : Type} `{EventSys K, OutputProcess K}.

(** The channels, the counters and the task: whether it has been polled, its
    session with the world, the generation its trigger is registered for, and
    its result once it has ended. *)
Record Runtime := mkRuntime {
  rt_capacity : Z;
  rt_queue : list SessionCommand;
  rt_stop : bool;
  rt_started : bool;
  rt_sw : ClientNodeSession * World K;
  rt_registration : option Z;
  rt_counters : RuntimeDiagnostics;
  rt_result : option (Res RuntimeError unit);
}.
Definition rt_session (rt : Runtime) : ClientNodeSession := (rt_sw rt).1.

Definition with_queue (q : list SessionCommand) (rt : Runtime) : Runtime :=
  mkRuntime (rt_capacity rt) q (rt_stop rt) (rt_started rt) (rt_sw rt) (rt_registration rt) (rt_counters rt) (rt_result rt).
Definition with_stop (rt : Runtime) : Runtime :=
  mkRuntime (rt_capacity rt) (rt_queue rt) true (rt_started rt) (rt_sw rt) (rt_registration rt) (rt_counters rt) (rt_result rt).
Definition with_sw (sw : ClientNodeSession * World K) (rt : Runtime) : Runtime :=
  mkRuntime (rt_capacity rt) (rt_queue rt) (rt_stop rt) (rt_started rt) sw (rt_registration rt) (rt_counters rt) (rt_result rt).
Definition with_counters (d : RuntimeDiagnostics) (rt : Runtime) : Runtime :=
  mkRuntime (rt_capacity rt) (rt_queue rt) (rt_stop rt) (rt_started rt) (rt_sw rt) (rt_registration rt) d (rt_result rt).
Definition with_registration (r : option Z) (rt : Runtime) : Runtime :=
  mkRuntime (rt_capacity rt) (rt_queue rt) (rt_stop rt) (rt_started rt) (rt_sw rt) r (rt_counters rt) (rt_result rt).
Definition with_started (rt : Runtime) : Runtime :=
  mkRuntime (rt_capacity rt) (rt_queue rt) (rt_stop rt) true (rt_sw rt) (rt_registration rt) (rt_counters rt) (rt_result rt).
(** The task is over and its end of the queue gone. *)
Definition ended (sw : ClientNodeSession * World K) (r : Res RuntimeError unit) (rt : Runtime) : Runtime :=
  mkRuntime (rt_capacity rt) [] (rt_stop rt) (rt_started rt) sw None (rt_counters rt) (Some r).

(** The task's values are dropped without [Disconnect]; of the session only
    the transport does more than release. *)
Definition dropped (sw : ClientNodeSession * World K) (r : Res RuntimeError unit) (rt : Runtime) : Runtime :=
  ended (assign_transport None sw).1 r rt.

(** ** The endpoints *)
Definition try_send (c : SessionCommand) (rt : Runtime) : Runtime * Res CommandSendError unit :=
  match rt_result rt with
  | Some _ => (rt, Err Closed)
  | None =>
      if bool_decide (rt_capacity rt ≤ len (rt_queue rt)) then (with_stop rt, Err Full)
      else (with_queue (rt_queue rt ++ [c]) rt, Ok tt)
  end.
Definition terminate (rt : Runtime) : Runtime := with_stop rt.

(** ** The task *)
Definition desired_registration (register : bool) (s : ClientNodeSession) : Res RuntimeError (option Z) :=
  if bool_decide (state s ≠ Running) then Ok None else
  match transport s with
  | Some t => if register then Ok (Some (tg_id t)) else Err RtRegister
  | None => Ok None
  end.

(** After the loop: [apply(Disconnect)], and [result.and(cleanup)]. *)
Definition finish (kernel : Kernel) (result : Res RuntimeError unit) (rt : Runtime) : Runtime :=
  let '(sw, r) := apply kernel Disconnect (rt_sw rt) in
  ended sw (match result with Ok _ => map_err RtSession (_ ← r; Ok tt) | result => result end) rt.

(** [registration = desired_registration(&session)?], at the start and at the
    end of a turn. *)
Definition reregister (register : bool) (kernel : Kernel) (rt : Runtime) : Runtime :=
  match desired_registration register (rt_session rt) with
  | Ok registration => with_registration registration rt
  | Err e => finish kernel (Err e) rt
  | Panic => dropped (rt_sw rt) Panic rt
  end.

Definition on_command (p : Poll) (c : SessionCommand) (rt : Runtime) : Runtime :=
  match apply (p_kernel p) c (rt_sw rt) with
  | (sw, Ok _) =>
      let rt := with_sw sw rt in
      if bool_decide (state (rt_session rt) = DisconnectedState) then finish (p_kernel p) (Ok tt) rt
      else reregister (p_register p) (p_kernel p) rt
  | (sw, Err e) => finish (p_kernel p) (Err (RtSession e)) (with_sw sw rt)
  | (sw, Panic) => dropped sw Panic rt
  end.

(** The clock at the claim is read outside the [catch_unwind] of the session:
    its panic unwinds the task. *)
Definition on_trigger (p : Poll) (generation : Z) (rt : Runtime) : Runtime :=
  match p_awake p with
  | None => dropped (rt_sw rt) Panic rt
  | Some awake_ns =>
      match on_wake_with_finish generation awake_ns (p_finish p) (rt_sw rt) with
      | (sw, Ok outcome) =>
          reregister (p_register p) (p_kernel p)
            (with_counters (record_outcome (rt_counters rt) outcome) (with_sw sw rt))
      | (sw, Err e) => finish (p_kernel p) (Err (RtSession e)) (with_sw sw rt)
      | (sw, Panic) => dropped sw Panic rt
      end
  end.

(** One turn of the loop: the branches in their order. All senders of the
    stop channel gone ends the loop like a stop. *)
Definition turn (p : Poll) (rt : Runtime) : Runtime :=
  if rt_stop rt then finish (p_kernel p) (Ok tt) rt else
  match rt_queue rt, rt_registration rt, p_ready p with
  | c :: q, _, _ => on_command p c (with_queue q rt)
  | [], Some generation, Some true => on_trigger p generation rt
  | [], Some _, Some false => finish (p_kernel p) (Err RtReady) rt
  | [], _, _ => rt
  end.

(** What comes before the loop, when the task is polled for the first time. *)
Definition begin (p : Poll) (rt : Runtime) : Runtime :=
  if rt_started rt then rt else reregister (p_first p) (p_kernel p) (with_started rt).

(** A turn of the task, the first one after its beginning. (A poll of the
    executor runs turns until none has anything to do. What others send in
    between is as if sent before it: the beginning looks at the session
    only.) *)
Definition poll (p : Poll) (rt : Runtime) : Runtime :=
  match rt_result rt with
  | Some _ => rt
  | None =>
      let rt := begin p rt in
      match rt_result rt with Some _ => rt | None => turn p rt end
  end.

(** The capacity above which [mpsc::channel] panics
    ([Semaphore::MAX_PERMITS]). *)
Definition MAX_PERMITS : Z := 2 ^ 61 - 1.

(** [spawn_tokio_with_clock]: any session, given whether the caller is on a
    Tokio runtime ([Handle::try_current]). On failure the session is
    dropped. *)
Definition spawn (tokio : bool) (capacity : Z) (sw : ClientNodeSession * World K) : Res RuntimeError Runtime :=
  if bool_decide (capacity = 0) then Err RtInvalidInput else
  if bool_decide (MAX_PERMITS < capacity) then Panic else
  if negb tokio then Err RtNotConnected else
  Ok (mkRuntime capacity [] false false sw None (mkDiagnostics 0 0 0) None).

(** [JoinHandle::abort], which takes effect between polls. *)
Definition abort (rt : Runtime) : Runtime :=
  match rt_result rt with
  | Some _ => rt
  | None => dropped (rt_sw rt) (Err RtCancelled) rt
  end.
(** [Drop for TokioSessionHandle] *)
Definition drop_handle (rt : Runtime) : Runtime := abort (terminate rt).
End runtime.
Arguments Runtime K : clear implicits.
