(* ===== verification/NodeRuntimeProps.v ===== *)
(** * What the runtime promises

    Any use of a runtime, by senders, the executor and the holder of the
    handle in any order, amounts to a history of its session: the accepted
    commands in order, wakes of the current trigger in between, and, unless
    the handle is dropped or the user's clock panics, a disconnect at the
    end. *)

From S2P Require Import Prelude PodCodec PodTypes PodCompound FrameHeader ClientNode NodeMemory NodeShared NodeActivation NodePort.
From S2P Require Import NodeCycle NodeConfig NodeOutput NodeSession NodeSessionLaws NodeWake NodeHistory NodeRuntime.
#[local] Open Scope Z_scope.

(** What the outside does to a runtime. *)
Inductive Action :=
| ASend (c : SessionCommand)
| ATerminate
| APoll (p : Poll)
| ADropHandle.
Definition action_typed (a : Action) : Prop := match a with ASend c => command_typed c | _ => True end.

(** The commands and the wake outcomes of a history. *)
Definition command_of (c : Call) : option SessionCommand :=
  match c with CallApply _ c => Some c | _ => None end.
Definition commands_of (calls : list Call) : list SessionCommand := omap command_of calls.
Definition count (d : RuntimeDiagnostics) (r : Res SessionError (ApplyOutcome + WakeOutcome)) : RuntimeDiagnostics :=
  match r with Ok (inr o) => record_outcome d o | _ => d end.

(** What the outside may do: commands are typed, and a clock panics at the
    claim only if [clock]. *)
Definition action_ok (clock : Prop) (a : Action) : Prop :=
  match a with
  | ASend c => command_typed c
  | APoll p => p_awake p = None → clock
  | _ => True
  end.

Section runtime_view.
Context {K : Type} `{EventSys K, OutputProcess K}.
Implicit Types (rt : Runtime K) (sw : ClientNodeSession * World K) (s : ClientNodeSession).

(** One action, and the command it had accepted. *)
Definition act (a : Action) (rt : Runtime K) : Runtime K * list SessionCommand :=
  match a with
  | ASend c => match try_send c rt with (rt, Ok _) => (rt, [c]) | (rt, _) => (rt, []) end
  | ATerminate => (terminate rt, [])
  | APoll p => (poll p rt, [])
  | ADropHandle => (drop_handle rt, [])
  end.
Fixpoint use (l : list Action) (rt : Runtime K) : Runtime K * list SessionCommand :=
  match l with
  | [] => (rt, [])
  | a :: l => let '(rt, c) := act a rt in let '(rt, cs) := use l rt in (rt, c ++ cs)
  end.

(** ** The abstract view *)

(** The calls that brought the session from where it was spawned to where it
    is, with what they counted. *)
Record traced sw0 (calls : list Call) (d : RuntimeDiagnostics) sw : Prop := {
  tr_typed : Forall call_typed calls;
  tr_at : (history calls sw0).1 = sw;
  tr_counts : foldl count (mkDiagnostics 0 0 0) (history calls sw0).2 = d;
  tr_fresh : stale_wakes d = 0;
}.

(** The trigger a session wants watched. *)
Definition wanted s : option Z := if bool_decide (state s = Running) then tg_id <$> transport s else None.

(** While the task runs, the commands taken from the queue are the calls of
    the history and the rest still queue; once it has ended, a disconnect
    followed and nothing is held. Dropping the handle, or a clock that panics
    when the trigger fires, only releases the transport. *)
Inductive follows sw0 (clock : Prop) (sent : list SessionCommand) rt : Prop :=
| follows_running calls taken :
    rt_result rt = None → traced sw0 calls (rt_counters rt) (rt_sw rt) →
    commands_of calls = taken → sent = taken ++ rt_queue rt →
    len (rt_queue rt) ≤ rt_capacity rt →
    (rt_started rt = false ∨ state (rt_session rt) = DisconnectedState → calls = []) →
    rt_registration rt = (if rt_started rt then wanted (rt_session rt) else None) →
    follows sw0 clock sent rt
| follows_ended calls taken dropped r :
    rt_result rt = Some r → total r → traced sw0 calls (rt_counters rt) (rt_sw rt) →
    commands_of calls = taken ++ [Disconnect] → sent = taken ++ dropped →
    state (rt_session rt) = DisconnectedState → released (rt_session rt) → follows sw0 clock sent rt
| follows_dropped calls taken sw r :
    rt_result rt = Some r → r = Err RtCancelled ∨ (r = Panic ∧ clock) → traced sw0 calls (rt_counters rt) sw →
    commands_of calls = taken → taken `prefix_of` sent →
    rt_sw rt = (assign_transport None sw).1 → follows sw0 clock sent rt.

(** ** Histories grow at their end *)
Lemma history_snoc calls c sw :
  history (K:=K) (calls ++ [c]) sw =
  let '(sw1, rs) := history calls sw in let '(sw2, r) := call c sw1 in (sw2, rs ++ [r]).
Proof.
  revert sw. induction calls as [|x calls IH]; intros sw; simpl; [by destruct (call c sw)|].
  destruct (call x sw) as [sw1 r1]. rewrite IH. destruct (history calls sw1) as [sw2 rs].
  by destruct (call c sw2).
Qed.

End runtime_view.

Section runtime_laws.
Context {K : Type} `{EventSys K, OutputProcess K} (sw0 : ClientNodeSession * World K) (clock : Prop).
Context (Hsw0 : session_inv sw0.1).
Implicit Types (rt : Runtime K) (sw : ClientNodeSession * World K) (s : ClientNodeSession).

Lemma traced_inv calls d sw : traced sw0 calls d sw → session_inv sw.1.
Proof.
  intros [Ht <- _ _]. pose proof (history_keeps calls sw0.1 sw0.2 Hsw0 Ht) as Hk.
  destruct sw0 as [s0 w0]. destruct (history _ _) as [[s w'] rs]. by destruct Hk.
Qed.

Lemma traced_call calls d sw c :
  traced sw0 calls d sw → call_typed c →
  let '(sw', r) := call c sw in
  total r ∧ (stale_wakes (count d r) = 0 → traced sw0 (calls ++ [c]) (count d r) sw').
Proof.
  intros Ht Hc. pose proof (traced_inv _ _ _ Ht) as Hi. destruct sw as [s w1].
  pose proof (call_keeps c s w1 Hi Hc) as Hk. destruct (call c (s, w1)) as [[s' w'] r] eqn:Ec.
  destruct Hk as (_ & _ & Hr). split; [done|]. destruct Ht as [Hcs Hat Hd _]. intros Hf.
  split; [by apply Forall_app; split; [|constructor]|..|done]; rewrite history_snoc;
    destruct (history calls _) as [[s1 w1'] rs]; simpl in *; rewrite Hat, Ec; simpl; [done|].
  by rewrite foldl_app, Hd.
Qed.

(** What [apply] and a wake do to the trace. *)
Lemma traced_apply calls d sw kernel c :
  traced sw0 calls d sw → command_typed c →
  let '(sw', r) := apply kernel c sw in total r ∧ traced sw0 (calls ++ [CallApply kernel c]) d sw'.
Proof.
  intros Ht Hc. pose proof (traced_call calls d sw (CallApply kernel c) Ht Hc) as Hk. simpl in Hk.
  unfold mbind, sm_bind in Hk. pose proof (tr_fresh _ _ _ _ Ht).
  destruct (apply kernel c sw) as [sw' [o|e|]], Hk as [Hr Hk]; (split; [done|by apply Hk]).
Qed.

Lemma commands_of_snoc calls c : commands_of (calls ++ [c]) = commands_of calls ++ option_list (command_of c).
Proof. unfold commands_of. rewrite omap_app. simpl. by destruct (command_of c). Qed.
Lemma wake_fresh mem s g awake finish r s' mem' l :
  wake_spec (K:=K) (λ _ _, False) mem s g awake finish r s' mem' l → tg_id <$> transport s = Some g →
  (∀ a b, r ≠ Ok (Stale a b)) ∧ state s' ≠ DisconnectedState ∨ state s = DisconnectedState.
Proof.
  intros Hw Hg. destruct (decide (state s = DisconnectedState)) as [|Hd]; [by right|left].
  split; [|by apply wake_spec_keeps in Hw as [_ [->| ->]]].
  destruct Hw as [| |? ? ? ? [->|[? ->]]| |? ? ? ? ? ? ? ? ? ? _ _ _ _ _ Hf]; try done.
  - intros a b. simplify_option_eq.
  - by destruct Hf.
Qed.

Lemma traced_wake calls d sw g awake finish :
  traced sw0 calls d sw → wanted sw.1 = Some g →
  let '(sw', r) := on_wake_with_finish g awake finish sw in
  total r ∧ state sw'.1 ≠ DisconnectedState ∧
  traced sw0 (calls ++ [CallWake g awake finish]) (match r with Ok o => record_outcome d o | _ => d end) sw'.
Proof.
  intros Ht Hg. pose proof (traced_inv _ _ _ Ht) as Hi. destruct sw as [s w1].
  pose proof (traced_call calls d (s, w1) (CallWake g awake finish) Ht I) as Hk. simpl in Hk, Hg.
  pose proof (osteps_any s _ _ w1 (λ mem, osteps_on_wake (λ _ _, False) mem s g awake finish Hi)) as Hw.
  unfold wanted in Hg. case_bool_decide as Hrun; [|done]. unfold mbind, sm_bind in Hk.
  destruct (on_wake_with_finish _ _ _ _) as [[s' w'] r]. destruct Hw as (_ & mem & l & _ & Hs).
  destruct (wake_fresh _ _ _ _ _ _ _ _ _ Hs Hg) as [[Hst Hns]|Hd]; [|by rewrite Hrun in Hd].
  apply wake_spec_keeps in Hs as [Hr _]. split; [done|]. split; [done|].
  pose proof (tr_fresh _ _ _ _ Ht) as Hf.
  destruct r as [[]|e|]; simpl in *; destruct Hk as [_ Hk]; apply Hk; try done. exfalso. by eapply Hst.
Qed.

Lemma use_app l1 l2 rt :
  use (l1 ++ l2) rt = let '(rt1, c1) := use l1 rt in let '(rt2, c2) := use l2 rt1 in (rt2, c1 ++ c2).
Proof.
  revert rt. induction l1 as [|a l1 IH]; intros rt; simpl; [by destruct (use l2 rt)|].
  destruct (act a rt) as [rt1 c]. rewrite IH. destruct (use l1 rt1) as [rt2 c1].
  destruct (use l2 rt2) as [rt3 c2]. by rewrite (assoc_L (++)).
Qed.

(** ** The task's turns *)
Lemma traced_disconnect calls d sw kernel :
  traced sw0 calls d sw →
  let '(sw', r) := apply kernel Disconnect sw in
  traced sw0 (calls ++ [CallApply kernel Disconnect]) d sw' ∧ (∃ o, r = Ok o) ∧
  state sw'.1 = DisconnectedState ∧ released sw'.1.
Proof.
  intros Ht. pose proof (traced_apply calls d sw kernel Disconnect Ht I) as Ha.
  pose proof (traced_inv _ _ _ Ht) as Hi. destruct sw as [s w1]. simpl in Hi.
  destruct (decide (state s = DisconnectedState)) as [Hd|Hd].
  - pose proof (released_refuses s w1 [CallApply kernel Disconnect] (si_released s Hi Hd) Hd) as Hr. simpl in Hr.
    unfold mbind, sm_bind in Hr. destruct (apply kernel Disconnect (s, w1)) as [sw' r]. destruct Ha as [_ Ha].
    destruct r; simpl in Hr; simplify_eq. split_and!; try done; [by eexists|by apply si_released].
  - pose proof (disconnects kernel Disconnect s w1 (or_introl eq_refl) Hi Hd) as Hr.
    destruct (apply kernel Disconnect (s, w1)) as [[s' w'] r]. destruct Ha as [_ Ha], Hr as (-> & ? & ?).
    by split_and!; [|eexists|..].
Qed.

Notation follows := (follows sw0 clock).

Lemma follows_finish sent rt kernel result calls dropped :
  traced sw0 calls (rt_counters rt) (rt_sw rt) → sent = commands_of calls ++ dropped → total result →
  follows sent (finish kernel result rt).
Proof.
  intros Ht Hs Hr. unfold finish. pose proof (traced_disconnect _ _ _ kernel Ht) as Hd.
  destruct (apply kernel Disconnect (rt_sw rt)) as [sw r]. destruct Hd as (Ht' & [o ->] & Hd & Hrel).
  eapply (follows_ended _ _ _ _ _ (commands_of calls) dropped); [done| |exact Ht'| |done..].
  - by destruct result.
  - by rewrite commands_of_snoc.
Qed.

Lemma wanted_desired register s :
  desired_registration register s = Ok (wanted s) ∨
  desired_registration register s = Err RtRegister ∧ register = false ∧ state s = Running.
Proof.
  unfold desired_registration, wanted. destruct (decide (state s = Running)).
  - rewrite bool_decide_eq_false_2, bool_decide_eq_true_2 by tauto. destruct (transport s); [|by left].
    destruct register; eauto.
  - rewrite bool_decide_eq_true_2, bool_decide_eq_false_2 by tauto. by left.
Qed.

Lemma follows_reregister sent rt register kernel calls :
  rt_result rt = None → rt_started rt = true → traced sw0 calls (rt_counters rt) (rt_sw rt) →
  sent = commands_of calls ++ rt_queue rt → len (rt_queue rt) ≤ rt_capacity rt →
  (state (rt_session rt) = DisconnectedState → calls = []) →
  follows sent (reregister register kernel rt).
Proof.
  intros Hr Hst. intros. unfold reregister. destruct (wanted_desired register (rt_session rt)) as [->|[-> _]].
  - eapply follows_running; try done; simpl; rewrite Hst; [by intros [|]; auto|done].
  - by eapply follows_finish.
Qed.

Lemma follows_command sent rt p c calls :
  rt_result rt = None → rt_started rt = true → traced sw0 calls (rt_counters rt) (rt_sw rt) → command_typed c →
  sent = commands_of calls ++ c :: rt_queue rt → len (rt_queue rt) ≤ rt_capacity rt →
  follows sent (on_command p c rt).
Proof.
  intros Hr Hst Ht Hc Hs Hl. unfold on_command. pose proof (traced_apply _ _ _ (p_kernel p) c Ht Hc) as Ha.
  destruct (apply (p_kernel p) c (rt_sw rt)) as [sw r]. destruct Ha as [Hto Ht'].
  assert (sent = commands_of (calls ++ [CallApply (p_kernel p) c]) ++ rt_queue rt) as Hs'
    by (rewrite Hs, commands_of_snoc; by rewrite <-(assoc_L (++))).
  destruct r as [o|e|]; [|by eapply follows_finish|done]. case_bool_decide.
  - by eapply follows_finish.
  - by eapply follows_reregister.
Qed.

Lemma follows_trigger sent rt p g calls :
  rt_result rt = None → rt_started rt = true → traced sw0 calls (rt_counters rt) (rt_sw rt) →
  wanted (rt_session rt) = Some g → sent = commands_of calls ++ rt_queue rt → len (rt_queue rt) ≤ rt_capacity rt →
  (p_awake p = None → clock) → follows sent (on_trigger p g rt).
Proof.
  intros Hr Hst Ht Hg Hs Hl Hclock. unfold on_trigger. destruct (p_awake p) as [awake|].
  2: { eapply follows_dropped; [done|right; by split; [|apply Hclock]|exact Ht|done| |done].
       rewrite Hs. by apply prefix_app_r. }
  pose proof (traced_wake _ _ _ _ awake (p_finish p) Ht Hg) as Ha.
  destruct (on_wake_with_finish _ _ _ _) as [sw r]. destruct Ha as (Hto & Hd & Ht').
  assert (sent = commands_of (calls ++ [CallWake g awake (p_finish p)]) ++ rt_queue rt) as Hs'
    by (rewrite Hs, commands_of_snoc; simpl; by rewrite (right_id_L [] (++))).
  destruct r as [o|e|]; [by eapply follows_reregister|by eapply follows_finish|done].
Qed.

Lemma follows_turn sent rt p :
  Forall command_typed sent → (p_awake p = None → clock) → rt_result rt = None → rt_started rt = true →
  follows sent rt → follows sent (turn p rt).
Proof.
  intros Hty Hclock Er Est Hf. unfold turn.
  destruct Hf as [calls taken _ Ht <- Hs Hl Hd Hreg|? ? ? ? ?|? ? ? ? ?]; [|congruence..].
  destruct (rt_stop rt); [by eapply follows_finish|]. rewrite Est in Hreg.
  destruct (rt_queue rt) as [|c q] eqn:Eq.
  - rewrite Hreg. destruct (wanted (rt_session rt)) as [g|] eqn:Hg; [|].
    + destruct (p_ready p) as [[]|]; [eapply follows_trigger; rewrite ?Eq; done|by eapply follows_finish|].
      eapply follows_running; rewrite ?Eq, ?Hreg, ?Est in *; done.
    + eapply follows_running; rewrite ?Eq, ?Hreg, ?Est in *; done.
  - rewrite Hs, Forall_app, Forall_cons in Hty. destruct Hty as (_ & Hc & _).
    eapply follows_command; [done..|]. unfold len in *. simpl in *. lia.
Qed.

(** The beginning changes the registration, or ends the task. *)
Lemma begin_cases p rt :
  rt_result rt = None →
  (rt_result (begin p rt) = None ∧ rt_started (begin p rt) = true ∧ rt_sw (begin p rt) = rt_sw rt ∧
   rt_queue (begin p rt) = rt_queue rt ∧ rt_stop (begin p rt) = rt_stop rt) ∨
  (begin p rt = finish (p_kernel p) (Err RtRegister) (with_started rt) ∧ rt_started rt = false ∧
   p_first p = false ∧ state (rt_session rt) = Running).
Proof.
  intros Hr. unfold begin. destruct (rt_started rt) eqn:Hst; [by left|]. unfold reregister.
  change (rt_session (with_started rt)) with (rt_session rt).
  destruct (wanted_desired (p_first p) (rt_session rt)) as [->|(-> & ? & ?)]; [by left|by right].
Qed.

Lemma follows_begin sent rt p : rt_result rt = None → follows sent rt → follows sent (begin p rt).
Proof.
  intros Er Hf. unfold begin. destruct (rt_started rt) eqn:Hst; [done|].
  destruct Hf as [calls taken _ Ht <- Hs Hl Hd Hreg|? ? ? ? ?|? ? ? ? ?]; [|congruence..].
  eapply follows_reregister; [done..|]. auto.
Qed.

Lemma follows_poll sent rt p :
  Forall command_typed sent → (p_awake p = None → clock) → follows sent rt → follows sent (poll p rt).
Proof.
  intros Hty Hclock Hf. unfold poll. destruct (rt_result rt) eqn:Er; [done|].
  pose proof (follows_begin sent rt p Er Hf) as Hb.
  destruct (begin_cases p rt Er) as [(Hn & Hst & _)|(He & _)].
  - rewrite Hn. by apply follows_turn.
  - destruct (rt_result (begin p rt)) eqn:Hn; [done|]. exfalso. rewrite He in Hn. unfold finish in Hn.
    by destruct (apply _ _ _).
Qed.

Lemma follows_send sent rt c :
  follows sent rt →
  match try_send c rt with (rt, Ok _) => follows (sent ++ [c]) rt | (rt, _) => follows sent rt end.
Proof.
  intros Hf. unfold try_send. destruct (rt_result rt) eqn:Er; [done|].
  destruct Hf as [calls taken _ Ht Hc Hs Hl Hd Hreg|? ? ? ? ?|? ? ? ? ?]; [|congruence..]. case_bool_decide.
  - by eapply follows_running.
  - eapply follows_running; [done|exact Ht|exact Hc|..|done|done]; simpl.
    + by rewrite Hs, <-(assoc_L (++)).
    + unfold len in *. rewrite length_app. simpl. lia.
Qed.

Lemma follows_stop sent rt : follows sent rt → follows sent (terminate rt).
Proof.
  intros [calls taken Hr Ht Hc Hs Hl Hd Hreg|calls taken dropped r Hr|calls taken sw r Hr];
    [by eapply follows_running|by eapply follows_ended|by eapply follows_dropped].
Qed.

Lemma follows_abort sent rt : follows sent rt → follows sent (abort rt).
Proof.
  intros Hf. unfold abort. destruct (rt_result rt) eqn:Er; [done|].
  destruct Hf as [calls taken _ Ht Hc Hs Hl Hd Hreg|? ? ? ? ?|? ? ? ? ?]; [|congruence..].
  eapply follows_dropped; [done|by left|exact Ht|exact Hc| |done]. rewrite Hs. by apply prefix_app_r.
Qed.

Lemma follows_act sent rt a :
  action_ok clock a → Forall command_typed sent → follows sent rt →
  let '(rt', c) := act a rt in follows (sent ++ c) rt' ∧ Forall command_typed (sent ++ c).
Proof.
  intros Ha Hs Hf. destruct a as [c| |p|]; simpl.
  - pose proof (follows_send sent rt c Hf) as Hc.
    destruct (try_send c rt) as [rt' [[]|e|]]; rewrite ?(right_id_L [] (++)); split; try done.
    apply Forall_app. by split; [|constructor].
  - rewrite (right_id_L [] (++)). split; [by apply follows_stop|done].
  - rewrite (right_id_L [] (++)). split; [by apply follows_poll|done].
  - rewrite (right_id_L [] (++)). split; [by apply follows_abort, follows_stop|done].
Qed.

Lemma follows_use l sent rt :
  Forall (action_ok clock) l → Forall command_typed sent → follows sent rt →
  let '(rt', cs) := use l rt in follows (sent ++ cs) rt'.
Proof.
  intros Hl. revert sent rt. induction Hl as [|a l Ha _ IH]; intros sent rt Hs Hf; simpl.
  { by rewrite (right_id_L [] (++)). }
  pose proof (follows_act sent rt a Ha Hs Hf) as Hc. destruct (act a rt) as [rt1 c]. destruct Hc as [Hc Hs'].
  specialize (IH _ _ Hs' Hc). destruct (use l rt1) as [rt2 cs]. by rewrite (assoc_L (++)).
Qed.

Lemma follows_spawn tokio capacity rt : 0 ≤ capacity → spawn tokio capacity sw0 = Ok rt → follows [] rt.
Proof.
  unfold spawn. case_bool_decide; [done|]. case_bool_decide; [done|]. destruct tokio; [|done]. intros Hc [= <-].
  by apply (follows_running _ _ _ _ [] []).
Qed.

(** A stopped task ends at its next turn, whatever is queued. *)
Lemma poll_stopped sent rt p :
  follows sent rt → rt_result rt = None → rt_stop rt = true →
  is_Some (rt_result (poll p rt)) ∧
  ((state sw0.1 = Running → p_first p = true) →
   rt_result (poll p rt) = Some (Ok tt) ∧ rt_sw (poll p rt) = (apply (p_kernel p) Disconnect (rt_sw rt)).1).
Proof.
  intros [calls taken _ Ht Hc Hs Hl Hd Hreg|? ? ? ? ?|? ? ? ? ?] Hr Hst; [|congruence..].
  unfold poll. rewrite Hr. destruct (begin_cases p rt Hr) as [(Hn & _ & Hsw & _ & Hsb)|(He & Hb & Hf & Hrun)].
  - rewrite Hn. unfold turn. rewrite Hsb, Hst. unfold finish. rewrite Hsw.
    pose proof (traced_disconnect _ _ _ (p_kernel p) Ht) as Ha.
    destruct (apply _ Disconnect _) as [sw r]. destruct Ha as (_ & [o ->] & _). split; [by eexists|done].
  - rewrite He. unfold finish. destruct (apply _ _ _) as [sw r]. simpl. split; [by eexists|].
    intros H1. assert (calls = []) as -> by auto. destruct Ht as [_ Hat _ _]. unfold rt_session in Hrun.
    simpl in Hat. rewrite <- Hat in Hrun. rewrite H1 in Hf by done. done.
Qed.
End runtime_laws.

Section outcomes.
Context {K : Type} `{EventSys K, OutputProcess K}.
Implicit Types (rt : Runtime K) (sw : ClientNodeSession * World K).

(** The clock panicked when a trigger fired. *)
Definition clock_panicked (l : list Action) : Prop := ∃ p, APoll p ∈ l ∧ p_awake p = None.

Lemma actions_ok (clock : Prop) l :
  Forall action_typed l → (clock_panicked l → clock) → Forall (action_ok clock) l.
Proof.
  intros Hl Hc. rewrite Forall_forall in Hl |- *. intros a Ha. specialize (Hl a Ha).
  destruct a as [c| |p|]; try done. intros Hp. apply Hc. by exists p.
Qed.

Lemma follows_from_spawn (clock : Prop) tokio capacity sw rt l :
  session_inv sw.1 → 0 ≤ capacity → spawn tokio capacity sw = Ok rt → Forall action_typed l →
  (clock_panicked l → clock) →
  let '(rt', sent) := use l rt in follows sw clock sent rt'.
Proof.
  intros Hi Hc Hs Hl Hp. apply (follows_use sw clock Hi l [] rt); [by apply actions_ok|done|].
  by eapply follows_spawn.
Qed.

Lemma finish_queue kernel r rt : rt_queue (finish kernel r rt) = [].
Proof. unfold finish. by destruct (apply _ _ _). Qed.
Lemma reregister_queue b k rt : rt_queue (reregister b k rt) = rt_queue rt ∨ rt_queue (reregister b k rt) = [].
Proof. unfold reregister. destruct (desired_registration _ _); [by left|right..]; [apply finish_queue|done]. Qed.
Lemma command_queue p c rt : rt_queue (on_command p c rt) = rt_queue rt ∨ rt_queue (on_command p c rt) = [].
Proof.
  unfold on_command. destruct (apply _ c _) as [sw [o|e|]]; [case_bool_decide| |by right].
  - right. apply finish_queue.
  - apply (reregister_queue _ _ (with_sw sw rt)).
  - right. apply finish_queue.
Qed.
Lemma trigger_queue p g rt : rt_queue rt = [] → rt_queue (on_trigger p g rt) = [].
Proof.
  intros Hq. unfold on_trigger. destruct (p_awake p); [|done].
  destruct (on_wake_with_finish _ _ _ _) as [sw [o|e|]]; [..|done].
  - by destruct (reregister_queue (p_register p) (p_kernel p)
      (with_counters (record_outcome (rt_counters rt) o) (with_sw sw rt))) as [->|].
  - apply finish_queue.
Qed.
Lemma turn_queue p rt : rt_queue (turn p rt) = tail (rt_queue rt) ∨ rt_queue (turn p rt) = [].
Proof.
  unfold turn. destruct (rt_stop rt); [right; apply finish_queue|].
  destruct (rt_queue rt) as [|c q] eqn:Eq.
  - right. destruct (rt_registration rt) as [g|]; [|done]. destruct (p_ready p) as [[]|]; [|apply finish_queue|done].
    by apply trigger_queue.
  - apply (command_queue p c (with_queue q rt)).
Qed.

(** A turn takes the head of the queue, or the task is at its end. *)
Lemma poll_queue p rt :
  rt_result rt = None → rt_queue (poll p rt) = tail (rt_queue rt) ∨ rt_queue (poll p rt) = [].
Proof.
  intros Hr. unfold poll. rewrite Hr. destruct (begin_cases p rt Hr) as [(-> & _ & _ & <- & _)|(-> & _)].
  - apply turn_queue.
  - right. unfold finish. by destruct (apply _ _ _).
Qed.

Definition polls (ps : list Poll) rt : Runtime K := foldl (λ rt p, poll p rt) rt ps.
Lemma polls_use ps rt : use (APoll <$> ps) rt = (polls ps rt, []).
Proof.
  unfold polls. revert rt. induction ps as [|p ps IH]; intros rt; simpl; [done|]. by rewrite IH.
Qed.
Lemma polls_ended ps rt r : rt_result rt = Some r → polls ps rt = rt.
Proof.
  intros Hr. unfold polls. induction ps as [|p ps IH]; simpl; [done|].
  unfold poll at 2. by rewrite Hr.
Qed.

Lemma polls_queue ps rt :
  (length (rt_queue rt) ≤ length ps)%nat → rt_queue (polls ps rt) = [] ∨ is_Some (rt_result (polls ps rt)).
Proof.
  revert rt. induction ps as [|p ps IH]; intros rt Hl; simpl in Hl.
  { left. apply nil_length_inv. simpl. lia. }
  destruct (rt_result rt) eqn:Er; [right; by rewrite (polls_ended _ _ _ Er), Er|].
  apply (IH (poll p rt)). destruct (poll_queue p rt Er) as [->| ->]; [|simpl; lia].
  destruct (rt_queue rt); simpl in *; lia.
Qed.
End outcomes.

(** ** Properties *)


(** Nothing accepted is forgotten. Once as many turns have run as
    commands are queued, with none sent since, either the task has ended or
    the session has received every command ever accepted. *)
Lemma runtime_drains {K} `{EventSys K, OutputProcess K} (tokio : bool) (capacity : Z) (sw : ClientNodeSession * World K)
    (rt : Runtime K) (l : list Action) (ps : list Poll) :
  session_inv sw.1 → 0 ≤ capacity → spawn tokio capacity sw = Ok rt → Forall action_typed l →
  let '(rt', sent) := use l rt in
  (length (rt_queue rt') ≤ length ps)%nat →
  is_Some (rt_result (polls ps rt')) ∨
  ∃ calls, Forall call_typed calls ∧ commands_of calls = sent ∧ (history calls sw).1 = rt_sw (polls ps rt').
Proof.
  intros Hi Hc Hs Hl. destruct (use l rt) as [rt' sent] eqn:Eu. intros Hps.
  assert (follows sw True sent (polls ps rt')) as Hp.
  { assert (Forall action_typed (l ++ (APoll <$> ps))) as Hl2
      by (apply Forall_app; split; [done|by apply Forall_fmap, Forall_true]).
    pose proof (follows_from_spawn True _ _ _ _ _ Hi Hc Hs Hl2 (λ _, I)) as Hf2.
    by rewrite use_app, Eu, polls_use, (right_id_L [] (++)) in Hf2. }
  destruct (polls_queue ps rt' Hps) as [Hq|]; [|by left].
  destruct Hp as [calls taken Hr [Ht Hat _ _] <- Hsent|? ? ? ? Hr|? ? ? ? Hr]; [|left; by rewrite Hr..].
  right. exists calls. by rewrite Hsent, Hq, (right_id_L [] (++)).
Qed.

(** C34: A full queue is terminal. A command for a full queue is refused and
    not queued; the next turn of the task, whatever else is ready, applies
    none of the queued commands but disconnects the session and ends without
    error (if it is also the first turn and the session was spawned running,
    the registration of its trigger has to succeed); afterwards every send is
    refused as closed. *)
Theorem overflow_terminates {K} `{EventSys K, OutputProcess K} (tokio : bool) (capacity : Z)
    (sw : ClientNodeSession * World K) (rt : Runtime K) (l : list Action) (c c' : SessionCommand) (p : Poll) :
  session_inv sw.1 → 0 ≤ capacity → spawn tokio capacity sw = Ok rt → Forall action_typed l →
  let '(rt', sent) := use l rt in
  rt_result rt' = None → len (rt_queue rt') = rt_capacity rt' →
  (state sw.1 = Running → p_first p = true) →
  let '(rt1, r) := try_send c rt' in
  let rt2 := poll p rt1 in
  r = Err Full ∧ rt_queue rt1 = rt_queue rt' ∧ rt_result rt2 = Some (Ok tt) ∧
  rt_sw rt2 = (apply (p_kernel p) Disconnect (rt_sw rt')).1 ∧ try_send c' rt2 = (rt2, Err Closed).
Proof.
  intros Hi Hc Hs Hl. pose proof (follows_from_spawn True _ _ _ _ _ Hi Hc Hs Hl (λ _, I)) as Hf.
  destruct (use l rt) as [rt' sent]. intros Hr Hq Hfirst. unfold try_send at 1. rewrite Hr.
  rewrite bool_decide_eq_true_2 by lia. apply follows_stop in Hf.
  destruct (poll_stopped sw True Hi _ _ p Hf Hr eq_refl) as [_ Hp].
  destruct (Hp Hfirst) as [Hr2 Hsw]. unfold terminate in *.
  split_and!; try done. unfold try_send. by rewrite Hr2.
Qed.

(** ** A concrete life: the sample session configured and woken through its
    runtime. *)
Module runtime_sample.
Definition one_turn (ready : bool) : Action :=
  APoll (mkPoll sample.kernel (if ready then Some true else None) (Some 100) (Some 200) true true).
Definition command_sent (c : Call) : list SessionCommand :=
  match c with
  | CallApply _ c => [c]
  | CallEvent _ e => match command_from_wire e with Ok c => [c] | _ => [] end
  | CallWake _ _ _ => []
  end.
Definition sends : list Action := map ASend (flat_map command_sent (sample.configure ++ sample.setup)).
Definition life : list Action := sends ++ replicate 12 (one_turn false) ++ [one_turn true].
(** The server triggers the node once the setup is over. *)
Definition late_world : World unit := mkWorld sample.initial (replicate 15 id ++ replicate 200 sample.server) tt false [].
Definition idle : list Poll := replicate 12 (mkPoll sample.kernel None (Some 0) None true true).
Definition start : ClientNodeSession * World unit := (ClientNodeSession_new, late_world).
Definition rt0 : Runtime unit := mkRuntime 16 [] false false start None (mkDiagnostics 0 0 0) None.
Definition small : Runtime unit := mkRuntime 1 [] false false start None (mkDiagnostics 0 0 0) None.

Lemma sends_typed : Forall action_typed sends.
Proof. vm_compute. repeat constructor; intros H; by inversion H. Qed.
Lemma life_typed : Forall action_typed life.
Proof. apply Forall_app. split; [apply sends_typed|by repeat constructor]. Qed.
End runtime_sample.


(** The same life with a clock that panics when the trigger fires: no
    disconnect, and the transport released. *)
Example clock_panic_ends_task :
  let fires := APoll (mkPoll sample.kernel (Some true) None None true true) in
  let '(rt, _) := use (runtime_sample.sends ++ replicate 12 (runtime_sample.one_turn false) ++ [fires]) runtime_sample.rt0 in
  rt_result rt = Some Panic ∧ state (rt_session rt) = Running ∧ transport (rt_session rt) = None.
Proof. vm_compute. repeat split. Qed.

Lemma runtime_drains_witness :
  let '(rt, sent) := use runtime_sample.sends runtime_sample.rt0 in
  length (rt_queue rt) = 12%nat ∧ rt_result (polls runtime_sample.idle rt) = None ∧
  ∃ calls, commands_of calls = sent ∧
    (history calls runtime_sample.start).1 = rt_sw (polls runtime_sample.idle rt).
Proof.
  pose proof (runtime_drains true 16 runtime_sample.start runtime_sample.rt0 runtime_sample.sends
    runtime_sample.idle session_new_inv ltac:(lia) eq_refl runtime_sample.sends_typed) as Hf.
  assert (let '(rt, sent) := use runtime_sample.sends runtime_sample.rt0 in
    (length (rt_queue rt), rt_result (polls runtime_sample.idle rt)) = (12%nat, None)) as Hc by by vm_compute.
  destruct (use runtime_sample.sends runtime_sample.rt0) as [rt sent].
  assert (length runtime_sample.idle = 12%nat) as Hi by reflexivity.
  generalize dependent runtime_sample.idle. intros idle Hf Hc Hi. injection Hc as Hl Hr.
  split; [exact Hl|]. split; [exact Hr|].
  destruct Hf as [[? Hr']|(calls & _ & ? & ?)]; [lia|congruence|by eauto].
Defined.

Lemma overflow_terminates_witness :
  let '(rt, _) := use [ASend (SetActive true)] runtime_sample.small in
  let '(rt1, r) := try_send (SetActive false) rt in
  r = Err Full ∧ rt_result (poll (mkPoll sample.kernel None (Some 0) None true true) rt1) = Some (Ok tt).
Proof.
  pose proof (overflow_terminates true 1 runtime_sample.start runtime_sample.small [ASend (SetActive true)]
    (SetActive false) Disconnect (mkPoll sample.kernel None (Some 0) None true true) session_new_inv
    ltac:(lia) eq_refl) as Hf.
  specialize (Hf ltac:(by repeat constructor)).
  destruct (use [ASend (SetActive true)] runtime_sample.small) as [rt sent] eqn:Eu.
  assert (rt = (use [ASend (SetActive true)] runtime_sample.small).1) as Hrt by by rewrite Eu.
  specialize (Hf ltac:(by rewrite Hrt) ltac:(by rewrite Hrt) ltac:(done)).
  destruct (try_send (SetActive false) rt) as [rt1 r]. by destruct Hf as (? & _ & ? & _).
Defined.
