(* ===== verification/NodeWakeProps.v ===== *)
(** * Properties of process cycles

    The order of a wake's actions, where it writes, what a published cycle
    leaves in shared memory, how peers are triggered, and what becomes of a
    session whose memory goes away. *)

From S2P Require Import Prelude FrameHeader ClientNode NodeMemory NodeShared NodeActivation NodePort.
From S2P Require Import NodeCycle NodeConfig NodeOutput NodeSession NodeSessionLaws NodeWake NodeHistory.
#[local] Open Scope Z_scope.

(** ** Activations that can be reached *)

(** The record in [m] is the session's alone, can be viewed, and holds
    status [st]. *)
Record activation_at (P : Own) (mem : Mem) (m : MemoryMapping) (st : ActivationStatus) : Prop := {
  aa_owned : owned P (record_of m);
  aa_null : p_addr (record_of m) ≠ 0;
  aa_size : abi.SIZE ≤ mapping_len m;
  aa_align : p_addr (record_of m) mod abi.ALIGN = 0;
  aa_version : field mem (record_of m) abi.SERVER_VERSION 4 = ACTIVATION_VERSION;
  aa_status : field mem (record_of m) abi.STATUS 4 = status_value st;
}.

Lemma activation_viewable P mem m st : activation_at P mem m st → ¬ unviewable P mem m.
Proof. intros [] Hn. by apply Hn. Qed.

(** ** The order of a wake *)
Definition quiet_event (e : Event) : Prop :=
  match e with EvStore _ _ _ _ => True | EvSignal _ _ => True | _ => False end.

Inductive wake_trace (s : ClientNodeSession) (generation awake : Z) : list Event → Prop :=
| trace_nothing : wake_trace s generation awake []
| trace_drained t n l :
    transport s = Some t → generation = tg_id t → Forall silent l →
    wake_trace s generation awake (EvDrain (tg_trigger t) n :: l)
| trace_cycle t n called wrote status fin rest :
    transport s = Some t → generation = tg_id t → state s = Running →
    called = [] ∨ (∃ i obj o len, called = [EvCallback i; EvMedia obj o len]) → Forall silent wrote →
    Forall silent rest ∨ (status ≠ - EIO ∧
      ∃ rest', rest = wrote_status (record_of (tg_activation t)) Finished :: rest' ∧ Forall quiet_event rest') →
    wake_trace s generation awake
      (EvDrain (tg_trigger t) n :: wrote_awake (record_of (tg_activation t)) awake ++ called ++ wrote ++
       wrote_result (record_of (tg_activation t)) status fin ++ rest).

Lemma silent_quiet l : Forall silent l → Forall quiet_event l.
Proof. intros Hl. eapply Forall_impl; [done|]. by intros []. Qed.

Lemma deactivated_silent P mem m mem' l : deactivated P mem m mem' l → Forall silent l.
Proof. destruct 1; by repeat constructor. Qed.
Lemma abort_silent P mem g mem' l : abort_spec P mem g mem' l → Forall silent l.
Proof. destruct 1; by repeat constructor. Qed.
Lemma trigger_silent P mem p now r mem' l : trigger_spec P mem p now r mem' l → Forall silent l.
Proof. destruct 1; by repeat constructor. Qed.
Lemma peer_quiet P mem p now r mem' l : peer_spec P mem p now r mem' l → Forall quiet_event l.
Proof.
  destruct 1 as [|e mem' l _ Ht|n mem' l _ Ht|mem' l _ Ht|e mem' l _ Ht]; [constructor|..];
    apply trigger_silent, silent_quiet in Ht; try done.
  apply Forall_app. split; [done|by repeat constructor].
Qed.
Lemma peers_quiet P now ps first mem out mem' l :
  peers_spec P now ps first mem out mem' l → Forall quiet_event l.
Proof.
  induction 1 as [|? ? ? ? ? ? ? ? ? ? ? Hp _ IH]; [constructor|].
  apply peer_quiet in Hp. by apply Forall_app.
Qed.

(** The part of a cycle the output does. *)
Lemma process_shape {K} `{OutputProcess K} P mem g r mem' l :
  process_spec (K:=K) P mem g r mem' l →
  ∃ called wrote, l = called ++ wrote ∧
    (called = [] ∨ ∃ i obj o len, called = [EvCallback i; EvMedia obj o len]) ∧ Forall silent wrote.
Proof.
  destruct 1 as [e ? ?|?|i bb b media c|i bb b media r r' st].
  1, 2: exists [], []; by auto.
  all: eexists (ran_callback i b), _; split; [done|]; split; [right; by eauto 10|by repeat constructor].
Qed.

(** A result other than success leaves no peer signalled. *)
Lemma finish_rest P mem s t g n c r s' mem' l :
  finish_spec P mem s t g n c r s' mem' l →
  Forall silent l ∨ (∃ published fin, c = Ok (Completed (inr published) fin)) ∧ Forall quiet_event l.
Proof.
  destruct 1 as [? ? ? Hd| |published fin ? ? Hp|published fin ? ? ? ? ? Hp Hd|? ? ? ? ? Hd|? ? ? ? ? Ha Hd].
  - left. by eapply deactivated_silent.
  - by left.
  - right. split; [by eauto|]. by eapply peers_quiet.
  - right. split; [by eauto|]. apply Forall_app. split; [by eapply peers_quiet|].
    by eapply silent_quiet, deactivated_silent.
  - left. by eapply deactivated_silent.
  - left. apply Forall_app. split; [by eapply abort_silent|by eapply deactivated_silent].
Qed.

Lemma process_status {K} `{OutputProcess K} P mem g r mem' l v status :
  process_spec (K:=K) P mem g r mem' l → r = Ok (v, status) → status = 0 ∨ status = 2.
Proof.
  destruct 1 as [| | |i bb b media r r' st _ _ _ _ _ Hr]; intros Heq; simplify_eq; auto.
  destruct r; naive_solver.
Qed.

Lemma wake_spec_trace {K} `{EventSys K, OutputProcess K} P mem s generation awake finish r s' mem' l :
  wake_spec (K:=K) P mem s generation awake finish r s' mem' l → wake_trace s generation awake l.
Proof.
  destruct 1 as [| | |t n|t g n c mem1 l1 r s' mem2 l2 Ht Hgen Hrun Hg Hc Hf].
  1-3: by constructor.
  { by apply trace_drained. }
  pose proof (finish_rest _ _ _ _ _ _ _ _ _ _ _ Hf) as Hl2.
  destruct Hc as [e Hu|c Hn Hc|r1 mem1 l1 result status fin v Hv _ Hp Hcl _|r1 mem1 l1 result status fin e v Hv _ Hp Hcl _].
  - simpl. apply trace_drained; [done..|]. by destruct Hl2 as [|((? & ? & ?) & _)].
  - simpl. apply trace_drained; [done..|].
    destruct Hl2 as [?|((? & ? & ->) & _)]; [done|]. by destruct Hc as [?|[? ?]].
  - destruct (process_shape _ _ _ _ _ _ Hp) as (called & wrote & -> & Hcalled & Hwrote).
    rewrite <- !app_assoc. apply trace_cycle; [done..|]. simpl.
    destruct Hl2 as [?|((published & fin' & [= -> ->]) & ?)]; [left; by constructor|].
    right. split; [|by eexists]. unfold clocked in Hcl. destruct finish as [f|]; [|done].
    destruct r1 as [[v1 st1]|e|]; simplify_eq. by destruct (process_status _ _ _ _ _ _ _ _ Hp eq_refl) as [->| ->].
  - destruct (process_shape _ _ _ _ _ _ Hp) as (called & wrote & -> & Hcalled & Hwrote).
    rewrite <- !app_assoc. apply trace_cycle; [done..|].
    destruct Hl2 as [?|((? & ? & ?) & _)]; [by left|done].
Qed.

(** ** Where a wake writes *)
Definition within (ints : list MemoryInterval) : Own := λ b o,
  ∃ i, i ∈ ints ∧ i_backing i = b ∧ start i ≤ o < end_ i.
Definition event_within (ints : list MemoryInterval) (e : Event) : Prop :=
  match e with
  | EvStore b o n _ => ∀ x, o ≤ x < o + Z.of_nat n → within ints b x
  | EvMedia b o n => ∀ x, o ≤ x < o + n → within ints b x
  | _ => True
  end.
(** Between [mem] and [mem'], with visible actions [l], only [ints] change. *)
Definition confined (ints : list MemoryInterval) (mem mem' : Mem) (l : list Event) : Prop :=
  Forall (event_within ints) l ∧ ∀ b o, ¬ within ints b o → mem' b o = mem b o.

Section confined.
Implicit Types (mem : Mem) (ints : list MemoryInterval).

Lemma within_mono ints ints' b o : ints ⊆ ints' → within ints b o → within ints' b o.
Proof. intros Hs (i & ? & ? & ?). exists i. auto. Qed.

Lemma confined_refl ints mem : confined ints mem mem [].
Proof. by split. Qed.
Lemma confined_trans ints mem1 mem2 mem3 l1 l2 :
  confined ints mem1 mem2 l1 → confined ints mem2 mem3 l2 → confined ints mem1 mem3 (l1 ++ l2).
Proof. intros [? H1] [? H2]. split; [by apply Forall_app|]. intros b o Hn. by rewrite H2, H1. Qed.
Lemma confined_mono ints ints' mem mem' l :
  ints ⊆ ints' → confined ints mem mem' l → confined ints' mem mem' l.
Proof.
  intros Hs [Hl Hm]. split; [|intros b o Hn; apply Hm; intros ?; by eapply Hn, within_mono].
  eapply Forall_impl; [done|]. intros [] He; simpl in *; try done; intros; by eapply within_mono, He.
Qed.
Lemma confined_step ints mem1 mem2 mem3 e l :
  confined ints mem1 mem2 [e] → confined ints mem2 mem3 l → confined ints mem1 mem3 (e :: l).
Proof. apply (confined_trans ints mem1 mem2 mem3 [e]). Qed.
Lemma confined_log ints mem mem' l e :
  match e with EvStore _ _ _ _ | EvMedia _ _ _ => False | _ => True end →
  confined ints mem mem' l → confined ints mem mem' (e :: l).
Proof. intros He [? ?]. split; [|done]. constructor; [by destruct e|done]. Qed.

Lemma confined_store ints mem b o n v :
  (∀ x, o ≤ x < o + Z.of_nat n → within ints b x) →
  confined ints mem (mem_store mem b o n v) [EvStore b o n v].
Proof.
  intros Hw. split; [by constructor|]. intros b' o' Hn. apply mem_store_other.
  destruct (decide (b' = b)) as [->|]; [|by left]. right.
  destruct (decide (o' < o)); [by left|]. right. destruct (decide (o + Z.of_nat n ≤ o')); [done|].
  exfalso. apply Hn, Hw. lia.
Qed.

Lemma confined_field (m : MemoryMapping) mem off n v :
  view_ok (record_of m) → (off, n) ∈ fields →
  confined [interval m] mem (set_field mem (record_of m) off n v) [wrote (record_of m) off n v].
Proof.
  intros Hv Hf. apply confined_store. intros x Hx. exists (interval m). split; [set_solver|].
  pose proof (field_ok _ off n Hv Hf) as Ha. apply andb_true_iff in Ha as [Ha _].
  apply bool_decide_eq_true in Ha. simpl in *. split; [done|lia].
Qed.
Lemma confined_word ints mem p off v :
  (∀ x, p_off p + off ≤ x < p_off p + off + 4 → within ints (p_obj p) x) →
  confined ints mem (put_word mem p off v) [wrote_word p off v].
Proof. intros Hw. by apply confined_store. Qed.
End confined.

Ltac in_fields := unfold fields; set_solver.
(** A sequence of field writes. *)
Ltac confine_fields :=
  repeat match goal with
  | |- confined _ _ _ [_] => apply confined_field; [done|in_fields]
  | |- confined _ _ _ (_ :: _) => eapply confined_step
  end.
(** A sequence of word writes to the record in [m]. *)
Ltac confine_words m :=
  unfold wrote_io, wrote_chunk;
  repeat match goal with
  | |- confined _ _ _ [_] =>
      apply confined_word; intros x Hx; exists (interval m); split; [set_solver|];
      unfold interval; simpl in *; unfold port_abi.IO_BUFFER_ID, port_abi.IO_STATUS, port_abi.CHUNK_OFFSET,
        port_abi.CHUNK_DATA_SIZE, port_abi.CHUNK_STRIDE, port_abi.CHUNK_FLAGS in Hx; (split; [done|lia])
  | |- confined _ _ _ (_ :: _) => eapply confined_step
  end.

Section confined_specs.
Implicit Types (mem : Mem) (P : Own).

Lemma confined_deactivated P mem m mem' l : deactivated P mem m mem' l → confined [interval m] mem mem' l.
Proof. destruct 1; [confine_fields|apply confined_refl]. Qed.

Lemma confined_trigger P mem m now r mem' l :
  view_ok (record_of m) → trigger_spec P mem (record_of m) now r mem' l → confined [interval m] mem mem' l.
Proof. intros Hv. destruct 1; [apply confined_refl|confine_fields..]. Qed.

Lemma confined_peer P mem p now r mem' l :
  peer_spec P mem p now r mem' l → confined [peer_interval p] mem mem' l.
Proof.
  destruct 1 as [|e mem' l Hv Ht|n mem' l Hv Ht|mem' l Hv Ht|e mem' l Hv Ht]; [apply confined_refl|..];
    apply confined_trigger in Ht; try done.
  eapply confined_trans; [done|]. apply confined_log; [done|apply confined_refl].
Qed.

Lemma confined_peers P now ps first mem out mem' l :
  peers_spec P now ps first mem out mem' l → confined (peer_interval ∘ snd <$> ps) mem mem' l.
Proof.
  induction 1 as [|node p ps first mem r mem1 l1 out mem2 l2 Hp _ IH]; [apply confined_refl|].
  apply confined_peer in Hp. eapply confined_trans; (eapply confined_mono; [|done]); rewrite fmap_cons; set_solver.
Qed.

Lemma confined_io (g : OutputGeneration) mem s id :
  mapping_len (og_io g) = 8 → confined [interval (og_io g)] mem (put_io mem (io_ptr g) s id) (wrote_io (io_ptr g) s id).
Proof.
  intros Hl. unfold mapping_len in Hl. confine_words (og_io g).
Qed.

Lemma confined_chunk b mem s :
  bound_ok b → confined [interval (bb_metadata b)] mem (put_chunk mem (chunk_ptr b) s) (wrote_chunk (chunk_ptr b) s).
Proof.
  intros [_ _ Hc _]. unfold mapping_len in Hc. confine_words (bb_metadata b).
Qed.

Lemma confined_fill b ob mem i media :
  (∃ st, ob = buffer_at b st) → buffer_ok ob →
  confined [interval (bb_media b)] mem (filled mem ob media) (ran_callback i ob).
Proof.
  intros [st ->] (_ & Ho & _ & _). unfold ran_callback. apply confined_log; [done|].
  assert (∀ x, media_at (buffer_at b st) ≤ x < media_at (buffer_at b st) + ob_capacity (buffer_at b st) →
    within [interval (bb_media b)] (backing (mm_entry (bb_media b))) x) as Hw.
  { intros x Hx. exists (interval (bb_media b)). split; [set_solver|].
    unfold media_at, ob_capacity in Hx. revert Ho Hx. unfold interval. simpl. unfold mapping_len.
    generalize (c_offset st mod m_len (mapped (bb_media b))). intros z Ho Hx.
    split; [done|lia]. }
  split; [by constructor|]. intros b' o' Hn. unfold filled, mem_fill. rewrite bool_decide_eq_false_2; [done|].
  intros [-> Hx]. by apply Hn, Hw.
Qed.

Lemma output_part g b : b ∈ og_buffers g → [interval (bb_metadata b)] ⊆ output_intervals g ∧
  [interval (bb_media b)] ⊆ output_intervals g.
Proof.
  intros Hb. assert (∀ i, i ∈ [interval (bb_metadata b); interval (bb_media b)] → i ∈ output_intervals g) as Hin.
  { intros i Hi. right. apply list_elem_of_In, in_concat. exists [interval (bb_metadata b); interval (bb_media b)].
    rewrite <- !list_elem_of_In. split; [|done]. apply list_elem_of_fmap. by exists b. }
  split; intros i Hi; apply Hin; set_solver.
Qed.

(** One buffer and the IO area written. *)
Lemma confined_hand_over g b mem c s i ob :
  output_ok g → b ∈ og_buffers g → ob_chunk ob = chunk_ptr b →
  confined (output_intervals g) mem (put_io (put_chunk mem (ob_chunk ob) c) (io_ptr g) s i)
    (wrote_chunk (ob_chunk ob) c ++ wrote_io (io_ptr g) s i).
Proof.
  intros [_ Hl Hb _] Hin ->. rewrite Forall_forall in Hb. specialize (Hb b Hin).
  destruct (output_part g b Hin) as [? _]. eapply confined_trans.
  - by eapply confined_mono, confined_chunk.
  - eapply confined_mono; [|by apply confined_io]. unfold output_intervals. set_solver.
Qed.

Lemma confined_process {K} `{OutputProcess K} P mem g r mem' l :
  output_ok g → process_spec (K:=K) P mem g r mem' l → confined (output_intervals g) mem mem' l.
Proof.
  intros Hg. destruct 1 as [| |i bb b media c Hb (st & Hv & Hok & _)|i bb b media r r' s Hb (st & Hv & Hok & _)].
  1, 2: apply confined_refl.
  all: apply list_elem_of_lookup_2 in Hb; eapply confined_trans;
    [eapply confined_mono; [by apply (output_part g bb)|by apply confined_fill; [exists st|]]|].
  all: apply (confined_hand_over g bb); [done..|by rewrite Hv].
Qed.

Lemma confined_abort P mem g mem' l :
  output_ok g → abort_spec P mem g mem' l → confined (output_intervals g) mem mem' l.
Proof.
  intros Hg. destruct 1 as [|i bb b s Hb (st & Hv & _)]; [apply confined_refl|].
  apply (confined_hand_over g bb); [done|by eapply list_elem_of_lookup_2|by rewrite Hv].
Qed.

Definition cycle_intervals (t : TransportGeneration) (g : OutputGeneration) : list MemoryInterval :=
  transport_interval t :: output_intervals g.

Lemma confined_ran {K} `{OutputProcess K} P mem t g awake r mem1 l1 status fin :
  view_ok (record_of (tg_activation t)) → output_ok g →
  let v := record_of (tg_activation t) in
  process_spec (K:=K) P (awake_mem mem v awake) g r mem1 l1 →
  confined (cycle_intervals t g) mem (result_mem mem1 v status fin)
    (wrote_awake v awake ++ l1 ++ wrote_result v status fin).
Proof.
  intros Hv Hg v Hp. eapply confined_trans; [|eapply confined_trans].
  - eapply (confined_mono [transport_interval t]); [unfold cycle_intervals; set_solver|]. unfold wrote_awake. confine_fields.
  - eapply confined_mono; [|by eapply confined_process]. unfold cycle_intervals. set_solver.
  - eapply (confined_mono [transport_interval t]); [unfold cycle_intervals; set_solver|]. unfold wrote_result. confine_fields.
Qed.

Lemma confined_claim {K} `{EventSys K, OutputProcess K} P mem t g awake finish c mem' l :
  output_ok g → claim_spec (K:=K) P mem t g awake finish c mem' l → confined (cycle_intervals t g) mem mem' l.
Proof.
  intros Hg. destruct 1 as [| |r mem1 l1 result status fin v Hv _ Hp _ _|r mem1 l1 result status fin e v Hv _ Hp _ _].
  1, 2: apply confined_refl.
  - pose proof (confined_ran P mem t g awake r mem1 l1 status fin Hv Hg Hp) as Hr.
    rewrite !app_assoc. rewrite !app_assoc in Hr. eapply confined_trans; [exact Hr|].
    eapply (confined_mono [transport_interval t]); [unfold cycle_intervals; set_solver|]. confine_fields.
  - by eapply confined_ran.
Qed.

Lemma confined_finish P mem s t g n c r s' mem' l :
  session_inv s → transport s = Some t → output s = Some g →
  finish_spec P mem s t g n c r s' mem' l → confined (session_intervals s) mem mem' l.
Proof.
  intros Hi Ht Hg.
  assert ([transport_interval t] ⊆ session_intervals s ∧ output_intervals g ⊆ session_intervals s ∧
    (peer_interval ∘ snd <$> in_order (peers s)) ⊆ session_intervals s) as (Hst & Hsg & Hsp).
  { unfold session_intervals, transport_intervals, session_output_intervals. rewrite Ht, Hg. simpl.
    unfold peer_intervals. set_solver. }
  pose proof (si_output s Hi g Hg) as [Hok _].
  assert (∀ mem mem' l, deactivated P mem (tg_activation t) mem' l → confined (session_intervals s) mem mem' l) as Hd
    by (intros; eapply confined_mono; [exact Hst|by apply confined_deactivated with P]).
  destruct 1; try (by apply Hd); [apply confined_refl|..].
  - eapply confined_mono; [exact Hsp|by eapply confined_peers].
  - eapply confined_trans; [|by apply Hd]. eapply confined_mono; [exact Hsp|by eapply confined_peers].
  - eapply confined_trans; [|by apply Hd]. eapply confined_mono; [exact Hsg|by eapply confined_abort].
Qed.
End confined_specs.

Lemma wake_spec_confined {K} `{EventSys K, OutputProcess K} P mem s generation awake finish r s' mem' l :
  session_inv s → wake_spec (K:=K) P mem s generation awake finish r s' mem' l →
  confined (session_intervals s) mem mem' l.
Proof.
  intros Hi. destruct 1 as [| | |t n|t g n c mem1 l1 r s' mem2 l2 Ht Hgen Hrun Hg Hc Hf].
  1-3: apply confined_refl.
  - apply confined_log; [done|apply confined_refl].
  - apply confined_log; [done|]. eapply confined_trans; [|by eapply confined_finish].
    eapply confined_mono; [|eapply confined_claim; [apply (si_output s Hi g Hg)|exact Hc]].
    unfold session_intervals, transport_intervals, session_output_intervals, cycle_intervals. rewrite Ht, Hg. simpl.
    set_solver.
Qed.

(** ** What a published cycle leaves *)

Lemma within_apart i ints b o : disjoint_from i ints → within [i] b o → ¬ within ints b o.
Proof.
  intros Hd (i' & ->%list_elem_of_singleton & <- & ?) (j & Hj & Hb & ?).
  unfold disjoint_from in Hd. rewrite Forall_forall in Hd. specialize (Hd j Hj). unfold overlaps in Hd.
  rewrite !bool_decide_eq_true_2 in Hd by (done || lia). done.
Qed.

Lemma word_same i ints mem mem' l b o n :
  confined ints mem mem' l → disjoint_from i ints → (∀ x, o ≤ x < o + Z.of_nat n → within [i] b x) →
  mem_word mem' b o n = mem_word mem b o n.
Proof. intros [_ Hm] Hd Hw. apply mem_word_ext. intros x Hx. by eapply Hm, within_apart, Hw. Qed.

Lemma field_same m ints mem mem' l off n :
  confined ints mem mem' l → disjoint_from (interval m) ints → view_ok (record_of m) → (off, n) ∈ fields →
  field mem' (record_of m) off n = field mem (record_of m) off n.
Proof.
  intros Hc Hd Hv Hf. eapply word_same; [done..|]. intros x Hx. exists (interval m). split; [set_solver|].
  pose proof (field_ok _ off n Hv Hf) as Ha. apply andb_true_iff in Ha as [Ha _].
  apply bool_decide_eq_true in Ha. simpl in *. split; [done|lia].
Qed.

Lemma word_put_same mem p off v : word (put_word mem p off v) p off = v mod 2 ^ 32.
Proof. apply mem_word_store. Qed.
Lemma word_put_other mem p off v off' :
  off' + 4 ≤ off ∨ off + 4 ≤ off' → word (put_word mem p off v) p off' = word mem p off'.
Proof. intros Ho. apply mem_word_store_other. lia. Qed.

Ltac words := repeat first [rewrite word_put_same | rewrite word_put_other by (vm_compute; auto; intuition congruence)].

Lemma io_of_put mem p s i : u32_range i → io_of (put_io mem p s i) p = mkIoState (buffer_status_value s) i.
Proof.
  intros Hi. unfold io_of, put_io. words. f_equal; [by destruct s|]. apply Z.mod_small, Hi.
Qed.
Lemma chunk_of_put mem p c : chunk_range c → chunk_of (put_chunk mem p c) p = c.
Proof.
  intros (Ho & Hs & Ht & Hf). unfold chunk_of, put_chunk. words.
  change (wrap 32 (c_stride c) mod 2 ^ 32) with (wrap 32 (wrap 32 (c_stride c))).
  rewrite !Z.mod_small, !swrap_wrap by done. rewrite swrap_small by done. by destruct c.
Qed.

(** The buffer as a view of it finds it. *)
Definition buffer_now (mem : Mem) (bb : BoundBuffer) : OutputBuffer := buffer_at bb (chunk_of mem (chunk_ptr bb)).

(** What the server and its consumers find in the output's memory. *)
Record output_facts (mem : Mem) (g : OutputGeneration) (bb : BoundBuffer) (ob : OutputBuffer) (i : Z)
    (c : CommittedOutput) (media : Z → byte) : Prop := {
  of_chunk : chunk_of mem (chunk_ptr bb) = committed_chunk ob c;
  of_io : io_of mem (io_ptr g) = mkIoState (buffer_status_value HaveData) i;
  of_media : ∀ j, 0 ≤ j < ob_capacity ob → mem (p_obj (ob_media ob)) (media_at ob + j) = media j;
}.
(** ... and in the node's activation. *)
Record result_facts (mem : Mem) (v : Ptr) (status awake fin : Z) : Prop := {
  rf_status : field mem v abi.STATE0_STATUS 4 = wrap 32 status;
  rf_awake : field mem v abi.AWAKE_TIME 8 = wrap 64 awake;
  rf_finish : field mem v abi.FINISH_TIME 8 = wrap 64 fin;
  rf_version : field mem v abi.SERVER_VERSION 4 = ACTIVATION_VERSION;
}.

Definition apart_from (g : OutputGeneration) (bb : BoundBuffer) (ints : list MemoryInterval) : Prop :=
  disjoint_from (interval (og_io g)) ints ∧ disjoint_from (interval (bb_metadata bb)) ints ∧
  disjoint_from (interval (bb_media bb)) ints.

Section facts.
Context (g : OutputGeneration) (bb : BoundBuffer) (Hl : mapping_len (og_io g) = 8) (Hbb : bound_ok bb).
Implicit Types (mem : Mem).

Lemma chunk_same ints mem mem' l :
  confined ints mem mem' l → disjoint_from (interval (bb_metadata bb)) ints →
  chunk_of mem' (chunk_ptr bb) = chunk_of mem (chunk_ptr bb).
Proof.
  clear Hl g. intros Hc Hd. destruct Hbb as [_ _ Hk _]. unfold mapping_len in Hk.
  assert (∀ off, 0 ≤ off ≤ 12 → word mem' (chunk_ptr bb) off = word mem (chunk_ptr bb) off) as Hw.
  { intros off Ho. eapply word_same; [done..|]. intros x Hx. exists (interval (bb_metadata bb)).
    split; [set_solver|]. unfold interval. simpl in *. split; [done|lia]. }
  unfold chunk_of. by rewrite !Hw.
Qed.
Lemma io_same ints mem mem' l :
  confined ints mem mem' l → disjoint_from (interval (og_io g)) ints →
  io_of mem' (io_ptr g) = io_of mem (io_ptr g).
Proof.
  clear Hbb bb. intros Hc Hd. unfold mapping_len in Hl.
  assert (∀ off, 0 ≤ off ≤ 4 → word mem' (io_ptr g) off = word mem (io_ptr g) off) as Hw.
  { intros off Ho. eapply word_same; [done..|]. intros x Hx. exists (interval (og_io g)).
    split; [set_solver|]. unfold interval. simpl in *. split; [done|lia]. }
  unfold io_of. by rewrite !Hw.
Qed.
Lemma media_within st j :
  buffer_ok (buffer_at bb st) → 0 ≤ j < ob_capacity (buffer_at bb st) →
  within [interval (bb_media bb)] (p_obj (ob_media (buffer_at bb st))) (media_at (buffer_at bb st) + j).
Proof.
  clear Hl Hbb g. intros (_ & Ho & _) Hj. exists (interval (bb_media bb)). split; [set_solver|].
  unfold media_at, ob_capacity in *. revert Ho Hj. unfold interval. simpl. unfold mapping_len.
  generalize (c_offset st mod m_len (mapped (bb_media bb))). intros z Ho Hj. split; [done|lia].
Qed.

Lemma output_facts_same ints mem mem' l st i c media :
  confined ints mem mem' l → apart_from g bb ints → buffer_ok (buffer_at bb st) →
  output_facts mem g bb (buffer_at bb st) i c media → output_facts mem' g bb (buffer_at bb st) i c media.
Proof.
  intros Hc (Hio & Hmeta & Hmed) Hok [Hf1 Hf2 Hf3]. split.
  - by erewrite chunk_same.
  - by erewrite io_same.
  - intros j Hj. rewrite <- Hf3 by done. apply Hc. by apply (within_apart (interval (bb_media bb))), media_within.
Qed.

(** Filling the plane, then the chunk, then the IO area. *)
Lemma output_facts_put mem st i c media :
  buffer_ok (buffer_at bb st) → u32_range i → u32_range (co_flags c) →
  disjoint_from (interval (og_io g)) [interval (bb_metadata bb); interval (bb_media bb)] →
  disjoint_from (interval (bb_metadata bb)) [interval (bb_media bb)] →
  let ob := buffer_at bb st in
  output_facts (put_io (put_chunk (filled mem ob media) (ob_chunk ob) (committed_chunk ob c)) (io_ptr g) HaveData i)
    g bb ob i c media.
Proof.
  intros Hok Hi Hfl Hio Hmeta ob. unfold disjoint_from in *. decompose_Forall. rewrite overlaps_sym in *.
  pose proof (confined_io g (put_chunk (filled mem ob media) (ob_chunk ob) (committed_chunk ob c)) HaveData i Hl) as Hci.
  pose proof (confined_chunk bb (filled mem ob media) (committed_chunk ob c) Hbb) as Hcc.
  split.
  - erewrite chunk_same; [|exact Hci|by constructor]. apply chunk_of_put.
    split_and!; [apply wrap_range; lia..|by apply i32_of_u32_range|done].
  - by apply io_of_put.
  - intros j Hj. pose proof (media_within st j Hok Hj) as Hw.
    destruct Hci as [_ ->]; [|eapply within_apart; [|exact Hw]; by constructor].
    destruct Hcc as [_ ->]; [|eapply within_apart; [|exact Hw]; by constructor].
    unfold filled, mem_fill. rewrite bool_decide_eq_true_2 by (split; [done|lia]). f_equal. lia.
Qed.
End facts.

(** The regions of a cycle and of the peers, none overlapping another. *)
Lemma session_layout s t g k bb :
  session_inv s → transport s = Some t → output s = Some g → og_buffers g !! k = Some bb →
  ∃ rest, peer_intervals (peers s) ⊆ rest ∧ output_intervals g ⊆ interval (og_io g) :: interval (bb_metadata bb) ::
      interval (bb_media bb) :: rest ∧
    any_overlap (transport_interval t :: interval (og_io g) :: interval (bb_metadata bb) ::
      interval (bb_media bb) :: rest) = false.
Proof.
  intros Hi Ht Hg Hb. set (ints := λ bs, concat ((λ b, [interval (bb_metadata b); interval (bb_media b)]) <$> bs)).
  exists (ints (take k (og_buffers g)) ++ ints (drop (S k) (og_buffers g)) ++ peer_intervals (peers s)).
  assert (output_intervals g ≡ₚ interval (og_io g) :: interval (bb_metadata bb) :: interval (bb_media bb) ::
    ints (take k (og_buffers g)) ++ ints (drop (S k) (og_buffers g))) as Hp.
  { unfold output_intervals. rewrite <- (take_drop_middle _ _ _ Hb) at 1. fold (ints (take k (og_buffers g) ++ bb :: drop (S k) (og_buffers g))).
    unfold ints. rewrite fmap_app, fmap_cons, concat_app. simpl. constructor. by rewrite <- !Permutation_middle. }
  split; [set_solver|]. split; [rewrite Hp; set_solver|].
  eapply any_overlap_perm; [|apply (si_disjoint s Hi)].
  unfold session_intervals, transport_intervals, session_output_intervals. rewrite Ht, Hg. cbn [opt_list app].
  constructor. rewrite Hp. cbn [app]. by rewrite <- app_assoc.
Qed.

(** A cycle that can run: everything in place, and nobody else writing. *)
Record cycle_ready (P : Own) (mem : Mem) (s : ClientNodeSession) (t : TransportGeneration)
    (g : OutputGeneration) (i : Z) (bb : BoundBuffer) : Prop := {
  cr_inv : session_inv s;
  cr_running : state s = Running;
  cr_transport : transport s = Some t;
  cr_output : output s = Some g;
  cr_owned : ∀ b o, within (session_intervals s) b o → P b o;
  cr_activation : activation_at P mem (tg_activation t) Triggered;
  cr_io_ptr : p_addr (io_ptr g) ≠ 0 ∧ p_addr (io_ptr g) mod 4 = 0;
  cr_io : io_of mem (io_ptr g) = mkIoState (buffer_status_value NeedData) i;
  cr_buffer : og_buffers g !! Z.to_nat i = Some bb;
  cr_buffers : ∀ b, b ∈ og_buffers g → p_addr (chunk_ptr b) ≠ 0 ∧ p_addr (chunk_ptr b) mod 4 = 0 ∧
    p_addr (as_mut_ptr (bb_media b)) ≠ 0 ∧ mapping_len (bb_media b) ≤ u32_max ∧
    chunk_fits (chunk_of mem (chunk_ptr b)) (mapping_len (bb_media b));
}.

Section ready.
Context {K : Type} `{EventSys K, OutputProcess K}.
Context (P : Own) (mem : Mem) (s : ClientNodeSession) (t : TransportGeneration) (g : OutputGeneration)
  (i : Z) (bb : BoundBuffer) (Hr : cycle_ready P mem s t g i bb).
Notation v := (record_of (tg_activation t)).

Lemma ready_view : view_ok v.
Proof. destruct (cr_activation _ _ _ _ _ _ _ Hr). by split. Qed.
Lemma ready_output : output_ok g.
Proof. apply (si_output s (cr_inv _ _ _ _ _ _ _ Hr) g), Hr. Qed.
Lemma ready_bound b : b ∈ og_buffers g → bound_ok b.
Proof. intros Hb. pose proof (oo_buffers g ready_output) as Hf. rewrite Forall_forall in Hf. by apply Hf. Qed.

(** The session owns what it mapped. *)
Lemma ready_covers i' p off n :
  i' ∈ session_intervals s → p_obj p = i_backing i' → start i' ≤ p_off p + off → p_off p + off + n ≤ end_ i' →
  covers P p off n.
Proof. intros Hi Ho Hs He o Hx. apply (cr_owned _ _ _ _ _ _ _ Hr). exists i'. split; [done|]. split; [done|lia]. Qed.
Lemma ready_output_within : output_intervals g ⊆ session_intervals s.
Proof.
  unfold session_intervals, session_output_intervals. rewrite (cr_output _ _ _ _ _ _ _ Hr). simpl. set_solver.
Qed.
Lemma ready_covers_io : covers P (io_ptr g) 0 8.
Proof.
  pose proof (oo_io g ready_output) as Hl. unfold mapping_len in Hl.
  apply (ready_covers (interval (og_io g))); [|done|unfold interval; simpl; lia..].
  apply ready_output_within. unfold output_intervals. set_solver.
Qed.
Lemma ready_covers_chunk b : b ∈ og_buffers g → covers P (chunk_ptr b) 0 16.
Proof.
  intros Hb. destruct (ready_bound b Hb) as [_ _ [? ?] _]. unfold mapping_len in *.
  apply (ready_covers (interval (bb_metadata b))); [|done|unfold interval; simpl; lia..].
  apply ready_output_within. destruct (output_part g b Hb) as [Hs _]. apply Hs. set_solver.
Qed.

Lemma ready_apart ints : ints ⊆ output_intervals g ++ peer_intervals (peers s) → disjoint_from (transport_interval t) ints.
Proof.
  intros Hs. pose proof (si_disjoint s (cr_inv _ _ _ _ _ _ _ Hr)) as Hd.
  unfold session_intervals, transport_intervals, session_output_intervals in Hd.
  rewrite (cr_transport _ _ _ _ _ _ _ Hr), (cr_output _ _ _ _ _ _ _ Hr) in Hd. cbn [opt_list app] in Hd.
  apply any_overlap_cons in Hd as [Hd _]. unfold disjoint_from in *. rewrite Forall_forall in *. intros x Hx.
  apply Hd. set_solver.
Qed.

Context (awake : Z).
Notation mem0 := (awake_mem mem v awake).
Notation cycle := (mkCycle (buffer_now mem bb) i (og_format g)).
Context (Hcallback : ∀ k m, ∃ frames c, (op_process (K:=K) k cycle m).2 = Ok c ∧ commit cycle frames = Ok c).
Context (Hstride : frame_stride (og_format g) ≤ mapping_len (bb_media bb) ∧ frame_stride (og_format g) ≤ 2 ^ 31 - 1).

Lemma ready_awake : confined [transport_interval t] mem mem0 (wrote_awake v awake).
Proof. pose proof ready_view. unfold wrote_awake. confine_fields. Qed.

(** Claiming leaves the output's memory alone. *)
Lemma ready_same b : b ∈ og_buffers g →
  io_of mem0 (io_ptr g) = io_of mem (io_ptr g) ∧ chunk_of mem0 (chunk_ptr b) = chunk_of mem (chunk_ptr b).
Proof.
  intros Hb. assert (∀ j, j ∈ output_intervals g → disjoint_from j [transport_interval t]) as Hd.
  { intros j Hj. pose proof (ready_apart [j] ltac:(set_solver)) as Hj'.
    unfold disjoint_from in *. rewrite Forall_singleton in *. by rewrite overlaps_sym. }
  split.
  - apply (io_same g (oo_io g ready_output) [transport_interval t] _ _ _ ready_awake).
    apply Hd. unfold output_intervals. set_solver.
  - apply (chunk_same b (ready_bound b Hb) [transport_interval t] _ _ _ ready_awake).
    apply Hd. destruct (output_part g b Hb) as [Hs _]. apply Hs. set_solver.
Qed.

(** The selected buffer's commit is published. *)
Lemma ready_process r mem1 l1 :
  process_spec (K:=K) P mem0 g r mem1 l1 →
  ∃ c media, r = Ok (Some (mkPublished i (co_bytes c)), 2) ∧ (∃ frames, commit cycle frames = Ok c) ∧
    answered P mem0 cycle media (Ok c) ∧ buffer_ok (buffer_now mem bb) ∧
    mem1 = put_io (put_chunk (filled mem0 (buffer_now mem bb) media) (chunk_ptr bb)
                     (committed_chunk (buffer_now mem bb) c)) (io_ptr g) HaveData i.
Proof.
  pose proof (cr_buffer _ _ _ _ _ _ _ Hr) as Hbuf. pose proof (list_elem_of_lookup_2 _ _ _ Hbuf) as Hin.
  destruct (ready_same bb Hin) as [Hio _]. rewrite (cr_io _ _ _ _ _ _ _ Hr) in Hio.
  assert (∀ j bj b, og_buffers g !! Z.to_nat j = Some bj → viewed P mem0 bj b →
    (covers P (io_ptr g) 0 8 → io_of mem0 (io_ptr g) = mkIoState 1 j) →
    j = i ∧ bj = bb ∧ b = buffer_now mem bb ∧ buffer_ok b) as Hsel.
  { intros j bj b Hbj (st & -> & Hok & _ & Hst) Hj. specialize (Hj ready_covers_io).
    rewrite Hio in Hj. assert (j = i) by congruence. subst j.
    assert (bj = bb) by congruence. subst bj. rewrite Hst by (by apply ready_covers_chunk).
    rewrite Hst in Hok by (by apply ready_covers_chunk). unfold buffer_now.
    by destruct (ready_same bb Hin) as [_ <-]. }
  destruct 1 as [e Href _|Hidle|j bj b media c Hb Hv Hj Ha Hid _ _|j bj b media r r' st Hb Hv Hj Ha _ Hm].
  - exfalso. destruct Href as [Hx|[(b & Hb & Hn)|Hx]].
    + destruct (cr_io_ptr _ _ _ _ _ _ _ Hr). by apply Hx.
    + destruct (cr_buffers _ _ _ _ _ _ _ Hr b Hb) as (? & ? & ? & ? & ?).
      apply Hn; [done..|by apply ready_covers_chunk|]. by destruct (ready_same b Hb) as [_ ->].
    + destruct (Hx ready_covers_io) as [_ Hlen]. rewrite Hio in Hlen. simpl in Hlen.
      apply lookup_lt_Some in Hbuf. unfold len in Hlen. lia.
  - exfalso. apply (Hidle ready_covers_io). by rewrite Hio.
  - destruct (Hsel j bj b Hb Hv Hj) as (-> & -> & -> & Hok). exists c, media. split; [done|].
    split; [|done]. destruct Ha as (k & k' & m & Hp & _). destruct (Hcallback k m) as (frames & c' & Hc & Hcom).
    rewrite Hp in Hc. simplify_eq/=. eauto.
  - exfalso. destruct (Hsel j bj b Hb Hv Hj) as (-> & -> & -> & Hok).
    destruct Ha as (k & k' & m & Hp & _). destruct (Hcallback k m) as (frames & c & Hc & Hcom).
    rewrite Hp in Hc. simpl in Hc. subst r. apply commit_inv in Hcom as (Hi & _ & _ & _ & Hs & _).
    destruct Hm as [[Hx|Hx] _]; [done|]. rewrite Hs in Hx. simpl in Hx. lia.
Qed.

(** Fields the activation keeps apart. *)
Ltac fields_apart := repeat first
  [rewrite field_set_same | rewrite field_set_other by (vm_compute; intuition congruence)].

Lemma ready_index : u32_range i.
Proof.
  pose proof (cr_io _ _ _ _ _ _ _ Hr) as Hio. unfold io_of in Hio. injection Hio as _ <-.
  apply (mem_word_range mem (p_obj (io_ptr g)) _ 4).
Qed.

Lemma result_facts_same ints m1 m2 l status fin :
  confined ints m1 m2 l → disjoint_from (transport_interval t) ints →
  result_facts m1 v status awake fin → result_facts m2 v status awake fin.
Proof.
  intros Hc Hd [? ? ? ?]. pose proof ready_view.
  split; (erewrite field_same; [done|exact Hc|exact Hd|done|in_fields]).
Qed.

Lemma confined_result m status fin :
  confined [transport_interval t] m (set_status (result_mem m v status fin) v Finished)
    (wrote_result v status fin ++ [wrote_status v Finished]).
Proof. pose proof ready_view. unfold wrote_result. simpl. confine_fields. Qed.

Lemma ready_claim fin r m2 l :
  claim_spec (K:=K) P mem t g awake (Some fin) r m2 l →
  ∃ c media, r = Ok (Completed (inr (Some (mkPublished i (co_bytes c)))) fin) ∧
    (∃ frames, commit cycle frames = Ok c) ∧ answered P mem0 cycle media (Ok c) ∧ buffer_ok (buffer_now mem bb) ∧
    output_facts m2 g bb (buffer_now mem bb) i c media ∧ result_facts m2 v 2 awake fin ∧
    field m2 v abi.STATUS 4 = status_value Finished.
Proof.
  pose proof (cr_activation _ _ _ _ _ _ _ Hr) as Hact. pose proof (aa_owned _ _ _ _ Hact) as Hown.
  pose proof ready_view as Hview. pose proof (cr_buffer _ _ _ _ _ _ _ Hr) as Hbuf.
  pose proof (list_elem_of_lookup_2 _ _ _ Hbuf) as Hin.
  assert (∀ r1 m1 l1, process_spec (K:=K) P mem0 g r1 m1 l1 → ∀ off n, (off, n) ∈ fields →
    field m1 v off n = field mem0 v off n) as Hkeep.
  { intros r1 m1 l1 Hp off n Hf. eapply field_same; [by eapply confined_process; [apply ready_output|]| |done|done].
    apply ready_apart. set_solver. }
  assert (∀ r1 m1 l1 st f, process_spec (K:=K) P mem0 g r1 m1 l1 →
    field (result_mem m1 v st f) v abi.STATUS 4 = status_value Awake) as Hawake.
  { intros r1 m1 l1 st f Hp. unfold result_mem. fields_apart. rewrite (Hkeep _ _ _ Hp) by in_fields.
    unfold awake_mem, set_status. by fields_apart. }
  destruct 1 as [e Hu|r Hn _|r m1 l1 result st fin' v' _ _ Hp Hcl _|r m1 l1 result st fin' e v' _ _ Hp Hcl Hx].
  - by destruct (activation_viewable _ _ _ _ Hact).
  - destruct (Hn Hown). apply Hact.
  - destruct (ready_process _ _ _ Hp) as (c & media & -> & Hcom & Hans & Hok & ->). simplify_eq/=.
    exists c, media. split_and!; try done.
    + destruct (session_layout s t g _ bb (cr_inv _ _ _ _ _ _ _ Hr) (cr_transport _ _ _ _ _ _ _ Hr)
        (cr_output _ _ _ _ _ _ _ Hr) Hbuf) as (rest & _ & _ & Hd).
      rewrite !any_overlap_cons in Hd. destruct Hd as (Ht & Hio & Hmeta & Hmed & _).
      eapply (output_facts_same g bb (oo_io g ready_output) (ready_bound bb Hin) [transport_interval t]);
        [apply confined_result| |done|].
      * unfold apart_from, disjoint_from in *. rewrite !Forall_singleton, !(overlaps_sym _ (transport_interval t)).
        by decompose_Forall.
      * destruct Hcom as [frames Hcom]. apply commit_inv in Hcom as (_ & _ & _ & _ & _ & Hfl).
        apply output_facts_put; [apply ready_output|by apply ready_bound|done|apply ready_index|by rewrite Hfl| |];
          unfold disjoint_from in *; decompose_Forall; by repeat constructor.
    + split; unfold set_status, result_mem; fields_apart; try done; rewrite (Hkeep _ _ _ Hp) by in_fields;
        unfold awake_mem, set_status; fields_apart; [done|apply Hact].
    + unfold set_status. by fields_apart.
  - destruct (Hx Hown). by eapply Hawake.
Qed.

Lemma ready_peers_apart : apart_from g bb (peer_intervals (peers s)) ∧
  apart_from g bb [transport_interval t] ∧ disjoint_from (transport_interval t) (peer_intervals (peers s)).
Proof.
  destruct (session_layout s t g _ bb (cr_inv _ _ _ _ _ _ _ Hr) (cr_transport _ _ _ _ _ _ _ Hr)
    (cr_output _ _ _ _ _ _ _ Hr) (cr_buffer _ _ _ _ _ _ _ Hr)) as (rest & Hsub & _ & Hd).
  rewrite !any_overlap_cons in Hd. destruct Hd as (Ht & Hio & Hmeta & Hmed & _).
  assert (∀ x l, disjoint_from x l → ∀ l', l' ⊆ l → disjoint_from x l') as Hmono.
  { intros x l Hl l' Hs. unfold disjoint_from in *. rewrite Forall_forall in *. auto. }
  assert (∀ x, disjoint_from (transport_interval t) [x] → disjoint_from x [transport_interval t]) as Hsym.
  { intros x Hx. unfold disjoint_from in *. rewrite Forall_singleton in *. by rewrite overlaps_sym. }
  split; [|split; [|by eapply Hmono; [exact Ht|set_solver]]].
  - split_and!; eapply Hmono; [exact Hio|set_solver|exact Hmeta|set_solver|exact Hmed|done].
  - split_and!; apply Hsym; eapply Hmono; [exact Ht|set_solver|exact Ht|set_solver|exact Ht|set_solver].
Qed.

(** Triggering the peers, or failing, disturbs none of it. *)
Lemma ready_finish n p fin r s' m2 m3 l c media :
  finish_spec P m2 s t g n (Ok (Completed (inr (Some p)) fin)) r s' m3 l →
  buffer_ok (buffer_now mem bb) → output_facts m2 g bb (buffer_now mem bb) i c media →
  result_facts m2 v 2 awake fin → field m2 v abi.STATUS 4 = status_value Finished →
  output_facts m3 g bb (buffer_now mem bb) i c media ∧ result_facts m3 v 2 awake fin ∧
  ((r = Ok (Processed n (saturating_sub n 1) true) ∧ s' = s ∧ field m3 v abi.STATUS 4 = status_value Finished) ∨
   (∃ e, r = Err e ∧ s' = set_state Failed s ∧ field m3 v abi.STATUS 4 = status_value Inactive)).
Proof.
  intros Hf Hok Ho Hres Hst. destruct ready_peers_apart as (Hap & Hat & Htp). pose proof ready_view as Hv.
  assert (∀ first m m' l, peers_spec P fin (in_order (peers s)) None m first m' l →
    output_facts m g bb (buffer_now mem bb) i c media → result_facts m v 2 awake fin →
    output_facts m' g bb (buffer_now mem bb) i c media ∧ result_facts m' v 2 awake fin ∧
    field m' v abi.STATUS 4 = field m v abi.STATUS 4) as Hpeers.
  { intros first m m' l' Hp Ho' Hr'. apply confined_peers in Hp. split_and!.
    - eapply output_facts_same; [apply ready_output|eapply ready_bound, list_elem_of_lookup_2, Hr|done..].
    - by eapply result_facts_same.
    - eapply field_same; [exact Hp|done|done|in_fields]. }
  inversion Hf as [| |p' fin' m l' Hp|p' fin' e m' l2 m3' l3 Hp Hd| |]; simplify_eq.
  - destruct (Hpeers _ _ _ _ Hp Ho Hres) as (? & ? & Hs). split_and!; [done..|]. left. split_and!; [done..|congruence].
  - destruct (Hpeers _ _ _ _ Hp Ho Hres) as (Ho' & Hres' & Hs).
    assert (activation_at P m' (tg_activation t) Finished) as Hact
      by (destruct (cr_activation _ _ _ _ _ _ _ Hr), Hres'; split; congruence || done).
    pose proof (confined_deactivated _ _ _ _ _ Hd) as Hc.
    destruct Hd; [|by destruct (activation_viewable _ _ _ _ Hact)]. split_and!.
    + eapply output_facts_same; [apply ready_output|eapply ready_bound, list_elem_of_lookup_2, Hr|exact Hc|done..].
    + destruct Hres'. split; unfold set_status; by fields_apart.
    + right. exists e. split_and!; [done..|]. unfold set_status. by fields_apart.
Qed.
End ready.

(** ** Properties *)

(** C15: The order of a wake. Whatever the others do, a wake of a session
    without a transport, of an old generation or without a token does
    nothing; otherwise its first action is draining the trigger, and the
    callback runs at most once, on a running session only, after the
    activation was claimed (Triggered to Awake, with the awake time) and
    before the result and finish time are stored. A peer is signalled only
    after the activation was set to Finished, and only if the cycle did not
    fail: after an error or a panic of the callback the session fails without
    a signal to any peer, although the design of the session asks to attempt
    their propagation first. *)
Theorem wake_order {K} `{EventSys K, OutputProcess K} (s : ClientNodeSession) (w : World K)
    (generation awake : Z) (finish : option Z) :
  session_inv s →
  let '(s', w', r) := on_wake_with_finish generation awake finish (s, w) in
  ∃ l, w_log w' = w_log w ++ l ∧ wake_trace s generation awake l.
Proof.
  intros Hi. pose proof (osteps_any s _ _ w (λ mem, osteps_on_wake (λ _ _, False) mem s generation awake finish Hi)) as Hw.
  destruct (on_wake_with_finish _ _ _ _) as [[s' w'] r]. destruct Hw as (_ & mem & l & Hl & Hs).
  exists l. split; [done|]. by eapply wake_spec_trace.
Qed.

Lemma wake_order_witness :
  let '(s, w, _) := history (sample.configure ++ sample.setup) (ClientNodeSession_new, sample.w0) in
  let '(_, w', _) := on_wake_with_finish 1 100 (Some 200) (s, w) in
  ∃ l, w_log w' = w_log w ++ l ∧ wake_trace s 1 100 l.
Proof.
  pose proof (history_keeps (K:=unit) _ _ sample.w0 session_new_inv sample.setup_typed) as Hi.
  destruct (history _ _) as [[s w] rs]. destruct Hi as (Hi & _).
  exact (wake_order s w 1 100 (Some 200) Hi).
Defined.

(** C29: A wake stays inside its mappings. Whatever the others do, every
    word and every plane a wake writes lies in a region the session has
    mapped, and a byte outside them that nobody else writes keeps its
    value. *)
Theorem wake_confined {K} `{EventSys K, OutputProcess K} (s : ClientNodeSession) (w : World K)
    (generation awake : Z) (finish : option Z) (P : Own) (mem : Mem) :
  session_inv s → tracks P mem w →
  let '(s', w', r) := on_wake_with_finish generation awake finish (s, w) in
  ∃ l, w_log w' = w_log w ++ l ∧ Forall (event_within (session_intervals s)) l ∧
    ∀ b o, P b o → ¬ within (session_intervals s) b o → w_mem w' b o = w_mem w b o.
Proof.
  intros Hi Hw. pose proof (osteps_on_wake P mem s generation awake finish Hi w Hw) as Ho.
  destruct (on_wake_with_finish _ _ _ _) as [[s' w'] r]. destruct Ho as (_ & _ & mem' & l & [_ Hm'] & Hl & Hs).
  destruct (wake_spec_confined P mem s generation awake finish r s' mem' l Hi Hs) as [He Hm].
  exists l. split_and!; [done..|]. intros b o Hb Hn. rewrite Hm', Hm by done. symmetry. by apply Hw.
Qed.

Lemma wake_confined_witness :
  let '(_, w', _) := on_wake_with_finish 1 100 (Some 200) (sample.running, sample.triggered_world) in
  w_log w' ≠ [] ∧ Forall (event_within (session_intervals sample.running)) (w_log w') ∧
  w_mem w' (mkBacking 8 6) 0 = Byte.x00.
Proof.
  pose proof (wake_confined sample.running sample.triggered_world 1 100 (Some 200) (λ _ _, True) sample.triggered
    sample.running_inv ltac:(done)) as Hc.
  assert (w_log (on_wake_with_finish 1 100 (Some 200) (sample.running, sample.triggered_world)).1.2 ≠ []) as Hl
    by (by vm_compute).
  destruct (on_wake_with_finish _ _ _ _) as [[s' w'] r]. destruct Hc as (l & Heq & Hl' & Hm). simpl in *.
  split; [done|]. split; [by rewrite Heq|]. rewrite Hm; [by vm_compute|done|].
  intros (j & Hj & Hb & _). revert Hj. assert (session_intervals sample.running =
    [mkInterval (mkBacking 8 1) 0 2312; mkInterval (mkBacking 8 4) 0 8; mkInterval (mkBacking 8 2) 0 16;
     mkInterval (mkBacking 8 3) 0 64; mkInterval (mkBacking 8 5) 0 2312]) as -> by (by vm_compute).
  rewrite !elem_of_cons, elem_of_nil. intros Hj. destruct_or! Hj; by subst j.
Defined.

(** C13: A published cycle. On a running session whose memory nobody else
    writes, with the activation triggered, the IO area asking for buffer
    [i], sound chunks, and a callback that commits frames that fit: a wake
    either finds no token and does nothing, or leaves the callback's bytes in
    the buffer's plane, their size and stride in its chunk, the buffer id
    with status HaveData in the IO area, and the result, awake and finish
    times in the activation; the activation is Finished and the session
    running, or, if a peer could not be triggered, the activation is
    Inactive and the session failed. *)
Theorem cycle_published {K} `{EventSys K, OutputProcess K} (P : Own) (mem : Mem) (s : ClientNodeSession)
    (t : TransportGeneration) (g : OutputGeneration) (i : Z) (bb : BoundBuffer) (w : World K) (awake fin : Z) :
  let cycle := mkCycle (buffer_now mem bb) i (og_format g) in
  let v := record_of (tg_activation t) in
  cycle_ready P mem s t g i bb → tracks P mem w →
  (∀ k m, ∃ frames c, (op_process (K:=K) k cycle m).2 = Ok c ∧ commit cycle frames = Ok c) →
  frame_stride (og_format g) ≤ mapping_len (bb_media bb) ∧ frame_stride (og_format g) ≤ 2 ^ 31 - 1 →
  let '(s', w', r) := on_wake_with_finish (tg_id t) awake (Some fin) (s, w) in
  (s' = s ∧ w_log w' = w_log w ∧ (r = Ok NoWake ∨ ∃ e, r = Err (Signal e))) ∨
  (∃ mem' c media frames k k' m, tracks P mem' w' ∧
    op_process k cycle m = (k', media, Ok c) ∧ commit cycle frames = Ok c ∧
    output_facts mem' g bb (buffer_now mem bb) i c media ∧ result_facts mem' v 2 awake fin ∧
    ((∃ n, r = Ok (Processed n (saturating_sub n 1) true) ∧ s' = s ∧
           field mem' v abi.STATUS 4 = status_value Finished) ∨
     (∃ e, r = Err e ∧ s' = set_state Failed s ∧ field mem' v abi.STATUS 4 = status_value Inactive))).
Proof.
  intros cycle v Hr Hw Hcb Hstride. pose proof (osteps_on_wake P mem s (tg_id t) awake (Some fin) (cr_inv _ _ _ _ _ _ _ Hr) w Hw) as Ho.
  destruct (on_wake_with_finish _ _ _ _) as [[s' w'] r]. destruct Ho as (_ & _ & mem' & l & Htr & Hl & Hs).
  pose proof (cr_transport _ _ _ _ _ _ _ Hr) as Ht. pose proof (cr_output _ _ _ _ _ _ _ Hr) as Hg.
  pose proof (cr_running _ _ _ _ _ _ _ Hr) as Hrun.
  destruct Hs as [Hn|t' Ht' Hne|t' r Ht' _ Hno|t' n Ht' _ Hnr|t' g' n c m1 l1 r s' m2 l2 Ht' _ _ Hg' Hc Hf].
  1, 2, 4: exfalso; congruence.
  - left. split_and!; [done| |done]. by rewrite Hl, app_nil_r.
  - right. assert (t' = t) by congruence. assert (g' = g) by congruence. subst t' g'.
    destruct (ready_claim P mem s t g i bb Hr awake Hcb Hstride fin c m1 l1 Hc)
      as (co & media & -> & [frames Hcom] & (k & k' & m & Hop & _) & Hok & Hof & Hrf & Hst).
    destruct (ready_finish P mem s t g i bb Hr awake Hcb Hstride n _ fin r s' m1 m2 l2 co media Hf Hok Hof Hrf Hst)
      as (Hof' & Hrf' & Hend).
    exists m2, co, media, frames, k, k', m. split_and!; try done. destruct Hend as [?|?]; [left|right]; eauto.
Qed.

Lemma sample_ready : cycle_ready (λ _ _, True) sample.triggered sample.running sample.transport_of
  sample.output_of 0 sample.buffer_of.
Proof.
  split.
  - apply sample.running_inv.
  - by vm_compute.
  - by vm_compute.
  - by vm_compute.
  - exact (λ _ _ _, I).
  - split; [exact (λ _ _, I)|by vm_compute..].
  - by vm_compute.
  - by vm_compute.
  - by vm_compute.
  - intros b ->%list_elem_of_singleton. by vm_compute.
Qed.

Lemma cycle_published_witness :
  let '(s, w, r) := on_wake_with_finish 1 100 (Some 200) (sample.running, sample.triggered_world) in
  r = Ok (Processed 1 0 true) ∧ ∃ mem, tracks (λ _ _, True) mem w ∧
    chunk_of mem (chunk_ptr sample.buffer_of) = mkChunk 0 16 4 0 ∧
    io_of mem (io_ptr sample.output_of) = mkIoState 2 0 ∧
    field mem (as_mut_ptr (sample.map_at 1 2312)) abi.STATUS 4 = 3.
Proof.
  set (cycle := mkCycle (buffer_now sample.triggered sample.buffer_of) 0 (og_format sample.output_of)).
  assert (∀ (k : unit) m, (op_process k cycle m).2 = Ok (mkCommitted 0 16 4 0)) as Hop0
    by (intros [] m; vm_compute; reflexivity).
  assert (∀ (k : unit) m, ∃ frames c, (op_process k cycle m).2 = Ok c ∧ commit cycle frames = Ok c) as Hcb
    by (intros k m; exists 4, (mkCommitted 0 16 4 0); split; [apply Hop0|vm_compute; reflexivity]).
  assert (frame_stride (og_format sample.output_of) ≤ mapping_len (bb_media sample.buffer_of) ∧
    frame_stride (og_format sample.output_of) ≤ 2 ^ 31 - 1) as Hst by (by vm_compute).
  assert (tracks (λ _ _, True) sample.triggered sample.triggered_world) as Htr0 by (split; [constructor|by intros]).
  pose proof (cycle_published (K:=unit) (λ _ _, True) sample.triggered sample.running sample.transport_of
    sample.output_of 0 sample.buffer_of sample.triggered_world 100 200 sample_ready Htr0 Hcb Hst) as Hp.
  change (tg_id sample.transport_of) with 1 in Hp.
  assert ((on_wake_with_finish 1 100 (Some 200) (sample.running, sample.triggered_world)).2
    = Ok (Processed 1 0 true)) as Hr by (by vm_compute).
  destruct (on_wake_with_finish _ _ _ _) as [[s' w'] r]. simpl in Hr. subst r.
  destruct Hp as [(_ & _ & [?|[? ?]])|(mem & c & media & frames & k & k' & m & Htr & Hop & Hcom & [Hc Hio _] & _ & Hend)]; [done..|].
  split; [done|]. exists mem. split_and!; [done| |done|].
  - specialize (Hop0 k m). subst cycle. rewrite Hop in Hop0. injection Hop0 as ->. rewrite Hc. vm_compute. reflexivity.
  - by destruct Hend as [(n & _ & _ & ?)|(? & ? & _)].
Defined.
