(* ===== verification/NodeOwnerProps.v ===== *)
(** * Peers, released memory and refused commands

    That every peer is triggered whatever happens to the others, that a
    removed memory is let go of everywhere, and what a command does to a
    session whose cycle is pending. *)

From S2P Require Import Prelude FrameHeader ClientNode NodeMemory NodeShared NodeActivation NodePort.
From S2P Require Import NodeCycle NodeConfig NodeOutput NodeSession NodeSessionLaws NodeWake NodeHistory NodeWakeProps.
#[local] Open Scope Z_scope.

(** ** Peers *)

(** [p]'s record is the same in both memories. *)
Definition same_record (p : PeerActivation) (m m' : Mem) : Prop :=
  view_ok (record_of (pa_mapping p)) → ∀ off n, (off, n) ∈ fields →
    field m' (record_of (pa_mapping p)) off n = field m (record_of (pa_mapping p)) off n.

Lemma same_record_refl p m : same_record p m m.
Proof. by intros _ off n _. Qed.
Lemma same_record_confined p ints m m' l :
  confined ints m m' l → disjoint_from (peer_interval p) ints → same_record p m m'.
Proof. intros Hc Hd Hv off n Hf. by eapply field_same. Qed.

(** Every peer has its turn, on the record the cycle found, and nothing
    later undoes it. *)
Lemma peers_spec_turn P now ps first mem out mem' l :
  peers_spec P now ps first mem out mem' l → any_overlap (peer_interval ∘ snd <$> ps) = false →
  (is_Some first → is_Some out) ∧ ∀ node p, (node, p) ∈ ps →
    ∃ m0 r m1 l1, peer_spec P m0 p now r m1 l1 ∧ same_record p mem m0 ∧ same_record p m1 mem' ∧
      l1 ⊆ l ∧ ((∃ e, r = Err e) → is_Some out).
Proof.
  induction 1 as [|node p ps first mem r m1 l1 out m2 l2 Hp Hps IH]; [by split; [|set_solver]|].
  rewrite fmap_cons. intros Hd. apply any_overlap_cons in Hd as [Hd Hrest]. specialize (IH Hrest) as [Hfirst IH].
  assert ((∃ e, r = Err e) ∨ is_Some first → is_Some (keep_first first node r)) as Hkeep
    by (intros [[e ->]|[e ->]]; [by destruct first; eexists|by eexists]).
  split; [auto|]. intros node' p' [Heq|Hin]%elem_of_cons.
  - simplify_eq. exists mem, r, m1, l1. split_and!; [done|apply same_record_refl| |set_solver|auto].
    by eapply same_record_confined; [eapply confined_peers|].
  - destruct (IH node' p' Hin) as (m0 & r' & m3 & l3 & Hp' & Hs0 & Hs1 & Hl & He).
    exists m0, r', m3, l3. split_and!; [done| |done|set_solver|done].
    assert (same_record p' mem m1) as Hs.
    { eapply same_record_confined; [by eapply confined_peer|]. unfold disjoint_from in *.
      rewrite Forall_singleton, overlaps_sym. rewrite Forall_forall in Hd. apply Hd.
      apply list_elem_of_fmap. by exists (node', p'). }
    intros Hv off n Hf. rewrite (Hs0 Hv), (Hs Hv); done.
Qed.

(** What a peer with count [c] and status [st] has become. *)
Record peer_after (p : PeerActivation) (now c : Z) (st : ActivationStatus) (mem' : Mem) (l : list Event)
    (failed : Prop) : Prop := {
  pt_none : c ≤ 0 → failed ∧ pending_of mem' (record_of (pa_mapping p)) = c;
  pt_pending : 0 < c → pending_of mem' (record_of (pa_mapping p)) = c - 1;
  pt_waiting : c ≠ 1 → field mem' (record_of (pa_mapping p)) abi.STATUS 4 = status_value st;
  pt_refused : c = 1 → st ≠ NotTriggered →
    failed ∧ field mem' (record_of (pa_mapping p)) abi.STATUS 4 = status_value st;
  pt_triggered : c = 1 → st = NotTriggered →
    field mem' (record_of (pa_mapping p)) abi.STATUS 4 = status_value Triggered ∧
    field mem' (record_of (pa_mapping p)) abi.SIGNAL_TIME 8 = wrap 64 now ∧
    (EvSignal (pa_signal p) 1 ∈ l ∨ failed);
}.

Ltac fields_apart := repeat first
  [rewrite field_set_same | rewrite field_set_other by (vm_compute; intuition congruence)].

Lemma status_value_inj a b : status_value a = status_value b → a = b.
Proof. by destruct a, b. Qed.

Lemma trigger_spec_after P m v now r m1 l c st :
  owned P v → pending_of m v = c → field m v abi.STATUS 4 = status_value st →
  trigger_spec P m v now r m1 l →
  (c ≤ 0 ∧ (∃ e, r = Err e) ∧ m1 = m) ∨
  (1 < c ∧ pending_of m1 v = c - 1 ∧ field m1 v abi.STATUS 4 = status_value st) ∨
  (c = 1 ∧ st ≠ NotTriggered ∧ (∃ e, r = Err e) ∧ pending_of m1 v = 0 ∧ field m1 v abi.STATUS 4 = status_value st) ∨
  (c = 1 ∧ st = NotTriggered ∧ r = Ok PeerTriggered ∧ pending_of m1 v = 0 ∧
   field m1 v abi.STATUS 4 = status_value Triggered ∧ field m1 v abi.SIGNAL_TIME 8 = wrap 64 now).
Proof.
  intros Ho Hc Hst. pose proof (pending_of_range m v) as Hrange. unfold i32_range in Hrange.
  destruct 1 as [c' Hc' Hle|c' Hc' Hlt|e He|He]; try specialize (Hc' Ho).
  - left. split_and!; [lia|by eexists|done].
  - right; left. assert (c' = c) as -> by congruence.
    split_and!; [done|apply pending_set_of; unfold i32_range; lia|]. unfold pending_set. by fields_apart.
  - destruct (He Ho) as [? Hne]. right; right; left. split_and!; [lia| |by eexists|by apply pending_set_of|].
    + intros ->. congruence.
    + unfold pending_set. by fields_apart.
  - destruct (He Ho) as [? Hne]. right; right; right. rewrite Hst in Hne. apply status_value_inj in Hne.
    split_and!; [lia|done|done| | |]; unfold triggered_mem, set_status; fields_apart; [|done..].
    unfold pending_of. fields_apart. fold (pending_of (pending_set m v 0) v). by apply pending_set_of.
Qed.

Lemma peer_after_turn P mem mem' m0 m1 p now r l1 l c st (failed : Prop) :
  activation_at P mem (pa_mapping p) st → pending_of mem (record_of (pa_mapping p)) = c →
  peer_spec P m0 p now r m1 l1 → same_record p mem m0 → same_record p m1 mem' → l1 ⊆ l →
  ((∃ e, r = Err e) → failed) → peer_after p now c st mem' l failed.
Proof.
  intros Hact Hc Hp Hs0 Hs1 Hl Hfail. destruct Hact as [Hown Hnull Hsize Halign Hver Hst].
  set (v := record_of (pa_mapping p)) in *. assert (view_ok v) as Hv by done.
  specialize (Hs0 Hv). specialize (Hs1 Hv). fold v in Hs0, Hs1.
  assert (pending_of m0 v = c) as Hc0 by (unfold pending_of in *; rewrite Hs0; [done|in_fields]).
  assert (field m0 v abi.STATUS 4 = status_value st) as Hst0 by (rewrite Hs0; [done|in_fields]).
  assert (pending_of mem' v = pending_of m1 v) as Hc1 by (unfold pending_of; rewrite Hs1; [done|in_fields]).
  assert (field mem' v abi.STATUS 4 = field m1 v abi.STATUS 4) as Hst1 by (apply Hs1; in_fields).
  assert (field mem' v abi.SIGNAL_TIME 8 = field m1 v abi.SIGNAL_TIME 8) as Hsig1 by (apply Hs1; in_fields).
  assert (∃ rt lt, trigger_spec P m0 v now rt m1 lt ∧ ((∃ e, rt = Err e) → failed) ∧
    (rt = Ok PeerTriggered → EvSignal (pa_signal p) 1 ∈ l ∨ failed)) as (rt & lt & Ht & Hrt & Htrig).
  { destruct Hp as [e Hu|e m1 l1 _ Ht|n m1 l1 _ Ht|m1 l1 _ Ht|e m1 l1 _ Ht];
      [|(do 2 eexists; split; [exact Ht|])..].
    - exfalso. apply Hu; [done..|]. by rewrite <- Hver; apply Hs0; in_fields.
    - split; [|done]. intros _. apply Hfail. by eexists.
    - by split; [intros [? ?]|].
    - split; [by intros [? ?]|]. intros _. left. set_solver.
    - split; [by intros [? ?]|]. intros _. right. apply Hfail. by eexists. }
  destruct (trigger_spec_after P m0 v now rt m1 lt c st Hown Hc0 Hst0 Ht)
    as [(? & ? & ->)|[(? & ? & ?)|[(-> & ? & ? & ? & ?)|(-> & -> & -> & ? & ? & ?)]]].
  all: split; fold v; rewrite ?Hc1, ?Hst1, ?Hsig1; intros; try lia; try done; auto.
Qed.

(** The failure [e] is [node]'s, on the record [mem] holds for it: the count
    was not positive, the peer was not waiting for its last dependency, or it
    became Triggered and could not be signalled. *)
Definition failure_of (P : Own) (mem : Mem) (node : Z) (p : PeerActivation) (e : SessionError) : Prop :=
  (∃ x, e = PeerTrigger node x ∧ ∀ st, activation_at P mem (pa_mapping p) st →
    (pending_of mem (record_of (pa_mapping p)) ≤ 0 ∧ x = InvalidPending (pending_of mem (record_of (pa_mapping p)))) ∨
    (pending_of mem (record_of (pa_mapping p)) = 1 ∧ st ≠ NotTriggered)) ∨
  (∃ x, e = PeerSignal node x ∧ ∀ st, activation_at P mem (pa_mapping p) st →
    pending_of mem (record_of (pa_mapping p)) = 1 ∧ st = NotTriggered).

(** [p] had its turn and nothing went wrong: its count was positive, and if
    this was its last dependency it was waiting and has been signalled. *)
Definition passed (P : Own) (mem : Mem) (l : list Event) (p : PeerActivation) : Prop :=
  ∀ st, activation_at P mem (pa_mapping p) st →
    0 < pending_of mem (record_of (pa_mapping p)) ∧
    (pending_of mem (record_of (pa_mapping p)) = 1 → st = NotTriggered ∧ EvSignal (pa_signal p) 1 ∈ l).

Lemma activation_same P mem m0 p st :
  same_record p mem m0 → activation_at P mem (pa_mapping p) st →
  activation_at P m0 (pa_mapping p) st ∧
  pending_of m0 (record_of (pa_mapping p)) = pending_of mem (record_of (pa_mapping p)).
Proof.
  intros Hs [Hown Hnull Hsize Halign Hver Hst]. assert (view_ok (record_of (pa_mapping p))) as Hv by done.
  specialize (Hs Hv). split; [split; try done|unfold pending_of]; rewrite Hs; [done|in_fields|done|in_fields|done|in_fields].
Qed.

Lemma failure_of_same P mem m0 node p e : same_record p mem m0 → failure_of P m0 node p e → failure_of P mem node p e.
Proof.
  intros Hs [(x & -> & Hx)|(x & -> & Hx)]; [left|right]; exists x; (split; [done|]); intros st Hact;
    destruct (activation_same _ _ _ _ _ Hs Hact) as [Ha Hc]; rewrite <- Hc; by apply Hx.
Qed.

Lemma passed_same P mem m0 l l' p : same_record p mem m0 → l ⊆ l' → passed P m0 l p → passed P mem l' p.
Proof.
  intros Hs Hl Hp st Hact. destruct (activation_same _ _ _ _ _ Hs Hact) as [Ha <-].
  destruct (Hp st Ha) as [? H1]. split; [done|]. intros Hc. destruct (H1 Hc). split; [done|set_solver].
Qed.

(** What the outcome of one turn says of the record it found. *)
Lemma peer_spec_outcome P mem node p now r mem' l :
  peer_spec P mem p now r mem' l →
  match r with Err e => failure_of P mem node p (relabel node e) | Ok _ => passed P mem l p | Panic => False end.
Proof.
  intros Hp. assert (∀ st, activation_at P mem (pa_mapping p) st → owned P (record_of (pa_mapping p)) ∧
    field mem (record_of (pa_mapping p)) abi.STATUS 4 = status_value st) as Hact by (by intros st []).
  destruct Hp as [e Hu|e m1 l1 _ Ht|n m1 l1 _ Ht|m1 l1 _ Ht|e m1 l1 _ Ht].
  - left. eexists. split; [done|]. intros st Ha. by destruct (activation_viewable _ _ _ _ Ha).
  - left. eexists. split; [done|]. intros st Ha. destruct (Hact st Ha) as [Ho Hst].
    inversion Ht as [c Hc Hle| |e' He|]; subst; [left; by rewrite Hc|right].
    destruct (He Ho) as [? Hne]. split; [done|]. intros ->. congruence.
  - intros st Ha. destruct (Hact st Ha) as [Ho Hst]. inversion Ht as [|c Hc Hlt| |]; subst.
    rewrite (Hc Ho). split; [lia|]. intros. lia.
  - intros st Ha. destruct (Hact st Ha) as [Ho Hst]. inversion Ht as [| | |He]; subst.
    destruct (He Ho) as [-> Hne]. split; [lia|]. intros _. rewrite Hst in Hne. apply status_value_inj in Hne.
    split; [done|set_solver].
  - right. eexists. split; [done|]. intros st Ha. destruct (Hact st Ha) as [Ho Hst].
    inversion Ht as [| | |He]; subst. destruct (He Ho) as [-> Hne]. split; [done|].
    rewrite Hst in Hne. by apply status_value_inj in Hne.
Qed.

Lemma peers_spec_kept P now ps first mem out mem' l e :
  peers_spec P now ps first mem out mem' l → first = Some e → out = Some e.
Proof. induction 1 as [|? ? ? ? ? ? ? ? ? ? ? _ _ IH]; [done|]. intros ->. by apply IH. Qed.

(** The error is the first failure, and of the peer it names. *)
Lemma peers_spec_error P now ps mem e mem' l :
  peers_spec P now ps None mem (Some e) mem' l → any_overlap (peer_interval ∘ snd <$> ps) = false →
  ∃ pre node p post, ps = pre ++ (node, p) :: post ∧ failure_of P mem node p e ∧
    Forall (passed P mem l ∘ snd) pre.
Proof.
  remember None as first eqn:Hn. remember (Some e) as out eqn:Ho.
  induction 1 as [|node p ps first mem r m1 l1 out m2 l2 Hp Hps IH]; [congruence|]. subst first out.
  rewrite fmap_cons. intros [Hd Hrest]%any_overlap_cons. pose proof (peer_spec_outcome _ _ node _ _ _ _ _ Hp) as Hout.
  destruct r as [o|e1|]; [| |done].
  - destruct (IH eq_refl eq_refl Hrest) as (pre & n' & p' & post & -> & Hf & Hpre).
    assert (∀ q, q ∈ (pre ++ (n', p') :: post).*2 → same_record q mem m1) as Hsame.
    { intros q [kv [-> Hkv]]%list_elem_of_fmap. eapply same_record_confined; [by eapply confined_peer|].
      unfold disjoint_from in *. rewrite Forall_singleton, overlaps_sym. rewrite Forall_forall in Hd. apply Hd.
      apply list_elem_of_fmap. by exists kv. }
    exists ((node, p) :: pre), n', p', post. split; [done|]. split.
    { eapply failure_of_same; [|done]. apply Hsame. rewrite fmap_app. set_solver. }
    constructor; [eapply passed_same; [apply same_record_refl| |exact Hout]; set_solver|].
    rewrite Forall_forall in Hpre |- *. intros kv Hkv. eapply passed_same; [apply Hsame| |by apply Hpre]; [|set_solver].
    apply list_elem_of_fmap. exists kv. split; [done|]. set_solver.
  - pose proof (peers_spec_kept _ _ _ _ _ _ _ _ _ Hps eq_refl) as [= ->].
    exists [], node, p, ps. split_and!; [done|done|constructor].
Qed.

(** ** Properties *)

(** C24: Every peer has its turn. When no two peers' records overlap, each
    peer whose record nobody else writes has its dependency count lowered by
    one, in whatever order and whichever of the others fail; a peer whose
    last dependency this was becomes Triggered with the signal time and its
    eventfd is signalled, or the call fails; a count that is not positive, or
    a peer that was not waiting, makes the call fail as well, and no status is
    changed. The error is that of the first peer, in the order of node ids,
    that failed, and names it: of a peer whose record nobody else writes, a
    trigger error says that its count was not positive (and gives the count)
    or that it was not waiting, a signal error that it had become Triggered;
    and for every such peer before it nothing went wrong. *)
Theorem peers_all_triggered {K} `{EventSys K} (ps : PeerMap) (now : Z) (w : World K) (P : Own) (mem : Mem) :
  tracks P mem w → any_overlap (peer_intervals ps) = false →
  let '(w', r) := trigger_all ps now w in
  total r ∧
  ∃ mem' l, tracks P mem' w' ∧ w_log w' = w_log w ++ l ∧
    (∀ node p st, ps !! node = Some p → activation_at P mem (pa_mapping p) st →
      peer_after p now (pending_of mem (record_of (pa_mapping p))) st mem' l (∃ e, r = Err e)) ∧
    ∀ e, r = Err e → ∃ pre node p post,
      in_order ps = pre ++ (node, p) :: post ∧ failure_of P mem node p e ∧
      Forall (λ kv, passed P mem l kv.2) pre.
Proof.
  intros Hw Hd. destruct (steps_trigger_all P mem ps now w Hw) as (_ & _ & mem' & l & Htr & Hl & out & Hr & Hps).
  destruct (trigger_all ps now w) as [w' r]. simpl in *.
  assert (∀ node p, ps !! node = Some p ↔ (node, p) ∈ in_order ps) as Hin
    by (intros; by rewrite in_order_perm, elem_of_map_to_list).
  split; [by destruct out; subst r|]. exists mem', l. split_and!; [done|done| |].
  - intros node p st Hp%Hin Hact.
    destruct (peers_spec_turn _ _ _ _ _ _ _ _ Hps Hd) as [_ Hturn].
    destruct (Hturn node p Hp) as (m0 & r' & m1 & l1 & Hspec & Hs0 & Hs1 & Hl1 & Hfail).
    eapply peer_after_turn; [done|done|exact Hspec|done..|].
    intros Hx%Hfail. destruct Hx as [e ->]. by exists e.
  - intros e Herr. destruct out as [e'|]; [|congruence]. assert (e' = e) as -> by congruence.
    exact (peers_spec_error _ _ _ _ _ _ _ Hps Hd).
Qed.

Definition sample_peer : PeerActivation := mkPeer 9 3 22 (mkKey 5 5) (sample.map_at 5 2312).
Lemma peers_all_triggered_witness :
  let '(w, r) := trigger_all {[9 := sample_peer]} 200 sample.triggered_world in
  r = Ok tt ∧ ∃ mem l, tracks (λ _ _, True) mem w ∧ w_log w = l ∧ EvSignal 22 1 ∈ l ∧
    field mem (as_mut_ptr (sample.map_at 5 2312)) abi.STATUS 4 = 1.
Proof.
  assert (tracks (λ _ _, True) sample.triggered sample.triggered_world) as Hw by (split; [constructor|by intros]).
  assert (any_overlap (peer_intervals {[9 := sample_peer]}) = false) as Hd by (by vm_compute).
  pose proof (peers_all_triggered (K:=unit) {[9 := sample_peer]} 200 _ _ _ Hw Hd) as Hp.
  assert ((trigger_all (K:=unit) {[9 := sample_peer]} 200 sample.triggered_world).2 = Ok tt) as Hr by (by vm_compute).
  destruct (trigger_all _ _ _) as [w r]. simpl in Hr. subst r. split; [done|].
  destruct Hp as (_ & mem & l & Htr & Hl & Hp & _). exists mem, l. split; [done|]. split; [done|].
  assert (activation_at (λ _ _, True) sample.triggered (pa_mapping sample_peer) NotTriggered) as Hact
    by (split; [exact (λ _ _, I)|by vm_compute..]).
  destruct (Hp 9 sample_peer NotTriggered (lookup_singleton_eq 9 sample_peer) Hact) as [_ _ _ _ Ht].
  destruct Ht as (? & _ & [?|[? ?]]); [by vm_compute|done|by split|done].
Defined.

(** ** Removed memory *)

(** The regions a session has mapped. *)
Definition session_mappings (s : ClientNodeSession) : list MemoryMapping :=
  opt_list (λ t, [tg_activation t]) (transport s) ++
  opt_list (λ g, og_io g :: concat ((λ b, [bb_metadata b; bb_media b]) <$> og_buffers g)) (output s) ++
  (pa_mapping ∘ snd <$> map_to_list (peers s)).

(** Nothing the session records is of memory [key]. *)
Record free_of (key : MemoryKey) (s : ClientNodeSession) : Prop := {
  fo_transport : ∀ t, transport s = Some t → tg_activation_key t ≠ key;
  fo_output : ∀ g, output s = Some g → depends_on g key = false;
  fo_peers : map_Forall (λ _ p, pa_key p ≠ key) (peers s);
  fo_leases : map_Forall (λ _ l, lease_key l ≠ key) (available_memory s);
}.

Lemma free_of_mappings key s :
  session_inv s → free_of key s → Forall (λ m, mapping_key m ≠ key) (session_mappings s).
Proof.
  intros Hi [Ht Ho Hp _]. unfold session_mappings. rewrite !Forall_app. split_and!.
  - destruct (transport s) as [t|] eqn:Hs; simpl; [|done]. constructor; [|done].
    destruct (si_transport s Hi t Hs) as [Hok _]. rewrite Hok. by apply Ht.
  - destruct (output s) as [g|] eqn:Hs; simpl; [|done].
    destruct (si_output s Hi g Hs) as [[Hk _ Hb _] _]. specialize (Ho g eq_refl). unfold depends_on in Ho.
    apply orb_false_iff in Ho as [Hio Hbs]. apply bool_decide_eq_false in Hio. constructor; [congruence|].
    apply Forall_concat, Forall_fmap, Forall_forall. intros b Hin. rewrite Forall_forall in Hb.
    destruct (Hb b Hin) as [Hm Hd _ _].
    assert (bb_metadata_key b ≠ key ∧ bb_media_key b ≠ key) as [? ?].
    { apply not_true_iff_false in Hbs. rewrite existsb_exists in Hbs.
      split; intros Heq; apply Hbs; exists b; (split; [by apply list_elem_of_In|]);
        rewrite ?orb_true_iff, ?bool_decide_eq_true; auto. }
    simpl. repeat constructor; congruence.
  - apply Forall_fmap, Forall_forall. intros [n p] Hin%elem_of_map_to_list.
    destruct (si_peers s Hi n p Hin) as (_ & Hok & _). unfold compose. simpl. rewrite Hok. by eapply Hp.
Qed.

Section remove.
Context {K : Type} `{EventSys K, OutputProcess K} (kernel : Kernel) (key : MemoryKey).
Implicit Types s : ClientNodeSession.
Notation ok r := (∃ a, r = Ok a).

Lemma oq_and {E A} s (m : SM (ClientNodeSession * World K) E A) Q Q' :
  oq s m Q → oq s m Q' → oq s m (λ r s', Q r s' ∧ Q' r s').
Proof. intros Hq Hq' w. destruct (Hq w) as (? & ? & ?), (Hq' w) as (_ & _ & ?). auto. Qed.

Lemma free_set_state x s : free_of key s → free_of key (set_state x s).
Proof. by intros []. Qed.

Lemma removed_peers_free (ps : PeerMap) : map_Forall (λ _ p, pa_key p ≠ key) (peers_remove_memory ps key).
Proof. intros n p Hp. by apply map_lookup_filter_Some in Hp as [_ ?]. Qed.

Lemma oq_remove_memory s :
  map_Forall (λ _ l, lease_key l ≠ key) (available_memory s) →
  oq (K:=K) s (remove_memory key) (λ r s', ok r → free_of key s').
Proof.
  intros Hl. apply oq_bind, oq_gets. apply oq_bind.
  set (Q1 := λ (r : Res SessionError unit) s', ok r →
    map_Forall (λ _ l, lease_key l ≠ key) (available_memory s') ∧ ∀ t, transport s' = Some t → tg_activation_key t ≠ key).
  apply (oq_mono _ _ Q1).
  { destruct (transport s) as [t|] eqn:Ht; [case_bool_decide as Hk|].
    - apply oq_bind, oq_stop; [by intros e [? ?]|]. intros x _. apply oq_assign_transport. by intros _.
    - apply oq_ret. intros _. split; [done|]. intros t' Ht'. congruence.
    - apply oq_ret. intros _. split; [done|]. intros t' Ht'. congruence. }
  intros [[]|e|] s1 H1; [|by intros [? ?]..]. destruct (H1 ltac:(by eexists)) as [Hl1 Ht1]. clear H1 Q1.
  apply oq_bind, oq_gets. apply oq_bind.
  set (Q2 := λ (r : Res SessionError unit) s', ok r →
    map_Forall (λ _ l, lease_key l ≠ key) (available_memory s') ∧
    (∀ t, transport s' = Some t → tg_activation_key t ≠ key) ∧ ∀ g, output s' = Some g → depends_on g key = false).
  apply (oq_mono _ _ Q2).
  { destruct (output s1) as [g|] eqn:Hg; [destruct (depends_on g key) eqn:Hk|].
    - apply oq_bind, oq_stop; [by intros e [? ?]|]. intros x _. by apply oq_modify.
    - apply oq_ret. intros _. split_and!; [done..|]. intros g' Hg'. congruence.
    - apply oq_ret. intros _. split_and!; [done..|]. intros g' Hg'. congruence. }
  intros [[]|e|] s2 H2; [|by intros [? ?]..]. destruct (H2 ltac:(by eexists)) as (? & ? & ?).
  apply oq_modify. intros _. split; try done. apply removed_peers_free.
Qed.

Lemma oq_apply_remove s :
  session_inv s → oq (K:=K) s (apply kernel (RemoveMemory key)) (λ r s', ok r → free_of key s').
Proof.
  intros Hi. apply oq_bind, oq_gets. unfold id. case_bool_decide; [apply oq_throw; by intros [? ?]|].
  case_bool_decide; [apply oq_throw; by intros [? ?]|]. apply oq_bind, oq_bind, oq_modify. apply oq_bind.
  eapply oq_mono; [apply oq_remove_memory|].
  { pose proof (si_leases s Hi) as Hl. intros id l. destruct (available_memory s !! k_id key) as [l0|] eqn:Hk0.
    - case_bool_decide as Hkey; simpl.
      + rewrite lookup_delete_Some. intros [Hne Hid] Heq. specialize (Hl id l Hid). simpl in Hl. congruence.
      + intros Hid Heq. specialize (Hl id l Hid). simpl in Hl. congruence.
    - intros Hid Heq. specialize (Hl id l Hid). simpl in Hl. congruence. }
  intros [[]|e|] s1 Hf1; [|by intros [? ?]..]. specialize (Hf1 ltac:(by eexists)).
  apply oq_ret, oq_bind, oq_modify. set (s2 := match state s1 with Running => _ | _ => _ end).
  assert (free_of key s2) as Hf2 by (subst s2; destruct (state s1); try done; by apply free_set_state).
  apply oq_bind, oq_gets. apply oq_bind. apply (oq_mono _ _ (λ r s', ok r → free_of key s')).
  { destruct (_ && _); [|by apply oq_ret].
    apply oq_ensure_running; intros; try done; by apply free_set_state. }
  intros [[]|e|] s3 Hf3; [|by intros [? ?]..]. apply oq_ret. intros _. apply Hf3. by eexists.
Qed.
End remove.

(** C25: Removed memory is let go of. When a RemoveMemory command succeeds,
    the session has no region of that memory mapped any more, in its
    transport, its output or a peer, and no lease of it either. *)
Theorem removed_memory_released {K} `{EventSys K, OutputProcess K} (kernel : Kernel) (key : MemoryKey)
    (s : ClientNodeSession) (w : World K) :
  session_inv s →
  let '(s', w', r) := apply kernel (RemoveMemory key) (s, w) in
  session_inv s' ∧ ((∃ a, r = Ok a) → Forall (λ m, mapping_key m ≠ key) (session_mappings s') ∧
    map_Forall (λ _ l, lease_key l ≠ key) (available_memory s')).
Proof.
  intros Hi. pose proof (oq_and s _ _ _ (keeps_apply (K:=K) kernel s (RemoveMemory key) Hi I)
    (oq_apply_remove kernel key s Hi) w) as (_ & _ & Hq).
  destruct (apply kernel (RemoveMemory key) (s, w)) as [[s' w'] r]. destruct Hq as [[_ Hi'] Hf].
  split; [done|]. intros Hr. specialize (Hf Hr). split; [by apply free_of_mappings|apply Hf].
Qed.

Lemma removed_memory_released_witness :
  let '(s, w, r) := apply (K:=unit) sample.kernel (RemoveMemory (mkKey 3 3)) (sample.running, sample.triggered_world) in
  r = Ok Applied ∧ output s = None ∧ Forall (λ m, mapping_key m ≠ mkKey 3 3) (session_mappings s).
Proof.
  pose proof (removed_memory_released (K:=unit) sample.kernel (mkKey 3 3) sample.running sample.triggered_world
    sample.running_inv) as Hr.
  assert ((apply (K:=unit) sample.kernel (RemoveMemory (mkKey 3 3)) (sample.running, sample.triggered_world)).2
    = Ok Applied) as Hok by (by vm_compute).
  assert (output (apply (K:=unit) sample.kernel (RemoveMemory (mkKey 3 3)) (sample.running, sample.triggered_world)).1.1
    = None) as Ho by (by vm_compute).
  destruct (apply _ _ _) as [[s w] r]. simpl in *. subst r. destruct Hr as [_ Hr].
  split_and!; [done..|]. apply Hr. by exists Applied.
Defined.

(** ** Commands while a cycle is pending *)

Lemma steps_transport_status {K} P mem t st (Q : Res SessionError ActivationStatus → Mem → list Event → Prop) :
  activation_at P mem (tg_activation t) st → Q (Ok st) mem [] → steps (K:=K) P mem (transport_status t) Q.
Proof.
  intros Hact HQ. apply steps_bind, steps_view_of; [by intros e Hu; destruct (activation_viewable _ _ _ _ Hact)|].
  intros Hv. apply steps_map_err, steps_status; [done|]. intros r _ Hr. destruct Hact as [Hown _ _ _ _ Hst].
  rewrite Hr, Hst, activation_status_value by done. done.
Qed.

(** A started session that is running, with a cycle that has begun and not
    finished. *)
Record cycle_pending {K} (P : Own) (mem : Mem) (s : ClientNodeSession) (w : World K) : Prop := {
  cp_running : state s = Running;
  cp_active : active_requested s = true;
  cp_start : command s = CmdStart;
  cp_ready : is_ready s = true;
  cp_tracks : tracks P mem w;
  cp_status : ∃ t st, transport s = Some t ∧ activation_at P mem (tg_activation t) st ∧
    st ∈ [NotTriggered; Triggered; Awake];
}.

(** What follows the command's own effect: the check of the activation. *)
Lemma steps_recheck {K} `{EventSys K, OutputProcess K} P mem (s : ClientNodeSession) (w : World K) (o : ApplyOutcome) :
  cycle_pending P mem s w →
  osteps (K:=K) P mem s
    (refresh_state;;
     s ← gets id;
     (if active_requested s && bool_decide (command s = CmdStart) && is_ready s then ensure_running else mret tt);;
     mret o) (λ r s' mem' l, r = Err (InvalidTransition "Start activation status") ∧ s' = s ∧ l = []).
Proof.
  intros [Hrun Hact Hcmd Hready _ (t & st & Ht & Hst & Hpend)].
  apply osteps_bind, osteps_modify. rewrite Hrun.
  apply osteps_bind, osteps_gets. unfold id. rewrite Hact, Hcmd, Hready. simpl. apply osteps_bind.
  apply osteps_bind, osteps_gets. apply osteps_bind, osteps_gets. rewrite Hact, Hcmd. simpl.
  apply osteps_bind, osteps_gets. rewrite Hready. simpl.
  apply osteps_bind, osteps_gets. rewrite Ht. apply osteps_bind, osteps_ret.
  apply osteps_bind, osteps_world. eapply steps_transport_status; [done|].
  assert (st = NotTriggered ∨ st = Triggered ∨ st = Awake) as [->|[->| ->]] by set_solver; by apply osteps_bind, osteps_throw.
Qed.

(** C40: A command that leaves a cycle pending is applied and then refused.
    Whatever the command, if its own effect succeeds and leaves the session
    started, running and ready with its activation NotTriggered, Triggered or
    Awake, that effect stays and the call ends in the error "Start activation status":
    the check that a start finds the activation idle is repeated after every
    such command. In particular the removal of a peer while a cycle is
    pending removes the peer and fails. (Commands that stop the session or
    make it not ready are not followed by the check.) *)
Theorem pending_cycle_refuses {K} `{EventSys K, OutputProcess K} (kernel : Kernel) (P : Own) (mem : Mem)
    (s : ClientNodeSession) (w : World K) :
  (∀ c s1 w1 o, state s ≠ DisconnectedState → state s ≠ CycleClaimed →
    apply_command kernel c (s, w) = (s1, w1, Ok o) → cycle_pending P mem s1 w1 →
    let '(s', w', r) := apply kernel c (s, w) in
    r = Err (InvalidTransition "Start activation status") ∧ s' = s1 ∧ w_log w' = w_log w1) ∧
  (∀ node, session_inv s → cycle_pending P mem s w →
    let '(s', w', r) := apply kernel (RemovePeerActivation node) (s, w) in
    r = Err (InvalidTransition "Start activation status") ∧
    s' = set_peers (delete node (peers s)) (set_pending_peers (delete node (pending_peers s)) s) ∧
    w_log w' = w_log w).
Proof.
  assert (∀ c s1 w1 o, state s ≠ DisconnectedState → state s ≠ CycleClaimed →
    apply_command kernel c (s, w) = (s1, w1, Ok o) → cycle_pending P mem s1 w1 →
    let '(s', w', r) := apply kernel c (s, w) in
    r = Err (InvalidTransition "Start activation status") ∧ s' = s1 ∧ w_log w' = w_log w1) as Hgen.
  { intros c s1 w1 o Hd Hc Ha Hp. pose proof (steps_recheck P mem s1 w1 o Hp w1 (cp_tracks _ _ _ _ Hp)) as Hr.
    assert (apply kernel c (s, w) = (refresh_state;; s ← gets id;
      (if active_requested s && bool_decide (command s = CmdStart) && is_ready s then ensure_running else mret tt);;
      mret o) (s1, w1)) as ->.
    { unfold apply, gets, mbind at 1, sm_bind at 1, id at 1. simpl. rewrite !bool_decide_eq_false_2 by done.
      unfold mbind at 1, sm_bind at 1. by rewrite Ha. }
    match type of Hr with let '_ := ?x in _ => destruct x as [[s' w'] r] end. destruct Hr as (_ & _ & mem' & l & _ & Hl & -> & -> & ->).
    by rewrite Hl, app_nil_r. }
  split; [exact Hgen|]. intros node Hi Hp. pose proof (cp_running _ _ _ _ Hp) as Hrun.
  eapply (Hgen _ _ w); [by rewrite Hrun..|reflexivity|].
  destruct Hp as [H1 H2 H3 H4 H5 H6]. by split; try done; apply (si_running s Hi).
Qed.

Lemma pending_cycle_refuses_witness :
  (apply (K:=unit) sample.kernel (RemovePeerActivation 9) (sample.running, sample.triggered_world)).2
  = Err (InvalidTransition "Start activation status").
Proof.
  assert (activation_at (λ _ _, True) sample.triggered (tg_activation sample.transport_of) Triggered) as Hact
    by (split; [exact (λ _ _, I)|by vm_compute..]).
  assert (tracks (λ _ _, True) sample.triggered sample.triggered_world) as Hw by (split; [constructor|by intros]).
  assert (cycle_pending (λ _ _, True) sample.triggered sample.running sample.triggered_world) as Hp
    by (split; [by vm_compute..|exact Hw|exists sample.transport_of, Triggered; split_and!; [by vm_compute|exact Hact|set_solver]]).
  destruct (pending_cycle_refuses (K:=unit) sample.kernel (λ _ _, True) sample.triggered sample.running
    sample.triggered_world) as [_ Hr]. specialize (Hr 9 sample.running_inv Hp).
  destruct (apply _ _ _) as [[s w] r]. apply Hr.
Defined.

(** ** Two consequences of the code, on concrete inputs *)

(** A commit can outlive its cycle: [CommittedOutput] is a plain copyable
    value, and publishing checks its buffer id and stride but not its size.
    A callback that answers with a commit it made for an earlier, larger
    plane publishes a chunk of 128 bytes on a plane of 64. *)
Definition stale_commit : CommittedOutput := mkCommitted 0 128 4 0.
Definition stale_app : OutputProcess unit := {| op_process k _ media := (k, media, Ok stale_commit) |}.

Example stale_commit_published :
  let plane := mkPtr 0x7f0000100000 (mkBacking 8 6) 0 128 in
  let earlier := mkCycle (mkOutputBuffer (chunk_ptr sample.buffer_of) plane 128 0) 0 sample.stereo in
  commit earlier 32 = Ok stale_commit ∧
  let '(s, w, r) := on_wake_with_finish (H0:=stale_app) 1 100 (Some 200) (sample.running, sample.triggered_world) in
  r = Ok (Processed 1 0 true) ∧ c_size (chunk_of (w_mem w) (chunk_ptr sample.buffer_of)) = 128 ∧
  mapping_len (bb_media sample.buffer_of) = 64.
Proof. vm_compute. repeat split. Qed.

(** A refused transport has written already: binding one stores the client's
    version, and dropping it sets its activation Inactive, before and after
    the check that its region is nobody else's. A transport descriptor that
    names the peer's memory is refused, and the peer's activation, waiting
    until then, is left Inactive. *)
Example refused_transport_writes :
  let d := mkTransportDescriptor 30 31 (mkSessionRegion 5 0 2312) in
  let '(s, w, r) := apply sample.kernel (ReplaceTransport d) (sample.running, sample.triggered_world) in
  r = Err (InvalidTransition "overlapping generation mappings") ∧
  field sample.triggered sample.peer abi.STATUS 4 = status_value NotTriggered ∧
  field (w_mem w) sample.peer abi.STATUS 4 = status_value Inactive.
Proof. vm_compute. repeat split. Qed.
