(* ===== verification/HookList.v ===== *)
(** * Hook lists

    Models [spa/src/hook.rs]: lists of callbacks that are emitted from any
    thread, recursively from inside a callback, while hooks are added and
    removed. Every operation runs under the list's mutex, so the operations
    are functions on the list, and an execution of several threads is a
    sequence of steps, one per locked section, with the callbacks' own code
    and the condition variable between them. *)

From stdpp Require Import relations functions.
From S2P Require Import Prelude.
#[local] Open Scope Z_scope.

Section hook_list.
Context {T : Type}.

(** ** The list *)
Record Hook := mkHook { h_id : Z; callbacks : option T }.
Record HookList := mkHookList {
  hooks : list Hook;
  next_id : Z;
  emission_owner : option Z;
  emission_depth : Z;
  (* of the mutex around the list *)
  poisoned : bool;
}.
Notation HookRes := (Res Empty_set).

Definition HookList_new : HookList := mkHookList [] 0 None 0 false.

(** Insertion; [next_id += 1] panics on overflow, as a debug build does: the
    hook is in the list by then, the id is not advanced, and the mutex, which
    the caller holds, is poisoned. *)
Definition insert_with (place : Hook → list Hook) (l : HookList) (cb : T) : HookList * HookRes Z :=
  let id := next_id l in
  let hs := place (mkHook id (Some cb)) in
  match checked_add 32 id 1 with
  | None => (mkHookList hs id (emission_owner l) (emission_depth l) true, Panic)
  | Some next => (mkHookList hs next (emission_owner l) (emission_depth l) (poisoned l), Ok id)
  end.
Definition prepend (l : HookList) (cb : T) : HookList * HookRes Z :=
  insert_with (λ h, h :: hooks l) l cb.
Definition append (l : HookList) (cb : T) : HookList * HookRes Z :=
  insert_with (λ h, hooks l ++ [h]) l cb.

(** [iter().find(|hook| hook.id == id)], and what is done with the hook. *)
Fixpoint find_hook (id : Z) (hs : list Hook) : option Hook :=
  match hs with
  | [] => None
  | h :: hs => if bool_decide (h_id h = id) then Some h else find_hook id hs
  end.
Fixpoint update_hook (id : Z) (cb : option T) (hs : list Hook) : list Hook :=
  match hs with
  | [] => []
  | h :: hs => if bool_decide (h_id h = id) then mkHook (h_id h) cb :: hs else h :: update_hook id cb hs
  end.
Fixpoint extract_hook (id : Z) (hs : list Hook) : list Hook :=
  match hs with
  | [] => []
  | h :: hs => if bool_decide (h_id h = id) then hs else h :: extract_hook id hs
  end.
Definition with_hooks (hs : list Hook) (l : HookList) : HookList :=
  mkHookList hs (next_id l) (emission_owner l) (emission_depth l) (poisoned l).

Definition remove (l : HookList) (id : Z) : HookList * option T :=
  (with_hooks (extract_hook id (hooks l)) l, h ← find_hook id (hooks l); callbacks h).

(** ** Emission *)

(** One turn of the loop of [begin_dispatch] by thread [t]: the list it
    enters with, or [None] if it has to wait. The depth counts frames of
    [t]'s stack, so that its increment cannot overflow. *)
Definition begin_dispatch (l : HookList) (t : Z) : option HookList :=
  match emission_owner l with
  | None => Some (mkHookList (hooks l) (next_id l) (Some t) 1 (poisoned l))
  | Some owner =>
      if bool_decide (owner = t)
      then Some (mkHookList (hooks l) (next_id l) (Some owner) (emission_depth l + 1) (poisoned l))
      else None
  end.

Definition dispatch_ids (l : HookList) : list Z := h_id <$> hooks l.

Definition dispatch (l : HookList) (id : Z) : HookList * option T :=
  match h ← find_hook id (hooks l); callbacks h with
  | Some cb => (with_hooks (update_hook id None (hooks l)) l, Some cb)
  | None => (l, None)
  end.

(** [Drop for HookDispatch] *)
Definition dispatch_drop (l : HookList) (id : Z) (cb : T) : HookList :=
  with_hooks (update_hook id (Some cb) (hooks l)) l.

(** [Drop for HookEmission]: also whether it notifies a waiter. *)
Definition emission_drop (l : HookList) : HookRes (HookList * bool) :=
  depth ← usize_sub (emission_depth l) 1;
  Ok (if bool_decide (depth = 0)
      then (mkHookList (hooks l) (next_id l) None depth (poisoned l), true)
      else (mkHookList (hooks l) (next_id l) (emission_owner l) depth (poisoned l), false)).

(** ** Threads

    An [emit_hook!] in progress: the ids still to visit ([None] before the
    snapshot is taken) and the callbacks it has out. *)
Record Frame := mkFrame { f_ids : option (list Z); f_active : option (Z * T) }.
Inductive TState :=
| Active (fs : list Frame)
| Blocked (fs : list Frame)
| Woken (fs : list Frame)
(* inside the application's code, until thread [u] is through with its own *)
| Joining (u : Z) (fs : list Frame).
Record System := mkSystem { s_list : HookList; s_threads : Z → TState }.

Definition frames (s : TState) : list Frame := match s with Active fs | Blocked fs | Woken fs | Joining _ fs => fs end.

(** Code of the user: outside any emission, or inside a callback. *)
Definition in_user_code (fs : list Frame) : Prop :=
  match fs with [] => True | f :: _ => is_Some (f_active f) end.

(** [notify_one]: some waiting thread is woken, if there is one. *)
Inductive notify (ts : Z → TState) : (Z → TState) → Prop :=
| notify_some t fs : ts t = Blocked fs → notify ts (<[t := Woken fs]> ts)
| notify_none : (∀ t fs, ts t ≠ Blocked fs) → notify ts ts.

Definition set_thread (t : Z) (st : TState) (ts : Z → TState) : Z → TState := <[t := st]> ts.

(** Steps of thread [t]. *)
Inductive hstep (t : Z) : System → System → Prop :=
| h_insert l ts fs place cb l' r :
    (* under [lock().unwrap()], which lets nobody in once it is poisoned *)
    ts t = Active fs → in_user_code fs → poisoned l = false → place = prepend ∨ place = append →
    place l cb = (l', r) →
    hstep t (mkSystem l ts) (mkSystem l' ts)
| h_remove l ts fs id :
    ts t = Active fs → in_user_code fs → hstep t (mkSystem l ts) (mkSystem (remove l id).1 ts)
| h_begin l ts st l' :
    ts t = st → (∃ fs, st = Active fs ∧ in_user_code fs) ∨ (∃ fs, st = Woken fs) → begin_dispatch l t = Some l' →
    hstep t (mkSystem l ts) (mkSystem l' (set_thread t (Active (mkFrame None None :: frames st)) ts))
| h_wait l ts st :
    ts t = st → (∃ fs, st = Active fs ∧ in_user_code fs) ∨ (∃ fs, st = Woken fs) → begin_dispatch l t = None →
    hstep t (mkSystem l ts) (mkSystem l (set_thread t (Blocked (frames st)) ts))
| h_spurious l ts fs :
    ts t = Blocked fs → hstep t (mkSystem l ts) (mkSystem l (set_thread t (Woken fs) ts))
| h_snapshot l ts fs :
    ts t = Active (mkFrame None None :: fs) →
    hstep t (mkSystem l ts) (mkSystem l (set_thread t (Active (mkFrame (Some (dispatch_ids l)) None :: fs)) ts))
| h_dispatch l ts id ids fs l' cb :
    ts t = Active (mkFrame (Some (id :: ids)) None :: fs) → dispatch l id = (l', Some cb) →
    hstep t (mkSystem l ts) (mkSystem l' (set_thread t (Active (mkFrame (Some ids) (Some (id, cb)) :: fs)) ts))
| h_skip l ts id ids fs l' :
    ts t = Active (mkFrame (Some (id :: ids)) None :: fs) → dispatch l id = (l', None) →
    hstep t (mkSystem l ts) (mkSystem l' (set_thread t (Active (mkFrame (Some ids) None :: fs)) ts))
| h_call l ts ids id cb cb' fs :
    (* a callback's method runs and may change what it captured *)
    ts t = Active (mkFrame (Some ids) (Some (id, cb)) :: fs) →
    hstep t (mkSystem l ts) (mkSystem l (set_thread t (Active (mkFrame (Some ids) (Some (id, cb')) :: fs)) ts))
| h_panic l ts ids a fs :
    (* a callback panics: the loop is left *)
    ts t = Active (mkFrame (Some ids) (Some a) :: fs) →
    hstep t (mkSystem l ts) (mkSystem l (set_thread t (Active (mkFrame (Some []) (Some a) :: fs)) ts))
| h_join l ts fs u :
    (* the application waits for another thread *)
    ts t = Active fs → in_user_code fs → u ≠ t →
    hstep t (mkSystem l ts) (mkSystem l (set_thread t (Joining u fs) ts))
| h_joined l ts u fs :
    ts t = Joining u fs → ts u = Active [] →
    hstep t (mkSystem l ts) (mkSystem l (set_thread t (Active fs) ts))
| h_return l ts ids id cb fs :
    ts t = Active (mkFrame ids (Some (id, cb)) :: fs) →
    hstep t (mkSystem l ts)
      (mkSystem (dispatch_drop l id cb) (set_thread t (Active (mkFrame ids None :: fs)) ts))
| h_end l ts fs l' wake ts' :
    ts t = Active (mkFrame (Some []) None :: fs) → emission_drop l = Ok (l', wake) →
    (if wake then notify (set_thread t (Active fs) ts) ts' else ts' = set_thread t (Active fs) ts) →
    hstep t (mkSystem l ts) (mkSystem l' ts').

Definition initial : System := mkSystem HookList_new (λ _, Active []).
Definition step (s s' : System) : Prop := ∃ t, hstep t s s'.
Definition reachable (s : System) : Prop := rtc step initial s.
End hook_list.
Arguments Hook : clear implicits.
Arguments HookList : clear implicits.
Arguments Frame : clear implicits.
Arguments TState : clear implicits.
Arguments System : clear implicits.

(** ** Hooks by their ids *)
Section hook_lemmas.
Context {T : Type}.
Implicit Types (hs : list (Hook T)) (l : HookList T).

Lemma update_hook_ids id cb hs : h_id <$> update_hook id cb hs = h_id <$> hs.
Proof. induction hs as [|h hs IH]; [done|]. simpl. case_bool_decide; csimpl; [done|by f_equal]. Qed.

Lemma elem_of_ids h hs : h ∈ hs → h_id h ∈ h_id <$> hs.
Proof. intros Hh. apply list_elem_of_fmap. by exists h. Qed.

Lemma elem_of_update id cb hs h :
  NoDup (h_id <$> hs) →
  h ∈ update_hook id cb hs ↔ (h ∈ hs ∧ h_id h ≠ id) ∨ (h = mkHook id cb ∧ id ∈ h_id <$> hs).
Proof.
  induction hs as [|g hs IH]; csimpl; [set_solver|]. intros [Hg Hn]%NoDup_cons.
  case_bool_decide as Hid.
  - subst id. rewrite !elem_of_cons. split.
    + intros [->|Hh]; [right; auto|]. left. split; [by right|]. intros Heq. apply Hg. rewrite <- Heq. by apply elem_of_ids.
    + intros [[[->|?] ?]|[-> _]]; auto. done.
  - rewrite !elem_of_cons, IH by done. naive_solver.
Qed.

Lemma elem_of_extract id hs h :
  NoDup (h_id <$> hs) → h ∈ extract_hook id hs ↔ h ∈ hs ∧ h_id h ≠ id.
Proof.
  induction hs as [|g hs IH]; csimpl; [set_solver|]. intros [Hg Hn]%NoDup_cons.
  case_bool_decide as Hid.
  - subst id. rewrite elem_of_cons. split; [|naive_solver].
    intros Hh. split; [by right|]. intros Heq. apply Hg. rewrite <- Heq. by apply elem_of_ids.
  - rewrite !elem_of_cons, IH by done. naive_solver.
Qed.

Lemma extract_hook_ids id hs : h_id <$> extract_hook id hs `sublist_of` h_id <$> hs.
Proof.
  induction hs as [|g hs IH]; csimpl; [done|]. case_bool_decide; [by apply sublist_cons|by apply sublist_skip].
Qed.

Lemma find_hook_Some id hs h : find_hook id hs = Some h → h ∈ hs ∧ h_id h = id.
Proof.
  induction hs as [|g hs IH]; simpl; [done|]. case_bool_decide; [intros [= ->]; split; [left|done]|].
  intros [? ?]%IH. split; [by right|done].
Qed.
Lemma find_hook_None id hs : find_hook id hs = None → id ∉ h_id <$> hs.
Proof.
  induction hs as [|g hs IH]; csimpl; [set_solver|]. case_bool_decide; [done|]. intros Hn%IH. set_solver.
Qed.
End hook_lemmas.

(** ** The invariant *)
Section invariant.
Context {T : Type}.
Implicit Types (l : HookList T) (fs : list (Frame T)) (ts : Z → TState T).

(** Hooks whose callbacks are out, innermost emission first. *)
Definition active_ids (fs : list (Frame T)) : list Z := omap (λ f, fst <$> f_active f) fs.

(** No id of a hook is this large. *)
Definition id_bound (l : HookList T) : Z := if poisoned l then next_id l + 1 else next_id l.

Record hook_inv (s : System T) : Prop := {
  hi_nodup : NoDup (dispatch_ids (s_list s));
  hi_ids : Forall (λ i, i < id_bound (s_list s)) (dispatch_ids (s_list s));
  (* only the owner emits, and the depth counts its emissions *)
  hi_owner : ∀ t, frames (s_threads s t) ≠ [] → emission_owner (s_list s) = Some t;
  hi_depth : match emission_owner (s_list s) with
             | None => emission_depth (s_list s) = 0
             | Some t => frames (s_threads s t) ≠ [] ∧
                 emission_depth (s_list s) = Z.of_nat (length (frames (s_threads s t)))
             end;
  hi_waiting : ∀ t fs, s_threads s t = Blocked fs ∨ s_threads s t = Woken fs → fs = [];
  (* an outer emission is inside a callback, and has taken its snapshot *)
  hi_nested : ∀ t f fs, frames (s_threads s t) = f :: fs → Forall (λ f, is_Some (f_active f)) fs;
  hi_shape : ∀ t f, f ∈ frames (s_threads s t) → f_ids f = None → f_active f = None;
  (* callbacks are in the list or out in exactly one emission *)
  hi_active : ∀ t, NoDup (active_ids (frames (s_threads s t)));
  hi_fresh : ∀ t, Forall (λ i, i < id_bound (s_list s)) (active_ids (frames (s_threads s t)));
  hi_custody : ∀ h, h ∈ hooks (s_list s) →
    callbacks h = None ↔ ∃ t, h_id h ∈ active_ids (frames (s_threads s t));
  (* nobody waits for an emission that is over *)
  hi_wakeup : emission_owner (s_list s) = None → (∃ t fs, s_threads s t = Blocked fs) →
    ∃ t fs, s_threads s t = Woken fs;
}.

Lemma set_thread_same t st ts : set_thread t st ts t = st.
Proof. unfold set_thread. by rewrite fn_lookup_insert. Qed.
Lemma set_thread_other t t' st ts : t' ≠ t → set_thread t st ts t' = ts t'.
Proof. intros. unfold set_thread. by rewrite fn_lookup_insert_ne. Qed.

Ltac threads t' t := destruct (decide (t' = t)) as [->|];
  [rewrite ?set_thread_same in *|rewrite ?set_thread_other in * by done].

Lemma initial_inv : hook_inv initial.
Proof.
  split; simpl; try done; try (by intros _ (? & ? & [=])); try (intros; constructor);
    try (by intros ? ? [[=]|[=]]); try set_solver.
Qed.

(** The emitting thread replaces its innermost emission. *)
Lemma inv_frame l ts t f f' fs l' :
  hook_inv (mkSystem l ts) → ts t = Active (f :: fs) →
  emission_owner l' = emission_owner l → emission_depth l' = emission_depth l → id_bound l' = id_bound l →
  dispatch_ids l' = dispatch_ids l → (f_ids f' = None → f_active f' = None) →
  NoDup (active_ids (f' :: fs)) → Forall (λ i, i < id_bound l) (active_ids (f' :: fs)) →
  (∀ h, h ∈ hooks l' → callbacks h = None ↔ h_id h ∈ active_ids (f' :: fs)) →
  hook_inv (mkSystem l' (set_thread t (Active (f' :: fs)) ts)).
Proof.
  intros Hi Ht Ho Hd Hn Hids Hshape Hnd Hfr Hcust. destruct Hi as [I1 I2 I3 I4 I5 I6 I7 I8 I9 I10 I11]. simpl in *.
  assert (emission_owner l = Some t) as How by (apply I3; by rewrite Ht).
  assert (∀ t', t' ≠ t → frames (ts t') = []) as Hothers.
  { intros t' Hne. destruct (frames (ts t')) eqn:Hf; [done|]. exfalso. apply Hne. rewrite (I3 t') in How by (by rewrite Hf). congruence. }
  split; simpl; rewrite ?Hids, ?Ho, ?Hd, ?Hn; try done.
  - intros t' Hf. threads t' t; [done|by apply I3].
  - rewrite How in *. rewrite set_thread_same. rewrite Ht in I4. simpl in *. split; [done|]. apply I4.
  - intros t' fs' Hw. threads t' t; [by destruct Hw|by eapply I5].
  - intros t' g gs Hf. threads t' t; [|by eapply I6]. simpl in Hf. simplify_eq. eapply (I6 t). by rewrite Ht.
  - intros t' g Hg. threads t' t; [|by eapply I7]. simpl in Hg. apply elem_of_cons in Hg as [->|Hg]; [done|].
    eapply (I7 t). rewrite Ht. simpl. by right.
  - intros t'. threads t' t; [done|]. by rewrite Hothers by done; constructor.
  - intros t'. threads t' t; [done|]. by rewrite Hothers by done; constructor.
  - intros h Hh. rewrite (Hcust h Hh). split.
    + intros Hin. exists t. by rewrite set_thread_same.
    + intros [t' Hin]. threads t' t; [done|]. rewrite Hothers in Hin by done. set_solver.
  - rewrite How. done.
Qed.

Lemma insert_effect (place : HookList T → T → HookList T * Res Empty_set Z) l cb l' r :
  place = prepend ∨ place = append → place l cb = (l', r) → poisoned l = false →
  hooks l' ≡ₚ mkHook (next_id l) (Some cb) :: hooks l ∧ id_bound l' = next_id l + 1 ∧
  emission_owner l' = emission_owner l ∧ emission_depth l' = emission_depth l.
Proof.
  intros Hplace Hins Hp. unfold id_bound.
  destruct Hplace as [->| ->]; unfold prepend, append, insert_with, checked_add in Hins;
    case_bool_decide; simplify_eq/=; rewrite ?Hp; split_and!; try done; by rewrite Permutation_app_comm.
Qed.

Lemma inv_insert l ts (place : HookList T → T → HookList T * Res Empty_set Z) cb l' r :
  hook_inv (mkSystem l ts) → poisoned l = false → place = prepend ∨ place = append → place l cb = (l', r) →
  hook_inv (mkSystem l' ts).
Proof.
  intros Hi Hp Hplace Hins. destruct (insert_effect _ _ _ _ _ Hplace Hins Hp) as (Hh & Hn & Ho & Hd).
  assert (id_bound l = next_id l) as Hb by (unfold id_bound; by rewrite Hp).
  destruct Hi as [I1 I2 I3 I4 I5 I6 I7 I8 I9 I10 I11]. unfold dispatch_ids in *. simpl in *. rewrite Hb in *.
  assert (∀ i, i < next_id l → i < id_bound l') as Hlt by (intros; lia).
  split; unfold dispatch_ids; simpl; rewrite ?Hh, ?Ho, ?Hd; csimpl; try done.
  - constructor; [|done]. intros Hin. rewrite Forall_forall in I2. specialize (I2 _ Hin). lia.
  - constructor; [lia|]. eapply Forall_impl; [done|]. simpl. auto.
  - intros t. eapply Forall_impl; [apply I9|]. simpl. auto.
  - intros h. rewrite Hh, elem_of_cons. intros [->|Hin]; [|by apply I10]. split; [done|]. simpl. intros [t Hin].
    specialize (I9 t). rewrite Forall_forall in I9. specialize (I9 _ Hin). lia.
Qed.

Lemma inv_remove l ts id : hook_inv (mkSystem l ts) → hook_inv (mkSystem (remove l id).1 ts).
Proof.
  intros [I1 I2 I3 I4 I5 I6 I7 I8 I9 I10 I11]. unfold dispatch_ids in *. simpl in *.
  pose proof (extract_hook_ids id (hooks l)) as Hs.
  split; unfold dispatch_ids; simpl; try done.
  - by eapply sublist_NoDup.
  - rewrite Forall_forall in *. intros i Hin. apply I2. by eapply elem_of_sublist.
  - intros h. rewrite elem_of_extract by done. intros [Hin _]. by apply I10.
Qed.

(** Everybody but the owner is outside. *)
Lemma inv_others l ts t :
  hook_inv (mkSystem l ts) → emission_owner l ≠ Some t → frames (ts t) = [].
Proof. intros Hi Hne. destruct (frames (ts t)) eqn:Hf; [done|]. destruct Hne. apply (hi_owner _ Hi). simpl. by rewrite Hf. Qed.


Lemma inv_others_rest l ts t t' :
  hook_inv (mkSystem l ts) → emission_owner l = Some t → t' ≠ t → frames (ts t') = [].
Proof. intros Hi Ho Hne. apply (inv_others l ts t' Hi). congruence. Qed.

(** A waiting thread, or one in user code, enters. *)
Lemma inv_begin l ts t st l' :
  hook_inv (mkSystem l ts) → ts t = st → (∃ fs, st = Active fs ∧ in_user_code fs) ∨ (∃ fs, st = Woken fs) →
  begin_dispatch l t = Some l' →
  hook_inv (mkSystem l' (set_thread t (Active (mkFrame None None :: frames st)) ts)).
Proof.
  intros Hi Ht Hst Hb.
  assert (hooks l' = hooks l ∧ id_bound l' = id_bound l ∧ emission_owner l' = Some t ∧
    emission_depth l' = Z.of_nat (length (mkFrame (T:=T) None None :: frames st)) ∧
    (∀ t', t' ≠ t → frames (ts t') = [])) as (Hh & Hn & Ho & Hd & Hothers).
  { unfold begin_dispatch in Hb. pose proof (hi_depth _ Hi) as Hdep. simpl in Hdep.
    destruct (emission_owner l) as [o|] eqn:How; [case_bool_decide as Heq; [subst o|done]|]; simplify_eq/=.
    - split_and!; try done; [lia|]. intros t' Hne. exact (inv_others_rest l ts t t' Hi How Hne).
    - rewrite (inv_others l ts t Hi) by congruence. split_and!; try done.
      intros t' Hne. apply (inv_others l ts t' Hi). congruence. }
  destruct Hi as [I1 I2 I3 I4 I5 I6 I7 I8 I9 I10 I11]. unfold dispatch_ids in *. simpl in *.
  split; unfold dispatch_ids; simpl; rewrite ?Hh, ?Hn, ?Ho, ?Hd; try done.
  - intros t' Hf. threads t' t; [done|]. by rewrite Hothers in Hf.
  - by rewrite set_thread_same.
  - intros t' fs Hw. threads t' t; [by destruct Hw|by eapply I5].
  - intros t' f fs Hf. threads t' t; [|by eapply I6]. simpl in Hf. simplify_eq/=.
    destruct (ts t) as [gs|gs|gs|v gs] eqn:Hts; destruct Hst as [(gs' & Hg & Huser)|[gs' Hg]]; simplify_eq/=.
    + destruct gs' as [|g gs]; [done|]. constructor; [done|]. by apply (I6 t g); rewrite Hts.
    + by rewrite (I5 t gs') by auto.
  - intros t' f Hf. threads t' t; [|by eapply I7]. simpl in Hf. apply elem_of_cons in Hf as [->|Hf]; [done|].
    apply (I7 t). by rewrite Ht.
  - intros t'. threads t' t; [|done]. simpl. rewrite <- Ht. apply I8.
  - intros t'. threads t' t; [|done]. simpl. rewrite <- Ht. apply I9.
  - intros h Hin. rewrite (I10 h Hin). split; intros [t' Hin']; exists t'; threads t' t; try done;
      simpl in *; by rewrite Ht in *.
Qed.

Lemma inv_wait l ts t st :
  hook_inv (mkSystem l ts) → ts t = st → begin_dispatch l t = None →
  hook_inv (mkSystem l (set_thread t (Blocked (frames st)) ts)).
Proof.
  intros Hi Ht Hb.
  assert (frames st = [] ∧ is_Some (emission_owner l)) as [Hst [o Ho]].
  { unfold begin_dispatch in Hb. destruct (emission_owner l) as [o|] eqn:How; [|done].
    case_bool_decide; [done|]. rewrite <- Ht. split; [|by eexists]. apply (inv_others l ts t Hi). congruence. }
  destruct Hi as [I1 I2 I3 I4 I5 I6 I7 I8 I9 I10 I11]. simpl in *. rewrite Hst.
  assert (frames (ts t) = []) as Hempty by (by rewrite Ht).
  assert (∀ t', frames (set_thread t (Blocked []) ts t') = frames (ts t')) as Hf by (intros t'; by threads t' t).
  split; simpl; try setoid_rewrite Hf; try done.
  - rewrite Ho in *. by rewrite Hf.
  - intros t' fs Hw. threads t' t; [|by eapply I5]. by destruct Hw; simplify_eq.
  - by rewrite Ho.
Qed.

(** A thread in the application's code begins or ends to wait there. *)
Lemma inv_rest l ts t st st' :
  hook_inv (mkSystem l ts) → ts t = st → frames st' = frames st →
  (∀ fs, st ≠ Woken fs) → (∀ fs, st' ≠ Blocked fs ∧ st' ≠ Woken fs) →
  hook_inv (mkSystem l (set_thread t st' ts)).
Proof.
  intros [I1 I2 I3 I4 I5 I6 I7 I8 I9 I10 I11] Ht Hst Hw Hw'. simpl in *.
  assert (∀ t', frames (set_thread t st' ts t') = frames (ts t')) as Hf
    by (intros t'; threads t' t; [by rewrite Ht, Hst|done]).
  split; simpl; try setoid_rewrite Hf; try done.
  - destruct (emission_owner l) as [o|]; [|done]. by rewrite Hf.
  - intros t' fs Hb. threads t' t; [|by eapply I5]. destruct (Hw' fs). naive_solver.
  - intros Ho (u & fs & Hu). threads u t; [by destruct (Hw' fs)|]. destruct I11 as (v & gs & Hv); [done|by eauto|].
    exists v, gs. rewrite set_thread_other; [done|]. intros ->. by destruct (Hw gs); rewrite <- Ht.
Qed.

Lemma inv_spurious l ts t fs :
  hook_inv (mkSystem l ts) → ts t = Blocked fs → hook_inv (mkSystem l (set_thread t (Woken fs) ts)).
Proof.
  intros [I1 I2 I3 I4 I5 I6 I7 I8 I9 I10 I11] Ht. simpl in *.
  assert (∀ t', frames (set_thread t (Woken fs) ts t') = frames (ts t')) as Hf
    by (intros t'; threads t' t; [by rewrite Ht|done]).
  split; simpl; try setoid_rewrite Hf; try done.
  - destruct (emission_owner l) as [o|]; [|done]. by rewrite Hf.
  - intros t' fs' Hw. threads t' t; [|by eapply I5]. destruct Hw; simplify_eq. apply (I5 t). auto.
  - intros _ _. exists t, fs. by rewrite set_thread_same.
Qed.
(** Leaving an emission inside another one. *)
Lemma inv_leave l ts t f g fs :
  hook_inv (mkSystem l ts) → ts t = Active (f :: g :: fs) → f_active f = None →
  hook_inv (mkSystem (mkHookList (hooks l) (next_id l) (emission_owner l) (emission_depth l - 1) (poisoned l))
    (set_thread t (Active (g :: fs)) ts)).
Proof.
  intros [I1 I2 I3 I4 I5 I6 I7 I8 I9 I10 I11] Ht Hf. unfold dispatch_ids in *. simpl in *.
  assert (emission_owner l = Some t) as How by (apply I3; by rewrite Ht).
  assert (active_ids (frames (ts t)) = active_ids (g :: fs)) as Ha.
  { rewrite Ht. unfold active_ids. csimpl. by rewrite Hf. }
  split; unfold dispatch_ids; simpl; try done.
  - intros t' Hne. threads t' t; [done|by apply I3].
  - rewrite How in *. rewrite set_thread_same. rewrite Ht in I4. simpl in *. split; [done|]. lia.
  - intros t' fs' Hw. threads t' t; [by destruct Hw|by eapply I5].
  - intros t' h hs Hh. threads t' t; [|by eapply I6]. simpl in Hh. simplify_eq.
    specialize (I6 t f (h :: hs)). rewrite Ht in I6. by apply Forall_cons in I6 as [_ ?].
  - intros t' h Hh. threads t' t; [|by eapply I7]. apply (I7 t). rewrite Ht. simpl in *. by right.
  - intros t'. threads t' t; [|done]. cbn [frames]. rewrite <- Ha. apply I8.
  - intros t'. threads t' t; [|done]. cbn [frames]. rewrite <- Ha. apply I9.
  - intros h Hh. rewrite (I10 h Hh). split; intros [t' Hin]; exists t'; threads t' t; try done;
      cbn [frames] in *; congruence.
  - by rewrite How.
Qed.

(** What waking a thread changes. *)
Lemma notify_frames ts ts' t : notify ts ts' → frames (ts' t) = frames (ts t).
Proof.
  intros [t' fs Hb|]; [|done]. destruct (decide (t = t')) as [->|].
  - by rewrite fn_lookup_insert, Hb.
  - by rewrite fn_lookup_insert_ne.
Qed.
Lemma notify_waiting ts ts' t fs :
  notify ts ts' → ts' t = Blocked fs ∨ ts' t = Woken fs → ts t = Blocked fs ∨ ts t = Woken fs.
Proof.
  intros [t' fs' Hb|]; [|done]. destruct (decide (t = t')) as [->|].
  - rewrite fn_lookup_insert. intros [|]; simplify_eq. by left.
  - by rewrite fn_lookup_insert_ne.
Qed.
Lemma notify_woken ts ts' :
  notify ts ts' → (∃ t fs, ts' t = Blocked fs) → ∃ t fs, ts' t = Woken fs.
Proof.
  intros [t fs Hb|Hn] (t' & fs' & Hb'); [|by destruct (Hn t' fs')].
  exists t, fs. by rewrite fn_lookup_insert.
Qed.

(** Leaving the outermost emission. *)
Lemma inv_finish l ts t f ts' :
  hook_inv (mkSystem l ts) → ts t = Active [f] → f_active f = None →
  notify (set_thread t (Active []) ts) ts' →
  hook_inv (mkSystem (mkHookList (hooks l) (next_id l) None 0 (poisoned l)) ts').
Proof.
  intros Hi Ht Hf Hnot. assert (emission_owner l = Some t) as How by (apply (hi_owner _ Hi); simpl; by rewrite Ht).
  assert (∀ t', frames (ts' t') = []) as Hnone.
  { intros t'. rewrite (notify_frames _ _ t' Hnot). threads t' t; [done|]. by eapply inv_others_rest. }
  assert (∀ t', active_ids (frames (ts t')) = []) as Hact.
  { intros t'. destruct (decide (t' = t)) as [->|].
    - rewrite Ht. unfold active_ids. csimpl. by rewrite Hf.
    - by rewrite (inv_others_rest l ts t t'). }
  destruct Hi as [I1 I2 I3 I4 I5 I6 I7 I8 I9 I10 I11]. unfold dispatch_ids in *. simpl in *.
  split; unfold dispatch_ids; simpl; try done; try setoid_rewrite Hnone; try done.
  - intros t' fs Hw. apply (notify_waiting _ _ _ _ Hnot) in Hw. threads t' t; [by destruct Hw|by eapply I5].
  - by intros t' g []%elem_of_nil.
  - intros t'. constructor.
  - intros h Hh. rewrite (I10 h Hh). setoid_rewrite Hact. set_solver.
  - intros _. by apply (notify_woken _ _ Hnot).
Qed.
(** Custody of the callbacks while the owner takes them and gives them back. *)
Lemma custody_of_owner l ts t fs h :
  hook_inv (mkSystem l ts) → ts t = Active fs → fs ≠ [] → h ∈ hooks l →
  callbacks h = None ↔ h_id h ∈ active_ids fs.
Proof.
  intros Hi Ht Hfs Hh. rewrite (hi_custody _ Hi h Hh). simpl.
  assert (emission_owner l = Some t) as How by (apply (hi_owner _ Hi); simpl; by rewrite Ht).
  split.
  - intros [t' Hin]. destruct (decide (t' = t)) as [->|]; [by rewrite Ht in Hin|].
    rewrite (inv_others_rest l ts t t') in Hin by done. set_solver.
  - intros Hin. exists t. by rewrite Ht.
Qed.

Lemma active_ids_take l ts t f fs :
  hook_inv (mkSystem l ts) → ts t = Active (f :: fs) →
  NoDup (active_ids (f :: fs)) ∧ Forall (λ i, i < id_bound l) (active_ids (f :: fs)).
Proof.
  intros Hi Ht. pose proof (hi_active _ Hi t) as H1. pose proof (hi_fresh _ Hi t) as H2.
  simpl in *. by rewrite Ht in *.
Qed.

Lemma inv_dispatch l ts t id ids fs l' r :
  hook_inv (mkSystem l ts) → ts t = Active (mkFrame (Some (id :: ids)) None :: fs) → dispatch l id = (l', r) →
  hook_inv (mkSystem l' (set_thread t (Active (mkFrame (Some ids) (pair id <$> r) :: fs)) ts)).
Proof.
  intros Hi Ht Hd. pose proof (active_ids_take _ _ _ _ _ Hi Ht) as [Hnd Hlt].
  pose proof (λ h, custody_of_owner l ts t _ h Hi Ht ltac:(done)) as Hcust.
  unfold dispatch in Hd. destruct (find_hook id (hooks l)) as [h|] eqn:Hh; simpl in Hd;
    [destruct (callbacks h) as [cb|] eqn:Hcb|]; simplify_eq/=.
  - apply find_hook_Some in Hh as [Hin <-].
    assert (h_id h ∉ active_ids fs) as Hout by (intros Ha; apply (Hcust h Hin) in Ha; congruence).
    eapply inv_frame; try done.
    + unfold dispatch_ids. simpl. apply update_hook_ids.
    + unfold active_ids in *. csimpl in *. by constructor.
    + unfold active_ids in *. csimpl in *. constructor; [|done].
      pose proof (hi_ids _ Hi) as Hids. simpl in Hids. rewrite Forall_forall in Hids. by apply Hids, elem_of_ids.
    + intros h'. unfold with_hooks. simpl. rewrite elem_of_update by apply (hi_nodup _ Hi).
      unfold active_ids in *. csimpl in *. rewrite elem_of_cons.
      intros [[Hin' Hne]|[-> _]]; simpl; [|naive_solver]. rewrite (Hcust h' Hin'). naive_solver.
  - by eapply inv_frame.
  - by eapply inv_frame.
Qed.

Lemma inv_return l ts t ids id cb fs :
  hook_inv (mkSystem l ts) → ts t = Active (mkFrame ids (Some (id, cb)) :: fs) →
  hook_inv (mkSystem (dispatch_drop l id cb) (set_thread t (Active (mkFrame ids None :: fs)) ts)).
Proof.
  intros Hi Ht. pose proof (active_ids_take _ _ _ _ _ Hi Ht) as [Hnd Hlt].
  unfold active_ids in Hnd, Hlt. csimpl in *. apply NoDup_cons in Hnd as [Hout Hnd]. apply Forall_cons in Hlt as [_ Hlt].
  eapply inv_frame; try done.
  - unfold dispatch_ids. simpl. apply update_hook_ids.
  - intros h. unfold dispatch_drop, with_hooks. simpl. rewrite elem_of_update by apply (hi_nodup _ Hi).
    intros [[Hin Hne]|[-> _]]; simpl; [|unfold active_ids; csimpl; naive_solver].
    rewrite (custody_of_owner l ts t _ h Hi Ht) by done. unfold active_ids. csimpl. rewrite elem_of_cons. naive_solver.
Qed.

(** Same hook out, same ids to visit or fewer. *)
Lemma inv_running l ts t f f' fs :
  hook_inv (mkSystem l ts) → ts t = Active (f :: fs) → fst <$> f_active f' = fst <$> f_active f →
  (f_ids f' = None → f_active f' = None) →
  hook_inv (mkSystem l (set_thread t (Active (f' :: fs)) ts)).
Proof.
  intros Hi Ht Heq Hsh. pose proof (active_ids_take _ _ _ _ _ Hi Ht) as [Hnd Hlt].
  assert (active_ids (f' :: fs) = active_ids (f :: fs)) as Ha by (unfold active_ids; csimpl; by rewrite Heq).
  eapply inv_frame; rewrite ?Ha; try done. intros h. by apply (custody_of_owner l ts t _ h Hi Ht).
Qed.

(** The depth of an emission in progress can be taken down. *)
Lemma emission_drop_ok l ts t f fs :
  hook_inv (mkSystem l ts) → ts t = Active (f :: fs) →
  emission_drop l =
    Ok (if bool_decide (fs = []) then (mkHookList (hooks l) (next_id l) None 0 (poisoned l), true)
        else (mkHookList (hooks l) (next_id l) (emission_owner l) (emission_depth l - 1) (poisoned l), false)).
Proof.
  intros Hi Ht. assert (emission_owner l = Some t) as How by (apply (hi_owner _ Hi); simpl; by rewrite Ht).
  pose proof (hi_depth _ Hi) as Hdep. simpl in Hdep. rewrite How, Ht in Hdep. destruct Hdep as [_ Hdep]. simpl in Hdep.
  unfold emission_drop, usize_sub. rewrite (bool_decide_true (1 ≤ _)) by lia. simpl.
  destruct fs; [rewrite !bool_decide_true by (simpl in *; done || lia)|rewrite !bool_decide_false by (simpl in *; done || lia)].
  - simpl in Hdep. by rewrite Hdep.
  - by rewrite How.
Qed.

Lemma step_inv s s' : hook_inv s → step s s' → hook_inv s'.
Proof.
  intros Hi [t Hs]. destruct Hs as
    [l ts fs place cb l' r _ _ Hnp Hp Hr | l ts fs id | l ts st l' Ht Hst Hb | l ts st Ht Hst Hb | l ts fs Ht | l ts fs Ht
    | l ts id ids fs l' cb Ht Hd | l ts id ids fs l' Ht Hd | l ts ids id cb cb' fs Ht | l ts ids a fs Ht
    | l ts fs u Ht _ _ | l ts u fs Ht _ | l ts ids id cb fs Ht | l ts fs l' wake ts' Ht Hd Hw].
  - by eapply inv_insert.
  - by apply inv_remove.
  - by eapply inv_begin.
  - by eapply inv_wait.
  - by apply inv_spurious.
  - by eapply inv_running.
  - by apply (inv_dispatch _ _ _ _ _ _ _ _ Hi Ht Hd).
  - by apply (inv_dispatch _ _ _ _ _ _ _ _ Hi Ht Hd).
  - by eapply inv_running.
  - by eapply inv_running.
  - by eapply inv_rest.
  - by eapply inv_rest.
  - by apply inv_return.
  - rewrite (emission_drop_ok _ _ _ _ _ Hi Ht) in Hd. case_bool_decide as Hfs; simplify_eq.
    + by eapply inv_finish.
    + destruct fs as [|g fs]; [done|]. by eapply inv_leave.
Qed.

Lemma reachable_inv s : reachable s → hook_inv s.
Proof. apply (rtc_ind_r (λ s, hook_inv s)); [apply initial_inv|]. intros. by eapply step_inv. Qed.
End invariant.

(** ** Properties of every interleaving *)
Section properties.
Context {T : Type}.
Implicit Types (l : HookList T) (fs : list (Frame T)) (ts : Z → TState T).

Lemma steps_inv t (s s' : System T) : hook_inv s → rtc (hstep t) s s' → hook_inv s'.
Proof. intros Hi Hs. induction Hs as [|s s1 s' H1 _ IH]; [done|]. apply IH. eapply step_inv; [done|]. by exists t. Qed.

Definition reaches (t : Z) l ts (st : TState T) : Prop :=
  ∃ l' ts', rtc (hstep t) (mkSystem l ts) (mkSystem l' ts') ∧ ts' t = st ∧ ∀ t', t' ≠ t → ts' t' = ts t'.

Lemma reaches_step t l ts l1 st1 st :
  hstep t (mkSystem l ts) (mkSystem l1 (set_thread t st1 ts)) → reaches t l1 (set_thread t st1 ts) st →
  reaches t l ts st.
Proof.
  intros H1 (l' & ts' & Hr & Ht & Ho). exists l', ts'. split; [by eapply rtc_l|]. split; [done|].
  intros t' Hne. rewrite Ho by done. by apply set_thread_other.
Qed.

(** The loop over the snapshot ends. *)
Lemma loop_ends t ids fs l ts :
  ts t = Active (mkFrame (Some ids) None :: fs) → reaches t l ts (Active (mkFrame (Some []) None :: fs)).
Proof.
  revert l ts. induction ids as [|id ids IH]; intros l ts Ht; [by exists l, ts|].
  destruct (dispatch l id) as [l' [cb|]] eqn:Hd.
  - eapply reaches_step; [by eapply h_dispatch|].
    eapply reaches_step; [apply h_return; apply set_thread_same|]. apply IH. apply set_thread_same.
  - eapply reaches_step; [by eapply h_skip|]. apply IH. apply set_thread_same.
Qed.

Lemma emission_ends t f fs l ts :
  ts t = Active (f :: fs) → (f_ids f = None → f_active f = None) → reaches t l ts (Active (mkFrame (Some []) None :: fs)).
Proof.
  intros Ht Hsh. destruct f as [[ids|] [[id cb]|]]; simpl in *; [|by eapply loop_ends|naive_solver|].
  - eapply reaches_step; [by eapply h_return|]. apply (loop_ends t ids). apply set_thread_same.
  - eapply reaches_step; [by eapply h_snapshot|]. apply (loop_ends t (dispatch_ids l)). apply set_thread_same.
Qed.

(** The owner can leave all its emissions. *)
Lemma owner_finishes t u gs f fs l ts :
  hook_inv (mkSystem l ts) → ts t = Active (f :: fs) → u ≠ t → ts u = Blocked gs →
  ∃ s', rtc (hstep t) (mkSystem l ts) s' ∧ emission_owner (s_list s') = None.
Proof.
  revert f l ts. induction fs as [|g fs IH]; intros f l ts Hi Ht Hu Hb.
  all: assert (f_ids f = None → f_active f = None) as Hsh
    by (apply (hi_shape _ Hi t); simpl; rewrite Ht; by left).
  all: destruct (emission_ends _ _ _ l _ Ht Hsh) as (l' & ts' & Hr & Ht' & Ho).
  all: pose proof (steps_inv _ _ _ Hi Hr) as Hi'; pose proof (emission_drop_ok _ _ _ _ _ Hi' Ht') as Hd.
  - rewrite bool_decide_true in Hd by done. eexists. split; [eapply rtc_r; [done|]|].
    + eapply h_end; [done|done|]. cbn. eapply (notify_some _ u). rewrite set_thread_other, Ho by done. done.
    + done.
  - rewrite bool_decide_false in Hd by done. destruct (IH g (mkHookList (hooks l') (next_id l') (emission_owner l') (emission_depth l' - 1) (poisoned l'))
      (set_thread t (Active (g :: fs)) ts')) as (s' & Hr' & Hs').
    + by eapply inv_leave.
    + apply set_thread_same.
    + done.
    + by rewrite set_thread_other, Ho.
    + exists s'. split; [|done]. etrans; [done|]. eapply rtc_l; [|done]. by eapply h_end.
Qed.

(** Other threads only wake a thread that waits. *)
Definition waiting (st : TState T) : Prop := st = Blocked [] ∨ st = Woken [].
Lemma waiting_stays t u s s' : u ≠ t → hstep t s s' → waiting (s_threads s u) → waiting (s_threads s' u).
Proof.
  intros Hu Hs Hw. destruct Hs; simpl in *; rewrite ?set_thread_other by done; try done.
  destruct wake; [|subst; by rewrite set_thread_other].
  rewrite <- (set_thread_other t u (Active fs) ts) in Hw by done.
  match goal with H : notify _ _ |- _ => destruct H as [v gs Hv|]; [|done] end.
  destruct (decide (u = v)) as [->|]; [|by rewrite fn_lookup_insert_ne].
  rewrite fn_lookup_insert. right. destruct Hw; congruence.
Qed.
Lemma waiting_stays_rtc t u s s' : u ≠ t → rtc (hstep t) s s' → waiting (s_threads s u) → waiting (s_threads s' u).
Proof. intros Hu Hs. induction Hs; [done|]. intros. eauto using waiting_stays. Qed.

(** A woken thread that finds no emission in progress. *)
Definition can_enter (s : System T) : Prop :=
  ∃ t fs, s_threads s t = Woken fs ∧ is_Some (begin_dispatch (s_list s) t).
Lemma idle_can_enter s t :
  hook_inv s → waiting (s_threads s t) → emission_owner (s_list s) = None → can_enter s.
Proof.
  intros Hi Hw Ho. assert (∃ t fs, s_threads s t = Woken fs) as (t' & fs & Ht').
  { destruct Hw as [Hw|Hw]; [|by eauto]. apply (hi_wakeup _ Hi Ho). eauto. }
  exists t', fs. split; [done|]. unfold begin_dispatch. rewrite Ho. by eexists.
Qed.

Lemma blocked_waiting s t fs : hook_inv s → s_threads s t = Blocked fs → waiting (s_threads s t).
Proof. intros Hi Ht. left. rewrite Ht. f_equal. apply (hi_waiting _ Hi t). auto. Qed.

(** The owner is in an emission, or waits in a callback of one. *)
Lemma owner_state (s : System T) o :
  hook_inv s → emission_owner (s_list s) = Some o →
  (∃ f gs, s_threads s o = Active (f :: gs)) ∨ (∃ u f gs, s_threads s o = Joining u (f :: gs)).
Proof.
  intros Hi Ho. pose proof (hi_depth _ Hi) as Hd. rewrite Ho in Hd. destruct Hd as [Hne _].
  destruct (s_threads s o) as [gs|gs|gs|u gs] eqn:Hso; simpl in Hne.
  - destruct gs; [done|]. left. by eauto.
  - destruct Hne. apply (hi_waiting _ Hi o). auto.
  - destruct Hne. apply (hi_waiting _ Hi o). auto.
  - destruct gs; [done|]. right. by eauto.
Qed.

(** A callback that waits for a thread that waits for it. *)
Lemma join_deadlock_step (s s' : System T) o u f gs :
  hook_inv s → s_threads s o = Joining u (f :: gs) → waiting (s_threads s u) → step s s' →
  s_threads s' o = Joining u (f :: gs) ∧ waiting (s_threads s' u).
Proof.
  intros Hi Ho Hu [t Hs].
  assert (emission_owner (s_list s) = Some o) as How by (apply (hi_owner _ Hi); by rewrite Ho).
  assert (o ≠ u) as Hne by (intros ->; rewrite Ho in Hu; by destruct Hu).
  destruct (decide (t = o)) as [->|Hto].
  { destruct Hs; simpl in *; try congruence;
      try (match goal with H : (∃ _, _) ∨ (∃ _, _) |- _ => destruct H as [(? & ? & _)|[? ?]]; congruence end).
    assert (u0 = u) as -> by congruence. destruct Hu; congruence. }
  assert (s_threads s' o = Joining u (f :: gs)) as Ho'.
  { destruct Hs; simpl in *; rewrite ?set_thread_other by done; try done.
    destruct wake; [|subst; by rewrite set_thread_other by done].
    match goal with H : notify _ _ |- _ => destruct H as [v hs Hv|]; [|by rewrite set_thread_other by done] end.
    destruct (decide (o = v)) as [<-|]; [rewrite set_thread_other in Hv by done; congruence|].
    by rewrite fn_lookup_insert_ne, set_thread_other by done. }
  split; [done|]. destruct (decide (t = u)) as [->|Htu]; [|by eapply (waiting_stays t u)].
  destruct Hs; simpl in *; rewrite ?set_thread_same; try (by destruct Hu; congruence).
  - exfalso. unfold begin_dispatch in *. rewrite How in *. by rewrite bool_decide_eq_false_2 in * by done.
  - left. f_equal. subst st. by destruct Hu as [-> | ->].
  - right. destruct Hu; congruence.
Qed.
Lemma join_deadlock (s s' : System T) o u f gs :
  hook_inv s → s_threads s o = Joining u (f :: gs) → waiting (s_threads s u) → rtc step s s' →
  emission_owner (s_list s') = Some o.
Proof.
  intros Hi Ho Hu Hr. induction Hr as [s|s s1 s' H1 _ IH].
  - apply (hi_owner _ Hi). by rewrite Ho.
  - destruct (join_deadlock_step _ _ _ _ _ _ Hi Ho Hu H1). apply IH; [by eapply step_inv|done|done].
Qed.

(** C26: whatever threads add, remove and emit, recursively or at the same
    time, and whichever callbacks panic: one thread at most is emitting; no
    callback is entered again before it returns; a hook of the list lacks
    its callbacks exactly while an emission runs them, so that all are back
    when no emission is in progress; and the end of an emission never finds
    the depth at zero. *)
Theorem hook_exclusion (s : System T) :
  reachable s →
  (∀ t u, frames (s_threads s t) ≠ [] → frames (s_threads s u) ≠ [] → t = u) ∧
  (∀ t, NoDup (active_ids (frames (s_threads s t)))) ∧
  (∀ h, h ∈ hooks (s_list s) → callbacks h = None ↔ ∃ t, h_id h ∈ active_ids (frames (s_threads s t))) ∧
  (emission_owner (s_list s) = None → ∀ h, h ∈ hooks (s_list s) → is_Some (callbacks h)) ∧
  (∀ t f fs, s_threads s t = Active (f :: fs) → total (emission_drop (s_list s))).
Proof.
  intros Hi%reachable_inv. split_and!.
  - intros t u Ht%(hi_owner _ Hi) Hu%(hi_owner _ Hi). congruence.
  - apply (hi_active _ Hi).
  - apply (hi_custody _ Hi).
  - intros Ho h Hh. destruct (callbacks h) eqn:Hcb; [by eexists|]. exfalso.
    apply (hi_custody _ Hi h Hh) in Hcb as [t Hin]. destruct s as [l ts]. simpl in *.
    rewrite (inv_others l ts t Hi) in Hin by congruence. set_solver.
  - intros t f fs Ht. destruct s as [l ts]. simpl in *. by rewrite (emission_drop_ok _ _ _ _ _ Hi Ht).
Qed.

(** C35: a thread that waits to emit is never forgotten. If no emission is in
    progress, some woken thread finds the list free. Otherwise another thread
    owns the list, and on every way it finishes some woken thread finds the
    list free. It can finish by steps of its own, if its callbacks return:
    always if none of them waits for a thread, and if the one that does waits
    for a thread that is outside. If it waits for a thread that itself waits
    to emit, as when a callback joins a foreign emitter, the owner never
    changes again, whatever the threads do. *)
Theorem hook_no_lost_wakeup (s : System T) (t : Z) (fs : list (Frame T)) :
  reachable s → s_threads s t = Blocked fs →
  match emission_owner (s_list s) with
  | None => can_enter s
  | Some o =>
      o ≠ t ∧ (∀ s', rtc (hstep o) s s' → emission_owner (s_list s') = None → can_enter s') ∧
      match s_threads s o with
      | Joining u _ =>
          (s_threads s u = Active [] → ∃ s', rtc (hstep o) s s' ∧ emission_owner (s_list s') = None) ∧
          (waiting (s_threads s u) → ∀ s', rtc step s s' → emission_owner (s_list s') = Some o)
      | _ => ∃ s', rtc (hstep o) s s' ∧ emission_owner (s_list s') = None
      end
  end.
Proof.
  intros Hi%reachable_inv Ht. pose proof (blocked_waiting _ _ _ Hi Ht) as Hw.
  destruct (emission_owner (s_list s)) as [o|] eqn:Ho; [|by eapply idle_can_enter].
  assert (o ≠ t) as Hot.
  { intros ->. destruct (owner_state _ _ Hi Ho) as [(f & gs & H)|(u & f & gs & H)]; congruence. }
  split; [done|]. split.
  { intros s' Hr Hidle. apply (idle_can_enter s' t); [by eapply steps_inv| |done]. by eapply (waiting_stays_rtc o t). }
  destruct (owner_state _ _ Hi Ho) as [(f & gs & Hact)|(u & f & gs & Hact)]; rewrite Hact; destruct s as [l ts].
  - by eapply (owner_finishes o t).
  - split; [|intros Hu s' Hr; by eapply join_deadlock].
    intros Hu. simpl in *. assert (hstep o (mkSystem l ts) (mkSystem l (set_thread o (Active (f :: gs)) ts))) as Hj
      by by eapply h_joined.
    destruct (owner_finishes o t fs f gs l (set_thread o (Active (f :: gs)) ts)) as (s' & Hr & Hs').
    + eapply step_inv; [done|]. by exists o.
    + apply set_thread_same.
    + done.
    + by rewrite set_thread_other.
    + exists s'. split; [by eapply rtc_l|done].
Qed.
End properties.

(** ** One emission from beginning to end

    [emit_hook!] on one thread, for callbacks that add and remove hooks. *)
Section emission.
Context {T : Type}.
Implicit Types (l : HookList T) (hs : list (Hook T)).

Inductive HookOp :=
| OpPrepend (cb : T)
| OpAppend (cb : T)
| OpRemove (id : Z).

(** What the emitted method of the callbacks does to the list, and the
    callbacks afterwards. *)
Variable method : T → list HookOp * T.

Definition run_op l (op : HookOp) : Res Empty_set (HookList T) :=
  match op with
  | OpPrepend cb => let '(l, r) := prepend l cb in _ ← r; Ok l
  | OpAppend cb => let '(l, r) := append l cb in _ ← r; Ok l
  | OpRemove id => Ok (remove l id).1
  end.
Fixpoint run_ops l (ops : list HookOp) : Res Empty_set (HookList T) :=
  match ops with
  | [] => Ok l
  | op :: ops => l ← run_op l op; run_ops l ops
  end.

(** The loop of [emit_hook!]: the list it leaves and the hooks it called. *)
Fixpoint emit_ids (ids : list Z) l : Res Empty_set (HookList T * list Z) :=
  match ids with
  | [] => Ok (l, [])
  | id :: ids =>
      match dispatch l id with
      | (l, None) => emit_ids ids l
      | (l, Some cb) =>
          l ← run_ops l (method cb).1;
          '(l, calls) ← emit_ids ids (dispatch_drop l id (method cb).2);
          Ok (l, id :: calls)
      end
  end.
(** [None]: thread [t] has to wait. *)
Definition emit_hook (t : Z) l : option (Res Empty_set (HookList T * list Z)) :=
  l ← begin_dispatch l t;
  Some ('(l, calls) ← emit_ids (dispatch_ids l) l;
        '(l, _) ← emission_drop l;
        Ok (l, calls)).

(** The promise: the hooks of the list at the beginning, in its order, each
    once, less those whose callbacks are out and those removed before their
    turn. *)
Definition cb_of (id : Z) hs : option T := h ← find_hook id hs; callbacks h.
Definition removed_by (ops : list HookOp) : list Z :=
  omap (λ op, match op with OpRemove id => Some id | _ => None end) ops.
Fixpoint calls_spec (cbs : Z → option T) (removed : list Z) (ids : list Z) : list Z :=
  match ids with
  | [] => []
  | id :: ids =>
      match (if bool_decide (id ∈ removed) then None else cbs id) with
      | Some cb => id :: calls_spec cbs (removed_by (method cb).1 ++ removed) ids
      | None => calls_spec cbs removed ids
      end
  end.

Definition list_ok l : Prop :=
  NoDup (dispatch_ids l) ∧ Forall (λ i, i < next_id l) (dispatch_ids l).

Definition emission_ok l : Prop :=
  match emission_owner l with None => emission_depth l = 0 | Some _ => 0 < emission_depth l end.

Lemma find_hook_not id hs : id ∉ h_id <$> hs → find_hook id hs = None.
Proof. intros Hn. destruct (find_hook id hs) eqn:Hf; [|done]. apply find_hook_Some in Hf as [? <-]. destruct Hn. by apply elem_of_ids. Qed.
Lemma find_hook_app id hs hs' :
  find_hook id (hs ++ hs') = match find_hook id hs with Some h => Some h | None => find_hook id hs' end.
Proof. induction hs as [|h hs IH]; [done|]. simpl. case_bool_decide; [done|apply IH]. Qed.
Lemma cb_of_update i id cb hs : i ≠ id → cb_of i (update_hook id cb hs) = cb_of i hs.
Proof.
  intros Hne. unfold cb_of. induction hs as [|h hs IH]; [done|]. simpl.
  case_bool_decide as Hid; simpl; case_bool_decide; try done; congruence.
Qed.
Lemma cb_of_extract i id hs :
  NoDup (h_id <$> hs) → cb_of i (extract_hook id hs) = if bool_decide (i = id) then None else cb_of i hs.
Proof.
  unfold cb_of. induction hs as [|h hs IH]; csimpl; [by case_bool_decide|]. intros [Hh Hn]%NoDup_cons.
  specialize (IH Hn). destruct (decide (h_id h = id)) as [<-|Hid].
  - rewrite (bool_decide_true (h_id h = h_id h)) by done. destruct (decide (i = h_id h)) as [->|Hi].
    + rewrite bool_decide_true by done. by rewrite find_hook_not.
    + rewrite (bool_decide_false (i = _)), (bool_decide_false (_ = i)) by done. done.
  - rewrite (bool_decide_false (h_id h = id)) by done. simpl. destruct (decide (h_id h = i)) as [Heq|].
    + rewrite bool_decide_true, bool_decide_false by (done || congruence). done.
    + by rewrite (bool_decide_false (h_id h = i)).
Qed.

Lemma list_ok_insert place l cb l' id :
  place = prepend ∨ place = append → place l cb = (l', Ok id) → list_ok l →
  list_ok l' ∧ next_id l ≤ next_id l' ∧ ∀ i, i < next_id l → cb_of i (hooks l') = cb_of i (hooks l).
Proof.
  intros Hp Hins [Hnd Hlt]. assert (next_id l ∉ dispatch_ids l) as Hnew.
  { intros Hin. rewrite Forall_forall in Hlt. specialize (Hlt _ Hin). lia. }
  unfold list_ok, dispatch_ids in *. unfold cb_of.
  destruct Hp as [->| ->]; unfold prepend, append, insert_with, checked_add in Hins; case_bool_decide; simplify_eq/=.
  all: rewrite ?fmap_app; csimpl; split_and!; try lia; try (by constructor).
  - constructor; [lia|]. eapply Forall_impl; [done|]. simpl. lia.
  - intros i Hi. by rewrite bool_decide_false by lia.
  - apply NoDup_app. split_and!; [done|set_solver|apply NoDup_singleton].
  - apply Forall_app. split; [|repeat constructor; lia]. eapply Forall_impl; [done|]. simpl. lia.
  - intros i Hi. rewrite find_hook_app. destruct (find_hook i (hooks l)); [done|]. simpl. by rewrite bool_decide_false by lia.
Qed.
Lemma list_ok_hooks hs l :
  h_id <$> hs `sublist_of` dispatch_ids l → list_ok l → list_ok (with_hooks hs l).
Proof.
  intros Hs [Hnd Hlt]. split; [by eapply sublist_NoDup|]. unfold dispatch_ids in *. simpl.
  rewrite Forall_forall in *. intros i Hi. apply Hlt. by eapply elem_of_sublist.
Qed.
Lemma list_ok_update id cb l : list_ok l → list_ok (with_hooks (update_hook id cb (hooks l)) l).
Proof. apply list_ok_hooks. by rewrite update_hook_ids. Qed.

Lemma run_op_spec l op l' :
  list_ok l → run_op l op = Ok l' →
  list_ok l' ∧ next_id l ≤ next_id l' ∧ emission_owner l' = emission_owner l ∧ emission_depth l' = emission_depth l ∧
  ∀ i, i < next_id l → cb_of i (hooks l') = if bool_decide (i ∈ removed_by [op]) then None else cb_of i (hooks l).
Proof.
  intros Hok Hr. destruct op as [cb|cb|id]; simpl in Hr; [destruct (prepend l cb) as [l1 [i1| |]] eqn:Hins
    | destruct (append l cb) as [l1 [i1| |]] eqn:Hins |]; simplify_eq/=.
  1, 2: assert (emission_owner l' = emission_owner l ∧ emission_depth l' = emission_depth l) as [-> ->]
    by (unfold prepend, append, insert_with in Hins; destruct (checked_add 32 _ 1); by simplify_eq/=).
  1, 2: eapply list_ok_insert in Hins as (H1 & H2 & H3); eauto.
  split_and!; try done; [by apply list_ok_hooks; [apply extract_hook_ids|]|].
  intros i _. rewrite cb_of_extract by apply Hok. apply (f_equal (λ b : bool, if b then None else cb_of i (hooks l))).
  apply bool_decide_ext. unfold removed_by. simpl. set_solver.
Qed.

Lemma run_ops_spec ops l l' :
  list_ok l → run_ops l ops = Ok l' →
  list_ok l' ∧ next_id l ≤ next_id l' ∧ emission_owner l' = emission_owner l ∧ emission_depth l' = emission_depth l ∧
  ∀ i, i < next_id l → cb_of i (hooks l') = if bool_decide (i ∈ removed_by ops) then None else cb_of i (hooks l).
Proof.
  revert l. induction ops as [|op ops IH]; intros l Hok Hr; simpl in Hr; [by simplify_eq|].
  destruct (run_op l op) as [l1| |] eqn:H1; try done. simpl in Hr.
  destruct (run_op_spec l op l1 Hok H1) as (Hok1 & Hn1 & Ho1 & Hd1 & Hc1).
  destruct (IH l1 Hok1 Hr) as (Hok' & Hn' & Ho' & Hd' & Hc').
  split_and!; [done|lia|congruence|congruence|]. intros i Hi. rewrite Hc', Hc1 by lia.
  assert (i ∈ removed_by (op :: ops) ↔ i ∈ removed_by [op] ∨ i ∈ removed_by ops) as Hrem
    by (unfold removed_by; destruct op; simpl; set_solver).
  repeat case_bool_decide; tauto.
Qed.

(** The loop keeps the promise, and leaves the emission as it was. *)
Lemma emit_ids_spec cbs removed ids l l' calls :
  list_ok l → NoDup ids → Forall (λ i, i < next_id l) ids →
  (∀ i, i ∈ ids → cb_of i (hooks l) = if bool_decide (i ∈ removed) then None else cbs i) →
  emit_ids ids l = Ok (l', calls) →
  calls = calls_spec cbs removed ids ∧ list_ok l' ∧
  emission_owner l' = emission_owner l ∧ emission_depth l' = emission_depth l.
Proof.
  revert removed l calls. induction ids as [|id ids IH]; intros removed l calls Hok Hnd Hlt Hcb Hr; [by simplify_eq/=|].
  apply NoDup_cons in Hnd as [Hid Hnd]. apply Forall_cons in Hlt as [Hlt0 Hlt].
  assert (∀ i, i ∈ ids → i ≠ id) as Hne by (intros i Hi ->; done).
  simpl in Hr |- *. unfold dispatch in Hr. fold (cb_of id (hooks l)) in Hr. rewrite <- (Hcb id) by by left.
  destruct (cb_of id (hooks l)) as [cb|] eqn:Hcbid.
  - destruct (run_ops _ _) as [l1| |] eqn:Hops in Hr; try done. simpl in Hr.
    apply run_ops_spec in Hops as (Hok1 & Hn1 & Ho1 & Hd1 & Hc1); [|by apply list_ok_update]. simpl in *.
    destruct (emit_ids ids _) as [[l2 calls2]| |] eqn:Hrest in Hr; try done. simplify_eq/=.
    destruct (IH (removed_by (method cb).1 ++ removed) (dispatch_drop l1 id (method cb).2) calls2)
      as (Hcalls & Hok' & Ho' & Hd'); [by apply list_ok_update|done| | |done|].
    + simpl. eapply Forall_impl; [done|]. simpl. lia.
    + intros i Hi. unfold dispatch_drop. simpl. rewrite cb_of_update by auto.
      rewrite Forall_forall in Hlt. rewrite Hc1 by auto. rewrite cb_of_update, Hcb by (auto || by right).
      repeat case_bool_decide; set_solver.
    + split_and!; [by f_equal|done|by rewrite Ho', <- Ho1|by rewrite Hd', <- Hd1].
  - apply (IH removed l calls); try done. intros i Hi. apply Hcb. by right.
Qed.

Lemma insert_total place l cb :
  place = prepend ∨ place = append → next_id l + 1 < 2 ^ 32 →
  ∃ l' id, place l cb = (l', Ok id) ∧ next_id l' = next_id l + 1.
Proof.
  intros Hp Hlt. destruct Hp as [->| ->]; unfold prepend, append, insert_with, checked_add;
    rewrite bool_decide_true by lia; by do 2 eexists.
Qed.
Lemma run_ops_total ops l :
  next_id l + Z.of_nat (length ops) < 2 ^ 32 →
  ∃ l', run_ops l ops = Ok l' ∧ next_id l' ≤ next_id l + Z.of_nat (length ops).
Proof.
  revert l. induction ops as [|op ops IH]; intros l Hlt; simpl in *; [by exists l; split; [|lia]|].
  assert (∃ l1, run_op l op = Ok l1 ∧ next_id l1 ≤ next_id l + 1) as (l1 & -> & H1).
  { destruct op as [cb|cb|id]; simpl.
    - destruct (insert_total prepend l cb) as (l1 & id & -> & Hn); [by left|lia|]. exists l1. split; [done|lia].
    - destruct (insert_total append l cb) as (l1 & id & -> & Hn); [by right|lia|]. exists l1. split; [done|lia].
    - eexists. split; [done|]. simpl. lia. }
  destruct (IH l1) as (l' & Hr & Hn); [lia|]. exists l'. simpl. split; [done|lia].
Qed.

Lemma emit_ids_total (k : nat) ids l :
  (∀ cb, (length (method cb).1 ≤ k)%nat) → next_id l + Z.of_nat (k * length ids) < 2 ^ 32 →
  ∃ l' calls, emit_ids ids l = Ok (l', calls).
Proof.
  intros Hm. revert l. induction ids as [|id ids IH]; intros l Hlt; [by eauto|]. simpl in *.
  destruct (dispatch l id) as [l1 r] eqn:Hd.
  assert (next_id l1 = next_id l) as Hn1
    by (unfold dispatch in Hd; destruct (find_hook id (hooks l)); simpl in Hd; repeat case_match; by simplify_eq).
  destruct r as [cb|]; [|apply IH; lia]. specialize (Hm cb).
  destruct (run_ops_total (method cb).1 l1) as (l2 & -> & Hn2); [lia|].
  simpl. destruct (IH (dispatch_drop l2 id (method cb).2)) as (l3 & calls & ->); [simpl; lia|]. by eauto.
Qed.

(** an emission calls the hooks that were in the list when it began, in
    the list's order and each once, except those whose callbacks an outer
    emission is running and those a callback removed before their turn; hooks
    added meanwhile wait for the next emission. It returns as long as hook ids
    last, and leaves the owner and depth of the emissions as they were. *)
Lemma emission_calls_snapshot (k : nat) (t : Z) l l1 :
  list_ok l → emission_ok l → begin_dispatch l t = Some l1 →
  (∀ cb, (length (method cb).1 ≤ k)%nat) → next_id l + Z.of_nat (k * length (hooks l)) < 2 ^ 32 →
  ∃ l', emit_hook t l = Some (Ok (l', calls_spec (λ i, cb_of i (hooks l)) [] (dispatch_ids l))) ∧
    list_ok l' ∧ emission_owner l' = emission_owner l ∧ emission_depth l' = emission_depth l.
Proof.
  intros Hok He Hb Hk Hlt. unfold emit_hook. rewrite Hb. simpl.
  assert (emission_owner l = None → emission_depth l = 0) as Hidle by (unfold emission_ok in He; by case_match).
  assert (emission_owner l = Some t → 0 < emission_depth l) as Howned by (unfold emission_ok in He; by case_match).
  assert (hooks l1 = hooks l ∧ next_id l1 = next_id l ∧ emission_depth l1 = emission_depth l + 1 ∧
    emission_owner l1 = Some t ∧ (emission_owner l = None ∨ emission_owner l = Some t)) as (Hh & Hn & Hd & Ho & Hw).
  { unfold begin_dispatch in Hb. destruct (emission_owner l) as [o|] eqn:How; [case_bool_decide; [subst o|done]|]; simplify_eq/=;
      split_and!; try done; auto. rewrite Hidle by done. lia. }
  unfold dispatch_ids in *. rewrite Hh.
  destruct (emit_ids_total k (h_id <$> hooks l) l1) as (l2 & calls & Hr);
    [done|rewrite length_fmap; lia|]. rewrite Hr.
  destruct Hok as [Hnd Hids].
  apply (emit_ids_spec (λ i, cb_of i (hooks l)) []) in Hr as (-> & Hok2 & Ho2 & Hd2); try done.
  - simpl. unfold emission_drop, usize_sub. rewrite (bool_decide_true (1 ≤ _)) by (destruct Hw; naive_solver lia). simpl. case_bool_decide as Hz; simpl;
      (eexists; split; [done|]); simpl; split_and!; try done; try lia.
    + destruct Hw as [Hw|Hw]; [done|]. specialize (Howned Hw). lia.
    + destruct Hw as [Hw|Hw]; [specialize (Hidle Hw); lia|congruence].
  - unfold list_ok, dispatch_ids. by rewrite Hh, Hn.
  - by rewrite Hn.
  - intros i Hi. by rewrite Hh.
Qed.
End emission.
Arguments HookOp : clear implicits.

(** ** Samples *)
Module hook_sample.
(** Thread 1 runs the only hook, and thread 2 waits to emit. *)
Definition one : HookList nat := mkHookList [mkHook 0 (Some 7%nat)] 1 None 0 false.
Definition taken : HookList nat := mkHookList [mkHook 0 None] 1 (Some 1) 1 false.
Definition idle : Z → TState nat := λ _, Active [].
Definition t1 (f : Frame nat) (ts : Z → TState nat) : Z → TState nat := set_thread 1 (Active [f]) ts.
Definition in_callback : Z → TState nat :=
  t1 (mkFrame (Some []) (Some (0, 7%nat))) (t1 (mkFrame (Some [0]) None) (t1 (mkFrame None None) idle)).
Definition busy : System nat := mkSystem taken (set_thread 2 (Blocked []) in_callback).

Lemma busy_reachable : reachable busy.
Proof.
  eapply rtc_l; [exists 1; eapply (h_insert 1 _ _ [] append 7%nat one (Ok 0)); [done|done|done|by right|done]|].
  eapply rtc_l; [exists 1; eapply (h_begin 1 _ _ (Active [])); [done|by left; exists []|done]|].
  eapply rtc_l; [exists 1; by eapply (h_snapshot 1 _ _ [])|].
  eapply rtc_l; [exists 1; by eapply (h_dispatch 1 _ _ 0 [] [] taken)|].
  eapply rtc_l; [exists 2; eapply (h_wait 2 _ _ (Active [])); [done|by left; exists []|done]|].
  apply rtc_refl.
Qed.

(** The callback of thread 1 joins thread 2. *)
Definition stuck : System nat :=
  mkSystem taken (set_thread 1 (Joining 2 [mkFrame (Some []) (Some (0, 7%nat))]) (s_threads busy)).
Lemma stuck_reachable : reachable stuck.
Proof.
  eapply rtc_r; [apply busy_reachable|]. exists 1.
  apply (h_join 1 _ _ [mkFrame (Some []) (Some (0, 7%nat))] 2); [done|by eexists|done].
Qed.

(** Hook 0 adds a hook in front and one at the end, and removes hook 2. *)
Definition method (cb : nat) : list (HookOp nat) * nat :=
  match cb with
  | O => ([OpPrepend 5%nat; OpAppend 6%nat; OpRemove 2], 1%nat)
  | _ => ([], cb)
  end.
Definition nested : HookList nat :=
  mkHookList [mkHook 0 (Some 0%nat); mkHook 1 None; mkHook 2 (Some 8%nat); mkHook 3 (Some 9%nat)] 4 (Some 1) 1 false.
End hook_sample.

Lemma hook_exclusion_witness :
  reachable hook_sample.busy ∧
  (∀ t u, frames (s_threads hook_sample.busy t) ≠ [] → frames (s_threads hook_sample.busy u) ≠ [] → t = u).
Proof. split; [apply hook_sample.busy_reachable|]. apply (hook_exclusion _ hook_sample.busy_reachable). Defined.

Lemma hook_no_lost_wakeup_witness :
  (1 ≠ 2 ∧ ∃ s', rtc (hstep 1) hook_sample.busy s' ∧ emission_owner (s_list s') = None) ∧
  ∀ s', rtc step hook_sample.stuck s' → emission_owner (s_list s') = Some 1.
Proof.
  split.
  - destruct (hook_no_lost_wakeup hook_sample.busy 2 [] hook_sample.busy_reachable eq_refl) as (H1 & _ & H2). by split.
  - destruct (hook_no_lost_wakeup hook_sample.stuck 2 [] hook_sample.stuck_reachable eq_refl) as (_ & _ & _ & H).
    apply H. by left.
Defined.

Lemma emission_calls_snapshot_witness :
  ∃ l', emit_hook hook_sample.method 1 hook_sample.nested = Some (Ok (l', [0; 3])) ∧ emission_depth l' = 1.
Proof.
  destruct (emission_calls_snapshot hook_sample.method 3 1 hook_sample.nested
    (mkHookList (hooks hook_sample.nested) 4 (Some 1) 2 false)) as (l' & H1 & _ & _ & H2).
  - split; [apply (bool_decide_unpack _); by vm_compute|]. repeat constructor.
  - done.
  - done.
  - intros [|]; simpl; lia.
  - simpl. lia.
  - exists l'. split; [|done]. exact H1.
Defined.
