(* ===== verification/Marshal.v ===== *)
(** * Generated codecs of messages

    Models the code generators [macros/src/derive_pod_struct.rs] and
    [macros/src/derive_marshallable.rs] and the containers of
    [pipewire/src/protocol/marshal/mod.rs]. What [#[derive(PodStruct)]]
    writes is determined by the codecs of the fields, so the macro is a
    function from them to a codec; its laws are proved once, from the laws
    of the fields, and every message type of MarshalMessages gets its own
    from there. *)

From stdpp Require Import pretty.
From S2P Require Import Prelude Utf8 PodTypes PodCodec PodLaws PodCompound PodParser PodParserLaws.
From S2P Require Import PodBuilder.

(** [Builder::new(data)], a chain of calls, [build()] and the length: the
    buffer is the caller's, so what is left in it is part of the outcome. *)
Definition encode_with (op : BuilderOp) : PodW Z := λ data,
  match op (Builder_new data) with
  | Ok b => (b_data b, out ← build b; Ok (len out))
  | Err e => match e with end
  | Panic => (data, Panic)
  end.

(** [Parser::new(data)] and one [pop_struct]. *)
Definition decode_struct {T} (parse_struct : PM T) (data : list byte) : PodRes (T * Z) :=
  (pop_struct parse_struct (Parser_new data)).2.

(** ** derive_pod_struct

    The fields of a struct in their order, as nested pairs. *)
Record Fields (A : Type) := mkFields {
  fields_encode : A → BuilderOp;
  fields_decode : PM A;
}.
Arguments fields_encode {A} _ _.
Arguments fields_decode {A} _.

Definition no_fields : Fields unit := mkFields unit (λ _, op_id) (mret tt).
Definition field {T A} (U : Pod T) (F : Fields A) : Fields (T * A) :=
  mkFields (T * A)
    (λ v, push_pod U v.1 ▷ fields_encode F v.2)
    (x ← pop_pod U; fs ← fields_decode F; mret (x, fs)).

Definition derive_pod_struct {A S} (F : Fields A) (to : S → A) (from : A → S) : Pod S := {|
  encode v := encode_with (push_struct (fields_encode F (to v)));
  decode := decode_struct (fs ← fields_decode F; mret (from fs));
|}.

(** ** derive_marshallable *)
Record Marshallable (M : Type) := mkMarshallable {
  msg_opcode : M → Z;
  m_encode : M → PodW Z;
  m_decode : Z → list byte → PodRes (M * Z);
}.
Arguments msg_opcode {M} _ _.
Arguments m_encode {M} _ _ _.
Arguments m_decode {M} _ _ _.

(** A variant: its discriminant, if given, and the decoder of its payload. *)
Definition Variant (M : Type) : Type := option Z * (list byte → PodRes (M * Z)).
Definition variant {T M} (d : option Z) (U : Pod T) (con : T → M) : Variant M :=
  (d, λ data, '(o, s) ← decode U data; Ok (con o, s)).

(** Discriminants count up from the last one given. *)
Fixpoint discriminants (next : Z) (ds : list (option Z)) : list Z :=
  match ds with
  | [] => []
  | d :: ds => let d := default next d in d :: discriminants (d + 1) ds
  end.

Definition unknown_opcode (op : Z) : string := "Could not decode opcode " +:+ pretty op.

Fixpoint decode_variants {M} (ds : list Z) (vs : list (Variant M)) (op : Z) (data : list byte) :
    PodRes (M * Z) :=
  match ds, vs with
  | d :: ds, v :: vs => if bool_decide (op = d) then v.2 data else decode_variants ds vs op data
  | _, _ => Err (Invalid (unknown_opcode op))
  end.

(** [index] and [payload] are the two generated matches on [self]. *)
Definition derive_marshallable {M} (vs : list (Variant M)) (index : M → nat) (payload : M → PodW Z) :
    Marshallable M :=
  let ds := discriminants 0 (fst <$> vs) in {|
    msg_opcode m := default 0 (ds !! index m);
    m_encode := payload;
    m_decode := decode_variants ds vs;
  |}.

(** ** PairList *)
Record PairList (K V : Type) := mkPairList { pl_data : list (K * V) }.
Arguments mkPairList {K V} _.
Arguments pl_data {K V} _.

Fixpoint push_pairs {K V} (PK : Pod K) (PV : Pod V) (items : list (K * V)) : BuilderOp :=
  match items with
  | [] => op_id
  | item :: items => push_pod PK item.1 ▷ push_pod PV item.2 ▷ push_pairs PK PV items
  end.
Fixpoint pop_pairs {K V} (PK : Pod K) (PV : Pod V) (n : nat) : PM (list (K * V)) :=
  match n with
  | O => mret []
  | S n =>
      key ← pop_pod PK;
      value ← pop_pod PV;
      items ← pop_pairs PK PV n;
      mret ((key, value) :: items)
  end.

(** [Vec::with_capacity(n as usize)] of an [i32] panics for a negative
    number, which is sign-extended to a capacity beyond [isize::MAX]; an
    allocation below that is taken to succeed. *)
Definition with_capacity (n : Z) : PM unit := pm_res (if bool_decide (n < 0) then Panic else Ok tt).

Definition pod_pairs {K V} (PK : Pod K) (PV : Pod V) : Pod (PairList K V) := {|
  encode v := encode_with (push_struct (
    push_int (swrap 32 (len (pl_data v))) ▷ push_pairs PK PV (pl_data v)));
  decode := decode_struct (
    n_items ← pop_int;
    with_capacity n_items;;
    items ← pop_pairs PK PV (Z.to_nat n_items);
    mret (mkPairList items));
|}.
