(* ===== verification/MarshalLaws.v ===== *)
(** * Laws of the generated codecs

    Two contracts, each closed under the generators of Marshal:
    - [PodRound]: encoding a valid value writes bytes that decode back to it,
      or runs out of room without touching anything else;
    - [PodCalm]: decoding returns, whatever the bytes, as long as no struct in
      them begins with a negative Int. Without that proviso the claim is
      false: see [PairList]. *)

From S2P Require Import Prelude Utf8 PodTypes PodCodec PodLaws PodCompound PodParser PodParserLaws.
From S2P Require Import PodBuilder Marshal.

(** ** Round trips *)
Definition decodes {T} (U : Pod T) (bs : list byte) (v : T) : Prop :=
  ∀ rest, len (bs ++ rest) ≤ isize_max → decode U (bs ++ rest) = Ok (v, len bs).

(** Writing [bs] with property [Q], or running out of room. *)
Definition wrote (data : list byte) (space : Z) (Q : list byte → Prop) (out : list byte * PodRes Z) : Prop :=
  (∃ bs, out = (bs ++ drop (length bs) data, Ok (len bs)) ∧
     len bs ≤ len data ∧ len bs ≤ space ∧ 8 ≤ len bs ∧ len bs mod 8 = 0 ∧ Q bs) ∨
  (len data < space ∧ ∃ data', out = (data', Err NoSpace) ∧ len data' = len data).

Class PodRound {T} (U : Pod T) := {
  round_ok : T → Prop;
  round_space : T → Z;
  round_encode v data : round_ok v → wrote data (round_space v) (λ bs, decodes U bs v) (encode U v data);
}.
#[global] Hint Mode PodRound ! ! : typeclass_instances.
Arguments round_ok {T} U {_} _.
Arguments round_space {T} U {_} _.

#[global, refine] Instance laws_round {T} (U : Pod T) `{!PodLaws U} : PodRound U | 10 :=
  {| round_ok := pod_ok U; round_space := pod_space U |}.
Proof.
  intros v data Hv. destruct (decide (pod_space U v ≤ len data)) as [Hl|Hl].
  - left. destruct (encode_fits (P:=U) v data Hv Hl) as (bs & He & ? & ? & ? & Hd).
    exists bs. split_and!; try done; [lia|]. intros rest _. apply Hd.
  - right. split; [lia|]. apply encode_nospace; [done|lia].
Defined.

(** What a chain of pushes does at any place of any buffer. *)
Definition pushes (op : BuilderOp) (space : Z) (Q : list byte → Prop) : Prop :=
  (∀ b e, b_error b = Some e → op b = Ok b) ∧
  ∀ pre rest,
    (∃ bs, op (mkBuilder (pre ++ rest) (len pre) None)
           = Ok (mkBuilder (pre ++ bs ++ drop (length bs) rest) (len (pre ++ bs)) None) ∧
       len bs ≤ len rest ∧ len bs ≤ space ∧ len bs mod 8 = 0 ∧ Q bs) ∨
    (len rest < space ∧ ∃ d pos, op (mkBuilder (pre ++ rest) (len pre) None)
                                 = Ok (mkBuilder d pos (Some NoSpace)) ∧ len d = len (pre ++ rest)).

Lemma pushes_id (Q : list byte → Prop) : Q [] → pushes op_id 0 Q.
Proof.
  intros HQ. split; [done|]. intros pre rest. left. exists []. rewrite app_nil_r. split_and!; try done. len_lia.
Qed.

Lemma pushes_mono op space (Q Q' : list byte → Prop) : (∀ bs, Q bs → Q' bs) → pushes op space Q → pushes op space Q'.
Proof. intros HQ [H1 H2]. split; [done|]. intros pre rest. destruct (H2 pre rest) as [(bs & ?)|]; [left; exists bs; naive_solver|by right]. Qed.

Lemma aligned_sum a b : a mod 8 = 0 → b mod 8 = 0 → (a + b) mod 8 = 0.
Proof. intros Ha Hb. rewrite Z.add_mod, Ha, Hb by lia. done. Qed.

Lemma pushes_seq f g s1 s2 (Q1 Q2 Q : list byte → Prop) :
  pushes f s1 Q1 → pushes g s2 Q2 → (∀ b1 b2, Q1 b1 → Q2 b2 → Q (b1 ++ b2)) → pushes (f ▷ g) (s1 + s2) Q.
Proof.
  intros [Hf1 Hf2] [Hg1 Hg2] HQ. split.
  { intros b e He. unfold op_seq. rewrite (Hf1 b e He). simpl. by apply (Hg1 b e). }
  intros pre rest. unfold op_seq. destruct (Hf2 pre rest) as [(b1 & -> & Hl1 & Hs1 & Ha1 & HQ1)|(Hl & d & pos & -> & Hd)]; simpl.
  - assert (len (drop (length b1) rest) = len rest - len b1) as Hdrop by (unfold len in *; rewrite length_drop; lia).
    rewrite (app_assoc pre b1). destruct (Hg2 (pre ++ b1) (drop (length b1) rest))
      as [(b2 & -> & Hl2 & Hs2 & Ha2 & HQ2)|(Hl & d & pos & -> & Hd)].
    + left. exists (b1 ++ b2). split_and!; [|len_lia|len_lia|rewrite len_app; by apply aligned_sum|by apply HQ].
      by rewrite <- !app_assoc, length_app, drop_drop.
    + right. split; [lia|]. exists d, pos. split; [done|]. rewrite Hd. len_lia.
  - right. rewrite (Hg1 _ NoSpace) by done. split; [|eauto].
    destruct (decide (0 ≤ s2)) as [|Hs2]; [lia|].
    destruct (Hg2 [] []) as [(b2 & _ & _ & ? & _)|[? _]]; [pose proof (len_nonneg b2); lia|len_lia].
Qed.

Lemma pushes_header {T} (U : Pod T) `{!PodRound U} v :
  round_ok U v → pushes (push_pod U v) (round_space U v) (λ bs, decodes U bs v ∧ 8 ≤ len bs).
Proof.
  intros Hv. split; [intros b e He; unfold push_pod; by rewrite He|]. intros pre rest.
  unfold push_pod. cbn [b_error b_pos b_data]. rewrite within_app by done.
  destruct (round_encode (U:=U) v rest Hv) as [(bs & -> & ? & ? & ? & ? & ?)|(Hl & d & -> & Hd)]; simpl.
  - left. exists bs. split_and!; try done. by rewrite len_app.
  - right. split; [done|]. eexists _, _. split; [done|]. len_lia.
Qed.
Lemma pushes_pod {T} (U : Pod T) `{!PodRound U} v :
  round_ok U v → pushes (push_pod U v) (round_space U v) (λ bs, decodes U bs v).
Proof. intros Hv. eapply pushes_mono; [|by apply pushes_header]. by intros bs []. Qed.

Lemma decodes_parses {T} (U : Pod T) bs v : decodes U bs v → parses (pop_pod U) bs v.
Proof. apply parses_decode. Qed.

(** [m] run on exactly these bytes. *)
Definition runs {T} (m : PM T) (bs : list byte) (v : T) : Prop :=
  len bs ≤ isize_max → (m (Parser_new bs)).2 = Ok v.
Lemma parses_runs {T} (m : PM T) bs v : parses m bs v → runs m bs v.
Proof. intros Hp Hl. by rewrite (parses_run_all m bs v). Qed.

(** A struct whose members are pushed by [op] and read back by [m]. *)
Lemma wrote_struct {T} op space (m : PM T) v data :
  pushes op space (λ bs, runs m bs v) → 0 ≤ space < 2 ^ 32 - 8 →
  wrote data (8 + space)
    (λ bs, ∀ rest, len (bs ++ rest) ≤ isize_max → decode_struct m (bs ++ rest) = Ok (v, len bs))
    (encode_with (push_struct op) data).
Proof.
  intros [_ Hop] Hs. unfold encode_with, Builder_new.
  destruct (decide (len data < 8)) as [Hl|Hl].
  { right. split; [lia|]. exists data. unfold push_struct. simpl. by rewrite bool_decide_eq_true_2 by lia. }
  destruct (split_room 8 ltac:(lia) data) as (hole & tail & -> & Hh & Ht); [lia|].
  destruct (Hop hole tail) as [(bs & Hrun & Hl1 & Hs1 & Ha & Hp)|(Hlr & d & pos & Hrun & Hd)].
  - left. exists (struct_wire bs). pose proof (push_struct_run op bs [] hole tail (drop (length bs) tail) Hh Ha Hrun) as Hps.
    simpl in Hps. change (len []) with 0 in Hps. rewrite Hps. cbn [b_data].
    assert (len (struct_wire bs) = 8 + len bs) as Hw
      by (unfold struct_wire; rewrite sized_wire_len, pad_8_of_aligned by done; lia).
    assert (drop (length bs) tail = drop (length (struct_wire bs)) (hole ++ tail)) as Hdrop.
    { rewrite skipn_app. unfold len in *. rewrite (drop_ge hole) by lia. simpl. f_equal. lia. }
    split_and!; [| len_lia | lia | len_lia | unfold struct_wire; apply sized_wire_aligned |].
    + rewrite <- Hdrop. f_equal. unfold build. cbn [b_error b_data b_pos]. rewrite slice_hd by done. done.
    + intros rest Hmax. unfold decode_struct.
      rewrite (parses_run (pop_struct m) (struct_wire bs) rest (v, len (struct_wire bs))); [done| |done].
      apply parses_struct; [len_lia|]. apply Hp. len_lia.
  - right. split; [len_lia|]. exists d. unfold push_struct. cbn [b_error b_data b_pos].
    rewrite bool_decide_eq_false_2 by lia. cbv zeta.
    change (0 + 8) with 8. rewrite <- Hh, Hrun. simpl. by split.
Qed.

(** ** Structs *)
Class FieldsRound {A} (F : Fields A) := {
  fields_ok : A → Prop;
  fields_space : A → Z;
  fields_space_nonneg a : fields_ok a → 0 ≤ fields_space a;
  fields_push a : fields_ok a → pushes (fields_encode F a) (fields_space a) (λ bs, parses (fields_decode F) bs a);
}.
#[global] Hint Mode FieldsRound ! ! : typeclass_instances.
Arguments fields_ok {A} F {_} _.
Arguments fields_space {A} F {_} _.

Lemma round_space_nonneg {T} (U : Pod T) `{!PodRound U} v : round_ok U v → 0 ≤ round_space U v.
Proof.
  intros Hv. destruct (round_encode (U:=U) v [] Hv) as [(bs & _ & _ & ? & ? & _)|[Hl _]]; [lia|].
  change (len []) with 0 in Hl. lia.
Qed.

#[global, refine] Instance no_fields_round : FieldsRound no_fields :=
  {| fields_ok _ := True; fields_space _ := 0 |}.
Proof.
  - intros a _. lia.
  - intros [] _. apply pushes_id, parses_ret.
Defined.

#[global, refine] Instance field_round {T A} (U : Pod T) (F : Fields A) `{!PodRound U} `{!FieldsRound F} :
    FieldsRound (field U F) :=
  {| fields_ok v := round_ok U v.1 ∧ fields_ok F v.2; fields_space v := round_space U v.1 + fields_space F v.2 |}.
Proof.
  - intros v [H1 H2]. pose proof (round_space_nonneg U _ H1). pose proof (fields_space_nonneg _ H2). lia.
  - intros [x a] [H1 H2]. simpl in *. eapply pushes_seq; [by apply (pushes_pod U)|by apply fields_push|]. simpl.
    intros b1 b2 Hb1 Hb2. eapply parses_bind; [by apply decodes_parses|]. rewrite <- (app_nil_r b2).
    eapply parses_bind; [done|]. apply parses_ret.
Defined.

(** What [derive(PodStruct)] generates round trips if the fields do. The
    struct's size has to fit its header. *)
#[refine] Definition derive_round {A S} (F : Fields A) `{!FieldsRound F} (to : S → A) (from : A → S)
    (Hiso : ∀ v, from (to v) = v) : PodRound (derive_pod_struct F to from) :=
  {| round_ok v := fields_ok F (to v) ∧ fields_space F (to v) < 2 ^ 32 - 8;
     round_space v := 8 + fields_space F (to v) |}.
Proof.
  intros v data [Hok Hs]. pose proof (fields_space_nonneg _ Hok). simpl.
  refine (wrote_struct _ _ (fs ← fields_decode F; mret (from fs)) v data _ _); [|lia].
  eapply pushes_mono; [|by apply fields_push]. simpl. intros bs Hp. apply parses_runs. rewrite <- (app_nil_r bs), <- (Hiso v).
  eapply parses_bind; [done|]. apply parses_ret.
Defined.

Ltac derive_struct := refine (derive_round _ _ _ _); by intros [].

(** ** Pair lists *)
Lemma pushes_int v : i32_range v → pushes (push_int v) 16 (λ bs, decodes pod_i32 bs v).
Proof.
  intros Hv. assert (round_space pod_i32 v = 16) as <- by reflexivity. by apply (pushes_pod pod_i32).
Qed.

Section pairs.
Context {K V : Type} (PK : Pod K) (PV : Pod V) `{!PodRound PK} `{!PodRound PV}.

Definition pair_ok (kv : K * V) : Prop := round_ok PK kv.1 ∧ round_ok PV kv.2.
Definition pairs_space (items : list (K * V)) : Z :=
  foldr (λ kv s, round_space PK kv.1 + (round_space PV kv.2 + s)) 0 items.

Lemma pairs_space_nonneg items : Forall pair_ok items → 0 ≤ pairs_space items.
Proof.
  induction 1 as [|kv items [Hk Hv] _ IH]; simpl; [lia|].
  pose proof (round_space_nonneg PK _ Hk). pose proof (round_space_nonneg PV _ Hv). lia.
Qed.

Lemma pushes_pairs items :
  Forall pair_ok items →
  pushes (push_pairs PK PV items) (pairs_space items) (λ bs, parses (pop_pairs PK PV (length items)) bs items).
Proof.
  induction 1 as [|[k v] items [Hk Hv] _ IH]; simpl in *; [apply pushes_id, parses_ret|].
  eapply pushes_seq; [by apply (pushes_pod PK)|eapply (pushes_seq _ _ _ _ _ _
    (λ bs, parses (value ← pop_pod PV; items ← pop_pairs PK PV (length items); mret ((k, value) :: items))
      bs ((k, v) :: items))); [by apply (pushes_pod PV)|exact IH|]|]; simpl.
  - intros b1 b2 Hb1 Hb2. eapply parses_bind; [by apply decodes_parses|]. rewrite <- (app_nil_r b2).
    eapply parses_bind; [done|]. apply parses_ret.
  - intros b1 b2 Hb1 Hb2. eapply parses_bind; [by apply decodes_parses|]. done.
Qed.

#[global, refine] Instance pairs_round : PodRound (pod_pairs PK PV) :=
  {| round_ok v := Forall pair_ok (pl_data v) ∧ len (pl_data v) < 2 ^ 31 ∧ pairs_space (pl_data v) < 2 ^ 32 - 24;
     round_space v := 8 + (16 + pairs_space (pl_data v)) |}.
Proof.
  intros [items] buf (Hok & Hn & Hs). simpl in *. pose proof (pairs_space_nonneg items Hok).
  assert (0 ≤ len items) by apply len_nonneg. rewrite swrap_small by lia.
  refine (wrote_struct _ _ (n_items ← pop_int; with_capacity n_items;;
    items ← pop_pairs PK PV (Z.to_nat n_items); mret (mkPairList items)) (mkPairList items) buf _ _); [|lia].
  eapply pushes_seq; [apply pushes_int|by apply pushes_pairs|].
  - unfold i32_range. lia.
  - simpl. intros b1 b2 Hb1 Hb2. apply parses_runs. eapply parses_bind; [by apply decodes_parses|].
    apply (parses_bind _ _ [] b2 tt); [apply parses_res; by rewrite bool_decide_eq_false_2 by lia|].
    rewrite <- (app_nil_r b2). eapply parses_bind; [|apply parses_ret].
    unfold len. by rewrite Nat2Z.id.
Defined.
End pairs.

(** ** Decoding untrusted bytes *)

(** Somewhere in [data] a struct can be read that begins with a negative Int. *)
Definition negative_count (data : list byte) : Prop :=
  ∃ pre rest n s, data = pre ++ rest ∧ decode_struct pop_int rest = Ok (n, s) ∧ n < 0.

(** Reading a struct either fails before its closure runs or runs the closure
    on a part of the data that more data behind it does not change. *)
Lemma decode_struct_cases data :
  (∃ e, ∀ T (m : PM T), decode_struct m data = Err e) ∨
  (∃ pre body post size, data = pre ++ body ++ post ∧ 8 ≤ size ≤ len data ∧ size mod 8 = 0 ∧
    ∀ rest T (m : PM T), decode_struct m (data ++ rest) = (r ← (m (Parser_new body)).2; Ok (r, size))).
Proof.
  assert (∀ d T (m : PM T), decode_struct m d = (pop_struct m (Parser_new d)).2) as Hdef by done.
  unfold pop_struct, available, saturating_sub, Parser_new in Hdef. cbn [p_data p_pos] in Hdef. cbv zeta in Hdef.
  change (0 + 4) with 4 in Hdef. change (0 + 8) with 8 in Hdef. pose proof (len_nonneg data).
  destruct (decide (len data < 8)) as [Hshort|Hlong].
  { left. eexists. intros T m. rewrite Hdef, bool_decide_eq_true_2 by lia. done. }
  destruct (read_u32_ok (E:=PodError) data 0) as (sz & Hsz & Hr); [lia|lia|].
  destruct (read_u32_ok (E:=PodError) data 4) as (ty & Hty & _); [lia|lia|].
  pose proof (pad_8_range sz). pose proof (pod_total_size_u32 sz Hr) as Htot.
  destruct (decide (len data < 8 + sz + pad_8 sz)) as [Hs|Hs].
  { left. eexists. intros T m. rewrite Hdef, bool_decide_eq_false_2, Hsz by lia. res_cbn.
    rewrite Htot. res_cbn. rewrite bool_decide_eq_true_2 by lia. done. }
  destruct (decide (ty = into_u32 TStruct)) as [->|Hne].
  2: { left. eexists. intros T m. rewrite Hdef, bool_decide_eq_false_2, Hsz by lia. res_cbn. rewrite Htot. res_cbn.
    rewrite (bool_decide_eq_false_2 (_ < 8 + _ + _)) by lia. rewrite Hty. res_cbn.
    rewrite bool_decide_eq_true_2 by done. done. }
  right. exists (take 8 data), (take (Z.to_nat sz) (drop 8 data)), (drop (Z.to_nat sz) (drop 8 data)), (8 + sz + pad_8 sz).
  split_and!; [by rewrite !take_drop|lia|lia|apply total_aligned|].
  intros rest T m. pose proof (len_nonneg rest).
  rewrite Hdef, bool_decide_eq_false_2, (read_u32_app_l data rest 0), Hsz by len_lia. res_cbn. rewrite Htot. res_cbn.
  rewrite (bool_decide_eq_false_2 (_ < 8 + _ + _)) by len_lia. rewrite (read_u32_app_l data rest 4), Hty by lia. res_cbn.
  rewrite bool_decide_eq_false_2 by auto. rewrite slice_app_l, slice_Ok by lia. res_cbn.
  replace (8 + sz - 8) with sz by lia. change (Z.to_nat 8) with 8%nat.
  unfold Parser_new. by destruct (m _) as [? [?|?|]].
Qed.

Lemma negative_count_part pre data rest : negative_count data → negative_count (pre ++ data ++ rest).
Proof.
  intros (a & suf & n & s & -> & Hd & Hn). exists (pre ++ a), (suf ++ rest), n, s.
  split; [by rewrite <- !app_assoc|]. split; [|done].
  destruct (decode_struct_cases suf) as [[e He]|(? & ? & ? & ? & _ & _ & _ & Hrun)]; [by rewrite He in Hd|].
  rewrite Hrun. by rewrite <- (app_nil_r suf), Hrun in Hd.
Qed.

Definition calm {T} (U : Pod T) (data : list byte) : Prop :=
  len data ≤ isize_max → ¬ negative_count data → safe_decode (len data) (decode U data).
Class PodCalm {T} (U : Pod T) := pod_calm data : calm U data.
#[global] Hint Mode PodCalm ! ! : typeclass_instances.

#[global] Instance laws_calm {T} (U : Pod T) `{!PodLaws U} : PodCalm U | 10.
Proof. intros data _ _. apply decode_safe. Qed.

Definition pm_calm {A} (m : PM A) : Prop :=
  ∀ p, parser_wf p → ¬ negative_count (p_data p) → moved p (m p).1 ∧ total (m p).2.

Lemma pm_calm_safe {A} (m : PM A) : pm_safe m → pm_calm m.
Proof. intros Hm p Hp _. by apply Hm. Qed.

Lemma pm_calm_then {A B} (m : PM A) (f : A → PM B) :
  pm_calm m →
  (∀ p p' a, parser_wf p → ¬ negative_count (p_data p) → m p = (p', Ok a) → pm_calm (f a)) →
  pm_calm (m ≫= f).
Proof.
  intros Hm Hf p Hp Hn. unfold mbind, pm_bind. destruct (Hm p Hp Hn) as [Hmv Ht].
  destruct (m p) as [p' [a|e|]] eqn:Hr; simpl in *; [|done..].
  destruct (Hf p p' a Hp Hn Hr p') as [Hmv' ?]; [by eapply moved_wf|by rewrite (proj1 Hmv)|].
  split; [by eapply moved_trans|done].
Qed.
Lemma pm_calm_bind {A B} (m : PM A) (f : A → PM B) :
  pm_calm m → (∀ a, pm_calm (f a)) → pm_calm (m ≫= f).
Proof. intros Hm Hf. apply pm_calm_then; auto. Qed.

(** The rest of the data, where [pop_pod] decodes. *)
Lemma wf_rest p : parser_wf p →
  ∃ pre rest, p_data p = pre ++ rest ∧ len pre = p_pos p ∧ len rest = len (p_data p) - p_pos p ∧
    slice_from (E:=PodError) (p_data p) (p_pos p) = Ok rest.
Proof.
  intros [Hpos Hmax]. exists (take (Z.to_nat (p_pos p)) (p_data p)), (drop (Z.to_nat (p_pos p)) (p_data p)).
  rewrite take_drop, len_take, len_drop by lia. split_and!; try done.
  unfold slice_from. rewrite slice_Ok by lia. f_equal. rewrite take_ge; [done|].
  rewrite length_drop. unfold len. lia.
Qed.

Lemma pop_pod_calm {T} (U : Pod T) `{!PodCalm U} : pm_calm (pop_pod U).
Proof.
  intros p Hp Hn. destruct (wf_rest p Hp) as (pre & rest & Hd & Hpre & Hrest & Hs).
  unfold pop_pod. rewrite (available_wf p), Hs by done. simpl. pose proof Hp as [Hpos Hmax].
  assert (safe_decode (len rest) (decode U rest)) as Hsafe.
  { apply pod_calm; [lia|]. intros Hneg. apply Hn. rewrite Hd, <- (app_nil_r rest). by apply negative_count_part. }
  destruct (decode U rest) as [[v n]|e|]; simpl in *; [|split; [by apply moved_refl|done]|done].
  case_bool_decide; simpl; [by split; [apply moved_refl|]|].
  unfold checked_add, isize_max in *. rewrite bool_decide_eq_true_2 by lia.
  split; [|done]. apply moved_step; [done|lia].
Qed.

Lemma pop_struct_calm {T} (m : PM T) : pm_calm m → pm_calm (pop_struct m).
Proof.
  intros Hm p Hp Hn. apply pop_struct_step; [done|]. intros pre body rest Hd. apply Hm.
  - apply Parser_new_wf. destruct Hp as [_ Hmax]. rewrite Hd in Hmax. len_lia.
  - intros Hneg. apply Hn. rewrite Hd. by apply negative_count_part.
Qed.

Lemma pop_struct_size {T} (m : PM T) p p' v n :
  parser_wf p → pop_struct m p = (p', Ok (v, n)) → 8 ≤ n ≤ len (p_data p) - p_pos p ∧ n mod 8 = 0.
Proof.
  intros Hp. unfold pop_struct. rewrite (available_wf p) by done. cbv zeta. pose proof Hp as [Hpos Hmax].
  repeat (commit_step; try done). destruct (m _).2 as [r| |]; try done. simpl. intros [= <- <- <-].
  split; [lia|apply total_aligned].
Qed.

Lemma decode_struct_calm {T} (m : PM T) data :
  pm_calm m → len data ≤ isize_max → ¬ negative_count data → safe_decode (len data) (decode_struct m data).
Proof.
  intros Hm Hl Hn. unfold decode_struct. pose proof (Parser_new_wf data Hl) as Hwf.
  destruct (pop_struct_calm m Hm (Parser_new data)) as [_ Ht]; [done|done|].
  destruct (pop_struct m (Parser_new data)) as [p' [[v n]|e|]] eqn:Hp; simpl in *; [|done|done].
  apply pop_struct_size in Hp as [? ?]; [|done]. simpl in *. split; [lia|done].
Qed.

Class FieldsCalm {A} (F : Fields A) := fields_calm : pm_calm (fields_decode F).
#[global] Instance no_fields_calm : FieldsCalm no_fields.
Proof. apply pm_calm_safe, pm_ret_safe. Qed.
#[global] Instance field_calm {T A} (U : Pod T) (F : Fields A) `{!PodCalm U} `{HF : !FieldsCalm F} :
  FieldsCalm (field U F).
Proof.
  apply pm_calm_bind; [apply pop_pod_calm; apply _|]. intros x. apply pm_calm_bind; [done|].
  intros fs. apply pm_calm_safe, pm_ret_safe.
Qed.
#[global] Instance derive_calm {A S} (F : Fields A) `{HF : !FieldsCalm F} (to : S → A) (from : A → S) :
  PodCalm (derive_pod_struct F to from).
Proof.
  intros data Hl Hn. apply decode_struct_calm; [|done|done]. apply pm_calm_bind; [done|].
  intros fs. apply pm_calm_safe, pm_ret_safe.
Qed.

(** ** Pair lists decode calmly: the struct of one begins with its count *)
Lemma pop_pairs_calm {K V} (PK : Pod K) (PV : Pod V) `{!PodCalm PK} `{!PodCalm PV} n :
  pm_calm (pop_pairs PK PV n).
Proof.
  induction n as [|n IH]; simpl; [apply pm_calm_safe, pm_ret_safe|].
  apply pm_calm_bind; [apply pop_pod_calm; apply _|]. intros k. apply pm_calm_bind; [apply pop_pod_calm; apply _|].
  intros v. apply pm_calm_bind; [done|]. intros items. apply pm_calm_safe, pm_ret_safe.
Qed.

Lemma pop_items_calm {K V} (PK : Pod K) (PV : Pod V) `{!PodCalm PK} `{!PodCalm PV} n :
  0 ≤ n → pm_calm (with_capacity n;; items ← pop_pairs PK PV (Z.to_nat n); mret (mkPairList items)).
Proof.
  intros Hn. apply pm_calm_bind; [apply pm_calm_safe, pm_res_safe; by rewrite bool_decide_eq_false_2 by lia|].
  intros _. apply pm_calm_bind; [by apply pop_pairs_calm|]. intros items. apply pm_calm_safe, pm_ret_safe.
Qed.

#[global] Instance pairs_calm {K V} (PK : Pod K) (PV : Pod V) `{!PodCalm PK} `{!PodCalm PV} :
  PodCalm (pod_pairs PK PV).
Proof.
  intros data Hl Hn. cbn [decode pod_pairs].
  destruct (decode_struct_cases data) as [[e He]|(pre & body & post & size & Hd & Hsize & Ha & Hrun)]; [by rewrite He|].
  specialize (Hrun []). setoid_rewrite app_nil_r in Hrun. rewrite Hrun.
  assert (parser_wf (Parser_new body)) as Hwf.
  { apply Parser_new_wf. rewrite Hd in Hl. len_lia. }
  assert (¬ negative_count body) as Hnb by (intros Hb; apply Hn; rewrite Hd; by apply negative_count_part).
  assert (pm_safe pop_int) as Hs by (apply pop_pod_safe; apply _). destruct (Hs _ Hwf) as [Hmv Ht].
  unfold mbind at 2, pm_bind at 1. destruct (pop_int (Parser_new body)) as [q [n|e|]] eqn:Hq; simpl in Ht; try done.
  assert (0 ≤ n) as Hn0.
  { destruct (decide (0 ≤ n)); [done|]. destruct Hn. exists [], data, n, size. split; [done|].
    split; [|lia]. rewrite Hrun, Hq. done. }
  destruct (pop_items_calm PK PV n Hn0 q) as [_ Hi]; [by eapply moved_wf|
    destruct Hmv as [Hqd _]; simpl in Hqd; by rewrite Hqd|].
  revert Hi. generalize (with_capacity n;; items ← pop_pairs PK PV (Z.to_nat n); mret (mkPairList items)) as m.
  intros m Hi. destruct (m q) as [q' [items|e|]]; simpl in *; [split; [lia|done]|done|done].
Qed.

(** ** The enumerations of messages *)
Class MarshalRound {M} (P : Marshallable M) := {
  mr_ok : M → Prop;
  mr_space : M → Z;
  mr_opcode m : 0 ≤ msg_opcode P m < 256;
  mr_round m buf :
    mr_ok m → wrote buf (mr_space m)
      (λ bs, ∀ rest, len (bs ++ rest) ≤ isize_max → m_decode P (msg_opcode P m) (bs ++ rest) = Ok (m, len bs))
      (m_encode P m buf);
}.
#[global] Hint Mode MarshalRound ! ! : typeclass_instances.
Arguments mr_ok {M} P {_} _.
Arguments mr_space {M} P {_} _.

Lemma decode_variants_lookup {M} ds (vs : list (Variant M)) i d v bs :
  NoDup ds → ds !! i = Some d → vs !! i = Some v → decode_variants ds vs d bs = v.2 bs.
Proof.
  revert ds i. induction vs as [|w vs IH]; intros ds i Hnd Hd Hv; [done|].
  destruct ds as [|e ds]; [done|]. apply NoDup_cons in Hnd as [He Hnd]. simpl.
  destruct i as [|i]; simplify_eq/=; [by rewrite bool_decide_eq_true_2|].
  rewrite bool_decide_eq_false_2; [by eapply IH|]. intros ->. by apply list_elem_of_lookup_2 in Hd.
Qed.

(** A variant round trips if its payload does. *)
Lemma variant_round {T M} (vs : list (Variant M)) index payload (m : M) i d op (U : Pod T) `{!PodRound U} con o buf :
  NoDup (discriminants 0 (fst <$> vs)) → index m = i →
  discriminants 0 (fst <$> vs) !! i = Some op → vs !! i = Some (variant d U con) →
  m = con o → payload m = encode U o → round_ok U o →
  wrote buf (round_space U o)
    (λ bs, ∀ rest, len (bs ++ rest) ≤ isize_max →
      m_decode (derive_marshallable vs index payload) (msg_opcode (derive_marshallable vs index payload) m) (bs ++ rest)
      = Ok (m, len bs))
    (m_encode (derive_marshallable vs index payload) m buf).
Proof.
  intros Hnd Hi Hop Hv Hm Hp Hok. simpl. rewrite Hp, Hi, Hop. simpl.
  destruct (round_encode (U:=U) o buf Hok) as [(bs & -> & ? & ? & ? & ? & Hd)|Hshort]; [left|by right].
  exists bs. split_and!; try done. intros rest Hl. rewrite (decode_variants_lookup _ _ _ _ _ _ Hnd Hop Hv).
  simpl. rewrite Hd by done. simpl. by rewrite Hm.
Qed.

Class MarshalCalm {M} (P : Marshallable M) :=
  mr_calm op data : len data ≤ isize_max → ¬ negative_count data → safe_decode (len data) (m_decode P op data).

Lemma variants_calm {M} (vs : list (Variant M)) index payload :
  Forall (λ v : Variant M, ∀ data, len data ≤ isize_max → ¬ negative_count data → safe_decode (len data) (v.2 data)) vs →
  MarshalCalm (derive_marshallable vs index payload).
Proof.
  intros Hvs op data Hl Hn. simpl. generalize (discriminants 0 (fst <$> vs)) as ds.
  induction Hvs as [|v vs Hv _ IH]; intros ds; destruct ds as [|d ds]; simpl; try done.
  case_bool_decide; [by apply Hv|apply IH].
Qed.
Lemma variant_calm {T M} d (U : Pod T) `{!PodCalm U} (con : T → M) data :
  len data ≤ isize_max → ¬ negative_count data → safe_decode (len data) ((variant d U con).2 data).
Proof.
  intros Hl Hn. pose proof (pod_calm (U:=U) data Hl Hn) as Hs. simpl.
  by destruct (decode U data) as [[o s]| |].
Qed.
