(* ===== verification/MarshalMessages.v ===== *)
(** * Messages of the client library

    The message types of [pipewire/src/protocol/marshal/], one section per
    file: the structs with the codec [derive(PodStruct)] generates for them
    and the enumerations with the one of [derive(Marshallable)]. The names
    carry the interface, since most files have a struct [Info]. *)

From S2P Require Import Prelude Utf8 PodTypes PodCodec PodLaws PodCompound PodParser PodParserLaws.
From S2P Require Import PodBuilder SpaParam Marshal MarshalLaws.

(** [enum NodeState] of [proxy/node.rs] *)
Inductive NodeState := NsError | NsCreating | NsSuspended | NsIdle | NsRunning.
#[global] Instance NodeState_eq_dec : EqDecision NodeState.
Proof. solve_decision. Defined.
Definition NodeState_variants : list (NodeState * option Z) :=
  [(NsError, None); (NsCreating, None); (NsSuspended, None); (NsIdle, None); (NsRunning, None)].
#[global] Instance NodeState_conv : U32Conv NodeState := derived_conv NodeState_variants.
#[global] Instance NodeState_laws : U32ConvLaws NodeState.
Proof. solve_table. Defined.

(** One case per variant, each by [variant_round]. *)
Ltac derive_marshal P :=
  lazymatch goal with
  | |- ∀ m, 0 ≤ msg_opcode _ m < 256 => intros []; cbn; lia
  | |- _ =>
      intros m buf Hok; unfold P; destruct m; cbn in Hok;
      (eapply variant_round; [apply (bool_decide_unpack _); by vm_compute|reflexivity..|exact Hok])
  end.
Ltac derive_calmness :=
  repeat (apply Forall_cons_2; [intros data Hl Hn; eapply variant_calm; [apply _|exact Hl|exact Hn]|]);
  apply Forall_nil_2.


(** ** [marshal/core.rs] *)

Record CoreHello := mkCoreHello { core_hello_version : Z }.
Definition pod_CoreHello : Pod CoreHello := derive_pod_struct
  (field pod_i32 no_fields)
  (λ v, (core_hello_version v, tt))
  (λ '(x0, _), mkCoreHello x0).
#[global] Instance CoreHello_round : PodRound pod_CoreHello .
Proof. derive_struct. Defined.
#[global] Instance CoreHello_calm : PodCalm pod_CoreHello .
Proof. apply derive_calm; apply _. Qed.

Record CoreSync := mkCoreSync { core_sync_id : Z; core_sync_seq : Z }.
Definition pod_CoreSync : Pod CoreSync := derive_pod_struct
  (field pod_i32 (field pod_i32 no_fields))
  (λ v, (core_sync_id v, (core_sync_seq v, tt)))
  (λ '(x0, (x1, _)), mkCoreSync x0 x1).
#[global] Instance CoreSync_round : PodRound pod_CoreSync .
Proof. derive_struct. Defined.
#[global] Instance CoreSync_calm : PodCalm pod_CoreSync .
Proof. apply derive_calm; apply _. Qed.

Record CorePong := mkCorePong { core_pong_id : Z; core_pong_seq : Z }.
Definition pod_CorePong : Pod CorePong := derive_pod_struct
  (field pod_i32 (field pod_i32 no_fields))
  (λ v, (core_pong_id v, (core_pong_seq v, tt)))
  (λ '(x0, (x1, _)), mkCorePong x0 x1).
#[global] Instance CorePong_round : PodRound pod_CorePong .
Proof. derive_struct. Defined.
#[global] Instance CorePong_calm : PodCalm pod_CorePong .
Proof. apply derive_calm; apply _. Qed.

Record CoreErrorMethod := mkCoreErrorMethod { core_error_method_id : Z; core_error_method_seq : Z;
  core_error_method_res : Z; core_error_method_message : list byte }.
Definition pod_CoreErrorMethod : Pod CoreErrorMethod := derive_pod_struct
  (field pod_i32 (field pod_i32 (field pod_i32 (field pod_str no_fields))))
  (λ v, (core_error_method_id v, (core_error_method_seq v, (core_error_method_res v,
    (core_error_method_message v, tt)))))
  (λ '(x0, (x1, (x2, (x3, _)))), mkCoreErrorMethod x0 x1 x2 x3).
#[global] Instance CoreErrorMethod_round : PodRound pod_CoreErrorMethod .
Proof. derive_struct. Defined.
#[global] Instance CoreErrorMethod_calm : PodCalm pod_CoreErrorMethod .
Proof. apply derive_calm; apply _. Qed.

Record CoreGetRegistry := mkCoreGetRegistry { core_get_registry_version : Z;
  core_get_registry_new_id : Z }.
Definition pod_CoreGetRegistry : Pod CoreGetRegistry := derive_pod_struct
  (field pod_i32 (field pod_i32 no_fields))
  (λ v, (core_get_registry_version v, (core_get_registry_new_id v, tt)))
  (λ '(x0, (x1, _)), mkCoreGetRegistry x0 x1).
#[global] Instance CoreGetRegistry_round : PodRound pod_CoreGetRegistry .
Proof. derive_struct. Defined.
#[global] Instance CoreGetRegistry_calm : PodCalm pod_CoreGetRegistry .
Proof. apply derive_calm; apply _. Qed.

Record CoreCreateObject := mkCoreCreateObject { core_create_object_factory_name : list byte;
  core_create_object_type : list byte; core_create_object_version : Z;
  core_create_object_props : PairList (list byte) (list byte); core_create_object_new_id : Z }.
Definition pod_CoreCreateObject : Pod CoreCreateObject := derive_pod_struct
  (field pod_str (field pod_str (field pod_i32 (field (pod_pairs pod_str pod_str) (field pod_i32
    no_fields)))))
  (λ v, (core_create_object_factory_name v, (core_create_object_type v, (core_create_object_version v,
    (core_create_object_props v, (core_create_object_new_id v, tt))))))
  (λ '(x0, (x1, (x2, (x3, (x4, _))))), mkCoreCreateObject x0 x1 x2 x3 x4).
#[global] Instance CoreCreateObject_round : PodRound pod_CoreCreateObject .
Proof. derive_struct. Defined.
#[global] Instance CoreCreateObject_calm : PodCalm pod_CoreCreateObject .
Proof. apply derive_calm; apply _. Qed.

Record CoreDestroy := mkCoreDestroy { core_destroy_id : Z }.
Definition pod_CoreDestroy : Pod CoreDestroy := derive_pod_struct
  (field pod_i32 no_fields)
  (λ v, (core_destroy_id v, tt))
  (λ '(x0, _), mkCoreDestroy x0).
#[global] Instance CoreDestroy_round : PodRound pod_CoreDestroy .
Proof. derive_struct. Defined.
#[global] Instance CoreDestroy_calm : PodCalm pod_CoreDestroy .
Proof. apply derive_calm; apply _. Qed.

Record CoreInfo := mkCoreInfo { core_info_id : Z; core_info_cookie : Z;
  core_info_user_name : list byte; core_info_host_name : list byte; core_info_version : list byte;
  core_info_name : list byte; core_info_change_mask : Z;
  core_info_props : PairList (list byte) (list byte) }.
Definition pod_CoreInfo : Pod CoreInfo := derive_pod_struct
  (field pod_i32 (field pod_i32 (field pod_str (field pod_str (field pod_str (field pod_str (field
    pod_i64 (field (pod_pairs pod_str pod_str) no_fields))))))))
  (λ v, (core_info_id v, (core_info_cookie v, (core_info_user_name v, (core_info_host_name v,
    (core_info_version v, (core_info_name v, (core_info_change_mask v, (core_info_props v, tt)))))))))
  (λ '(x0, (x1, (x2, (x3, (x4, (x5, (x6, (x7, _)))))))), mkCoreInfo x0 x1 x2 x3 x4 x5 x6 x7).
#[global] Instance CoreInfo_round : PodRound pod_CoreInfo .
Proof. derive_struct. Defined.
#[global] Instance CoreInfo_calm : PodCalm pod_CoreInfo .
Proof. apply derive_calm; apply _. Qed.

Record CoreDone := mkCoreDone { core_done_id : Z; core_done_seq : Z }.
Definition pod_CoreDone : Pod CoreDone := derive_pod_struct
  (field pod_i32 (field pod_i32 no_fields))
  (λ v, (core_done_id v, (core_done_seq v, tt)))
  (λ '(x0, (x1, _)), mkCoreDone x0 x1).
#[global] Instance CoreDone_round : PodRound pod_CoreDone .
Proof. derive_struct. Defined.
#[global] Instance CoreDone_calm : PodCalm pod_CoreDone .
Proof. apply derive_calm; apply _. Qed.

Record CorePing := mkCorePing { core_ping_id : Z; core_ping_seq : Z }.
Definition pod_CorePing : Pod CorePing := derive_pod_struct
  (field pod_i32 (field pod_i32 no_fields))
  (λ v, (core_ping_id v, (core_ping_seq v, tt)))
  (λ '(x0, (x1, _)), mkCorePing x0 x1).
#[global] Instance CorePing_round : PodRound pod_CorePing .
Proof. derive_struct. Defined.
#[global] Instance CorePing_calm : PodCalm pod_CorePing .
Proof. apply derive_calm; apply _. Qed.

Record CoreErrorEvent := mkCoreErrorEvent { core_error_event_id : Z; core_error_event_seq : Z;
  core_error_event_res : Z; core_error_event_message : list byte }.
Definition pod_CoreErrorEvent : Pod CoreErrorEvent := derive_pod_struct
  (field pod_i32 (field pod_i32 (field pod_i32 (field pod_str no_fields))))
  (λ v, (core_error_event_id v, (core_error_event_seq v, (core_error_event_res v,
    (core_error_event_message v, tt)))))
  (λ '(x0, (x1, (x2, (x3, _)))), mkCoreErrorEvent x0 x1 x2 x3).
#[global] Instance CoreErrorEvent_round : PodRound pod_CoreErrorEvent .
Proof. derive_struct. Defined.
#[global] Instance CoreErrorEvent_calm : PodCalm pod_CoreErrorEvent .
Proof. apply derive_calm; apply _. Qed.

Record CoreRemoveId := mkCoreRemoveId { core_remove_id_id : Z }.
Definition pod_CoreRemoveId : Pod CoreRemoveId := derive_pod_struct
  (field pod_i32 no_fields)
  (λ v, (core_remove_id_id v, tt))
  (λ '(x0, _), mkCoreRemoveId x0).
#[global] Instance CoreRemoveId_round : PodRound pod_CoreRemoveId .
Proof. derive_struct. Defined.
#[global] Instance CoreRemoveId_calm : PodCalm pod_CoreRemoveId .
Proof. apply derive_calm; apply _. Qed.

Record CoreBoundId := mkCoreBoundId { core_bound_id_id : Z; core_bound_id_global_id : Z }.
Definition pod_CoreBoundId : Pod CoreBoundId := derive_pod_struct
  (field pod_i32 (field pod_i32 no_fields))
  (λ v, (core_bound_id_id v, (core_bound_id_global_id v, tt)))
  (λ '(x0, (x1, _)), mkCoreBoundId x0 x1).
#[global] Instance CoreBoundId_round : PodRound pod_CoreBoundId .
Proof. derive_struct. Defined.
#[global] Instance CoreBoundId_calm : PodCalm pod_CoreBoundId .
Proof. apply derive_calm; apply _. Qed.

Record CoreAddMem := mkCoreAddMem { core_add_mem_id : Z; core_add_mem_type : Id Z;
  core_add_mem_fd : Fd; core_add_mem_flags : Z }.
Definition pod_CoreAddMem : Pod CoreAddMem := derive_pod_struct
  (field pod_i32 (field (pod_id Z) (field pod_fd (field pod_i32 no_fields))))
  (λ v, (core_add_mem_id v, (core_add_mem_type v, (core_add_mem_fd v, (core_add_mem_flags v, tt)))))
  (λ '(x0, (x1, (x2, (x3, _)))), mkCoreAddMem x0 x1 x2 x3).
#[global] Instance CoreAddMem_round : PodRound pod_CoreAddMem .
Proof. derive_struct. Defined.
#[global] Instance CoreAddMem_calm : PodCalm pod_CoreAddMem .
Proof. apply derive_calm; apply _. Qed.

Record CoreRemoveMem := mkCoreRemoveMem { core_remove_mem_id : Z }.
Definition pod_CoreRemoveMem : Pod CoreRemoveMem := derive_pod_struct
  (field pod_i32 no_fields)
  (λ v, (core_remove_mem_id v, tt))
  (λ '(x0, _), mkCoreRemoveMem x0).
#[global] Instance CoreRemoveMem_round : PodRound pod_CoreRemoveMem .
Proof. derive_struct. Defined.
#[global] Instance CoreRemoveMem_calm : PodCalm pod_CoreRemoveMem .
Proof. apply derive_calm; apply _. Qed.

Record CoreBoundProps := mkCoreBoundProps { core_bound_props_id : Z;
  core_bound_props_global_id : Z; core_bound_props_props : PairList (list byte) (list byte) }.
Definition pod_CoreBoundProps : Pod CoreBoundProps := derive_pod_struct
  (field pod_i32 (field pod_i32 (field (pod_pairs pod_str pod_str) no_fields)))
  (λ v, (core_bound_props_id v, (core_bound_props_global_id v, (core_bound_props_props v, tt))))
  (λ '(x0, (x1, (x2, _))), mkCoreBoundProps x0 x1 x2).
#[global] Instance CoreBoundProps_round : PodRound pod_CoreBoundProps .
Proof. derive_struct. Defined.
#[global] Instance CoreBoundProps_calm : PodCalm pod_CoreBoundProps .
Proof. apply derive_calm; apply _. Qed.

Inductive CoreMethods :=
| CoreMethods_Hello (o : CoreHello)
| CoreMethods_Sync (o : CoreSync)
| CoreMethods_Pong (o : CorePong)
| CoreMethods_Error (o : CoreErrorMethod)
| CoreMethods_GetRegistry (o : CoreGetRegistry)
| CoreMethods_CreateObject (o : CoreCreateObject)
| CoreMethods_Destroy (o : CoreDestroy).
Definition CoreMethods_variants : list (Variant CoreMethods) :=
  [variant (Some 1) pod_CoreHello CoreMethods_Hello;
   variant None pod_CoreSync CoreMethods_Sync;
   variant None pod_CorePong CoreMethods_Pong;
   variant None pod_CoreErrorMethod CoreMethods_Error;
   variant None pod_CoreGetRegistry CoreMethods_GetRegistry;
   variant None pod_CoreCreateObject CoreMethods_CreateObject;
   variant None pod_CoreDestroy CoreMethods_Destroy].
Definition CoreMethods_index (m : CoreMethods) : nat :=
  match m with CoreMethods_Hello _ => 0 | CoreMethods_Sync _ => 1 | CoreMethods_Pong _ => 2 |
    CoreMethods_Error _ => 3 | CoreMethods_GetRegistry _ => 4 | CoreMethods_CreateObject _ => 5 |
    CoreMethods_Destroy _ => 6 end.
Definition CoreMethods_payload (m : CoreMethods) : PodW Z :=
  match m with
  | CoreMethods_Hello o => encode pod_CoreHello o
  | CoreMethods_Sync o => encode pod_CoreSync o
  | CoreMethods_Pong o => encode pod_CorePong o
  | CoreMethods_Error o => encode pod_CoreErrorMethod o
  | CoreMethods_GetRegistry o => encode pod_CoreGetRegistry o
  | CoreMethods_CreateObject o => encode pod_CoreCreateObject o
  | CoreMethods_Destroy o => encode pod_CoreDestroy o
  end.
Definition CoreMethods_marshal : Marshallable CoreMethods :=
  derive_marshallable CoreMethods_variants CoreMethods_index CoreMethods_payload.
Definition CoreMethods_ok (m : CoreMethods) : Prop :=
  match m with
  | CoreMethods_Hello o => round_ok pod_CoreHello o
  | CoreMethods_Sync o => round_ok pod_CoreSync o
  | CoreMethods_Pong o => round_ok pod_CorePong o
  | CoreMethods_Error o => round_ok pod_CoreErrorMethod o
  | CoreMethods_GetRegistry o => round_ok pod_CoreGetRegistry o
  | CoreMethods_CreateObject o => round_ok pod_CoreCreateObject o
  | CoreMethods_Destroy o => round_ok pod_CoreDestroy o
  end.
Definition CoreMethods_space (m : CoreMethods) : Z :=
  match m with
  | CoreMethods_Hello o => round_space pod_CoreHello o
  | CoreMethods_Sync o => round_space pod_CoreSync o
  | CoreMethods_Pong o => round_space pod_CorePong o
  | CoreMethods_Error o => round_space pod_CoreErrorMethod o
  | CoreMethods_GetRegistry o => round_space pod_CoreGetRegistry o
  | CoreMethods_CreateObject o => round_space pod_CoreCreateObject o
  | CoreMethods_Destroy o => round_space pod_CoreDestroy o
  end.
#[global, refine] Instance CoreMethods_round : MarshalRound CoreMethods_marshal := {| mr_ok :=
  CoreMethods_ok; mr_space := CoreMethods_space |}.
Proof. all: derive_marshal CoreMethods_marshal. Defined.
#[global] Instance CoreMethods_calm : MarshalCalm CoreMethods_marshal.
Proof. apply variants_calm. derive_calmness. Qed.

Inductive CoreEvents :=
| CoreEvents_Info (o : CoreInfo)
| CoreEvents_Done (o : CoreDone)
| CoreEvents_Ping (o : CorePing)
| CoreEvents_Error (o : CoreErrorEvent)
| CoreEvents_RemoveId (o : CoreRemoveId)
| CoreEvents_BoundId (o : CoreBoundId)
| CoreEvents_AddMem (o : CoreAddMem)
| CoreEvents_RemoveMem (o : CoreRemoveMem)
| CoreEvents_BoundProps (o : CoreBoundProps).
Definition CoreEvents_variants : list (Variant CoreEvents) :=
  [variant None pod_CoreInfo CoreEvents_Info;
   variant None pod_CoreDone CoreEvents_Done;
   variant None pod_CorePing CoreEvents_Ping;
   variant None pod_CoreErrorEvent CoreEvents_Error;
   variant None pod_CoreRemoveId CoreEvents_RemoveId;
   variant None pod_CoreBoundId CoreEvents_BoundId;
   variant None pod_CoreAddMem CoreEvents_AddMem;
   variant None pod_CoreRemoveMem CoreEvents_RemoveMem;
   variant None pod_CoreBoundProps CoreEvents_BoundProps].
Definition CoreEvents_index (m : CoreEvents) : nat :=
  match m with CoreEvents_Info _ => 0 | CoreEvents_Done _ => 1 | CoreEvents_Ping _ => 2 |
    CoreEvents_Error _ => 3 | CoreEvents_RemoveId _ => 4 | CoreEvents_BoundId _ => 5 | CoreEvents_AddMem
    _ => 6 | CoreEvents_RemoveMem _ => 7 | CoreEvents_BoundProps _ => 8 end.
Definition CoreEvents_payload (m : CoreEvents) : PodW Z :=
  match m with
  | CoreEvents_Info o => encode pod_CoreInfo o
  | CoreEvents_Done o => encode pod_CoreDone o
  | CoreEvents_Ping o => encode pod_CorePing o
  | CoreEvents_Error o => encode pod_CoreErrorEvent o
  | CoreEvents_RemoveId o => encode pod_CoreRemoveId o
  | CoreEvents_BoundId o => encode pod_CoreBoundId o
  | CoreEvents_AddMem o => encode pod_CoreAddMem o
  | CoreEvents_RemoveMem o => encode pod_CoreRemoveMem o
  | CoreEvents_BoundProps o => encode pod_CoreBoundProps o
  end.
Definition CoreEvents_marshal : Marshallable CoreEvents :=
  derive_marshallable CoreEvents_variants CoreEvents_index CoreEvents_payload.
Definition CoreEvents_ok (m : CoreEvents) : Prop :=
  match m with
  | CoreEvents_Info o => round_ok pod_CoreInfo o
  | CoreEvents_Done o => round_ok pod_CoreDone o
  | CoreEvents_Ping o => round_ok pod_CorePing o
  | CoreEvents_Error o => round_ok pod_CoreErrorEvent o
  | CoreEvents_RemoveId o => round_ok pod_CoreRemoveId o
  | CoreEvents_BoundId o => round_ok pod_CoreBoundId o
  | CoreEvents_AddMem o => round_ok pod_CoreAddMem o
  | CoreEvents_RemoveMem o => round_ok pod_CoreRemoveMem o
  | CoreEvents_BoundProps o => round_ok pod_CoreBoundProps o
  end.
Definition CoreEvents_space (m : CoreEvents) : Z :=
  match m with
  | CoreEvents_Info o => round_space pod_CoreInfo o
  | CoreEvents_Done o => round_space pod_CoreDone o
  | CoreEvents_Ping o => round_space pod_CorePing o
  | CoreEvents_Error o => round_space pod_CoreErrorEvent o
  | CoreEvents_RemoveId o => round_space pod_CoreRemoveId o
  | CoreEvents_BoundId o => round_space pod_CoreBoundId o
  | CoreEvents_AddMem o => round_space pod_CoreAddMem o
  | CoreEvents_RemoveMem o => round_space pod_CoreRemoveMem o
  | CoreEvents_BoundProps o => round_space pod_CoreBoundProps o
  end.
#[global, refine] Instance CoreEvents_round : MarshalRound CoreEvents_marshal := {| mr_ok :=
  CoreEvents_ok; mr_space := CoreEvents_space |}.
Proof. all: derive_marshal CoreEvents_marshal. Defined.
#[global] Instance CoreEvents_calm : MarshalCalm CoreEvents_marshal.
Proof. apply variants_calm. derive_calmness. Qed.

(** ** [marshal/client.rs] *)

Record ClientError := mkClientError { client_error_id : Z; client_error_res : Z;
  client_error_message : list byte }.
Definition pod_ClientError : Pod ClientError := derive_pod_struct
  (field pod_i32 (field pod_i32 (field pod_str no_fields)))
  (λ v, (client_error_id v, (client_error_res v, (client_error_message v, tt))))
  (λ '(x0, (x1, (x2, _))), mkClientError x0 x1 x2).
#[global] Instance ClientError_round : PodRound pod_ClientError .
Proof. derive_struct. Defined.
#[global] Instance ClientError_calm : PodCalm pod_ClientError .
Proof. apply derive_calm; apply _. Qed.

Record ClientUpdateProperties := mkClientUpdateProperties {
  client_update_properties_props : PairList (list byte) (list byte) }.
Definition pod_ClientUpdateProperties : Pod ClientUpdateProperties := derive_pod_struct
  (field (pod_pairs pod_str pod_str) no_fields)
  (λ v, (client_update_properties_props v, tt))
  (λ '(x0, _), mkClientUpdateProperties x0).
#[global] Instance ClientUpdateProperties_round : PodRound pod_ClientUpdateProperties .
Proof. derive_struct. Defined.
#[global] Instance ClientUpdateProperties_calm : PodCalm pod_ClientUpdateProperties .
Proof. apply derive_calm; apply _. Qed.

Record ClientGetPermissions := mkClientGetPermissions { client_get_permissions_index : Z;
  client_get_permissions_num : Z }.
Definition pod_ClientGetPermissions : Pod ClientGetPermissions := derive_pod_struct
  (field pod_i32 (field pod_i32 no_fields))
  (λ v, (client_get_permissions_index v, (client_get_permissions_num v, tt)))
  (λ '(x0, (x1, _)), mkClientGetPermissions x0 x1).
#[global] Instance ClientGetPermissions_round : PodRound pod_ClientGetPermissions .
Proof. derive_struct. Defined.
#[global] Instance ClientGetPermissions_calm : PodCalm pod_ClientGetPermissions .
Proof. apply derive_calm; apply _. Qed.

Record ClientUpdatePermissions := mkClientUpdatePermissions {
  client_update_permissions_permissions : PairList Z Z }.
Definition pod_ClientUpdatePermissions : Pod ClientUpdatePermissions := derive_pod_struct
  (field (pod_pairs pod_i32 pod_i32) no_fields)
  (λ v, (client_update_permissions_permissions v, tt))
  (λ '(x0, _), mkClientUpdatePermissions x0).
#[global] Instance ClientUpdatePermissions_round : PodRound pod_ClientUpdatePermissions .
Proof. derive_struct. Defined.
#[global] Instance ClientUpdatePermissions_calm : PodCalm pod_ClientUpdatePermissions .
Proof. apply derive_calm; apply _. Qed.

Record ClientInfo := mkClientInfo { client_info_id : Z; client_info_change_mask : Z;
  client_info_props : PairList (list byte) (list byte) }.
Definition pod_ClientInfo : Pod ClientInfo := derive_pod_struct
  (field pod_i32 (field pod_i64 (field (pod_pairs pod_str pod_str) no_fields)))
  (λ v, (client_info_id v, (client_info_change_mask v, (client_info_props v, tt))))
  (λ '(x0, (x1, (x2, _))), mkClientInfo x0 x1 x2).
#[global] Instance ClientInfo_round : PodRound pod_ClientInfo .
Proof. derive_struct. Defined.
#[global] Instance ClientInfo_calm : PodCalm pod_ClientInfo .
Proof. apply derive_calm; apply _. Qed.

Record ClientPermissions := mkClientPermissions { client_permissions_index : Z;
  client_permissions_permissions : PairList Z Z }.
Definition pod_ClientPermissions : Pod ClientPermissions := derive_pod_struct
  (field pod_i32 (field (pod_pairs pod_i32 pod_i32) no_fields))
  (λ v, (client_permissions_index v, (client_permissions_permissions v, tt)))
  (λ '(x0, (x1, _)), mkClientPermissions x0 x1).
#[global] Instance ClientPermissions_round : PodRound pod_ClientPermissions .
Proof. derive_struct. Defined.
#[global] Instance ClientPermissions_calm : PodCalm pod_ClientPermissions .
Proof. apply derive_calm; apply _. Qed.

Inductive ClientMethods :=
| ClientMethods_Error (o : ClientError)
| ClientMethods_UpdateProperties (o : ClientUpdateProperties)
| ClientMethods_GetPermissions (o : ClientGetPermissions)
| ClientMethods_UpdatePermissions (o : ClientUpdatePermissions).
Definition ClientMethods_variants : list (Variant ClientMethods) :=
  [variant (Some 1) pod_ClientError ClientMethods_Error;
   variant None pod_ClientUpdateProperties ClientMethods_UpdateProperties;
   variant None pod_ClientGetPermissions ClientMethods_GetPermissions;
   variant None pod_ClientUpdatePermissions ClientMethods_UpdatePermissions].
Definition ClientMethods_index (m : ClientMethods) : nat :=
  match m with ClientMethods_Error _ => 0 | ClientMethods_UpdateProperties _ => 1 |
    ClientMethods_GetPermissions _ => 2 | ClientMethods_UpdatePermissions _ => 3 end.
Definition ClientMethods_payload (m : ClientMethods) : PodW Z :=
  match m with
  | ClientMethods_Error o => encode pod_ClientError o
  | ClientMethods_UpdateProperties o => encode pod_ClientUpdateProperties o
  | ClientMethods_GetPermissions o => encode pod_ClientGetPermissions o
  | ClientMethods_UpdatePermissions o => encode pod_ClientUpdatePermissions o
  end.
Definition ClientMethods_marshal : Marshallable ClientMethods :=
  derive_marshallable ClientMethods_variants ClientMethods_index ClientMethods_payload.
Definition ClientMethods_ok (m : ClientMethods) : Prop :=
  match m with
  | ClientMethods_Error o => round_ok pod_ClientError o
  | ClientMethods_UpdateProperties o => round_ok pod_ClientUpdateProperties o
  | ClientMethods_GetPermissions o => round_ok pod_ClientGetPermissions o
  | ClientMethods_UpdatePermissions o => round_ok pod_ClientUpdatePermissions o
  end.
Definition ClientMethods_space (m : ClientMethods) : Z :=
  match m with
  | ClientMethods_Error o => round_space pod_ClientError o
  | ClientMethods_UpdateProperties o => round_space pod_ClientUpdateProperties o
  | ClientMethods_GetPermissions o => round_space pod_ClientGetPermissions o
  | ClientMethods_UpdatePermissions o => round_space pod_ClientUpdatePermissions o
  end.
#[global, refine] Instance ClientMethods_round : MarshalRound ClientMethods_marshal := {| mr_ok :=
  ClientMethods_ok; mr_space := ClientMethods_space |}.
Proof. all: derive_marshal ClientMethods_marshal. Defined.
#[global] Instance ClientMethods_calm : MarshalCalm ClientMethods_marshal.
Proof. apply variants_calm. derive_calmness. Qed.

Inductive ClientEvents :=
| ClientEvents_Info (o : ClientInfo)
| ClientEvents_Permissions (o : ClientPermissions).
Definition ClientEvents_variants : list (Variant ClientEvents) :=
  [variant None pod_ClientInfo ClientEvents_Info;
   variant None pod_ClientPermissions ClientEvents_Permissions].
Definition ClientEvents_index (m : ClientEvents) : nat :=
  match m with ClientEvents_Info _ => 0 | ClientEvents_Permissions _ => 1 end.
Definition ClientEvents_payload (m : ClientEvents) : PodW Z :=
  match m with
  | ClientEvents_Info o => encode pod_ClientInfo o
  | ClientEvents_Permissions o => encode pod_ClientPermissions o
  end.
Definition ClientEvents_marshal : Marshallable ClientEvents :=
  derive_marshallable ClientEvents_variants ClientEvents_index ClientEvents_payload.
Definition ClientEvents_ok (m : ClientEvents) : Prop :=
  match m with
  | ClientEvents_Info o => round_ok pod_ClientInfo o
  | ClientEvents_Permissions o => round_ok pod_ClientPermissions o
  end.
Definition ClientEvents_space (m : ClientEvents) : Z :=
  match m with
  | ClientEvents_Info o => round_space pod_ClientInfo o
  | ClientEvents_Permissions o => round_space pod_ClientPermissions o
  end.
#[global, refine] Instance ClientEvents_round : MarshalRound ClientEvents_marshal := {| mr_ok :=
  ClientEvents_ok; mr_space := ClientEvents_space |}.
Proof. all: derive_marshal ClientEvents_marshal. Defined.
#[global] Instance ClientEvents_calm : MarshalCalm ClientEvents_marshal.
Proof. apply variants_calm. derive_calmness. Qed.

(** ** [marshal/device.rs] *)

Record DeviceSubscribeParams := mkDeviceSubscribeParams {
  device_subscribe_params_ids : list (Id ParamType) }.
Definition pod_DeviceSubscribeParams : Pod DeviceSubscribeParams := derive_pod_struct
  (field (pod_array (prim_id ParamType)) no_fields)
  (λ v, (device_subscribe_params_ids v, tt))
  (λ '(x0, _), mkDeviceSubscribeParams x0).
#[global] Instance DeviceSubscribeParams_round : PodRound pod_DeviceSubscribeParams .
Proof. derive_struct. Defined.
#[global] Instance DeviceSubscribeParams_calm : PodCalm pod_DeviceSubscribeParams .
Proof. apply derive_calm; apply _. Qed.

Record DeviceEnumParams := mkDeviceEnumParams { device_enum_params_seq : Z;
  device_enum_params_id : Id Z; device_enum_params_index : Z; device_enum_params_num : Z;
  device_enum_params_filter : RawPod }.
Definition pod_DeviceEnumParams : Pod DeviceEnumParams := derive_pod_struct
  (field pod_i32 (field (pod_id Z) (field pod_i32 (field pod_i32 (field pod_raw no_fields)))))
  (λ v, (device_enum_params_seq v, (device_enum_params_id v, (device_enum_params_index v,
    (device_enum_params_num v, (device_enum_params_filter v, tt))))))
  (λ '(x0, (x1, (x2, (x3, (x4, _))))), mkDeviceEnumParams x0 x1 x2 x3 x4).
#[global] Instance DeviceEnumParams_round : PodRound pod_DeviceEnumParams .
Proof. derive_struct. Defined.
#[global] Instance DeviceEnumParams_calm : PodCalm pod_DeviceEnumParams .
Proof. apply derive_calm; apply _. Qed.

Record DeviceSetParam := mkDeviceSetParam { device_set_param_id : Id ParamType;
  device_set_param_flags : Z; device_set_param_param : RawPod }.
Definition pod_DeviceSetParam : Pod DeviceSetParam := derive_pod_struct
  (field (pod_id ParamType) (field pod_i32 (field pod_raw no_fields)))
  (λ v, (device_set_param_id v, (device_set_param_flags v, (device_set_param_param v, tt))))
  (λ '(x0, (x1, (x2, _))), mkDeviceSetParam x0 x1 x2).
#[global] Instance DeviceSetParam_round : PodRound pod_DeviceSetParam .
Proof. derive_struct. Defined.
#[global] Instance DeviceSetParam_calm : PodCalm pod_DeviceSetParam .
Proof. apply derive_calm; apply _. Qed.

Record DeviceInfo := mkDeviceInfo { device_info_id : Z; device_info_change_mask : Z;
  device_info_props : PairList (list byte) (list byte);
  device_info_param_info : PairList (Id ParamType) Z }.
Definition pod_DeviceInfo : Pod DeviceInfo := derive_pod_struct
  (field pod_i32 (field pod_i64 (field (pod_pairs pod_str pod_str) (field (pod_pairs (pod_id ParamType)
    pod_i32) no_fields))))
  (λ v, (device_info_id v, (device_info_change_mask v, (device_info_props v, (device_info_param_info v,
    tt)))))
  (λ '(x0, (x1, (x2, (x3, _)))), mkDeviceInfo x0 x1 x2 x3).
#[global] Instance DeviceInfo_round : PodRound pod_DeviceInfo .
Proof. derive_struct. Defined.
#[global] Instance DeviceInfo_calm : PodCalm pod_DeviceInfo .
Proof. apply derive_calm; apply _. Qed.

Record DeviceParam := mkDeviceParam { device_param_seq : Z; device_param_id : Id ParamType;
  device_param_index : Z; device_param_next : Z; device_param_param : RawPod }.
Definition pod_DeviceParam : Pod DeviceParam := derive_pod_struct
  (field pod_i32 (field (pod_id ParamType) (field pod_i32 (field pod_i32 (field pod_raw no_fields)))))
  (λ v, (device_param_seq v, (device_param_id v, (device_param_index v, (device_param_next v,
    (device_param_param v, tt))))))
  (λ '(x0, (x1, (x2, (x3, (x4, _))))), mkDeviceParam x0 x1 x2 x3 x4).
#[global] Instance DeviceParam_round : PodRound pod_DeviceParam .
Proof. derive_struct. Defined.
#[global] Instance DeviceParam_calm : PodCalm pod_DeviceParam .
Proof. apply derive_calm; apply _. Qed.

Inductive DeviceMethods :=
| DeviceMethods_SubscribeParams (o : DeviceSubscribeParams)
| DeviceMethods_EnumParams (o : DeviceEnumParams)
| DeviceMethods_SetParam (o : DeviceSetParam).
Definition DeviceMethods_variants : list (Variant DeviceMethods) :=
  [variant (Some 1) pod_DeviceSubscribeParams DeviceMethods_SubscribeParams;
   variant None pod_DeviceEnumParams DeviceMethods_EnumParams;
   variant None pod_DeviceSetParam DeviceMethods_SetParam].
Definition DeviceMethods_index (m : DeviceMethods) : nat :=
  match m with DeviceMethods_SubscribeParams _ => 0 | DeviceMethods_EnumParams _ => 1 |
    DeviceMethods_SetParam _ => 2 end.
Definition DeviceMethods_payload (m : DeviceMethods) : PodW Z :=
  match m with
  | DeviceMethods_SubscribeParams o => encode pod_DeviceSubscribeParams o
  | DeviceMethods_EnumParams o => encode pod_DeviceEnumParams o
  | DeviceMethods_SetParam o => encode pod_DeviceSetParam o
  end.
Definition DeviceMethods_marshal : Marshallable DeviceMethods :=
  derive_marshallable DeviceMethods_variants DeviceMethods_index DeviceMethods_payload.
Definition DeviceMethods_ok (m : DeviceMethods) : Prop :=
  match m with
  | DeviceMethods_SubscribeParams o => round_ok pod_DeviceSubscribeParams o
  | DeviceMethods_EnumParams o => round_ok pod_DeviceEnumParams o
  | DeviceMethods_SetParam o => round_ok pod_DeviceSetParam o
  end.
Definition DeviceMethods_space (m : DeviceMethods) : Z :=
  match m with
  | DeviceMethods_SubscribeParams o => round_space pod_DeviceSubscribeParams o
  | DeviceMethods_EnumParams o => round_space pod_DeviceEnumParams o
  | DeviceMethods_SetParam o => round_space pod_DeviceSetParam o
  end.
#[global, refine] Instance DeviceMethods_round : MarshalRound DeviceMethods_marshal := {| mr_ok :=
  DeviceMethods_ok; mr_space := DeviceMethods_space |}.
Proof. all: derive_marshal DeviceMethods_marshal. Defined.
#[global] Instance DeviceMethods_calm : MarshalCalm DeviceMethods_marshal.
Proof. apply variants_calm. derive_calmness. Qed.

Inductive DeviceEvents :=
| DeviceEvents_Info (o : DeviceInfo)
| DeviceEvents_Param (o : DeviceParam).
Definition DeviceEvents_variants : list (Variant DeviceEvents) :=
  [variant None pod_DeviceInfo DeviceEvents_Info;
   variant None pod_DeviceParam DeviceEvents_Param].
Definition DeviceEvents_index (m : DeviceEvents) : nat :=
  match m with DeviceEvents_Info _ => 0 | DeviceEvents_Param _ => 1 end.
Definition DeviceEvents_payload (m : DeviceEvents) : PodW Z :=
  match m with
  | DeviceEvents_Info o => encode pod_DeviceInfo o
  | DeviceEvents_Param o => encode pod_DeviceParam o
  end.
Definition DeviceEvents_marshal : Marshallable DeviceEvents :=
  derive_marshallable DeviceEvents_variants DeviceEvents_index DeviceEvents_payload.
Definition DeviceEvents_ok (m : DeviceEvents) : Prop :=
  match m with
  | DeviceEvents_Info o => round_ok pod_DeviceInfo o
  | DeviceEvents_Param o => round_ok pod_DeviceParam o
  end.
Definition DeviceEvents_space (m : DeviceEvents) : Z :=
  match m with
  | DeviceEvents_Info o => round_space pod_DeviceInfo o
  | DeviceEvents_Param o => round_space pod_DeviceParam o
  end.
#[global, refine] Instance DeviceEvents_round : MarshalRound DeviceEvents_marshal := {| mr_ok :=
  DeviceEvents_ok; mr_space := DeviceEvents_space |}.
Proof. all: derive_marshal DeviceEvents_marshal. Defined.
#[global] Instance DeviceEvents_calm : MarshalCalm DeviceEvents_marshal.
Proof. apply variants_calm. derive_calmness. Qed.

(** ** [marshal/factory.rs] *)

Record FactoryInfo := mkFactoryInfo { factory_info_id : Z; factory_info_name : list byte;
  factory_info_type : list byte; factory_info_version : Z; factory_info_change_mask : Z;
  factory_info_props : PairList (list byte) (list byte) }.
Definition pod_FactoryInfo : Pod FactoryInfo := derive_pod_struct
  (field pod_i32 (field pod_str (field pod_str (field pod_i32 (field pod_i64 (field (pod_pairs pod_str
    pod_str) no_fields))))))
  (λ v, (factory_info_id v, (factory_info_name v, (factory_info_type v, (factory_info_version v,
    (factory_info_change_mask v, (factory_info_props v, tt)))))))
  (λ '(x0, (x1, (x2, (x3, (x4, (x5, _)))))), mkFactoryInfo x0 x1 x2 x3 x4 x5).
#[global] Instance FactoryInfo_round : PodRound pod_FactoryInfo .
Proof. derive_struct. Defined.
#[global] Instance FactoryInfo_calm : PodCalm pod_FactoryInfo .
Proof. apply derive_calm; apply _. Qed.

Inductive FactoryEvents :=
| FactoryEvents_Info (o : FactoryInfo).
Definition FactoryEvents_variants : list (Variant FactoryEvents) :=
  [variant None pod_FactoryInfo FactoryEvents_Info].
Definition FactoryEvents_index (m : FactoryEvents) : nat :=
  match m with FactoryEvents_Info _ => 0 end.
Definition FactoryEvents_payload (m : FactoryEvents) : PodW Z :=
  match m with
  | FactoryEvents_Info o => encode pod_FactoryInfo o
  end.
Definition FactoryEvents_marshal : Marshallable FactoryEvents :=
  derive_marshallable FactoryEvents_variants FactoryEvents_index FactoryEvents_payload.
Definition FactoryEvents_ok (m : FactoryEvents) : Prop :=
  match m with
  | FactoryEvents_Info o => round_ok pod_FactoryInfo o
  end.
Definition FactoryEvents_space (m : FactoryEvents) : Z :=
  match m with
  | FactoryEvents_Info o => round_space pod_FactoryInfo o
  end.
#[global, refine] Instance FactoryEvents_round : MarshalRound FactoryEvents_marshal := {| mr_ok :=
  FactoryEvents_ok; mr_space := FactoryEvents_space |}.
Proof. all: derive_marshal FactoryEvents_marshal. Defined.
#[global] Instance FactoryEvents_calm : MarshalCalm FactoryEvents_marshal.
Proof. apply variants_calm. derive_calmness. Qed.

(** ** [marshal/link.rs] *)

Record LinkInfo := mkLinkInfo { link_info_id : Z; link_info_output_node_id : Z;
  link_info_output_port_id : Z; link_info_input_node_id : Z; link_info_input_port_id : Z;
  link_info_change_mask : Z; link_info_state : Z; link_info_error : option (list byte);
  link_info_format : RawPod; link_info_props : PairList (list byte) (list byte) }.
Definition pod_LinkInfo : Pod LinkInfo := derive_pod_struct
  (field pod_i32 (field pod_i32 (field pod_i32 (field pod_i32 (field pod_i32 (field pod_i64 (field
    pod_i32 (field (pod_option pod_str) (field pod_raw (field (pod_pairs pod_str pod_str)
    no_fields))))))))))
  (λ v, (link_info_id v, (link_info_output_node_id v, (link_info_output_port_id v,
    (link_info_input_node_id v, (link_info_input_port_id v, (link_info_change_mask v, (link_info_state v,
    (link_info_error v, (link_info_format v, (link_info_props v, tt)))))))))))
  (λ '(x0, (x1, (x2, (x3, (x4, (x5, (x6, (x7, (x8, (x9, _)))))))))), mkLinkInfo x0 x1 x2 x3 x4 x5 x6 x7
    x8 x9).
#[global] Instance LinkInfo_round : PodRound pod_LinkInfo .
Proof. derive_struct. Defined.
#[global] Instance LinkInfo_calm : PodCalm pod_LinkInfo .
Proof. apply derive_calm; apply _. Qed.

Inductive LinkEvents :=
| LinkEvents_Info (o : LinkInfo).
Definition LinkEvents_variants : list (Variant LinkEvents) :=
  [variant None pod_LinkInfo LinkEvents_Info].
Definition LinkEvents_index (m : LinkEvents) : nat :=
  match m with LinkEvents_Info _ => 0 end.
Definition LinkEvents_payload (m : LinkEvents) : PodW Z :=
  match m with
  | LinkEvents_Info o => encode pod_LinkInfo o
  end.
Definition LinkEvents_marshal : Marshallable LinkEvents :=
  derive_marshallable LinkEvents_variants LinkEvents_index LinkEvents_payload.
Definition LinkEvents_ok (m : LinkEvents) : Prop :=
  match m with
  | LinkEvents_Info o => round_ok pod_LinkInfo o
  end.
Definition LinkEvents_space (m : LinkEvents) : Z :=
  match m with
  | LinkEvents_Info o => round_space pod_LinkInfo o
  end.
#[global, refine] Instance LinkEvents_round : MarshalRound LinkEvents_marshal := {| mr_ok :=
  LinkEvents_ok; mr_space := LinkEvents_space |}.
Proof. all: derive_marshal LinkEvents_marshal. Defined.
#[global] Instance LinkEvents_calm : MarshalCalm LinkEvents_marshal.
Proof. apply variants_calm. derive_calmness. Qed.

(** ** [marshal/metadata.rs] *)

Record MetadataSetProperty := mkMetadataSetProperty { metadata_set_property_subject : Z;
  metadata_set_property_key : option (list byte); metadata_set_property_type : option (list byte);
  metadata_set_property_value : option (list byte) }.
Definition pod_MetadataSetProperty : Pod MetadataSetProperty := derive_pod_struct
  (field pod_i32 (field (pod_option pod_str) (field (pod_option pod_str) (field (pod_option pod_str)
    no_fields))))
  (λ v, (metadata_set_property_subject v, (metadata_set_property_key v, (metadata_set_property_type v,
    (metadata_set_property_value v, tt)))))
  (λ '(x0, (x1, (x2, (x3, _)))), mkMetadataSetProperty x0 x1 x2 x3).
#[global] Instance MetadataSetProperty_round : PodRound pod_MetadataSetProperty .
Proof. derive_struct. Defined.
#[global] Instance MetadataSetProperty_calm : PodCalm pod_MetadataSetProperty .
Proof. apply derive_calm; apply _. Qed.

Record MetadataClear := mkMetadataClear { metadata_clear_empty : unit }.
Definition pod_MetadataClear : Pod MetadataClear := derive_pod_struct
  (field pod_none no_fields)
  (λ v, (metadata_clear_empty v, tt))
  (λ '(x0, _), mkMetadataClear x0).
#[global] Instance MetadataClear_round : PodRound pod_MetadataClear .
Proof. derive_struct. Defined.
#[global] Instance MetadataClear_calm : PodCalm pod_MetadataClear .
Proof. apply derive_calm; apply _. Qed.

Record MetadataProperty := mkMetadataProperty { metadata_property_subject : Z;
  metadata_property_key : option (list byte); metadata_property_type : option (list byte);
  metadata_property_value : option (list byte) }.
Definition pod_MetadataProperty : Pod MetadataProperty := derive_pod_struct
  (field pod_i32 (field (pod_option pod_str) (field (pod_option pod_str) (field (pod_option pod_str)
    no_fields))))
  (λ v, (metadata_property_subject v, (metadata_property_key v, (metadata_property_type v,
    (metadata_property_value v, tt)))))
  (λ '(x0, (x1, (x2, (x3, _)))), mkMetadataProperty x0 x1 x2 x3).
#[global] Instance MetadataProperty_round : PodRound pod_MetadataProperty .
Proof. derive_struct. Defined.
#[global] Instance MetadataProperty_calm : PodCalm pod_MetadataProperty .
Proof. apply derive_calm; apply _. Qed.

Inductive MetadataMethods :=
| MetadataMethods_SetProperty (o : MetadataSetProperty)
| MetadataMethods_Clear (o : MetadataClear).
Definition MetadataMethods_variants : list (Variant MetadataMethods) :=
  [variant (Some 1) pod_MetadataSetProperty MetadataMethods_SetProperty;
   variant None pod_MetadataClear MetadataMethods_Clear].
Definition MetadataMethods_index (m : MetadataMethods) : nat :=
  match m with MetadataMethods_SetProperty _ => 0 | MetadataMethods_Clear _ => 1 end.
Definition MetadataMethods_payload (m : MetadataMethods) : PodW Z :=
  match m with
  | MetadataMethods_SetProperty o => encode pod_MetadataSetProperty o
  | MetadataMethods_Clear o => encode pod_MetadataClear o
  end.
Definition MetadataMethods_marshal : Marshallable MetadataMethods :=
  derive_marshallable MetadataMethods_variants MetadataMethods_index MetadataMethods_payload.
Definition MetadataMethods_ok (m : MetadataMethods) : Prop :=
  match m with
  | MetadataMethods_SetProperty o => round_ok pod_MetadataSetProperty o
  | MetadataMethods_Clear o => round_ok pod_MetadataClear o
  end.
Definition MetadataMethods_space (m : MetadataMethods) : Z :=
  match m with
  | MetadataMethods_SetProperty o => round_space pod_MetadataSetProperty o
  | MetadataMethods_Clear o => round_space pod_MetadataClear o
  end.
#[global, refine] Instance MetadataMethods_round : MarshalRound MetadataMethods_marshal := {| mr_ok :=
  MetadataMethods_ok; mr_space := MetadataMethods_space |}.
Proof. all: derive_marshal MetadataMethods_marshal. Defined.
#[global] Instance MetadataMethods_calm : MarshalCalm MetadataMethods_marshal.
Proof. apply variants_calm. derive_calmness. Qed.

Inductive MetadataEvents :=
| MetadataEvents_Property (o : MetadataProperty).
Definition MetadataEvents_variants : list (Variant MetadataEvents) :=
  [variant None pod_MetadataProperty MetadataEvents_Property].
Definition MetadataEvents_index (m : MetadataEvents) : nat :=
  match m with MetadataEvents_Property _ => 0 end.
Definition MetadataEvents_payload (m : MetadataEvents) : PodW Z :=
  match m with
  | MetadataEvents_Property o => encode pod_MetadataProperty o
  end.
Definition MetadataEvents_marshal : Marshallable MetadataEvents :=
  derive_marshallable MetadataEvents_variants MetadataEvents_index MetadataEvents_payload.
Definition MetadataEvents_ok (m : MetadataEvents) : Prop :=
  match m with
  | MetadataEvents_Property o => round_ok pod_MetadataProperty o
  end.
Definition MetadataEvents_space (m : MetadataEvents) : Z :=
  match m with
  | MetadataEvents_Property o => round_space pod_MetadataProperty o
  end.
#[global, refine] Instance MetadataEvents_round : MarshalRound MetadataEvents_marshal := {| mr_ok :=
  MetadataEvents_ok; mr_space := MetadataEvents_space |}.
Proof. all: derive_marshal MetadataEvents_marshal. Defined.
#[global] Instance MetadataEvents_calm : MarshalCalm MetadataEvents_marshal.
Proof. apply variants_calm. derive_calmness. Qed.

(** ** [marshal/module.rs] *)

Record ModuleInfo := mkModuleInfo { module_info_id : Z; module_info_name : list byte;
  module_info_file_name : list byte; module_info_args : option (list byte);
  module_info_change_mask : Z; module_info_props : PairList (list byte) (list byte) }.
Definition pod_ModuleInfo : Pod ModuleInfo := derive_pod_struct
  (field pod_i32 (field pod_str (field pod_str (field (pod_option pod_str) (field pod_i64 (field
    (pod_pairs pod_str pod_str) no_fields))))))
  (λ v, (module_info_id v, (module_info_name v, (module_info_file_name v, (module_info_args v,
    (module_info_change_mask v, (module_info_props v, tt)))))))
  (λ '(x0, (x1, (x2, (x3, (x4, (x5, _)))))), mkModuleInfo x0 x1 x2 x3 x4 x5).
#[global] Instance ModuleInfo_round : PodRound pod_ModuleInfo .
Proof. derive_struct. Defined.
#[global] Instance ModuleInfo_calm : PodCalm pod_ModuleInfo .
Proof. apply derive_calm; apply _. Qed.

Inductive ModuleEvents :=
| ModuleEvents_Info (o : ModuleInfo).
Definition ModuleEvents_variants : list (Variant ModuleEvents) :=
  [variant None pod_ModuleInfo ModuleEvents_Info].
Definition ModuleEvents_index (m : ModuleEvents) : nat :=
  match m with ModuleEvents_Info _ => 0 end.
Definition ModuleEvents_payload (m : ModuleEvents) : PodW Z :=
  match m with
  | ModuleEvents_Info o => encode pod_ModuleInfo o
  end.
Definition ModuleEvents_marshal : Marshallable ModuleEvents :=
  derive_marshallable ModuleEvents_variants ModuleEvents_index ModuleEvents_payload.
Definition ModuleEvents_ok (m : ModuleEvents) : Prop :=
  match m with
  | ModuleEvents_Info o => round_ok pod_ModuleInfo o
  end.
Definition ModuleEvents_space (m : ModuleEvents) : Z :=
  match m with
  | ModuleEvents_Info o => round_space pod_ModuleInfo o
  end.
#[global, refine] Instance ModuleEvents_round : MarshalRound ModuleEvents_marshal := {| mr_ok :=
  ModuleEvents_ok; mr_space := ModuleEvents_space |}.
Proof. all: derive_marshal ModuleEvents_marshal. Defined.
#[global] Instance ModuleEvents_calm : MarshalCalm ModuleEvents_marshal.
Proof. apply variants_calm. derive_calmness. Qed.

(** ** [marshal/node.rs] *)

Record NodeSubscribeParams := mkNodeSubscribeParams {
  node_subscribe_params_ids : list (Id ParamType) }.
Definition pod_NodeSubscribeParams : Pod NodeSubscribeParams := derive_pod_struct
  (field (pod_array (prim_id ParamType)) no_fields)
  (λ v, (node_subscribe_params_ids v, tt))
  (λ '(x0, _), mkNodeSubscribeParams x0).
#[global] Instance NodeSubscribeParams_round : PodRound pod_NodeSubscribeParams .
Proof. derive_struct. Defined.
#[global] Instance NodeSubscribeParams_calm : PodCalm pod_NodeSubscribeParams .
Proof. apply derive_calm; apply _. Qed.

Record NodeEnumParams := mkNodeEnumParams { node_enum_params_seq : Z; node_enum_params_id : Id Z;
  node_enum_params_index : Z; node_enum_params_num : Z; node_enum_params_filter : RawPod }.
Definition pod_NodeEnumParams : Pod NodeEnumParams := derive_pod_struct
  (field pod_i32 (field (pod_id Z) (field pod_i32 (field pod_i32 (field pod_raw no_fields)))))
  (λ v, (node_enum_params_seq v, (node_enum_params_id v, (node_enum_params_index v, (node_enum_params_num
    v, (node_enum_params_filter v, tt))))))
  (λ '(x0, (x1, (x2, (x3, (x4, _))))), mkNodeEnumParams x0 x1 x2 x3 x4).
#[global] Instance NodeEnumParams_round : PodRound pod_NodeEnumParams .
Proof. derive_struct. Defined.
#[global] Instance NodeEnumParams_calm : PodCalm pod_NodeEnumParams .
Proof. apply derive_calm; apply _. Qed.

Record NodeSetParam := mkNodeSetParam { node_set_param_id : Id ParamType;
  node_set_param_flags : Z; node_set_param_param : RawPod }.
Definition pod_NodeSetParam : Pod NodeSetParam := derive_pod_struct
  (field (pod_id ParamType) (field pod_i32 (field pod_raw no_fields)))
  (λ v, (node_set_param_id v, (node_set_param_flags v, (node_set_param_param v, tt))))
  (λ '(x0, (x1, (x2, _))), mkNodeSetParam x0 x1 x2).
#[global] Instance NodeSetParam_round : PodRound pod_NodeSetParam .
Proof. derive_struct. Defined.
#[global] Instance NodeSetParam_calm : PodCalm pod_NodeSetParam .
Proof. apply derive_calm; apply _. Qed.

Record NodeSendCommand := mkNodeSendCommand { node_send_command_command : RawPod }.
Definition pod_NodeSendCommand : Pod NodeSendCommand := derive_pod_struct
  (field pod_raw no_fields)
  (λ v, (node_send_command_command v, tt))
  (λ '(x0, _), mkNodeSendCommand x0).
#[global] Instance NodeSendCommand_round : PodRound pod_NodeSendCommand .
Proof. derive_struct. Defined.
#[global] Instance NodeSendCommand_calm : PodCalm pod_NodeSendCommand .
Proof. apply derive_calm; apply _. Qed.

Record NodeInfo := mkNodeInfo { node_info_id : Z; node_info_max_input_ports : Z;
  node_info_max_output_ports : Z; node_info_change_mask : Z; node_info_n_input_ports : Z;
  node_info_n_output_ports : Z; node_info_state : Id NodeState;
  node_info_error : option (list byte); node_info_props : PairList (list byte) (list byte);
  node_info_param_info : PairList (Id ParamType) Z }.
Definition pod_NodeInfo : Pod NodeInfo := derive_pod_struct
  (field pod_i32 (field pod_i32 (field pod_i32 (field pod_i64 (field pod_i32 (field pod_i32 (field
    (pod_id NodeState) (field (pod_option pod_str) (field (pod_pairs pod_str pod_str) (field (pod_pairs
    (pod_id ParamType) pod_i32) no_fields))))))))))
  (λ v, (node_info_id v, (node_info_max_input_ports v, (node_info_max_output_ports v,
    (node_info_change_mask v, (node_info_n_input_ports v, (node_info_n_output_ports v, (node_info_state
    v, (node_info_error v, (node_info_props v, (node_info_param_info v, tt)))))))))))
  (λ '(x0, (x1, (x2, (x3, (x4, (x5, (x6, (x7, (x8, (x9, _)))))))))), mkNodeInfo x0 x1 x2 x3 x4 x5 x6 x7
    x8 x9).
#[global] Instance NodeInfo_round : PodRound pod_NodeInfo .
Proof. derive_struct. Defined.
#[global] Instance NodeInfo_calm : PodCalm pod_NodeInfo .
Proof. apply derive_calm; apply _. Qed.

Record NodeParam := mkNodeParam { node_param_seq : Z; node_param_id : Id ParamType;
  node_param_index : Z; node_param_next : Z; node_param_param : RawPod }.
Definition pod_NodeParam : Pod NodeParam := derive_pod_struct
  (field pod_i32 (field (pod_id ParamType) (field pod_i32 (field pod_i32 (field pod_raw no_fields)))))
  (λ v, (node_param_seq v, (node_param_id v, (node_param_index v, (node_param_next v, (node_param_param
    v, tt))))))
  (λ '(x0, (x1, (x2, (x3, (x4, _))))), mkNodeParam x0 x1 x2 x3 x4).
#[global] Instance NodeParam_round : PodRound pod_NodeParam .
Proof. derive_struct. Defined.
#[global] Instance NodeParam_calm : PodCalm pod_NodeParam .
Proof. apply derive_calm; apply _. Qed.

Inductive NodeMethods :=
| NodeMethods_SubscribeParams (o : NodeSubscribeParams)
| NodeMethods_EnumParams (o : NodeEnumParams)
| NodeMethods_SetParam (o : NodeSetParam)
| NodeMethods_SendCommand (o : NodeSendCommand).
Definition NodeMethods_variants : list (Variant NodeMethods) :=
  [variant (Some 1) pod_NodeSubscribeParams NodeMethods_SubscribeParams;
   variant None pod_NodeEnumParams NodeMethods_EnumParams;
   variant None pod_NodeSetParam NodeMethods_SetParam;
   variant None pod_NodeSendCommand NodeMethods_SendCommand].
Definition NodeMethods_index (m : NodeMethods) : nat :=
  match m with NodeMethods_SubscribeParams _ => 0 | NodeMethods_EnumParams _ => 1 | NodeMethods_SetParam
    _ => 2 | NodeMethods_SendCommand _ => 3 end.
Definition NodeMethods_payload (m : NodeMethods) : PodW Z :=
  match m with
  | NodeMethods_SubscribeParams o => encode pod_NodeSubscribeParams o
  | NodeMethods_EnumParams o => encode pod_NodeEnumParams o
  | NodeMethods_SetParam o => encode pod_NodeSetParam o
  | NodeMethods_SendCommand o => encode pod_NodeSendCommand o
  end.
Definition NodeMethods_marshal : Marshallable NodeMethods :=
  derive_marshallable NodeMethods_variants NodeMethods_index NodeMethods_payload.
Definition NodeMethods_ok (m : NodeMethods) : Prop :=
  match m with
  | NodeMethods_SubscribeParams o => round_ok pod_NodeSubscribeParams o
  | NodeMethods_EnumParams o => round_ok pod_NodeEnumParams o
  | NodeMethods_SetParam o => round_ok pod_NodeSetParam o
  | NodeMethods_SendCommand o => round_ok pod_NodeSendCommand o
  end.
Definition NodeMethods_space (m : NodeMethods) : Z :=
  match m with
  | NodeMethods_SubscribeParams o => round_space pod_NodeSubscribeParams o
  | NodeMethods_EnumParams o => round_space pod_NodeEnumParams o
  | NodeMethods_SetParam o => round_space pod_NodeSetParam o
  | NodeMethods_SendCommand o => round_space pod_NodeSendCommand o
  end.
#[global, refine] Instance NodeMethods_round : MarshalRound NodeMethods_marshal := {| mr_ok :=
  NodeMethods_ok; mr_space := NodeMethods_space |}.
Proof. all: derive_marshal NodeMethods_marshal. Defined.
#[global] Instance NodeMethods_calm : MarshalCalm NodeMethods_marshal.
Proof. apply variants_calm. derive_calmness. Qed.

Inductive NodeEvents :=
| NodeEvents_Info (o : NodeInfo)
| NodeEvents_Param (o : NodeParam).
Definition NodeEvents_variants : list (Variant NodeEvents) :=
  [variant None pod_NodeInfo NodeEvents_Info;
   variant None pod_NodeParam NodeEvents_Param].
Definition NodeEvents_index (m : NodeEvents) : nat :=
  match m with NodeEvents_Info _ => 0 | NodeEvents_Param _ => 1 end.
Definition NodeEvents_payload (m : NodeEvents) : PodW Z :=
  match m with
  | NodeEvents_Info o => encode pod_NodeInfo o
  | NodeEvents_Param o => encode pod_NodeParam o
  end.
Definition NodeEvents_marshal : Marshallable NodeEvents :=
  derive_marshallable NodeEvents_variants NodeEvents_index NodeEvents_payload.
Definition NodeEvents_ok (m : NodeEvents) : Prop :=
  match m with
  | NodeEvents_Info o => round_ok pod_NodeInfo o
  | NodeEvents_Param o => round_ok pod_NodeParam o
  end.
Definition NodeEvents_space (m : NodeEvents) : Z :=
  match m with
  | NodeEvents_Info o => round_space pod_NodeInfo o
  | NodeEvents_Param o => round_space pod_NodeParam o
  end.
#[global, refine] Instance NodeEvents_round : MarshalRound NodeEvents_marshal := {| mr_ok :=
  NodeEvents_ok; mr_space := NodeEvents_space |}.
Proof. all: derive_marshal NodeEvents_marshal. Defined.
#[global] Instance NodeEvents_calm : MarshalCalm NodeEvents_marshal.
Proof. apply variants_calm. derive_calmness. Qed.

(** ** [marshal/port.rs] *)

Record PortSubscribeParams := mkPortSubscribeParams {
  port_subscribe_params_ids : list (Id ParamType) }.
Definition pod_PortSubscribeParams : Pod PortSubscribeParams := derive_pod_struct
  (field (pod_array (prim_id ParamType)) no_fields)
  (λ v, (port_subscribe_params_ids v, tt))
  (λ '(x0, _), mkPortSubscribeParams x0).
#[global] Instance PortSubscribeParams_round : PodRound pod_PortSubscribeParams .
Proof. derive_struct. Defined.
#[global] Instance PortSubscribeParams_calm : PodCalm pod_PortSubscribeParams .
Proof. apply derive_calm; apply _. Qed.

Record PortEnumParams := mkPortEnumParams { port_enum_params_seq : Z; port_enum_params_id : Id Z;
  port_enum_params_index : Z; port_enum_params_num : Z; port_enum_params_filter : RawPod }.
Definition pod_PortEnumParams : Pod PortEnumParams := derive_pod_struct
  (field pod_i32 (field (pod_id Z) (field pod_i32 (field pod_i32 (field pod_raw no_fields)))))
  (λ v, (port_enum_params_seq v, (port_enum_params_id v, (port_enum_params_index v, (port_enum_params_num
    v, (port_enum_params_filter v, tt))))))
  (λ '(x0, (x1, (x2, (x3, (x4, _))))), mkPortEnumParams x0 x1 x2 x3 x4).
#[global] Instance PortEnumParams_round : PodRound pod_PortEnumParams .
Proof. derive_struct. Defined.
#[global] Instance PortEnumParams_calm : PodCalm pod_PortEnumParams .
Proof. apply derive_calm; apply _. Qed.

Record PortInfo := mkPortInfo { port_info_id : Z; port_info_direction : Z;
  port_info_change_mask : Z; port_info_props : PairList (list byte) (list byte);
  port_info_param_info : PairList (Id ParamType) Z }.
Definition pod_PortInfo : Pod PortInfo := derive_pod_struct
  (field pod_i32 (field pod_i32 (field pod_i64 (field (pod_pairs pod_str pod_str) (field (pod_pairs
    (pod_id ParamType) pod_i32) no_fields)))))
  (λ v, (port_info_id v, (port_info_direction v, (port_info_change_mask v, (port_info_props v,
    (port_info_param_info v, tt))))))
  (λ '(x0, (x1, (x2, (x3, (x4, _))))), mkPortInfo x0 x1 x2 x3 x4).
#[global] Instance PortInfo_round : PodRound pod_PortInfo .
Proof. derive_struct. Defined.
#[global] Instance PortInfo_calm : PodCalm pod_PortInfo .
Proof. apply derive_calm; apply _. Qed.

Record PortParam := mkPortParam { port_param_seq : Z; port_param_id : Id ParamType;
  port_param_index : Z; port_param_next : Z; port_param_param : RawPod }.
Definition pod_PortParam : Pod PortParam := derive_pod_struct
  (field pod_i32 (field (pod_id ParamType) (field pod_i32 (field pod_i32 (field pod_raw no_fields)))))
  (λ v, (port_param_seq v, (port_param_id v, (port_param_index v, (port_param_next v, (port_param_param
    v, tt))))))
  (λ '(x0, (x1, (x2, (x3, (x4, _))))), mkPortParam x0 x1 x2 x3 x4).
#[global] Instance PortParam_round : PodRound pod_PortParam .
Proof. derive_struct. Defined.
#[global] Instance PortParam_calm : PodCalm pod_PortParam .
Proof. apply derive_calm; apply _. Qed.

Inductive PortMethods :=
| PortMethods_SubscribeParams (o : PortSubscribeParams)
| PortMethods_EnumParams (o : PortEnumParams).
Definition PortMethods_variants : list (Variant PortMethods) :=
  [variant (Some 1) pod_PortSubscribeParams PortMethods_SubscribeParams;
   variant None pod_PortEnumParams PortMethods_EnumParams].
Definition PortMethods_index (m : PortMethods) : nat :=
  match m with PortMethods_SubscribeParams _ => 0 | PortMethods_EnumParams _ => 1 end.
Definition PortMethods_payload (m : PortMethods) : PodW Z :=
  match m with
  | PortMethods_SubscribeParams o => encode pod_PortSubscribeParams o
  | PortMethods_EnumParams o => encode pod_PortEnumParams o
  end.
Definition PortMethods_marshal : Marshallable PortMethods :=
  derive_marshallable PortMethods_variants PortMethods_index PortMethods_payload.
Definition PortMethods_ok (m : PortMethods) : Prop :=
  match m with
  | PortMethods_SubscribeParams o => round_ok pod_PortSubscribeParams o
  | PortMethods_EnumParams o => round_ok pod_PortEnumParams o
  end.
Definition PortMethods_space (m : PortMethods) : Z :=
  match m with
  | PortMethods_SubscribeParams o => round_space pod_PortSubscribeParams o
  | PortMethods_EnumParams o => round_space pod_PortEnumParams o
  end.
#[global, refine] Instance PortMethods_round : MarshalRound PortMethods_marshal := {| mr_ok :=
  PortMethods_ok; mr_space := PortMethods_space |}.
Proof. all: derive_marshal PortMethods_marshal. Defined.
#[global] Instance PortMethods_calm : MarshalCalm PortMethods_marshal.
Proof. apply variants_calm. derive_calmness. Qed.

Inductive PortEvents :=
| PortEvents_Info (o : PortInfo)
| PortEvents_Param (o : PortParam).
Definition PortEvents_variants : list (Variant PortEvents) :=
  [variant None pod_PortInfo PortEvents_Info;
   variant None pod_PortParam PortEvents_Param].
Definition PortEvents_index (m : PortEvents) : nat :=
  match m with PortEvents_Info _ => 0 | PortEvents_Param _ => 1 end.
Definition PortEvents_payload (m : PortEvents) : PodW Z :=
  match m with
  | PortEvents_Info o => encode pod_PortInfo o
  | PortEvents_Param o => encode pod_PortParam o
  end.
Definition PortEvents_marshal : Marshallable PortEvents :=
  derive_marshallable PortEvents_variants PortEvents_index PortEvents_payload.
Definition PortEvents_ok (m : PortEvents) : Prop :=
  match m with
  | PortEvents_Info o => round_ok pod_PortInfo o
  | PortEvents_Param o => round_ok pod_PortParam o
  end.
Definition PortEvents_space (m : PortEvents) : Z :=
  match m with
  | PortEvents_Info o => round_space pod_PortInfo o
  | PortEvents_Param o => round_space pod_PortParam o
  end.
#[global, refine] Instance PortEvents_round : MarshalRound PortEvents_marshal := {| mr_ok :=
  PortEvents_ok; mr_space := PortEvents_space |}.
Proof. all: derive_marshal PortEvents_marshal. Defined.
#[global] Instance PortEvents_calm : MarshalCalm PortEvents_marshal.
Proof. apply variants_calm. derive_calmness. Qed.

(** ** [marshal/profiler.rs] *)

Record ProfilerProfileEvent := mkProfilerProfileEvent { profiler_profile_event_pod : RawPod }.
Definition pod_ProfilerProfileEvent : Pod ProfilerProfileEvent := derive_pod_struct
  (field pod_raw no_fields)
  (λ v, (profiler_profile_event_pod v, tt))
  (λ '(x0, _), mkProfilerProfileEvent x0).
#[global] Instance ProfilerProfileEvent_round : PodRound pod_ProfilerProfileEvent .
Proof. derive_struct. Defined.
#[global] Instance ProfilerProfileEvent_calm : PodCalm pod_ProfilerProfileEvent .
Proof. apply derive_calm; apply _. Qed.

Record ProfilerInfo := mkProfilerInfo { profiler_info_counter : Z;
  profiler_info_cpu_load_fast : Z; profiler_info_cpu_load_medium : Z;
  profiler_info_cpu_load_slow : Z; profiler_info_xrun_count : Z }.
Definition pod_ProfilerInfo : Pod ProfilerInfo := derive_pod_struct
  (field pod_i64 (field pod_f32 (field pod_f32 (field pod_f32 (field pod_i32 no_fields)))))
  (λ v, (profiler_info_counter v, (profiler_info_cpu_load_fast v, (profiler_info_cpu_load_medium v,
    (profiler_info_cpu_load_slow v, (profiler_info_xrun_count v, tt))))))
  (λ '(x0, (x1, (x2, (x3, (x4, _))))), mkProfilerInfo x0 x1 x2 x3 x4).
#[global] Instance ProfilerInfo_round : PodRound pod_ProfilerInfo .
Proof. derive_struct. Defined.
#[global] Instance ProfilerInfo_calm : PodCalm pod_ProfilerInfo .
Proof. apply derive_calm; apply _. Qed.

Record ProfilerClock := mkProfilerClock { profiler_clock_flags : Z; profiler_clock_id : Z;
  profiler_clock_name : list byte; profiler_clock_nsec : Z; profiler_clock_rate : Fraction;
  profiler_clock_position : Z; profiler_clock_duration : Z; profiler_clock_delay : Z;
  profiler_clock_rate_diff : Z; profiler_clock_next_nsec : Z; profiler_clock_transport_state : Z;
  profiler_clock_cycle : Z; profiler_clock_xrun_duration : Z }.
Definition pod_ProfilerClock : Pod ProfilerClock := derive_pod_struct
  (field pod_i32 (field pod_i32 (field pod_str (field pod_i64 (field pod_fraction (field pod_i64 (field
    pod_i64 (field pod_i64 (field pod_f64 (field pod_i64 (field pod_i32 (field pod_i32 (field pod_i64
    no_fields)))))))))))))
  (λ v, (profiler_clock_flags v, (profiler_clock_id v, (profiler_clock_name v, (profiler_clock_nsec v,
    (profiler_clock_rate v, (profiler_clock_position v, (profiler_clock_duration v, (profiler_clock_delay
    v, (profiler_clock_rate_diff v, (profiler_clock_next_nsec v, (profiler_clock_transport_state v,
    (profiler_clock_cycle v, (profiler_clock_xrun_duration v, tt))))))))))))))
  (λ '(x0, (x1, (x2, (x3, (x4, (x5, (x6, (x7, (x8, (x9, (x10, (x11, (x12, _))))))))))))), mkProfilerClock
    x0 x1 x2 x3 x4 x5 x6 x7 x8 x9 x10 x11 x12).
#[global] Instance ProfilerClock_round : PodRound pod_ProfilerClock .
Proof. derive_struct. Defined.
#[global] Instance ProfilerClock_calm : PodCalm pod_ProfilerClock .
Proof. apply derive_calm; apply _. Qed.

Record ProfilerFollowerClock := mkProfilerFollowerClock { profiler_follower_clock_id : Z;
  profiler_follower_clock_name : list byte; profiler_follower_clock_nsec : Z;
  profiler_follower_clock_rate : Fraction; profiler_follower_clock_position : Z;
  profiler_follower_clock_duration : Z; profiler_follower_clock_delay : Z;
  profiler_follower_clock_rate_diff : Z; profiler_follower_clock_next_nsec : Z;
  profiler_follower_clock_xrun_duration : Z }.
Definition pod_ProfilerFollowerClock : Pod ProfilerFollowerClock := derive_pod_struct
  (field pod_i32 (field pod_str (field pod_i64 (field pod_fraction (field pod_i64 (field pod_i64 (field
    pod_i64 (field pod_f64 (field pod_i64 (field pod_i64 no_fields))))))))))
  (λ v, (profiler_follower_clock_id v, (profiler_follower_clock_name v, (profiler_follower_clock_nsec v,
    (profiler_follower_clock_rate v, (profiler_follower_clock_position v,
    (profiler_follower_clock_duration v, (profiler_follower_clock_delay v,
    (profiler_follower_clock_rate_diff v, (profiler_follower_clock_next_nsec v,
    (profiler_follower_clock_xrun_duration v, tt)))))))))))
  (λ '(x0, (x1, (x2, (x3, (x4, (x5, (x6, (x7, (x8, (x9, _)))))))))), mkProfilerFollowerClock x0 x1 x2 x3
    x4 x5 x6 x7 x8 x9).
#[global] Instance ProfilerFollowerClock_round : PodRound pod_ProfilerFollowerClock .
Proof. derive_struct. Defined.
#[global] Instance ProfilerFollowerClock_calm : PodCalm pod_ProfilerFollowerClock .
Proof. apply derive_calm; apply _. Qed.

Record ProfilerDriver := mkProfilerDriver { profiler_driver_id : Z;
  profiler_driver_name : list byte; profiler_driver_prev_signal : Z; profiler_driver_signal : Z;
  profiler_driver_awake : Z; profiler_driver_finish : Z; profiler_driver_status : Z;
  profiler_driver_latency : Fraction; profiler_driver_xrun_count : Z }.
Definition pod_ProfilerDriver : Pod ProfilerDriver := derive_pod_struct
  (field pod_i32 (field pod_str (field pod_i64 (field pod_i64 (field pod_i64 (field pod_i64 (field
    pod_i32 (field pod_fraction (field pod_i32 no_fields)))))))))
  (λ v, (profiler_driver_id v, (profiler_driver_name v, (profiler_driver_prev_signal v,
    (profiler_driver_signal v, (profiler_driver_awake v, (profiler_driver_finish v,
    (profiler_driver_status v, (profiler_driver_latency v, (profiler_driver_xrun_count v, tt))))))))))
  (λ '(x0, (x1, (x2, (x3, (x4, (x5, (x6, (x7, (x8, _))))))))), mkProfilerDriver x0 x1 x2 x3 x4 x5 x6 x7 x8).
#[global] Instance ProfilerDriver_round : PodRound pod_ProfilerDriver .
Proof. derive_struct. Defined.
#[global] Instance ProfilerDriver_calm : PodCalm pod_ProfilerDriver .
Proof. apply derive_calm; apply _. Qed.

Record ProfilerFollower := mkProfilerFollower { profiler_follower_id : Z;
  profiler_follower_name : list byte; profiler_follower_prev_signal : Z;
  profiler_follower_signal : Z; profiler_follower_awake : Z; profiler_follower_finish : Z;
  profiler_follower_status : Z; profiler_follower_latency : Fraction;
  profiler_follower_xrun_count : Z; profiler_follower_async : bool }.
Definition pod_ProfilerFollower : Pod ProfilerFollower := derive_pod_struct
  (field pod_i32 (field pod_str (field pod_i64 (field pod_i64 (field pod_i64 (field pod_i64 (field
    pod_i32 (field pod_fraction (field pod_i32 (field pod_bool no_fields))))))))))
  (λ v, (profiler_follower_id v, (profiler_follower_name v, (profiler_follower_prev_signal v,
    (profiler_follower_signal v, (profiler_follower_awake v, (profiler_follower_finish v,
    (profiler_follower_status v, (profiler_follower_latency v, (profiler_follower_xrun_count v,
    (profiler_follower_async v, tt)))))))))))
  (λ '(x0, (x1, (x2, (x3, (x4, (x5, (x6, (x7, (x8, (x9, _)))))))))), mkProfilerFollower x0 x1 x2 x3 x4 x5
    x6 x7 x8 x9).
#[global] Instance ProfilerFollower_round : PodRound pod_ProfilerFollower .
Proof. derive_struct. Defined.
#[global] Instance ProfilerFollower_calm : PodCalm pod_ProfilerFollower .
Proof. apply derive_calm; apply _. Qed.

Inductive ProfilerEvents :=
| ProfilerEvents_Profile (o : ProfilerProfileEvent).
Definition ProfilerEvents_variants : list (Variant ProfilerEvents) :=
  [variant None pod_ProfilerProfileEvent ProfilerEvents_Profile].
Definition ProfilerEvents_index (m : ProfilerEvents) : nat :=
  match m with ProfilerEvents_Profile _ => 0 end.
Definition ProfilerEvents_payload (m : ProfilerEvents) : PodW Z :=
  match m with
  | ProfilerEvents_Profile o => encode pod_ProfilerProfileEvent o
  end.
Definition ProfilerEvents_marshal : Marshallable ProfilerEvents :=
  derive_marshallable ProfilerEvents_variants ProfilerEvents_index ProfilerEvents_payload.
Definition ProfilerEvents_ok (m : ProfilerEvents) : Prop :=
  match m with
  | ProfilerEvents_Profile o => round_ok pod_ProfilerProfileEvent o
  end.
Definition ProfilerEvents_space (m : ProfilerEvents) : Z :=
  match m with
  | ProfilerEvents_Profile o => round_space pod_ProfilerProfileEvent o
  end.
#[global, refine] Instance ProfilerEvents_round : MarshalRound ProfilerEvents_marshal := {| mr_ok :=
  ProfilerEvents_ok; mr_space := ProfilerEvents_space |}.
Proof. all: derive_marshal ProfilerEvents_marshal. Defined.
#[global] Instance ProfilerEvents_calm : MarshalCalm ProfilerEvents_marshal.
Proof. apply variants_calm. derive_calmness. Qed.

(** ** [marshal/registry.rs] *)

Record RegistryBind := mkRegistryBind { registry_bind_id : Z; registry_bind_type : list byte;
  registry_bind_version : Z; registry_bind_new_id : Z }.
Definition pod_RegistryBind : Pod RegistryBind := derive_pod_struct
  (field pod_i32 (field pod_str (field pod_i32 (field pod_i32 no_fields))))
  (λ v, (registry_bind_id v, (registry_bind_type v, (registry_bind_version v, (registry_bind_new_id v, tt)))))
  (λ '(x0, (x1, (x2, (x3, _)))), mkRegistryBind x0 x1 x2 x3).
#[global] Instance RegistryBind_round : PodRound pod_RegistryBind .
Proof. derive_struct. Defined.
#[global] Instance RegistryBind_calm : PodCalm pod_RegistryBind .
Proof. apply derive_calm; apply _. Qed.

Record RegistryDestroy := mkRegistryDestroy { registry_destroy_id : Z }.
Definition pod_RegistryDestroy : Pod RegistryDestroy := derive_pod_struct
  (field pod_i32 no_fields)
  (λ v, (registry_destroy_id v, tt))
  (λ '(x0, _), mkRegistryDestroy x0).
#[global] Instance RegistryDestroy_round : PodRound pod_RegistryDestroy .
Proof. derive_struct. Defined.
#[global] Instance RegistryDestroy_calm : PodCalm pod_RegistryDestroy .
Proof. apply derive_calm; apply _. Qed.

Record RegistryGlobal := mkRegistryGlobal { registry_global_id : Z;
  registry_global_permissions : Z; registry_global_type : list byte; registry_global_verison : Z;
  registry_global_props : PairList (list byte) (list byte) }.
Definition pod_RegistryGlobal : Pod RegistryGlobal := derive_pod_struct
  (field pod_i32 (field pod_i32 (field pod_str (field pod_i32 (field (pod_pairs pod_str pod_str)
    no_fields)))))
  (λ v, (registry_global_id v, (registry_global_permissions v, (registry_global_type v,
    (registry_global_verison v, (registry_global_props v, tt))))))
  (λ '(x0, (x1, (x2, (x3, (x4, _))))), mkRegistryGlobal x0 x1 x2 x3 x4).
#[global] Instance RegistryGlobal_round : PodRound pod_RegistryGlobal .
Proof. derive_struct. Defined.
#[global] Instance RegistryGlobal_calm : PodCalm pod_RegistryGlobal .
Proof. apply derive_calm; apply _. Qed.

Record RegistryGlobalRemove := mkRegistryGlobalRemove { registry_global_remove_id : Z }.
Definition pod_RegistryGlobalRemove : Pod RegistryGlobalRemove := derive_pod_struct
  (field pod_i32 no_fields)
  (λ v, (registry_global_remove_id v, tt))
  (λ '(x0, _), mkRegistryGlobalRemove x0).
#[global] Instance RegistryGlobalRemove_round : PodRound pod_RegistryGlobalRemove .
Proof. derive_struct. Defined.
#[global] Instance RegistryGlobalRemove_calm : PodCalm pod_RegistryGlobalRemove .
Proof. apply derive_calm; apply _. Qed.

Inductive RegistryMethods :=
| RegistryMethods_Bind (o : RegistryBind)
| RegistryMethods_Destroy (o : RegistryDestroy).
Definition RegistryMethods_variants : list (Variant RegistryMethods) :=
  [variant (Some 1) pod_RegistryBind RegistryMethods_Bind;
   variant None pod_RegistryDestroy RegistryMethods_Destroy].
Definition RegistryMethods_index (m : RegistryMethods) : nat :=
  match m with RegistryMethods_Bind _ => 0 | RegistryMethods_Destroy _ => 1 end.
Definition RegistryMethods_payload (m : RegistryMethods) : PodW Z :=
  match m with
  | RegistryMethods_Bind o => encode pod_RegistryBind o
  | RegistryMethods_Destroy o => encode pod_RegistryDestroy o
  end.
Definition RegistryMethods_marshal : Marshallable RegistryMethods :=
  derive_marshallable RegistryMethods_variants RegistryMethods_index RegistryMethods_payload.
Definition RegistryMethods_ok (m : RegistryMethods) : Prop :=
  match m with
  | RegistryMethods_Bind o => round_ok pod_RegistryBind o
  | RegistryMethods_Destroy o => round_ok pod_RegistryDestroy o
  end.
Definition RegistryMethods_space (m : RegistryMethods) : Z :=
  match m with
  | RegistryMethods_Bind o => round_space pod_RegistryBind o
  | RegistryMethods_Destroy o => round_space pod_RegistryDestroy o
  end.
#[global, refine] Instance RegistryMethods_round : MarshalRound RegistryMethods_marshal := {| mr_ok :=
  RegistryMethods_ok; mr_space := RegistryMethods_space |}.
Proof. all: derive_marshal RegistryMethods_marshal. Defined.
#[global] Instance RegistryMethods_calm : MarshalCalm RegistryMethods_marshal.
Proof. apply variants_calm. derive_calmness. Qed.

Inductive RegistryEvents :=
| RegistryEvents_Global (o : RegistryGlobal)
| RegistryEvents_GlobalRemove (o : RegistryGlobalRemove).
Definition RegistryEvents_variants : list (Variant RegistryEvents) :=
  [variant None pod_RegistryGlobal RegistryEvents_Global;
   variant None pod_RegistryGlobalRemove RegistryEvents_GlobalRemove].
Definition RegistryEvents_index (m : RegistryEvents) : nat :=
  match m with RegistryEvents_Global _ => 0 | RegistryEvents_GlobalRemove _ => 1 end.
Definition RegistryEvents_payload (m : RegistryEvents) : PodW Z :=
  match m with
  | RegistryEvents_Global o => encode pod_RegistryGlobal o
  | RegistryEvents_GlobalRemove o => encode pod_RegistryGlobalRemove o
  end.
Definition RegistryEvents_marshal : Marshallable RegistryEvents :=
  derive_marshallable RegistryEvents_variants RegistryEvents_index RegistryEvents_payload.
Definition RegistryEvents_ok (m : RegistryEvents) : Prop :=
  match m with
  | RegistryEvents_Global o => round_ok pod_RegistryGlobal o
  | RegistryEvents_GlobalRemove o => round_ok pod_RegistryGlobalRemove o
  end.
Definition RegistryEvents_space (m : RegistryEvents) : Z :=
  match m with
  | RegistryEvents_Global o => round_space pod_RegistryGlobal o
  | RegistryEvents_GlobalRemove o => round_space pod_RegistryGlobalRemove o
  end.
#[global, refine] Instance RegistryEvents_round : MarshalRound RegistryEvents_marshal := {| mr_ok :=
  RegistryEvents_ok; mr_space := RegistryEvents_space |}.
Proof. all: derive_marshal RegistryEvents_marshal. Defined.
#[global] Instance RegistryEvents_calm : MarshalCalm RegistryEvents_marshal.
Proof. apply variants_calm. derive_calmness. Qed.
