(* ===== verification/InboundMessage.v ===== *)
(** * Inbound messages and footers

    Models [pipewire/src/protocol/marshal/message.rs]: a frame's payload is
    one body and, behind it, an optional footer with generation numbers. *)

From stdpp Require Import pretty.
From S2P Require Import Prelude Utf8 PodTypes PodCodec PodLaws PodCompound PodParser PodParserLaws.
From S2P Require Import PodBuilder Marshal MarshalLaws FrameHeader ClientNode ClientNodeLaws.

(** ** [std::io::Error], by what callers can tell apart *)
Inductive ErrorKind :=
| KUnsupported | KInvalidData | KInvalidInput | KNotConnected | KBrokenPipe | KOther
| KAlreadyExists | KNotFound | KUncategorized | KTimedOut | KUnexpectedEof | KWriteZero.
Inductive StdError :=
| Custom (kind : ErrorKind)
| RawOs (errno : Z)
| FromFrame (e : IoError).
Notation StdRes := (Res StdError).

(** ** Footers

    [CoreFooter] and [ClientFooter] have the same code, for payloads that
    differ in the name of their one field. *)
Record CoreGeneration := mkCoreGeneration { registry_generation : Z }.
Definition pod_CoreGeneration : Pod CoreGeneration :=
  derive_pod_struct (field pod_i64 no_fields) (λ g, (registry_generation g, tt)) (λ '(x, _), mkCoreGeneration x).
Record ClientGeneration := mkClientGeneration { client_generation : Z }.
Definition pod_ClientGeneration : Pod ClientGeneration :=
  derive_pod_struct (field pod_i64 no_fields) (λ g, (client_generation g, tt)) (λ '(x, _), mkClientGeneration x).

Inductive FooterPayload (G : Type) := Generation (g : G).
Arguments Generation {G} _.
Record Footer (G : Type) := mkFooter { payloads : list (FooterPayload G) }.
Arguments mkFooter {G} _.
Arguments payloads {G} _.
Definition CoreFooter : Type := Footer CoreGeneration.
Definition ClientFooter : Type := Footer ClientGeneration.

Section footer.
Context {G : Type} (PG : Pod G).

Fixpoint push_payloads (ps : list (FooterPayload G)) : BuilderOp :=
  match ps with
  | [] => op_id
  | Generation g :: ps => (push_id (mkId 0) ▷ push_pod PG g) ▷ push_payloads ps
  end.

Definition pop_payload : PM (FooterPayload G) :=
  opcode ← pop_id Z;
  if bool_decide (id_value opcode = 0) then (g ← pop_pod PG; mret (Generation g))
  else pm_res (Err (Invalid ("Invalid footer opcode " +:+ pretty (id_value opcode)))).

(** [while sp.available() > 0]: every turn consumes at least the header of
    the id, so that the length of the data is enough fuel. *)
Fixpoint pop_payloads (fuel : nat) : PM (list (FooterPayload G)) := λ p,
  if bool_decide (available p > 0) then
    match fuel with
    | O => (p, Panic)
    | S fuel => (payload ← pop_payload; ps ← pop_payloads fuel; mret (payload :: ps)) p
    end
  else (p, Ok []).

Definition pod_footer : Pod (Footer G) := {|
  encode f := encode_with (push_struct (push_payloads (payloads f)));
  decode := decode_struct (λ p, (ps ← pop_payloads (length (p_data p)); mret (mkFooter ps)) p);
|}.
End footer.

Definition pod_CoreFooter : Pod CoreFooter := pod_footer pod_CoreGeneration.
Definition pod_ClientFooter : Pod ClientFooter := pod_footer pod_ClientGeneration.

(** ** InboundMessage *)

(** The part behind the body. *)
Definition decode_footer (payload : list byte) (body_size : Z) : StdRes (option CoreFooter) :=
  '(footer, footer_size) ←
    (if bool_decide (body_size < len payload) then
       tail ← slice_from payload body_size;
       '(footer, size) ← map_err (λ _, Custom KInvalidData) (decode pod_CoreFooter tail);
       Ok (Some footer, size)
     else Ok (None, 0));
  if bool_decide (body_size + footer_size ≠ len payload) then Err (Custom KInvalidData) else
  Ok footer.

(** [decode]: the body, and the footer the handler is called with. *)
Definition body_error (op : Z) (e : PodError) : StdError :=
  match e with
  | Invalid message =>
      if bool_decide (message = unknown_opcode op) then Custom KUnsupported else Custom KInvalidData
  | _ => Custom KInvalidData
  end.
Definition inbound_decode {M} (P : Marshallable M) (op : Z) (payload : list byte) :
    StdRes (M * option CoreFooter) :=
  '(body, body_size) ← map_err (body_error op) (m_decode P op payload);
  footer ← decode_footer payload body_size;
  Ok (body, footer).

Definition inbound_take_fd (fds : FrameFds) (index : Z) : FrameFds * StdRes Z :=
  let '(fds, r) := FrameFds_take fds index in (fds, map_err (λ _, Custom KInvalidData) r).

Definition wire_error (e : WireError) : StdError :=
  match e with
  | InvalidData => Custom KInvalidData
  | InvalidInput => Custom KInvalidInput
  | Unsupported => Custom KUnsupported
  end.

(** Descriptors of an event that is dropped because of its footer are closed. *)
Definition decode_client_node_event (op : Z) (payload : list byte) (fds : FrameFds) :
    FrameFds * StdRes (Event * option CoreFooter) :=
  match (raw ← map_err (λ _, Custom KInvalidData) (RawPod_wrap payload);
         body ← slice payload 0 (raw_size raw);
         Ok (raw_size raw, body)) with
  | Ok (body_size, body) =>
      let '(fds, r) := decode_event op body fds Limits_default in
      (fds, event ← map_err wire_error r; footer ← decode_footer payload body_size; Ok (event, footer))
  | Err e => (fds, Err e)
  | Panic => (fds, Panic)
  end.

(** ** Footers round trip and decode calmly *)
#[global] Instance CoreGeneration_round : PodRound pod_CoreGeneration.
Proof. derive_struct. Defined.
#[global] Instance ClientGeneration_round : PodRound pod_ClientGeneration.
Proof. derive_struct. Defined.

Section footer_laws.
Context {G : Type} (PG : Pod G) `{!PodRound PG} `{!PodCalm PG}.

Definition payload_ok (p : FooterPayload G) : Prop := match p with Generation g => round_ok PG g end.
Definition payloads_space (ps : list (FooterPayload G)) : Z :=
  foldr (λ p s, match p with Generation g => round_space (pod_id Z) (mkId 0) + round_space PG g end + s) 0 ps.

Lemma id0_ok : round_ok (pod_id Z) (mkId 0).
Proof. split; by vm_compute. Qed.

Lemma payloads_space_nonneg ps : Forall payload_ok ps → 0 ≤ payloads_space ps.
Proof.
  induction 1 as [|[g] ps Hg _ IH]; simpl; [lia|].
  pose proof (round_space_nonneg PG g Hg). pose proof (round_space_nonneg (pod_id Z) _ id0_ok). simpl in *. lia.
Qed.

Lemma pushes_payloads ps :
  Forall payload_ok ps →
  pushes (push_payloads PG ps) (payloads_space ps) (λ bs, ∀ pre fuel,
    (length bs ≤ fuel)%nat → len (pre ++ bs) ≤ isize_max →
    pop_payloads PG fuel (mkParser (pre ++ bs) (len pre)) = (mkParser (pre ++ bs) (len (pre ++ bs)), Ok ps)).
Proof.
  induction 1 as [|[g] ps Hg _ IH].
  { apply pushes_id. intros pre fuel _ _. rewrite app_nil_r.
    destruct fuel; simpl; unfold available, saturating_sub; simpl; by rewrite bool_decide_eq_false_2 by lia. }
  refine (pushes_seq _ _ _ _ _ _ _ (pushes_seq _ _ _ _ _ _
    (λ bs, parses (pop_payload PG) bs (Generation g) ∧ 8 ≤ len bs)
    (pushes_header (pod_id Z) (mkId 0) id0_ok) (pushes_header PG g Hg) _) IH _).
  - intros b1 b2 [Hb1 ?] [Hb2 ?]. split; [|len_lia]. eapply parses_bind; [by apply decodes_parses|]. simpl.
    rewrite <- (app_nil_r b2). eapply parses_bind; [by apply decodes_parses|]. apply parses_ret.
  - intros b1 b2 [Hb1 H8] Hb2 pre fuel Hf Hl. destruct fuel as [|fuel].
    { rewrite length_app in Hf. unfold len in H8. lia. }
    simpl. rewrite available_at, bool_decide_eq_true_2 by len_lia.
    unfold mbind, pm_bind. rewrite (Hb1 pre b2) by done.
    rewrite (app_assoc pre b1 b2), <- len_app in *. rewrite Hb2; [done| |len_lia].
    rewrite length_app in Hf. unfold len in H8. lia.
Qed.

#[global, refine] Instance footer_round : PodRound (pod_footer PG) :=
  {| round_ok f := Forall payload_ok (payloads f) ∧ payloads_space (payloads f) < 2 ^ 32 - 8;
     round_space f := 8 + payloads_space (payloads f) |}.
Proof.
  intros [ps] buf [Hok Hs]. simpl in *. pose proof (payloads_space_nonneg ps Hok).
  refine (wrote_struct _ _ (λ p, (ps ← pop_payloads PG (length (p_data p)); mret (mkFooter ps)) p) (mkFooter ps) buf _ _);
    [|lia].
  eapply pushes_mono; [|by apply pushes_payloads]. simpl. intros bs Hp Hl. unfold mbind, pm_bind. simpl.
  specialize (Hp [] (length bs) (le_n _) Hl). change (len []) with 0 in Hp. simpl in Hp.
  unfold Parser_new. by rewrite Hp.
Defined.

(** The loop ends: every turn reads at least a header. *)
Lemma pop_payload_calm : pm_calm (pop_payload PG).
Proof.
  apply pm_calm_bind; [apply pop_pod_calm; apply _|]. intros id. case_bool_decide; [|by apply pm_calm_safe, pm_res_safe].
  apply pm_calm_bind; [apply pop_pod_calm; apply _|]. intros g. apply pm_calm_safe, pm_ret_safe.
Qed.
Lemma pop_pod_progress {T} (U : Pod T) `{!PodLaws U} p p' v :
  parser_wf p → pop_pod U p = (p', Ok v) → p_pos p + 8 ≤ p_pos p'.
Proof.
  intros Hp Hpop. destruct (wf_rest p Hp) as (pre & rest & Hd & Hpre & Hrest & Hs).
  unfold pop_pod in Hpop. rewrite Hs in Hpop. cbn [mbind res_bind] in Hpop.
  pose proof (decode_safe (P:=U) rest) as Hsafe.
  destruct (decode U rest) as [[w s]| |]; try done. simpl in Hpop, Hsafe.
  case_bool_decide; [done|]. unfold checked_add in Hpop. case_bool_decide; [|done]. simplify_eq/=. lia.
Qed.
Lemma pop_payload_progress p p' v :
  parser_wf p → ¬ negative_count (p_data p) → pop_payload PG p = (p', Ok v) → p_pos p + 8 ≤ p_pos p'.
Proof.
  intros Hp Hn. unfold pop_payload, mbind at 1, pm_bind at 1.
  assert (pm_safe (pop_id Z)) as Hs by (apply pop_pod_safe; apply _). destruct (Hs p Hp) as [Hmv _].
  destruct (pop_id Z p) as [q [id| |]] eqn:Hq; try done.
  apply (pop_pod_progress (pod_id Z)) in Hq; [|done]. simpl in Hmv.
  intros Hv. enough (p_pos q ≤ p_pos p') by lia.
  assert (parser_wf q) as Hwq by by eapply moved_wf.
  assert (pm_calm (if bool_decide (id_value id = 0) then (g ← pop_pod PG; mret (Generation g))
    else pm_res (Err (Invalid ("Invalid footer opcode " +:+ pretty (id_value id)))))) as Hc.
  { case_bool_decide; [|by apply pm_calm_safe, pm_res_safe].
    apply pm_calm_bind; [apply pop_pod_calm; apply _|]. intros g. apply pm_calm_safe, pm_ret_safe. }
  destruct (Hc q Hwq) as [Hm _]; [by rewrite (proj1 Hmv)|]. rewrite Hv in Hm. simpl in Hm. apply Hm.
Qed.

Lemma pop_payloads_calm fuel p :
  parser_wf p → ¬ negative_count (p_data p) → len (p_data p) - p_pos p ≤ Z.of_nat fuel →
  moved p (pop_payloads PG fuel p).1 ∧ total (pop_payloads PG fuel p).2.
Proof.
  revert p. induction fuel as [|fuel IH]; intros p Hp Hn Hf; simpl; rewrite available_wf by done.
  { rewrite bool_decide_eq_false_2 by lia. split; [by apply moved_refl|done]. }
  case_bool_decide; [|split; [by apply moved_refl|done]].
  unfold mbind, pm_bind. destruct (pop_payload_calm p Hp Hn) as [Hmv Ht].
  destruct (pop_payload PG p) as [q [x|e|]] eqn:Hq; simpl in *; [|done..].
  apply pop_payload_progress in Hq; [|done|done]. pose proof Hmv as [Hd ?].
  destruct (IH q) as [Hmv' Ht']; [by eapply moved_wf|by rewrite Hd|rewrite Hd; lia|].
  assert (moved p (pop_payloads PG fuel q).1) by by eapply moved_trans.
  by destruct (pop_payloads PG fuel q) as [r [ps| |]].
Qed.

#[global] Instance footer_calm : PodCalm (pod_footer PG).
Proof.
  intros data Hl Hn. apply decode_struct_calm; [|done|done]. intros p Hp Hneg.
  destruct (pop_payloads_calm (length (p_data p)) p Hp Hneg) as [Hmv Ht]; [destruct Hp; unfold len in *; lia|].
  unfold mbind, pm_bind. by destruct (pop_payloads PG (length (p_data p)) p) as [q [ps| |]].
Qed.
End footer_laws.
