(* ===== verification/Connection.v ===== *)
(** * The connection of a client

    Models [pipewire/src/protocol/connection.rs]: messages are encoded into
    frames with consecutive sequence numbers, a footer acknowledges a newer
    registry generation, and frames go through the FrameSender and
    FrameReceiver of the connection. *)

From S2P Require Import Prelude Utf8 PodTypes PodCodec PodLaws PodCompound PodParser PodParserLaws.
From S2P Require Import PodBuilder Marshal MarshalLaws FrameHeader FrameControl FrameRecv.
From S2P Require Import FrameRecvLaws FrameStream FrameSend FrameChannel ClientNode ClientNodeLaws.
From S2P Require Import InboundMessage.

Definition ASYNC_SEQ_BIT : Z := Z.shiftl 1 30.
Definition ASYNC_SEQ_MASK : Z := ASYNC_SEQ_BIT - 1.
Definition MAX_MESSAGE_SIZE : Z := 16777216.
Definition EAGAIN : Z := 11.

(** The stream is the descriptor the socket operations work on; the list of
    listeners is modelled in HookList, and an emission of [need_flush] is an
    output of [push]. *)
Record Connection := mkConnection {
  c_stream : bool;
  c_receiver : FrameReceiver;
  c_last_recv_generation : Z;
  c_out_seq : Z;
  c_sender : FrameSender;
  c_last_sent_generation : Z;
}.

Definition Connection_new (stream : bool) : Connection :=
  mkConnection stream (FrameReceiver_new FrameLimits_default) 0 0 (FrameSender_new FrameLimits_default) 0.
Definition next_seq (c : Connection) : Z := c_out_seq c.
Definition set_stream (c : Connection) : Connection :=
  mkConnection true (c_receiver c) (c_last_recv_generation c) (c_out_seq c) (c_sender c) (c_last_sent_generation c).
Definition clear_buffers (c : Connection) : Connection :=
  mkConnection (c_stream c) (FrameReceiver_new FrameLimits_default) 0 0 (FrameSender_new FrameLimits_default) 0.
Definition conn_disconnect (c : Connection) : Connection :=
  clear_buffers (mkConnection false (c_receiver c) (c_last_recv_generation c) (c_out_seq c) (c_sender c)
    (c_last_sent_generation c)).

Definition frame_error (e : FrameError) : StdError :=
  match e with Io e => FromFrame e | _ => Custom KInvalidData end.

(** ** Sending *)
Definition grow_payload_buffer (payload : list byte) : StdRes (list byte) :=
  let capacity := len payload in
  if bool_decide (capacity > MAX_MESSAGE_SIZE / 2) then Err (Custom KInvalidInput) else
  Ok (payload ++ zeros capacity).

Definition make_footer (c : Connection) : option ClientFooter :=
  if bool_decide (c_last_recv_generation c > c_last_sent_generation c)
  then Some (mkFooter [Generation (mkClientGeneration (c_last_recv_generation c))]) else None.

Section push.
Context {M : Type} (P : Marshallable M).

(** The loop doubles the buffer each time and stops at [MAX_MESSAGE_SIZE]:
    11 turns from 16384 bytes. *)
Fixpoint encode_message (fuel : nat) (m : M) (footer : option ClientFooter) (payload : list byte) :
    StdRes (list byte) :=
  match fuel with
  | O => Panic
  | S fuel =>
      match m_encode P m payload with
      | (payload, Ok object_size) =>
          match footer with
          | Some footer =>
              match within object_size (encode pod_ClientFooter footer) payload with
              | (payload, Ok size) => Ok (take (Z.to_nat (object_size + size)) payload)
              | (payload, Err NoSpace) =>
                  payload ← grow_payload_buffer payload; encode_message fuel m (Some footer) payload
              | (_, Err _) => Err (Custom KInvalidData)
              | (_, Panic) => Panic
              end
          | None => Ok (take (Z.to_nat (object_size + 0)) payload)
          end
      | (payload, Err NoSpace) =>
          payload ← grow_payload_buffer payload; encode_message fuel m footer payload
      | (_, Err _) => Err (Custom KInvalidData)
      | (_, Panic) => Panic
      end
  end.

(** The connection, the result, and whether [need_flush] is emitted. *)
Definition push_with_owned_fds (c : Connection) (id : Z) (m : M) (fds : list Z) :
    Connection * StdRes unit * bool :=
  let seq := c_out_seq c in
  let footer := make_footer c in
  match (payload ← encode_message 12 m footer (zeros 16384);
         map_err frame_error (OutboundFrame_new id (msg_opcode P m) seq payload fds FrameLimits_default)) with
  | Ok frame =>
      match enqueue (c_sender c) frame with
      | (sender, Ok _) =>
          (mkConnection (c_stream c) (c_receiver c) (c_last_recv_generation c)
             (Z.land (seq + 1) ASYNC_SEQ_MASK) sender
             (match footer with Some _ => c_last_recv_generation c | None => c_last_sent_generation c end),
           Ok tt, true)
      | (sender, Err e) =>
          (mkConnection (c_stream c) (c_receiver c) (c_last_recv_generation c) seq sender
             (c_last_sent_generation c), Err (frame_error e), false)
      | (sender, Panic) => (c, Panic, false)
      end
  | Err e => (c, Err e, false)
  | Panic => (c, Panic, false)
  end.
Definition push (c : Connection) (id : Z) (m : M) : Connection * StdRes unit * bool :=
  push_with_owned_fds c id m [].
End push.

Definition conn_flush {K} (sendmsg : K → list byte → list byte → K * RawSend) (fuel : nat) (k : K) (c : Connection) :
    K * Connection * StdRes unit :=
  if c_stream c then
    let '(k, sender, r) := flush sendmsg fuel k (c_sender c) in
    (k, mkConnection (c_stream c) (c_receiver c) (c_last_recv_generation c) (c_out_seq c) sender
          (c_last_sent_generation c),
     outcome ← map_err frame_error r;
     match outcome with Drained => Ok tt | FlushWouldBlock => Err (RawOs EAGAIN) end)
  else (k, c, Err (Custom KNotConnected)).

(** ** Receiving *)
Definition receive_frame {K} (recvmsg : K → Z → Z → K * RawRecv) (fuel : nat) (k : K) (c : Connection) :
    K * Connection * StdRes ReceivedFrame :=
  if c_stream c then
    let '(k, receiver, r) := receive recvmsg fuel k (c_receiver c) in
    (k, mkConnection (c_stream c) receiver (c_last_recv_generation c) (c_out_seq c) (c_sender c)
          (c_last_sent_generation c),
     outcome ← map_err frame_error r;
     match outcome with
     | Frame frame => Ok frame
     | ReceiveWouldBlock => Err (RawOs EAGAIN)
     | Closed => Err (Custom KBrokenPipe)
     end)
  else (k, c, Err (Custom KNotConnected)).

Definition set_recv_generation (c : Connection) (g : Z) : Connection :=
  mkConnection (c_stream c) (c_receiver c) g (c_out_seq c) (c_sender c) (c_last_sent_generation c).
Definition update_generation (c : Connection) (footer : option CoreFooter) : Connection :=
  match footer with
  | Some footer =>
      foldl (λ c p, match p with Generation g => set_recv_generation c (registry_generation g) end) c
        (payloads footer)
  | None => c
  end.
