(* ===== verification/ConnectionProps.v ===== *)
(** * Properties of the connection

    Pushing, acknowledging generations and flushing, over whole histories of a
    connection ([pipewire/src/protocol/connection.rs]), up to what the peer
    decodes. *)

From Stdlib Require Import Sorting.Sorted.
From S2P Require Import Prelude Utf8 PodTypes PodCodec PodLaws PodCompound PodParser PodParserLaws.
From S2P Require Import PodBuilder Marshal MarshalLaws FrameHeader FrameControl FrameRecv.
From S2P Require Import FrameRecvLaws FrameStream FrameSend FrameChannel ClientNode ClientNodeLaws.
From S2P Require Import MarshalMessages InboundMessage Connection.

(** A payload that carries message [m] and the footer. *)
Definition body_of {M} (P : Marshallable M) (m : M) (body : list byte) : Prop :=
  ∀ rest, len (body ++ rest) ≤ isize_max → m_decode P (msg_opcode P m) (body ++ rest) = Ok (m, len body).
Definition footer_of (footer : option ClientFooter) (fb : list byte) : Prop :=
  match footer with
  | Some f => decodes pod_ClientFooter fb f ∧ 8 ≤ len fb
  | None => fb = []
  end.
Definition footer_space (footer : option ClientFooter) : Z :=
  match footer with Some f => round_space pod_ClientFooter f | None => 0 end.
Definition carries_message {M} (P : Marshallable M) (m : M) (footer : option ClientFooter) (payload : list byte) : Prop :=
  ∃ body fb, payload = body ++ fb ∧ 8 ≤ len body ∧ body_of P m body ∧ footer_of footer fb.

Section encode.
Context {M : Type} (P : Marshallable M) `{!MarshalRound P}.

Lemma footer_space_nonneg footer :
  (∀ f, footer = Some f → round_ok pod_ClientFooter f) → 0 ≤ footer_space footer.
Proof.
  intros Hf. destruct footer as [f|]; [|done].
  exact (round_space_nonneg pod_ClientFooter f (Hf f eq_refl)).
Qed.

Lemma grow_spec (payload : list byte) n :
  len payload = 2 ^ (24 - Z.of_nat n) →
  match n with
  | O => grow_payload_buffer payload = Err (Custom KInvalidInput)
  | S n => (n < 24)%nat → ∃ payload', grow_payload_buffer payload = Ok payload' ∧ len payload' = 2 ^ (24 - Z.of_nat n)
  end.
Proof.
  intros Hl. unfold grow_payload_buffer, MAX_MESSAGE_SIZE. destruct n as [|n].
  - rewrite Hl. by rewrite bool_decide_eq_true_2.
  - intros Hn. rewrite bool_decide_eq_false_2.
    + eexists. split; [done|]. rewrite len_app, len_zeros, Hl by apply len_nonneg.
      replace (24 - Z.of_nat n) with (Z.succ (24 - Z.of_nat (S n))) by lia. rewrite Z.pow_succ_r by lia. lia.
    + rewrite Hl. pose proof (Z.pow_le_mono_r 2 (24 - Z.of_nat (S n)) 23). change (16777216 / 2) with (2 ^ 23). lia.
Qed.

Lemma encode_message_spec n fuel m footer payload :
  mr_ok P m → (∀ f, footer = Some f → round_ok pod_ClientFooter f) →
  len payload = 2 ^ (24 - Z.of_nat n) → (n < fuel)%nat → (n ≤ 24)%nat →
  match encode_message P fuel m footer payload with
  | Ok out => carries_message P m footer out ∧ len out ≤ mr_space P m + footer_space footer
  | Err e => MAX_MESSAGE_SIZE < mr_space P m + footer_space footer
  | Panic => False
  end.
Proof.
  intros Hm Hf. pose proof (footer_space_nonneg footer Hf) as Hfs.
  revert n payload. induction fuel as [|fuel IH]; intros n payload Hl Hn Hn24; [lia|]. cbn [encode_message].
  assert (∀ payload', len payload' = len payload → len payload < mr_space P m + footer_space footer →
    match (payload ← grow_payload_buffer payload'; encode_message P fuel m footer payload) with
    | Ok out => carries_message P m footer out ∧ len out ≤ mr_space P m + footer_space footer
    | Err e => MAX_MESSAGE_SIZE < mr_space P m + footer_space footer
    | Panic => False
    end) as Hgrow.
  { intros payload' Hl' Hs. pose proof (grow_spec payload' n) as Hg. rewrite Hl', Hl in Hg. specialize (Hg eq_refl).
    destruct n as [|n].
    - rewrite Hg. simpl. rewrite Hl in Hs. unfold MAX_MESSAGE_SIZE. simpl in Hs. lia.
    - destruct Hg as (out & -> & Hout); [lia|]. simpl. apply (IH n); lia || done. }
  destruct (mr_round m payload Hm) as [(body & -> & Hb1 & Hb2 & Hb8 & Ha & Hbody)|(Hs & payload' & -> & Hl')].
  2: { apply Hgrow; [done|lia]. }
  destruct footer as [f|].
  - rewrite within_app by done.
    destruct (round_encode (U:=pod_ClientFooter) f (drop (length body) payload) (Hf f eq_refl))
      as [(fb & -> & Hf1 & Hf2 & Hf8 & Hfa & Hfb)|(Hs & d & -> & Hd)]; cbn [fst snd].
    + rewrite app_assoc, take_app_length' by (rewrite length_app; unfold len; lia).
      split; [by exists body, fb|]. unfold footer_space. rewrite len_app. lia.
    + assert (len (drop (length body) payload) = len payload - len body) as Hdl
        by (unfold len in *; rewrite length_drop; lia).
      apply Hgrow; [len_lia|]. unfold footer_space. lia.
  - rewrite take_app_length' by (unfold len; lia). simpl. split; [|lia].
    exists body, []. by rewrite app_nil_r.
Qed.
End encode.

(** ** The invariant *)
Record conn_inv (c : Connection) : Prop := {
  ci_send : send_inv (c_sender c);
  ci_fds : queue_fds_ok (c_sender c);
  ci_limits : s_limits (c_sender c) = FrameLimits_default;
  ci_seq : 0 ≤ c_out_seq c < 2 ^ 30;
  ci_gen : i64_range (c_last_recv_generation c);
}.

Lemma connection_new_inv stream : conn_inv (Connection_new stream).
Proof. split; [apply new_send_inv|constructor|done|done|done]. Qed.

Lemma make_footer_ok c f : conn_inv c → make_footer c = Some f → round_ok pod_ClientFooter f.
Proof.
  intros Hi. unfold make_footer. case_bool_decide; [|done]. intros [= <-].
  pose proof (ci_gen _ Hi). split; [|by vm_compute]. constructor; [|constructor].
  split; [|by vm_compute]. split; done.
Qed.

Lemma land_mask n : 0 ≤ n → Z.land n ASYNC_SEQ_MASK = n mod 2 ^ 30.
Proof. intros. change ASYNC_SEQ_MASK with (Z.ones 30). by apply Z.land_ones. Qed.

(** Why a message is refused. *)
Definition refused {M} (P : Marshallable M) `{!MarshalRound P} (c : Connection) (m : M) (fds : list Z) : Prop :=
  let space := mr_space P m + footer_space (make_footer c) in
  WIRE_MAX_PAYLOAD < space ∨ 1024 < len fds ∨ failed (c_sender c) = true ∨
  WIRE_MAX_PAYLOAD * 4 < queued_bytes (c_sender c) + HEADER_LEN + space ∨
  1024 < queued_fds (c_sender c) + len fds.

Definition next_sent (c : Connection) : Z :=
  match make_footer c with Some _ => c_last_recv_generation c | None => c_last_sent_generation c end.

(** [c'] is [c] with one more message in the queue. *)
Record pushed {M} (P : Marshallable M) (c : Connection) (id : Z) (m : M) (fds : list Z) (c' : Connection) : Prop := {
  pu_queue : ∃ payload, carries_message P m (make_footer c) payload ∧ len payload ≤ WIRE_MAX_PAYLOAD ∧
    queue (c_sender c') = queue (c_sender c) ++ [fresh (mkMessage id (msg_opcode P m) (c_out_seq c) payload fds)];
  pu_fds : len fds ≤ 1024;
  pu_failed : failed (c_sender c') = failed (c_sender c) ∧ failed (c_sender c) = false;
  pu_seq : c_out_seq c' = (c_out_seq c + 1) mod 2 ^ 30;
  pu_sent : c_last_sent_generation c' = next_sent c;
  pu_rest : c_stream c' = c_stream c ∧ c_receiver c' = c_receiver c ∧
    c_last_recv_generation c' = c_last_recv_generation c;
}.

Lemma frame_new_Ok id op seq payload fds :
  ¬ WIRE_MAX_PAYLOAD < len payload → ¬ 1024 < len fds →
  OutboundFrame_new id op seq payload fds FrameLimits_default =
    Ok (mkOutbound (mkHeader id op (len payload) seq (len fds))
          (frame_bytes (sent_frame (mkMessage id op seq payload fds))) fds).
Proof.
  intros Hp Hn. unfold OutboundFrame_new. change (payload_limit FrameLimits_default) with WIRE_MAX_PAYLOAD.
  pose proof (len_nonneg payload). pose proof (len_nonneg fds).
  rewrite (bool_decide_eq_false_2 (len payload > _)) by lia. rewrite bool_decide_eq_false_2 by (simpl; lia).
  rewrite !wrap_small by (unfold WIRE_MAX_PAYLOAD in *; lia). cbv zeta.
  assert (∃ hb, Header_encode (mkHeader id op (len payload) seq (len fds)) = Ok hb) as [hb Hh].
  { unfold Header_encode. cbn [payload_len]. rewrite bool_decide_eq_false_2 by lia. by eexists. }
  unfold frame_bytes, header_bytes, sent_frame. cbn [s_header s_payload]. simpl. by rewrite Hh.
Qed.

Lemma frame_new_spec id op seq payload fds :
  fds_ok (Some fds) →
  match OutboundFrame_new id op seq payload fds FrameLimits_default with
  | Ok f => f = mkOutbound (mkHeader id op (len payload) seq (len fds))
        (frame_bytes (sent_frame (mkMessage id op seq payload fds))) fds ∧
      outbound_ok f ∧ len payload ≤ WIRE_MAX_PAYLOAD ∧ len fds ≤ 1024
  | Err _ => WIRE_MAX_PAYLOAD < len payload ∨ 1024 < len fds
  | Panic => False
  end.
Proof.
  intros Hfds. destruct (decide (WIRE_MAX_PAYLOAD < len payload)) as [Hp|Hp];
    [|destruct (decide (1024 < len fds)) as [Hn|Hn]].
  1, 2: unfold OutboundFrame_new; change (payload_limit FrameLimits_default) with WIRE_MAX_PAYLOAD;
    case_bool_decide; [left; lia|].
  - lia.
  - rewrite bool_decide_eq_true_2 by (simpl; lia). by right.
  - pose proof (frame_new_Ok id op seq payload fds Hp Hn) as Hf. rewrite Hf.
    pose proof (OutboundFrame_new_inv _ _ _ _ _ _ _ _ Hf eq_refl Hfds) as (_ & Hok & _). split_and!; try done; lia.
Qed.

Lemma enqueue_refused s f :
  send_inv s → outbound_ok f → payload_len (ob_header f) ≤ WIRE_MAX_PAYLOAD → len (ob_fds f) ≤ 1024 →
  s_limits s = FrameLimits_default → (∃ s' e, enqueue s f = (s', Err e)) →
  failed s = true ∨ WIRE_MAX_PAYLOAD * 4 < queued_bytes s + len (ob_bytes f) ∨ 1024 < queued_fds s + len (ob_fds f).
Proof.
  intros Hs Ho Hp Hf Hl (s' & e & He). unfold enqueue in He. destruct (failed s); [by left|]. right. cbv zeta in He.
  rewrite Hl in He. change (payload_limit FrameLimits_default) with WIRE_MAX_PAYLOAD in He.
  rewrite (bool_decide_eq_false_2 (_ > WIRE_MAX_PAYLOAD)) in He by lia.
  rewrite (bool_decide_eq_false_2 (_ > max_frame_fds _)) in He by (simpl; lia).
  unfold saturating_add in He. case_bool_decide as Hb; [left; simpl in Hb; lia|].
  case_bool_decide as Hb'; [right; simpl in Hb'; lia|]. done.
Qed.

Lemma enqueue_live s f s' : enqueue s f = (s', Ok tt) → failed s = false.
Proof. unfold enqueue. by destruct (failed s). Qed.

Lemma push_spec {M} (P : Marshallable M) `{!MarshalRound P} c id m fds :
  conn_inv c → mr_ok P m → fds_ok (Some fds) →
  match push_with_owned_fds P c id m fds with
  | (c', Ok _, emitted) => conn_inv c' ∧ pushed P c id m fds c' ∧ emitted = true
  | (c', Err _, emitted) => c' = c ∧ emitted = false ∧ refused P c m fds
  | (_, Panic, _) => False
  end.
Proof.
  intros Hi Hm Hfds. pose proof (λ f, make_footer_ok c f Hi) as Hfoot.
  unfold push_with_owned_fds, refused. cbv zeta.
  pose proof (encode_message_spec P 10 12 m (make_footer c) (zeros 16384) Hm Hfoot eq_refl) as He.
  specialize (He ltac:(lia) ltac:(lia)).
  destruct (encode_message P 12 m (make_footer c) (zeros 16384)) as [payload|e|]; [|simpl|done].
  2: { split_and!; try done. left. unfold MAX_MESSAGE_SIZE, WIRE_MAX_PAYLOAD in *. lia. }
  destruct He as [Hcar Hlen]. cbn [mbind res_bind].
  pose proof (frame_new_spec id (msg_opcode P m) (c_out_seq c) payload fds Hfds) as Hnew.
  destruct (OutboundFrame_new _ _ _ _ _ _) as [f|e|]; [|simpl|done].
  2: { split_and!; try done. destruct Hnew; [left; lia|right; by left]. }
  destruct Hnew as (-> & Hok & Hpl & Hn). cbn [map_err]. pose proof (proj1 Hok) as Hbl. cbn [ob_bytes ob_header payload_len] in Hbl.
  pose proof (enqueue_spec (c_sender c) _ (ci_send _ Hi) (ci_fds _ Hi) Hok) as Hq.
  pose proof (enqueue_refused (c_sender c) _ (ci_send _ Hi) Hok Hpl Hn (ci_limits _ Hi)) as Href.
  destruct (enqueue _ _) as [s' [[]|e|]] eqn:Henq; [| |done].
  - destruct Hq as (Hs & Hqf & Hfail & Hl & Hqueue). split_and!; [| |done].
    + split; simpl; try done; [by rewrite Hl; apply (ci_limits _ Hi)| |apply (ci_gen _ Hi)].
      pose proof (ci_seq _ Hi). rewrite land_mask by lia. apply Z.mod_pos_bound. lia.
    + assert (failed (c_sender c) = false) as Hff by by eapply enqueue_live.
      pose proof (ci_seq _ Hi). split; simpl; try done; [by exists payload| by rewrite land_mask by lia].
  - simpl. rewrite Hq. split_and!; [by destruct c|done|]. cbn [ob_bytes ob_fds] in Href.
    destruct Href as [?|[?|?]]; [by eauto|..]; right; right; [by left|right; left|right; right]; lia.
Qed.

(** ** Histories of a connection *)
Inductive ConnOp :=
| OpPush {M : Type} (P : Marshallable M) (R : MarshalRound P) (id : Z) (m : M) (fds : list Z)
| OpGeneration (footer : CoreFooter).

Definition op_ok (op : ConnOp) : Prop :=
  match op with
  | OpPush P R id m fds => u32_range id ∧ mr_ok P m ∧ fds_ok (Some fds)
  | OpGeneration footer =>
      Forall (λ p, match p with Generation g => i64_range (registry_generation g) end) (payloads footer)
  end.

(** The connection afterwards, and the pushes that succeeded. *)
Fixpoint conn_run (c : Connection) (ops : list ConnOp) : Connection * list ConnOp :=
  match ops with
  | [] => (c, [])
  | OpPush P R id m fds as op :: ops =>
      match push_with_owned_fds P c id m fds with
      | (c, Ok _, _) => let '(c, sent) := conn_run c ops in (c, op :: sent)
      | (c, _, _) => conn_run c ops
      end
  | OpGeneration footer :: ops => conn_run (update_generation c (Some footer)) ops
  end.

(** A queued message, with the generation its footer acknowledges. *)
Definition footer_with (g : option Z) : option ClientFooter :=
  (λ g, mkFooter [Generation (mkClientGeneration g)]) <$> g.
Definition sent_as (op : ConnOp) (e : Message * option Z) : Prop :=
  match op with
  | OpPush P R id m fds =>
      m_object_id e.1 = id ∧ m_opcode e.1 = msg_opcode P m ∧ m_fds e.1 = fds ∧
      carries_message P m (footer_with e.2) (m_payload e.1)
  | OpGeneration _ => False
  end.

Lemma update_generation_spec c f :
  conn_inv c → op_ok (OpGeneration f) →
  let c' := update_generation c (Some f) in
  conn_inv c' ∧ c_sender c' = c_sender c ∧ c_out_seq c' = c_out_seq c ∧
  c_last_sent_generation c' = c_last_sent_generation c ∧ c_stream c' = c_stream c.
Proof.
  destruct f as [ps]. simpl. intros Hi Hps. revert c Hi.
  induction Hps as [|[g] ps Hg _ IH]; intros c Hi; simpl; [done|].
  destruct (IH (set_recv_generation c (registry_generation g))) as (? & ? & ? & ? & ?); [|done].
  destruct Hi. by split.
Qed.

Lemma next_sent_spec c :
  ∃ g, make_footer c = footer_with g ∧ next_sent c = default (c_last_sent_generation c) g ∧
    (∀ n, g = Some n → c_last_sent_generation c < n).
Proof.
  unfold next_sent, make_footer. case_bool_decide; [exists (Some (c_last_recv_generation c))|exists None];
    simpl; split_and!; try done. intros n [= <-]. lia.
Qed.

Lemma conn_run_spec ops c c' sent :
  conn_inv c → Forall op_ok ops → conn_run c ops = (c', sent) →
  ∃ entries : list (Message * option Z),
    conn_inv c' ∧ queue (c_sender c') = queue (c_sender c) ++ (fresh <$> entries.*1) ∧
    failed (c_sender c') = failed (c_sender c) ∧ c_stream c' = c_stream c ∧
    Forall2 sent_as sent entries ∧
    Forall (λ m, message_typed m ∧ len (m_payload m) ≤ WIRE_MAX_PAYLOAD ∧ len (m_fds m) ≤ 1024) entries.*1 ∧
    (∀ i m, entries.*1 !! i = Some m → m_seq m = (c_out_seq c + Z.of_nat i) mod 2 ^ 30) ∧
    Sorted Z.lt (c_last_sent_generation c :: omap snd entries).
Proof.
  intros Hi Hok. revert c sent Hi. induction Hok as [|op ops Ho _ IH]; intros c sent Hi Hr.
  { simplify_eq/=. exists []. rewrite app_nil_r. split_and!; try done; repeat constructor. }
  destruct op as [M P R id m fds|footer]; simpl in Hr.
  - destruct Ho as (Hid & Hm & Hfds). pose proof (push_spec P c id m fds Hi Hm Hfds) as Hp.
    destruct (push_with_owned_fds P c id m fds) as [[c1 [[]|e|]] emitted]; [| |done].
    2: { destruct Hp as (-> & _). by apply IH. }
    destruct Hp as (Hi1 & [(payload & Hcar & Hpl & Hq) Hn [Hf1 Hf] Hseq Hsent (Hst & _)] & _).
    destruct (conn_run c1 ops) as [c2 sent2] eqn:Hrest. simplify_eq/=.
    destruct (IH c1 sent2 Hi1 Hrest) as (es & Hi' & Hq' & Hf' & Hst' & Hs' & Hall & Hseq' & Hsort).
    destruct (next_sent_spec c) as (g & Hg & Hnext & Hlt).
    exists ((mkMessage id (msg_opcode P m) (c_out_seq c) payload fds, g) :: es).
    pose proof (ci_seq _ Hi) as Hr.
    split_and!; csimpl; [done| |congruence|congruence| | | |].
    + rewrite Hq', Hq, <- app_assoc. done.
    + constructor; [|done]. simpl. rewrite <- Hg. done.
    + constructor; [|done]. split_and!; [|done|done].
      split; [done|]. split; [apply mr_opcode|]. split; [simpl; unfold u32_range; lia|done].
    + intros [|i] x Hx; simplify_eq/=; [rewrite Z.add_0_r; by rewrite Z.mod_small by lia|].
      rewrite (Hseq' i x Hx), Hseq, Zplus_mod_idemp_l. f_equal. lia.
    + rewrite Hsent, Hnext in Hsort. destruct g as [n|]; simpl in *; [|done].
      constructor; [done|]. constructor. by apply Hlt.
  - destruct (update_generation_spec c footer Hi Ho) as (Hi1 & Hs1 & Hq1 & Hg1 & Hst1).
    destruct (IH _ sent Hi1 Hr) as (es & H1 & H2 & H3 & H4 & H5 & H6 & H7 & H8).
    exists es. rewrite Hs1, Hq1, Hg1, Hst1 in *. by split_and!.
Qed.

(** ** Properties *)

(** pushing a valid message never panics. It either appends one frame to
    the send queue, with the connection's sequence number, whose payload
    decodes to the message followed by a footer exactly if a generation newer
    than the last acknowledged one has been received; then the sequence
    number advances modulo [2^30], that generation counts as acknowledged and
    a flush is requested. Or it fails and changes nothing, and then the
    message, its descriptors or the queue are too large or the sender has
    failed. *)
Lemma push_outcome {M} (P : Marshallable M) `{!MarshalRound P} (c : Connection) (id : Z) (m : M) (fds : list Z) :
  conn_inv c → mr_ok P m → fds_ok (Some fds) →
  match push_with_owned_fds P c id m fds with
  | (c', Ok _, emitted) => conn_inv c' ∧ pushed P c id m fds c' ∧ emitted = true
  | (c', Err _, emitted) => c' = c ∧ emitted = false ∧ refused P c m fds
  | (_, Panic, _) => False
  end.
Proof. apply push_spec. Qed.

Definition sample_hello : CoreMethods := CoreMethods_Hello (mkCoreHello 3).
Lemma push_outcome_witness :
  (push_with_owned_fds CoreMethods_marshal (Connection_new true) 0 sample_hello [7]).1.2 = Ok tt ∧
  conn_inv (push_with_owned_fds CoreMethods_marshal (Connection_new true) 0 sample_hello [7]).1.1.
Proof.
  pose proof (push_outcome CoreMethods_marshal (Connection_new true) 0 sample_hello [7]
    (connection_new_inv true)) as H.
  assert ((push_with_owned_fds CoreMethods_marshal (Connection_new true) 0 sample_hello [7]).1.2 = Ok tt) as Hr
    by by vm_compute.
  split; [done|].
  destruct (push_with_owned_fds _ _ _ _ _) as [[c' r] emitted]. simpl in Hr. subst r.
  destruct H as (H & _); [..|done]; repeat constructor; by vm_compute.
Defined.

(** over any history of pushes and received generations, the queued
    frames carry the accepted messages in order, with consecutive sequence
    numbers modulo [2^30], and the generations their footers acknowledge are
    strictly increasing. *)
Lemma connection_order (stream : bool) (ops : list ConnOp) (c' : Connection) (sent : list ConnOp) :
  Forall op_ok ops → conn_run (Connection_new stream) ops = (c', sent) →
  ∃ entries : list (Message * option Z),
    queue (c_sender c') = fresh <$> entries.*1 ∧ Forall2 sent_as sent entries ∧
    (∀ i m, entries.*1 !! i = Some m → m_seq m = Z.of_nat i mod 2 ^ 30) ∧
    Sorted Z.lt (0 :: omap snd entries).
Proof.
  intros Hok Hr. destruct (conn_run_spec ops _ _ _ (connection_new_inv stream) Hok Hr)
    as (es & _ & Hq & _ & _ & Hs & _ & Hseq & Hsort). exists es. by split_and!.
Qed.

(** A hello, a generation from the peer, then a sync with two descriptors. *)
Definition sample_ops : list ConnOp :=
  [ OpPush CoreMethods_marshal _ 0 sample_hello [];
    OpGeneration (mkFooter [Generation (mkCoreGeneration 5)]);
    OpPush CoreMethods_marshal _ 0 (CoreMethods_Sync (mkCoreSync 0 1)) [7; 8] ].
Definition sample_conn : Connection := (conn_run (Connection_new true) sample_ops).1.
Definition sample_sent : list ConnOp := (conn_run (Connection_new true) sample_ops).2.
Lemma sample_ops_ok : Forall op_ok sample_ops.
Proof. repeat constructor; by vm_compute. Qed.

Lemma connection_order_witness :
  length sample_sent = 2%nat ∧
  ∃ entries : list (Message * option Z),
    queue (c_sender sample_conn) = fresh <$> entries.*1 ∧ Forall2 sent_as sample_sent entries ∧
    (∀ i m, entries.*1 !! i = Some m → m_seq m = Z.of_nat i mod 2 ^ 30) ∧
    Sorted Z.lt (0 :: omap snd entries).
Proof.
  split; [by vm_compute|].
  apply (connection_order true sample_ops); [apply sample_ops_ok|apply surjective_pairing].
Defined.

(** What the peer sees of an accepted push. *)
Definition frame_says (op : ConnOp) (f : ReceivedFrame) : Prop :=
  match op with
  | OpPush P R id m fds =>
      object_id (f_header f) = id ∧ f_fds f = Some <$> fds ∧
      ∃ n, m_decode P (opcode (f_header f)) (f_payload f) = Ok (m, n)
  | OpGeneration _ => False
  end.
Definition op_fds (op : ConnOp) : list Z := match op with OpPush P R id m fds => fds | _ => [] end.

Lemma sent_op_fds sent entries : Forall2 sent_as sent entries → m_fds <$> entries.*1 = op_fds <$> sent.
Proof.
  induction 1 as [|op e sent es Ho _ IH]; [done|]. csimpl. rewrite IH. f_equal.
  destruct op; [|done]. by destruct Ho as (_ & _ & <- & _).
Qed.

Lemma sent_says op (e : Message * option Z) :
  sent_as op e → len (m_payload e.1) ≤ WIRE_MAX_PAYLOAD → frame_says op (delivered (sent_frame e.1)).
Proof.
  destruct op as [M P R id m fds|]; [|done]. intros (H1 & H2 & H3 & body & fb & Hp & _ & Hb & _) Hl.
  split_and!; simpl; [done|by rewrite H3|]. exists (len body). rewrite H2, Hp. apply Hb.
  rewrite <- Hp. unfold WIRE_MAX_PAYLOAD, isize_max in *. lia.
Qed.

(** C4: what a client pushes, its peer decodes. Flush a connection after any
    history over a socket that takes the bytes in whatever portions; a peer
    reading the stream, cut in any other way, gets one frame per accepted
    push, in order, for the same object and with its descriptors, and each
    payload decodes to the message that was pushed. *)
Theorem connection_delivers {KS KR} (sendmsg : KS → list byte → list byte → KS * RawSend)
    (recvmsg : KR → Z → Z → KR * RawRecv) `{!SendSocket sendmsg, !StreamSocket recvmsg}
    (ops : list ConnOp) (c c1 : Connection) (sent : list ConnOp) (ks ks' : KS) (kr : KR) (sfuel rfuel : nat) :
  Forall op_ok ops → conn_run (Connection_new true) ops = (c, sent) →
  Forall (λ op, len (op_fds op) ≤ 64) sent → len (concat (op_fds <$> sent)) ≤ 1024 →
  sent_bytes ks = [] → sent_rights ks = [] →
  (interruptions ks + length (queue_left (queue (c_sender c))) < sfuel)%nat →
  conn_flush sendmsg sfuel ks c = (ks', c1, Ok tt) →
  unread kr = sent_bytes ks' → rights kr = sent_rights ks' → (retries kr < rfuel)%nat →
  ∃ kr' r' frames,
    receive_frames recvmsg (length sent) rfuel kr (FrameReceiver_new FrameLimits_default) = (kr', r', frames) ∧
    Forall2 frame_says sent frames.
Proof.
  intros Hok Hr Hf64 Hf Hk1 Hk2 Hsf Hfl Hu Hri Hrf.
  destruct (conn_run_spec ops _ _ _ (connection_new_inv true) Hok Hr)
    as (es & Hi & Hq & Hfail & Hst & Hs & Hall & _ & _). simpl in Hq, Hfail, Hst.
  unfold conn_flush in Hfl. rewrite Hst in Hfl.
  destruct (flush sendmsg sfuel ks (c_sender c)) as [[k s1] [[]|e|]] eqn:Hflush; simplify_eq/=.
  pose proof (sent_op_fds sent es Hs) as Hfds.
  destruct (channel_delivers sendmsg recvmsg FrameLimits_default es.*1 (c_sender c) s1 ks ks' kr sfuel rfuel)
    as (kr' & r' & Hrec & _); try done.
  - apply Forall_lookup. intros i m Hm. rewrite Forall_lookup in Hf64.
    assert ((m_fds <$> es.*1) !! i = Some (m_fds m)) as Hmf by by rewrite list_lookup_fmap, Hm.
    rewrite Hfds, list_lookup_fmap in Hmf. destruct (sent !! i) eqn:Hsi; simplify_eq/=. rewrite <- Hmf. by eapply Hf64.
  - by rewrite Hfds.
  - apply Forall_fmap. eapply Forall_impl; [done|]. intros m (Hty & Hpl & Hn). by apply sent_frame_ok.
  - apply (ci_send _ Hi).
  - apply (ci_fds _ Hi).
  - rewrite (Forall2_length _ _ _ Hs), <- (length_fmap fst es). eexists _, _, _. split; [exact Hrec|].
    rewrite <- !list_fmap_compose. apply Forall2_fmap_r.
    apply Forall_fmap in Hall. clear -Hs Hall.
    induction Hs as [|op e sent es Ho _ IH]; constructor; apply Forall_cons in Hall as [(_ & Hl & _) Hall];
      [by apply sent_says|by apply IH].
Qed.

Definition conn_pipe : Pipe.Pipe := Pipe.mkPipe [] [] [5; 0; 30; 200; 200].
Definition conn_flushed : Pipe.Pipe * Connection * StdRes unit := conn_flush Pipe.sendmsg 512 conn_pipe sample_conn.
(** The flushed bytes in two segments, the descriptors with the second. *)
Definition conn_queue : SegmentQueue.Queue :=
  let bs := Pipe.p_bytes conn_flushed.1.1 in
  match Pipe.p_rights conn_flushed.1.1 with
  | [(n, fds)] =>
      match take (Z.to_nat n) bs, drop (Z.to_nat n) bs with
      | b :: bs, b' :: bs' => [(b, bs, []); (b', bs', fds)]
      | _, _ => []
      end
  | _ => []
  end.

Lemma connection_delivers_witness :
  ∃ kr' r' frames,
    receive_frames SegmentQueue.recvmsg (length sample_sent) 512 conn_queue (FrameReceiver_new FrameLimits_default)
      = (kr', r', frames) ∧
    Forall2 frame_says sample_sent frames.
Proof.
  apply (connection_delivers Pipe.sendmsg SegmentQueue.recvmsg sample_ops sample_conn conn_flushed.1.2
    sample_sent conn_pipe conn_flushed.1.1 conn_queue 512 512).
  - apply sample_ops_ok.
  - apply surjective_pairing.
  - apply (bool_decide_unpack _). by vm_compute.
  - by vm_compute.
  - done.
  - done.
  - vm_compute. lia.
  - apply injective_projections; [|by vm_compute]. apply surjective_pairing.
  - by vm_compute.
  - by vm_compute.
  - vm_compute. lia.
Defined.
