(* ===== verification/Properties.v ===== *)
(** * Properties

    Models [pipewire/src/properties.rs]: string properties by key. The text
    formats of its values ([update_string] parses JSON through a library,
    the typed getters parse numbers) are not modelled. *)

From S2P Require Import Prelude.

#[global, refine] Instance byte_countable : Countable byte := inj_countable Byte.to_N Byte.of_N _.
Proof. apply Byte.of_to_N. Defined.

Notation Properties := (gmap (list byte) (list byte)).

Definition Properties_new : Properties := ∅.
Definition prop_set (p : Properties) (key value : list byte) : Properties := <[key := value]> p.
Definition unset (p : Properties) (key : list byte) : Properties * option (list byte) := (delete key p, p !! key).
Definition prop_get (p : Properties) (key : list byte) : option (list byte) := p !! key.

(** [HashMap::from_iter] inserts in order. *)
Definition set_all (p : Properties) (pairs : list (list byte * list byte)) : Properties :=
  foldl (λ p kv, prop_set p kv.1 kv.2) p pairs.
Definition new_vec (pairs : list (list byte * list byte)) : Properties := set_all Properties_new pairs.

(** A [Dict] is a list of items in its order. *)
Definition Dict : Type := list (list byte * list byte).
Definition new_dict (d : Dict) : Properties := set_all Properties_new d.
Definition add_dict (p : Properties) (d : Dict) : Properties := set_all p d.
Definition update_ignore (p : Properties) (d : Dict) (ignore : list (list byte)) : Properties :=
  foldl (λ p kv, if bool_decide (kv.1 ∈ ignore) then p else prop_set p kv.1 kv.2) p d.
Definition update_keys (p : Properties) (d : Dict) (keys : list (list byte)) : Properties :=
  foldl (λ p kv, if bool_decide (kv.1 ∈ keys) then prop_set p kv.1 kv.2 else p) p d.

(** Iteration over a HashMap is in an unspecified order: [order] is one. *)
Definition merge (p : Properties) (order : list (list byte * list byte)) : Properties := set_all p order.
Definition dict (order : list (list byte * list byte)) : Dict := order.

(** [atob] of [spa/src/lib.rs] *)
Definition atob (s : list byte) : bool :=
  bool_decide (s = String.list_byte_of_string "true") || bool_decide (s = String.list_byte_of_string "1").

(** ** The last binding of a key counts *)
Lemma set_all_lookup p pairs k :
  set_all p pairs !! k = match list_find (λ kv, kv.1 = k) (reverse pairs) with Some (_, kv) => Some kv.2 | None => p !! k end.
Proof.
  revert p. induction pairs as [|[k' v] pairs IH] using rev_ind; intros p; [done|].
  unfold set_all, prop_set in *. rewrite foldl_app. simpl. rewrite reverse_snoc. simpl.
  destruct (decide (k' = k)) as [->|Hne]; [by rewrite lookup_insert_eq|].
  rewrite lookup_insert_ne by done. rewrite IH. by destruct (list_find _ (reverse pairs)) as [[i [??]]|].
Qed.

(** Setting pairs with distinct keys, in any order, is a union. *)
Lemma set_all_union p pairs : NoDup pairs.*1 → set_all p pairs = list_to_map pairs ∪ p.
Proof.
  revert p. induction pairs as [|[k v] pairs IH]; intros p; csimpl; [by rewrite (left_id_L ∅ (∪))|].
  intros [Hk Hn]%NoDup_cons. unfold set_all, prop_set in *. simpl. rewrite IH by done.
  apply map_eq. intros i. rewrite <- insert_union_r, <- insert_union_l; [done|]. by apply not_elem_of_list_to_map.
Qed.

(** Merging does not depend on the order of iteration, and the new
    properties win. *)
Lemma merge_union p new order : order ≡ₚ map_to_list new → merge p order = new ∪ p.
Proof.
  intros Ho. assert (NoDup order.*1) as Hn by (rewrite Ho; apply NoDup_fst_map_to_list).
  unfold merge. rewrite set_all_union by done. f_equal.
  rewrite (list_to_map_proper _ (map_to_list new)); [apply list_to_map_to_list|done|done].
Qed.

Lemma update_keys_lookup p d keys k :
  update_keys p d keys !! k = if bool_decide (k ∈ keys) then set_all p d !! k else p !! k.
Proof.
  revert p. induction d as [|[k' v] d IH] using rev_ind; intros p; [simpl; by case_bool_decide|].
  unfold update_keys, set_all, prop_set in *. rewrite !foldl_app. simpl.
  destruct (decide (k = k')) as [->|Hne].
  - destruct (decide (k' ∈ keys)) as [Hin|Hin].
    + rewrite !bool_decide_eq_true_2 by done. by rewrite !lookup_insert_eq.
    + specialize (IH p). rewrite !bool_decide_eq_false_2 in * by done. done.
  - rewrite (lookup_insert_ne (foldl (λ p kv, <[kv.1:=kv.2]> p) p d)) by done.
    destruct (decide (k' ∈ keys)) as [Hin|Hin];
      [rewrite (bool_decide_eq_true_2 (k' ∈ keys)), lookup_insert_ne by done|rewrite (bool_decide_eq_false_2 (k' ∈ keys)) by done];
      apply IH.
Qed.
