(* ===== verification/Demarshal.v ===== *)
(** * Events of the client library

    Models the [demarshal] functions of [pipewire/src/protocol/marshal/]: an
    inbound message is decoded to an event of the object's interface, the
    footer goes to the connection, and the event is handed on as a
    notification of the proxy. The argument structs of [pipewire/src/proxy/]
    and [core.rs] are here with the names of their interfaces. *)

From S2P Require Import Prelude Utf8 PodTypes PodCodec PodLaws PodCompound PodParser PodParserLaws.
From S2P Require Import PodBuilder SpaParam Marshal MarshalLaws MarshalMessages FrameHeader.
From S2P Require Import FrameControl ClientNode ClientNodeLaws InboundMessage Properties.

(** ** Conversions

    [as u32] and [as Id] of an [i32] or [i64], and [as u64] of an [i64]. *)
Notation as_u32 := (wrap 32).
Notation as_u64 := (wrap 64).

(** [from_bits_truncate] and [from_bits] of a bitflags type, by the union of
    its constants. *)
Definition from_bits_truncate (all bits : Z) : Z := Z.land bits all.
Definition from_bits (all bits : Z) : option Z := if Z.ldiff bits all =? 0 then Some bits else None.

Definition CoreChangeMask_all : Z := Z.shiftl 1 0.
Definition ClientChangeMask_all : Z := Z.shiftl 1 0.
Definition FactoryChangeMask_all : Z := Z.shiftl 1 0.
Definition ModuleChangeMask_all : Z := Z.shiftl 1 0.
Definition LinkChangeMask_all : Z := Z.shiftl 1 0.
Definition DeviceChangeMask_all : Z := Z.lor (Z.shiftl 1 0) (Z.shiftl 1 1).
Definition PortChangeMask_all : Z := Z.lor (Z.shiftl 1 0) (Z.shiftl 1 1).
Definition NodeChangeMask_all : Z :=
  Z.lor (Z.shiftl 1 0) (Z.lor (Z.shiftl 1 1) (Z.lor (Z.shiftl 1 2) (Z.lor (Z.shiftl 1 3) (Z.shiftl 1 4)))).
Definition PermissionBits_all : Z :=
  Z.lor (Z.shiftl 1 8) (Z.lor (Z.shiftl 1 7) (Z.lor (Z.shiftl 1 6) (Z.lor (Z.shiftl 1 3) (Z.shiftl 1 4)))).
Definition ParamInfoFlags_all : Z := Z.lor (Z.shiftl 1 0) (Z.lor (Z.shiftl 1 1) (Z.shiftl 1 2)).

(** ** Enumerations of [proxy/link.rs] and [proxy/port.rs] *)
Inductive LinkState := LsError | LsUnlinked | LsInit | LsNegotiation | LsAllocating | LsPaused | LsActive.
#[global] Instance LinkState_eq_dec : EqDecision LinkState.
Proof. solve_decision. Defined.
Definition LinkState_variants : list (LinkState * option Z) :=
  [(LsError, None); (LsUnlinked, None); (LsInit, None); (LsNegotiation, None); (LsAllocating, None);
   (LsPaused, None); (LsActive, None)].
#[global] Instance LinkState_conv : U32Conv LinkState := derived_conv LinkState_variants.

Inductive PortDirection := PdInput | PdOutput.
#[global] Instance PortDirection_eq_dec : EqDecision PortDirection.
Proof. solve_decision. Defined.
Definition PortDirection_variants : list (PortDirection * option Z) := [(PdInput, None); (PdOutput, None)].
#[global] Instance PortDirection_conv : U32Conv PortDirection := derived_conv PortDirection_variants.

(** ** What listeners are given *)
Record ProxyCoreInfo := mkProxyCoreInfo {
  pci_id : Z; pci_cookie : Z; pci_user_name : list byte; pci_host_name : list byte;
  pci_version : list byte; pci_name : list byte; pci_mask : Z; pci_props : option Properties;
}.
Record ProxyClientInfo := mkProxyClientInfo { pcl_id : Z; pcl_mask : Z; pcl_props : Properties }.
Record Permission := mkPermission { perm_id : Z; permissions : Z }.
Record ProxyDeviceInfo := mkProxyDeviceInfo {
  pdv_id : Z; pdv_mask : Z; pdv_props : Properties; pdv_params : list (ParamType * Z);
}.
Record ProxyFactoryInfo := mkProxyFactoryInfo {
  pfa_id : Z; pfa_name : list byte; pfa_type : list byte; pfa_version : Z; pfa_mask : Z; pfa_props : Properties;
}.
Record ProxyModuleInfo := mkProxyModuleInfo {
  pmo_id : Z; pmo_name : list byte; pmo_file_name : list byte; pmo_args : option (list byte);
  pmo_mask : Z; pmo_props : Properties;
}.
Record ProxyLinkInfo := mkProxyLinkInfo {
  pli_id : Z; pli_output_node_id : Z; pli_output_port_id : Z; pli_input_node_id : Z; pli_input_port_id : Z;
  pli_mask : Z; pli_state : LinkState; pli_error : option (list byte); pli_format : option RawPod;
  pli_props : Properties;
}.
Record ProxyNodeInfo := mkProxyNodeInfo {
  pno_id : Z; pno_max_input_ports : Z; pno_max_output_ports : Z; pno_mask : Z; pno_n_input_ports : Z;
  pno_n_output_ports : Z; pno_state : NodeState; pno_error : option (list byte); pno_props : Properties;
  pno_params : list (ParamType * Z);
}.
Record ProxyPortInfo := mkProxyPortInfo {
  ppo_id : Z; ppo_direction : PortDirection; ppo_mask : Z; ppo_props : Properties;
  ppo_params : list (ParamType * Z);
}.

Record SampleInfo := mkSampleInfo {
  counter : Z; cpu_load_fast : Z; cpu_load_medium : Z; cpu_load_slow : Z; xrun_count : Z;
}.
Record ClockSample := mkClockSample {
  cs_id : Z; cs_name : list byte; cs_nsec : Z; cs_rate : Fraction; cs_position : Z; cs_duration : Z;
  cs_delay : Z; cs_rate_diff : Z; cs_next_nsec : Z; cs_xrun_duration : Z;
}.
Record DriverClockSample := mkDriverClockSample {
  clock_sample : ClockSample; dcs_flags : Z; dcs_state : Z; dcs_cycle : Z;
}.
Record NodeSample := mkNodeSample {
  ns_id : Z; ns_name : list byte; prev_signal_time_ns : Z; signal_time_ns : Z; awake_time_ns : Z;
  finish_time_ns : Z; ns_status : Z; ns_latency : Fraction; ns_xrun_count : Z;
}.
Record FollowerNodeSample := mkFollowerNodeSample { node_sample : NodeSample; async_ : bool }.
Record ProfilerSample := mkProfilerSample {
  ps_info : SampleInfo; ps_driver : NodeSample; ps_driver_clock : DriverClockSample;
  ps_followers : list FollowerNodeSample; ps_follower_clocks : list ClockSample;
}.

(** The call a message leads to: a notification of the object's listeners,
    one of Core's memory importer, or of the handler of a ClientNode. *)
Inductive Notification :=
| NCoreInfo (info : ProxyCoreInfo)
| NCoreDone (id seq : Z)
| NCorePing (id seq : Z)
| NCoreError (id seq res : Z) (message : list byte)
| NCoreRemoveId (id : Z)
| NCoreBoundId (id global_id : Z)
| NCoreBoundProps (id global_id : Z) (props : Properties)
| NImportMemory (id type_ fd flags : Z)
| NRemoveMemory (id : Z)
| NClientInfo (info : ProxyClientInfo)
| NClientPermissions (index : Z) (perms : list Permission)
| NClientNode (event : Event)
| NDeviceInfo (info : ProxyDeviceInfo)
| NParam (seq : Z) (id : ParamType) (index next : Z) (param : RawPod)
| NFactoryInfo (info : ProxyFactoryInfo)
| NLinkInfo (info : ProxyLinkInfo)
| NMetadataProperty (subject : Z) (key type_ value : option (list byte))
| NModuleInfo (info : ProxyModuleInfo)
| NNodeInfo (info : ProxyNodeInfo)
| NPortInfo (info : ProxyPortInfo)
| NProfile (sample : ProfilerSample)
| NRegistryGlobal (id perms : Z) (type_ : list byte) (version : Z) (props : Properties)
| NRegistryGlobalRemove (id : Z).

(** Descriptors left in the frame, the notifications in their order, and the
    result; after an error the notifications before it have been made. *)
Definition Handled : Type := FrameFds * list Notification * StdRes unit.

(** ** The second half of each [demarshal]: from the event to its listeners *)
Section handlers.
Context (fds : FrameFds).
Notation notify n := ((fds, [n], Ok tt) : Handled).

(** [u32::try_from] of an [i64] *)
Definition add_mem_fd_index (value : Z) : StdRes Z :=
  if bool_decide (0 ≤ value < 2 ^ 32) then Ok value else Err (Custom KInvalidData).

Definition core_event (e : CoreEvents) : Handled :=
  match e with
  | CoreEvents_Info info =>
      let props := new_vec (pl_data (core_info_props info)) in
      notify (NCoreInfo (mkProxyCoreInfo (as_u32 (core_info_id info)) (as_u32 (core_info_cookie info))
        (core_info_user_name info) (core_info_host_name info) (core_info_version info) (core_info_name info)
        (from_bits_truncate CoreChangeMask_all (as_u32 (core_info_change_mask info))) (Some props)))
  | CoreEvents_Done done => notify (NCoreDone (as_u32 (core_done_id done)) (as_u32 (core_done_seq done)))
  | CoreEvents_Ping ping => notify (NCorePing (as_u32 (core_ping_id ping)) (as_u32 (core_ping_seq ping)))
  | CoreEvents_Error err =>
      notify (NCoreError (as_u32 (core_error_event_id err)) (as_u32 (core_error_event_seq err))
        (as_u32 (core_error_event_res err)) (core_error_event_message err))
  | CoreEvents_RemoveId rem => notify (NCoreRemoveId (as_u32 (core_remove_id_id rem)))
  | CoreEvents_BoundId bound =>
      notify (NCoreBoundId (as_u32 (core_bound_id_id bound)) (as_u32 (core_bound_id_global_id bound)))
  | CoreEvents_AddMem add_mem =>
      match add_mem_fd_index (fd_value (core_add_mem_fd add_mem)) with
      | Ok index =>
          match inbound_take_fd fds index with
          | (fds, Ok fd) =>
              (fds, [NImportMemory (as_u32 (core_add_mem_id add_mem)) (id_value (core_add_mem_type add_mem))
                 fd (as_u32 (core_add_mem_flags add_mem))], Ok tt)
          | (fds, Err e) => (fds, [], Err e)
          | (fds, Panic) => (fds, [], Panic)
          end
      | Err e => (fds, [], Err e)
      | Panic => (fds, [], Panic)
      end
  | CoreEvents_RemoveMem rem_mem => notify (NRemoveMemory (as_u32 (core_remove_mem_id rem_mem)))
  | CoreEvents_BoundProps bound =>
      let props := new_vec (pl_data (core_bound_props_props bound)) in
      notify (NCoreBoundProps (as_u32 (core_bound_props_id bound)) (as_u32 (core_bound_props_global_id bound)) props)
  end.

Definition client_event (e : ClientEvents) : Handled :=
  match e with
  | ClientEvents_Info info =>
      let props := new_vec (pl_data (client_info_props info)) in
      notify (NClientInfo (mkProxyClientInfo (as_u32 (client_info_id info))
        (from_bits_truncate ClientChangeMask_all (as_u32 (client_info_change_mask info))) props))
  | ClientEvents_Permissions perms =>
      let data := (λ '(id, p), mkPermission (as_u32 id) (from_bits_truncate PermissionBits_all (as_u32 p)))
        <$> pl_data (client_permissions_permissions perms) in
      notify (NClientPermissions (as_u32 (client_permissions_index perms)) data)
  end.

(** The loop over [param_info]: entries with an unknown flag are dropped. *)
Definition param_infos (data : list (Id ParamType * Z)) : list (ParamType * Z) :=
  omap (λ '(id, flags), (λ flags, (id_value id, flags)) <$> from_bits ParamInfoFlags_all (as_u32 flags)) data.

Definition device_event (e : DeviceEvents) : Handled :=
  match e with
  | DeviceEvents_Info info =>
      let props := new_vec (pl_data (device_info_props info)) in
      let param_info := param_infos (pl_data (device_info_param_info info)) in
      notify (NDeviceInfo (mkProxyDeviceInfo (as_u32 (device_info_id info))
        (from_bits_truncate DeviceChangeMask_all (as_u32 (device_info_change_mask info))) props param_info))
  | DeviceEvents_Param param =>
      notify (NParam (as_u32 (device_param_seq param)) (id_value (device_param_id param))
        (as_u32 (device_param_index param)) (as_u32 (device_param_next param)) (device_param_param param))
  end.

Definition factory_event (e : FactoryEvents) : Handled :=
  match e with
  | FactoryEvents_Info info =>
      let props := new_vec (pl_data (factory_info_props info)) in
      notify (NFactoryInfo (mkProxyFactoryInfo (as_u32 (factory_info_id info)) (factory_info_name info)
        (factory_info_type info) (as_u32 (factory_info_version info))
        (from_bits_truncate FactoryChangeMask_all (as_u32 (factory_info_change_mask info))) props))
  end.

(** [try_from(..).unwrap()] *)
Definition unwrap_u32 {V} `{U32Conv V} (n : Z) : StdRes V :=
  match try_from_u32 n with Some v => Ok v | None => Panic end.

Definition link_event (e : LinkEvents) : Handled :=
  match e with
  | LinkEvents_Info info =>
      let props := new_vec (pl_data (link_info_props info)) in
      match (format ← match RawPod_decode pod_none (link_info_format info) with
                      | Ok _ => Ok (Some (link_info_format info))
                      | Err _ => Ok None
                      | Panic => Panic
                      end;
             state ← unwrap_u32 (as_u32 (link_info_state info));
             Ok (format, state)) with
      | Ok (format, state) =>
          notify (NLinkInfo (mkProxyLinkInfo (as_u32 (link_info_id info)) (as_u32 (link_info_output_node_id info))
            (as_u32 (link_info_output_port_id info)) (as_u32 (link_info_input_node_id info))
            (as_u32 (link_info_input_port_id info))
            (from_bits_truncate LinkChangeMask_all (as_u32 (link_info_change_mask info))) state
            (link_info_error info) format props))
      | Err e => (fds, [], Err e)
      | Panic => (fds, [], Panic)
      end
  end.

Definition metadata_event (e : MetadataEvents) : Handled :=
  match e with
  | MetadataEvents_Property prop =>
      notify (NMetadataProperty (as_u32 (metadata_property_subject prop)) (metadata_property_key prop)
        (metadata_property_type prop) (metadata_property_value prop))
  end.

Definition module_event (e : ModuleEvents) : Handled :=
  match e with
  | ModuleEvents_Info info =>
      let props := new_vec (pl_data (module_info_props info)) in
      notify (NModuleInfo (mkProxyModuleInfo (as_u32 (module_info_id info)) (module_info_name info)
        (module_info_file_name info) (module_info_args info)
        (from_bits_truncate ModuleChangeMask_all (as_u32 (module_info_change_mask info))) props))
  end.

Definition node_event (e : NodeEvents) : Handled :=
  match e with
  | NodeEvents_Info info =>
      let props := new_vec (pl_data (node_info_props info)) in
      let param_info := param_infos (pl_data (node_info_param_info info)) in
      notify (NNodeInfo (mkProxyNodeInfo (as_u32 (node_info_id info)) (as_u32 (node_info_max_input_ports info))
        (as_u32 (node_info_max_output_ports info))
        (from_bits_truncate NodeChangeMask_all (as_u32 (node_info_change_mask info)))
        (as_u32 (node_info_n_input_ports info)) (as_u32 (node_info_n_output_ports info))
        (id_value (node_info_state info)) (node_info_error info) props param_info))
  | NodeEvents_Param param =>
      notify (NParam (as_u32 (node_param_seq param)) (id_value (node_param_id param))
        (as_u32 (node_param_index param)) (as_u32 (node_param_next param)) (node_param_param param))
  end.

Definition port_event (e : PortEvents) : Handled :=
  match e with
  | PortEvents_Info info =>
      let props := new_vec (pl_data (port_info_props info)) in
      let param_info := param_infos (pl_data (port_info_param_info info)) in
      match unwrap_u32 (as_u32 (port_info_direction info)) with
      | Ok direction =>
          notify (NPortInfo (mkProxyPortInfo (as_u32 (port_info_id info)) direction
            (from_bits_truncate PortChangeMask_all (as_u32 (port_info_change_mask info))) props param_info))
      | Err e => (fds, [], Err e)
      | Panic => (fds, [], Panic)
      end
  | PortEvents_Param param =>
      notify (NParam (as_u32 (port_param_seq param)) (id_value (port_param_id param))
        (as_u32 (port_param_index param)) (as_u32 (port_param_next param)) (port_param_param param))
  end.

Definition registry_event (e : RegistryEvents) : Handled :=
  match e with
  | RegistryEvents_Global global =>
      let props := new_vec (pl_data (registry_global_props global)) in
      notify (NRegistryGlobal (as_u32 (registry_global_id global))
        (from_bits_truncate PermissionBits_all (as_u32 (registry_global_permissions global)))
        (registry_global_type global) (as_u32 (registry_global_verison global)) props)
  | RegistryEvents_GlobalRemove remove => notify (NRegistryGlobalRemove (as_u32 (registry_global_remove_id remove)))
  end.
End handlers.

(** ** Profiler events *)
#[global] Instance om_ret : MRet OM := λ A a p, (p, Ok a).
#[global] Instance om_bind : MBind OM := λ A B f m p,
  match m p with
  | (p', Ok a) => f a p'
  | (p', Err e) => (p', Err e)
  | (p', Panic) => (p', Panic)
  end.
Definition om_res {A} (r : PodRes A) : OM A := λ p, (p, r).

Definition SampleInfo_from (i : ProfilerInfo) : SampleInfo :=
  mkSampleInfo (profiler_info_counter i) (profiler_info_cpu_load_fast i) (profiler_info_cpu_load_medium i)
    (profiler_info_cpu_load_slow i) (as_u32 (profiler_info_xrun_count i)).
Definition DriverClockSample_from (c : ProfilerClock) : DriverClockSample :=
  mkDriverClockSample
    (mkClockSample (as_u32 (profiler_clock_id c)) (profiler_clock_name c) (as_u64 (profiler_clock_nsec c))
       (profiler_clock_rate c) (as_u64 (profiler_clock_position c)) (as_u64 (profiler_clock_duration c))
       (profiler_clock_delay c) (profiler_clock_rate_diff c) (as_u64 (profiler_clock_next_nsec c))
       (as_u64 (profiler_clock_xrun_duration c)))
    (as_u32 (profiler_clock_flags c)) (as_u32 (profiler_clock_transport_state c)) (as_u32 (profiler_clock_cycle c)).
Definition ClockSample_from (c : ProfilerFollowerClock) : ClockSample :=
  mkClockSample (as_u32 (profiler_follower_clock_id c)) (profiler_follower_clock_name c)
    (as_u64 (profiler_follower_clock_nsec c)) (profiler_follower_clock_rate c)
    (as_u64 (profiler_follower_clock_position c)) (as_u64 (profiler_follower_clock_duration c))
    (profiler_follower_clock_delay c) (profiler_follower_clock_rate_diff c)
    (as_u64 (profiler_follower_clock_next_nsec c)) (as_u64 (profiler_follower_clock_xrun_duration c)).
Definition NodeSample_from (d : ProfilerDriver) : NodeSample :=
  mkNodeSample (as_u32 (profiler_driver_id d)) (profiler_driver_name d) (as_u64 (profiler_driver_prev_signal d))
    (as_u64 (profiler_driver_signal d)) (as_u64 (profiler_driver_awake d)) (as_u64 (profiler_driver_finish d))
    (as_u32 (profiler_driver_status d)) (profiler_driver_latency d) (as_u32 (profiler_driver_xrun_count d)).
Definition FollowerNodeSample_from (f : ProfilerFollower) : FollowerNodeSample :=
  mkFollowerNodeSample
    (mkNodeSample (as_u32 (profiler_follower_id f)) (profiler_follower_name f)
       (as_u64 (profiler_follower_prev_signal f)) (as_u64 (profiler_follower_signal f))
       (as_u64 (profiler_follower_awake f)) (as_u64 (profiler_follower_finish f))
       (as_u32 (profiler_follower_status f)) (profiler_follower_latency f)
       (as_u32 (profiler_follower_xrun_count f)))
    (profiler_follower_async f).

(** The variables of the closure: the last of each single block, all
    followers. *)
Record ProfileBlocks := mkBlocks {
  b_info : option ProfilerInfo; b_clock : option ProfilerClock; b_driver : option ProfilerDriver;
  b_followers : list ProfilerFollower; b_follower_clocks : list ProfilerFollowerClock;
}.

Definition profile_property (b : ProfileBlocks) (key : ProfilerKey) (data : list byte) : PodRes ProfileBlocks :=
  match key with
  | PfrStart | PfrStartDriver | PfrStartFollower | PfrStartCustom => Ok b
  | PfrInfo =>
      '(parsed, _) ← decode pod_ProfilerInfo data;
      Ok (mkBlocks (Some parsed) (b_clock b) (b_driver b) (b_followers b) (b_follower_clocks b))
  | PfrClock =>
      '(parsed, _) ← decode pod_ProfilerClock data;
      Ok (mkBlocks (b_info b) (Some parsed) (b_driver b) (b_followers b) (b_follower_clocks b))
  | PfrDriverBlock =>
      '(parsed, _) ← decode pod_ProfilerDriver data;
      Ok (mkBlocks (b_info b) (b_clock b) (Some parsed) (b_followers b) (b_follower_clocks b))
  | PfrFollowerBlock =>
      '(parsed, _) ← decode pod_ProfilerFollower data;
      Ok (mkBlocks (b_info b) (b_clock b) (b_driver b) (b_followers b ++ [parsed]) (b_follower_clocks b))
  | PfrFollowerClock =>
      '(parsed, _) ← decode pod_ProfilerFollowerClock data;
      Ok (mkBlocks (b_info b) (b_clock b) (b_driver b) (b_followers b) (b_follower_clocks b ++ [parsed]))
  end.

(** [while let Some(..) = object_parser.pop_property()?]: a property takes at
    least 16 bytes, so that the length of the data is enough fuel. *)
Fixpoint profile_blocks (fuel : nat) (b : ProfileBlocks) : OM ProfileBlocks :=
  property ← pop_property (K:=ProfilerKey);
  match property with
  | Some (key, _, data) =>
      match fuel with
      | O => om_res Panic
      | S fuel => b ← om_res (profile_property b key (raw_data data)); profile_blocks fuel b
      end
  | None => mret b
  end.

Definition blocks_sample (b : ProfileBlocks) : PodRes ProfilerSample :=
  info ← ok_or (b_info b) (Invalid "Info section not found");
  clock ← ok_or (b_clock b) (Invalid "Clock section not found");
  driver ← ok_or (b_driver b) (Invalid "Driver section not found");
  Ok (mkProfilerSample (SampleInfo_from info) (NodeSample_from driver) (DriverClockSample_from clock)
        (FollowerNodeSample_from <$> b_followers b) (ClockSample_from <$> b_follower_clocks b)).

Definition parse_sample (_id : Z) : OM ProfilerSample := λ p,
  (b ← profile_blocks (length (o_data p)) (mkBlocks None None None [] []);
   om_res (blocks_sample b)) p.

(** [while struct_parser.available() > 0]: the closure of [pop_object]
    notifies last, so that an object that parses is one sample. An error ends
    the loop and leaves the samples before it, which is why it is part of the
    value here. *)
Fixpoint profile_samples (fuel : nat) : PM (list ProfilerSample * PodRes unit) := λ p,
  if bool_decide (available p > 0) then
    match fuel with
    | O => (p, Panic)
    | S fuel =>
        match pop_object (I:=Z) OProfiler parse_sample p with
        | (p, Ok (sample, _)) => ('(samples, r) ← profile_samples fuel; mret (sample :: samples, r)) p
        | (p, Err e) => (p, Ok ([], Err e))
        | (p, Panic) => (p, Panic)
        end
    end
  else (p, Ok ([], Ok tt)).

Definition profiler_event (fds : FrameFds) (e : ProfilerEvents) : Handled :=
  match e with
  | ProfilerEvents_Profile profile_event =>
      let data := raw_data (profiler_profile_event_pod profile_event) in
      match (pop_struct (profile_samples (length data)) (Parser_new data)).2 with
      | Ok (samples, r, _) => (fds, NProfile <$> samples, map_err (λ _, Custom KInvalidData) r)
      | Err _ => (fds, [], Err (Custom KInvalidData))
      | Panic => (fds, [], Panic)
      end
  end.

(** ** Demarshalling by interface

    The names of [types.rs] as an enumeration. *)
Inductive Interface :=
| ICore | IClient | IClientNode | IDevice | IFactory | ILink | IMetadata | IModule | INode | IPort
| IProfiler | IRegistry.
#[global] Instance Interface_eq_dec : EqDecision Interface.
Proof. solve_decision. Defined.

(** The footer the handler of the message was called with, and the rest. *)
Definition Demarshalled : Type := option CoreFooter * Handled.

Definition demarshal_with {M} (P : Marshallable M) (handler : FrameFds → M → Handled) (op : Z)
    (payload : list byte) (fds : FrameFds) : Demarshalled :=
  match inbound_decode P op payload with
  | Ok (event, footer) => (footer, handler fds event)
  | Err e => (None, (fds, [], Err e))
  | Panic => (None, (fds, [], Panic))
  end.

Definition client_node_demarshal (op : Z) (payload : list byte) (fds : FrameFds) : Demarshalled :=
  match decode_client_node_event op payload fds with
  | (fds, Ok (event, footer)) => (footer, (fds, [NClientNode event], Ok tt))
  | (fds, Err e) => (None, (fds, [], Err e))
  | (fds, Panic) => (None, (fds, [], Panic))
  end.

(** The match on the object's type in [process_messages]. *)
Definition demarshal (i : Interface) : Z → list byte → FrameFds → Demarshalled :=
  match i with
  | ICore => demarshal_with CoreEvents_marshal core_event
  | IClient => demarshal_with ClientEvents_marshal client_event
  | IClientNode => client_node_demarshal
  | IDevice => demarshal_with DeviceEvents_marshal device_event
  | IFactory => demarshal_with FactoryEvents_marshal factory_event
  | ILink => demarshal_with LinkEvents_marshal link_event
  | IMetadata => demarshal_with MetadataEvents_marshal metadata_event
  | IModule => demarshal_with ModuleEvents_marshal module_event
  | INode => demarshal_with NodeEvents_marshal node_event
  | IPort => demarshal_with PortEvents_marshal port_event
  | IProfiler => demarshal_with ProfilerEvents_marshal profiler_event
  | IRegistry => demarshal_with RegistryEvents_marshal registry_event
  end.
