(* ===== verification/DemarshalLaws.v ===== *)
(** * Laws of demarshalling

    Every event an encoder writes reaches its listeners unchanged, with the
    footer behind it; a profile event is parsed object by object; and on
    arbitrary bytes only the unknown states of a link or port panic. *)

From S2P Require Import Prelude Utf8 PodTypes PodCodec PodLaws PodCompound PodParser PodParserLaws.
From S2P Require Import PodBuilder SpaParam Marshal MarshalLaws MarshalMessages FrameHeader.
From S2P Require Import FrameControl ClientNode ClientNodeLaws ClientNodeWire ClientNodeEvents InboundMessage.
From S2P Require Import Properties Demarshal.

(** ** Round trips *)

(** The interfaces whose events are generated enumerations. *)
Inductive speaks : Interface → ∀ M, Marshallable M → (FrameFds → M → Handled) → Prop :=
| speaks_core : speaks ICore CoreEvents CoreEvents_marshal core_event
| speaks_client : speaks IClient ClientEvents ClientEvents_marshal client_event
| speaks_device : speaks IDevice DeviceEvents DeviceEvents_marshal device_event
| speaks_factory : speaks IFactory FactoryEvents FactoryEvents_marshal factory_event
| speaks_link : speaks ILink LinkEvents LinkEvents_marshal link_event
| speaks_metadata : speaks IMetadata MetadataEvents MetadataEvents_marshal metadata_event
| speaks_module : speaks IModule ModuleEvents ModuleEvents_marshal module_event
| speaks_node : speaks INode NodeEvents NodeEvents_marshal node_event
| speaks_port : speaks IPort PortEvents PortEvents_marshal port_event
| speaks_profiler : speaks IProfiler ProfilerEvents ProfilerEvents_marshal profiler_event
| speaks_registry : speaks IRegistry RegistryEvents RegistryEvents_marshal registry_event.

Lemma speaks_demarshal i M P h : speaks i M P h → demarshal i = demarshal_with P h.
Proof. by destruct 1. Qed.

(** [payload] is event [m] with a footer behind it. *)
Definition event_payload {M} (P : Marshallable M) (m : M) (footer : option CoreFooter) (payload : list byte) : Prop :=
  len payload ≤ isize_max ∧
  ∃ body fb, payload = body ++ fb ∧
    (∀ rest, len (body ++ rest) ≤ isize_max → m_decode P (msg_opcode P m) (body ++ rest) = Ok (m, len body)) ∧
    match footer with
    | Some f => decodes pod_CoreFooter fb f ∧ 8 ≤ len fb
    | None => fb = []
    end.

Lemma event_decode {M} (P : Marshallable M) m footer payload :
  event_payload P m footer payload → inbound_decode P (msg_opcode P m) payload = Ok (m, footer).
Proof.
  intros (Hl & body & fb & -> & Hb & Hf). unfold inbound_decode. rewrite Hb by done. cbn [map_err]. res_cbn.
  unfold decode_footer. pose proof (len_nonneg body). destruct footer as [f|].
  - destruct Hf as [Hd H8]. rewrite bool_decide_eq_true_2 by len_lia. rewrite slice_from_app. res_cbn.
    specialize (Hd []). rewrite app_nil_r in Hd. rewrite Hd by len_lia. cbn [map_err]. res_cbn.
    rewrite bool_decide_eq_false_2 by len_lia. done.
  - subst fb. rewrite app_nil_r. rewrite (bool_decide_eq_false_2 (len body < len body)) by lia. res_cbn.
    by rewrite bool_decide_eq_false_2 by lia.
Qed.

Lemma event_demarshal i M (P : Marshallable M) h m footer payload fds :
  speaks i M P h → event_payload P m footer payload →
  demarshal i (msg_opcode P m) payload fds = (footer, h fds m).
Proof. intros Hs Hp. rewrite (speaks_demarshal _ _ _ _ Hs). unfold demarshal_with. by rewrite (event_decode P m footer). Qed.

(** An event that is encoded, then a footer encoded behind it. *)
Lemma event_encoded {M} (P : Marshallable M) `{!MarshalRound P} m (footer : option CoreFooter) buf fbuf :
  mr_ok P m → mr_space P m ≤ len buf →
  match footer with
  | Some f => round_ok pod_CoreFooter f ∧ round_space pod_CoreFooter f ≤ len fbuf
  | None => True
  end →
  len buf + len fbuf ≤ isize_max →
  ∃ body fb,
    m_encode P m buf = (body ++ drop (length body) buf, Ok (len body)) ∧
    match footer with
    | Some f => encode pod_CoreFooter f fbuf = (fb ++ drop (length fb) fbuf, Ok (len fb))
    | None => fb = []
    end ∧
    event_payload P m footer (body ++ fb).
Proof.
  intros Hm Hb Hf Hmax.
  destruct (mr_round m buf Hm) as [(body & He & Hl & _ & _ & _ & Hd)|[? _]]; [|lia].
  destruct footer as [f|].
  - destruct Hf as [Hf Hs]. destruct (round_encode (U:=pod_CoreFooter) f fbuf Hf) as [(fb & Hfe & Hfl & _ & H8 & _ & Hfd)|[? _]]; [|lia].
    exists body, fb. split_and!; try done. split; [len_lia|]. by exists body, fb.
  - exists body, []. split_and!; try done. split; [len_facts; len_lia|]. by exists body, [].
Qed.

(** ** What decoders return *)
Definition returns {A} (m : PM A) (Q : A → Prop) : Prop := ∀ p p' a, m p = (p', Ok a) → Q a.
Definition decode_gives {T} (U : Pod T) (Q : T → Prop) : Prop := ∀ data v n, decode U data = Ok (v, n) → Q v.

Lemma returns_ret {A} (a : A) (Q : A → Prop) : Q a → returns (mret a) Q.
Proof. by intros HQ p p' b [= <- <-]. Qed.
Lemma returns_bind {A B} (m : PM A) (f : A → PM B) (Q : A → Prop) (R : B → Prop) :
  returns m Q → (∀ a, Q a → returns (f a) R) → returns (m ≫= f) R.
Proof.
  intros Hm Hf p p' b. unfold mbind, pm_bind. destruct (m p) as [q [a|e|]] eqn:Hq; [|done..].
  intros Hb. by eapply Hf; [eapply Hm|].
Qed.
Lemma returns_pop {T} (U : Pod T) (Q : T → Prop) : decode_gives U Q → returns (pop_pod U) Q.
Proof.
  intros HU p p' v. unfold pop_pod, commit. destruct (slice_from _ _) as [d| |]; [|done..]. res_cbn.
  destruct (decode U d) as [[w n]| |] eqn:Hd; [|done..]. res_cbn.
  case_bool_decide; [done|]. unfold checked_add. case_bool_decide; [|done]. res_cbn.
  intros [= _ <-]. by eapply HU.
Qed.
Lemma decode_struct_gives {T} (m : PM T) (Q : T → Prop) data v n :
  returns m Q → decode_struct m data = Ok (v, n) → Q v.
Proof.
  intros Hm. destruct (decode_struct_cases data) as [[e He]|(pre & body & post & size & _ & _ & _ & Hrun)].
  { by rewrite He. }
  specialize (Hrun [] T m). rewrite app_nil_r in Hrun. rewrite Hrun.
  destruct (m (Parser_new body)) as [q [r| |]] eqn:Hq; [|done..]. intros [= <- _]. by eapply Hm.
Qed.

Lemma i64_gives : decode_gives pod_i64 i64_range.
Proof.
  intros data v n. unfold pod_i64, pod_prim, decode. case_bool_decide; [done|].
  destruct (read_u32 data 0) as [size| |]; [|done..]. res_cbn. case_bool_decide as Hs; [done|].
  subst size.
  destruct (read_u32 data 4) as [t| |]; [|done..]. res_cbn. case_bool_decide; [done|].
  destruct (pod_total_size (pod_size prim_i64)) as [ts| |] eqn:Hts; [|done..]. res_cbn. case_bool_decide; [done|].
  vm_compute in Hts. simplify_eq. rewrite slice_Ok by (cbn [pod_size prim_i64]; lia). res_cbn.
  match goal with |- context [decode_body _ ?b] =>
    assert (len b = pod_size prim_i64) as Hl by (rewrite len_take; cbn [pod_size prim_i64]; [lia|rewrite len_drop; lia]);
    destruct (decode_body prim_i64 b) as [w| |] eqn:Hb end; [|done..].
  intros [= <- _]. exact (decode_body_ok (P:=prim_i64) _ _ Hl Hb).
Qed.

(** ** Footers hold generations *)
Definition footer_typed (f : CoreFooter) : Prop :=
  Forall (λ p, match p with Generation g => i64_range (registry_generation g) end) (payloads f).

Lemma generation_gives : decode_gives pod_CoreGeneration (λ g, i64_range (registry_generation g)).
Proof.
  intros data v n. apply (decode_struct_gives _ (λ g, i64_range (registry_generation g))).
  eapply (returns_bind _ _ (λ fs : Z * unit, i64_range fs.1)); [|by intros [x []] Hx; apply returns_ret].
  eapply returns_bind; [apply returns_pop, i64_gives|]. intros x Hx.
  apply (returns_bind _ _ (λ _, True)); [done|]. intros fs _. by apply returns_ret.
Qed.

Lemma footer_gives : decode_gives pod_CoreFooter footer_typed.
Proof.
  intros data v n. apply decode_struct_gives. intros p. generalize (length (p_data p)). intros fuel. revert p.
  apply (returns_bind _ _ (Forall (λ p, match p with Generation g => i64_range (registry_generation g) end)));
    [|intros ps Hps; by apply returns_ret].
  induction fuel as [|fuel IH]; intros p p' ps; simpl; (case_bool_decide; [|by intros [= <- <-]]); [done|].
  refine (returns_bind _ _ (λ p, match p with Generation g => i64_range (registry_generation g) end) _ _ _ p p' ps).
  - apply (returns_bind _ _ (λ _, True)); [done|]. intros id _. case_bool_decide; [|done].
    eapply returns_bind; [apply returns_pop, generation_gives|]. intros g Hg. by apply returns_ret.
  - intros x Hx. eapply returns_bind; [exact IH|]. intros ps1 Hps. apply returns_ret. by constructor.
Qed.

Lemma decode_footer_typed payload size f : decode_footer payload size = Ok (Some f) → footer_typed f.
Proof.
  unfold decode_footer. case_bool_decide.
  - destruct (slice_from payload size) as [tl| |]; [|done..]. res_cbn.
    destruct (decode pod_CoreFooter tl) as [[g s]| |] eqn:Hd; [|done..]. cbn [map_err]. res_cbn.
    case_bool_decide; [done|]. intros [= <-]. by eapply footer_gives.
  - res_cbn. by case_bool_decide.
Qed.

Lemma demarshal_footer i op payload fds f : (demarshal i op payload fds).1 = Some f → footer_typed f.
Proof.
  assert (∀ M (P : Marshallable M) h, (demarshal_with P h op payload fds).1 = Some f → footer_typed f) as Hw.
  { intros M P h. unfold demarshal_with, inbound_decode.
    destruct (m_decode P op payload) as [[m n]| |]; cbn [map_err]; res_cbn; [|done..].
    destruct (decode_footer payload n) as [g| |] eqn:Hf; res_cbn; [|done..]. simpl. intros ->. by eapply decode_footer_typed. }
  destruct i; try apply Hw. simpl. unfold client_node_demarshal, decode_client_node_event.
  destruct (_ ≫= _) as [[size body]| |]; [|done..]. destruct (decode_event _ _ _ _) as [fds' [ev| |]]; cbn [map_err]; res_cbn; [|done..].
  destruct (decode_footer payload size) as [g| |] eqn:Hf; res_cbn; [|done..]. simpl. intros ->. by eapply decode_footer_typed.
Qed.

(** ** Profile events on untrusted bytes

    The structs of a profile hold no pair list, so that decoding them never
    panics. *)
Class FieldsSafe {A} (F : Fields A) := fields_safe : pm_safe (fields_decode F).
#[global] Instance no_fields_safe : FieldsSafe no_fields.
Proof. apply pm_ret_safe. Qed.
#[global] Instance field_safe {T A} (U : Pod T) (F : Fields A) `{!PodLaws U} `{HF : !FieldsSafe F} :
  FieldsSafe (field U F).
Proof.
  apply pm_bind_safe; [apply pop_pod_safe; apply _|]. intros x. apply pm_bind_safe; [done|].
  intros fs. apply pm_ret_safe.
Qed.
Lemma derive_total {A S} (F : Fields A) `{HF : !FieldsSafe F} (to : S → A) (from : A → S) data :
  len data ≤ isize_max → total (decode (derive_pod_struct F to from) data).
Proof.
  intros Hl. apply pop_struct_safe; [|by apply Parser_new_wf]. apply pm_bind_safe; [done|].
  intros fs. apply pm_ret_safe.
Qed.

Lemma raw_max r : raw_wf r → len (raw_data r) ≤ isize_max.
Proof.
  intros Hr. rewrite raw_wf_size by done. apply RawPod_wrap_inv in Hr as (s & t & _ & _ & ? & -> & _).
  pose proof (pad_8_range s). unfold isize_max. lia.
Qed.

Lemma profile_property_total b key data : len data ≤ isize_max → total (profile_property b key data).
Proof.
  intros Hl. destruct key; cbn [profile_property]; try done.
  all: match goal with |- context [decode ?U ?d] =>
    assert (total (decode U d)) as Ht by (apply derive_total; [apply _|done]);
    by destruct (decode U d) as [[]| |] end.
Qed.

Lemma profile_blocks_safe fuel b p :
  oparser_wf p → len (o_data p) - o_pos p < 16 * (Z.of_nat fuel + 1) →
  omoved p (profile_blocks fuel b p).1 ∧ total (profile_blocks fuel b p).2.
Proof.
  revert b p. induction fuel as [|fuel IH]; intros b p Hp Hf; cbn [profile_blocks]; unfold mbind, om_bind.
  all: destruct (pop_property_safe (K:=ProfilerKey) p Hp) as [Hmv Ht].
  all: destruct (pop_property p) as [q [[[[key flags] raw]|]|e|]] eqn:Hq; try done.
  all: apply pop_property_progress in Hq as (Hd & Hpos & Hraw); [|done].
  { exfalso. lia. }
  unfold om_res.
  pose proof (profile_property_total b key (raw_data raw) (raw_max raw Hraw)) as Htot.
  destruct (profile_property b key (raw_data raw)) as [b'|e|]; [|done..].
  destruct (IH b' q) as [[Hd' ?] ?]; [destruct Hp; unfold oparser_wf; rewrite Hd; lia|rewrite Hd; lia|].
  split; [|done]. unfold omoved. rewrite Hd', Hd in *. split; [done|lia].
Qed.

Lemma parse_sample_safe id : om_safe (parse_sample id).
Proof.
  intros p Hp. unfold parse_sample, mbind, om_bind.
  destruct (profile_blocks_safe (length (o_data p)) (mkBlocks None None None [] []) p Hp) as [Hmv Ht].
  { destruct Hp. unfold len in *. lia. }
  destruct (profile_blocks _ _ p) as [q [b| |]]; simpl in *; try done. split; [done|].
  unfold blocks_sample. by destruct (b_info b), (b_clock b), (b_driver b).
Qed.

Lemma pop_object_progress {I T} `{U32Conv I} ot (f : I → OM T) p p' x :
  parser_wf p → pop_object ot f p = (p', Ok x) → p_pos p + 16 ≤ p_pos p'.
Proof.
  intros Hp. unfold pop_object. destruct (object_header p) as [[[[size ts] t] id]| |] eqn:Hh; [|done..].
  apply object_header_inv in Hh as (? & ? & ?); [|done]. case_bool_decide; [done|].
  unfold object_body, commit. destruct (slice _ _ _) as [body| |]; [|done..]. res_cbn.
  destruct (f id (ObjectParser_new body)).2 as [r| |]; [|done..]. res_cbn. simpl. intros [= <- _]. simpl.
  pose proof (pad_8_range size). lia.
Qed.

Lemma profile_samples_safe fuel p :
  parser_wf p → len (p_data p) - p_pos p ≤ 16 * Z.of_nat fuel →
  moved p (profile_samples fuel p).1 ∧
  match (profile_samples fuel p).2 with Ok (_, r) => total r | Err _ => True | Panic => False end.
Proof.
  revert p. induction fuel as [|fuel IH]; intros p Hp Hf; cbn [profile_samples]; rewrite available_wf by done.
  all: case_bool_decide; [|by split; [apply moved_refl|]].
  { lia. }
  destruct (pop_object_safe OProfiler parse_sample parse_sample_safe p Hp) as [Hmv Ht].
  destruct (pop_object OProfiler parse_sample p) as [q [[sample n]|e|]] eqn:Hq; try done.
  apply pop_object_progress in Hq; [|done]. pose proof Hmv as [Hd Hpos]. simpl in Hd, Hpos.
  unfold mbind, pm_bind. destruct (IH q) as [Hmv' Ht']; [by eapply moved_wf|rewrite Hd; lia|].
  assert (moved p (profile_samples fuel q).1) by by eapply moved_trans.
  by destruct (profile_samples fuel q) as [q' [[samples r]| |]].
Qed.

Lemma profiler_event_total fds o :
  len (raw_data (profiler_profile_event_pod o)) ≤ isize_max →
  total (profiler_event fds (ProfilerEvents_Profile o)).2.
Proof.
  intros Hl. simpl. set (data := raw_data _) in *.
  change (pop_struct (profile_samples (length data)) (Parser_new data)).2
    with (decode_struct (profile_samples (length data)) data).
  destruct (decode_struct_cases data) as [[e He]|(pre & body & post & size & Hd & _ & _ & Hrun)]; [by rewrite He|].
  specialize (Hrun [] _ (profile_samples (length data))). rewrite app_nil_r in Hrun. rewrite Hrun.
  assert (len body ≤ len data) as Hb by (rewrite Hd; len_lia).
  destruct (profile_samples_safe (length data) (Parser_new body)) as [_ Ht];
    [apply Parser_new_wf; lia|simpl; unfold len in *; lia|].
  destruct (profile_samples (length data) (Parser_new body)).2 as [[samples r]|e|]; try done. by destruct r.
Qed.

Lemma raw_gives : decode_gives pod_raw (λ r, len (raw_data r) ≤ isize_max).
Proof.
  intros data v n. unfold pod_raw, decode, RawPodOwned_wrap. case_bool_decide as H8; [done|].
  destruct (read_u32_ok (E:=PodError) data 0) as (s & -> & Hs); [lia..|]. res_cbn.
  rewrite pod_total_size_u32 by done. res_cbn. case_bool_decide; [done|].
  destruct (read_u32 data 4) as [t| |]; [|done..]. res_cbn. destruct (try_from_u32 t); [|done]. cbn [ok_or]. res_cbn.
  intros [= <- _]. simpl. pose proof (pad_8_range s). rewrite len_take by lia. unfold isize_max. lia.
Qed.

Lemma profile_gives op data o n :
  m_decode ProfilerEvents_marshal op data = Ok (ProfilerEvents_Profile o, n) →
  len (raw_data (profiler_profile_event_pod o)) ≤ isize_max.
Proof.
  unfold ProfilerEvents_marshal, derive_marshallable. cbn [m_decode]. unfold ProfilerEvents_variants, variant.
  cbn [fmap list_fmap fst snd discriminants decode_variants]. case_bool_decide; [|done].
  destruct (decode pod_ProfilerProfileEvent data) as [[o' s]| |] eqn:Hd; [|done..]. res_cbn. intros [= <- _].
  revert Hd. apply (decode_struct_gives _ (λ o, len (raw_data (profiler_profile_event_pod o)) ≤ isize_max)).
  eapply (returns_bind _ _ (λ fs : RawPod * unit, len (raw_data fs.1) ≤ isize_max));
    [|by intros [x []] Hx; apply returns_ret].
  eapply returns_bind; [apply returns_pop, raw_gives|]. intros x Hx.
  apply (returns_bind _ _ (λ _, True)); [done|]. intros fs _. by apply returns_ret.
Qed.

(** ** Demarshalling untrusted bytes *)
Lemma footer_total payload n :
  0 ≤ n ≤ len payload → len payload ≤ isize_max → ¬ negative_count payload → total (decode_footer payload n).
Proof.
  intros Hn Hl Hneg. unfold decode_footer. case_bool_decide.
  - unfold slice_from. rewrite slice_Ok by lia. res_cbn. set (tl := take _ _).
    assert (payload = take (Z.to_nat n) payload ++ tl ++ []) as Hp.
    { unfold tl. rewrite app_nil_r, (take_ge (drop _ _)); [by rewrite take_drop|].
      rewrite length_drop. unfold len. lia. }
    assert (calm pod_CoreFooter tl) as Hc by (apply footer_calm; apply _).
    assert (safe_decode (len tl) (decode pod_CoreFooter tl)) as Hs.
    { apply Hc; [rewrite Hp in Hl; rewrite !len_app in Hl; len_facts; lia|]. intros Hneg'. apply Hneg. rewrite Hp.
      by apply negative_count_part. }
    destruct (decode pod_CoreFooter tl) as [[f s]| |]; cbn [map_err]; res_cbn; [|done..]. by case_bool_decide.
  - res_cbn. by case_bool_decide.
Qed.

Lemma inbound_total {M} (P : Marshallable M) `{!MarshalCalm P} op payload :
  len payload ≤ isize_max → ¬ negative_count payload → total (inbound_decode P op payload).
Proof.
  intros Hl Hn. unfold inbound_decode. pose proof (mr_calm (P:=P) op payload Hl Hn) as Hs.
  destruct (m_decode P op payload) as [[m n]| |]; cbn [map_err]; res_cbn; [|done..].
  pose proof (footer_total payload n ltac:(simpl in Hs; lia) Hl Hn) as Hf.
  by destruct (decode_footer payload n).
Qed.

(** A state of a link or a direction of a port this version does not know. *)
Inductive unknown_value (op : Z) (payload : list byte) : Interface → Prop :=
| unknown_state info footer :
    inbound_decode LinkEvents_marshal op payload = Ok (LinkEvents_Info info, footer) →
    7 ≤ as_u32 (link_info_state info) → unknown_value op payload ILink
| unknown_direction info footer :
    inbound_decode PortEvents_marshal op payload = Ok (PortEvents_Info info, footer) →
    2 ≤ as_u32 (port_info_direction info) → unknown_value op payload IPort.

Lemma link_state_known n : 0 ≤ n → (try_from_u32 (T:=LinkState) n = None ↔ 7 ≤ n).
Proof.
  intros Hn. destruct (decide (7 ≤ n)) as [H7|H7]; (split; [|]); intros Hx; try done; try lia.
  - unfold try_from_u32, LinkState_conv, PortDirection_conv, derived_conv, derive_try_from. cbn.
    by repeat (rewrite (proj2 (Z.eqb_neq _ _)) by lia).
  - exfalso. assert (n = 0 ∨ n = 1 ∨ n = 2 ∨ n = 3 ∨ n = 4 ∨ n = 5 ∨ n = 6) as Hc by lia.
    by destruct Hc as [->|[->|[->|[->|[->|[->| ->]]]]]].
Qed.
Lemma port_direction_known n : 0 ≤ n → (try_from_u32 (T:=PortDirection) n = None ↔ 2 ≤ n).
Proof.
  intros Hn. destruct (decide (2 ≤ n)) as [H7|H7]; (split; [|]); intros Hx; try done; try lia.
  - unfold try_from_u32, LinkState_conv, PortDirection_conv, derived_conv, derive_try_from. cbn.
    by repeat (rewrite (proj2 (Z.eqb_neq _ _)) by lia).
  - exfalso. assert (n = 0 ∨ n = 1) as Hc by lia. by destruct Hc as [->| ->].
Qed.

Lemma unwrap_panics {V} `{U32Conv V} n : unwrap_u32 (V:=V) n = Panic ↔ try_from_u32 (T:=V) n = None.
Proof. unfold unwrap_u32. by destruct (try_from_u32 n). Qed.

Lemma link_event_panics fds info :
  (link_event fds (LinkEvents_Info info)).2 = Panic ↔ 7 ≤ as_u32 (link_info_state info).
Proof.
  rewrite <- link_state_known by (apply wrap_range; lia). rewrite <- unwrap_panics. cbn [link_event].
  assert (total (RawPod_decode pod_none (link_info_format info))) as Ht.
  { unfold RawPod_decode. pose proof (decode_safe (P:=pod_none) (raw_data (link_info_format info))) as Hs.
    by destruct (decode pod_none _). }
  destruct (RawPod_decode pod_none _) as [[]|e|]; [| |done]; res_cbn; by destruct (unwrap_u32 _).
Qed.

Lemma port_event_panics fds info :
  (port_event fds (PortEvents_Info info)).2 = Panic ↔ 2 ≤ as_u32 (port_info_direction info).
Proof.
  rewrite <- port_direction_known by (apply wrap_range; lia). rewrite <- unwrap_panics. cbn [port_event].
  by destruct (unwrap_u32 _).
Qed.

(** The interfaces whose handlers are total. *)
Lemma demarshal_with_total {M} (P : Marshallable M) `{!MarshalCalm P} h op payload fds :
  len payload ≤ isize_max → ¬ negative_count payload →
  (∀ m footer, inbound_decode P op payload = Ok (m, footer) → total (h fds m).2) →
  total (demarshal_with P h op payload fds).2.2.
Proof.
  intros Hl Hn Hh. unfold demarshal_with. pose proof (inbound_total P op payload Hl Hn) as Ht.
  destruct (inbound_decode P op payload) as [[m footer]| |]; [|done..]. by eapply Hh.
Qed.

Lemma inbound_inv {M} (P : Marshallable M) op payload m footer :
  inbound_decode P op payload = Ok (m, footer) → ∃ n, m_decode P op payload = Ok (m, n).
Proof.
  unfold inbound_decode. destruct (m_decode P op payload) as [[m' n]| |]; cbn [map_err]; res_cbn; [|done..].
  destruct (decode_footer payload n); res_cbn; [|done..]. intros [= <- <-]. by exists n.
Qed.

Lemma take_fd_total fds index : total (inbound_take_fd fds index).2.
Proof. unfold inbound_take_fd, FrameFds_take. by destruct (fds !! _) as [[]|]. Qed.

Lemma core_event_total fds e : total (core_event fds e).2.
Proof.
  destruct e; simpl; try done. unfold add_mem_fd_index. case_bool_decide; [|done].
  pose proof (take_fd_total fds (fd_value (core_add_mem_fd o))) as Ht.
  by destruct (inbound_take_fd _ _) as [fds' []].
Qed.

Lemma client_node_total op payload fds :
  len payload ≤ isize_max → ¬ negative_count payload → total (client_node_demarshal op payload fds).2.2.
Proof.
  intros Hl Hn. unfold client_node_demarshal, decode_client_node_event.
  pose proof (RawPod_wrap_total payload) as Hw.
  destruct (RawPod_wrap payload) as [raw|e|] eqn:Hr; cbn [map_err]; res_cbn; [|done..].
  apply RawPod_wrap_inv in Hr as (s & t & _ & _ & Hs & Hsz & Hle & _). pose proof (pad_8_range s).
  rewrite slice_Ok by lia. res_cbn. set (body := take _ _).
  assert (len body ≤ isize_max) as Hb by (unfold body; rewrite len_take; [lia|rewrite len_drop; lia]).
  pose proof (decode_event_transferred op body fds Limits_default Hb) as Ht. unfold fds_transferred in Ht.
  destruct (decode_event op body fds Limits_default) as [fds' [ev|e|]]; cbn [map_err snd] in *; res_cbn; [|done..].
  pose proof (footer_total payload (raw_size raw) ltac:(lia) Hl Hn) as Hf.
  by destruct (decode_footer payload (raw_size raw)).
Qed.

Lemma demarshal_panics i op payload fds :
  len payload ≤ isize_max → ¬ negative_count payload →
  (demarshal i op payload fds).2.2 = Panic ↔ unknown_value op payload i.
Proof.
  intros Hl Hn.
  assert (total (demarshal i op payload fds).2.2 → (∀ x, unknown_value op payload x → x = ILink ∨ x = IPort) →
    i ≠ ILink → i ≠ IPort → (demarshal i op payload fds).2.2 = Panic ↔ unknown_value op payload i) as Hgen.
  { intros Ht Hu H1 H2. split; [by intros Hp; rewrite Hp in Ht|]. intros Hx. by destruct (Hu i Hx). }
  assert (∀ x, unknown_value op payload x → x = ILink ∨ x = IPort) as Hu by (by intros x []; auto).
  destruct i; cbn [demarshal] in *; try (apply Hgen; [|done..]; apply demarshal_with_total; [apply _|done|done|]).
  - intros m footer _. apply core_event_total.
  - intros [] footer _; done.
  - apply Hgen; [by apply client_node_total|done..].
  - intros [] footer _; done.
  - intros [] footer _; done.
  - unfold demarshal_with. pose proof (inbound_total LinkEvents_marshal op payload Hl Hn) as Ht.
    destruct (inbound_decode LinkEvents_marshal op payload) as [[[info] footer]|e|] eqn:Hd; [|split; [done|]|done].
    + cbn [fst snd]. rewrite link_event_panics. split; [by econstructor|]. inversion 1; simplify_eq. congruence.
    + inversion 1; congruence.
  - intros [] footer _; done.
  - intros [] footer _; done.
  - intros [] footer _; done.
  - unfold demarshal_with. pose proof (inbound_total PortEvents_marshal op payload Hl Hn) as Ht.
    destruct (inbound_decode PortEvents_marshal op payload) as [[[info|param] footer]|e|] eqn:Hd; [|split; [done|]|split; [done|]|done].
    + cbn [fst snd]. rewrite port_event_panics. split; [by econstructor|]. inversion 1; simplify_eq. congruence.
    + inversion 1; congruence.
    + inversion 1; congruence.
  - intros [o] footer Hd. apply inbound_inv in Hd as [n Hd]. apply profiler_event_total. by eapply profile_gives.
  - intros [] footer _; done.
Qed.
