(* ===== verification/CoreClient.v ===== *)
(** * Core and its client

    Models [pipewire/src/core.rs], [pipewire/src/protocol/client.rs] and the
    [marshal] closures of [pipewire/src/protocol/marshal/]: the table of
    proxies, the methods that send messages for them, the handling of inbound
    frames, connecting and disconnecting.

    Listeners of the application are not part of the state: each emission is
    an output, and the listeners Core installs itself run in its place. *)

From S2P Require Import Prelude Utf8 PodTypes PodCodec PodLaws PodCompound PodParser PodParserLaws.
From S2P Require Import PodBuilder SpaParam Marshal MarshalLaws MarshalMessages FrameHeader.
From S2P Require Import FrameControl FrameRecv FrameSend ClientNode ClientNodeLaws InboundMessage.
From S2P Require Import Connection Properties IdMap Demarshal.

(** [spa/src/flags.rs] *)
Definition IO_IN : Z := Z.shiftl 1 0.
Definition IO_OUT : Z := Z.shiftl 1 2.
Definition IO_ERR : Z := Z.shiftl 1 3.
Definition IO_HUP : Z := Z.shiftl 1 4.
Definition IO_all : Z := Z.lor IO_IN (Z.lor IO_OUT (Z.lor IO_ERR IO_HUP)).
Definition intersects (a b : Z) : bool := negb (Z.land a b =? 0).

(** An entry of the object table: the id of a proxy is its index. *)
Record Proxy := mkProxy { px_type : Interface; px_bound_id : option Z }.

(** [struct Client] of [protocol/client.rs]; the source is its mask. *)
Record Client := mkClient {
  cl_connection : Connection;
  cl_stream : bool;
  cl_connected : bool;
  cl_need_flush : bool;
  cl_last_in_seq : Z;
  cl_source : option Z;
}.
Definition Client_new : Client := mkClient (Connection_new false) false false false 0 None.

Inductive ProxyEvent :=
| PeDestroy
| PeBound (id : Z)
| PeRemoved
| PeDone (seq : Z)
| PeError (seq res : Z) (message : list byte)
| PeBoundProps (id : Z) (props : Properties).

(** Emissions, in the order they begin. *)
Inductive Output :=
| OObject (id : Z) (n : Notification)
| OProxy (id : Z) (e : ProxyEvent).

(** [trait CoreMemoryImporter] *)
Class MemoryImporter (I : Type) := {
  add_memory : I → Z → Z → Z → Z → I * StdRes unit;
  remove_memory : I → Z → I * StdRes unit;
}.

Section core.
Context {I : Type} `{MemoryImporter I}.

(** [struct Core], with the properties of its context and the outputs. *)
Record Core := mkCore {
  co_client : Client;
  co_objects : list (Item Proxy);
  co_destroyed : bool;
  co_importer : option I;
  co_context : Properties;
  co_out : list Output;
}.

Definition CM (A : Type) : Type := Core → Core * StdRes A.
#[global] Instance cm_ret : MRet CM := λ A a w, (w, Ok a).
#[global] Instance cm_bind : MBind CM := λ A B f m w,
  match m w with
  | (w', Ok a) => f a w'
  | (w', Err e) => (w', Err e)
  | (w', Panic) => (w', Panic)
  end.
Definition cm_res {A} (r : StdRes A) : CM A := λ w, (w, r).
Definition gets {A} (f : Core → A) : CM A := λ w, (w, Ok (f w)).
Definition modify (f : Core → Core) : CM unit := λ w, (f w, Ok tt).

Definition with_client (f : Client → Client) (w : Core) : Core :=
  mkCore (f (co_client w)) (co_objects w) (co_destroyed w) (co_importer w) (co_context w) (co_out w).
Definition with_objects (f : list (Item Proxy) → list (Item Proxy)) (w : Core) : Core :=
  mkCore (co_client w) (f (co_objects w)) (co_destroyed w) (co_importer w) (co_context w) (co_out w).
Definition with_importer (i : option I) (w : Core) : Core :=
  mkCore (co_client w) (co_objects w) (co_destroyed w) i (co_context w) (co_out w).
Definition with_context (f : Properties → Properties) (w : Core) : Core :=
  mkCore (co_client w) (co_objects w) (co_destroyed w) (co_importer w) (f (co_context w)) (co_out w).
Definition emit (o : Output) (w : Core) : Core :=
  mkCore (co_client w) (co_objects w) (co_destroyed w) (co_importer w) (co_context w) (co_out w ++ [o]).
Definition mark_destroyed (w : Core) : Core :=
  mkCore (co_client w) (co_objects w) true (co_importer w) (co_context w) (co_out w).
Definition with_connection (f : Connection → Connection) (c : Client) : Client :=
  mkClient (f (cl_connection c)) (cl_stream c) (cl_connected c) (cl_need_flush c) (cl_last_in_seq c) (cl_source c).
Definition with_seq (seq : Z) (c : Client) : Client :=
  mkClient (cl_connection c) (cl_stream c) (cl_connected c) (cl_need_flush c) seq (cl_source c).
Definition with_flush (need : bool) (source : option Z) (c : Client) : Client :=
  mkClient (cl_connection c) (cl_stream c) (cl_connected c) need (cl_last_in_seq c) source.

(** ** Sending *)
Definition on_need_flush (c : Client) : Client :=
  with_flush true ((λ mask, Z.lor mask IO_OUT) <$> cl_source c) c.

(** [connection.push], whose [need_flush] the client listens to. *)
Definition push_message {M} (P : Marshallable M) (id : Z) (m : M) : CM unit := λ w,
  let '(conn, r, emitted) := push P (cl_connection (co_client w)) id m in
  let c := with_connection (λ _, conn) (co_client w) in
  (with_client (λ _, if emitted then on_need_flush c else c) w, r).

(** ** Proxies *)
Definition find_proxy (id : Z) : CM (option Proxy) := gets (λ w, get (co_objects w) id).
Definition next_proxy_id : CM Z := λ w,
  let '(objects, id) := reserve (co_objects w) in (with_objects (λ _, objects) w, Ok id).
Definition add_proxy (id : Z) (p : Proxy) : CM unit := λ w,
  match insert_at (co_objects w) id p with
  | Ok objects => (with_objects (λ _, objects) w, Ok tt)
  | Err e => match e with end
  | Panic => (w, Panic)
  end.
(** The constructors of the proxies. *)
Definition new_proxy (i : Interface) : CM Z :=
  id ← next_proxy_id; add_proxy id (mkProxy i None);; mret id.

Definition bytes_of (s : string) : list byte := String.list_byte_of_string s.
Definition interface_name (i : Interface) : list byte :=
  bytes_of match i with
  | IClient => "PipeWire:Interface:Client"
  | IClientNode => "PipeWire:Interface:ClientNode"
  | ICore => "PipeWire:Interface:Core"
  | IDevice => "PipeWire:Interface:Device"
  | IFactory => "PipeWire:Interface:Factory"
  | ILink => "PipeWire:Interface:Link"
  | IMetadata => "PipeWire:Interface:Metadata"
  | IModule => "PipeWire:Interface:Module"
  | INode => "PipeWire:Interface:Node"
  | IPort => "PipeWire:Interface:Port"
  | IProfiler => "PipeWire:Interface:Profiler"
  | IRegistry => "PipeWire:Interface:Registry"
  end.
Definition creatable : list Interface :=
  [IClient; IClientNode; IDevice; IFactory; ILink; IMetadata; IModule; INode; IPort; IProfiler].
Definition new_object (type_ : list byte) : CM Z :=
  match list_find (λ i, interface_name i = type_) creatable with
  | Some (_, i) => new_proxy i
  | None => cm_res (Err (Custom KUnsupported))
  end.

(** ** Methods

    The closures of [Methods::marshal], by interface; [id] is the proxy's own
    id and an [as i32] of a [u32] wraps. The order in which a HashMap of
    properties is iterated is an argument. *)
Notation as_i32 := (swrap 32).
Definition ANY_ID : Z := 0xFFFFFFFF.

Definition core_hello (version : Z) : CM unit :=
  push_message CoreMethods_marshal 0 (CoreMethods_Hello (mkCoreHello (as_i32 version))).
Definition core_sync (id : Z) : CM Z :=
  next ← gets (λ w, next_seq (cl_connection (co_client w)));
  let seq := Z.lor ASYNC_SEQ_BIT (Z.land next ASYNC_SEQ_MASK) in
  push_message CoreMethods_marshal 0 (CoreMethods_Sync (mkCoreSync (as_i32 id) (as_i32 seq)));;
  mret seq.
Definition core_pong (id seq : Z) : CM unit :=
  push_message CoreMethods_marshal 0 (CoreMethods_Pong (mkCorePong (as_i32 id) (as_i32 seq))).
Definition core_error (seq res : Z) (message : list byte) : CM unit :=
  push_message CoreMethods_marshal 0
    (CoreMethods_Error (mkCoreErrorMethod (as_i32 0) (as_i32 seq) (as_i32 res) message)).
Definition core_get_registry : CM Z :=
  new_id ← new_proxy IRegistry;
  push_message CoreMethods_marshal 0 (CoreMethods_GetRegistry (mkCoreGetRegistry (as_i32 3) (as_i32 new_id)));;
  mret new_id.
Definition core_create_object (factory_name type_ : list byte) (version : Z) (props : list (list byte * list byte)) :
    CM Z :=
  new_id ← new_object type_;
  push_message CoreMethods_marshal 0 (CoreMethods_CreateObject
    (mkCoreCreateObject factory_name type_ (as_i32 version) (mkPairList props) (as_i32 new_id)));;
  mret new_id.
Definition core_destroy_object (object : Z) : CM unit :=
  push_message CoreMethods_marshal 0 (CoreMethods_Destroy (mkCoreDestroy (as_i32 object))).

Definition client_error (self id res : Z) (message : list byte) : CM unit :=
  push_message ClientMethods_marshal self (ClientMethods_Error (mkClientError (as_i32 id) (as_i32 res) message)).
Definition client_update_properties (self : Z) (props : list (list byte * list byte)) : CM unit :=
  push_message ClientMethods_marshal self
    (ClientMethods_UpdateProperties (mkClientUpdateProperties (mkPairList props))).
Definition client_get_permissions (self idx num : Z) : CM unit :=
  push_message ClientMethods_marshal self
    (ClientMethods_GetPermissions (mkClientGetPermissions (as_i32 idx) (as_i32 num))).
Definition client_update_permissions (self : Z) (perms : list Permission) : CM unit :=
  push_message ClientMethods_marshal self (ClientMethods_UpdatePermissions (mkClientUpdatePermissions
    (mkPairList ((λ p, (as_i32 (perm_id p), as_i32 (permissions p))) <$> perms)))).

Definition registry_bind (self id : Z) (type_ : list byte) (version : Z) : CM Z :=
  new_id ← new_object type_;
  push_message RegistryMethods_marshal self (RegistryMethods_Bind
    (mkRegistryBind (as_i32 id) type_ (as_i32 version) (as_i32 new_id)));;
  mret new_id.
Definition registry_destroy (self id : Z) : CM unit :=
  push_message RegistryMethods_marshal self (RegistryMethods_Destroy (mkRegistryDestroy (as_i32 id))).

Definition metadata_set_property (self subject : Z) (key type_ value : option (list byte)) : CM unit :=
  push_message MetadataMethods_marshal self
    (MetadataMethods_SetProperty (mkMetadataSetProperty (as_i32 subject) key type_ value)).
Definition metadata_clear (self : Z) : CM unit :=
  push_message MetadataMethods_marshal self (MetadataMethods_Clear (mkMetadataClear tt)).

(** [ParamBuilder], and the 16384-byte buffer a param is built in. *)
Record ParamBuilder := mkParamBuilder { pb_object_type : ObjectType; pb_param_id : ParamType; pb_builder : BuilderOp }.
Definition unwrap_pod {A} (r : PodRes A) : StdRes A := match r with Ok a => Ok a | _ => Panic end.
Definition build_data (op : BuilderOp) : StdRes (list byte * list byte) :=
  match op (Builder_new (zeros 16384)) with
  | Ok b => out ← map_err (λ _, Custom KInvalidData) (build b); Ok (b_data b, out)
  | Err e => match e with end
  | Panic => Panic
  end.
Definition build_param (pb : ParamBuilder) : StdRes RawPod :=
  '(data, _) ← build_data (push_object (pb_object_type pb) (pb_param_id pb) (pb_builder pb));
  unwrap_pod (RawPodOwned_wrap data).
Definition build_filter (filter : option ParamBuilder) : StdRes RawPod :=
  match filter with
  | Some pb => build_param pb
  | None =>
      match encode pod_none tt (zeros 16384) with
      | (data, Ok _) => unwrap_pod (RawPodOwned_wrap data)
      | _ => Panic
      end
  end.
Definition build_command (op : BuilderOp) : StdRes RawPod :=
  '(_, out) ← build_data op;
  unwrap_pod (RawPodOwned_wrap out).
Definition param_or_any (id : option ParamType) : Z := match id with Some id => into_u32 id | None => ANY_ID end.

Definition device_subscribe_params (self : Z) (ids : list ParamType) : CM unit :=
  push_message DeviceMethods_marshal self (DeviceMethods_SubscribeParams (mkDeviceSubscribeParams (mkId <$> ids))).
Definition device_enum_params (self seq : Z) (id : option ParamType) (index num : Z) (filter : option ParamBuilder) :
    CM unit :=
  filter ← cm_res (build_filter filter);
  push_message DeviceMethods_marshal self (DeviceMethods_EnumParams
    (mkDeviceEnumParams (as_i32 seq) (mkId (param_or_any id)) (as_i32 index) (as_i32 num) filter)).
Definition device_set_param (self : Z) (param_id : ParamType) (object_type : ObjectType) (flags : Z) (op : BuilderOp) :
    CM unit :=
  param ← cm_res (build_param (mkParamBuilder object_type param_id op));
  push_message DeviceMethods_marshal self (DeviceMethods_SetParam (mkDeviceSetParam (mkId param_id) (as_i32 flags) param)).
Definition node_subscribe_params (self : Z) (ids : list ParamType) : CM unit :=
  push_message NodeMethods_marshal self (NodeMethods_SubscribeParams (mkNodeSubscribeParams (mkId <$> ids))).
Definition node_enum_params (self seq : Z) (id : option ParamType) (index num : Z) (filter : option ParamBuilder) :
    CM unit :=
  filter ← cm_res (build_filter filter);
  push_message NodeMethods_marshal self (NodeMethods_EnumParams
    (mkNodeEnumParams (as_i32 seq) (mkId (param_or_any id)) (as_i32 index) (as_i32 num) filter)).
Definition node_set_param (self : Z) (param_id : ParamType) (object_type : ObjectType) (flags : Z) (op : BuilderOp) :
    CM unit :=
  param ← cm_res (build_param (mkParamBuilder object_type param_id op));
  push_message NodeMethods_marshal self (NodeMethods_SetParam (mkNodeSetParam (mkId param_id) (as_i32 flags) param)).
Definition node_send_command (self : Z) (op : BuilderOp) : CM unit :=
  command ← cm_res (build_command op);
  push_message NodeMethods_marshal self (NodeMethods_SendCommand (mkNodeSendCommand command)).
Definition port_subscribe_params (self : Z) (ids : list ParamType) : CM unit :=
  push_message PortMethods_marshal self (PortMethods_SubscribeParams (mkPortSubscribeParams (mkId <$> ids))).
Definition port_enum_params (self seq : Z) (id : option ParamType) (index num : Z) (filter : option ParamBuilder) :
    CM unit :=
  filter ← cm_res (build_filter filter);
  push_message PortMethods_marshal self (PortMethods_EnumParams
    (mkPortEnumParams (as_i32 seq) (mkId (param_or_any id)) (as_i32 index) (as_i32 num) filter)).

(** [Outgoing] of [marshal/client_node.rs]; the text of an error is not kept. *)
Definition Outgoing_marshal : Marshallable Method := {|
  msg_opcode := method_opcode;
  m_encode m := λ data,
    match encode_method m with
    | Ok payload =>
        if bool_decide (len data < len payload) then (data, Err NoSpace)
        else (put_at 0 payload ;; mret (len payload)) data
    | Err _ => (data, Err (Invalid ""))
    | Panic => (data, Panic)
    end;
  m_decode _ _ := Err (Invalid "ClientNode outgoing methods are encode-only");
|}.
Definition client_node_send (self : Z) (m : Method) : CM unit := push_message Outgoing_marshal self m.

(** ** Core's own listeners *)
Definition proxy_notify (id : Z) (e : ProxyEvent) : CM unit := modify (emit (OProxy id e)).
Definition set_bound_id (id global_id : Z) : CM unit :=
  modify (with_objects (λ objects,
    match objects !! Z.to_nat id with
    | Some (Occupied p) => <[Z.to_nat id := Occupied (mkProxy (px_type p) (Some global_id))]> objects
    | _ => objects
    end)).

(** Run [k] if an object is registered under [id]. *)
Definition on_object (id : Z) (k : CM unit) : CM unit :=
  p ← find_proxy id; match p with Some _ => k | None => mret tt end.
(** The result of [k] is dropped. *)
Definition ignore_result {A} (k : CM A) : CM unit := λ w,
  match k w with (w, Panic) => (w, Panic) | (w, _) => (w, Ok tt) end.

(** A thread that takes a [std::sync::RwLock] it already holds never gets it:
    [write] and [read] block or panic then, by their documentation. *)
Definition blocked : CM unit := cm_res Panic.

Definition quantum_limit : list byte := bytes_of "default.clock.quantum-limit".
(** The listener [Core::new] adds to itself. The one of [remove_id] holds the
    table for writing while it notifies [removed], and the listener of that
    event on Core's own proxy (id 0) takes it for reading. *)
Definition core_listener (n : Notification) : CM unit :=
  match n with
  | NCoreInfo info =>
      match pci_props info with
      | Some props => modify (with_context (λ p, update_keys p (map_to_list props) [quantum_limit]))
      | None => mret tt
      end
  | NCoreDone id seq => on_object id (proxy_notify id (PeDone seq))
  | NCoreError id seq res message => on_object id (proxy_notify id (PeError seq res message))
  | NCorePing id seq => ignore_result (core_pong id seq)
  | NCoreRemoveId id =>
      on_object id (
        proxy_notify id PeRemoved;;
        (if bool_decide (id = 0) then blocked else mret tt);;
        modify (with_objects (λ objects, remove objects id)))
  | NCoreBoundId id global_id =>
      on_object id (set_bound_id id global_id;; proxy_notify id (PeBound global_id))
  | NCoreBoundProps id global_id props =>
      on_object id (set_bound_id id global_id;; proxy_notify id (PeBoundProps global_id props))
  | _ => mret tt
  end.

Definition import_memory (id type_ fd flags : Z) : CM unit := λ w,
  match co_importer w with
  | Some i => let '(i, r) := add_memory i id type_ fd flags in (with_importer (Some i) w, r)
  | None => (w, Ok tt)
  end.
Definition forget_memory (id : Z) : CM unit := λ w,
  match co_importer w with
  | Some i => let '(i, r) := remove_memory i id in (with_importer (Some i) w, r)
  | None => (w, Ok tt)
  end.
Definition set_memory_importer (i : option I) : CM unit := modify (with_importer i).

(** A call of [demarshal] on object [id]. *)
Definition notify_object (id : Z) (n : Notification) : CM unit :=
  match n with
  | NImportMemory mid type_ fd flags => import_memory mid type_ fd flags
  | NRemoveMemory mid => forget_memory mid
  | n => modify (emit (OObject id n));; core_listener n
  end.
Fixpoint notify_all (id : Z) (ns : list Notification) : CM unit :=
  match ns with [] => mret tt | n :: ns => notify_object id n;; notify_all id ns end.

(** ** Inbound frames *)
Definition is_unsupported (e : StdError) : bool :=
  match e with Custom KUnsupported => true | _ => false end.
Definition set_last_in_seq (seq : Z) : CM unit := modify (with_client (with_seq seq)).
Definition footer_handler (footer : option CoreFooter) : CM unit :=
  modify (with_client (with_connection (λ c, update_generation c footer))).

(** The end of [process_messages]: an unknown opcode is skipped. *)
Definition accept (seq : Z) (k : CM unit) : CM unit := λ w,
  match k w with
  | (w, Ok _) => set_last_in_seq seq w
  | (w, Err e) => if is_unsupported e then set_last_in_seq seq w else (w, Err e)
  | (w, Panic) => (w, Panic)
  end.

(** [process_messages] after [receive_frame]; descriptors left in the frame
    are closed with it. *)
Definition handle_frame (f : ReceivedFrame) : CM unit :=
  let header := f_header f in
  object ← find_proxy (object_id header);
  match object with
  | None => mret tt
  | Some p =>
      let '(footer, (_, ns, r)) := demarshal (px_type p) (opcode header) (f_payload f) (f_fds f) in
      footer_handler footer;;
      accept (seq header) (notify_all (object_id header) ns;; cm_res r)
  end.

(** ** Disconnecting *)
Definition clear_connection : CM bool := λ w,
  let c := co_client w in
  (with_client (λ c, mkClient (conn_disconnect (cl_connection c)) false false false 0 None) w, Ok (cl_connected c)).

(** [err.raw_os_error().unwrap_or(err.kind() as i32).unsigned_abs()]: the
    number of an error without an OS code is the compiler's. *)
Context (error_number : StdError → Z).
Definition connection_res (e : StdError) : Z :=
  match e with RawOs errno => Z.abs errno | e => Z.abs (error_number e) end.

Definition on_connection_error (e : StdError) (message : list byte) : CM unit :=
  seq ← gets (λ w, cl_last_in_seq (co_client w));
  was_connected ← clear_connection;
  if was_connected : bool then proxy_notify 0 (PeError seq (connection_res e) message) else mret tt.

(** The same while the guard of [stream] is held, as it is in the arms of the
    [match] on [take_error]: [clear_connection] stops at that lock. *)
Definition on_connection_error_guarded : CM unit :=
  modify (with_client (λ c, mkClient (cl_connection c) (cl_stream c) false (cl_need_flush c) (cl_last_in_seq c) None));;
  blocked.

(** The listener of [destroy] on Core's proxy. *)
Definition handle_destroy : CM unit :=
  destroyed ← gets co_destroyed;
  if destroyed : bool then mret tt else
  modify mark_destroyed;;
  client ← find_proxy 1;
  match client with
  | Some (mkProxy IClient _) =>
      modify (with_objects (λ _, IdMap_new));;
      proxy_notify 1 PeDestroy;;
      _ ← clear_connection;
      set_memory_importer None
  | _ => cm_res Panic
  end.

(** The listener of [removed]: every proxy but the first. *)
Fixpoint removed_all (objects : list (Z * Proxy)) : CM unit :=
  match objects with [] => mret tt | (id, _) :: objects => proxy_notify id PeRemoved;; removed_all objects end.
Definition core_disconnect : CM unit :=
  proxy_notify 0 PeRemoved;;
  objects ← gets (λ w, iter (co_objects w));
  removed_all (drop 1 objects);;
  proxy_notify 0 PeDestroy;;
  handle_destroy.

(** ** Connecting *)

(** [Dict::lookup]: the first item with the key. *)
Definition dict_lookup (d : Dict) (key : list byte) : option (list byte) :=
  (λ '(_, kv), kv.2) <$> list_find (λ kv, kv.1 = key) d.
Definition nonempty (v : option (list byte)) : option (list byte) :=
  v ← v; if bool_decide (v = []) then None else Some v.

(** [env] is the variable [PIPEWIRE_REMOTE]. *)
Definition get_remote (env : option (list byte)) (props : option Dict) : list byte :=
  match nonempty env with
  | Some v => v
  | None => default (bytes_of "pipewire-0") (nonempty (p ← props; dict_lookup p (bytes_of "remote.name")))
  end.

(** [Client::set_stream]; [add_io] tells whether the loop added the source. *)
Definition client_set_stream (add_io : bool) : CM unit := λ w,
  let c := co_client w in
  if add_io then
    (with_client (λ c, mkClient (set_stream (cl_connection c)) true true (cl_need_flush c) (cl_last_in_seq c)
       (Some IO_all)) w, Ok tt)
  else
    (with_client (λ c, mkClient (conn_disconnect (cl_connection c)) false false (cl_need_flush c) (cl_last_in_seq c)
       (cl_source c)) w, Err (Custom KOther)).

(** What the host does: connect a non-blocking stream to a path (a
    directory, if any, and a name), and the environment. *)
Record Host := mkHost {
  unix_connect : option (list byte) → list byte → StdRes unit;
  add_io : bool;
  env_remote : option (list byte);
  env_runtime_dir : option (list byte);
}.
Context (sys : Host).

(** The result of [set_stream] goes to the callback, which Core does not give. *)
Definition try_connect_local_socket (path : option (list byte)) (name : list byte) : CM unit :=
  cm_res (unix_connect sys path name);;
  ignore_result (client_set_stream (add_io sys)).

Definition starts_with (b : byte) (l : list byte) : bool := match l with x :: _ => bool_decide (x = b) | [] => false end.
Definition ends_with (suffix l : list byte) : bool := bool_decide (drop (length l - length suffix) l = suffix).

Definition remote_name (props : Dict) : list byte :=
  let manager := bool_decide (dict_lookup props (bytes_of "remote.intention") = Some (bytes_of "manager")) in
  let name := get_remote (env_remote sys) (Some props) in
  if manager && negb (ends_with (bytes_of "-manager") name) then name ++ bytes_of "-manager" else name.

Definition connect_local_socket (props : Dict) : CM unit :=
  let name := remote_name props in
  if starts_with Byte.x2f name || starts_with Byte.x40 name then try_connect_local_socket None name else
  let fallback := try_connect_local_socket (Some (bytes_of "/run/pipewire")) name in
  match env_runtime_dir sys with
  | Some dir => λ w,
      match try_connect_local_socket (Some dir) name w with
      | (w, Ok _) => (w, Ok tt)
      | (w, Err _) => fallback w
      | (w, Panic) => (w, Panic)
      end
  | None => fallback
  end.

(** [Core::new]; the properties of Core, those of its context added to the
    given ones, in the order they are iterated. *)
Definition core_init (props : list (list byte * list byte)) : CM unit :=
  id ← next_proxy_id;
  add_proxy id (mkProxy ICore None);;
  client ← new_proxy IClient;
  core_hello 4;;
  client_update_properties client props;;
  connect_local_socket props.
Definition Core_start (context : Properties) : Core := mkCore Client_new IdMap_new false None context [].
End core.

(** ** The I/O callback

    The client with its socket. [take_error] is [getsockopt(SO_ERROR)]. *)
Section remote_data.
Context {I : Type} `{MemoryImporter I} (error_number : StdError → Z).
Context {K : Type} (recvmsg : K → Z → Z → K * RawRecv) (sendmsg : K → list byte → list byte → K * RawSend).
Context (take_error : K → StdRes (option StdError)).

Record Endpoint := mkEndpoint { ep_core : Core (I:=I); ep_sock : K }.

(** Run an operation of the core. *)
Definition on_core {A} (m : CM A) (e : Endpoint) : Endpoint * StdRes A :=
  let '(w, r) := m (ep_core e) in (mkEndpoint w (ep_sock e), r).
Definition set_connection (c : Connection) (w : Core (I:=I)) : Core := with_client (with_connection (λ _, c)) w.

Definition process_messages (fuel : nat) (e : Endpoint) : Endpoint * StdRes unit :=
  let w := ep_core e in
  let '(k, conn, r) := receive_frame recvmsg fuel (ep_sock e) (cl_connection (co_client w)) in
  let e := mkEndpoint (set_connection conn w) k in
  match r with
  | Ok frame => on_core (handle_frame frame) e
  | Err err => (e, Err err)
  | Panic => (e, Panic)
  end.

(** [err.raw_os_error() == Some(libc::EAGAIN)]; an error of the frame layer
    is one of the system. *)
Definition is_eagain (e : StdError) : bool :=
  match e with RawOs errno => bool_decide (errno = EAGAIN) | FromFrame WouldBlock => true | _ => false end.

Definition msg_read : list byte := bytes_of "failed to read messages".
Definition msg_io : list byte := bytes_of "I/O error".
Definition msg_flush : list byte := bytes_of "flush failed".

(** The [loop]: whether to go on after it. Each turn reads one frame; it
    ends because [receive_frame] fails once the socket has no more, and
    [turns] bounds the number of frames. *)
Fixpoint read_loop (turns fuel : nat) (e : Endpoint) : Endpoint * StdRes bool :=
  match turns with
  | O => (e, Panic)
  | S turns =>
      match process_messages fuel e with
      | (e, Ok _) => read_loop turns fuel e
      | (e, Err err) =>
          if is_eagain err then (e, Ok true) else
          let '(e, r) := on_core (on_connection_error error_number err msg_read) e in (e, _ ← r; Ok false)
      | (e, Panic) => (e, Panic)
      end
  end.

Definition flush_remote (fuel : nat) (e : Endpoint) : Endpoint * StdRes unit :=
  let e := mkEndpoint (with_client (λ c, with_flush true (cl_source c) c) (ep_core e)) (ep_sock e) in
  if cl_stream (co_client (ep_core e)) then
    match take_error (ep_sock e) with
    | Ok None =>
        let '(k, conn, r) := conn_flush sendmsg fuel (ep_sock e) (cl_connection (co_client (ep_core e))) in
        let e := mkEndpoint (set_connection conn (ep_core e)) k in
        match r with
        | Ok _ =>
            (mkEndpoint (with_client (λ c, with_flush false ((λ mask, Z.ldiff mask IO_OUT) <$> cl_source c) c)
               (ep_core e)) k, Ok tt)
        | Err err =>
            if is_eagain err then (e, Ok tt) else on_core (on_connection_error error_number err msg_flush) e
        | Panic => (e, Panic)
        end
    | Ok (Some _) | Err _ => on_core on_connection_error_guarded e
    | Panic => (e, Panic)
    end
  else (e, Panic).

Definition on_remote_data (turns fuel : nat) (mask : Z) (e : Endpoint) : Endpoint * StdRes unit :=
  let '(e, go_on) := if intersects mask (Z.lor IO_IN IO_HUP) then read_loop turns fuel e else (e, Ok true) in
  match go_on with
  | Ok true =>
      if intersects mask (Z.lor IO_ERR IO_HUP) then
        on_core (on_connection_error error_number (Custom KBrokenPipe) msg_io) e
      else if (Z.land mask IO_OUT =? IO_OUT) || cl_need_flush (co_client (ep_core e)) then flush_remote fuel e
      else (e, Ok tt)
  | Ok false => (e, Ok tt)
  | Err err => (e, Err err)
  | Panic => (e, Panic)
  end.
End remote_data.
Arguments Endpoint I K : clear implicits.
