(* ===== verification/CoreClientLaws.v ===== *)
(** * The invariant of a client

    Everything the client does ([pipewire/src/protocol/client.rs],
    [pipewire/src/core.rs]) keeps its connection well formed, and the event
    loop watching for a writable socket for as long as a frame is queued. *)

From S2P Require Import Prelude Utf8 PodTypes PodCodec PodLaws PodCompound PodParser PodParserLaws.
From S2P Require Import PodBuilder SpaParam Marshal MarshalLaws MarshalMessages FrameHeader.
From S2P Require Import FrameControl FrameRecv FrameRecvLaws FrameStream FrameSend FrameFuel FrameChannel.
From S2P Require Import ClientNode ClientNodeLaws InboundMessage Connection ConnectionProps Properties.
From S2P Require Import IdMap Demarshal DemarshalLaws CoreClient.

Create HintDb keeps discriminated.
#[export] Hint Constants Opaque : keeps.
Create HintDb methods.

(** ** The connection

    What holds of it whatever messages are pushed, valid or not. *)
Record conn_ok (c : Connection) : Prop := {
  ck_inv :> conn_inv c;
  ck_recv : recv_inv (c_receiver c);
}.

Lemma fresh_conn_ok stream : conn_ok (Connection_new stream).
Proof. split; [apply connection_new_inv|apply new_inv, default_limits_ok]. Qed.

Lemma disconnect_new c : conn_disconnect c = Connection_new false.
Proof. done. Qed.

Lemma no_fds_ok : fds_ok (Some []).
Proof. split; [constructor|]. by vm_compute. Qed.

Lemma push_conn_ok {M} (P : Marshallable M) c id m :
  conn_ok c →
  match push P c id m with
  | (c', Ok _, emitted) => conn_ok c' ∧ c_stream c' = c_stream c ∧ emitted = true
  | (c', Err _, emitted) => c' = c ∧ emitted = false
  | (_, Panic, _) => True
  end.
Proof.
  intros Hc. unfold push, push_with_owned_fds.
  destruct (encode_message P 12 m (make_footer c) (zeros 16384)) as [payload|e|]; [|done..]. res_cbn.
  pose proof (frame_new_spec id (msg_opcode P m) (c_out_seq c) payload [] no_fds_ok) as Hf.
  destruct (OutboundFrame_new _ _ _ _ _ _) as [f|e|]; cbn [map_err]; [|done..].
  destruct Hf as (_ & Ho & _). pose proof (enqueue_spec (c_sender c) f (ci_send _ Hc) (ci_fds _ Hc) Ho) as He.
  destruct (enqueue _ _) as [s' [[]|e|]]; [| |done].
  - destruct He as (? & ? & _ & Hl & _). split_and!; [|done|done].
    split; [|apply Hc]. split; simpl; try done; [rewrite Hl; apply Hc| |apply Hc].
    pose proof (ci_seq _ Hc). rewrite land_mask by lia. apply Z.mod_pos_bound. lia.
  - subst s'. by destruct c.
Qed.

(** A footer from [demarshal]. *)
Definition footer_known (footer : option CoreFooter) : Prop := ∀ f, footer = Some f → footer_typed f.

Lemma update_generation_same c footer :
  c_sender (update_generation c footer) = c_sender c ∧ c_stream (update_generation c footer) = c_stream c ∧
  c_receiver (update_generation c footer) = c_receiver c.
Proof.
  destruct footer as [[ps]|]; [|done]. simpl. revert c.
  induction ps as [|[g] ps IH]; intros c; simpl; [done|].
  apply (IH (set_recv_generation c (registry_generation g))).
Qed.
Lemma update_generation_conn_ok c footer : conn_ok c → footer_known footer → conn_ok (update_generation c footer).
Proof.
  intros [Hi Hr] Hf. split; [|by destruct (update_generation_same c footer) as (_ & _ & ->)].
  destruct footer as [f|]; [|done]. by apply update_generation_spec, Hf.
Qed.

(** ** The client *)

(** [cs_flush] is what makes sending live: a queued frame implies that a
    flush is due, and then the loop waits for the socket to be writable. *)
Record client_ok (c : Client) : Prop := {
  cs_conn : conn_ok (cl_connection c);
  cs_stream : cl_stream c = c_stream (cl_connection c);
  cs_connected : cl_connected c = cl_stream c;
  cs_source : is_Some (cl_source c) ↔ cl_connected c = true;
  cs_queue : queue (c_sender (cl_connection c)) ≠ [] → cl_need_flush c = true;
  cs_flush : cl_need_flush c = true → ∀ mask, cl_source c = Some mask → Z.land mask IO_OUT = IO_OUT;
}.

Lemma lor_out mask : Z.land (Z.lor mask IO_OUT) IO_OUT = IO_OUT.
Proof. apply Z.bits_inj'. intros n _. rewrite Z.land_spec, Z.lor_spec. by destruct (Z.testbit mask n), (Z.testbit IO_OUT n). Qed.

Lemma client_new_ok : client_ok Client_new.
Proof. split; try done; [apply fresh_conn_ok|]. split; [by intros []|done]. Qed.

(** A new connection state with the same stream and the same queue. *)
Lemma with_connection_ok c conn :
  client_ok c → conn_ok conn → c_stream conn = c_stream (cl_connection c) →
  (queue (c_sender conn) ≠ [] → queue (c_sender (cl_connection c)) ≠ []) →
  client_ok (with_connection (λ _, conn) c).
Proof. intros [? Hs ? ? Hq ?] Hc Hst Hqc. split; simpl; try done; [congruence|]. intros ?. by apply Hq, Hqc. Qed.

Lemma on_need_flush_ok c conn :
  client_ok c → conn_ok conn → c_stream conn = c_stream (cl_connection c) →
  client_ok (on_need_flush (with_connection (λ _, conn) c)).
Proof.
  intros [? Hs ? Hsrc ? ?] Hc Hst. split; simpl; try done; [congruence| |].
  - rewrite fmap_is_Some. exact Hsrc.
  - intros _ mask Hm. destruct (cl_source c) as [m|]; simplify_eq/=. apply lor_out.
Qed.

Section keeps.
Context {I : Type} `{MemoryImporter I}.
Notation Core := (Core (I:=I)).

(** Whatever an operation of the core returns, it leaves a state in [Q]. *)
Definition keeps {A} (Q : Core → Prop) (m : CM A) : Prop := ∀ w, Q w → (m w).2 ≠ Panic → Q (m w).1.

Section rules.
Context (Q : Core → Prop).

Lemma keeps_ret {A} (a : A) : keeps Q (mret a).
Proof. by intros w Hw _. Qed.
Lemma keeps_res {A} (r : StdRes A) : keeps Q (cm_res r).
Proof. by intros w Hw _. Qed.
Lemma keeps_gets {A} (f : Core → A) : keeps Q (gets f).
Proof. by intros w Hw _. Qed.
Lemma keeps_bind {A B} (m : CM A) (f : A → CM B) : keeps Q m → (∀ a, keeps Q (f a)) → keeps Q (m ≫= f).
Proof.
  intros Hm Hf w Hw. unfold mbind, cm_bind. specialize (Hm w Hw).
  destruct (m w) as [w' [a|e|]]; simpl in *; [|by auto|done]. apply Hf. by apply Hm.
Qed.
Lemma keeps_modify (f : Core → Core) : (∀ w, Q w → Q (f w)) → keeps Q (modify f).
Proof. intros Hf w Hw _. by apply Hf. Qed.
Lemma keeps_ignore {A} (m : CM A) : keeps Q m → keeps Q (ignore_result m).
Proof.
  intros Hm w Hw. unfold ignore_result. specialize (Hm w Hw).
  destruct (m w) as [w' []]; simpl in *; auto.
Qed.
Lemma keeps_accept seq (m : CM unit) : keeps Q m → keeps Q (set_last_in_seq seq) → keeps Q (accept seq m).
Proof.
  intros Hm Hs w Hw. unfold accept. specialize (Hm w Hw).
  destruct (m w) as [w' [a|e|]]; simpl in *; [by apply Hs; auto| |done].
  destruct (is_unsupported e); [by apply Hs; auto|by auto].
Qed.
End rules.
End keeps.
#[export] Hint Resolve keeps_ret keeps_res keeps_gets : keeps.

(** What holds of the core's client. *)
Definition client_inv {I} (w : Core (I:=I)) : Prop := client_ok (co_client w).

Ltac keeps_step :=
  match goal with
  | |- keeps _ _ => solve [auto with keeps]
  | |- keeps _ (mbind _ _) => apply keeps_bind; [|intros]
  | |- keeps _ (match ?x with _ => _ end) => destruct x
  | |- keeps _ (accept _ _) => apply keeps_accept
  | |- keeps _ (ignore_result _) => apply keeps_ignore
  end.
(** Go through the code of an operation. *)
Ltac keeps_all := repeat (intros; keeps_step); auto with keeps.

Section client_keeps.
Context {I : Type} `{MemoryImporter I} (error_number : StdError → Z).
Notation keeps_client := (keeps (I:=I) client_inv).

Lemma client_push {M} (P : Marshallable M) id m : keeps_client (push_message P id m).
Proof.
  intros w Hw. unfold push_message. pose proof (push_conn_ok P (cl_connection (co_client w)) id m (cs_conn _ Hw)) as Hp.
  destruct (push P _ id m) as [[c' r] emitted]. cbn [fst snd]. destruct r as [[]|e|]; [| |done]; intros _.
  - destruct Hp as (Hc & Hst & ->). by apply on_need_flush_ok.
  - destruct Hp as (-> & ->). by apply with_connection_ok; [|apply Hw|..].
Qed.
Lemma client_next_id : keeps_client next_proxy_id.
Proof. intros w Hw. unfold next_proxy_id. by destruct (reserve _). Qed.
Lemma client_add_proxy id p : keeps_client (add_proxy id p).
Proof. intros w Hw. unfold add_proxy. by destruct (insert_at _ _ _) as [|[]|]. Qed.
Lemma client_emit o : keeps_client (modify (emit o)).
Proof. by apply keeps_modify. Qed.
Lemma client_objects f : keeps_client (modify (with_objects f)).
Proof. by apply keeps_modify. Qed.
Lemma client_context f : keeps_client (modify (with_context f)).
Proof. by apply keeps_modify. Qed.
Lemma client_destroyed : keeps_client (modify mark_destroyed).
Proof. by apply keeps_modify. Qed.
Lemma client_importer i : keeps_client (set_memory_importer i).
Proof. by apply keeps_modify. Qed.
Lemma client_import id type_ fd flags : keeps_client (import_memory id type_ fd flags).
Proof. intros w Hw. unfold import_memory. destruct (co_importer w); [|done]. by destruct (add_memory _ _ _ _ _). Qed.
Lemma client_forget id : keeps_client (forget_memory id).
Proof. intros w Hw. unfold forget_memory. destruct (co_importer w); [|done]. by destruct (remove_memory _ _). Qed.
Lemma client_last_seq seq : keeps_client (set_last_in_seq seq).
Proof. apply keeps_modify. intros w []. by split. Qed.
Lemma client_footer footer : footer_known footer → keeps_client (footer_handler footer).
Proof.
  intros Hf. apply keeps_modify. intros w Hw. destruct (update_generation_same (cl_connection (co_client w)) footer) as (Hs & ? & _).
  apply (with_connection_ok (co_client w) (update_generation (cl_connection (co_client w)) footer)); try done.
  - apply update_generation_conn_ok; [apply Hw|done].
  - by rewrite Hs.
Qed.
Lemma client_clear : keeps_client clear_connection.
Proof.
  intros w _ _. split; simpl; try done. apply (fresh_conn_ok false).
Qed.
End client_keeps.
#[export] Hint Resolve client_push client_next_id client_add_proxy client_emit client_objects client_context : keeps.
#[export] Hint Resolve client_destroyed client_importer client_import client_forget client_last_seq : keeps.
#[export] Hint Resolve client_footer client_clear : keeps.

(** ** Handling a frame

    What the operations used by the listeners keep, handling a frame keeps. *)
Section stable.
Context {I : Type} `{MemoryImporter I}.

Record stable (Q : Core (I:=I) → Prop) : Prop := {
  st_push {M} (P : Marshallable M) id m : keeps Q (push_message P id m);
  st_emit o : keeps Q (modify (emit o));
  st_objects f : keeps Q (modify (with_objects f));
  st_context f : keeps Q (modify (with_context f));
  st_import id type_ fd flags : keeps Q (import_memory id type_ fd flags);
  st_forget id : keeps Q (forget_memory id);
  st_last_seq seq : keeps Q (set_last_in_seq seq);
  st_footer footer : footer_known footer → keeps Q (footer_handler footer);
}.

Context (Q : Core (I:=I) → Prop) (HQ : stable Q).
#[local] Hint Resolve st_push st_emit st_objects st_context st_import st_forget st_last_seq st_footer : keeps.

Lemma stable_listener n : keeps Q (core_listener n).
Proof. destruct n; simpl; unfold on_object, proxy_notify, blocked, core_pong, find_proxy, set_bound_id; keeps_all. Qed.
#[local] Hint Resolve stable_listener : keeps.
Lemma stable_notify id n : keeps Q (notify_object id n).
Proof. destruct n; cbn [notify_object]; keeps_all. Qed.
#[local] Hint Resolve stable_notify : keeps.
Lemma stable_notify_all id ns : keeps Q (notify_all id ns).
Proof. induction ns; cbn [notify_all]; keeps_all. Qed.
#[local] Hint Resolve stable_notify_all : keeps.
Lemma stable_frame f : keeps Q (handle_frame f).
Proof.
  unfold handle_frame, find_proxy. apply keeps_bind; [keeps_all|]. intros [p|]; [|keeps_all].
  pose proof (demarshal_footer (px_type p) (opcode (f_header f)) (f_payload f) (f_fds f)) as Hf.
  destruct (demarshal _ _ _ _) as [footer [[fds ns] r]]. cbn [fst] in Hf.
  assert (footer_known footer) by (intros ft ->; by apply Hf). keeps_all.
Qed.
End stable.

(** ** Calls of the application *)
Inductive CoreCall :=
| CallSync
| CallRegistry
| CallCreateObject (factory type_ : list byte) (version : Z) (props : list (list byte * list byte))
| CallDestroy (object : Z)
| CallClientError (self id res : Z) (message : list byte)
| CallUpdateProperties (self : Z) (props : list (list byte * list byte))
| CallGetPermissions (self idx num : Z)
| CallUpdatePermissions (self : Z) (perms : list Permission)
| CallBind (self id : Z) (type_ : list byte) (version : Z)
| CallRegistryDestroy (self id : Z)
| CallSetProperty (self subject : Z) (key type_ value : option (list byte))
| CallClear (self : Z)
| CallDeviceSubscribe (self : Z) (ids : list ParamType)
| CallDeviceEnum (self seq : Z) (id : option ParamType) (index num : Z) (filter : option ParamBuilder)
| CallDeviceSet (self : Z) (id : ParamType) (type_ : ObjectType) (flags : Z) (op : BuilderOp)
| CallNodeSubscribe (self : Z) (ids : list ParamType)
| CallNodeEnum (self seq : Z) (id : option ParamType) (index num : Z) (filter : option ParamBuilder)
| CallNodeSet (self : Z) (id : ParamType) (type_ : ObjectType) (flags : Z) (op : BuilderOp)
| CallNodeCommand (self : Z) (op : BuilderOp)
| CallPortSubscribe (self : Z) (ids : list ParamType)
| CallPortEnum (self seq : Z) (id : option ParamType) (index num : Z) (filter : option ParamBuilder)
| CallClientNode (self : Z) (m : Method)
| CallDisconnect.

#[export] Hint Unfold core_sync core_get_registry core_create_object core_destroy_object client_error
  client_update_properties client_get_permissions client_update_permissions registry_bind registry_destroy
  metadata_set_property metadata_clear device_subscribe_params device_enum_params device_set_param
  node_subscribe_params node_enum_params node_set_param node_send_command port_subscribe_params port_enum_params
  client_node_send : methods.

Section calls.
Context {I : Type} `{MemoryImporter I}.

Definition perform (call : CoreCall) : CM (I:=I) unit :=
  match call with
  | CallSync => _ ← core_sync 0; mret tt
  | CallRegistry => _ ← core_get_registry; mret tt
  | CallCreateObject factory type_ version props => _ ← core_create_object factory type_ version props; mret tt
  | CallDestroy object => core_destroy_object object
  | CallClientError self id res message => client_error self id res message
  | CallUpdateProperties self props => client_update_properties self props
  | CallGetPermissions self idx num => client_get_permissions self idx num
  | CallUpdatePermissions self perms => client_update_permissions self perms
  | CallBind self id type_ version => _ ← registry_bind self id type_ version; mret tt
  | CallRegistryDestroy self id => registry_destroy self id
  | CallSetProperty self subject key type_ value => metadata_set_property self subject key type_ value
  | CallClear self => metadata_clear self
  | CallDeviceSubscribe self ids => device_subscribe_params self ids
  | CallDeviceEnum self seq id index num filter => device_enum_params self seq id index num filter
  | CallDeviceSet self id type_ flags op => device_set_param self id type_ flags op
  | CallNodeSubscribe self ids => node_subscribe_params self ids
  | CallNodeEnum self seq id index num filter => node_enum_params self seq id index num filter
  | CallNodeSet self id type_ flags op => node_set_param self id type_ flags op
  | CallNodeCommand self op => node_send_command self op
  | CallPortSubscribe self ids => port_subscribe_params self ids
  | CallPortEnum self seq id index num filter => port_enum_params self seq id index num filter
  | CallClientNode self m => client_node_send self m
  | CallDisconnect => core_disconnect
  end.

Notation keeps_client := (keeps (I:=I) client_inv).

Lemma client_stable : stable (I:=I) client_inv.
Proof. split; intros; auto with keeps. Qed.
Lemma client_frame f : keeps_client (handle_frame f).
Proof. apply stable_frame, client_stable. Qed.
Lemma client_removed_all objects : keeps_client (removed_all objects).
Proof. unfold proxy_notify. induction objects as [|[]]; cbn [removed_all]; unfold proxy_notify; keeps_all. Qed.
#[local] Hint Resolve client_removed_all : keeps.
Lemma client_disconnect : keeps_client core_disconnect.
Proof. unfold core_disconnect, handle_destroy, proxy_notify, find_proxy. keeps_all. Qed.
Lemma client_new_proxy i : keeps_client (new_proxy i).
Proof. unfold new_proxy. keeps_all. Qed.
#[local] Hint Resolve client_disconnect client_new_proxy : keeps.
Lemma client_new_object type_ : keeps_client (new_object type_).
Proof. unfold new_object. keeps_all. Qed.
#[local] Hint Resolve client_new_object : keeps.
Lemma client_perform call : keeps_client (perform call).
Proof. destruct call; cbn [perform]; autounfold with methods; keeps_all. Qed.
End calls.

(** ** The I/O callback *)
Section endpoint.
Context {I : Type} `{MemoryImporter I} (error_number : StdError → Z).
Context {K : Type} (recvmsg : K → Z → Z → K * RawRecv) (sendmsg : K → list byte → list byte → K * RawSend).
Context (take_error : K → StdRes (option StdError)).
Context `{!SocketLaws recvmsg, !SendSocket sendmsg}.
Notation Endpoint := (Endpoint I K).

Definition endpoint_ok (e : Endpoint) : Prop := client_inv (ep_core e).

(** After an error the client is as good as new. *)
Lemma connection_error_ok err msg (w : Core (I:=I)) : client_inv (on_connection_error error_number err msg w).1.
Proof.
  unfold on_connection_error, clear_connection, mbind, cm_bind. simpl.
  destruct (cl_connected _); simpl; (split; simpl; try done; apply (fresh_conn_ok false)).
Qed.

Lemma on_core_ok {A} (m : CM (I:=I) A) e :
  keeps client_inv m → endpoint_ok e → (on_core m e).2 ≠ Panic → endpoint_ok (on_core m e).1.
Proof.
  intros Hm He. unfold on_core. specialize (Hm (ep_core e) He). by destruct (m (ep_core e)) as [w r].
Qed.

Lemma process_messages_ok fuel e :
  endpoint_ok e → (process_messages recvmsg fuel e).2 ≠ Panic → endpoint_ok (process_messages recvmsg fuel e).1.
Proof.
  intros He. unfold process_messages, receive_frame. pose proof He as Hc. destruct Hc as [Hc _ _ _ _ _].
  destruct (c_stream _) eqn:Hst; [|by destruct e as [[[] ? ? ? ? ?] ?]].
  pose proof (receive_ends recvmsg fuel (ep_sock e) _ (ck_recv _ Hc)) as Hr.
  destruct (receive _ _ _ _) as [[k r] res]. cbn [fst snd] in Hr.
  set (conn := mkConnection _ r _ _ _ _). intros Hp.
  assert (res ≠ Panic) as Hres by (intros ->; done).
  assert (endpoint_ok (mkEndpoint (set_connection conn (ep_core e)) k)) as He'.
  { apply with_connection_ok; try done. destruct Hc as [[] ?]. split; [by split|auto]. }
  destruct res as [[f| |]|err|]; try done. by apply on_core_ok; [apply client_frame|..].
Qed.

Lemma read_loop_ok turns fuel e :
  endpoint_ok e → (read_loop error_number recvmsg turns fuel e).2 ≠ Panic →
  endpoint_ok (read_loop error_number recvmsg turns fuel e).1.
Proof.
  revert e. induction turns as [|turns IH]; intros e He; [done|]. cbn [read_loop].
  pose proof (process_messages_ok fuel e He) as Hp.
  destruct (process_messages recvmsg fuel e) as [e1 [[]|err|]]; cbn [fst snd] in Hp; [by apply IH; apply Hp| |done].
  destruct (is_eagain err); [by auto|]. unfold on_core. intros _.
  pose proof (connection_error_ok err msg_read (ep_core e1)) as Hw.
  by destruct (on_connection_error _ _ _ _) as [w r].
Qed.

Lemma is_eagain_frame err : err ≠ Io WouldBlock → is_eagain (frame_error err) = false.
Proof. by destruct err as [[]| | | | | | | | | | | | | |]. Qed.

(** An empty queue is flushed at once, or was poisoned. *)
Lemma flush_empty fuel k s :
  queue s = [] → (0 < fuel)%nat →
  flush sendmsg fuel k s = (k, s, if failed s then Err Poisoned else Ok Drained).
Proof. intros Hq Hf. unfold flush. destruct (failed s); [done|]. destruct fuel; [lia|]. simpl. by rewrite Hq. Qed.

(** What a flush leaves: nothing is queued, or a flush is still due and the
    loop still waits for the socket. *)
Lemma flush_remote_ok fuel e :
  endpoint_ok e → (flush_remote error_number sendmsg take_error fuel e).2 ≠ Panic →
  endpoint_ok (flush_remote error_number sendmsg take_error fuel e).1.
Proof.
  intros He. unfold flush_remote. cbn [ep_core ep_sock co_client with_client cl_stream with_flush cl_connection].
  destruct (cl_stream _) eqn:Hst; [|done]. destruct (take_error _) as [[?|]|?|]; [done| |done|done].
  pose proof He as [Hc Hs Hcon Hsrc Hq Hfl]. unfold conn_flush. rewrite <- Hs, Hst.
  pose proof (flush_ends sendmsg fuel (ep_sock e) _ (ci_send _ Hc) (ci_fds _ Hc)) as Hf.
  pose proof (flush_limits sendmsg fuel (ep_sock e) (c_sender (cl_connection (co_client (ep_core e))))) as Hl.
  destruct (flush _ _ _ _) as [[k s'] res] eqn:Hflush. cbn [fst snd] in Hl, Hf.
  set (conn := mkConnection _ _ _ _ s' _). intros Hp.
  assert (res ≠ Panic) as Hres by (intros ->; done). specialize (Hf Hres). destruct Hf as (Hs1 & Hs2 & Hs3 & _).
  assert (conn_ok conn) as Hconn by (destruct Hc as [[] ?]; split; [split; simpl; try done; congruence|done]).
  assert (∀ err msg, endpoint_ok (on_core (on_connection_error error_number err msg)
    (mkEndpoint (set_connection conn (with_client (λ c, with_flush true (cl_source c) c) (ep_core e))) k)).1) as Herr.
  { intros err msg. unfold on_core. pose proof (connection_error_ok err msg
      (set_connection conn (with_client (λ c, with_flush true (cl_source c) c) (ep_core e)))) as Hw.
    by destruct (on_connection_error _ _ _ _). }
  destruct res as [[]|err|]; cbn [map_err] in *; [| | |done]; res_cbn.
  - split; simpl; try done; [by rewrite fmap_is_Some|by rewrite Hs3].
  - split; simpl; try done. intros _. apply Hfl.
    destruct (cl_need_flush _) eqn:Hn; [done|]. exfalso.
    assert (queue (c_sender (cl_connection (co_client (ep_core e)))) = []) as Hqe.
    { destruct (queue _) eqn:Hqq; [done|]. specialize (Hq ltac:(done)). congruence. }
    destruct fuel as [|fuel]; [unfold flush in Hflush; destruct (failed _); simplify_eq|].
    rewrite flush_empty in Hflush by (done || lia). destruct (failed _); simplify_eq.
  - rewrite is_eagain_frame; [apply Herr|]. intros ->.
    by apply (flush_err sendmsg fuel (ep_sock e) (c_sender (cl_connection (co_client (ep_core e))))); rewrite Hflush.
Qed.

Lemma on_remote_data_ok turns fuel mask e :
  endpoint_ok e → (on_remote_data error_number recvmsg sendmsg take_error turns fuel mask e).2 ≠ Panic →
  endpoint_ok (on_remote_data error_number recvmsg sendmsg take_error turns fuel mask e).1.
Proof.
  intros He. unfold on_remote_data.
  assert (let '(e1, go) := if intersects mask (Z.lor IO_IN IO_HUP) then read_loop error_number recvmsg turns fuel e
    else (e, Ok true) in go ≠ Panic → endpoint_ok e1) as Hread.
  { destruct (intersects _ _); [|done]. pose proof (read_loop_ok turns fuel e He) as Hr.
    by destruct (read_loop _ _ _ _ _). }
  destruct (if intersects mask (Z.lor IO_IN IO_HUP) then _ else _) as [e1 [[]|err|]]; [|by auto..|done].
  specialize (Hread ltac:(done)). destruct (intersects _ (Z.lor IO_ERR IO_HUP)).
  - unfold on_core. pose proof (connection_error_ok (Custom KBrokenPipe) msg_io (ep_core e1)) as Hw.
    by destruct (on_connection_error _ _ _ _).
  - destruct (_ || _); [by apply flush_remote_ok|done].
Qed.
End endpoint.

(** ** Connecting *)
Section connecting.
Context {I : Type} `{MemoryImporter I} (sys : Host).

(** Before the stream is set there is no source. *)
Definition unconnected (w : Core (I:=I)) : Prop := client_inv w ∧ cl_source (co_client w) = None.

Lemma unconnected_push {M} (P : Marshallable M) id m : keeps unconnected (push_message P id m).
Proof.
  intros w [Hw Hs] Hp. split; [by apply client_push|]. unfold push_message.
  destruct (push P _ id m) as [[c' r] []]; simpl; [by rewrite Hs|done].
Qed.
Lemma unconnected_next_id : keeps unconnected next_proxy_id.
Proof. intros w [Hw Hs] _. unfold next_proxy_id. by destruct (reserve _). Qed.
Lemma unconnected_add_proxy id p : keeps unconnected (add_proxy id p).
Proof. intros w [Hw Hs] _. unfold add_proxy. by destruct (insert_at _ _ _) as [|[]|]. Qed.

Lemma set_stream_ok add w :
  unconnected w → client_inv (client_set_stream (I:=I) add w).1 ∧
  (add = false → unconnected (client_set_stream (I:=I) add w).1).
Proof.
  intros [[Hc Hst Hcon Hsrc Hq Hfl] Hs]. unfold client_set_stream, unconnected.
  assert (cl_connected (co_client w) = false) as Hnc.
  { destruct (cl_connected _); [|done]. destruct Hsrc as [_ [? ?]]; [done|congruence]. }
  destruct add; [split; [|done]|split; [|intros _; split; [|done]]].
  - split; simpl; try done; [by destruct Hc as [[] ?]; split; [split|]|]. by intros _ mask [= <-].
  - split; simpl; try done; [apply (fresh_conn_ok false)|]; rewrite Hs; (by intros []) || done.
  - split; simpl; try done; [apply (fresh_conn_ok false)|]; rewrite Hs; (by intros []) || done.
Qed.

(** A connection attempt leaves the client as it was, or with a stream. *)
Lemma try_connect_ok path name w :
  unconnected w →
  let '(w', r) := try_connect_local_socket (I:=I) sys path name w in
  client_inv w' ∧ ((∃ e, r = Err e) → w' = w).
Proof.
  intros Hw. unfold try_connect_local_socket, mbind, cm_bind, cm_res.
  destruct (unix_connect sys path name) as [[]|e|]; [|by split; [apply Hw|]|by split; [apply Hw|intros [? ?]]].
  unfold ignore_result. destruct (set_stream_ok (add_io sys) w Hw) as [Hok _].
  destruct (client_set_stream (add_io sys) w) as [w' [[]|e|]]; (split; [done|by intros [? ?]]).
Qed.

Lemma connect_ok props w : unconnected w → client_inv (connect_local_socket (I:=I) sys props w).1.
Proof.
  intros Hw. unfold connect_local_socket. destruct (_ || _).
  { pose proof (try_connect_ok None (remote_name sys props) w Hw) as Ht.
    destruct (try_connect_local_socket _ _ _ _). by destruct Ht. }
  destruct (env_runtime_dir sys) as [dir|].
  - pose proof (try_connect_ok (Some dir) (remote_name sys props) w Hw) as Ht.
    destruct (try_connect_local_socket sys (Some dir) _ _) as [w' [[]|e|]]; destruct Ht as [Hw' He]; [done| |done].
    rewrite He by eauto. pose proof (try_connect_ok (Some (bytes_of "/run/pipewire")) (remote_name sys props) w Hw) as Ht.
    destruct (try_connect_local_socket _ _ _ w). by destruct Ht.
  - pose proof (try_connect_ok (Some (bytes_of "/run/pipewire")) (remote_name sys props) w Hw) as Ht.
    destruct (try_connect_local_socket _ _ _ w). by destruct Ht.
Qed.

#[local] Hint Resolve unconnected_push unconnected_next_id unconnected_add_proxy : keeps.
(** The steps of [m] keep [Q], and what follows establishes [Q']. *)
Definition leads {A} (Q Q' : Core (I:=I) → Prop) (m : CM A) : Prop := ∀ w, Q w → (m w).2 ≠ Panic → Q' (m w).1.
Lemma leads_bind {A B} (Q Q' : Core (I:=I) → Prop) (m : CM A) (f : A → CM B) :
  (∀ w, Q w → Q' w) → keeps Q m → (∀ a, leads Q Q' (f a)) → leads Q Q' (m ≫= f).
Proof.
  intros HQ Hm Hf w Hw. unfold mbind, cm_bind. specialize (Hm w Hw).
  destruct (m w) as [w' [a|e|]]; simpl in *; [|by auto|done]. apply Hf. by apply Hm.
Qed.

Lemma core_init_ok props : leads unconnected client_inv (core_init (I:=I) sys props).
Proof.
  assert (∀ w, unconnected w → client_inv w) as Hq by by intros w [].
  unfold core_init, core_hello, client_update_properties, new_proxy.
  repeat (apply leads_bind; [done|solve [keeps_all]|intros]). intros w Hw _. by apply connect_ok.
Qed.
Lemma core_start_unconnected context : unconnected (Core_start (I:=I) context).
Proof. split; [apply client_new_ok|done]. Qed.
End connecting.

(** ** Runs of a client

    [Core::new], then calls of the application and calls of the I/O callback
    by the event loop, in any order, as long as none panics. *)
Section runs.
Context {I : Type} `{MemoryImporter I} (error_number : StdError → Z).
Context {K : Type} (recvmsg : K → Z → Z → K * RawRecv) (sendmsg : K → list byte → list byte → K * RawSend).
Context (take_error : K → StdRes (option StdError)).

Inductive reachable : Endpoint I K → Prop :=
| reach_new sys props context k w :
    core_init sys props (Core_start context) = (w, Ok tt) → reachable (mkEndpoint w k)
| reach_call call e e' r :
    reachable e → on_core (perform call) e = (e', r) → r ≠ Panic → reachable e'
| reach_importer i e : reachable e → reachable (on_core (set_memory_importer i) e).1
| reach_data turns fuel mask e e' r :
    reachable e → on_remote_data error_number recvmsg sendmsg take_error turns fuel mask e = (e', r) →
    r ≠ Panic → reachable e'.

Lemma reachable_ok `{!SocketLaws recvmsg, !SendSocket sendmsg} e : reachable e → endpoint_ok e.
Proof.
  induction 1 as [sys props context k w Hi|call e e' r _ IH Hc Hr|i e _ IH|turns fuel mask e e' r _ IH Hd Hr].
  - pose proof (core_init_ok sys props _ (core_start_unconnected (I:=I) context)) as Hok. rewrite Hi in Hok. by apply Hok.
  - pose proof (on_core_ok (perform call) e (client_perform call) IH) as Hok. rewrite Hc in Hok. by apply Hok.
  - by apply on_core_ok; [apply client_importer|..].
  - pose proof (on_remote_data_ok error_number recvmsg sendmsg take_error turns fuel mask e IH) as Hok.
    rewrite Hd in Hok. by apply Hok.
Qed.
End runs.
