(* ===== verification/CoreClientProps.v ===== *)
(** * Properties of a client

    What a client does with the frames it reads, with the frames it has
    queued and with errors, over whole runs
    ([pipewire/src/protocol/client.rs], [pipewire/src/core.rs]). *)

From S2P Require Import Prelude Utf8 PodTypes PodCodec PodLaws PodCompound PodParser PodParserLaws.
From S2P Require Import PodBuilder SpaParam Marshal MarshalLaws MarshalMessages FrameHeader.
From S2P Require Import FrameControl FrameRecv FrameRecvLaws FrameStream FrameSend FrameFuel FrameChannel.
From S2P Require Import ClientNode ClientNodeLaws InboundMessage Connection ConnectionProps Properties.
From S2P Require Import IdMap Demarshal DemarshalLaws CoreClient CoreClientLaws.

Create HintDb blind discriminated.
#[export] Hint Constants Opaque : blind.

(** ** Handling a frame does not depend on the receiver *)
Definition conn_with_receiver (r : FrameReceiver) (c : Connection) : Connection :=
  mkConnection (c_stream c) r (c_last_recv_generation c) (c_out_seq c) (c_sender c) (c_last_sent_generation c).
Definition with_receiver {I} (r : FrameReceiver) (w : Core (I:=I)) : Core :=
  with_client (with_connection (conn_with_receiver r)) w.
Definition receiver {I} (w : Core (I:=I)) : FrameReceiver := c_receiver (cl_connection (co_client w)).

Section blind.
Context {I : Type} `{MemoryImporter I}.
Notation Core := (Core (I:=I)).

Definition blind {A} (m : CM (I:=I) A) : Prop :=
  ∀ w r, m (with_receiver r w) = (with_receiver r (m w).1, (m w).2).

Lemma blind_ret {A} (a : A) : blind (mret a).
Proof. done. Qed.
Lemma blind_res {A} (r : StdRes A) : blind (cm_res r).
Proof. done. Qed.
Lemma blind_gets {A} (f : Core → A) : (∀ w r, f (with_receiver r w) = f w) → blind (gets f).
Proof. intros Hf w r. unfold gets. by rewrite Hf. Qed.
Lemma blind_modify (f : Core → Core) : (∀ w r, f (with_receiver r w) = with_receiver r (f w)) → blind (modify f).
Proof. intros Hf w r. unfold modify. by rewrite Hf. Qed.
Lemma blind_bind {A B} (m : CM A) (f : A → CM B) : blind m → (∀ a, blind (f a)) → blind (m ≫= f).
Proof.
  intros Hm Hf w r. unfold mbind, cm_bind. rewrite Hm. destruct (m w) as [w' [a|e|]]; [apply Hf|done..].
Qed.
Lemma blind_ignore {A} (m : CM A) : blind m → blind (ignore_result m).
Proof. intros Hm w r. unfold ignore_result. rewrite Hm. by destruct (m w) as [w' []]. Qed.
Lemma blind_push {M} (P : Marshallable M) id m : blind (push_message P id m).
Proof.
  intros w r. unfold push_message. change (cl_connection (co_client (with_receiver r w)))
    with (conn_with_receiver r (cl_connection (co_client w))).
  assert (push P (conn_with_receiver r (cl_connection (co_client w))) id m =
    let '(c, res, em) := push P (cl_connection (co_client w)) id m in (conn_with_receiver r c, res, em)) as ->.
  { unfold push, push_with_owned_fds, make_footer. cbn [c_last_recv_generation c_last_sent_generation c_out_seq
      c_sender c_stream c_receiver conn_with_receiver].
    destruct (_ ≫= _) as [f| |]; [|done..]. by destruct (enqueue _ _) as [s' []]. }
  destruct (push P (cl_connection (co_client w)) id m) as [[c res] []]; done.
Qed.
Lemma blind_accept seq (m : CM unit) : blind m → blind (accept seq m).
Proof. intros Hm w r. unfold accept. rewrite Hm. destruct (m w) as [w' [|e|]]; [reflexivity| |done]. cbn [fst snd]. by destruct (is_unsupported e). Qed.
Lemma blind_import id type_ fd flags : blind (import_memory id type_ fd flags).
Proof.
  intros w r. unfold import_memory. change (co_importer (with_receiver r w)) with (co_importer w).
  destruct (co_importer w); [|done]. by destruct (add_memory _ _ _ _ _).
Qed.
Lemma blind_forget id : blind (forget_memory id).
Proof.
  intros w r. unfold forget_memory. change (co_importer (with_receiver r w)) with (co_importer w).
  destruct (co_importer w); [|done]. by destruct (remove_memory _ _).
Qed.
Lemma blind_footer footer : blind (footer_handler footer).
Proof.
  apply blind_modify. intros w r. unfold with_receiver, with_client, with_connection. cbn. f_equal. f_equal.
  destruct footer as [[ps]|]; [|done]. simpl. generalize (cl_connection (co_client w)).
  induction ps as [|[g] ps IH]; intros c; simpl; [done|]. by rewrite <- IH.
Qed.
Lemma blind_emit o : blind (modify (emit o)).
Proof. by apply blind_modify. Qed.
Lemma blind_objects f : blind (modify (with_objects f)).
Proof. by apply blind_modify. Qed.
Lemma blind_context f : blind (modify (with_context f)).
Proof. by apply blind_modify. Qed.
Lemma blind_find id : blind (find_proxy id).
Proof. by apply blind_gets. Qed.
End blind.
#[export] Hint Resolve blind_ret blind_res blind_push blind_import blind_forget blind_footer : blind.
#[export] Hint Resolve blind_emit blind_objects blind_context blind_find : blind.

Ltac blind_step :=
  match goal with
  | |- blind _ => solve [auto with blind]
  | |- blind (mbind _ _) => apply blind_bind; [|intros]
  | |- blind (match ?x with _ => _ end) => destruct x
  | |- blind (accept _ _) => apply blind_accept
  | |- blind (ignore_result _) => apply blind_ignore
  end.
Ltac blind_all := repeat (intros; blind_step); auto with blind.

Section handling.
Context {I : Type} `{MemoryImporter I}.

Lemma blind_listener n : blind (I:=I) (core_listener n).
Proof. destruct n; simpl; unfold on_object, proxy_notify, blocked, core_pong, set_bound_id; blind_all. Qed.
#[local] Hint Resolve blind_listener : blind.
Lemma blind_notify id n : blind (I:=I) (notify_object id n).
Proof. destruct n; cbn [notify_object]; blind_all. Qed.
#[local] Hint Resolve blind_notify : blind.
Lemma blind_notify_all id ns : blind (I:=I) (notify_all id ns).
Proof. induction ns; cbn [notify_all]; blind_all. Qed.
#[local] Hint Resolve blind_notify_all : blind.
Lemma blind_frame f : blind (I:=I) (handle_frame f).
Proof. unfold handle_frame. blind_all. Qed.
End handling.

(** ** Reading the stream *)
Section reading.
Context {I : Type} `{MemoryImporter I} (error_number : StdError → Z).
Notation Core := (Core (I:=I)).

Definition streaming (w : Core) : Prop := c_stream (cl_connection (co_client w)) = true.

Lemma streaming_stable : stable streaming.
Proof.
  split; intros; try (by apply keeps_modify).
  - intros w Hw. unfold push_message, push, push_with_owned_fds.
    destruct (_ ≫= _) as [f| |]; [|done..]. by destruct (enqueue _ _) as [s' []].
  - intros w Hw _. unfold import_memory. destruct (co_importer w); [|done]. by destruct (add_memory _ _ _ _ _).
  - intros w Hw _. unfold forget_memory. destruct (co_importer w); [|done]. by destruct (remove_memory _ _).
  - apply keeps_modify. intros w Hw. unfold streaming in *. simpl.
    by destruct (update_generation_same (cl_connection (co_client w)) footer) as (_ & -> & _).
Qed.

(** What reading should amount to: the frames are handled one by one, up to
    the first error. *)
Fixpoint handle_all (fs : list ReceivedFrame) : CM (I:=I) unit :=
  match fs with [] => mret tt | f :: fs => handle_frame f;; handle_all fs end.
Definition read_spec (fs : list ReceivedFrame) : CM (I:=I) bool := λ w,
  match handle_all fs w with
  | (w, Ok _) => (w, Ok true)
  | (w, Err e) =>
      if is_eagain e then (w, Ok true)
      else (on_connection_error error_number e msg_read;; mret false) w
  | (w, Panic) => (w, Panic)
  end.

Context {K : Type} (recvmsg : K → Z → Z → K * RawRecv) `{!StreamSocket recvmsg}.

(** [fs] has arrived, and at most a part of what follows, which begins with
    [g]. *)
Record arrived (fs : list SentFrame) (g : SentFrame) (w : Core) (k : K) : Prop := {
  ar_stream : stream_inv recvmsg (fs ++ [g]) (receiver w) k;
  ar_open : streaming w;
  ar_bytes : len (concat (frame_bytes <$> fs)) ≤ len (bytes (receiver w)) + len (unread k)
    < len (concat (frame_bytes <$> fs)) + len (frame_bytes g);
}.

Lemma receive_eq fuel k r fs :
  stream_inv recvmsg fs r k → receive recvmsg fuel k r = receive_loop recvmsg fuel k r.
Proof. intros Hs. destruct (si_live _ _ _ _ Hs). unfold receive. by destruct (state r). Qed.

Lemma process_next f fs g w k fuel :
  arrived (f :: fs) g w k → (retries k < fuel)%nat →
  ∃ k' r', (retries k' ≤ retries k)%nat ∧ arrived fs g (with_receiver r' w) k' ∧
    process_messages recvmsg fuel (mkEndpoint w k) =
      on_core (handle_frame (delivered f)) (mkEndpoint (with_receiver r' w) k') ∧
    bytes (receiver w) ++ unread k = frame_bytes f ++ bytes r' ++ unread k'.
Proof.
  intros [Hs Ho Hb] Hf. destruct (receive_loop_stream recvmsg f (fs ++ [g]) fuel k (receiver w) Hs Hf)
    as (k' & r' & Hret & Hr).
  rewrite fmap_cons in Hb. cbn [concat] in Hb. rewrite len_app in Hb.
  pose proof (len_nonneg (concat (frame_bytes <$> fs))).
  rewrite bool_decide_eq_true_2 in Hr by lia. destruct Hr as (Hr & Hs' & Hbytes).
  exists k', r'. split; [done|]. split.
  - split; [done|done|]. apply (f_equal len) in Hbytes. rewrite !len_app in Hbytes.
    change (receiver (with_receiver r' w)) with r'. lia.
  - split; [|done]. unfold process_messages, receive_frame. cbn [ep_core ep_sock]. rewrite Ho.
    fold (receiver w). rewrite (receive_eq _ _ _ _ Hs), Hr. cbn [map_err]. res_cbn.
    f_equal. unfold with_receiver, set_connection, conn_with_receiver, with_client, with_connection. cbn.
    unfold streaming in Ho. by rewrite Ho.
Qed.

Lemma process_blocks g w k fuel :
  arrived [] g w k → (retries k < fuel)%nat →
  ∃ k' r', process_messages recvmsg fuel (mkEndpoint w k) = (mkEndpoint (with_receiver r' w) k', Err (RawOs EAGAIN)) ∧
    stream_inv recvmsg [g] r' k' ∧ bytes (receiver w) ++ unread k = bytes r' ++ unread k'.
Proof.
  intros [Hs Ho Hb] Hf. destruct (receive_loop_stream recvmsg g [] fuel k (receiver w) Hs Hf)
    as (k' & r' & Hret & Hr). change (len (concat (frame_bytes <$> []))) with 0 in Hb.
  rewrite bool_decide_eq_false_2 in Hr by lia. destruct Hr as (Hr & Hs' & Hbytes).
  exists k', r'. split; [|done]. unfold process_messages, receive_frame. cbn [ep_core ep_sock]. rewrite Ho.
  fold (receiver w). rewrite (receive_eq _ _ _ _ Hs), Hr. cbn [map_err]. res_cbn.
  do 2 f_equal. unfold with_receiver, set_connection, conn_with_receiver, with_client, with_connection. cbn.
  unfold streaming in Ho. by rewrite Ho.
Qed.

Lemma blind_all_frames fs : blind (handle_all fs).
Proof.
  induction fs as [|f fs IH]; cbn [handle_all]; [by apply blind_ret|].
  apply blind_bind; [apply blind_frame|done].
Qed.

Lemma with_receiver_twice (r r' : FrameReceiver) (w : Core) : with_receiver r' (with_receiver r w) = with_receiver r' w.
Proof. done. Qed.
Lemma with_receiver_same (w : Core) : with_receiver (receiver w) w = w.
Proof. by destruct w as [[[] ? ? ? ? ?] ? ? ? ? ?]. Qed.

Lemma read_spec_receiver fs w r r' :
  with_receiver r' (read_spec fs (with_receiver r w)).1 = with_receiver r' (read_spec fs w).1 ∧
  (read_spec fs (with_receiver r w)).2 = (read_spec fs w).2.
Proof.
  unfold read_spec. rewrite (blind_all_frames fs w r). destruct (handle_all fs w) as [w' [[]|e|]]; cbn [fst snd]; try done.
  destruct (is_eagain e); [done|]. unfold on_connection_error, clear_connection, mbind, cm_bind. cbn.
  by destruct (cl_connected _).
Qed.

Lemma handle_all_cons f fs w w1 : handle_frame f w = (w1, Ok tt) → handle_all (f :: fs) w = handle_all fs w1.
Proof. intros Hh. cbn [handle_all]. unfold mbind, cm_bind. by rewrite Hh. Qed.
Lemma read_spec_cons f fs w w1 : handle_frame f w = (w1, Ok tt) → read_spec (f :: fs) w = read_spec fs w1.
Proof. intros Hh. unfold read_spec. by rewrite (handle_all_cons _ _ _ _ Hh). Qed.
Lemma read_spec_err f fs w w1 e :
  handle_frame f w = (w1, Err e) →
  read_spec (f :: fs) w = (if is_eagain e then (w1, Ok true)
    else (on_connection_error error_number e msg_read;; mret false) w1) ∧
  handle_all (f :: fs) w = (w1, Err e).
Proof. intros Hh. unfold read_spec. cbn [handle_all]. assert ((handle_frame f;; handle_all fs) w = (w1, Err e)) as ->; [|done]. unfold mbind, cm_bind. by rewrite Hh. Qed.

Lemma read_loop_frames fs g w k turns fuel :
  arrived fs g w k → (retries k < fuel)%nat → (length fs < turns)%nat →
  ∃ k' r', read_loop error_number recvmsg turns fuel (mkEndpoint w k)
      = (mkEndpoint (with_receiver r' (read_spec (delivered <$> fs) w).1) k', (read_spec (delivered <$> fs) w).2) ∧
    ((handle_all (delivered <$> fs) w).2 = Ok tt →
     arrived [] g (with_receiver r' (read_spec (delivered <$> fs) w).1) k' ∧
     bytes (receiver w) ++ unread k = concat (frame_bytes <$> fs) ++ bytes r' ++ unread k').
Proof.
  revert w k turns. induction fs as [|f fs IH]; intros w k [|turns] Ha Hf Ht; try (simpl in Ht; lia).
  - destruct (process_blocks g w k fuel Ha Hf) as (k' & r' & Hp & Hs & Hb). exists k', r'.
    cbn [read_loop]. rewrite Hp. split; [done|]. intros _. split; [|done]. destruct Ha as [_ Ho Hl].
    split; [done|done|]. apply (f_equal len) in Hb. rewrite !len_app in Hb.
    change (receiver (with_receiver r' (read_spec (delivered <$> []) w).1)) with r'. lia.
  - destruct (process_next f fs g w k fuel Ha Hf) as (k1 & r1 & Hret & Ha1 & Hp & Hb1).
    cbn [read_loop]. rewrite Hp. unfold on_core. cbn [ep_core ep_sock]. rewrite blind_frame, fmap_cons.
    pose proof (stable_frame streaming streaming_stable (delivered f) w (ar_open _ _ _ _ Ha)) as Hst.
    destruct (handle_frame (delivered f) w) as [w1 [[]|e|]] eqn:Hh; cbn [fst snd] in *.
    + rewrite (read_spec_cons _ _ _ _ Hh), (handle_all_cons _ _ _ _ Hh).
      destruct (IH (with_receiver r1 w1) k1 turns) as (k' & r' & Hr & Hrest); [|lia|simpl in Ht; lia|].
      { destruct Ha1. split; [done|by apply Hst|done]. }
      destruct (read_spec_receiver (delivered <$> fs) w1 r1 r') as [H1 H2]. rewrite H1, H2 in *.
      exists k', r'. split; [done|]. rewrite (blind_all_frames _ w1 r1) in Hrest. intros Hok.
      destruct (Hrest Hok) as [? Hb2]. split; [done|]. rewrite Hb1, fmap_cons. cbn [concat]. rewrite <- app_assoc.
      by f_equal.
    + destruct (read_spec_err _ (delivered <$> fs) _ _ _ Hh) as [-> ->]. destruct (is_eagain e); [by exists k1, r1|].
      unfold on_connection_error, clear_connection, mbind, cm_bind. cbn.
      destruct (cl_connected _); (exists k1, (FrameReceiver_new FrameLimits_default); by split).
    + unfold read_spec. cbn [handle_all]. unfold mbind, cm_bind. rewrite Hh. by exists k1, r1.
Qed.
End reading.

(** ** Examples

    A memory importer, a host that accepts the connection, and a socket made
    of a queue of segments to read and a pipe to write. *)
Module Sample.
#[global] Instance importer : MemoryImporter (list Z) := {|
  add_memory l id _ _ _ := (id :: l, Ok tt);
  remove_memory l id := (filter (λ x, x ≠ id) l, Ok tt);
|}.
Definition host : Host := mkHost (λ _ _, Ok tt) true None None.
Definition error_number (_ : StdError) : Z := 0.
Definition Socket : Type := SegmentQueue.Queue * Pipe.Pipe.
Definition recvmsg (k : Socket) (n c : Z) : Socket * RawRecv :=
  let '(q, r) := SegmentQueue.recvmsg k.1 n c in ((q, k.2), r).
Definition sendmsg (k : Socket) (data control : list byte) : Socket * RawSend :=
  let '(p, r) := Pipe.sendmsg k.2 data control in ((k.1, p), r).
Definition take_error (_ : Socket) : StdRes (option StdError) := Ok None.

#[global, refine] Instance stream_socket : StreamSocket recvmsg :=
  {| unread k := unread k.1; rights k := rights k.1; retries k := retries k.1 |}.
Proof.
  intros k n c Hn Hc. unfold recvmsg. pose proof (stream_recv (recvmsg:=SegmentQueue.recvmsg) k.1 n c Hn Hc) as Hr.
  by destruct (SegmentQueue.recvmsg k.1 n c) as [q [[]|]].
Defined.
#[global, refine] Instance socket_laws : SocketLaws recvmsg := {| signals k := signals k.1 |}.
Proof.
  all: intros k n c; unfold recvmsg; destruct (SegmentQueue.recvmsg k.1 n c) as [q r] eqn:Hr.
  - intros k' [= <- ->]. exact (signals_interrupted _ _ _ _ Hr).
  - pose proof (signals_left k.1 n c) as Hs. by rewrite Hr in Hs.
  - intros k' control flags Hn [= <- ->]. exact (eof_no_control _ _ _ _ _ _ Hn Hr).
Defined.
#[global, refine] Instance send_socket : SendSocket sendmsg :=
  {| sent_bytes k := sent_bytes k.2; sent_rights k := sent_rights k.2; interruptions k := interruptions k.2 |}.
Proof.
  intros k data control fds Hp. unfold sendmsg. pose proof (send_law (sendmsg:=Pipe.sendmsg) k.2 data control fds Hp) as Hl.
  by destruct (Pipe.sendmsg k.2 data control) as [p []].
Defined.

(** A client that has connected: it has queued [hello] and its properties. *)
Definition core : Core (I:=list Z) := (core_init host [] (Core_start ∅)).1.
Lemma core_connected : core_init host [] (Core_start ∅) = (core, Ok tt).
Proof. apply injective_projections; [done|by vm_compute]. Qed.

(** Events of the server for Core: a ping, then [done]. *)
Definition event_frame (e : CoreEvents) (seq : Z) : SentFrame :=
  let '(data, r) := m_encode CoreEvents_marshal e (zeros 64) in
  let payload := take (Z.to_nat (match r with Ok n => n | _ => 0 end)) data in
  mkSent (mkHeader 0 (msg_opcode CoreEvents_marshal e) (len payload) seq 0) payload [].
Definition ping : SentFrame := event_frame (CoreEvents_Ping (mkCorePing 0 7)) 1.
Definition done_ : SentFrame := event_frame (CoreEvents_Done (mkCoreDone 1 5)) 2.
(** The ping in two pieces, and a part of [done]. *)
Definition inbox : Socket :=
  match frame_bytes ping, frame_bytes done_ with
  | b :: bs, b' :: bs' =>
      match drop 9 bs with
      | b'' :: bs'' => ([(b, take 9 bs, []); (b'', bs'' ++ b' :: take 19 bs', [])], Pipe.mkPipe [] [] [100; 0; 30])
      | [] => ([], Pipe.mkPipe [] [] [])
      end
  | _, _ => ([], Pipe.mkPipe [] [] [])
  end.
Lemma inbox_arrived : arrived recvmsg [ping] done_ core inbox.
Proof.
  split; [|by vm_compute|by vm_compute].
  assert (receiver core = FrameReceiver_new FrameLimits_default) as -> by by vm_compute.
  apply (stream_start recvmsg FrameLimits_default [ping; done_] inbox (drop 20 (frame_bytes done_)) []).
  - apply default_limits_ok.
  - repeat constructor; by vm_compute.
  - by vm_compute.
  - by vm_compute.
  - by vm_compute.
  - by vm_compute.
  - constructor.
  - repeat constructor; by vm_compute.
Qed.
End Sample.

(** ** Properties *)

(** C6: reading is handling the frames in order. Let the peer's stream hold
    the frames [fs] and a part of a next one, cut into reads and interrupted
    in any way. The loop of the I/O callback ends, and leaves the client as
    if each frame had been handled in turn, up to the first error, which
    clears the connection; only what the receiver has buffered may differ.
    If all were handled, the part of the next frame is kept, so that the same
    holds again when the rest arrives. *)
Theorem read_loop_refines {I} `{MemoryImporter I} (error_number : StdError → Z) {K}
    (recvmsg : K → Z → Z → K * RawRecv) `{!StreamSocket recvmsg}
    (fs : list SentFrame) (g : SentFrame) (w : Core (I:=I)) (k : K) (turns fuel : nat) :
  arrived recvmsg fs g w k → (retries k < fuel)%nat → (length fs < turns)%nat →
  ∃ k' r', read_loop error_number recvmsg turns fuel (mkEndpoint w k)
      = (mkEndpoint (with_receiver r' (read_spec error_number (delivered <$> fs) w).1) k',
         (read_spec error_number (delivered <$> fs) w).2) ∧
    ((handle_all (delivered <$> fs) w).2 = Ok tt →
     arrived recvmsg [] g (with_receiver r' (read_spec error_number (delivered <$> fs) w).1) k' ∧
     bytes (receiver w) ++ unread k = concat (frame_bytes <$> fs) ++ bytes r' ++ unread k').
Proof. apply read_loop_frames. Qed.

(** The ping is answered: a third frame is in the queue. *)
Lemma read_loop_refines_witness :
  ∃ e', read_loop Sample.error_number Sample.recvmsg 2 200 (mkEndpoint Sample.core Sample.inbox) = (e', Ok true) ∧
    length (queue (c_sender (cl_connection (co_client (ep_core e'))))) = 3%nat.
Proof.
  destruct (read_loop_refines Sample.error_number Sample.recvmsg [Sample.ping] Sample.done_ Sample.core Sample.inbox 2 200)
    as (k' & r' & Hr & _).
  - apply Sample.inbox_arrived.
  - vm_compute. lia.
  - simpl. lia.
  - eexists. rewrite Hr. split; [f_equal; by vm_compute|]. by vm_compute.
Defined.

(** C27: no queued frame is forgotten. In every state a client can reach by
    calls of the application and of the event loop, whatever the server
    sends, the socket is set exactly if the client is connected, and then the
    loop has its source; if a frame is queued, a flush is due and that source
    waits for the socket to be writable. *)
Theorem no_lost_flush {I} `{MemoryImporter I} (error_number : StdError → Z) {K}
    (recvmsg : K → Z → Z → K * RawRecv) (sendmsg : K → list byte → list byte → K * RawSend)
    (take_error : K → StdRes (option StdError)) `{!SocketLaws recvmsg, !SendSocket sendmsg} (e : Endpoint I K) :
  reachable error_number recvmsg sendmsg take_error e →
  let c := co_client (ep_core e) in
  (cl_stream c = cl_connected c ∧ c_stream (cl_connection c) = cl_connected c) ∧
  (queue (c_sender (cl_connection c)) ≠ [] → cl_need_flush c = true) ∧
  match cl_source c with
  | Some mask => cl_connected c = true ∧ (cl_need_flush c = true → Z.land mask IO_OUT = IO_OUT)
  | None => cl_connected c = false
  end.
Proof.
  intros Hr. destruct (reachable_ok _ _ _ _ _ Hr) as [Hc Hs Hcon Hsrc Hq Hfl]. cbv zeta. split; [split; congruence|]. split; [done|].
  destruct (cl_source _) as [mask|] eqn:Hm.
  - split; [by apply Hsrc|]. intros Hn. by apply Hfl.
  - destruct (cl_connected _); [|done]. by destruct Hsrc as [_ [? ?]].
Qed.

Lemma no_lost_flush_witness :
  let e := (on_remote_data Sample.error_number Sample.recvmsg Sample.sendmsg Sample.take_error 2 400 IO_IN
    (mkEndpoint Sample.core Sample.inbox)).1 in
  let c := co_client (ep_core e) in
  cl_connected c = true ∧ (queue (c_sender (cl_connection c)) ≠ [] → cl_need_flush c = true).
Proof.
  intros e c.
  assert (reachable Sample.error_number Sample.recvmsg Sample.sendmsg Sample.take_error e) as Hr.
  { eapply reach_data; [eapply reach_new, Sample.core_connected|apply surjective_pairing|].
    assert ((on_remote_data Sample.error_number Sample.recvmsg Sample.sendmsg Sample.take_error 2 400 IO_IN
      (mkEndpoint Sample.core Sample.inbox)).2 = Ok tt) as -> by by vm_compute. done. }
  destruct (no_lost_flush _ _ _ _ e Hr) as (_ & Hq & _). split; [by vm_compute|exact Hq].
Defined.

(** What is left of a client after an error or a disconnect. *)
Definition cleared : Client := Client_new.

(** a writable socket is written to. When the loop finds the socket of a
    connected client writable, either everything that was queued goes out, in
    order, and the loop stops waiting for the socket; or the socket takes a
    part, the rest stays queued and the loop keeps waiting; or sending fails,
    and then the connection is cleared and Core's listeners are told once. *)
Lemma flush_outcome {I} `{MemoryImporter I} (error_number : StdError → Z) {K}
    (recvmsg : K → Z → Z → K * RawRecv) (sendmsg : K → list byte → list byte → K * RawSend)
    (take_error : K → StdRes (option StdError)) `{!SocketLaws recvmsg, !SendSocket sendmsg}
    (turns fuel : nat) (e : Endpoint I K) (mask : Z) :
  let c := co_client (ep_core e) in
  let q := queue (c_sender (cl_connection c)) in
  reachable error_number recvmsg sendmsg take_error e → cl_source c = Some mask → take_error (ep_sock e) = Ok None →
  (interruptions (ep_sock e) + length (queue_left q) < fuel)%nat →
  let '(e', r) := on_remote_data error_number recvmsg sendmsg take_error turns fuel IO_OUT e in
  let c' := co_client (ep_core e') in
  let q' := queue (c_sender (cl_connection c')) in
  r = Ok tt ∧
  ((q' = [] ∧ cl_need_flush c' = false ∧ cl_source c' = Some (Z.ldiff mask IO_OUT) ∧
    sent_bytes (ep_sock e') = sent_bytes (ep_sock e) ++ queue_left q ∧ co_out (ep_core e') = co_out (ep_core e)) ∨
   (cl_need_flush c' = true ∧ cl_source c' = Some mask ∧ Z.land mask IO_OUT = IO_OUT ∧
    sent_bytes (ep_sock e') ++ queue_left q' = sent_bytes (ep_sock e) ++ queue_left q ∧
    co_out (ep_core e') = co_out (ep_core e)) ∨
   (c' = cleared ∧ ∃ res, co_out (ep_core e') = co_out (ep_core e) ++ [OProxy 0 (PeError (cl_last_in_seq c) res msg_flush)])).
Proof.
  intros c q Hreach Hsrc Hte Hfuel. pose proof (reachable_ok _ _ _ _ _ Hreach) as [Hc Hs Hcon Hiff Hq Hfl].
  fold c in Hc, Hs, Hcon, Hiff, Hq, Hfl. fold q in Hq.
  assert (cl_stream c = true) as Hst by (rewrite <- Hcon; apply Hiff; eauto).
  unfold on_remote_data. change (intersects IO_OUT (Z.lor IO_IN IO_HUP)) with false.
  change (intersects IO_OUT (Z.lor IO_ERR IO_HUP)) with false. change (Z.land IO_OUT IO_OUT =? IO_OUT) with true.
  cbn [orb]. cbv iota.
  unfold flush_remote. cbn [ep_core ep_sock co_client with_client cl_stream with_flush cl_connection].
  fold c. rewrite Hst, Hte. unfold conn_flush. rewrite <- Hs, Hst.
  pose proof (flush_total sendmsg fuel (ep_sock e) (c_sender (cl_connection c)) (ci_send _ Hc) (ci_fds _ Hc) Hfuel) as Ht.
  pose proof (flush_ends sendmsg fuel (ep_sock e) _ (ci_send _ Hc) (ci_fds _ Hc) Ht) as Hf.
  pose proof (flush_blocked sendmsg fuel (ep_sock e) (c_sender (cl_connection c))) as Hb.
  pose proof (flush_err sendmsg fuel (ep_sock e) (c_sender (cl_connection c))) as He.
  destruct (flush _ _ _ _) as [[k s'] res]. cbn [fst snd] in *. destruct Hf as (_ & _ & Hd & Ho).
  destruct res as [[]|err|]; cbn [map_err] in *; [| | |done]; res_cbn.
  - split; [done|left]. cbn. fold c. rewrite Hsrc, Hd by done. split_and!; try done.
    unfold q. rewrite <- (Ho _ eq_refl), Hd by done. by rewrite app_nil_r.
  - split; [done|right; left]. cbn. fold c. rewrite Hsrc. split_and!; try done; [|by apply (Ho _ eq_refl)].
    apply Hfl; [|done]. apply Hq, (Hb eq_refl).
  - rewrite is_eagain_frame by congruence. unfold on_core, on_connection_error, clear_connection, mbind, cm_bind. cbn.
    fold c. rewrite Hcon, Hst. cbn. split; [done|right; right]. split; [done|]. by eexists.
Qed.

#[local] Notation flushed_sample := (on_remote_data Sample.error_number Sample.recvmsg Sample.sendmsg
  Sample.take_error 1 400 IO_OUT (mkEndpoint Sample.core Sample.inbox)).
Lemma flush_outcome_witness :
  flushed_sample.2 = Ok tt ∧ cl_need_flush (co_client (ep_core flushed_sample.1)) = true ∧
  len (sent_bytes (ep_sock flushed_sample.1)) = 70.
Proof.
  assert (len (sent_bytes (ep_sock flushed_sample.1)) = 70 ∧
    cl_need_flush (co_client (ep_core flushed_sample.1)) = true) as [Hl Hn] by (split; by vm_compute).
  pose proof (flush_outcome Sample.error_number Sample.recvmsg Sample.sendmsg Sample.take_error 1 400
    (mkEndpoint Sample.core Sample.inbox) IO_all) as H.
  cbv zeta in H. specialize (H ltac:(eapply reach_new, Sample.core_connected) ltac:(by vm_compute) eq_refl
    ltac:(vm_compute; lia)).
  destruct flushed_sample as [e' r]. destruct H as [-> _]. done.
Defined.

Lemma connection_error_eq {I} `{MemoryImporter I} error_number err msg (w : Core (I:=I)) :
  on_connection_error error_number err msg w =
    (mkCore cleared (co_objects w) (co_destroyed w) (co_importer w) (co_context w)
       (co_out w ++ (if cl_connected (co_client w)
          then [OProxy 0 (PeError (cl_last_in_seq (co_client w)) (connection_res error_number err) msg)] else [])), Ok tt).
Proof.
  unfold on_connection_error, clear_connection, mbind, cm_bind. cbn.
  destruct (cl_connected _); cbn; [done|]. by rewrite app_nil_r.
Qed.

(** The loop goes on unless it has reported an error. *)
Lemma read_loop_stops {I} `{MemoryImporter I} error_number {K} (recvmsg : K → Z → Z → K * RawRecv) turns fuel
    (e : Endpoint I K) :
  match read_loop error_number recvmsg turns fuel e with
  | (e1, Ok false) => co_client (ep_core e1) = cleared
  | (_, Err _) => False
  | _ => True
  end.
Proof.
  revert e. induction turns as [|turns IH]; intros e; [done|]. cbn [read_loop].
  destruct (process_messages recvmsg fuel e) as [e2 [[]|err|]]; [apply IH| |done].
  destruct (is_eagain err); [done|]. unfold on_core. by rewrite connection_error_eq.
Qed.

(** a lost connection is reported once. Whatever events came before it,
    a hang-up or an error on the socket leaves the client as it was before it
    connected: no stream, no source, nothing queued, nothing buffered, the
    sequence numbers and generations at their start. Any further connection
    error changes nothing and notifies no one. *)
Lemma hangup_final {I} `{MemoryImporter I} (error_number : StdError → Z) {K}
    (recvmsg : K → Z → Z → K * RawRecv) (sendmsg : K → list byte → list byte → K * RawSend)
    (take_error : K → StdRes (option StdError))
    (turns fuel : nat) (mask : Z) (e e' : Endpoint I K) (r : StdRes unit) :
  intersects mask (Z.lor IO_ERR IO_HUP) = true →
  on_remote_data error_number recvmsg sendmsg take_error turns fuel mask e = (e', r) → r ≠ Panic →
  co_client (ep_core e') = cleared ∧
  ∀ err msg, on_connection_error error_number err msg (ep_core e') = (ep_core e', Ok tt).
Proof.
  intros Hm Hd Hr.
  assert (co_client (ep_core e') = cleared) as Hc.
  { unfold on_remote_data in Hd. rewrite Hm in Hd. pose proof (read_loop_stops error_number recvmsg turns fuel e) as Hread.
    destruct (intersects mask (Z.lor IO_IN IO_HUP)).
    - destruct (read_loop error_number recvmsg turns fuel e) as [e1 [[]|err|]]; try done; [|by simplify_eq..].
      unfold on_core in Hd. rewrite connection_error_eq in Hd. by simplify_eq.
    - unfold on_core in Hd. rewrite connection_error_eq in Hd. by simplify_eq. }
  split; [done|]. intros err msg. rewrite connection_error_eq, Hc. cbn. rewrite app_nil_r.
  destruct e' as [[] ?]. simpl in *. by subst.
Qed.

Lemma hangup_final_witness :
  co_client (ep_core (on_remote_data Sample.error_number Sample.recvmsg Sample.sendmsg Sample.take_error 2 400
    (Z.lor IO_IN IO_HUP) (mkEndpoint Sample.core Sample.inbox)).1) = cleared.
Proof.
  eapply (hangup_final Sample.error_number Sample.recvmsg Sample.sendmsg Sample.take_error 2 400 (Z.lor IO_IN IO_HUP)
    (mkEndpoint Sample.core Sample.inbox)).
  - done.
  - apply surjective_pairing.
  - assert ((on_remote_data Sample.error_number Sample.recvmsg Sample.sendmsg Sample.take_error 2 400
      (Z.lor IO_IN IO_HUP) (mkEndpoint Sample.core Sample.inbox)).2 = Ok tt) as -> by by vm_compute. done.
Defined.
