(* ===== verification/CoreClientSafe.v ===== *)
(** * Which frames a client survives

    A server may send anything. The only frames that stop a client are those
    with a negative item count, with a link state or port direction it does
    not know, and the removal of Core itself
    ([pipewire/src/protocol/client.rs], [pipewire/src/core.rs]). *)

From S2P Require Import Prelude Utf8 PodTypes PodCodec PodLaws PodCompound PodParser PodParserLaws.
From S2P Require Import PodBuilder SpaParam Marshal MarshalLaws MarshalMessages FrameHeader.
From S2P Require Import FrameControl FrameRecv FrameRecvLaws FrameStream FrameSend FrameFuel FrameChannel.
From S2P Require Import ClientNode ClientNodeLaws InboundMessage Connection ConnectionProps Properties.
From S2P Require Import IdMap Demarshal DemarshalLaws CoreClient CoreClientLaws CoreClientProps.

(** ** Which frames panic *)

(** The notification that removes Core itself: its listener holds the table
    of objects while it notifies [removed], which takes it again. *)
Definition removes_core (op : Z) (payload : list byte) : Prop :=
  ∃ rem footer, inbound_decode CoreEvents_marshal op payload = Ok (CoreEvents_RemoveId rem, footer) ∧
    as_u32 (core_remove_id_id rem) = 0.

(** The demarshallers of the other interfaces do not notify it. *)
Lemma other_notification n : (∀ id, n ≠ NCoreRemoveId id) → NCoreRemoveId 0 ∉ [n].
Proof. intros Hn. rewrite list_elem_of_singleton. naive_solver. Qed.
Lemma no_notification : NCoreRemoveId 0 ∉ ([] : list Notification).
Proof. set_solver. Qed.
Ltac other_events :=
  simplify_eq/=; try (right; split; [first [apply no_notification|by apply other_notification]|naive_solver]).

Lemma demarshal_removes i op payload fds footer fds' ns r :
  demarshal i op payload fds = (footer, (fds', ns, r)) →
  ns = [NCoreRemoveId 0] ∧ i = ICore ∧ removes_core op payload ∨
  NCoreRemoveId 0 ∉ ns ∧ ¬ (i = ICore ∧ removes_core op payload).
Proof.
  destruct i; cbn [demarshal]; unfold demarshal_with; intros Hd.
  3: { unfold client_node_demarshal in Hd.
    destruct (decode_client_node_event op payload fds) as [? [[ev ft]| |]]; other_events. }
  all: unfold removes_core; destruct (inbound_decode _ _ _) as [[[] ft]|e|]; try other_events.
  - destruct (decide (as_u32 (core_remove_id_id o) = 0)) as [Hz|Hz].
    + left. rewrite Hz. split_and!; [done|done|by eexists _, _].
    + right. rewrite list_elem_of_singleton. split; [congruence|naive_solver].
  - destruct (add_mem_fd_index _) as [ix| |]; other_events. destruct (inbound_take_fd _ _) as [? []]; other_events.
  - destruct (_ ≫= _) as [[? ?]| |]; other_events.
  - destruct (unwrap_u32 _); other_events.
  - destruct (pop_struct _ _).2 as [[[samples r'] ?]| |]; other_events.
    right. split; [|naive_solver]. intros (? & ? & ?)%list_elem_of_fmap. done.
Qed.

Lemma unknown_silent i op payload fds footer fds' ns :
  demarshal i op payload fds = (footer, (fds', ns, Panic)) → unknown_value op payload i → ns = [].
Proof.
  intros Hd Hu. destruct Hu as [info ft Hi _|info ft Hi _]; cbn [demarshal] in Hd; unfold demarshal_with in Hd;
    rewrite Hi in Hd; simpl in Hd.
  - destruct (_ ≫= _) as [[? ?]| |]; by simplify_eq.
  - destruct (unwrap_u32 _); by simplify_eq.
Qed.

Section frames.
Context {I : Type} `{MemoryImporter I}.
(** The importer returns, whatever it is asked. *)
Context (importer_total : ∀ (i : I) id type_ fd flags,
  (add_memory i id type_ fd flags).2 ≠ Panic ∧ (remove_memory i id).2 ≠ Panic).
Notation Core := (Core (I:=I)).

Lemma pong_total id seq (w : Core) : client_inv w → (core_pong id seq w).2 ≠ Panic.
Proof.
  intros Hw. unfold core_pong, push_message, push.
  pose proof (push_spec CoreMethods_marshal (cl_connection (co_client w)) 0
    (CoreMethods_Pong (mkCorePong (swrap 32 id) (swrap 32 seq))) []) as Hp.
  destruct (push_with_owned_fds _ _ _ _ _) as [[c r] em]. simpl. intros ->. apply Hp; [apply Hw| |apply no_fds_ok].
  cbn. rewrite !prim_wire_len. split; [|by vm_compute]. split_and!; [apply i32_of_u32_range..|done].
Qed.

Lemma listener_panics n (w : Core) :
  client_inv w → (core_listener n w).2 = Panic ↔ n = NCoreRemoveId 0 ∧ get (co_objects w) 0 ≠ None.
Proof.
  intros Hw. assert (∀ id k, (∀ w', (k w').2 ≠ Panic) → (on_object id k w).2 ≠ Panic) as Hob.
  { intros id k Hk. unfold on_object, find_proxy, gets, mbind, cm_bind. by destruct (get _ _). }
  destruct n; cbn [core_listener];
    try match goal with |- (mret tt w).2 = _ ↔ _ => split; [done|by intros [? _]] end.
  - split; [|by intros [? _]]. by destruct (pci_props info).
  - split; [|by intros [? _]]. by intros Hp%Hob.
  - split; [|by intros [? _]]. unfold ignore_result. pose proof (pong_total id seq w Hw) as Hp.
    by destruct (core_pong id seq w) as [w' []].
  - split; [|by intros [? _]]. by intros Hp%Hob.
  - unfold on_object, find_proxy, gets, mbind, cm_bind. destruct (get (co_objects w) id) as [p|] eqn:Hg.
    + unfold proxy_notify, modify. simpl. case_bool_decide as Hz; simpl; [|naive_solver].
      subst. split; [|done]. intros _. split; [done|congruence].
    + split; [done|]. intros [[= ->] Hn]. congruence.
  - split; [|by intros [? _]]. by intros Hp%Hob.
  - split; [|by intros [? _]]. by intros Hp%Hob.
Qed.

Lemma notify_panics id n (w : Core) :
  client_inv w → (notify_object id n w).2 = Panic ↔ n = NCoreRemoveId 0 ∧ get (co_objects w) 0 ≠ None.
Proof.
  intros Hw. assert (∀ n, (((modify (emit (OObject id n));; core_listener n) : CM unit) w).2 = Panic ↔
    n = NCoreRemoveId 0 ∧ get (co_objects w) 0 ≠ None) as Hl.
  { intros m. exact (listener_panics m (emit (OObject id m) w) Hw). }
  destruct n; try apply Hl; cbn [notify_object].
  - split; [|by intros [? _]]. unfold import_memory. destruct (co_importer w) as [i|]; [|done].
    destruct (importer_total i id0 type_ fd flags) as [Ha _]. by destruct (add_memory _ _ _ _ _).
  - split; [|by intros [? _]]. unfold forget_memory. destruct (co_importer w) as [i|]; [|done].
    destruct (importer_total i id0 0 0 0) as [_ Ha]. by destruct (remove_memory _ _).
Qed.

Lemma notify_all_calm id ns (w : Core) :
  client_inv w → NCoreRemoveId 0 ∉ ns → (notify_all id ns w).2 ≠ Panic.
Proof.
  revert w. induction ns as [|n ns IH]; intros w Hw Hns; cbn [notify_all]; [done|].
  unfold mbind, cm_bind. pose proof (notify_panics id n w Hw) as Hn.
  pose proof (stable_notify client_inv client_stable id n w Hw) as Hk.
  assert (NCoreRemoveId 0 ∉ ns ∧ n ≠ NCoreRemoveId 0) as [Hout' Hne] by set_solver.
  destruct (notify_object id n w) as [w' [[]|e|]]; cbn [fst snd] in *; [|naive_solver..].
  apply IH; [by apply Hk|done].
Qed.

Lemma accept_panics seq (m : CM unit) (w : Core) : (accept seq m w).2 = Panic ↔ (m w).2 = Panic.
Proof. unfold accept. destruct (m w) as [w' [|e|]]; simpl; try done. by destruct (is_unsupported e). Qed.

Lemma frame_panics f (w : Core) :
  let op := opcode (f_header f) in
  client_inv w → len (f_payload f) ≤ isize_max → ¬ negative_count (f_payload f) →
  (handle_frame f w).2 = Panic ↔
    ∃ p, get (co_objects w) (object_id (f_header f)) = Some p ∧
      (unknown_value op (f_payload f) (px_type p) ∨
       px_type p = ICore ∧ removes_core op (f_payload f) ∧ get (co_objects w) 0 ≠ None).
Proof.
  intros op Hw Hl Hn. unfold handle_frame, find_proxy, gets. unfold mbind at 1, cm_bind at 1.
  destruct (get (co_objects w) (object_id (f_header f))) as [p|]; [|naive_solver]. fold op.
  pose proof (demarshal_panics (px_type p) op (f_payload f) (f_fds f) Hl Hn) as Hp.
  pose proof (demarshal_removes (px_type p) op (f_payload f) (f_fds f)) as Hr.
  pose proof (demarshal_footer (px_type p) op (f_payload f) (f_fds f)) as Hft.
  destruct (demarshal (px_type p) op (f_payload f) (f_fds f)) as [footer [[fds' ns] r]] eqn:Hd.
  specialize (Hr _ _ _ _ eq_refl). cbn [fst snd] in Hp, Hft.
  unfold mbind at 1, cm_bind at 1. unfold footer_handler at 1, modify at 1.
  set (w1 := with_client _ w). rewrite accept_panics.
  assert (client_inv w1) as Hw1.
  { apply (client_footer footer); [|done|done]. intros ft ->. by apply Hft. }
  change (co_objects w) with (co_objects w1).
  split.
  - intros Hpanic. exists p. split; [done|]. unfold mbind, cm_bind in Hpanic.
    destruct Hr as [(-> & Hi & Hr)|[Hout _]].
    + pose proof (notify_panics (object_id (f_header f)) (NCoreRemoveId 0) w1 Hw1) as Hno. cbn [notify_all] in Hpanic.
      unfold mbind, cm_bind in Hpanic. destruct (notify_object _ _ w1) as [w' [[]|e|]]; cbn [snd mret cm_ret] in *.
      * left. by apply Hp.
      * done.
      * right. by destruct (proj1 Hno eq_refl).
    + pose proof (notify_all_calm (object_id (f_header f)) ns w1 Hw1 Hout) as Hcalm.
      destruct (notify_all _ ns w1) as [w' [[]|e|]]; cbn [snd] in *; [|done..]. left. by apply Hp.
  - intros (q & [= <-] & [Hu|(Hi & Hrem & Hg)]).
    + specialize (proj2 Hp Hu) as ->. by rewrite (unknown_silent _ _ _ _ _ _ _ Hd Hu).
    + destruct Hr as [(-> & _)|[_ Hno]]; [|naive_solver]. cbn [notify_all]. unfold mbind, cm_bind.
      pose proof (notify_panics (object_id (f_header f)) (NCoreRemoveId 0) w1 Hw1) as Hno.
      destruct (notify_object _ _ w1) as [w' [[]|e|]]; cbn [snd] in *; naive_solver.
Qed.
End frames.

(** ** The condition on counts, evaluated *)
Fixpoint negative_in (data : list byte) : bool :=
  match decode_struct pop_int data with Ok (n, _) => n <? 0 | _ => false end ||
  match data with [] => false | _ :: data => negative_in data end.

Lemma negative_in_spec data : negative_in data = true ↔ negative_count data.
Proof.
  split.
  - induction data as [|b data IH]; cbn [negative_in]; rewrite orb_true_iff.
    + intros [Hd|]; [|done]. by destruct (decode_struct _ _) as [[n s]| |] eqn:He.
    + intros [Hd|Hd].
      * destruct (decode_struct _ _) as [[n s]| |] eqn:He; try done. exists [], (b :: data), n, s. split_and!; [done..|lia].
      * destruct (IH Hd) as (pre & rest & n & s & -> & ? & ?). by exists (b :: pre), rest, n, s.
  - intros (pre & rest & n & s & -> & Hd & Hn). induction pre as [|b pre IH]; simpl app.
    + destruct rest; cbn [negative_in]; rewrite Hd; by rewrite (proj2 (Z.ltb_lt n 0)).
    + cbn [negative_in]. by rewrite IH, orb_true_r.
Qed.

(** A list of pairs with the count [-1]: [Vec::with_capacity] panics. *)
Example negative_count_panics :
  decode (pod_pairs pod_str pod_str)
    (u32_bytes 16 ++ u32_bytes 14 ++ u32_bytes 4 ++ u32_bytes 4 ++ u32_bytes 4294967295 ++ zeros 4) = Panic.
Proof. by vm_compute. Qed.

(** Once the server has removed id 1, disconnecting panics. *)
Example destroy_needs_client :
  let w := (handle_frame (delivered (Sample.event_frame (CoreEvents_RemoveId (mkCoreRemoveId 1)) 3)) Sample.core).1 in
  (core_disconnect Sample.core).2 = Ok tt ∧ (core_disconnect w).2 = Panic.
Proof. split; by vm_compute. Qed.

(** ** Properties *)

(** C7: which frames stop a client. In any state a client can reach, with an
    importer that returns, a frame whose payload holds no struct that begins
    with a negative count makes the handler panic or block exactly if its
    object is registered and either it is a link or port whose Info event has
    a state or direction the enumerations do not have, or it is Core and the
    event removes Core itself. Any other bytes, opcodes, ids and descriptors
    lead to notifications or to an error. *)
Theorem frame_stops_client {I} `{MemoryImporter I} (error_number : StdError → Z) {K}
    (recvmsg : K → Z → Z → K * RawRecv) (sendmsg : K → list byte → list byte → K * RawSend)
    (take_error : K → StdRes (option StdError)) `{!SocketLaws recvmsg, !SendSocket sendmsg}
    (e : Endpoint I K) (f : ReceivedFrame) :
  let op := opcode (f_header f) in
  let objects := co_objects (ep_core e) in
  (∀ (i : I) id type_ fd flags, (add_memory i id type_ fd flags).2 ≠ Panic ∧ (remove_memory i id).2 ≠ Panic) →
  reachable error_number recvmsg sendmsg take_error e →
  len (f_payload f) ≤ isize_max → ¬ negative_count (f_payload f) →
  (handle_frame f (ep_core e)).2 = Panic ↔
    ∃ p, get objects (object_id (f_header f)) = Some p ∧
      (unknown_value op (f_payload f) (px_type p) ∨
       px_type p = ICore ∧ removes_core op (f_payload f) ∧ get objects 0 ≠ None).
Proof. intros op objects Hi Hr Hl Hn. apply frame_panics; try done. by eapply reachable_ok. Qed.

Definition remove_core_frame : ReceivedFrame := delivered (Sample.event_frame (CoreEvents_RemoveId (mkCoreRemoveId 0)) 3).
Lemma frame_stops_client_witness : (handle_frame remove_core_frame Sample.core).2 = Panic.
Proof.
  apply (frame_stops_client Sample.error_number Sample.recvmsg Sample.sendmsg Sample.take_error
    (mkEndpoint Sample.core Sample.inbox) remove_core_frame).
  - done.
  - eapply reach_new, Sample.core_connected.
  - by vm_compute.
  - rewrite <- negative_in_spec. by vm_compute.
  - exists (mkProxy ICore None). split; [by vm_compute|]. right. split; [done|]. split; [|by vm_compute].
    eexists _, _. split; [by vm_compute|done].
Defined.

(** C31: what a server encodes, its listeners get. Encode an event of any of
    the generated interfaces, with a footer behind it or none: the
    demarshaller of that interface decodes exactly that event and that
    footer, and hands the event to the object's handler with the frame's
    descriptors. *)
Theorem event_inbound i M (P : Marshallable M) `{!MarshalRound P} (h : FrameFds → M → Handled) (m : M)
    (footer : option CoreFooter) (buf fbuf : list byte) (fds : FrameFds) :
  speaks i M P h → mr_ok P m → mr_space P m ≤ len buf →
  match footer with
  | Some f => round_ok pod_CoreFooter f ∧ round_space pod_CoreFooter f ≤ len fbuf
  | None => True
  end →
  len buf + len fbuf ≤ isize_max →
  ∃ body fb,
    m_encode P m buf = (body ++ drop (length body) buf, Ok (len body)) ∧
    match footer with
    | Some f => encode pod_CoreFooter f fbuf = (fb ++ drop (length fb) fbuf, Ok (len fb))
    | None => fb = []
    end ∧
    demarshal i (msg_opcode P m) (body ++ fb) fds = (footer, h fds m).
Proof.
  intros Hs Hm Hb Hf Hl. destruct (event_encoded P m footer buf fbuf Hm Hb Hf Hl) as (body & fb & He & Hfe & Hp).
  exists body, fb. split; [done|]. split; [done|]. by apply (event_demarshal i M P h m footer).
Qed.

(** Metadata about object 42, with generation 9. *)
Definition sample_metadata : MetadataEvents :=
  MetadataEvents_Property (mkMetadataProperty 42 (Some (bytes_of "volume")) (Some (bytes_of "Spa:Float")) (Some (bytes_of "0.5"))).
Lemma event_inbound_witness :
  ∃ payload, demarshal IMetadata (msg_opcode MetadataEvents_marshal sample_metadata) payload [] =
    (Some (mkFooter [Generation (mkCoreGeneration 9)]),
     ([], [NMetadataProperty 42 (Some (bytes_of "volume")) (Some (bytes_of "Spa:Float")) (Some (bytes_of "0.5"))], Ok tt)).
Proof.
  destruct (event_inbound IMetadata MetadataEvents MetadataEvents_marshal metadata_event sample_metadata
    (Some (mkFooter [Generation (mkCoreGeneration 9)])) (zeros 200) (zeros 200) []) as (body & fb & _ & _ & Hd).
  - constructor.
  - split; [|by vm_compute]. split_and!; done.
  - by vm_compute.
  - split; [|by vm_compute]. split; [|by vm_compute]. repeat constructor; by vm_compute.
  - by vm_compute.
  - exists (body ++ fb). exact Hd.
Defined.
