(* ===== verification/MemoryBridge.v ===== *)
(** * Memory events of a connection

    Models [pipewire/src/node/session/memory.rs]: the importer a [Core] feeds
    with its memory events, the pool behind it, and the queue through which
    subscribers learn of every change, whichever thread makes it. Callbacks
    run without a lock held, so that they may call back into all of this. *)

From stdpp Require Import sorting.
From S2P Require Import Prelude PodCodec PodTypes FrameHeader NodeMemory InboundMessage.
#[local] Open Scope Z_scope.

Inductive MemoryPoolEvent :=
| Available (lease : MemoryLease)
| Removed (key : MemoryKey)
| PoolDisconnected.

Record QueuedMemoryEvent := mkQueued { q_event : MemoryPoolEvent; q_subscribers : list Z }.

(** A subscriber's slot is [true] when it holds its handler, [false] while the
    handler is out being called. *)
Record MemoryEventDispatch := mkDispatch {
  md_next_id : Z;
  md_subscribers : gmap Z bool;
  md_queued : list QueuedMemoryEvent;
  md_dispatching : bool;
}.
Record MemoryPoolInner := mkInner { mp_pool : MemoryPool; mp_events : MemoryEventDispatch }.

Definition with_slots (f : gmap Z bool → gmap Z bool) (e : MemoryEventDispatch) : MemoryEventDispatch :=
  mkDispatch (md_next_id e) (f (md_subscribers e)) (md_queued e) (md_dispatching e).
Definition with_queued (f : list QueuedMemoryEvent → list QueuedMemoryEvent) (e : MemoryEventDispatch) :
    MemoryEventDispatch :=
  mkDispatch (md_next_id e) (md_subscribers e) (f (md_queued e)) (md_dispatching e).
Definition with_dispatching (b : bool) (e : MemoryEventDispatch) : MemoryEventDispatch :=
  mkDispatch (md_next_id e) (md_subscribers e) (md_queued e) b.
Definition with_events (f : MemoryEventDispatch → MemoryEventDispatch) (i : MemoryPoolInner) : MemoryPoolInner :=
  mkInner (mp_pool i) (f (mp_events i)).

(** [MemoryPoolHandle::install] *)
Definition install (policy : ShrinkPolicy) : MemoryPoolInner :=
  mkInner (MemoryPool_new policy) (mkDispatch 0 ∅ [] false).

(** ** Queueing *)

(** The keys of the [BTreeMap]. *)
Definition subscriber_ids (e : MemoryEventDispatch) : list Z := merge_sort Z.le (elements (dom (md_subscribers e))).

Definition queue_broadcast_while_dispatching (e : MemoryEventDispatch) (event : MemoryPoolEvent) :
    MemoryEventDispatch :=
  with_queued (λ q, q ++ [mkQueued event (subscriber_ids e)]) e.
Definition claim_dispatch (e : MemoryEventDispatch) : MemoryEventDispatch * bool :=
  if md_dispatching e || bool_decide (md_queued e = []) then (e, false) else (with_dispatching true e, true).
Definition queue_broadcast (e : MemoryEventDispatch) (event : MemoryPoolEvent) : MemoryEventDispatch * bool :=
  claim_dispatch (queue_broadcast_while_dispatching e event).

(** [std]'s kind of an error number, as far as the code tells them apart. *)
Definition errno_kind (e : IoError) : ErrorKind :=
  match e with OtherIo 38 => KUnsupported | _ => KUncategorized end.
Definition map_error_kind (e : MapError) : ErrorKind :=
  match e with
  | InvalidInputErr => KInvalidInput | InvalidDataErr => KInvalidData | NotFoundErr => KNotFound
  | OtherErr => KOther | OsErr e => errno_kind e
  end.
Definition import_error (e : MemoryError) : StdError :=
  Custom match e with
  | DuplicateActiveId _ => KAlreadyExists
  | UnknownMemory _ | StaleGeneration _ _ => KNotFound
  | UnknownMemoryType _ | UnsupportedMemoryType _ => KInvalidData
  | NodeMemory.Disconnected => KNotConnected
  | Inspect source => map_error_kind source
  | InvalidRegion _ _ _ _ | ShrinkableMemory _ | MapFailed _ _ => KInvalidData
  | GenerationExhausted => KOther
  end.

(** ** The critical sections

    Each returns whether its caller has to dispatch. *)
Fixpoint queue_replay (p : MemoryPool) (id : Z) (keys : list MemoryKey) (e : MemoryEventDispatch) :
    MemoryEventDispatch * Res MemoryError unit :=
  match keys with
  | [] => (e, Ok tt)
  | key :: keys =>
      match pool_lease p key with
      | Ok lease => queue_replay p id keys (with_queued (λ q, q ++ [mkQueued (Available lease) [id]]) e)
      | Err _ | Panic => (e, Panic)
      end
  end.

Definition key_le (a b : MemoryKey) : Prop :=
  k_id a < k_id b ∨ (k_id a = k_id b ∧ generation a ≤ generation b).
#[global] Instance key_le_dec : RelDecision key_le.
Proof. intros a b. unfold key_le. solve_decision. Defined.

Definition subscribe (i : MemoryPoolInner) : MemoryPoolInner * Res MemoryError Z * bool :=
  let e := mp_events i in
  let id := md_next_id e in
  match checked_add 64 id 1 with
  | None => (i, Panic, false)
  | Some next =>
      let e := mkDispatch next (<[id := true]> (md_subscribers e)) (md_queued e) (md_dispatching e) in
      match queue_replay (mp_pool i) id (merge_sort key_le (active_keys (mp_pool i))) e with
      | (e, Ok _) => let '(e, dispatch) := claim_dispatch e in (mkInner (mp_pool i) e, Ok id, dispatch)
      | (e, _) => (mkInner (mp_pool i) e, Panic, false)
      end
  end.

(** [Drop for MemoryPoolSubscription] *)
Definition unsubscribe (id : Z) (i : MemoryPoolInner) : MemoryPoolInner :=
  with_events (with_slots (delete id)) i.

Definition add_memory (kernel : Kernel) (id type_ fd flags : Z) (i : MemoryPoolInner) :
    MemoryPoolInner * StdRes unit * bool :=
  match pool_add kernel (mp_pool i) id type_ flags fd with
  | (p, Ok key) =>
      match pool_lease p key with
      | Ok lease =>
          let '(e, dispatch) := queue_broadcast (mp_events i) (Available lease) in
          (mkInner p e, Ok tt, dispatch)
      | Err e => (mkInner p (mp_events i), Err (import_error e), false)
      | Panic => (mkInner p (mp_events i), Panic, false)
      end
  | (p, Err e) => (mkInner p (mp_events i), Err (import_error e), false)
  | (p, Panic) => (mkInner p (mp_events i), Panic, false)
  end.

Definition remove_memory (id : Z) (i : MemoryPoolInner) : MemoryPoolInner * StdRes unit * bool :=
  match pool_remove (mp_pool i) id with
  | (p, Ok key) =>
      let '(e, dispatch) := queue_broadcast (mp_events i) (Removed key) in (mkInner p e, Ok tt, dispatch)
  | (p, Err e) => (mkInner p (mp_events i), Err (import_error e), false)
  | (p, Panic) => (mkInner p (mp_events i), Panic, false)
  end.

(** [Drop for MemoryPoolImporter], with the order in which the hash map lists
    its keys. *)
Definition importer_drop (keys : list MemoryKey) (i : MemoryPoolInner) : MemoryPoolInner * bool :=
  let p := disconnect (mp_pool i) in
  let e := foldl (λ e key, queue_broadcast_while_dispatching e (Removed key)) (mp_events i) keys in
  let '(e, dispatch) := claim_dispatch (queue_broadcast_while_dispatching e PoolDisconnected) in
  (mkInner p e, dispatch).

(** ** Dispatching *)

(** Where a thread is in [dispatch_events]: at the head of the loop, before
    the next subscriber, or in a subscriber's callback. *)
Inductive DispatchPc :=
| PopNext
| Deliver (event : MemoryPoolEvent) (subscribers : list Z)
| InCallback (event : MemoryPoolEvent) (id : Z) (subscribers : list Z).

(** A step outside a callback; [None] when the thread returns, and the call
    it starts. *)
Definition dispatch_step (pc : DispatchPc) (i : MemoryPoolInner) :
    MemoryPoolInner * option DispatchPc * list (Z * MemoryPoolEvent) :=
  match pc with
  | PopNext =>
      match md_queued (mp_events i) with
      | [] => (with_events (with_dispatching false) i, None, [])
      | q :: rest => (with_events (with_queued (λ _, rest)) i, Some (Deliver (q_event q) (q_subscribers q)), [])
      end
  | Deliver _ [] => (i, Some PopNext, [])
  | Deliver event (id :: ids) =>
      match md_subscribers (mp_events i) !! id with
      | Some true =>
          (with_events (with_slots <[id := false]>) i, Some (InCallback event id ids), [(id, event)])
      | _ => (i, Some (Deliver event ids), [])
      end
  | InCallback _ _ _ => (i, Some pc, [])
  end.

(** [Drop for ActiveSubscription] *)
Definition active_drop (id : Z) (i : MemoryPoolInner) : MemoryPoolInner :=
  match md_subscribers (mp_events i) !! id with
  | Some false => with_events (with_slots <[id := true]>) i
  | _ => i
  end.
(** [Drop for DispatchGuard], while armed *)
Definition dispatch_guard_drop (i : MemoryPoolInner) : MemoryPoolInner :=
  with_events (with_dispatching false) i.

(** ** Threads

    Any thread may run a critical section at any time, also from within a
    callback; one that is told to dispatch becomes a dispatcher. The
    callbacks started and the events ever queued are kept as a history. *)
Record Machine := mkMachine {
  m_inner : MemoryPoolInner;
  m_threads : list DispatchPc;
  m_log : list (Z * MemoryPoolEvent);
  m_issued : list QueuedMemoryEvent;
}.
Inductive BridgeAction :=
| BSubscribe
| BUnsubscribe (id : Z)
| BAdd (kernel : Kernel) (id type_ fd flags : Z)
| BRemove (id : Z)
| BDropImporter (keys : list MemoryKey)
| BDispatch (thread : nat)
| BReturn (thread : nat)
| BPanic (thread : nat).

Definition enter (i : MemoryPoolInner) (dispatch : bool) (m : Machine) : Machine :=
  mkMachine i (m_threads m ++ if dispatch then [PopNext] else []) (m_log m)
    (m_issued m ++ drop (length (md_queued (mp_events (m_inner m)))) (md_queued (mp_events i))).

Definition act (a : BridgeAction) (m : Machine) : option Machine :=
  let i := m_inner m in
  match a with
  | BSubscribe => let '(i, _, dispatch) := subscribe i in Some (enter i dispatch m)
  | BUnsubscribe id => Some (enter (unsubscribe id i) false m)
  | BAdd kernel id type_ fd flags =>
      let '(i, _, dispatch) := add_memory kernel id type_ fd flags i in Some (enter i dispatch m)
  | BRemove id => let '(i, _, dispatch) := remove_memory id i in Some (enter i dispatch m)
  | BDropImporter keys =>
      if bool_decide (keys ≡ₚ active_keys (mp_pool i))
      then let '(i, dispatch) := importer_drop keys i in Some (enter i dispatch m) else None
  | BDispatch n =>
      pc ← m_threads m !! n;
      let '(i, pc', started) := dispatch_step pc i in
      Some (mkMachine i (match pc' with Some pc' => <[n := pc']> (m_threads m) | None => delete n (m_threads m) end)
        (m_log m ++ started) (m_issued m))
  | BReturn n =>
      match m_threads m !! n with
      | Some (InCallback event id ids) =>
          Some (mkMachine (active_drop id i) (<[n := Deliver event ids]> (m_threads m)) (m_log m) (m_issued m))
      | _ => None
      end
  | BPanic n =>
      match m_threads m !! n with
      | Some (InCallback event id ids) =>
          Some (mkMachine (dispatch_guard_drop (active_drop id i)) (delete n (m_threads m)) (m_log m) (m_issued m))
      | _ => None
      end
  end.
Fixpoint runs (l : list BridgeAction) (m : Machine) : option Machine :=
  match l with [] => Some m | a :: l => act a m ≫= runs l end.
Definition initial (policy : ShrinkPolicy) : Machine := mkMachine (install policy) [] [] [].
