(* ===== verification/MemoryBridgeProps.v ===== *)
(** * What subscribers learn

    The order and completeness of memory events: whatever the threads do, a
    subscriber is told a stream of events from which it can compute, at any
    point of that stream, which generations were active. *)

From stdpp Require Import sorting.
From S2P Require Import Prelude PodCodec PodTypes FrameHeader NodeMemory InboundMessage MemoryBridge.
#[local] Open Scope Z_scope.

#[global] Instance MemoryKey_countable : Countable MemoryKey.
Proof. apply (inj_countable' (λ k, (k_id k, generation k)) (λ '(a, b), mkKey a b)). by intros []. Defined.

(** ** The abstract view *)

(** A subscriber's picture of the pool. *)
Definition learn (known : gset MemoryKey) (e : MemoryPoolEvent) : gset MemoryKey :=
  match e with
  | Available lease => known ∪ {[lease_key lease]}
  | Removed key => known ∖ {[key]}
  | PoolDisconnected => known
  end.
Definition known (l : list MemoryPoolEvent) : gset MemoryKey := foldl learn ∅ l.
Definition active_set (p : MemoryPool) : gset MemoryKey := list_to_set (active_keys p).

(** The events queued for a subscriber, and those whose callback was
    started. *)
Definition copies (id : Z) (event : MemoryPoolEvent) (ids : list Z) : list MemoryPoolEvent :=
  (λ _, event) <$> filter (λ j, j = id) ids.
Definition addressed (id : Z) (items : list QueuedMemoryEvent) : list MemoryPoolEvent :=
  flat_map (λ q, copies id (q_event q) (q_subscribers q)) items.
Definition received (id : Z) (log : list (Z * MemoryPoolEvent)) : list MemoryPoolEvent :=
  snd <$> filter (λ x, x.1 = id) log.
Definition inflight (id : Z) (pc : DispatchPc) : list MemoryPoolEvent :=
  match pc with PopNext => [] | Deliver event ids | InCallback event _ ids => copies id event ids end.
(** What a subscriber has still to be told. *)
Definition outstanding (id : Z) (m : Machine) : list MemoryPoolEvent :=
  flat_map (inflight id) (m_threads m) ++ addressed id (md_queued (mp_events (m_inner m))).
Definition calling (threads : list DispatchPc) : option Z :=
  match threads with InCallback _ id _ :: _ => Some id | _ => None end.

Definition m_pool (m : Machine) : MemoryPool := mp_pool (m_inner m).
Definition m_slots (m : Machine) : gmap Z bool := md_subscribers (mp_events (m_inner m)).
Definition m_queued (m : Machine) : list QueuedMemoryEvent := md_queued (mp_events (m_inner m)).
Definition m_dispatching (m : Machine) : bool := md_dispatching (mp_events (m_inner m)).

Record pool_ok (p : MemoryPool) : Prop := {
  po_ids : map_Forall (λ id e, k_id (e_key e) = id) (live p);
  po_closed : disconnected p = true → live p = ∅;
}.

(** [exact] when no callback has panicked. *)
Record bridge_inv (exact : bool) (m : Machine) : Prop := {
  bi_pool : pool_ok (m_pool m);
  (* one dispatcher at most, and the flag says so *)
  bi_threads : (m_threads m = [] ∧ m_dispatching m = false) ∨
               (∃ pc, m_threads m = [pc] ∧ m_dispatching m = true);
  (* a handler is out of its slot exactly while it is called *)
  bi_slots : ∀ id b, m_slots m !! id = Some b → b = negb (bool_decide (calling (m_threads m) = Some id));
  bi_ids : ∀ id, is_Some (m_slots m !! id) → id < md_next_id (mp_events (m_inner m));
  bi_calling : ∀ id, calling (m_threads m) = Some id → id < md_next_id (mp_events (m_inner m));
  bi_issued : Forall (λ q, Forall (λ id, id < md_next_id (mp_events (m_inner m))) (q_subscribers q)) (m_issued m);
  bi_busy : exact = true → m_queued m ≠ [] → m_dispatching m = true;
  bi_order : ∀ id, received id (m_log m) ++ outstanding id m `sublist_of` addressed id (m_issued m);
  bi_exact : exact = true → ∀ id, is_Some (m_slots m !! id) →
    received id (m_log m) ++ outstanding id m = addressed id (m_issued m);
  bi_known : ∀ id, is_Some (m_slots m !! id) → known (addressed id (m_issued m)) = active_set (m_pool m);
}.

(** ** Lists of events *)
Lemma addressed_app id a b : addressed id (a ++ b) = addressed id a ++ addressed id b.
Proof. apply flat_map_app. Qed.
Lemma received_app id a b : received id (a ++ b) = received id a ++ received id b.
Proof. unfold received. by rewrite filter_app, fmap_app. Qed.
Lemma known_app a b : known (a ++ b) = foldl learn (known a) b.
Proof. apply foldl_app. Qed.
Lemma copies_cons id event j ids :
  copies id event (j :: ids) = (if bool_decide (j = id) then [event] else []) ++ copies id event ids.
Proof. unfold copies. rewrite filter_cons. case_decide; by case_bool_decide. Qed.
Lemma copies_none id event ids : id ∉ ids → copies id event ids = [].
Proof.
  unfold copies. induction ids as [|j ids IH]; [done|]. rewrite not_elem_of_cons, filter_cons. intros [? ?].
  rewrite decide_False by done. by apply IH.
Qed.
Lemma copies_once id event ids : NoDup ids → id ∈ ids → copies id event ids = [event].
Proof.
  induction 1 as [|j ids Hj _ IH]; [by intros ?%elem_of_nil|]. rewrite elem_of_cons, copies_cons. intros [->|Hi].
  - by rewrite bool_decide_eq_true_2, copies_none.
  - rewrite bool_decide_eq_false_2 by (intros ->; done). by apply IH.
Qed.

Lemma elem_subscriber_ids e id : id ∈ subscriber_ids e ↔ is_Some (md_subscribers e !! id).
Proof. unfold subscriber_ids. by rewrite merge_sort_Permutation, elem_of_elements, elem_of_dom. Qed.
Lemma subscriber_ids_nodup e : NoDup (subscriber_ids e).
Proof. unfold subscriber_ids. rewrite merge_sort_Permutation. apply NoDup_elements. Qed.
Lemma copies_broadcast id event e :
  is_Some (md_subscribers e !! id) → copies id event (subscriber_ids e) = [event].
Proof. intros Hi. apply copies_once; [apply subscriber_ids_nodup|by apply elem_subscriber_ids]. Qed.
Lemma addressed_broadcast id e l :
  is_Some (md_subscribers e !! id) → addressed id ((λ x, mkQueued x (subscriber_ids e)) <$> l) = l.
Proof.
  intros Hid. induction l as [|x l IH]; [done|]. rewrite fmap_cons. unfold addressed in *. cbn [flat_map].
  rewrite IH. cbn [q_event q_subscribers]. by rewrite copies_broadcast.
Qed.

(** ** The pool *)
Lemma elem_active p k : pool_ok p → k ∈ active_set p ↔ e_key <$> live p !! k_id k = Some k.
Proof.
  intros [Hi _]. unfold active_set, active_keys. rewrite elem_of_list_to_set, list_elem_of_fmap. split.
  - intros ([id e] & -> & He%elem_of_map_to_list). simpl. by rewrite (Hi _ _ He), He.
  - intros (e & He & Hk)%fmap_Some. exists (k_id k, e). split; [done|]. by apply elem_of_map_to_list.
Qed.
Lemma lease_active p k : pool_ok p → k ∈ active_set p → ∃ l, pool_lease p k = Ok l ∧ lease_key l = k.
Proof.
  intros Hp Hk%elem_active; [|done]. apply fmap_Some in Hk as (e & He & Hk).
  unfold pool_lease, live_entry. destruct (disconnected p) eqn:Hd.
  { by rewrite (po_closed p Hp Hd) in He. }
  simpl. rewrite He. simpl. rewrite bool_decide_eq_false_2 by (rewrite <-Hk; tauto). by eexists.
Qed.

(** ** Critical sections *)

(** What a section did to the queue, given whether it claimed. *)
Record grew (items : list QueuedMemoryEvent) (dispatch : bool) (e e' : MemoryEventDispatch) : Prop := {
  gr_queue : md_queued e' = md_queued e ++ items;
  gr_flag : md_dispatching e' = md_dispatching e || dispatch;
  gr_claim : dispatch = true → md_dispatching e = false;
  gr_busy : items ≠ [] → md_dispatching e' = true;
}.

Lemma claim_grew items e0 e :
  md_queued e = md_queued e0 ++ items → md_dispatching e = md_dispatching e0 →
  let '(e', dispatch) := claim_dispatch e in
  grew items dispatch e0 e' ∧ md_subscribers e' = md_subscribers e ∧ md_next_id e' = md_next_id e.
Proof.
  intros Hq Hd. unfold claim_dispatch. destruct (md_dispatching e) eqn:He; simpl.
  { split; [|done]. split; [done|by rewrite orb_false_r, He|done|done]. }
  case_bool_decide as Hn; (split; [|done]).
  - split; [done|by rewrite orb_false_r, He|done|]. rewrite Hn in Hq. by destruct items, (md_queued e0).
  - split; [done|by rewrite orb_true_r|congruence|done].
Qed.

Lemma addressed_fresh id n items :
  Forall (λ q, Forall (λ id, id < n) (q_subscribers q)) items → n ≤ id → addressed id items = [].
Proof.
  intros Hf Hn. induction Hf as [|q items Hq _ IH]; simpl; [done|]. rewrite IH, app_nil_r.
  apply copies_none. intros Hi. rewrite Forall_forall in Hq. specialize (Hq _ Hi). lia.
Qed.

Lemma enter_issued items dispatch i m :
  grew items dispatch (mp_events (m_inner m)) (mp_events i) → m_issued (enter i dispatch m) = m_issued m ++ items.
Proof. intros [Hq _ _ _]. simpl. by rewrite Hq, drop_app_length. Qed.
Lemma enter_outstanding items dispatch i m id :
  grew items dispatch (mp_events (m_inner m)) (mp_events i) →
  outstanding id (enter i dispatch m) = outstanding id m ++ addressed id items.
Proof.
  intros [Hq _ _ _]. unfold outstanding. simpl. rewrite Hq, addressed_app, flat_map_app.
  destruct dispatch; simpl; by rewrite (right_id_L [] (++)), (assoc_L (++)).
Qed.

Lemma enter_calling i dispatch m : calling (m_threads (enter i dispatch m)) = calling (m_threads m).
Proof. simpl. destruct (m_threads m) as [|? ?]; [by destruct dispatch|done]. Qed.

(** A section keeps the invariant when every subscriber was told of the
    change. *)
Lemma inv_enter exact m i items dispatch :
  bridge_inv exact m → pool_ok (mp_pool i) → grew items dispatch (mp_events (m_inner m)) (mp_events i) →
  md_next_id (mp_events (m_inner m)) ≤ md_next_id (mp_events i) →
  (∀ id b, md_subscribers (mp_events i) !! id = Some b →
    m_slots m !! id = Some b ∨ (b = true ∧ m_slots m !! id = None ∧ id = md_next_id (mp_events (m_inner m)) ∧
                                 id < md_next_id (mp_events i))) →
  Forall (λ q, Forall (λ id, id < md_next_id (mp_events i)) (q_subscribers q)) items →
  (∀ id, is_Some (md_subscribers (mp_events i) !! id) →
    known (addressed id (m_issued m ++ items)) = active_set (mp_pool i)) →
  bridge_inv exact (enter i dispatch m).
Proof.
  intros Hi Hp Hg Hn Hslots Hids Hk.
  assert (∀ id b, md_subscribers (mp_events i) !! id = Some b → m_slots m !! id = None →
    received id (m_log m) ++ outstanding id m = [] ∧ addressed id (m_issued m) = []) as Hnew.
  { intros id b Hb Hm. destruct (Hslots id b Hb) as [?|(_ & _ & -> & _)]; [congruence|].
    pose proof (addressed_fresh _ _ _ (bi_issued _ _ Hi) (Z.le_refl _)) as Ha.
    split; [|done]. apply sublist_nil_r. rewrite <-Ha. apply (bi_order _ _ Hi). }
  split.
  - done.
  - simpl. destruct Hg as [_ Hfl Hcl _]. unfold m_dispatching. simpl.
    destruct (bi_threads _ _ Hi) as [[-> Hd]|(pc & -> & Hd)]; destruct dispatch; unfold m_dispatching in *;
      rewrite Hfl, ?Hd; simpl; eauto. specialize (Hcl eq_refl). congruence.
  - intros id b Hb. simpl in Hb.
    rewrite (enter_calling i dispatch m).
    destruct (Hslots id b Hb) as [Hm|(-> & Hm & -> & _)]; [by apply (bi_slots _ _ Hi)|].
    rewrite bool_decide_eq_false_2; [done|]. intros Hc. apply (bi_calling _ _ Hi) in Hc. lia.
  - intros id [b Hb]. simpl in *. destruct (Hslots id b Hb) as [Hm|(_ & _ & _ & ?)]; [|done].
    eapply Z.lt_le_trans; [by apply (bi_ids _ _ Hi); eexists|done].
  - intros id. rewrite enter_calling. intros Hc. apply (bi_calling _ _ Hi) in Hc. simpl. lia.
  - rewrite (enter_issued _ _ _ _ Hg). apply Forall_app. split; [|done].
    eapply Forall_impl; [apply (bi_issued _ _ Hi)|]. intros q Hq. eapply Forall_impl; [exact Hq|].
    simpl. intros. lia.
  - unfold m_queued, m_dispatching. simpl. destruct Hg as [Hq Hfl _ Hb]. intros He Hne. rewrite Hq in Hne.
    destruct items; [|by apply Hb]. rewrite (right_id_L [] (++)) in Hne. rewrite Hfl.
    by rewrite (bi_busy _ _ Hi He Hne : md_dispatching _ = true).
  - intros id. rewrite (enter_issued _ _ _ _ Hg), (enter_outstanding _ _ _ _ _ Hg), (assoc_L (++)), addressed_app.
    apply sublist_app; [apply (bi_order _ _ Hi)|done].
  - intros He id [b Hb].
    rewrite (enter_issued _ _ _ _ Hg), (enter_outstanding _ _ _ _ _ Hg), (assoc_L (++)), addressed_app.
    change (m_log (enter i dispatch m)) with (m_log m). f_equal. destruct (m_slots m !! id) eqn:Hm; [by apply (bi_exact _ _ Hi He)|].
    by destruct (Hnew id b Hb Hm) as [-> ->].
  - intros id Hid. rewrite (enter_issued _ _ _ _ Hg). by apply Hk.
Qed.

(** The sections that broadcast. *)
Lemma inv_broadcast exact m p events dispatch e' :
  bridge_inv exact m → pool_ok p →
  claim_dispatch (foldl queue_broadcast_while_dispatching (mp_events (m_inner m)) events) = (e', dispatch) →
  foldl learn (active_set (m_pool m)) events = active_set p →
  bridge_inv exact (enter (mkInner p e') dispatch m).
Proof.
  intros Hi Hp Hc Hl. set (e0 := mp_events (m_inner m)) in *.
  assert (∀ l e, foldl queue_broadcast_while_dispatching e l =
    with_queued (λ q, q ++ ((λ x, mkQueued x (subscriber_ids e)) <$> l)) e) as Hf.
  { clear. unfold with_queued. induction l as [|x l IH]; intros [n s q d]; simpl; [by rewrite (right_id_L [] (++))|].
    rewrite IH. simpl. by rewrite <-(assoc_L (++)). }
  rewrite Hf in Hc. set (items := (λ x, mkQueued x (subscriber_ids e0)) <$> events) in *.
  pose proof (claim_grew items e0 (with_queued (λ q, q ++ items) e0) eq_refl eq_refl) as Hg.
  rewrite Hc in Hg. destruct Hg as (Hg & Hs & Hn). simpl in Hs, Hn.
  apply (inv_enter _ _ _ items); simpl; [done|done|done|by rewrite Hn| | |].
  - intros id b. rewrite Hs. by left.
  - rewrite Hn. apply Forall_fmap, Forall_forall. intros x _. simpl. apply Forall_forall.
    intros id Hid%elem_subscriber_ids. by apply (bi_ids _ _ Hi).
  - rewrite Hs. intros id Hid. rewrite addressed_app, known_app, (bi_known _ _ Hi id Hid).
    subst items. by rewrite addressed_broadcast.
Qed.

(** A section that changes nothing a subscriber is told. *)
Lemma inv_unchanged exact m :
  bridge_inv exact m → bridge_inv exact (enter (mkInner (mp_pool (m_inner m)) (mp_events (m_inner m))) false m).
Proof.
  intros Hi. apply (inv_enter _ _ _ []); try done; [apply Hi| |by left|].
  - split; [by rewrite (right_id_L [] (++))|by rewrite orb_false_r|done|done].
  - intros id Hid. rewrite (right_id_L [] (++)). by apply (bi_known _ _ Hi).
Qed.

(** ** Changes of the pool *)
Lemma pool_added p id k e p' :
  pool_ok p → disconnected p = false → live p !! id = None → e_key e = k → k_id k = id →
  p' = mkPool (next_generation p + 1) (<[id := e]> (live p)) (shrink_policy p) (disconnected p) →
  pool_ok p' ∧ pool_lease p' k = Ok (mkLease e (shrink_policy p)) ∧ active_set p' = active_set p ∪ {[k]}.
Proof.
  intros Hp Hd Hl Hk Hid ->.
  assert (pool_ok (mkPool (next_generation p + 1) (<[id:=e]> (live p)) (shrink_policy p) (disconnected p))) as Hp'.
  { split; simpl; [|congruence]. apply map_Forall_insert_2; [congruence|apply Hp]. }
  split; [done|]. split.
  - unfold pool_lease, live_entry. simpl. rewrite Hd, Hid, lookup_insert_eq. simpl.
    by rewrite bool_decide_eq_false_2 by tauto.
  - apply set_eq. intros k'. rewrite elem_of_union, elem_of_singleton, !elem_active by done. simpl.
    destruct (decide (k_id k' = id)) as [<-|Hne].
    + rewrite Hl, lookup_insert_eq. simpl. rewrite Hk. naive_solver.
    + rewrite lookup_insert_ne by done. naive_solver.
Qed.

Lemma pool_removed p id e :
  pool_ok p → live p !! id = Some e →
  let p' := mkPool (next_generation p) (delete id (live p)) (shrink_policy p) (disconnected p) in
  pool_ok p' ∧ active_set p' = active_set p ∖ {[e_key e]}.
Proof.
  intros Hp He p'. assert (pool_ok p') as Hp'.
  { split; simpl; [by apply map_Forall_delete, Hp|]. intros Hd. by rewrite (po_closed _ Hp Hd), delete_empty. }
  split; [done|]. apply set_eq. intros k. rewrite elem_of_difference, elem_of_singleton, !elem_active by done.
  simpl. pose proof (po_ids _ Hp _ _ He) as Hk. simpl in Hk. destruct (decide (k_id k = id)) as [<-|Hne].
  - rewrite lookup_delete_eq, He. simpl. naive_solver.
  - rewrite lookup_delete_ne by done. naive_solver.
Qed.

Lemma removed_all keys s : foldl learn s (Removed <$> keys) = s ∖ list_to_set keys.
Proof.
  revert s. induction keys as [|k keys IH]; intros s; simpl; [set_solver|]. rewrite IH. set_solver.
Qed.

(** ** Every section keeps the invariant *)
Lemma kept_add exact m kernel id t fd flags i r d :
  bridge_inv exact m → add_memory kernel id t fd flags (m_inner m) = (i, r, d) →
  bridge_inv exact (enter i d m) ∧ total r.
Proof.
  intros Hi. unfold add_memory. pose proof (pool_add_spec kernel (m_pool m) id t flags fd) as Hs.
  unfold m_pool in *. destruct (pool_add _ _ _ _ _ _) as [p' [k|e|]]; [|subst p'|done].
  - destruct Hs as (Hd & Hl & -> & e & He & _ & Hp').
    destruct (pool_added _ _ _ _ _ (bi_pool _ _ Hi) Hd Hl He eq_refl Hp') as (Hok & -> & Ha).
    unfold queue_broadcast. destruct (claim_dispatch _) as [e' d'] eqn:Hc. intros ?. simplify_eq.
    split; [|done]. eapply (inv_broadcast _ _ _ [Available (mkLease e _)]); [done|done|exact Hc|].
    rewrite Ha. by rewrite <-He.
  - intros ?. simplify_eq. split; [by apply inv_unchanged|done].
Qed.

Lemma kept_remove exact m id i r d :
  bridge_inv exact m → remove_memory id (m_inner m) = (i, r, d) → bridge_inv exact (enter i d m) ∧ total r.
Proof.
  intros Hi. unfold remove_memory, pool_remove.
  pose proof (inv_unchanged _ _ Hi) as Hu.
  destruct (disconnected _) eqn:Hd; [by intros ?; simplify_eq|].
  destruct (live _ !! id) as [e|] eqn:He; [|by intros ?; simplify_eq].
  destruct (pool_removed _ _ _ (bi_pool _ _ Hi) He) as [Hok Ha]. unfold m_pool in Hok, Ha. rewrite Hd in Hok, Ha.
  unfold queue_broadcast. destruct (claim_dispatch _) as [e' d'] eqn:Hc. intros ?. simplify_eq. split; [|done].
  eapply (inv_broadcast _ _ _ [Removed (e_key e)]); [done|done|exact Hc|]. by rewrite Ha.
Qed.

Lemma kept_importer_drop exact m keys i d :
  bridge_inv exact m → keys ≡ₚ active_keys (m_pool m) → importer_drop keys (m_inner m) = (i, d) →
  bridge_inv exact (enter i d m).
Proof.
  intros Hi Hk. unfold importer_drop. destruct (claim_dispatch _) as [e' d'] eqn:Hc. intros ?. simplify_eq.
  eapply (inv_broadcast _ _ _ ((Removed <$> keys) ++ [PoolDisconnected])); [done|by split| |].
  - rewrite foldl_app, foldl_fmap. simpl. exact Hc.
  - rewrite foldl_app, removed_all. unfold active_set. simpl. rewrite Hk. set_solver.
Qed.

(** Subscribing replays the active generations. *)
Lemma replay_spec p id keys e :
  pool_ok p → Forall (λ k, k ∈ active_set p) keys →
  ∃ leases, queue_replay p id keys e =
    (with_queued (λ q, q ++ ((λ l, mkQueued (Available l) [id]) <$> leases)) e, Ok tt) ∧ lease_key <$> leases = keys.
Proof.
  intros Hp Hk. revert e. induction Hk as [|k keys Hk _ IH]; intros e; simpl.
  { exists []. split; [|done]. destruct e. unfold with_queued. simpl. by rewrite (right_id_L [] (++)). }
  destruct (lease_active p k Hp Hk) as (l & -> & <-).
  destruct (IH (with_queued (λ q, q ++ [mkQueued (Available l) [id]]) e)) as (ls & -> & <-).
  exists (l :: ls). split; [|done]. unfold with_queued. simpl. by rewrite <-(assoc_L (++)).
Qed.

Lemma addressed_replay id j ls :
  addressed j ((λ l, mkQueued (Available l) [id]) <$> ls) = if bool_decide (id = j) then Available <$> ls else [].
Proof.
  induction ls as [|l ls IH]; [by case_bool_decide|]. rewrite fmap_cons. unfold addressed in *. cbn [flat_map].
  rewrite IH. cbn [q_event q_subscribers]. rewrite copies_cons. by case_bool_decide.
Qed.
Lemma learned_all ls s : foldl learn s (Available <$> ls) = s ∪ list_to_set (lease_key <$> ls).
Proof.
  revert s. induction ls as [|l ls IH]; intros s; simpl; [set_solver|]. rewrite IH. set_solver.
Qed.

Lemma kept_subscribe exact m i r d :
  bridge_inv exact m → subscribe (m_inner m) = (i, r, d) →
  bridge_inv exact (enter i d m) ∧ (r = Panic ↔ 2 ^ 64 ≤ md_next_id (mp_events (m_inner m)) + 1).
Proof.
  intros Hi. unfold subscribe. set (e0 := mp_events (m_inner m)) in *. set (id := md_next_id e0) in *.
  unfold checked_add. case_bool_decide as Hn.
  2: { intros ?. simplify_eq. split; [|split; [intros _; subst id e0; lia|done]].
       destruct m as [[] ? ? ?]. exact (inv_unchanged exact (mkMachine _ _ _ _) Hi). }
  set (e1 := mkDispatch _ _ _ _).
  destruct (replay_spec (mp_pool (m_inner m)) id (merge_sort key_le (active_keys (mp_pool (m_inner m)))) e1)
    as (ls & -> & Hls); [apply Hi| |].
  { apply Forall_forall. intros k. rewrite merge_sort_Permutation. by unfold active_set; rewrite elem_of_list_to_set. }
  set (items := (λ l, mkQueued (Available l) [id]) <$> ls).
  pose proof (claim_grew items e0 (with_queued (λ q, q ++ items) e1) eq_refl eq_refl) as Hg.
  destruct (claim_dispatch _) as [e' d'] eqn:Hc. destruct Hg as (Hg & Hs & Hnx). intros ?. simplify_eq. simpl in Hs, Hnx.
  assert (m_slots m !! id = None) as Hnone.
  { apply eq_None_not_Some. intros Hsome%(bi_ids _ _ Hi). unfold id in Hsome. subst e0. lia. }
  split; [|split; [done|subst id e0; lia]].
  apply (inv_enter _ _ _ items); simpl; [done|apply Hi|done|rewrite Hnx; subst id e0; lia| | |].
  - intros j b. rewrite Hs. intros [[<- <-]|[Hne Hj]]%lookup_insert_Some; [right|by left].
    split_and!; [done|done|done|]. rewrite Hnx. lia.
  - rewrite Hnx. apply Forall_fmap, Forall_forall. intros l _. simpl. repeat constructor. lia.
  - intros j. rewrite Hs, addressed_app, known_app. subst items. rewrite addressed_replay.
    case_bool_decide as Hj.
    + intros _. subst j. rewrite (addressed_fresh _ _ _ (bi_issued _ _ Hi)) by (subst id e0; lia).
      rewrite learned_all, Hls. unfold active_set. rewrite merge_sort_Permutation. set_solver.
    + rewrite lookup_insert_ne by done. simpl. apply (bi_known _ _ Hi).
Qed.

Lemma kept_unsubscribe exact m id : bridge_inv exact m → bridge_inv exact (enter (unsubscribe id (m_inner m)) false m).
Proof.
  intros Hi. apply (inv_enter _ _ _ []); simpl; [done|apply Hi| |done| |done|].
  - split; simpl; [by rewrite (right_id_L [] (++))|by rewrite orb_false_r|done|done].
  - intros j b [_ Hj]%lookup_delete_Some. by left.
  - intros j [b [_ Hj]%lookup_delete_Some]. rewrite (right_id_L [] (++)). apply (bi_known _ _ Hi). by eexists.
Qed.

(** ** The dispatcher *)
Lemma one_thread exact m n pc :
  bridge_inv exact m → m_threads m !! n = Some pc → n = 0%nat ∧ m_threads m = [pc] ∧ m_dispatching m = true.
Proof.
  intros Hi Hn. destruct (bi_threads _ _ Hi) as [[Ht _]|(pc' & Ht & ?)]; rewrite Ht in Hn; [done|].
  apply list_lookup_singleton_Some in Hn as [-> ->]. done.
Qed.

Lemma inv_move (exact exact' : bool) m m' :
  bridge_inv exact m → (exact' = true → exact = true) →
  m_pool m' = m_pool m → m_issued m' = m_issued m →
  md_next_id (mp_events (m_inner m')) = md_next_id (mp_events (m_inner m)) →
  dom (m_slots m') = dom (m_slots m) →
  ((m_threads m' = [] ∧ m_dispatching m' = false) ∨ (∃ pc, m_threads m' = [pc] ∧ m_dispatching m' = true)) →
  (∀ id b, m_slots m' !! id = Some b → b = negb (bool_decide (calling (m_threads m') = Some id))) →
  (∀ id, calling (m_threads m') = Some id → id ∈ dom (m_slots m) ∨ calling (m_threads m) = Some id) →
  (exact' = true → m_queued m' ≠ [] → m_dispatching m' = true) →
  (∀ id, received id (m_log m') ++ outstanding id m' = received id (m_log m) ++ outstanding id m ∨
    (received id (m_log m') ++ outstanding id m' `sublist_of` received id (m_log m) ++ outstanding id m ∧
     (exact' = true → m_slots m !! id = None))) →
  bridge_inv exact' m'.
Proof.
  intros Hi Hex Hp His Hn Hd Ht Hs Hc Hb Ho.
  assert (∀ id, is_Some (m_slots m' !! id) → is_Some (m_slots m !! id)) as Hdom.
  { intros id. by rewrite <-!elem_of_dom, Hd. }
  split; rewrite ?Hp, ?His, ?Hn; try done.
  - apply Hi.
  - intros id Hid. by apply (bi_ids _ _ Hi), Hdom.
  - intros id [Hid%elem_of_dom|Hid]%Hc; [by apply (bi_ids _ _ Hi)|by apply (bi_calling _ _ Hi)].
  - apply Hi.
  - intros id. pose proof (bi_order _ _ Hi id) as Hold. destruct (Ho id) as [->|[Hsub _]]; [done|by etrans].
  - intros He id Hid%Hdom. destruct (Ho id) as [->|[_ Hsl]]; [|by rewrite Hsl in Hid; destruct Hid].
    by apply (bi_exact _ _ Hi); [apply Hex|].
  - intros id Hid%Hdom. by apply (bi_known _ _ Hi).
Qed.

Lemma slot_true exact m id b :
  bridge_inv exact m → calling (m_threads m) = None → m_slots m !! id = Some b → b = true.
Proof. intros Hi Hc Hb. rewrite (bi_slots _ _ Hi _ _ Hb), Hc. done. Qed.

Lemma kept_dispatch exact m n m' : bridge_inv exact m → act (BDispatch n) m = Some m' → bridge_inv exact m'.
Proof.
  intros Hi. simpl. destruct (m_threads m !! n) as [pc|] eqn:Hn; [|done]. simpl.
  destruct (one_thread _ _ _ _ Hi Hn) as (-> & Ht & Hd).
  destruct pc as [|event ids|event id ids]; simpl.
  - destruct (md_queued (mp_events (m_inner m))) as [|q rest] eqn:Hq; intros ?; simplify_eq; rewrite Ht;
      (apply (inv_move exact _ m); try done; simpl).
    + by left.
    + intros j b Hb. by apply (slot_true _ _ j _ Hi); [rewrite Ht|].
    + intros j. left. unfold outstanding. simpl. by rewrite Ht, Hq, (right_id_L [] (++)).
    + right. by eexists.
    + intros j b Hb. by apply (slot_true _ _ j _ Hi); [rewrite Ht|].
    + intros j. left. unfold outstanding. simpl. by rewrite Ht, Hq, !(right_id_L [] (++)).
  - destruct ids as [|id ids].
    { intros ?; simplify_eq. rewrite Ht. apply (inv_move exact _ m); try done; simpl.
      - right. by eexists.
      - intros j b Hb. by apply (slot_true _ _ j _ Hi); [rewrite Ht|].
      - intros j. left. unfold outstanding. simpl. by rewrite Ht, (right_id_L [] (++)). }
    destruct (md_subscribers (mp_events (m_inner m)) !! id) as [b|] eqn:Hb.
    + assert (b = true) as -> by (apply (slot_true _ _ _ _ Hi) in Hb; [done|by rewrite Ht]).
      intros ?; simplify_eq. rewrite Ht. apply (inv_move exact _ m); try done; simpl.
      * unfold m_slots. simpl. apply dom_insert_lookup_L. by eexists.
      * right. by eexists.
      * intros j b. unfold m_slots. simpl. intros [[<- <-]|[Hne Hj]]%lookup_insert_Some.
        { by rewrite bool_decide_eq_true_2. }
        rewrite bool_decide_eq_false_2 by congruence. by apply (slot_true _ _ _ _ Hi) in Hj; [|rewrite Ht].
      * intros j [= <-]. left. apply elem_of_dom. by eexists.
      * intros j. left. unfold outstanding. simpl. rewrite Ht, received_app. simpl. rewrite copies_cons.
        unfold received at 2. rewrite filter_cons. simpl. case_bool_decide; by case_decide; rewrite <-?(assoc_L (++)).
    + intros ?; simplify_eq. rewrite Ht. apply (inv_move exact _ m); try done; simpl.
      * right. by eexists.
      * intros j b Hj. by apply (slot_true _ _ _ _ Hi) in Hj; [|rewrite Ht].
      * intros j. unfold outstanding. simpl. rewrite Ht, (right_id_L [] (++)). simpl. rewrite copies_cons.
        case_bool_decide as Hj; [|by left]. subst j. right. split; [|done].
        apply sublist_app; [done|]. rewrite <-!(assoc_L (++)). by apply sublist_cons.
  - intros ?; simplify_eq. rewrite Ht. simpl. rewrite <-Ht, (right_id_L [] (++)). by destruct m.
Qed.

(** Afterwards every handler is back in its slot. *)
Lemma active_drop_slots exact m event id ids :
  bridge_inv exact m → m_threads m = [InCallback event id ids] →
  let i := active_drop id (m_inner m) in
  mp_pool i = m_pool m ∧ md_next_id (mp_events i) = md_next_id (mp_events (m_inner m)) ∧
  md_queued (mp_events i) = m_queued m ∧ md_dispatching (mp_events i) = m_dispatching m ∧
  dom (md_subscribers (mp_events i)) = dom (m_slots m) ∧
  ∀ j b, md_subscribers (mp_events i) !! j = Some b → b = true.
Proof.
  intros Hi Ht. assert (∀ j b, m_slots m !! j = Some b → b = negb (bool_decide (id = j))) as Hs.
  { intros j b Hj. rewrite (bi_slots _ _ Hi j b Hj), Ht. simpl. by rewrite (bool_decide_ext _ (id = j)) by naive_solver. }
  unfold active_drop, m_slots in *. destruct (md_subscribers (mp_events (m_inner m)) !! id) as [b|] eqn:Hb.
  - pose proof (Hs id b Hb) as ->. rewrite bool_decide_eq_true_2 by done. simpl. split_and!; try done.
    + by apply dom_insert_lookup_L.
    + intros j b [[_ <-]|[Hne Hj]]%lookup_insert_Some; [done|]. rewrite (Hs j b Hj).
      by rewrite bool_decide_eq_false_2.
  - split_and!; try done. intros j b Hj. rewrite (Hs j b Hj). rewrite bool_decide_eq_false_2; [done|]. congruence.
Qed.

Lemma kept_return exact m n m' : bridge_inv exact m → act (BReturn n) m = Some m' → bridge_inv exact m'.
Proof.
  intros Hi. simpl. destruct (m_threads m !! n) as [[|?|event id ids]|] eqn:Hn; try done. intros ?; simplify_eq.
  destruct (one_thread _ _ _ _ Hi Hn) as (-> & Ht & Hd).
  destruct (active_drop_slots _ _ _ _ _ Hi Ht) as (Hp & Hnx & Hq & Hdi & Hdom & Hsl).
  apply (inv_move exact _ m); rewrite ?Ht; try done; unfold m_dispatching, m_queued; simpl.
  - right. eexists. split; [done|congruence].
  - by intros _ _; rewrite Hdi.
  - intros j. left. unfold outstanding. simpl. by rewrite Ht, Hq.
Qed.

(** A panic ends the dispatcher: its handler is restored, but who was still
    to be told of the event is not. *)
Lemma kept_panic exact m n m' : bridge_inv exact m → act (BPanic n) m = Some m' → bridge_inv false m'.
Proof.
  intros Hi. simpl. destruct (m_threads m !! n) as [[|?|event id ids]|] eqn:Hn; try done. intros ?; simplify_eq.
  destruct (one_thread _ _ _ _ Hi Hn) as (-> & Ht & Hd).
  destruct (active_drop_slots _ _ _ _ _ Hi Ht) as (Hp & Hnx & Hq & Hdi & Hdom & Hsl).
  apply (inv_move exact _ m); rewrite ?Ht; try done; unfold m_dispatching, m_queued; simpl.
  - by left.
  - intros j. right. split; [|done]. unfold outstanding. simpl. rewrite Ht, Hq. simpl.
    apply sublist_app; [done|]. by apply sublist_inserts_l.
Qed.

(** ** Runs *)
Definition panics (l : list BridgeAction) : bool := existsb (λ a, match a with BPanic _ => true | _ => false end) l.

Lemma inv_act exact m a m' :
  bridge_inv exact m → act a m = Some m' → bridge_inv (exact && negb (panics [a])) m'.
Proof.
  intros Hi. destruct a as [|id|kernel id t fd flags|id|keys|n|n|n]; unfold panics; simpl existsb;
    rewrite ?andb_true_r, ?andb_false_r.
  - simpl. destruct (subscribe _) as [[i r] d] eqn:Hs. intros [= <-]. by eapply kept_subscribe.
  - intros [= <-]. by apply kept_unsubscribe.
  - simpl. destruct (add_memory _ _ _ _ _ _) as [[i r] d] eqn:Hs. intros [= <-]. by eapply kept_add.
  - simpl. destruct (remove_memory _ _) as [[i r] d] eqn:Hs. intros [= <-]. by eapply kept_remove.
  - simpl. case_bool_decide; [|done]. destruct (importer_drop _ _) as [i d] eqn:Hs. intros [= <-].
    by eapply kept_importer_drop.
  - by apply (kept_dispatch exact m n).
  - by apply (kept_return exact m n).
  - by apply (kept_panic exact m n).
Qed.

Lemma inv_runs exact l m m' :
  bridge_inv exact m → runs l m = Some m' → bridge_inv (exact && negb (panics l)) m'.
Proof.
  revert exact m. induction l as [|a l IH]; intros exact m Hi; simpl.
  { intros [= <-]. by rewrite andb_true_r. }
  intros (m1 & Ha & Hl)%bind_Some. pose proof (IH _ _ (inv_act _ _ _ _ Hi Ha) Hl) as Hm.
  unfold panics in *. simpl in *. by rewrite orb_false_r, <-andb_assoc, <-negb_orb in Hm.
Qed.

Lemma inv_initial policy : bridge_inv true (initial policy).
Proof.
  split; simpl; try done.
  - by left.
  - intros id [b Hb]. unfold m_slots in Hb. simpl in Hb. by rewrite lookup_empty in Hb.
Qed.

(** ** The dispatcher ends *)

(** The dispatcher alone, its callbacks returning. *)
Definition turn (m : Machine) : option Machine :=
  match m_threads m with
  | [] => None
  | InCallback _ _ _ :: _ => act (BReturn 0) m
  | _ => act (BDispatch 0) m
  end.
Fixpoint settle (fuel : nat) (m : Machine) : Machine :=
  match fuel with
  | O => m
  | S fuel => match turn m with Some m => settle fuel m | None => m end
  end.

(** How many steps that takes at most. *)
Definition pc_work (pc : DispatchPc) : nat :=
  match pc with
  | PopNext => 1 | Deliver _ ids => 2 * length ids + 2 | InCallback _ _ ids => 2 * length ids + 3
  end.
Definition queue_work (q : list QueuedMemoryEvent) : nat :=
  sum_list_with (λ q, 2 * length (q_subscribers q) + 2)%nat q.
Definition work (m : Machine) : nat := (sum_list_with pc_work (m_threads m) + queue_work (m_queued m))%nat.

Lemma turn_spec exact m pc :
  bridge_inv exact m → m_threads m = [pc] →
  ∃ m', turn m = Some m' ∧ bridge_inv exact m' ∧ (work m' < work m)%nat ∧
    m_pool m' = m_pool m ∧ dom (m_slots m') = dom (m_slots m) ∧ m_issued m' = m_issued m ∧
    (m_threads m' = [] → m_queued m' = []).
Proof.
  intros Hi Ht. unfold turn. rewrite Ht. destruct pc as [|event ids|event id ids].
  - assert (is_Some (act (BDispatch 0) m)) as [m' Hm'].
    { simpl. rewrite Ht. simpl. destruct (md_queued _); by eexists. }
    exists m'. split; [done|]. split; [by eapply kept_dispatch|]. simpl in Hm'. rewrite Ht in Hm'. simpl in Hm'.
    unfold work, m_queued. destruct (md_queued (mp_events (m_inner m))) eqn:Hq; simplify_eq; simpl; rewrite Ht; simpl;
      split_and!; try done; rewrite ?Hq; simpl; lia.
  - assert (is_Some (act (BDispatch 0) m)) as [m' Hm'].
    { simpl. rewrite Ht. simpl. destruct ids; [by eexists|]. simpl. destruct (md_subscribers _ !! _) as [[]|]; by eexists. }
    exists m'. split; [done|]. split; [by eapply kept_dispatch|]. simpl in Hm'. rewrite Ht in Hm'. simpl in Hm'.
    unfold work, m_queued. destruct ids as [|id ids]; simpl in Hm'; [|destruct (_ !! id) as [[]|] eqn:Hs];
      simplify_eq; simpl; rewrite Ht; simpl; split_and!; try done; try lia.
    unfold m_slots. simpl. apply dom_insert_lookup_L. by eexists.
  - eexists. split; [by simpl; rewrite Ht|].
    destruct (active_drop_slots _ _ _ _ _ Hi Ht) as (Hp & Hnx & Hq & Hdi & Hdom & Hsl).
    split; [eapply (kept_return _ _ 0); [done|by simpl; rewrite Ht]|].
    unfold work, m_queued in *. simpl. rewrite Ht. simpl. rewrite Hq. split_and!; try done. lia.
Qed.

Lemma settle_spec exact fuel m :
  bridge_inv exact m → (work m ≤ fuel)%nat →
  let m' := settle fuel m in
  bridge_inv exact m' ∧ m_threads m' = [] ∧ m_pool m' = m_pool m ∧ dom (m_slots m') = dom (m_slots m) ∧
  m_issued m' = m_issued m ∧ (exact = true ∨ m_threads m ≠ [] → m_queued m' = []).
Proof.
  revert m. induction fuel as [|fuel IH]; intros m Hi Hw.
  { assert (m_threads m = []) as Ht by (destruct (m_threads m) as [|[] ?] eqn:Ht; unfold work in Hw; rewrite Ht in Hw; simpl in Hw; [done|lia..]).
    simpl. split_and!; try done. intros [He|?]; [|done]. destruct (m_queued m) eqn:Hq; [done|].
    unfold work in Hw. rewrite Hq in Hw. unfold queue_work in Hw. simpl in Hw. lia. }
  destruct (bi_threads _ _ Hi) as [[Ht Hd]|(pc & Ht & Hd)].
  - simpl. unfold turn. rewrite Ht. split_and!; try done. intros [He|?]; [|done].
    destruct (m_queued m) eqn:Hq; [done|]. rewrite (bi_busy _ _ Hi He) in Hd; [done|]. by rewrite Hq.
  - destruct (turn_spec _ _ _ Hi Ht) as (m' & Hm' & Hi' & Hlt & Hp & Hdom & His & Hend). simpl. rewrite Hm'.
    destruct (IH m' Hi' ltac:(lia)) as (? & ? & Hp2 & Hd2 & His2 & Hq2).
    split_and!; try done; [congruence..|]. intros _. destruct (m_threads m') as [|? ?] eqn:Ht'; [|by apply Hq2; right].
    destruct fuel as [|fuel]; simpl; [by apply Hend|]. unfold turn. rewrite Ht'. by apply Hend.
Qed.

(** ** Properties *)

(** C10: Subscribers see the pool. Whatever threads subscribe, unsubscribe,
    import, remove and disconnect, in whatever order their steps interleave
    and also from within callbacks, as long as no callback panics: what a
    subscriber has been told and has still to be told adds up to exactly the
    generations that are active, replay included; and the dispatcher at work,
    its callbacks returning, ends and leaves nothing queued, so that every
    subscriber has then been told of exactly the active generations. *)
Theorem subscribers_informed (policy : ShrinkPolicy) (l : list BridgeAction) (m : Machine) :
  runs l (initial policy) = Some m → panics l = false →
  (∀ id, is_Some (m_slots m !! id) → known (received id (m_log m) ++ outstanding id m) = active_set (m_pool m)) ∧
  let m' := settle (work m) m in
  m_threads m' = [] ∧ m_queued m' = [] ∧ m_pool m' = m_pool m ∧ dom (m_slots m') = dom (m_slots m) ∧
  ∀ id, is_Some (m_slots m !! id) → known (received id (m_log m')) = active_set (m_pool m).
Proof.
  intros Hr Hp. pose proof (inv_runs _ _ _ _ (inv_initial policy) Hr) as Hi. rewrite Hp in Hi. simpl in Hi. split.
  { intros id Hid. by rewrite (bi_exact _ _ Hi eq_refl id Hid), (bi_known _ _ Hi id Hid). }
  destruct (settle_spec true (work m) m Hi (le_n _)) as (Hi' & Ht & Hpool & Hdom & His & Hq).
  specialize (Hq (or_introl eq_refl)). simpl. split_and!; try done. intros id Hid.
  assert (is_Some (m_slots (settle (work m) m) !! id)) as Hid' by (by rewrite <-elem_of_dom, Hdom, elem_of_dom).
  pose proof (bi_exact _ _ Hi' eq_refl id Hid') as He. unfold outstanding, m_queued in *.
  rewrite Ht, Hq in He. simpl in He. rewrite (right_id_L [] (++)) in He.
  by rewrite He, (bi_known _ _ Hi' id Hid'), Hpool.
Qed.

(** C33: One dispatcher, in order, at most once. In every interleaving,
    panicking callbacks included: at most one thread dispatches and the flag
    says whether one does; no handler is called while it is already being
    called; every subscriber's calls, followed by what is still queued for
    it, are a subsequence of what was queued for it, in that order; and
    importing and removing never panic. *)
Theorem dispatch_exclusive (policy : ShrinkPolicy) (l : list BridgeAction) (m : Machine) :
  runs l (initial policy) = Some m →
  (length (m_threads m) ≤ 1)%nat ∧ m_dispatching m = bool_decide (m_threads m ≠ []) ∧
  (∀ id b, m_slots m !! id = Some b → b = negb (bool_decide (calling (m_threads m) = Some id))) ∧
  (∀ id, received id (m_log m) ++ outstanding id m `sublist_of` addressed id (m_issued m)) ∧
  (∀ kernel id t fd flags, total (add_memory kernel id t fd flags (m_inner m)).1.2) ∧
  (∀ id, total (remove_memory id (m_inner m)).1.2).
Proof.
  intros Hr. pose proof (inv_runs _ _ _ _ (inv_initial policy) Hr) as Hi.
  split_and!.
  - destruct (bi_threads _ _ Hi) as [[-> _]|(pc & -> & _)]; simpl; lia.
  - destruct (bi_threads _ _ Hi) as [[-> ->]|(pc & -> & ->)]; by vm_compute.
  - apply Hi.
  - apply Hi.
  - intros kernel id t fd flags. destruct (add_memory _ _ _ _ _ _) as [[i r] d] eqn:Ha.
    exact (proj2 (kept_add _ _ _ _ _ _ _ _ _ _ Hi Ha)).
  - intros id. destruct (remove_memory _ _) as [[i r] d] eqn:Ha.
    exact (proj2 (kept_remove _ _ _ _ _ _ Hi Ha)).
Qed.

(** Two subscribers and two memories; the second subscriber comes while the
    first is being told of the first memory. *)
Module bridge_sample.
Definition kernel : Kernel :=
  mkKernel (λ fd, inr (mkStat 4096 8 fd)) (λ _, 2) 4096 (λ _ _ fd _, inr (0x7f0000000000 + 65536 * fd)).
Definition actions : list BridgeAction :=
  [BSubscribe; BAdd kernel 7 2 40 3; BDispatch 0; BDispatch 0; BSubscribe; BAdd kernel 9 2 41 3; BReturn 0; BRemove 7].
Definition reached : option Machine := runs actions (initial RequireSealed).
End bridge_sample.

Lemma subscribers_informed_witness :
  ∃ m, bridge_sample.reached = Some m ∧ length (m_threads m) = 1%nat ∧ length (m_log m) = 1%nat ∧
  active_set (m_pool m) = {[mkKey 9 2]} ∧
  known (received 0 (m_log (settle (work m) m))) = {[mkKey 9 2]} ∧
  known (received 1 (m_log (settle (work m) m))) = {[mkKey 9 2]}.
Proof.
  destruct bridge_sample.reached as [m|] eqn:Hm; [|by vm_compute in Hm]. exists m. split; [done|].
  destruct (subscribers_informed RequireSealed bridge_sample.actions m Hm eq_refl) as (_ & _ & _ & _ & _ & Hk).
  assert (active_set (m_pool m) = {[mkKey 9 2]}) as Ha by (vm_compute in Hm; injection Hm as <-; by vm_compute).
  assert (is_Some (m_slots m !! 0)) as H0 by (vm_compute in Hm; injection Hm as <-; by eexists).
  assert (is_Some (m_slots m !! 1)) as H1 by (vm_compute in Hm; injection Hm as <-; by eexists).
  split_and!; [..|done|by rewrite (Hk _ H0)|by rewrite (Hk _ H1)];
    (vm_compute in Hm; injection Hm as <-; reflexivity).
Defined.

Lemma dispatch_exclusive_witness :
  ∃ m, runs [BSubscribe; BSubscribe; BAdd bridge_sample.kernel 7 2 40 3; BDispatch 0; BDispatch 0; BPanic 0]
    (initial RequireSealed) = Some m ∧ m_dispatching m = false ∧
  received 1 (m_log m) ++ outstanding 1 m `sublist_of` addressed 1 (m_issued m) ∧
  length (received 0 (m_log m)) = 1%nat ∧ received 1 (m_log m) ++ outstanding 1 m = [].
Proof.
  destruct (runs _ _) as [m|] eqn:Hm; [|by vm_compute in Hm]. exists m. split; [done|].
  destruct (dispatch_exclusive RequireSealed _ m Hm) as (_ & Hd & _ & Hs & _).
  split; [|split; [apply Hs|]]; vm_compute in Hm; injection Hm as <-; [done|by split].
Defined.
