(* ===== verification/EventDispatch.v ===== *)
(** * The event handler of a ClientNode proxy

    Models [EventDispatch] of [pipewire/src/proxy/client_node.rs]: one handler
    owns the events of a node. It may be replaced or cleared at any time and
    may dispatch further events itself, which then wait their turn.

    A [ClientNode] can be shared between threads, so that calls come from any
    thread at any time: between any two critical sections of another, and
    from the application's code that runs inside a dispatch, that is from the
    handler and from the destructor of a displaced handler. *)

From S2P Require Import Prelude.
#[local] Open Scope Z_scope.

Section event_dispatch.
Context {E : Type}.

(** Handlers are known by a number. *)
Record EventDispatch := mkEventDispatch {
  ed_handler : option Z;
  ed_queued : list E;
  ed_dispatching : bool;
  ed_generation : Z;
}.
Definition EventDispatch_default : EventDispatch := mkEventDispatch None [] false 0.
Record ActiveHandler := mkActive { ah_handler : option Z; ah_generation : Z }.

(** ** The code between two locks *)
Definition set_event_handler (h : option Z) (s : EventDispatch) : EventDispatch :=
  mkEventDispatch h (ed_queued s) (ed_dispatching s) (wrap 64 (ed_generation s + 1)).

(** The start of [dispatch_event]: the handler to call, if it is for this
    call to do so, and whether the event was kept. *)
Definition dispatch_event (e : E) (s : EventDispatch) : EventDispatch * option ActiveHandler * bool :=
  if ed_dispatching s
  then (mkEventDispatch (ed_handler s) (ed_queued s ++ [e]) true (ed_generation s), None, true)
  else match ed_handler s with
  | None => (s, None, false)
  | Some h =>
      (mkEventDispatch None (ed_queued s ++ [e]) true (ed_generation s),
       Some (mkActive (Some h) (ed_generation s)), true)
  end.

(** [Drop for ActiveHandler] *)
Definition active_handler_drop (a : ActiveHandler) (s : EventDispatch) : EventDispatch :=
  let restore := bool_decide (ed_generation s = ah_generation a) && bool_decide (ed_handler s = None) in
  mkEventDispatch (if restore then ah_handler a else ed_handler s) (ed_queued s) false (ed_generation s).

(** Where the loop is: before its check of the generation, dropping the
    displaced handler, between check and queue, in the handler, or returned
    with [ActiveHandler] yet to be dropped. *)
Inductive LoopPc :=
| CheckGeneration
| Replacing (replacement : option Z)
| PopEvent
| Calling
| Dropping.

(** One step of the loop, with the events it hands out: to the handler of
    that number, or to nobody. *)
Definition loop_step (pc : LoopPc) (a : ActiveHandler) (s : EventDispatch) :
    EventDispatch * option (LoopPc * ActiveHandler) * list (option Z * E) :=
  match pc with
  | CheckGeneration =>
      if bool_decide (ed_generation s ≠ ah_generation a)
      then (mkEventDispatch None (ed_queued s) (ed_dispatching s) (ed_generation s),
            Some (Replacing (ed_handler s), mkActive (ah_handler a) (ed_generation s)), [])
      else (s, Some (PopEvent, a), [])
  | Replacing replacement => (s, Some (CheckGeneration, mkActive replacement (ah_generation a)), [])
  | PopEvent =>
      match ah_handler a, ed_queued s with
      | None, queued =>
          (mkEventDispatch (ed_handler s) [] false (ed_generation s), Some (Dropping, a),
           (λ e, (None, e)) <$> queued)
      | Some h, [] =>
          (mkEventDispatch (Some h) [] false (ed_generation s),
           Some (Dropping, mkActive None (ah_generation a)), [])
      | Some h, e :: queued =>
          (mkEventDispatch (ed_handler s) queued (ed_dispatching s) (ed_generation s), Some (Calling, a), [(Some h, e)])
      end
  | Calling => (s, Some (CheckGeneration, a), [])
  | Dropping => (active_handler_drop a s, None, [])
  end.

(** ** Runs

    With the state, the loops on the stack of each thread, innermost first,
    and a history: the handler last set, how often one was set, the events
    that were kept and what became of them. *)
Record Loop := mkLoop {
  l_state : EventDispatch;
  l_stacks : gmap Z (list (LoopPc * ActiveHandler));
  l_current : option Z;
  l_sets : Z;
  l_kept : list E;
  l_log : list (option Z * E);
}.
Inductive LoopAction :=
| LSet (h : option Z)
| LDispatch (e : E)
| LStep
| LPanic.

Definition stack (t : Z) (m : Loop) : list (LoopPc * ActiveHandler) := default [] (l_stacks m !! t).

(** Whether the application's code is running on a thread. *)
Definition in_application (st : list (LoopPc * ActiveHandler)) : bool :=
  match st with [] | (Replacing _, _) :: _ | (Calling, _) :: _ => true | _ => false end.

Definition loop_act (x : Z * LoopAction) (m : Loop) : option Loop :=
  let t := x.1 in
  match x.2 with
  | LSet h =>
      if in_application (stack t m)
      then Some (mkLoop (set_event_handler h (l_state m)) (l_stacks m) h (l_sets m + 1) (l_kept m) (l_log m))
      else None
  | LDispatch e =>
      if in_application (stack t m) then
        let '(s, started, kept) := dispatch_event e (l_state m) in
        Some (mkLoop s
          (match started with Some a => <[t := (CheckGeneration, a) :: stack t m]> (l_stacks m) | None => l_stacks m end)
          (l_current m) (l_sets m) (l_kept m ++ if kept then [e] else []) (l_log m))
      else None
  | LStep =>
      match stack t m with
      | (pc, a) :: rest =>
          let '(s, next, out) := loop_step pc a (l_state m) in
          Some (mkLoop s (<[t := option_list next ++ rest]> (l_stacks m)) (l_current m) (l_sets m) (l_kept m)
            (l_log m ++ out))
      | [] => None
      end
  | LPanic =>
      match stack t m with
      | (Calling, a) :: rest =>
          Some (mkLoop (active_handler_drop a (l_state m)) (<[t := rest]> (l_stacks m)) (l_current m) (l_sets m)
            (l_kept m) (l_log m))
      | _ => None
      end
  end.
Fixpoint loop_runs (l : list (Z * LoopAction)) (m : Loop) : option Loop :=
  match l with [] => Some m | x :: l => loop_act x m ≫= loop_runs l end.
Definition loop_start : Loop := mkLoop EventDispatch_default ∅ None 0 [] [].

(** ** Any threads: every event kept is taken once and in order, or queued *)
Definition taken_in_order (m : Loop) : Prop := (snd <$> l_log m) ++ ed_queued (l_state m) = l_kept m.

Lemma order_act x m m' : taken_in_order m → loop_act x m = Some m' → taken_in_order m'.
Proof.
  unfold taken_in_order, loop_act. intros Ho. destruct x as [t [h|e| |]]; simpl.
  - destruct (in_application _); [|done]. by intros [= <-].
  - destruct (in_application _); [|done]. unfold dispatch_event.
    destruct (ed_dispatching (l_state m)); [|destruct (ed_handler (l_state m))]; intros [= <-]; simpl;
      rewrite ?(right_id_L [] (++)); [by rewrite (assoc_L (++)), Ho..|done].
  - destruct (stack t m) as [|[pc a] rest]; [done|]. destruct pc as [|r| | |]; simpl.
    1: destruct (bool_decide _); intros [= <-]; simpl; by rewrite (right_id_L [] (++)).
    1,3,4: intros [= <-]; simpl; by rewrite (right_id_L [] (++)).
    destruct (ah_handler a) as [h|]; [destruct (ed_queued (l_state m)) as [|e q]|]; intros [= <-]; simpl;
      rewrite ?(right_id_L [] (++)) in *; [done| |].
    + by rewrite fmap_app, <-(assoc_L (++)).
    + rewrite fmap_app, <-list_fmap_compose, <-Ho. f_equal. apply list_fmap_id.
  - destruct (stack t m) as [|[[] a] rest]; try done. by intros [= <-].
Qed.
Lemma order_runs l m m' : taken_in_order m → loop_runs l m = Some m' → taken_in_order m'.
Proof.
  revert m. induction l as [|x l IH]; intros m Ho; simpl; [by intros [= <-]|].
  intros (m1 & H1 & H)%bind_Some. eapply IH, H. by eapply order_act.
Qed.

(** ** One thread *)
Record loop_inv (t : Z) (calm : bool) (m : Loop) : Prop := {
  li_sets : 0 ≤ l_sets m;
  li_generation : l_sets m < 2 ^ 64 → ed_generation (l_state m) = l_sets m;
  li_loop : l_sets m < 2 ^ 64 →
    match stack t m with
    | [] | [(Dropping, mkActive None _)] =>
        ed_dispatching (l_state m) = false ∧ ed_handler (l_state m) = l_current m ∧
        (calm = true → ed_queued (l_state m) = [])
    | [(pc, a)] =>
        pc ≠ Dropping ∧ ed_dispatching (l_state m) = true ∧ ah_generation a ≤ l_sets m ∧
        (pc = PopEvent → ah_generation a = l_sets m) ∧
        if bool_decide (ah_generation a = l_sets m)
        then ed_handler (l_state m) = None ∧
             l_current m = match pc with Replacing r => r | _ => ah_handler a end
        else l_current m = ed_handler (l_state m)
    | _ => False
    end;
}.

Implicit Types (m : Loop) (s : EventDispatch) (t : Z).

Lemma stack_insert t st s stacks c n k g : stack t (mkLoop s (<[t := st]> stacks) c n k g) = st.
Proof. unfold stack. simpl. by rewrite lookup_insert_eq. Qed.

Lemma loop_set t calm m h m' : loop_inv t calm m → loop_act (t, LSet h) m = Some m' → loop_inv t calm m'.
Proof.
  intros [Hs Hg Hl]. unfold loop_act. cbn [fst snd]. destruct (in_application (stack t m)) eqn:Hr; [|done].
  intros [= <-]. split; simpl; [lia| |].
  - intros Hb. rewrite Hg by lia. apply wrap_small. lia.
  - intros Hb. specialize (Hl ltac:(lia)). change (stack t _) with (stack t m).
    destruct (stack t m) as [|[pc a] [|]]; [naive_solver| |by destruct pc; destruct a as [[]]].
    destruct pc; try done.
    all: destruct Hl as (Hd & Hdi & Hle & _ & _); split_and!; [done|done|lia|done|];
      by rewrite bool_decide_eq_false_2 by lia.
Qed.

Lemma loop_dispatch t calm m e m' : loop_inv t calm m → loop_act (t, LDispatch e) m = Some m' → loop_inv t calm m'.
Proof.
  intros [Hs Hg Hl]. unfold loop_act. cbn [fst snd]. destruct (in_application (stack t m)) eqn:Hr; [|done].
  unfold dispatch_event. destruct (ed_dispatching (l_state m)) eqn:Hd.
  { intros [= <-]. split; simpl; [done|done|]. intros Hb. specialize (Hl Hb). change (stack t _) with (stack t m).
    destruct (stack t m) as [|[pc a] [|]]; [naive_solver| |done]. destruct pc; try done; naive_solver. }
  destruct (ed_handler (l_state m)) as [h|] eqn:Hh; intros [= <-]; split; simpl; try done; intros Hb; specialize (Hl Hb).
  - rewrite stack_insert. destruct (stack t m) as [|[pc a] [|]].
    + rewrite Hg by done. rewrite bool_decide_eq_true_2 by done. naive_solver lia.
    + destruct pc; try done; naive_solver.
    + by destruct pc; destruct a as [[]].
  - change (stack t _) with (stack t m). rewrite Hd, Hh. by destruct (stack t m) as [|[[] []] []].
Qed.

(** The loop steps: what they hand out goes to the handler last set. *)
Lemma loop_stepped t calm m m' :
  loop_inv t calm m → loop_act (t, LStep) m = Some m' →
  loop_inv t calm m' ∧ ∃ out, l_log m' = l_log m ++ out ∧ l_current m' = l_current m ∧
    (l_sets m < 2 ^ 64 → Forall (λ x, x.1 = l_current m) out).
Proof.
  intros [Hs Hg Hl]. unfold loop_act. cbn [fst snd]. destruct (stack t m) as [|[pc a] rest] eqn:Ha; [done|].
  destruct pc as [|r| | |]; simpl.
  - destruct (decide (ed_generation (l_state m) = ah_generation a)) as [Hc|Hc];
      [rewrite bool_decide_eq_false_2 by tauto|rewrite bool_decide_eq_true_2 by done]; simpl; intros [= <-];
      (split; [|by exists []]); split; simpl; try done; intros Hb; rewrite stack_insert; specialize (Hl Hb);
      destruct rest; try done; destruct Hl as (_ & Hd & Hle & _ & Hx); pose proof (Hg Hb) as Hgen.
    + rewrite Hc in Hgen. split_and!; done.
    + rewrite Hgen. rewrite bool_decide_eq_false_2 in Hx by congruence. rewrite bool_decide_eq_true_2 by done.
      naive_solver lia.
  - intros [= <-]. split; [|by exists []]. split; simpl; try done. intros Hb. rewrite stack_insert.
    specialize (Hl Hb). destruct rest; try done. destruct Hl as (_ & Hd & Hle & _ & Hx). by split_and!.
  - assert (l_sets m < 2 ^ 64 → rest = [] ∧ ed_handler (l_state m) = None ∧ l_current m = ah_handler a) as Hx.
    { intros Hb. specialize (Hl Hb). destruct rest; [|done]. destruct Hl as (_ & _ & _ & Hp & Hx).
      rewrite (Hp eq_refl), bool_decide_eq_true_2 in Hx by done. done. }
    destruct a as [[h|] g]; cbn [ah_handler ah_generation] in *;
      [destruct (ed_queued (l_state m)) as [|e q] eqn:Hq|]; simpl; intros [= <-].
    + split; [|by exists []]. split; simpl; try done. intros Hb. rewrite stack_insert.
      destruct (Hx Hb) as (-> & _ & ->). by split_and!.
    + split; [|eexists; split_and!; [done..|]; intros Hb; destruct (Hx Hb) as (_ & _ & ->); by repeat constructor].
      split; simpl; try done. intros Hb. rewrite stack_insert. specialize (Hl Hb). destruct (Hx Hb) as (-> & Hh & Hc).
      destruct Hl as (_ & ? & ? & Hp & _). split_and!; try done. simpl. rewrite (Hp eq_refl), bool_decide_eq_true_2 by done. done.
    + split; [|eexists; split_and!; [done..|]; intros Hb; destruct (Hx Hb) as (_ & _ & ->); by apply Forall_fmap, Forall_true].
      split; simpl; try done. intros Hb. rewrite stack_insert. destruct (Hx Hb) as (-> & -> & ->). by split_and!.
  - intros [= <-]. split; [|by exists []]. split; simpl; try done. intros Hb. rewrite stack_insert.
    specialize (Hl Hb). destruct rest; try done. destruct Hl as (_ & Hd & Hle & _ & Hx). by split_and!.
  - intros [= <-]. split; [|by exists []]. split; simpl; try done. intros Hb. rewrite stack_insert.
    specialize (Hl Hb). destruct a as [[h|] g]; destruct rest; try done; [by destruct Hl as [[] _]|]. simpl.
    destruct Hl as (Hd & <- & Hc). split_and!; try done.
    destruct (ed_handler (l_state m)); [by rewrite (bool_decide_eq_false_2 (Some _ = None)), andb_false_r|by destruct (_ && _)].
Qed.

Lemma loop_panicked t calm m m' : loop_inv t calm m → loop_act (t, LPanic) m = Some m' → loop_inv t false m'.
Proof.
  intros [Hs Hg Hl]. unfold loop_act. cbn [fst snd]. destruct (stack t m) as [|[[] a] rest] eqn:Ha; try done.
  intros [= <-]. split; simpl; try done. intros Hb. rewrite stack_insert. specialize (Hl Hb). destruct rest; [|done].
  destruct Hl as (_ & Hd & Hle & _ & Hx). rewrite Hg by done. split_and!; try done. case_bool_decide as Hc.
  - destruct Hx as [-> ->]. by rewrite !bool_decide_eq_true_2.
  - by rewrite bool_decide_eq_false_2 by congruence.
Qed.

Definition loop_panics (l : list (Z * LoopAction)) : bool :=
  existsb (λ x, match x.2 with LPanic => true | _ => false end) l.
Lemma loop_inv_runs t calm l m m' :
  Forall (λ x, x.1 = t) l → loop_inv t calm m → loop_runs l m = Some m' →
  loop_inv t (calm && negb (loop_panics l)) m'.
Proof.
  intros Hf. revert calm m. induction Hf as [|[u x] l Hu _ IH]; intros calm m Hi; simpl.
  { intros [= <-]. by rewrite andb_true_r. }
  simpl in Hu. subst u. intros (m1 & Ha & Hl)%bind_Some.
  assert (loop_inv t (calm && negb (match x with LPanic => true | _ => false end)) m1) as Hi1.
  { destruct x; rewrite ?andb_true_r, ?andb_false_r; [by eapply loop_set|by eapply loop_dispatch| |by eapply loop_panicked].
    by apply (loop_stepped _ _ _ _ Hi). }
  pose proof (IH _ _ Hi1 Hl) as Hm. unfold loop_panics in *. by rewrite <-andb_assoc, <-negb_orb in Hm.
Qed.
Lemma loop_inv_start t calm : loop_inv t calm loop_start.
Proof. by split. Qed.

(** ** The loop ends *)
Definition stale (m : Loop) (a : ActiveHandler) : nat :=
  if bool_decide (ed_generation (l_state m) = ah_generation a) then 0 else 2.
Definition loop_work (t : Z) (m : Loop) : nat :=
  match stack t m with
  | [(pc, a)] =>
      6 * length (ed_queued (l_state m)) +
      match pc with
      | CheckGeneration => 3 + stale m a | Replacing _ => 4 + stale m a | PopEvent => 2 | Calling => 6 | Dropping => 1
      end
  | _ => 0
  end.
Fixpoint loop_settle (t : Z) (fuel : nat) (m : Loop) : Loop :=
  match fuel with
  | O => m
  | S fuel => match loop_act (t, LStep) m with Some m => loop_settle t fuel m | None => m end
  end.

Lemma loop_progress t m :
  (length (stack t m) ≤ 1)%nat →
  match loop_act (t, LStep) m with
  | Some m' => (loop_work t m' < loop_work t m)%nat ∧ l_kept m' = l_kept m ∧ l_current m' = l_current m ∧ l_sets m' = l_sets m
  | None => stack t m = []
  end.
Proof.
  intros Hl. unfold loop_act, loop_work. cbn [fst snd].
  destruct (stack t m) as [|[pc a] [|]]; [done| |simpl in Hl; lia]. destruct pc as [|r| | |]; simpl.
  - unfold stale. destruct (decide (ed_generation (l_state m) = ah_generation a)) as [He|He].
    + rewrite (bool_decide_eq_false_2 (_ ≠ _)), (bool_decide_eq_true_2 (_ = _)) by tauto. simpl.
      rewrite stack_insert. split; [lia|done].
    + rewrite (bool_decide_eq_true_2 (_ ≠ _)), (bool_decide_eq_false_2 (_ = _)) by tauto. simpl.
      rewrite stack_insert. simpl. rewrite bool_decide_eq_true_2 by done. split; [lia|done].
  - rewrite stack_insert. split; [|done]. unfold stale. simpl. lia.
  - destruct (ah_handler a); [destruct (ed_queued _)|]; simpl; rewrite stack_insert; simpl; (split; [|done]); lia.
  - rewrite stack_insert. split; [|done]. unfold stale. simpl. case_bool_decide; lia.
  - rewrite stack_insert. split; [|done]. simpl. lia.
Qed.

Lemma inv_depth t calm m : loop_inv t calm m → l_sets m < 2 ^ 64 → (length (stack t m) ≤ 1)%nat.
Proof.
  intros [_ _ Hl] Hb. specialize (Hl Hb). destruct (stack t m) as [|[pc a] [|]]; simpl; [lia..|].
  by destruct pc; destruct a as [[]].
Qed.

Lemma loop_settles t calm fuel m :
  loop_inv t calm m → l_sets m < 2 ^ 64 → (loop_work t m ≤ fuel)%nat →
  let m' := loop_settle t fuel m in
  loop_inv t calm m' ∧ stack t m' = [] ∧ l_kept m' = l_kept m ∧ l_current m' = l_current m ∧ l_sets m' = l_sets m.
Proof.
  revert m. induction fuel as [|fuel IH]; intros m Hi Hb Hw;
    pose proof (loop_progress t m (inv_depth _ _ _ Hi Hb)) as Hp; cbn [loop_settle].
  - destruct (loop_act (t, LStep) m) as [m'|]; [|done]. destruct Hp as [? _]. lia.
  - destruct (loop_act (t, LStep) m) as [m'|] eqn:Hm'; [|done]. destruct Hp as (Hlt & <- & <- & Hset). rewrite <- Hset.
    apply IH; [by apply (loop_stepped _ _ _ _ Hi)|congruence|lia].
Qed.

Lemma settle_order t fuel m : taken_in_order m → taken_in_order (loop_settle t fuel m).
Proof.
  revert m. induction fuel as [|fuel IH]; intros m Ho; cbn [loop_settle]; [done|].
  destruct (loop_act (t, LStep) m) as [m'|] eqn:Hm'; [|done]. apply IH. by eapply order_act.
Qed.
End event_dispatch.
Arguments EventDispatch E : clear implicits.
Arguments Loop E : clear implicits.
Arguments LoopAction E : clear implicits.

(** ** Properties *)

(** C32: Every event has one owner. On any threads, in any interleaving, and
    whichever handlers panic: the events that were kept are taken one by one,
    each once and in the order they were kept, and what is not yet taken is
    queued. As long as one thread makes all the calls, from the application
    or from inside a handler or the destructor of one, which may dispatch
    further events and replace or clear the handler: each event is given to
    the handler that was set last, never to one displaced before, and to
    nobody only if there is none; and the loop ends when its handlers
    return, with the handler last set in place and, unless a handler has
    panicked, nothing left. *)
Theorem events_handed_over {E} (l : list (Z * LoopAction E)) (m : Loop E) :
  loop_runs l loop_start = Some m →
  (snd <$> l_log m) ++ ed_queued (l_state m) = l_kept m ∧
  ∀ t, Forall (λ x, x.1 = t) l → l_sets m < 2 ^ 64 →
    (∀ m', loop_act (t, LStep) m = Some m' →
      ∃ out, l_log m' = l_log m ++ out ∧ Forall (λ x, x.1 = l_current m) out) ∧
    let m' := loop_settle t (loop_work t m) m in
    stack t m' = [] ∧ ed_handler (l_state m') = l_current m ∧ ed_dispatching (l_state m') = false ∧
    (snd <$> l_log m') ++ ed_queued (l_state m') = l_kept m ∧
    (loop_panics l = false → ed_queued (l_state m') = []).
Proof.
  intros Hr. pose proof (order_runs l loop_start m eq_refl Hr) as Ho. split; [done|]. intros t Ht Hb.
  pose proof (loop_inv_runs t true _ _ _ Ht (loop_inv_start t true) Hr) as Hi. split.
  { intros m' Hm'. destruct (loop_stepped _ _ _ _ Hi Hm') as (_ & out & ? & _ & Hout). eauto. }
  destruct (loop_settles _ _ _ _ Hi Hb (le_n _)) as (Hi' & Ha & Hk & Hc & Hs). simpl.
  pose proof (li_loop _ _ _ Hi' ltac:(congruence)) as Hl. rewrite Ha in Hl. destruct Hl as (Hd & Hh & Hq).
  split_and!; [done|congruence|done|by rewrite (settle_order _ _ _ Ho)|]. intros Hp. apply Hq. by rewrite Hp.
Qed.

(** The handler 1 dispatches two more events while it is called with the
    first, and is replaced by 2 before it returns. *)
Definition sample_loop : list (Z * LoopAction Z) :=
  (λ x, (0, x)) <$> [LSet (Some 1); LDispatch 10; LStep; LStep; LDispatch 11; LDispatch 12; LSet (Some 2)].
Lemma events_handed_over_witness :
  ∃ m, loop_runs sample_loop loop_start = Some m ∧
  let m' := loop_settle 0 (loop_work 0 m) m in
  l_log m' = [(Some 1, 10); (Some 2, 11); (Some 2, 12)] ∧ ed_handler (l_state m') = Some 2 ∧ ed_queued (l_state m') = [].
Proof.
  destruct (loop_runs sample_loop loop_start) as [m|] eqn:Hm; [|by vm_compute in Hm]. exists m. split; [done|].
  assert (l_sets m = 2 ∧ l_current m = Some 2 ∧
    l_log (loop_settle 0 (loop_work 0 m) m) = [(Some 1, 10); (Some 2, 11); (Some 2, 12)]) as (Hs & Hc & Hl)
    by (vm_compute in Hm; injection Hm as <-; by vm_compute).
  destruct (events_handed_over sample_loop m Hm) as (_ & Ht).
  destruct (Ht 0 ltac:(by repeat constructor) ltac:(by rewrite Hs)) as (_ & _ & Hh & _ & _ & Hq).
  split; [exact Hl|]. split; [by rewrite Hh|by apply Hq].
Defined.

(** With a second thread the last claims fail. The loop of thread 1 has
    checked the generation when thread 2 sets handler 2: the event goes to
    the displaced handler 1. And when thread 2 sets it between the last check
    and the return, handler 1 is put back in its place. *)
Example displaced_handler_called :
  option_map l_log (loop_runs
    [(1, LSet (Some 1)); (1, LDispatch 10); (1, LStep); (2, LSet (Some 2)); (1, LStep)] loop_start)
  = Some [(Some 1, 10)].
Proof. by vm_compute. Qed.
Example displaced_handler_restored :
  option_map (λ m, (l_current m, ed_handler (l_state m))) (loop_runs
    [(1, LSet (Some 1)); (1, LDispatch 10); (1, LStep); (1, LStep); (1, LStep); (1, LStep);
     (2, LSet (Some 2)); (1, LStep); (1, LStep)] loop_start)
  = Some (Some 2, Some 1).
Proof. by vm_compute. Qed.
(** And the drop of a loop that has returned clears the flag of one that
    thread 2 has begun since, so that two loops run at once. *)
Example two_loops :
  option_map (λ m, (ed_dispatching (l_state m), length (stack 1 m), length (stack 2 m))) (loop_runs
    [(1, LSet (Some 1)); (1, LDispatch 10); (1, LStep); (1, LStep); (1, LStep); (1, LStep); (1, LStep);
     (2, LDispatch 11); (1, LStep); (1, LSet (Some 3)); (1, LDispatch 12)] loop_start)
  = Some (true, 1%nat, 1%nat).
Proof. by vm_compute. Qed.
