(* ===== verification/SessionBridge.v ===== *)
(** * The bridge from a proxy to its session

    Models [pipewire/src/node/session/client_node.rs]: the handlers that turn
    the events of a ClientNode proxy, of the memory pool and of the proxy's
    removal into commands of the session's runtime, and how their failures
    are kept. *)

From stdpp Require Import sorting.
From S2P Require Import Prelude PodCodec PodTypes PodCompound FrameHeader ClientNode NodeMemory NodeShared NodeActivation NodePort.
From S2P Require Import NodeCycle NodeConfig NodeOutput NodeSession NodeSessionLaws NodeWake NodeHistory NodeRuntime NodeRuntimeProps.
From S2P Require Import InboundMessage MemoryBridge.
#[local] Open Scope Z_scope.

(** The text of a terminal error, by what it is made from. *)
Inductive BridgeFailure :=
| ConversionFailed (e : SessionError)
| QueueFailed (e : CommandSendError).

Section bridge.
Context {K : Type} `{EventSys K, OutputProcess K}.

(** The runtime behind its handle, and the failure shared with the handlers. *)
Record ClientNodeSessionBridge := mkBridge {
  br_runtime : Runtime K;
  br_failure : option BridgeFailure;
}.
Implicit Types b : ClientNodeSessionBridge.

Definition terminal_error b : option BridgeFailure := br_failure b.
Definition record_failure (f : BridgeFailure) b : ClientNodeSessionBridge :=
  mkBridge (br_runtime b) (match br_failure b with None => Some f | first => first end).
Definition fail_bridge (e : SessionError) b : ClientNodeSessionBridge :=
  let b := record_failure (ConversionFailed e) b in mkBridge (terminate (br_runtime b)) (br_failure b).
Definition record_send_failure (e : CommandSendError) b : ClientNodeSessionBridge := record_failure (QueueFailed e) b.

(** Each handler also says which command it had accepted. *)
Definition send_or_record (c : SessionCommand) b : ClientNodeSessionBridge * list SessionCommand :=
  match try_send c (br_runtime b) with
  | (rt, Ok _) => (mkBridge rt (br_failure b), [c])
  | (rt, Err e) => (record_send_failure e (mkBridge rt (br_failure b)), [])
  | (rt, Panic) => (mkBridge rt (br_failure b), [])
  end.

Definition memory_command (e : MemoryPoolEvent) : SessionCommand :=
  match e with
  | Available lease => MemoryAvailable lease
  | Removed key => RemoveMemory key
  | PoolDisconnected => MemoryDisconnected
  end.

Definition on_proxy_event (e : ClientNode.Event) b : ClientNodeSessionBridge * list SessionCommand :=
  match command_from_wire e with
  | Ok c => send_or_record c b
  | Err e => (fail_bridge e b, [])
  | Panic => (b, [])
  end.
Definition on_memory_event (e : MemoryPoolEvent) b : ClientNodeSessionBridge * list SessionCommand :=
  send_or_record (memory_command e) b.
Definition on_removed b : ClientNodeSessionBridge * list SessionCommand := send_or_record Disconnect b.

(** [set_active], given what sending the method over the connection
    returned. *)
Definition bridge_set_active (sent : StdRes unit) (active : bool) b :
    ClientNodeSessionBridge * StdRes unit * list SessionCommand :=
  match sent with
  | Ok _ =>
      match try_send (SetActive active) (br_runtime b) with
      | (rt, Ok _) => (mkBridge rt (br_failure b), Ok tt, [SetActive active])
      | (rt, Err _) => (mkBridge rt (br_failure b), Err (Custom KBrokenPipe), [])
      | (rt, Panic) => (mkBridge rt (br_failure b), Panic, [])
      end
  | r => (b, r, [])
  end.

(** [spawn_tokio_with_clock]; the handlers are installed on the proxy, the
    pool and the proxy's listeners. *)
Definition bridge_spawn (tokio : bool) (capacity : Z) (w : World K) : Res RuntimeError ClientNodeSessionBridge :=
  rt ← spawn tokio capacity (ClientNodeSession_new, w); Ok (mkBridge rt None).
(** [shutdown] up to the join, and [Drop]. *)
Definition bridge_shutdown b : ClientNodeSessionBridge := mkBridge (terminate (br_runtime b)) (br_failure b).
Definition bridge_drop b : ClientNodeSessionBridge := mkBridge (drop_handle (br_runtime b)) (br_failure b).

(** ** Runs *)
Inductive BridgeInput :=
| IProxy (e : ClientNode.Event)
| IMemory (e : MemoryPoolEvent)
| IRemoved
| ISetActive (sent : StdRes unit) (active : bool)
| IPoll (p : Poll)
| IShutdown
| IDrop.
Definition input_typed (x : BridgeInput) : Prop := match x with IProxy e => event_nat e | _ => True end.
(** The clock panicked when a trigger fired. *)
Definition bridge_clock_panicked (l : list BridgeInput) : Prop := ∃ p, IPoll p ∈ l ∧ p_awake p = None.
Definition input_ok (clock : Prop) (x : BridgeInput) : Prop :=
  input_typed x ∧ match x with IPoll p => p_awake p = None → clock | _ => True end.

(** The command an input stands for. *)
Definition command_for (x : BridgeInput) : list SessionCommand :=
  match x with
  | IProxy e => match command_from_wire e with Ok c => [c] | _ => [] end
  | IMemory e => [memory_command e]
  | IRemoved => [Disconnect]
  | ISetActive (Ok _) active => [SetActive active]
  | _ => []
  end.

(** A step, and whether the caller of [set_active] was refused. *)
Definition bridge_act (x : BridgeInput) b : ClientNodeSessionBridge * list SessionCommand * bool :=
  match x with
  | IProxy e => (on_proxy_event e b, false)
  | IMemory e => (on_memory_event e b, false)
  | IRemoved => (on_removed b, false)
  | ISetActive sent active =>
      match bridge_set_active sent active b with
      | (b, r, cs) => (b, cs, match sent, r with Ok _, Err _ => true | _, _ => false end)
      end
  | IPoll p => (mkBridge (poll p (br_runtime b)) (br_failure b), [], false)
  | IShutdown => (bridge_shutdown b, [], false)
  | IDrop => (bridge_drop b, [], false)
  end.
Fixpoint bridge_use (l : list BridgeInput) b : ClientNodeSessionBridge * list SessionCommand * bool :=
  match l with
  | [] => (b, [], false)
  | x :: l =>
      let '(b, cs, refused) := bridge_act x b in
      let '(b, cs', refused') := bridge_use l b in (b, cs ++ cs', refused || refused')
  end.

(** ** Laws *)

(** The runtime is over, or will be at its next turn. *)
Definition ending (rt : Runtime K) : Prop := rt_stop rt = true ∨ is_Some (rt_result rt).

Record bridge_ok (w : World K) (clock : Prop) (sent wanted : list SessionCommand) (refused : bool) b : Prop := {
  bo_follows : follows (ClientNodeSession_new, w) clock sent (br_runtime b);
  bo_typed : Forall command_typed sent;
  bo_lossless : br_failure b = None → refused = false → sent = wanted;
  bo_ending : br_failure b ≠ None ∨ refused = true → ending (br_runtime b);
}.

Lemma ending_send c rt rt' r : ending rt → try_send c rt = (rt', r) → ending rt'.
Proof.
  unfold ending, try_send. destruct (rt_result rt) eqn:Hr.
  - intros _ [= <- _]. right. by rewrite Hr.
  - intros [Hs|[]]; [|done]. case_bool_decide; intros [= <- _]; by left.
Qed.
Lemma send_outcome c rt rt' r :
  try_send c rt = (rt', r) → r = Ok tt ∨ (∃ e, r = Err e) ∧ ending rt'.
Proof.
  unfold try_send, ending. destruct (rt_result rt) eqn:Hr.
  - intros [= <- <-]. right. rewrite Hr. eauto.
  - case_bool_decide; intros [= <- <-]; [right|by left]. simpl. eauto.
Qed.
Lemma ending_poll w clock sent rt p : follows (ClientNodeSession_new, w) clock sent rt → ending rt → ending (poll p rt).
Proof.
  intros Hf [Hs|[r Hr]]; unfold ending.
  - destruct (rt_result rt) as [r|] eqn:Hr; [unfold poll; rewrite Hr, Hr; eauto|].
    right. apply (poll_stopped (ClientNodeSession_new, w) clock session_new_inv sent rt p Hf Hr Hs).
  - unfold poll. rewrite Hr. right. by rewrite Hr.
Qed.

Lemma ok_send w clock sent wanted refused b c :
  bridge_ok w clock sent wanted refused b → command_typed c →
  let '(b', cs) := send_or_record c b in bridge_ok w clock (sent ++ cs) (wanted ++ [c]) refused b'.
Proof.
  intros [Hf Ht Hl He] Hc. unfold send_or_record. pose proof (follows_send (ClientNodeSession_new, w) clock sent (br_runtime b) c Hf) as Hs.
  destruct (try_send c (br_runtime b)) as [rt r] eqn:Hr. destruct (send_outcome _ _ _ _ Hr) as [->|[[e ->] Hen]].
  - split; simpl; [done|apply Forall_app; by split; [|constructor]|by intros; rewrite Hl|].
    intros Hx. eapply ending_send; [by apply He|done].
  - rewrite (right_id_L [] (++)). unfold record_send_failure, record_failure. simpl.
    split; simpl; [done|done| |done]. by destruct (br_failure b).
Qed.

Lemma ok_same w clock sent wanted refused b rt :
  bridge_ok w clock sent wanted refused b → follows (ClientNodeSession_new, w) clock sent rt → (ending (br_runtime b) → ending rt) →
  bridge_ok w clock (sent ++ []) (wanted ++ []) (refused || false) (mkBridge rt (br_failure b)).
Proof. intros [Hf Ht Hl He] Hr Hen. rewrite !(right_id_L [] (++)), orb_false_r. split; simpl; auto. Qed.

Lemma ok_act w clock sent wanted refused b x :
  bridge_ok w clock sent wanted refused b → input_ok clock x →
  let '(b', cs, r) := bridge_act x b in bridge_ok w clock (sent ++ cs) (wanted ++ command_for x) (refused || r) b'.
Proof.
  intros Hb [Hx Hclock]. destruct x as [e|e| |[[]|e|] active|p| |]; simpl in *; rewrite ?orb_false_r.
  - unfold on_proxy_event. pose proof (command_from_wire_typed e Hx) as Hp.
    destruct (command_from_wire e) as [c|e'|]; simpl in Hp; [by apply ok_send| |done].
    destruct Hb as [Hf Ht Hl He]. rewrite !(right_id_L [] (++)). unfold fail_bridge, record_failure.
    split; simpl; [by apply follows_stop|done|by destruct (br_failure b)|by left].
  - by apply ok_send; [|destruct e].
  - by apply ok_send.
  - destruct Hb as [Hf Ht Hl He]. pose proof (follows_send (ClientNodeSession_new, w) clock sent (br_runtime b) (SetActive active) Hf) as Hs.
    destruct (try_send (SetActive active) (br_runtime b)) as [rt r] eqn:Hr.
    destruct (send_outcome _ _ _ _ Hr) as [->|[[e ->] Hen]].
    + rewrite orb_false_r. split; simpl; [done|apply Forall_app; by split; [|constructor]|by intros; rewrite Hl|].
      intros Hx'. eapply ending_send; [by apply He|done].
    + rewrite orb_true_r, (right_id_L [] (++)). by split.
  - rewrite <-(orb_false_r refused). destruct b. by apply (ok_same _ _ _ _ _ _ _ Hb); [apply Hb|].
  - rewrite <-(orb_false_r refused). destruct b. by apply (ok_same _ _ _ _ _ _ _ Hb); [apply Hb|].
  - rewrite <-(orb_false_r refused). apply (ok_same _ _ _ _ _ _ _ Hb); [apply follows_poll; [exact session_new_inv|apply Hb|exact Hclock|apply Hb]|].
    eapply ending_poll, Hb.
  - rewrite <-(orb_false_r refused). apply (ok_same _ _ _ _ _ _ _ Hb); [by apply follows_stop, Hb|by left].
  - rewrite <-(orb_false_r refused). apply (ok_same _ _ _ _ _ _ _ Hb); [by apply follows_abort, follows_stop, Hb|].
    intros _. unfold drop_handle, abort. destruct (rt_result (terminate _)) eqn:Hr; by left.
Qed.

Lemma ok_use w clock l sent wanted refused b :
  bridge_ok w clock sent wanted refused b → Forall (input_ok clock) l →
  let '(b', cs, r) := bridge_use l b in
  bridge_ok w clock (sent ++ cs) (wanted ++ flat_map command_for l) (refused || r) b'.
Proof.
  intros Hb Hl. revert sent wanted refused b Hb.
  induction Hl as [|x l Hx _ IH]; intros sent wanted refused b Hb; simpl.
  { by rewrite !(right_id_L [] (++)), orb_false_r. }
  pose proof (ok_act w clock sent wanted refused b x Hb Hx) as Ha. destruct (bridge_act x b) as [[b1 cs] r].
  specialize (IH _ _ _ _ Ha). destruct (bridge_use l b1) as [[b2 cs'] r'].
  by rewrite !(assoc_L (++)), orb_assoc.
Qed.

Lemma ok_spawn tokio capacity w clock b :
  0 ≤ capacity → bridge_spawn tokio capacity w = Ok b → bridge_ok w clock [] [] false b.
Proof.
  intros Hc. unfold bridge_spawn. destruct (spawn tokio capacity _) as [rt| |] eqn:Hs; [|done..]. intros [= <-].
  split; simpl; [by eapply follows_spawn|done|done|by intros [|]].
Qed.
End bridge.
Arguments ClientNodeSessionBridge K : clear implicits.

(** ** Properties *)


(** The sample session set up through a bridge, and a memory event too many
    for a queue of one. *)
Module session_sample.
Definition small : ClientNodeSessionBridge unit :=
  mkBridge (mkRuntime 1 [] false false (ClientNodeSession_new, sample.w0) None (mkDiagnostics 0 0 0) None) None.
Definition inputs : list BridgeInput :=
  [IMemory (Available (sample.lease 1)); IPoll (mkPoll sample.kernel None (Some 0) None true true);
   IProxy (ECommand Start); IMemory (Removed (mkKey 1 1)); IRemoved].
End session_sample.

