(* ===== verification/WireSession.v ===== *)
(** * From the wire to the session

    What the decoder of ClientNode events promises the session that receives
    them. *)

From S2P Require Import Prelude PodTypes PodCodec PodLaws PodCompound PodParser PodParserLaws FrameHeader ClientNode ClientNodeLaws.
From S2P Require Import NodeMemory NodeShared NodeActivation NodePort NodeCycle NodeConfig NodeOutput NodeSession.
From S2P Require Import NodeSessionLaws NodeWake NodeHistory.
#[local] Open Scope Z_scope.

Lemma pop_u32_range p p' v : pop_u32 p = (p', Ok v) → u32_range v.
Proof. unfold pop_u32. intros H. pm_inv H. injection H as _ <-. apply wrap_range. lia. Qed.

(** The ranges of everything popped as an unsigned integer. *)
Ltac u32_facts :=
  repeat match goal with H : pop_u32 _ = (_, Ok _) |- _ => apply pop_u32_range in H end.

Lemma pop_region_range p p' r : pop_region p = (p', Ok r) → NodeConfig.region_typed r.
Proof. unfold pop_region. intros H. pm_inv H. injection H as _ <-. u32_facts. by split_and!. Qed.

Lemma region_typed_nat r : NodeConfig.region_typed r → region_wire_nat r.
Proof. intros (_ & [? _] & [? _]). by split. Qed.

Lemma pop_buffer_nat l p p' b : pop_buffer l p = (p', Ok b) → buffer_wire_nat b.
Proof.
  unfold pop_buffer. intros H. pm_inv H. injection H as _ <-. pm_facts.
  match goal with H : pop_region _ = _ |- _ => apply pop_region_range in H end.
  unfold buffer_wire_nat. simpl. split_and!; [done|..]; (eapply Forall_impl; [eassumption|]); simpl.
  - intros m (q & q' & Hm). unfold pop_meta in Hm. pm_inv Hm. injection Hm as _ <-. u32_facts. simpl.
    by match goal with H : u32_range _ |- _ => destruct H end.
  - intros d (q & q' & Hd). unfold pop_data in Hd. pm_inv Hd. injection Hd as _ <-. u32_facts. simpl.
    by repeat match goal with H : u32_range _ |- _ => destruct H end.
Qed.

Lemma raw_wf_fits p : raw_wf p → len (raw_data p) ≤ isize_max.
Proof.
  intros (s & t & _ & _ & Hs & Hsz & Hl & _ & Hd)%RawPod_wrap_inv. pose proof (pad_8_range s).
  rewrite Hd, len_take by lia. unfold u32_range, isize_max in *. lia.
Qed.

(** Every region a decoded event names comes from unsigned integers. *)
Lemma decode_transport_nat payload fds e : (decode_transport payload fds).2 = Ok e → event_nat e.
Proof.
  unfold decode_transport. destruct (parse_payload _ _) as [[[t c] a]|?|] eqn:Hp; [|done..].
  apply parse_payload_inv in Hp as (p & p' & Hp). unfold pop_transport in Hp. pm_inv Hp. injection Hp as _ -> -> ->.
  match goal with H : pop_region _ = _ |- _ => apply pop_region_range, region_typed_nat in H end.
  intros Hr. repeat case_match; by simplify_eq/=.
Qed.
Lemma decode_set_activation_nat payload fds e : (decode_set_activation payload fds).2 = Ok e → event_nat e.
Proof.
  unfold decode_set_activation. destruct (parse_payload _ _) as [[[node fd] a]|?|] eqn:Hp; [|done..].
  apply parse_payload_inv in Hp as (p & p' & Hp). pm_inv Hp. injection Hp as _ <- <- <-.
  match goal with H : pop_region _ = _ |- _ => apply pop_region_range, region_typed_nat in H end.
  destruct (_ && _); [simpl; intros Hr; ok_inv Hr; by injection Hr as <-|].
  intros Hr. repeat case_match; by simplify_eq/=.
Qed.

Lemma decode_event_nat opcode payload fds l e : (decode_event opcode payload fds l).2 = Ok e → event_nat e.
Proof.
  intros He. pose proof (decode_event_within _ _ _ _ _ He) as Hw. revert He.
  unfold decode_event. repeat case_bool_decide; try done.
  - apply decode_transport_nat.
  - intros (p & p' & Hm)%decode_plain_Ok. unfold pop_port_set_param in Hm. pm_inv Hm. injection Hm as _ <-.
    intros pod Hpod. simpl in Hw, Hpod. rewrite Hpod in Hw. destruct Hw as (_ & Hwf & _). by apply raw_wf_fits.
  - intros (p & p' & Hm)%decode_plain_Ok. unfold pop_port_use_buffers in Hm. pm_inv Hm. injection Hm as _ <-.
    pm_facts. simpl. eapply Forall_impl; [eassumption|]. intros b (q & q' & Hb). by eapply pop_buffer_nat.
  - intros (p & p' & Hm)%decode_plain_Ok. unfold pop_port_set_io in Hm. pm_inv Hm; injection Hm as _ <-; [done|].
    match goal with H : pop_region _ = _ |- _ => by apply pop_region_range, region_typed_nat in H end.
  - apply decode_set_activation_nat.
  - intros (p & p' & Hm)%decode_plain_Ok. pm_inv Hm. by injection Hm as _ <-.
Qed.

(** ** Properties *)


