(* ===== verification/ServerMessages.v ===== *)
(** * Messages of the scripted server

    Models [server/src/protocol/messages.rs]: the opcodes, the decoder of the
    client's methods, which depends on the interface each object was given,
    and the encoders of the events and of the few methods the tests send. *)

From S2P Require Import Prelude PodTypes PodCodec PodParser PodBuilder ClientNode InboundMessage.
From S2P Require Import Demarshal CoreClient.

Definition CORE_ID : Z := 0.
Definition CLIENT_ID : Z := 1.

Module core_method.
Definition HELLO : Z := 1.
Definition SYNC : Z := 2.
Definition GET_REGISTRY : Z := 5.
Definition CREATE_OBJECT : Z := 6.
Definition DESTROY : Z := 7.
End core_method.

Module server_event.
Definition INFO : Z := 0.
Definition DONE : Z := 1.
Definition ERROR : Z := 3.
Definition ADD_MEM : Z := 6.
Definition REMOVE_MEM : Z := 7.
Definition GLOBAL : Z := 0.
Definition GLOBAL_REMOVE : Z := 1.
End server_event.

Module client_method.
Definition UPDATE_PROPERTIES : Z := 2.
End client_method.

Module registry_method.
Definition BIND : Z := 1.
Definition DESTROY : Z := 2.
End registry_method.

Inductive ServerInbound :=
| InCoreHello (version : Z)
| InCoreSync (id seq : Z)
| InCoreGetRegistry (version new_id : Z)
| InCoreCreateObject (factory_name type_ : list byte) (version new_id : Z)
| InCoreDestroy (object_id : Z)
| InClientNodeMethod (object_id : Z) (method : Method)
| InClientUpdateProperties
| InRegistryBind (id : Z) (type_ : list byte) (version new_id : Z)
| InRegistryDestroy (id : Z)
| InUnknown (object_id opcode : Z).

Record ObjectRoute := mkRoute { route_interface : list byte; route_version : Z }.

Definition Routes : Type := gmap Z ObjectRoute.

(** [routes.get(&object_id).is_some_and(|route| route.interface == name)] *)
Definition routed (routes : Routes) (object_id : Z) (name : list byte) : bool :=
  match routes !! object_id with
  | Some route => bool_decide (route_interface route = name)
  | None => false
  end.

Definition CLIENT_NODE_INTERFACE : list byte := interface_name IClientNode.
Definition REGISTRY_INTERFACE : list byte := interface_name IRegistry.

Definition server_pod_error (e : PodError) : StdError := Custom KInvalidData.

(** [parse_struct]; what follows the struct is not looked at. *)
Definition parse_message {T} (payload : list byte) (parse : PM T) : StdRes T :=
  match (pop_struct parse (Parser_new payload)).2 with
  | Ok out => Ok out.1
  | Err e => Err (server_pod_error e)
  | Panic => Panic
  end.

(** [for _ in 0..n { pop_string()?; pop_string()?; }] *)
Definition skip_pair : PM unit := _ ← pop_string; _ ← pop_string; mret tt.
Definition skip_pairs (n : Z) : PM unit := _ ← pop_repeat (Z.to_nat n) skip_pair; mret tt.

Definition skip_create_properties : PM unit :=
  count ← pop_int;
  if bool_decide (0 ≤ count ≤ 256) then skip_pairs count
  else pm_res (Err (Invalid "invalid CreateObject property count")).

Definition skip_update_properties : PM unit := n_items ← pop_int; skip_pairs n_items.

Definition decode_core_method (opcode : Z) (payload : list byte) : StdRes ServerInbound :=
  if bool_decide (opcode = core_method.HELLO)
  then parse_message payload (version ← pop_int; mret (InCoreHello (as_u32 version))) else
  if bool_decide (opcode = core_method.SYNC)
  then parse_message payload
         (id ← pop_int; seq ← pop_int; mret (InCoreSync (as_u32 id) (as_u32 seq))) else
  if bool_decide (opcode = core_method.GET_REGISTRY)
  then parse_message payload
         (version ← pop_int; new_id ← pop_int;
          mret (InCoreGetRegistry (as_u32 version) (as_u32 new_id))) else
  if bool_decide (opcode = core_method.CREATE_OBJECT)
  then parse_message payload
         (factory_name ← pop_string; type_ ← pop_string; version ← pop_int;
          _ ← pop_struct skip_create_properties;
          new_id ← pop_int;
          mret (InCoreCreateObject factory_name type_ (as_u32 version) (as_u32 new_id))) else
  if bool_decide (opcode = core_method.DESTROY)
  then parse_message payload (object_id ← pop_int; mret (InCoreDestroy (as_u32 object_id))) else
  Ok (InUnknown CORE_ID opcode).

Definition decode_registry_method (object_id opcode : Z) (payload : list byte) : StdRes ServerInbound :=
  if bool_decide (opcode = registry_method.BIND)
  then parse_message payload
         (id ← pop_int; type_ ← pop_string; version ← pop_int; new_id ← pop_int;
          mret (InRegistryBind (as_u32 id) type_ (as_u32 version) (as_u32 new_id))) else
  if bool_decide (opcode = registry_method.DESTROY)
  then parse_message payload (id ← pop_int; mret (InRegistryDestroy (as_u32 id))) else
  Ok (InUnknown object_id opcode).

(** The match on [(object_id, opcode)]: the arms of Core and Client come
    before the two guarded by the route of the object. *)
Definition decode_inbound_message_with_routes (object_id opcode : Z) (payload : list byte)
    (routes : Routes) : StdRes ServerInbound :=
  if routed routes object_id CLIENT_NODE_INTERFACE then
    method ← map_err wire_error (decode_method opcode payload Limits_default);
    Ok (InClientNodeMethod object_id method)
  else if bool_decide (object_id = CORE_ID ∧ opcode ∈ [core_method.HELLO; core_method.SYNC;
      core_method.GET_REGISTRY; core_method.CREATE_OBJECT; core_method.DESTROY])
  then decode_core_method opcode payload
  else if bool_decide (object_id = CLIENT_ID ∧ opcode = client_method.UPDATE_PROPERTIES)
  then parse_message payload (_ ← pop_struct skip_update_properties; mret InClientUpdateProperties)
  else if routed routes object_id REGISTRY_INTERFACE
  then decode_registry_method object_id opcode payload
  else Ok (InUnknown object_id opcode).

Definition decode_inbound_message (object_id opcode : Z) (payload : list byte) : StdRes ServerInbound :=
  decode_inbound_message_with_routes object_id opcode payload ∅.

(** ** Encoders *)
Definition PAYLOAD_CAPACITY : Z := 8192.

Definition encode_struct_payload (build_op : BuilderOp) : StdRes (list byte) :=
  map_err server_pod_error (build_with (push_struct build_op) (zeros PAYLOAD_CAPACITY)).

Definition push_string_pair_list (props : list (list byte * list byte)) : BuilderOp :=
  push_int (as_i32 (len props)) ▷ op_each (λ kv, push_string kv.1 ▷ push_string kv.2) props.

Definition encode_core_hello_payload (version : Z) : StdRes (list byte) :=
  encode_struct_payload (push_int (as_i32 version)).

Definition encode_core_get_registry_payload (version new_id : Z) : StdRes (list byte) :=
  encode_struct_payload (push_int (as_i32 version) ▷ push_int (as_i32 new_id)).

Definition encode_core_sync_payload (id seq : Z) : StdRes (list byte) :=
  encode_struct_payload (push_int (as_i32 id) ▷ push_int (as_i32 seq)).

Definition encode_client_update_properties_empty_payload : StdRes (list byte) :=
  encode_struct_payload (push_struct (push_int 0)).

Definition encode_core_done_payload (id seq : Z) : StdRes (list byte) :=
  encode_struct_payload (push_int (as_i32 id) ▷ push_int (as_i32 seq)).

Definition encode_core_error_payload (id seq res : Z) (message : list byte) : StdRes (list byte) :=
  encode_struct_payload
    (push_int (as_i32 id) ▷ push_int (as_i32 seq) ▷ push_int res ▷ push_string message).

Record CoreAddMemPayload := mkAddMemPayload {
  am_id : Z; am_memory_type : Z; am_fd_index : Z; am_flags : Z;
}.

Definition encode_core_add_mem_payload (id memory_type fd_index flags : Z) : StdRes (list byte) :=
  encode_struct_payload
    (push_int (as_i32 id) ▷ push_id (mkId memory_type) ▷ push_fd fd_index ▷ push_int (as_i32 flags)).

Definition decode_core_add_mem_payload (payload : list byte) : StdRes CoreAddMemPayload :=
  parse_message payload
    (id ← pop_int; memory_type ← pop_id Z; fd_index ← pop_fd; flags ← pop_int;
     mret (mkAddMemPayload (as_u32 id) (id_value memory_type) (fd_value fd_index) (as_u32 flags))).

Definition encode_core_remove_mem_payload (id : Z) : StdRes (list byte) :=
  encode_struct_payload (push_int (as_i32 id)).

Definition encode_core_info_payload (cookie : Z) (user_name host_name version name : list byte)
    (props : list (list byte * list byte)) : StdRes (list byte) :=
  encode_struct_payload
    (push_int (as_i32 CORE_ID) ▷ push_int (as_i32 cookie) ▷ push_string user_name ▷
     push_string host_name ▷ push_string version ▷ push_string name ▷ push_long 1 ▷
     push_struct (push_string_pair_list props)).

Definition encode_registry_global_payload (id permissions : Z) (type_ : list byte) (version : Z)
    (props : list (list byte * list byte)) : StdRes (list byte) :=
  encode_struct_payload
    (push_int (as_i32 id) ▷ push_int (as_i32 permissions) ▷ push_string type_ ▷
     push_int (as_i32 version) ▷ push_struct (push_string_pair_list props)).

Definition encode_registry_global_remove_payload (id : Z) : StdRes (list byte) :=
  encode_struct_payload (push_int (as_i32 id)).
