(* ===== verification/ServerMessagesLaws.v ===== *)
(** * The client's methods as the scripted server reads them

    The server has decoders of its own ([ServerMessages]) for what the client
    library's generated encoders write ([MarshalMessages]). Both read structs
    field by field; a reader of the server is related to the one generated
    for the message, and the round trips of the latter carry over. *)

From S2P Require Import Prelude PodTypes PodCodec PodLaws PodCompound PodParser PodParserLaws.
From S2P Require Import PodBuilder ClientNode InboundMessage Marshal MarshalLaws MarshalMessages.
From S2P Require Import ClientNodeLaws Demarshal CoreClient ServerMessages.

(** ** Readers that agree

    Wherever [m] returns [a], [m'] returns a value with [R] and stops at the
    same place. *)
Definition agrees {A B} (m : PM A) (a : A) (m' : PM B) (R : B → Prop) : Prop :=
  ∀ p p', m p = (p', Ok a) → ∃ b, m' p = (p', Ok b) ∧ R b.

Lemma agrees_same {A} (m : PM A) a : agrees m a m (eq a).
Proof. intros p p' Hm. by exists a. Qed.

Lemma agrees_none {B} (c : B) : agrees (fields_decode no_fields) tt (mret c) (eq c).
Proof. intros p p' [= <-]. by exists c. Qed.

Lemma agrees_field {T A B C} (U : Pod T) (F : Fields A) x fs (m : PM B) (k : B → PM C) Q R :
  agrees (pop_pod U) x m Q → (∀ b, Q b → agrees (fields_decode F) fs (k b) R) →
  agrees (fields_decode (field U F)) (x, fs) (m ≫= k) R.
Proof.
  intros Hm Hk p p'. cbn [fields_decode field]. unfold mbind, pm_bind, mret, pm_ret.
  destruct (pop_pod U p) as [q [y|e|]] eqn:Hp; [|done..].
  destruct (fields_decode F q) as [q' [gs|e|]] eqn:Hq; [|done..]. intros [= <- <- <-].
  destruct (Hm p q Hp) as (b & -> & Hb). by apply (Hk b Hb).
Qed.

Lemma agrees_from {A S B} (F : Fields A) (to : S → A) (from : A → S) v (m : PM B) R :
  (∀ fs, to (from fs) = fs) → agrees (fields_decode F) (to v) m R →
  agrees (fs ← fields_decode F; mret (from fs)) v m R.
Proof.
  intros Hiso Hm p p'. unfold mbind, pm_bind, mret, pm_ret.
  destruct (fields_decode F p) as [q [fs|e|]] eqn:Hp; [|done..]. intros [= <- <-].
  apply Hm. by rewrite Hiso.
Qed.

(** Wherever [m] returns [a], [m'] fails. *)
Definition refuses {A B} (m : PM A) (a : A) (m' : PM B) : Prop :=
  ∀ p p', m p = (p', Ok a) → ∃ e, (m' p).2 = Err e.

Lemma refuses_field {T A B C} (U : Pod T) (F : Fields A) x fs (m : PM B) (k : B → PM C) :
  refuses (pop_pod U) x m → refuses (fields_decode (field U F)) (x, fs) (m ≫= k).
Proof.
  intros Hm p p'. cbn [fields_decode field]. unfold mbind, pm_bind, mret, pm_ret.
  destruct (pop_pod U p) as [q [y|e|]] eqn:Hp; [|done..].
  destruct (fields_decode F q) as [q' [gs|e|]] eqn:Hq; [|done..]. intros [= <- <- <-].
  destruct (Hm p q Hp) as [e He]. destruct (m p) as [q1 r]. cbn [snd] in He. subst r. by exists e.
Qed.

Lemma refuses_later {T A B C} (U : Pod T) (F : Fields A) x fs (m : PM B) (k : B → PM C) Q :
  agrees (pop_pod U) x m Q → (∀ b, Q b → refuses (fields_decode F) fs (k b)) →
  refuses (fields_decode (field U F)) (x, fs) (m ≫= k).
Proof.
  intros Hm Hk p p'. cbn [fields_decode field]. unfold mbind, pm_bind, mret, pm_ret.
  destruct (pop_pod U p) as [q [y|e|]] eqn:Hp; [|done..].
  destruct (fields_decode F q) as [q' [gs|e|]] eqn:Hq; [|done..]. intros [= <- <- <-].
  destruct (Hm p q Hp) as (b & -> & Hb). by apply (Hk b Hb q q').
Qed.

Lemma refuses_from {A S B} (F : Fields A) (to : S → A) (from : A → S) v (m : PM B) :
  (∀ fs, to (from fs) = fs) → refuses (fields_decode F) (to v) m →
  refuses (fs ← fields_decode F; mret (from fs)) v m.
Proof.
  intros Hiso Hm p p'. unfold mbind, pm_bind, mret, pm_ret.
  destruct (fields_decode F p) as [q [fs|e|]] eqn:Hp; [|done..]. intros [= <- <-].
  apply (Hm p q). by rewrite Hiso.
Qed.

Lemma pop_struct_shift {T} (m : PM T) pre d :
  pop_struct m (mkParser (pre ++ d) (len pre))
  = (mkParser (pre ++ d) (len pre + p_pos (pop_struct m (Parser_new d)).1), (pop_struct m (Parser_new d)).2).
Proof.
  unfold pop_struct. rewrite available_at. cbn [p_data p_pos Parser_new].
  replace (available (Parser_new d)) with (len d)
    by (unfold available, saturating_sub; simpl; pose proof (len_nonneg d); lia).
  cbv zeta. len_facts. rewrite (read_u32_skip pre d (len pre)) by lia.
  rewrite (read_u32_skip pre d (len pre + 4)) by lia. rewrite Z.sub_diag, Z.add_simpl_l.
  change (0 + 4) with 4. change (0 + 8) with 8.
  assert (∀ e, (mkParser (pre ++ d) (len pre), e)
    = (mkParser (pre ++ d) (len pre + p_pos (Parser_new d)), e : PodRes (T * Z))) as Hstay
    by (intros e; simpl; by rewrite Z.add_0_r).
  destruct (bool_decide (len d < 8)); [apply Hstay|].
  destruct (read_u32 d 0) as [size|e|]; res_cbn; [|apply Hstay..].
  destruct (pod_total_size size) as [total|e|]; res_cbn; [|apply Hstay..].
  destruct (bool_decide (len d < total)); [apply Hstay|].
  destruct (read_u32 d 4) as [t|e|]; res_cbn; [|apply Hstay..].
  destruct (bool_decide (t ≠ into_u32 TStruct)); [apply Hstay|].
  rewrite slice_skip by lia. replace (len pre + 8 - len pre) with 8 by lia.
  replace (len pre + 8 + size - len pre) with (8 + size) by lia.
  destruct (slice d _ _) as [body|e|]; res_cbn; [|apply Hstay..].
  destruct (m (Parser_new body)) as [q [r|e|]]; [done|apply Hstay..].
Qed.

Lemma pop_struct_same {A B} (m : PM A) (m' : PM B) a b p p' n :
  (∀ body, (m (Parser_new body)).2 = Ok a → (m' (Parser_new body)).2 = Ok b) →
  pop_struct m p = (p', Ok (a, n)) → pop_struct m' p = (p', Ok (b, n)).
Proof.
  intros Hm. unfold pop_struct, commit. cbv zeta.
  destruct (bool_decide (available p < 8)); [done|].
  destruct (read_u32 (p_data p) (p_pos p)) as [size|e|]; res_cbn; [|done..].
  destruct (pod_total_size size) as [total|e|]; res_cbn; [|done..].
  destruct (bool_decide (available p < total)); [done|].
  destruct (read_u32 (p_data p) (p_pos p + 4)) as [t|e|]; res_cbn; [|done..].
  destruct (bool_decide (t ≠ into_u32 TStruct)); [done|].
  destruct (slice _ _ _) as [body|e|]; res_cbn; [|done..].
  destruct (m (Parser_new body)).2 as [r|e|] eqn:Hr; res_cbn; [|done..]. intros [= <- -> <-].
  by rewrite (Hm _ Hr).
Qed.

Lemma pop_struct_refuses {A B} (m : PM A) (m' : PM B) a p p' n :
  (∀ body, (m (Parser_new body)).2 = Ok a → ∃ e, (m' (Parser_new body)).2 = Err e) →
  pop_struct m p = (p', Ok (a, n)) → ∃ e, (pop_struct m' p).2 = Err e.
Proof.
  intros Hm. unfold pop_struct, commit. cbv zeta.
  destruct (bool_decide (available p < 8)); [done|].
  destruct (read_u32 (p_data p) (p_pos p)) as [size|e|]; res_cbn; [|done..].
  destruct (pod_total_size size) as [total|e|]; res_cbn; [|done..].
  destruct (bool_decide (available p < total)); [done|].
  destruct (read_u32 (p_data p) (p_pos p + 4)) as [t|e|]; res_cbn; [|done..].
  destruct (bool_decide (t ≠ into_u32 TStruct)); [done|].
  destruct (slice _ _ _) as [body|e|]; res_cbn; [|done..].
  destruct (m (Parser_new body)).2 as [r|e|] eqn:Hr; res_cbn; [|done..]. intros [= <- -> <-].
  destruct (Hm _ Hr) as [e ->]. by exists e.
Qed.

(** A pod that is a struct can be popped as one. *)
Lemma pop_pod_struct {T} (enc : T → PodW Z) (m : PM T) p p' a :
  pop_pod {| encode := enc; decode := decode_struct m |} p = (p', Ok a) →
  ∃ n, pop_struct m p = (p', Ok (a, n)).
Proof.
  unfold pop_pod. destruct p as [data pos]. simpl.
  destruct (slice_from data pos) as [d|e|] eqn:Hd; res_cbn; [|done..].
  apply slice_inv in Hd as (H0 & H1 & _ & ->).
  set (d := take _ _).
  assert (data = take (Z.to_nat pos) data ++ d) as Hsplit.
  { subst d. rewrite (take_ge (drop _ _)); [by rewrite take_drop|]. rewrite length_drop. unfold len in *. lia. }
  assert (len (take (Z.to_nat pos) data) = pos) as Hpos by (unfold len in *; rewrite length_take; lia).
  pose proof (pop_struct_shift m (take (Z.to_nat pos) data) d) as Hs. rewrite Hpos, <- Hsplit in Hs.
  rewrite Hs. clear Hs. unfold decode_struct.
  assert (∀ q r n, pop_struct m (Parser_new d) = (q, Ok (r, n)) → p_pos q = n) as Hq.
  { clear. intros q r n. unfold pop_struct, commit. cbn [p_data p_pos Parser_new]. intros Hr.
    repeat match type of Hr with
    | context [if ?b then _ else _] => destruct b; [done|]
    | context [mbind _ ?r] => destruct r as [?| |]; simpl in Hr; [|done..]
    end. by simplify_eq/=. }
  destruct (pop_struct m (Parser_new d)) as [q [[r n]|e|]] eqn:Hr; cbn [fst snd]; res_cbn; [|done..].
  specialize (Hq q r n eq_refl). subst n. case_bool_decide; [done|].
  unfold checked_add. case_bool_decide; [|done]. simpl. intros [= <- <-]. by exists (p_pos q).
Qed.

(** ** Properties, whose pairs the server only counts *)
Lemma skip_pairs_agrees n p p' (items : list (list byte * list byte)) :
  pop_pairs pod_str pod_str n p = (p', Ok items) →
  ∃ us, pop_repeat n skip_pair p = (p', Ok us).
Proof.
  revert p items. induction n as [|n IH]; intros p items.
  { intros [= <- <-]. by exists []. }
  cbn [pop_pairs pop_repeat]. unfold mbind, pm_bind, mret, pm_ret.
  destruct (pop_pod pod_str p) as [p1 [k|e|]] eqn:Hk; [|done..].
  destruct (pop_pod pod_str p1) as [p2 [v|e|]] eqn:Hv; [|done..].
  destruct (pop_pairs pod_str pod_str n p2) as [p3 [l|e|]] eqn:Hl; [|done..]. intros [= <- <-].
  assert (skip_pair p = (p2, Ok tt)) as ->.
  { unfold skip_pair, mbind, pm_bind, pop_string. by rewrite Hk, Hv. }
  destruct (IH p2 l Hl) as (us & Hus). rewrite Hus. by eexists.
Qed.

Lemma pop_pairs_length {K V} (PK : Pod K) (PV : Pod V) n p p' items :
  pop_pairs PK PV n p = (p', Ok items) → length items = n.
Proof.
  revert p items. induction n as [|n IH]; intros p items; [by intros [= <- <-]|].
  simpl. unfold mbind, pm_bind, mret, pm_ret.
  destruct (pop_pod PK p) as [p1 [k|e|]]; [|done..]. destruct (pop_pod PV p1) as [p2 [v|e|]]; [|done..].
  destruct (pop_pairs PK PV n p2) as [p3 [l|e|]] eqn:Hl; [|done..]. intros [= <- <-].
  simpl. f_equal. by eapply IH.
Qed.

Lemma pairs_skipped (skip : PM unit) (items : PairList (list byte) (list byte)) :
  (∀ n q q', 0 ≤ n → len (pl_data items) = n →
     (∃ us, pop_repeat (Z.to_nat n) skip_pair q = (q', Ok us)) →
     ∀ p, pop_int p = (q, Ok n) → (skip p).2 = Ok tt) →
  agrees (pop_pod (pod_pairs pod_str pod_str)) items (pop_struct skip) (λ _, True).
Proof.
  intros Hskip p p' Hp. apply pop_pod_struct in Hp as (n & Hp).
  set (m := (n_items ← pop_int; _)) in Hp.
  assert (∀ body, (m (Parser_new body)).2 = Ok items → (skip (Parser_new body)).2 = Ok tt) as Hm.
  { intros body. subst m. unfold mbind, pm_bind. destruct (pop_int (Parser_new body)) as [q [c|e|]] eqn:Hc; [|done..].
    unfold with_capacity, pm_res. case_bool_decide; [done|].
    destruct (pop_pairs pod_str pod_str (Z.to_nat c) q) as [q' [l|e|]] eqn:Hl; [|done..].
    unfold mret, pm_ret. intros [= <-]. apply (Hskip c q q'); [lia| |by eapply skip_pairs_agrees|done].
    apply pop_pairs_length in Hl. simpl. unfold len. lia. }
  exists (tt, n). split; [|done]. by eapply pop_struct_same.
Qed.

Lemma update_properties_skipped items :
  agrees (pop_pod (pod_pairs pod_str pod_str)) items (pop_struct skip_update_properties) (λ _, True).
Proof.
  apply pairs_skipped. intros n q q' _ _ (us & Hus) p Hp. unfold skip_update_properties, skip_pairs, mbind, pm_bind.
  rewrite Hp. by rewrite Hus.
Qed.

Lemma create_properties_skipped items :
  len (pl_data items) ≤ 256 →
  agrees (pop_pod (pod_pairs pod_str pod_str)) items (pop_struct skip_create_properties) (λ _, True).
Proof.
  intros H256. apply pairs_skipped. intros n q q' H0 Hn (us & Hus) p Hp.
  unfold skip_create_properties, skip_pairs, mbind, pm_bind. rewrite Hp.
  rewrite bool_decide_eq_true_2 by lia. by rewrite Hus.
Qed.

Lemma create_properties_refused items :
  256 < len (pl_data items) →
  refuses (pop_pod (pod_pairs pod_str pod_str)) items (pop_struct skip_create_properties).
Proof.
  intros H256 p p' Hp. apply pop_pod_struct in Hp as (n & Hp). revert Hp. apply pop_struct_refuses.
  intros body. unfold skip_create_properties, mbind, pm_bind.
  destruct (pop_int (Parser_new body)) as [q [c|e|]]; [|done..].
  unfold with_capacity, pm_res. case_bool_decide; [done|].
  destruct (pop_pairs pod_str pod_str (Z.to_nat c) q) as [q' [l|e|]] eqn:Hl; [|done..].
  unfold mret, pm_ret. intros [= <-]. apply pop_pairs_length in Hl.
  rewrite bool_decide_eq_false_2; [by eexists|]. simpl in H256. unfold len in H256. lia.
Qed.

(** ** The decoder of the server on a struct the generated one reads *)
Lemma parse_message_agrees {A B} (m : PM A) (m' : PM B) a b payload n :
  agrees m a m' (eq b) → decode_struct m payload = Ok (a, n) → parse_message payload m' = Ok b.
Proof.
  intros Hm. unfold decode_struct, parse_message.
  destruct (pop_struct m (Parser_new payload)) as [q r] eqn:Hp. cbn [snd]. intros ->.
  erewrite (pop_struct_same m m'); [done| |exact Hp].
  intros body Hb. destruct (m (Parser_new body)) as [q' r] eqn:Hr. cbn [snd] in Hb. subst r.
  by destruct (Hm _ _ Hr) as (? & -> & <-).
Qed.

Lemma derived_agrees {A S B} (F : Fields A) (to : S → A) (from : A → S) v (m : PM B) b payload n :
  (∀ fs, to (from fs) = fs) → agrees (fields_decode F) (to v) m (eq b) →
  decode (derive_pod_struct F to from) payload = Ok (v, n) → parse_message payload m = Ok b.
Proof. intros Hiso Hm. apply parse_message_agrees. by apply (agrees_from F to). Qed.

Lemma derived_refuses {A S B} (F : Fields A) (to : S → A) (from : A → S) v (m : PM B) payload n :
  (∀ fs, to (from fs) = fs) → refuses (fields_decode F) (to v) m →
  decode (derive_pod_struct F to from) payload = Ok (v, n) → parse_message payload m = Err (Custom KInvalidData).
Proof.
  intros Hiso Hm%(refuses_from F to from); [|done]. cbn [decode derive_pod_struct]. unfold decode_struct, parse_message.
  destruct (pop_struct _ (Parser_new payload)) as [q r] eqn:Hp. cbn [snd]. intros ->.
  assert (∃ e, (pop_struct m (Parser_new payload)).2 = Err e) as [e ->]; [|done].
  eapply pop_struct_refuses; [|exact Hp]. intros body Hb. eapply Hm. by apply injective_projections.
Qed.

(** Field by field, both readers pop the same pods. *)
Ltac agree_fields :=
  repeat first
    [ apply agrees_none
    | eapply agrees_field; [apply agrees_same|intros ? <-] ].
Ltac agree_struct :=
  let H := fresh in intros H; eapply derived_agrees in H;
    [exact H|by intros; repeat match goal with x : _ * _ |- _ => destruct x | u : unit |- _ => destruct u end
    |agree_fields].

(** ** What each method means to the server *)
Definition core_inbound (m : CoreMethods) : StdRes ServerInbound :=
  match m with
  | CoreMethods_Hello o => Ok (InCoreHello (as_u32 (core_hello_version o)))
  | CoreMethods_Sync o => Ok (InCoreSync (as_u32 (core_sync_id o)) (as_u32 (core_sync_seq o)))
  | CoreMethods_Pong _ => Ok (InUnknown CORE_ID 3)
  | CoreMethods_Error _ => Ok (InUnknown CORE_ID 4)
  | CoreMethods_GetRegistry o =>
      Ok (InCoreGetRegistry (as_u32 (core_get_registry_version o)) (as_u32 (core_get_registry_new_id o)))
  | CoreMethods_CreateObject o =>
      if bool_decide (len (pl_data (core_create_object_props o)) ≤ 256) then
        Ok (InCoreCreateObject (core_create_object_factory_name o) (core_create_object_type o)
          (as_u32 (core_create_object_version o)) (as_u32 (core_create_object_new_id o)))
      else Err (Custom KInvalidData)
  | CoreMethods_Destroy o => Ok (InCoreDestroy (as_u32 (core_destroy_id o)))
  end.

Definition client_inbound (m : ClientMethods) : StdRes ServerInbound :=
  match m with
  | ClientMethods_UpdateProperties _ => Ok InClientUpdateProperties
  | _ => Ok (InUnknown CLIENT_ID (msg_opcode ClientMethods_marshal m))
  end.

Definition registry_inbound (id : Z) (m : RegistryMethods) : StdRes ServerInbound :=
  match m with
  | RegistryMethods_Bind o =>
      Ok (InRegistryBind (as_u32 (registry_bind_id o)) (registry_bind_type o)
        (as_u32 (registry_bind_version o)) (as_u32 (registry_bind_new_id o)))
  | RegistryMethods_Destroy o => Ok (InRegistryDestroy (as_u32 (registry_destroy_id o)))
  end.

(** The objects whose methods the server decodes, with the type of the
    methods and what becomes of them. Core and Client are known by their
    ids, as long as the client has made no object under these. *)
Inductive serves (routes : Routes) : Z → ∀ M, Marshallable M → (M → StdRes ServerInbound) → Prop :=
| serves_core :
    routed routes CORE_ID CLIENT_NODE_INTERFACE = false →
    serves routes CORE_ID CoreMethods CoreMethods_marshal core_inbound
| serves_client :
    routes !! CLIENT_ID = None →
    serves routes CLIENT_ID ClientMethods ClientMethods_marshal client_inbound
| serves_registry id version :
    id ≠ CORE_ID → id ≠ CLIENT_ID → routes !! id = Some (mkRoute REGISTRY_INTERFACE version) →
    serves routes id RegistryMethods RegistryMethods_marshal (registry_inbound id).

(** From the decoder of the enumeration to the one of the payload. *)
Lemma variant_decodes {T M} (vs : list (Variant M)) index payload (m : M) i d (U : Pod T) con o data n :
  NoDup (discriminants 0 (fst <$> vs)) → index m = i →
  vs !! i = Some (variant d U con) → m = con o → (∀ o', con o' = con o → o' = o) →
  is_Some (discriminants 0 (fst <$> vs) !! i) →
  m_decode (derive_marshallable vs index payload) (msg_opcode (derive_marshallable vs index payload) m) data
    = Ok (m, n) →
  decode U data = Ok (o, n).
Proof.
  intros Hnd Hi Hv Hm Hinj [op Hop]. simpl. rewrite Hi, Hop. simpl.
  rewrite (decode_variants_lookup _ _ _ _ _ _ Hnd Hop Hv). simpl.
  destruct (decode U data) as [[o' s]|e|]; simpl; [|done..]. intros [= Ho <-].
  by rewrite (Hinj o') by congruence.
Qed.

Ltac method_payload :=
  let H := fresh in intros H;
  eapply variant_decodes in H;
    [revert H|apply (bool_decide_unpack _); by vm_compute|reflexivity|reflexivity|reflexivity
    |by intros ? [= ->]|by vm_compute; eexists].

Lemma core_method_decodes m payload n :
  m_decode CoreMethods_marshal (msg_opcode CoreMethods_marshal m) payload = Ok (m, n) →
  decode_core_method (msg_opcode CoreMethods_marshal m) payload = core_inbound m.
Proof.
  destruct m as [o|o|o|o|o|o|o]; method_payload.
  - agree_struct.
  - agree_struct.
  - done.
  - done.
  - agree_struct.
  - cbn [core_inbound]. case_bool_decide.
    + agree_struct. eapply agrees_field; [by apply create_properties_skipped|]. intros ? _. agree_fields.
    + intros H'. eapply derived_refuses in H'; [exact H'|by intros (? & ? & ? & ? & ? & [])|].
      do 3 (eapply refuses_later; [apply agrees_same|intros ? <-]).
      apply refuses_field, create_properties_refused. lia.
  - agree_struct.
Qed.

Lemma registry_method_decodes id m payload n :
  m_decode RegistryMethods_marshal (msg_opcode RegistryMethods_marshal m) payload = Ok (m, n) →
  decode_registry_method id (msg_opcode RegistryMethods_marshal m) payload = registry_inbound id m.
Proof. destruct m as [o|o]; method_payload; agree_struct. Qed.

Lemma update_properties_decodes o payload n :
  decode pod_ClientUpdateProperties payload = Ok (o, n) →
  parse_message payload (_ ← pop_struct skip_update_properties; mret InClientUpdateProperties)
  = Ok InClientUpdateProperties.
Proof.
  agree_struct. eapply agrees_field; [apply update_properties_skipped|]. intros ? _. agree_fields.
Qed.

Lemma routed_other routes id name name' version :
  routes !! id = Some (mkRoute name version) → name ≠ name' → routed routes id name' = false.
Proof. intros Hr Hne. unfold routed. rewrite Hr. by rewrite bool_decide_eq_false_2. Qed.

Lemma routed_same routes id name version :
  routes !! id = Some (mkRoute name version) → routed routes id name = true.
Proof. intros Hr. unfold routed. rewrite Hr. by rewrite bool_decide_eq_true_2. Qed.

Lemma registry_not_client_node : REGISTRY_INTERFACE ≠ CLIENT_NODE_INTERFACE.
Proof. by vm_compute. Qed.

(** A method the generated decoder reads is read by the server. *)
Lemma serves_decodes routes id M (P : Marshallable M) inbound m payload n :
  serves routes id M P inbound → m_decode P (msg_opcode P m) payload = Ok (m, n) →
  decode_inbound_message_with_routes id (msg_opcode P m) payload routes = inbound m.
Proof.
  intros Hs Hd. unfold decode_inbound_message_with_routes. destruct Hs as [Hr|Hr|id version H0 H1 Hr].
  - rewrite Hr. pose proof (core_method_decodes m payload n Hd) as Hm. case_bool_decide as Hin; [done|].
    rewrite bool_decide_eq_false_2 by (by intros []).
    destruct m; try (exfalso; apply Hin; split; [done|]; set_solver); clear; by destruct (routed _ _ _).
  - unfold routed. rewrite Hr. rewrite bool_decide_eq_false_2 by (by intros []).
    destruct m as [o|o|o|o]; try (by rewrite bool_decide_eq_false_2 by (by intros [])).
    rewrite bool_decide_eq_true_2 by done. revert Hd. method_payload. apply update_properties_decodes.
  - rewrite (routed_other _ _ _ _ _ Hr registry_not_client_node), (routed_same _ _ _ _ Hr).
    rewrite !bool_decide_eq_false_2 by tauto. by eapply registry_method_decodes.
Qed.

(** ** Decoding untrusted bytes *)
Lemma parse_message_total {T} payload (m : PM T) :
  len payload ≤ isize_max → pm_safe m → total (parse_message payload m).
Proof.
  intros Hl Hm. unfold parse_message.
  destruct (pop_struct_safe m Hm (Parser_new payload) (Parser_new_wf payload Hl)) as [_ Ht].
  by destruct (pop_struct m (Parser_new payload)).2.
Qed.

Lemma skip_pairs_safe n : pm_safe (skip_pairs n).
Proof.
  unfold skip_pairs. apply pm_bind_safe; [|intros ?; apply pm_ret_safe].
  apply pop_repeat_safe. unfold skip_pair. repeat pm_safe_step.
Qed.

Lemma skip_create_safe : pm_safe skip_create_properties.
Proof.
  unfold skip_create_properties. apply pm_bind_safe; [apply pop_int_safe|]. intros n.
  destruct (bool_decide _); [apply skip_pairs_safe|by apply pm_res_safe].
Qed.

Lemma skip_update_safe : pm_safe skip_update_properties.
Proof.
  unfold skip_update_properties. apply pm_bind_safe; [apply pop_int_safe|]. intros n. apply skip_pairs_safe.
Qed.

Lemma core_method_total opcode payload :
  len payload ≤ isize_max → total (decode_core_method opcode payload).
Proof.
  intros Hl. unfold decode_core_method.
  repeat (destruct (bool_decide _); [apply parse_message_total; [done|]|]); [repeat pm_safe_step..| |repeat pm_safe_step|done].
  do 3 (apply pm_bind_safe; [auto with pm_safe|intros ?]).
  apply pm_bind_safe; [apply pop_struct_safe, skip_create_safe|]. intros ?. repeat pm_safe_step.
Qed.

Lemma registry_method_total object_id opcode payload :
  len payload ≤ isize_max → total (decode_registry_method object_id opcode payload).
Proof.
  intros Hl. unfold decode_registry_method.
  repeat (destruct (bool_decide _); [apply parse_message_total; [done|]; repeat pm_safe_step|]). done.
Qed.

Lemma inbound_message_total object_id opcode payload routes :
  len payload ≤ isize_max →
  total (decode_inbound_message_with_routes object_id opcode payload routes).
Proof.
  intros Hl. unfold decode_inbound_message_with_routes. destruct (routed _ _ CLIENT_NODE_INTERFACE).
  { pose proof (decode_method_total opcode payload Limits_default Hl).
    by destruct (decode_method _ _ _). }
  destruct (bool_decide _); [by apply core_method_total|].
  destruct (bool_decide _); [apply parse_message_total; [done|]|].
  { apply pm_bind_safe; [apply pop_struct_safe, skip_update_safe|]. intros ?. apply pm_ret_safe. }
  destruct (routed _ _ _); [by apply registry_method_total|done].
Qed.

(** ** Properties *)

(** C21: The scripted server understands the client library. A method of
    Core, Client or a Registry that the generated encoder writes, with any
    footer behind it, is decoded by the server's own decoder to the message
    it stands for, field by field; the methods it has no decoder for come
    out as unknown. A CreateObject with more than 256 properties, which the
    client encodes, is refused with an invalid-data error. Core and Client
    are the objects 0 and 1 as long as the client has made no object of its
    own under these ids. *)
Theorem client_methods_understood {M} (P : Marshallable M) `{!MarshalRound P} (routes : Routes)
    (id : Z) (inbound : M → StdRes ServerInbound) (m : M) (buf footer : list byte) :
  serves routes id M P inbound → mr_ok P m → mr_space P m ≤ len buf →
  len buf + len footer ≤ isize_max →
  ∃ body, m_encode P m buf = (body ++ drop (length body) buf, Ok (len body)) ∧
    decode_inbound_message_with_routes id (msg_opcode P m) (body ++ footer) routes = inbound m.
Proof.
  intros Hs Hm Hb Hl.
  destruct (mr_round m buf Hm) as [(body & He & Hlen & _ & _ & _ & Hd)|[? _]]; [|lia].
  exists body. split; [done|]. eapply serves_decodes; [done|]. apply Hd. len_lia.
Qed.

Definition create_example : CoreMethods :=
  CoreMethods_CreateObject (mkCoreCreateObject (bytes_of "client-node") CLIENT_NODE_INTERFACE 6
    (mkPairList [(bytes_of "node.name", bytes_of "sine")]) 3).

Lemma client_methods_understood_witness :
  ∃ body, m_encode CoreMethods_marshal create_example (zeros 256)
    = (body ++ drop (length body) (zeros 256), Ok (len body)) ∧
    decode_inbound_message_with_routes 0 6 (body ++ zeros 24) ∅
    = Ok (InCoreCreateObject (bytes_of "client-node") CLIENT_NODE_INTERFACE 6 3).
Proof.
  apply (client_methods_understood CoreMethods_marshal ∅ 0 core_inbound create_example
    (zeros 256) (zeros 24)).
  - by constructor.
  - cbn. split_and!;
      lazymatch goal with |- Forall _ _ => apply Forall_singleton | |- True => exact I | |- _ => by vm_compute end.
    unfold pair_ok. cbn. split_and!; by vm_compute.
  - by vm_compute.
  - by vm_compute.
Defined.
