(* ===== verification/ServerEvents.v ===== *)
(** * The server's events as the client library reads them

    The other direction of [ServerMessagesLaws]: what the server's encoders
    write is decoded by the client's generated decoders and reaches the
    listeners with the values of the action. The server's buffer has 8192
    bytes; the outcome of encoding into it is stated exactly. *)

From S2P Require Import Prelude Utf8 PodTypes PodCodec PodLaws PodCompound PodParser PodParserLaws.
From S2P Require Import PodBuilder FrameHeader ClientNode ClientNodeLaws ClientNodeWire ClientNodeEvents InboundMessage.
From S2P Require Import Marshal MarshalLaws MarshalMessages Properties Demarshal DemarshalLaws.
From S2P Require Import CoreClient ServerMessages.

(** ** Payloads *)
Definition payload_result (hole : option Z) (body : list byte) : StdRes (list byte) :=
  if bool_decide (hole = Some 8184) then Panic
  else if bool_decide (8 + len body ≤ PAYLOAD_CAPACITY) then Ok (struct_wire body)
  else Err (Custom KInvalidData).

Lemma payload_capacity : PAYLOAD_CAPACITY = capacity 3.
Proof. by vm_compute. Qed.

Lemma struct_payload_outcome {A} hole last op body (m : PM A) a :
  carries hole last op body m a → encode_struct_payload op = payload_result hole body.
Proof.
  intros [Hop Hn Ha _]. unfold encode_struct_payload, payload_result. rewrite payload_capacity.
  assert (capacity 3 = 8192) as Hc by by vm_compute.
  assert (in_hole hole (capacity 3 - 8) ↔ hole = Some 8184) as Hh.
  { rewrite Hc. destruct hole as [n|]; simpl; [|done]. destruct Hn as [_ Hn].
    split; [|intros [= ->]; lia]. intros Hr. f_equal. apply Z.mod_divide in Hn as [x ->]; lia. }
  case_bool_decide as H.
  - by rewrite (encode_step_crash op body _ Hop Ha 3 (proj2 Hh H)).
  - case_bool_decide as Hl.
    + by rewrite (encode_step_fits op body _ Hop Ha 3 Hl).
    + rewrite (encode_step_short op body _ Hop Ha 3); [done|lia|tauto].
Qed.

(** A message that was encoded, read by the client's decoder. *)
Lemma struct_payload_decodes {A} hole op body (m : PM A) a payload :
  carries hole true op body m a → encode_struct_payload op = Ok payload →
  len payload ≤ 8192 ∧
  ∀ rest, len (payload ++ rest) ≤ isize_max → decode_struct m (payload ++ rest) = Ok (a, len payload).
Proof.
  intros Hc. rewrite (struct_payload_outcome _ _ _ _ _ _ Hc). destruct Hc as [_ _ Ha Hp].
  unfold payload_result. case_bool_decide; [done|]. case_bool_decide as Hl; [|done]. intros [= <-].
  unfold PAYLOAD_CAPACITY in Hl. split; [rewrite struct_wire_aligned by done; len_lia|].
  intros rest Hr. unfold decode_struct. erewrite parses_run; [done| |done].
  apply parses_struct; [lia|]. rewrite (reads_run m body a); [done|apply Hp; lia|unfold isize_max; lia].
Qed.

(** ** Fields *)
Lemma carries_field {T A} (U : Pod T) (F : Fields A) hole last op op' w bs x fs :
  carries None false op w (pop_pod U) x → carries hole last op' bs (fields_decode F) fs →
  carries (Z.add (len w) <$> hole) last (op ▷ op') (w ++ bs) (fields_decode (field U F)) (x, fs).
Proof.
  intros Hx Hfs. cbn [fields_decode field]. eapply carries_seq; [exact Hx|].
  destruct Hfs as [H1 Hn Ha Hp]. split; try done. intros Hl pre rest Hr Hlast.
  unfold mbind, pm_bind. by rewrite (Hp Hl pre rest Hr Hlast).
Qed.

Lemma carries_last {T} (U : Pod T) hole last op w x :
  carries hole false op w (pop_pod U) x →
  carries hole last op w (fields_decode (field U no_fields)) (x, tt).
Proof.
  intros Hx. cbn [fields_decode field]. eapply carries_map; [exact Hx|].
  intros pre rest _ _. unfold mbind, pm_bind, mret, pm_ret. cbn. by rewrite len_nil, Z.add_0_r.
Qed.

Lemma carries_from {A S} hole last op bs (F : Fields A) (from : A → S) fs :
  carries hole last op bs (fields_decode F) fs →
  carries hole last op bs (fs ← fields_decode F; mret (from fs)) (from fs).
Proof.
  intros [H1 Hn Ha Hp]. split; try done. intros Hl pre rest Hr Hlast. unfold mbind, pm_bind.
  by rewrite (Hp Hl pre rest Hr Hlast).
Qed.

(** ** Strings and properties *)
Definition text (s : list byte) : Prop := utf8_valid s = true ∧ len s + 1 < 2 ^ 32.
Definition props_typed (props : list (list byte * list byte)) : Prop :=
  Forall (λ kv, text kv.1 ∧ text kv.2) props ∧ len props < 2 ^ 31.

Lemma carries_text {last} s : text s → carries None last (push_string s) (str_wire s) (pop_pod pod_str) s.
Proof. intros [? ?]. by apply carries_string. Qed.

Definition pairs_wire (props : list (list byte * list byte)) : list byte :=
  concat ((λ kv, str_wire kv.1 ++ str_wire kv.2) <$> props).

Lemma carries_pairs props :
  Forall (λ kv, text kv.1 ∧ text kv.2) props →
  carries None false (op_each (λ kv, push_string kv.1 ▷ push_string kv.2) props) (pairs_wire props)
    (pop_pairs pod_str pod_str (length props)) props.
Proof.
  induction 1 as [|[k v] props [Hk Hv] _ IH]; [apply carries_ret|]. cbn [length pop_pairs].
  change (pairs_wire ((k, v) :: props)) with ((str_wire k ++ str_wire v) ++ pairs_wire props).
  rewrite <- app_assoc.
  destruct (carries_bind false (push_string k) (push_string v ▷ op_each (λ kv, push_string kv.1 ▷ push_string kv.2) props)
    (str_wire k) (str_wire v ++ pairs_wire props) (pop_pod pod_str)
    (λ key, value ← pop_pod pod_str; items ← pop_pairs pod_str pod_str (length props); mret ((key, value) :: items))
    k ((k, v) :: props)) as [H1 Hn Ha Hp].
  { by apply carries_text. }
  { eapply carries_bind; [by apply carries_text|]. eapply carries_map; [exact IH|]. apply reads_ret. }
  split; [|done|done|done]. cbn [op_each foldr fst snd].
  pose proof (carries_op _ _ _ _ _ _ (carries_text (last:=false) k Hk)) as Ok_.
  pose proof (carries_op _ _ _ _ _ _ (carries_text (last:=false) v Hv)) as Ov.
  eapply op_spec_ext; [exact (op_spec_seq _ _ _ _ _ _ (op_spec_seq _ _ _ _ _ _ Ok_ Ov) (carries_op _ _ _ _ _ _ IH))
    |by rewrite <- app_assoc|].
  intros r _. unfold crash_seq. simpl. tauto.
Qed.

Lemma carries_nested {A} (enc : A → PodW Z) last op bs (m : PM A) a :
  carries None true op bs m a →
  carries (Some 0) last (push_struct op) (struct_wire bs)
    (pop_pod {| encode := enc; decode := decode_struct m |}) a.
Proof.
  intros [Hop _ Ha Hp].
  assert (len (struct_wire bs) = 8 + len bs) as Hlen
    by (rewrite struct_wire_aligned by done; len_lia).
  split; [|done|apply sized_wire_aligned|].
  { eapply op_spec_ext; [by apply op_spec_struct|done|]. simpl. lia. }
  intros Hl. apply reads_parses, parses_decode. intros rest Hr. cbn [decode]. unfold decode_struct.
  erewrite parses_run; [done| |done].
  apply parses_struct; [lia|]. rewrite (reads_run m bs a); [done|apply Hp; lia|unfold isize_max; lia].
Qed.

Definition props_wire (props : list (list byte * list byte)) : list byte :=
  struct_wire (int_wire (len props) ++ pairs_wire props).

Lemma carries_props {last} props :
  props_typed props →
  carries (Some 0) last (push_struct (push_string_pair_list props)) (props_wire props)
    (pop_pod (pod_pairs pod_str pod_str)) (mkPairList props).
Proof.
  intros [Ht Hn]. apply carries_nested. unfold push_string_pair_list. len_facts.
  assert (as_i32 (len props) = len props) as Hs by (apply swrap_small; lia).
  eapply carries_bind; [apply carries_int, i32_of_u32_range|]. rewrite Hs.
  eapply carries_res; [by rewrite bool_decide_eq_false_2 by lia|].
  replace (Z.to_nat (len props)) with (length props) by (unfold len; lia).
  eapply carries_map; [by apply carries_pairs|]. apply reads_ret.
Qed.

(** ** From the payload to the listeners *)
Lemma event_sent {A S M} (vs : list (Variant M)) index pl (m : M) i op d (F : Fields A) (to : S → A)
    (from : A → S) con v hole build_op bs payload :
  NoDup (discriminants 0 (fst <$> vs)) → index m = i →
  discriminants 0 (fst <$> vs) !! i = Some op →
  vs !! i = Some (variant d (derive_pod_struct F to from) con) →
  m = con (from v) →
  carries hole true build_op bs (fields_decode F) v →
  encode_struct_payload build_op = Ok payload →
  event_payload (derive_marshallable vs index pl) m None payload.
Proof.
  intros Hnd Hi Hop Hv Hm Hc He.
  destruct (struct_payload_decodes _ _ _ _ _ _ (carries_from _ _ _ _ F from v Hc) He) as [Hl Hd].
  split; [unfold isize_max; lia|]. exists payload, []. split_and!; [by rewrite app_nil_r| |done].
  intros rest Hr. simpl. rewrite Hi, Hop. simpl. rewrite (decode_variants_lookup _ _ _ _ _ _ Hnd Hop Hv).
  simpl. rewrite Hd by done. simpl. by rewrite Hm.
Qed.

Ltac carry_fields :=
  repeat first
    [ apply carries_last | eapply carries_field ];
  first [ by apply carries_text | by apply carries_props | apply carries_int; first [apply i32_of_u32_range|done]
        | by apply carries_fd | by apply (carries_pod _ (pod_id Z)) | by apply (carries_pod _ pod_i64) ].

Lemma u32_back v : u32_range v → as_u32 (as_i32 v) = v.
Proof. apply u32_i32_u32. Qed.

Lemma core_sent (m : CoreEvents) op payload fds :
  msg_opcode CoreEvents_marshal m = op → event_payload CoreEvents_marshal m None payload →
  demarshal ICore op payload fds = (None, core_event fds m).
Proof. intros <-. apply event_demarshal. constructor. Qed.
Lemma registry_sent (m : RegistryEvents) op payload fds :
  msg_opcode RegistryEvents_marshal m = op → event_payload RegistryEvents_marshal m None payload →
  demarshal IRegistry op payload fds = (None, registry_event fds m).
Proof. intros <-. apply event_demarshal. constructor. Qed.

Ltac sent v :=
  eapply (event_sent _ _ _ _ _ _ _ _ _ _ _ v);
    [apply (bool_decide_unpack _); by vm_compute|reflexivity|reflexivity|reflexivity|reflexivity
    |carry_fields|eassumption].

Lemma done_demarshals id seq fds payload :
  u32_range id → u32_range seq → encode_core_done_payload id seq = Ok payload →
  demarshal ICore server_event.DONE payload fds = (None, (fds, [NCoreDone id seq], Ok tt)).
Proof.
  intros Hi Hs He. unfold encode_core_done_payload in He.
  rewrite (core_sent (CoreEvents_Done (mkCoreDone (as_i32 id) (as_i32 seq))) _ _ _ eq_refl).
  - cbn. by rewrite !u32_back.
  - sent (as_i32 id, (as_i32 seq, tt)).
Qed.

Lemma error_demarshals id seq res message fds payload :
  u32_range id → u32_range seq → i32_range res → text message →
  encode_core_error_payload id seq res message = Ok payload →
  demarshal ICore server_event.ERROR payload fds
  = (None, (fds, [NCoreError id seq (as_u32 res) message], Ok tt)).
Proof.
  intros Hi Hs Hr Hm He. unfold encode_core_error_payload in He.
  rewrite (core_sent (CoreEvents_Error (mkCoreErrorEvent (as_i32 id) (as_i32 seq) res message)) _ _ _ eq_refl).
  - cbn. by rewrite !u32_back.
  - sent (as_i32 id, (as_i32 seq, (res, (message, tt)))).
Qed.

(** The descriptor is the one at the index, which has to be in the frame. *)
Definition add_mem_handled (id memory_type fd_index flags : Z) (fds : FrameFds) : Handled :=
  match add_mem_fd_index fd_index with
  | Ok index =>
      match inbound_take_fd fds index with
      | (fds, Ok fd) => (fds, [NImportMemory id memory_type fd flags], Ok tt)
      | (fds, Err e) => (fds, [], Err e)
      | (fds, Panic) => (fds, [], Panic)
      end
  | Err e => (fds, [], Err e)
  | Panic => (fds, [], Panic)
  end.

Lemma add_mem_demarshals id memory_type fd_index flags fds payload :
  u32_range id → u32_range memory_type → i32_range fd_index → u32_range flags →
  encode_core_add_mem_payload id memory_type fd_index flags = Ok payload →
  demarshal ICore server_event.ADD_MEM payload fds
  = (None, add_mem_handled id memory_type fd_index flags fds).
Proof.
  intros Hi Ht Hf Hfl He. unfold encode_core_add_mem_payload in He.
  assert (i64_range fd_index) by (unfold i32_range, i64_range in *; lia).
  rewrite (core_sent (CoreEvents_AddMem (mkCoreAddMem (as_i32 id) (mkId memory_type) (mkFd fd_index) (as_i32 flags)))
    _ _ _ eq_refl).
  - unfold add_mem_handled. cbn. by rewrite !u32_back.
  - sent (as_i32 id, (mkId memory_type, (mkFd fd_index, (as_i32 flags, tt)))).
Qed.

Lemma remove_mem_demarshals id fds payload :
  u32_range id → encode_core_remove_mem_payload id = Ok payload →
  demarshal ICore server_event.REMOVE_MEM payload fds = (None, (fds, [NRemoveMemory id], Ok tt)).
Proof.
  intros Hi He. unfold encode_core_remove_mem_payload in He.
  rewrite (core_sent (CoreEvents_RemoveMem (mkCoreRemoveMem (as_i32 id))) _ _ _ eq_refl).
  - cbn. by rewrite !u32_back.
  - sent (as_i32 id, tt).
Qed.

Lemma info_demarshals cookie user host version name props fds payload :
  u32_range cookie → text user → text host → text version → text name → props_typed props →
  encode_core_info_payload cookie user host version name props = Ok payload →
  demarshal ICore server_event.INFO payload fds
  = (None, (fds, [NCoreInfo (mkProxyCoreInfo 0 cookie user host version name 1 (Some (new_vec props)))], Ok tt)).
Proof.
  intros Hc Hu Hh Hv Hn Hp He. unfold encode_core_info_payload in He.
  rewrite (core_sent (CoreEvents_Info (mkCoreInfo (as_i32 CORE_ID) (as_i32 cookie) user host version name 1
    (mkPairList props))) _ _ _ eq_refl).
  - cbn [core_event core_info_id core_info_cookie core_info_user_name core_info_host_name core_info_version
      core_info_name core_info_change_mask core_info_props pl_data]. by rewrite (u32_back cookie).
  - sent (as_i32 CORE_ID, (as_i32 cookie, (user, (host, (version, (name, (1, (mkPairList props, tt)))))))).
Qed.

Lemma global_demarshals id permissions type_ version props fds payload :
  u32_range id → u32_range permissions → text type_ → u32_range version → props_typed props →
  encode_registry_global_payload id permissions type_ version props = Ok payload →
  demarshal IRegistry server_event.GLOBAL payload fds
  = (None, (fds, [NRegistryGlobal id (from_bits_truncate PermissionBits_all permissions) type_ version
      (new_vec props)], Ok tt)).
Proof.
  intros Hi Hpm Ht Hv Hp He. unfold encode_registry_global_payload in He.
  rewrite (registry_sent (RegistryEvents_Global (mkRegistryGlobal (as_i32 id) (as_i32 permissions) type_
    (as_i32 version) (mkPairList props))) _ _ _ eq_refl).
  - cbn [registry_event registry_global_id registry_global_permissions registry_global_type
      registry_global_verison registry_global_props pl_data]. by rewrite !u32_back.
  - sent (as_i32 id, (as_i32 permissions, (type_, (as_i32 version, (mkPairList props, tt))))).
Qed.

Lemma global_remove_demarshals id fds payload :
  u32_range id → encode_registry_global_remove_payload id = Ok payload →
  demarshal IRegistry server_event.GLOBAL_REMOVE payload fds
  = (None, (fds, [NRegistryGlobalRemove id], Ok tt)).
Proof.
  intros Hi He. unfold encode_registry_global_remove_payload in He.
  rewrite (registry_sent (RegistryEvents_GlobalRemove (mkRegistryGlobalRemove (as_i32 id))) _ _ _ eq_refl).
  - cbn. by rewrite !u32_back.
  - sent (as_i32 id, tt).
Qed.

(** ** ClientNode events *)
Lemma parse_payload_raw {T} payload (m : PM T) v :
  parse_payload payload m = Ok v → ∃ raw, RawPod_wrap payload = Ok raw ∧ raw_size raw = len payload.
Proof.
  unfold parse_payload, pop_struct, RawPod_wrap. cbn [p_data p_pos Parser_new]. cbv zeta.
  replace (available (Parser_new payload)) with (len payload)
    by (unfold available, saturating_sub; simpl; pose proof (len_nonneg payload); lia).
  destruct (bool_decide (len payload < 8)); [done|]. change (0 + 4) with 4.
  destruct (read_u32 payload 0) as [size|e|] eqn:Hsz; [|done..]. unfold mbind at 1, res_bind at 1.
  destruct (pod_total_size size) as [total|e|] eqn:Htot; [|done..]. res_cbn.
  case_bool_decide as Hl; [done|]. destruct (read_u32 payload 4) as [t|e|]; [|done..]. res_cbn.
  case_bool_decide as Ht; [done|]. subst t.
  destruct (slice payload _ _) as [body|e|]; [|done..]. res_cbn.
  destruct (_.2) as [r|e|]; [|done..]. res_cbn. cbn [commit]. case_bool_decide as Hs; [done|].
  subst total. intros _.
  rewrite Htot. res_cbn. rewrite bool_decide_eq_false_2 by lia. replace (try_from_u32 (into_u32 TStruct)) with (Some TStruct) by done.
  cbn [ok_or]. res_cbn. rewrite slice_all by done. res_cbn. by eexists.
Qed.

Lemma decode_event_raw op payload fds l fds' e :
  decode_event op payload fds l = (fds', Ok e) →
  ∃ raw, RawPod_wrap payload = Ok raw ∧ raw_size raw = len payload.
Proof.
  assert (∀ m, decode_plain payload fds m = (fds', Ok e) →
    ∃ raw, RawPod_wrap payload = Ok raw ∧ raw_size raw = len payload) as Hplain.
  { intros m. unfold decode_plain. destruct (require_fds fds []); res_cbn; [|done..]. intros [= _ Hm].
    by eapply parse_payload_raw. }
  unfold decode_event.
  destruct (bool_decide _). { unfold decode_transport.
    destruct (parse_payload payload _) eqn:Hp; [|done..]. intros _. by eapply parse_payload_raw. }
  do 3 (destruct (bool_decide _); [apply Hplain|]).
  destruct (bool_decide _). { unfold decode_set_activation.
    destruct (parse_payload payload _) eqn:Hp; [|done..]. intros _. by eapply parse_payload_raw. }
  destruct (bool_decide _); [apply Hplain|done].
Qed.

(** A payload that is one event and nothing more has no footer. *)
Lemma client_node_demarshals op payload fds fds' e :
  decode_event op payload fds Limits_default = (fds', Ok e) →
  demarshal IClientNode op payload fds = (None, (fds', [NClientNode e], Ok tt)).
Proof.
  intros Hd. destruct (decode_event_raw _ _ _ _ _ _ Hd) as (raw & Hr & Hs).
  cbn [demarshal]. unfold client_node_demarshal, decode_client_node_event.
  rewrite Hr. cbn [map_err]. res_cbn. rewrite Hs, slice_all by done. res_cbn. rewrite Hd. cbn [map_err]. res_cbn.
  unfold decode_footer. rewrite (bool_decide_eq_false_2 (len payload < _)) by lia. res_cbn.
  by rewrite bool_decide_eq_false_2 by lia.
Qed.
