(* ===== verification/ServerScript.v ===== *)
(** * The scripted server

    Models [server/src/script/mod.rs], [server/src/state/mod.rs] and
    [server/src/runtime/mod.rs]: a scenario is a list of steps, each a method
    the client is expected to send and the events to answer it with. The
    server accepts one client, reads one frame per step, keeps the table of
    objects the client has created, and gives up at a deadline. The actions
    that drive the ClientNode fixture of the test kit are left out. *)

From stdpp Require Import sorting.
From S2P Require Import Prelude PodTypes PodCodec PodParser PodBuilder FrameHeader FrameControl.
From S2P Require Import FrameRecv FrameSend ClientNode InboundMessage Demarshal CoreClient ServerMessages.

#[global] Instance ParamInfo_eq_dec : EqDecision ParamInfo.
Proof. solve_decision. Defined.
#[global] Instance wire_NodeInfo_eq_dec : EqDecision ClientNode.NodeInfo.
Proof. solve_decision. Defined.
#[global] Instance wire_PortInfo_eq_dec : EqDecision ClientNode.PortInfo.
Proof. solve_decision. Defined.
#[global] Instance wire_Direction_eq_dec : EqDecision Direction.
Proof. solve_decision. Defined.

(** ** Scripts *)
Inductive Expectation :=
| ExAny
| ExCoreHello
| ExClientUpdateProperties
| ExCoreGetRegistry
| ExCoreSync
| ExClientNodeCreate
| ExClientNodeUpdate (info : bool) (min_params : Z)
| ExClientNodeUpdateExact (change_mask : Z) (param : list byte) (info : ClientNode.NodeInfo)
| ExClientNodePortUpdate (direction : Direction) (port_id : Z) (info : bool) (min_params : Z)
| ExClientNodePortUpdateExact (change_mask : Z) (param : list byte) (info : ClientNode.PortInfo)
| ExClientNodeSetActive (active : bool)
| ExRegistryBind
| ExRegistryDestroy
| ExExact (object_id opcode : Z).

Definition FACTORY_NAME : list byte := bytes_of "client-node".
Definition CLIENT_NODE_VERSION : Z := 6.

Definition is_some {A} (o : option A) : bool := match o with Some _ => true | None => false end.

(** [params.len() == 1 && params[0].data() == param] *)
Definition sole_param (params : list RawPod) (param : list byte) : bool :=
  match params with [p] => bool_decide (raw_data p = param) | _ => false end.

Definition matches (e : Expectation) (object_id opcode : Z) (inbound : ServerInbound) : bool :=
  match e, inbound with
  | ExAny, _ => true
  | ExCoreHello, InCoreHello _ => true
  | ExClientUpdateProperties, InClientUpdateProperties => true
  | ExCoreGetRegistry, InCoreGetRegistry _ _ => true
  | ExCoreSync, InCoreSync _ _ => true
  | ExClientNodeCreate, InCoreCreateObject factory_name type_ version _ =>
      bool_decide (factory_name = FACTORY_NAME) && bool_decide (type_ = CLIENT_NODE_INTERFACE)
      && bool_decide (version = CLIENT_NODE_VERSION)
  | ExClientNodeUpdate info min_params, InClientNodeMethod _ (MUpdate update) =>
      Bool.eqb (is_some (u_info update)) info && bool_decide (min_params ≤ len (u_params update))
  | ExClientNodeUpdateExact change_mask param info, InClientNodeMethod _ (MUpdate update) =>
      bool_decide (u_change_mask update = change_mask) && sole_param (u_params update) param
      && bool_decide (u_info update = Some info)
  | ExClientNodePortUpdate direction port_id info min_params, InClientNodeMethod _ (MPortUpdate update) =>
      bool_decide (pu_direction update = direction) && bool_decide (pu_port_id update = port_id)
      && Bool.eqb (is_some (pu_info update)) info && bool_decide (min_params ≤ len (pu_params update))
  | ExClientNodePortUpdateExact change_mask param info, InClientNodeMethod _ (MPortUpdate update) =>
      bool_decide (pu_direction update = ClientNode.Output) && bool_decide (pu_port_id update = 0)
      && bool_decide (pu_change_mask update = change_mask) && sole_param (pu_params update) param
      && bool_decide (pu_info update = Some info)
  | ExClientNodeSetActive active, InClientNodeMethod _ (MSetActive value) => Bool.eqb value active
  | ExRegistryBind, InRegistryBind _ _ _ _ => true
  | ExRegistryDestroy, InRegistryDestroy _ => true
  | ExExact expected_object_id expected_opcode, _ =>
      bool_decide (object_id = expected_object_id) && bool_decide (opcode = expected_opcode)
  | _, _ => false
  end.

Record CoreInfoAction := mkCoreInfoAction {
  ci_cookie : Z; ci_user_name : list byte; ci_host_name : list byte; ci_version : list byte;
  ci_name : list byte; ci_props : list (list byte * list byte);
}.
Record RegistryGlobalAction := mkRegistryGlobalAction {
  rg_id : Z; rg_permissions : Z; rg_type : list byte; rg_version : Z;
  rg_props : list (list byte * list byte);
}.
Record CoreErrorAction := mkCoreErrorAction {
  ce_id : Z; ce_seq : Z; ce_res : Z; ce_message : list byte;
}.
Record CoreAddMemAction := mkCoreAddMemAction {
  ca_id : Z; ca_memory_type : Z; ca_fd_index : Z; ca_flags : Z; ca_size : Z;
}.

Inductive Action :=
| SendCoreInfo (info : CoreInfoAction)
| SendCoreDoneFromLastSync
| SendCoreDone (id seq : Z)
| SendCoreError (err : CoreErrorAction)
| SendCoreAddMem (mem : CoreAddMemAction)
| SendCoreRemoveMem (id : Z)
| SendClientNodeCommand (command : Command)
| SendClientNodeTransport (trigger_index completion_index : Z) (activation : RegionRef)
| SendClientNodePortSetParam (value : PortSetParam)
| SendClientNodePortUseBuffers (value : PortUseBuffers)
| SendClientNodePortSetIo (value : PortSetIo)
| SendClientNodeSetActivation (node_id : Z) (activation : option RegionRef)
| SendRegistryGlobalOnLastRegistry (global : RegistryGlobalAction)
| SendRegistryGlobalRemoveOnLastRegistry (id : Z)
| CloseConnection.

Record ScriptStep := mkStep { step_expect : Expectation; step_actions : list Action }.

(** ** State *)
Record SyncState := mkSync { sync_id : Z; sync_seq : Z }.

Record ExecutionState := mkExec {
  last_sync : option SyncState;
  last_registry_proxy_id : option Z;
  completed_steps : Z;
  accepted_clients : Z;
  rejected_clients : Z;
  exported_mem_ids : list Z;
  object_routes : Routes;
}.

Definition exec_new : ExecutionState := mkExec None None 0 1 0 [] ∅.

Definition with_sync (s : ExecutionState) (v : SyncState) : ExecutionState :=
  mkExec (Some v) (last_registry_proxy_id s) (completed_steps s) (accepted_clients s)
    (rejected_clients s) (exported_mem_ids s) (object_routes s).
Definition with_registry (s : ExecutionState) (id : Z) : ExecutionState :=
  mkExec (last_sync s) (Some id) (completed_steps s) (accepted_clients s)
    (rejected_clients s) (exported_mem_ids s) (object_routes s).
Definition with_completed (s : ExecutionState) : ExecutionState :=
  mkExec (last_sync s) (last_registry_proxy_id s) (completed_steps s + 1) (accepted_clients s)
    (rejected_clients s) (exported_mem_ids s) (object_routes s).
Definition with_rejected (s : ExecutionState) : ExecutionState :=
  mkExec (last_sync s) (last_registry_proxy_id s) (completed_steps s) (accepted_clients s)
    (rejected_clients s + 1) (exported_mem_ids s) (object_routes s).
Definition with_exported (s : ExecutionState) (id : Z) : ExecutionState :=
  mkExec (last_sync s) (last_registry_proxy_id s) (completed_steps s) (accepted_clients s)
    (rejected_clients s) (exported_mem_ids s ++ [id]) (object_routes s).
Definition with_routes (s : ExecutionState) (routes : Routes) : ExecutionState :=
  mkExec (last_sync s) (last_registry_proxy_id s) (completed_steps s) (accepted_clients s)
    (rejected_clients s) (exported_mem_ids s) routes.

Definition insert_route (s : ExecutionState) (object_id : Z) (interface : list byte) (version : Z) :
    ExecutionState * StdRes unit :=
  match object_routes s !! object_id with
  | Some _ => (s, Err (Custom KAlreadyExists))
  | None => (with_routes s (<[object_id := mkRoute interface version]> (object_routes s)), Ok tt)
  end.

Definition REGISTRY_ROUTE_VERSION : Z := 3.

Definition update_state_from_inbound (s : ExecutionState) (inbound : ServerInbound) :
    ExecutionState * StdRes unit :=
  match inbound with
  | InCoreSync id seq => (with_sync s (mkSync id seq), Ok tt)
  | InCoreGetRegistry _ new_id =>
      insert_route (with_registry s new_id) new_id REGISTRY_INTERFACE REGISTRY_ROUTE_VERSION
  | InCoreCreateObject _ type_ version new_id => insert_route s new_id type_ version
  | InCoreDestroy object_id =>
      match object_routes s !! object_id with
      | Some _ => (with_routes s (delete object_id (object_routes s)), Ok tt)
      | None => (s, Err (Custom KInvalidData))
      end
  | _ => (s, Ok tt)
  end.

(** The keys of a [BTreeMap] in their order. *)
Definition route_ids (routes : Routes) : list Z := merge_sort Z.le (elements (dom routes : gset Z)).

Definition last_client_node_id (s : ExecutionState) : option Z :=
  find (λ id, routed (object_routes s) id CLIENT_NODE_INTERFACE) (rev (route_ids (object_routes s))).

Definition require_client_node_id (s : ExecutionState) : StdRes Z :=
  ok_or (last_client_node_id s) (Custom KInvalidData).

Record RunReport := mkReport {
  rr_completed_steps : Z; rr_accepted_clients : Z; rr_rejected_clients : Z;
  rr_last_sync : option SyncState; rr_last_registry_proxy_id : option Z;
  rr_exported_mem_ids : list Z; rr_live_object_routes : Z;
}.

Definition to_run_report (s : ExecutionState) : RunReport :=
  mkReport (completed_steps s) (accepted_clients s) (rejected_clients s) (last_sync s)
    (last_registry_proxy_id s) (exported_mem_ids s) (Z.of_nat (base.size (object_routes s))).
