(* ===== verification/ServerScriptProps.v ===== *)
(** * The objects of a scripted client

    The route table against the history of the client's messages: an object
    the client made has the interface of its last creation, until it is
    destroyed; objects the client bound through the registry are not in the
    table. *)

From stdpp Require Import sorting.
From S2P Require Import Prelude ClientNode InboundMessage Demarshal CoreClient ServerMessages ServerScript.

(** Messages taken one after the other, as long as none is refused. *)
Fixpoint update_all (st : ExecutionState) (h : list ServerInbound) : ExecutionState * StdRes unit :=
  match h with
  | [] => (st, Ok tt)
  | m :: h =>
      match update_state_from_inbound st m with
      | (st, Ok _) => update_all st h
      | r => r
      end
  end.

(** ** The history alone *)

(** The three messages that give the client a proxy, and for what: an object
    made for it, or one of the registry's globals. *)
Inductive Origin := Made | Bound.
Definition proxied (m : ServerInbound) : option (Origin * Z * ObjectRoute) :=
  match m with
  | InCoreGetRegistry _ new_id => Some (Made, new_id, mkRoute REGISTRY_INTERFACE REGISTRY_ROUTE_VERSION)
  | InCoreCreateObject _ type_ version new_id => Some (Made, new_id, mkRoute type_ version)
  | InRegistryBind _ type_ version new_id => Some (Bound, new_id, mkRoute type_ version)
  | _ => None
  end.
Definition creates (m : ServerInbound) : option (Z * ObjectRoute) :=
  match proxied m with Some (Made, new_id, route) => Some (new_id, route) | _ => None end.
Definition binds (m : ServerInbound) : option Z :=
  match proxied m with Some (Bound, new_id, _) => Some new_id | _ => None end.
Definition destroys (m : ServerInbound) : option Z :=
  match m with InCoreDestroy id => Some id | _ => None end.

(** The client's proxies after the messages [h], the latest first. *)
Fixpoint client_proxy (h : list ServerInbound) (id : Z) : option (Origin * ObjectRoute) :=
  match h with
  | [] => None
  | m :: h =>
      match proxied m with
      | Some (origin, new_id, route) => if bool_decide (new_id = id) then Some (origin, route) else client_proxy h id
      | None => if bool_decide (destroys m = Some id) then None else client_proxy h id
      end
  end.

(** The object made for the client under an id. *)
Fixpoint live_object (h : list ServerInbound) (id : Z) : option ObjectRoute :=
  match h with
  | [] => None
  | m :: h =>
      match creates m with
      | Some (new_id, route) => if bool_decide (new_id = id) then Some route else live_object h id
      | None => if bool_decide (destroys m = Some id) then None else live_object h id
      end
  end.

(** A message is refused exactly if it makes an object under the id of
    another, or destroys one that was not made or is gone. *)
Definition admissible (h : list ServerInbound) (m : ServerInbound) : Prop :=
  match creates m with
  | Some (new_id, _) => live_object h new_id = None
  | None => match destroys m with Some id => live_object h id ≠ None | None => True end
  end.

Inductive orderly : list ServerInbound → Prop :=
| orderly_nil : orderly []
| orderly_cons m h : orderly h → admissible h m → orderly (m :: h).

Definition tracks (st : ExecutionState) (h : list ServerInbound) : Prop :=
  ∀ id, object_routes st !! id = live_object h id.

Lemma insert_route_tracks st h m new_id route :
  creates m = Some (new_id, route) → tracks st h →
  match insert_route st new_id (route_interface route) (route_version route) with
  | (st', Ok _) => admissible h m ∧ tracks st' (m :: h)
  | (_, Err _) => ¬ admissible h m
  | (_, Panic) => False
  end.
Proof.
  intros Hc Ht. unfold insert_route, admissible. rewrite Hc, <- (Ht new_id).
  destruct (object_routes st !! new_id) eqn:Hr; [done|]. split; [done|]. intros id. cbn [live_object object_routes with_routes].
  rewrite Hc. unfold Routes.
  case_bool_decide as He; [subst; rewrite lookup_insert_eq; by destruct route|].
  rewrite lookup_insert_ne by done. apply Ht.
Qed.

Lemma update_tracks st h m :
  tracks st h →
  match update_state_from_inbound st m with
  | (st', Ok _) => admissible h m ∧ tracks st' (m :: h)
  | (_, Err _) => ¬ admissible h m
  | (_, Panic) => False
  end.
Proof.
  intros Ht. destruct m; cbn [update_state_from_inbound]; try (by split).
  - by apply (insert_route_tracks (with_registry st new_id) h (InCoreGetRegistry version new_id) new_id
      (mkRoute REGISTRY_INTERFACE REGISTRY_ROUTE_VERSION)).
  - by apply (insert_route_tracks st h (InCoreCreateObject factory_name type_ version new_id) new_id
      (mkRoute type_ version)).
  - unfold admissible. cbn [creates destroys]. rewrite <- (Ht object_id).
    destruct (object_routes st !! object_id) eqn:Hr; [|by intros []]. split; [done|]. intros id.
    cbn [live_object object_routes with_routes creates destroys]. unfold Routes.
    case_bool_decide as He; [simplify_eq; by rewrite lookup_delete_eq|].
    rewrite lookup_delete_ne by congruence. apply Ht.
Qed.

Lemma update_all_tracks st h h0 :
  orderly h0 → tracks st h0 →
  match update_all st h with
  | (st', Ok _) => orderly (rev_append h h0) ∧ tracks st' (rev_append h h0)
  | (_, Err _) => ¬ orderly (rev_append h h0)
  | (_, Panic) => False
  end.
Proof.
  revert st h0. induction h as [|m h IH]; intros st h0 Ho Ht; [done|]. cbn [update_all rev_append].
  pose proof (update_tracks st h0 m Ht) as Hu.
  destruct (update_state_from_inbound st m) as [st1 [u|e|]]; [|clear IH|done].
  - destruct Hu as [Ha Ht1]. apply IH; [by constructor|done].
  - intros Hr. apply Hu. clear -Hr. change (m :: h0) with ([] ++ m :: h0) in Hr. revert Hr.
    generalize (@nil ServerInbound). induction h as [|m' h IH]; intros l; cbn [rev_append].
    + induction l as [|x l IHl]; simpl; inversion_clear 1; auto.
    + apply (IH (m' :: l)).
Qed.

(** Under an id that was never bound, the object made is the client's proxy. *)
Lemma never_bound h id :
  (∀ m, m ∈ h → binds m ≠ Some id) → client_proxy h id = (Made,.) <$> live_object h id.
Proof.
  induction h as [|m h IH]; intros Hb; [done|]. cbn [client_proxy live_object].
  assert (binds m ≠ Some id) as Hm by (apply Hb; set_solver).
  assert (client_proxy h id = (Made,.) <$> live_object h id) as Hh by (apply IH; set_solver).
  unfold creates, binds in *. destruct (proxied m) as [[[[] new_id] route]|] eqn:Hp.
  - by case_bool_decide.
  - rewrite bool_decide_eq_false_2 by congruence. rewrite bool_decide_eq_false_2; [done|]. by destruct m.
  - by case_bool_decide.
Qed.

Lemma never_created h id : (∀ m, m ∈ h → fst <$> creates m ≠ Some id) → live_object h id = None.
Proof.
  induction h as [|m h IH]; intros Hc; [done|]. cbn [live_object].
  assert (fst <$> creates m ≠ Some id) as Hm by (apply Hc; set_solver).
  rewrite IH by set_solver. destruct (creates m) as [[new_id route]|]; simpl in Hm; case_bool_decide; congruence.
Qed.

(** ** The node the actions address *)
Lemma find_app {A} (p : A → bool) l k :
  find p (l ++ k) = match find p l with Some x => Some x | None => find p k end.
Proof. induction l as [|a l IH]; [done|]. simpl. by destruct (p a). Qed.

Lemma find_greatest (p : Z → bool) l x :
  StronglySorted Z.le l → find p (rev l) = Some x → x ∈ l ∧ p x = true ∧ ∀ y, y ∈ l → p y = true → y ≤ x.
Proof.
  intros Hs. induction Hs as [|a l Hl IH Ha]; [done|]. simpl. rewrite find_app.
  destruct (find p (rev l)) as [z|] eqn:Hf.
  - intros [= ->]. destruct (IH eq_refl) as (Hin & Hp & Hle). split_and!; [set_solver|done|].
    intros y [->|Hy]%elem_of_cons Hpy; [|by apply Hle]. rewrite Forall_forall in Ha. by apply Ha.
  - simpl. destruct (p a) eqn:Hpa; [|done]. intros [= ->]. split_and!; [set_solver|done|].
    intros y [->|Hy]%elem_of_cons Hpy; [lia|].
    apply list_elem_of_In, in_rev in Hy. by pose proof (find_none _ _ Hf y Hy) as Hn; rewrite Hn in Hpy.
Qed.

Lemma route_ids_sorted routes : StronglySorted Z.le (route_ids routes).
Proof. apply StronglySorted_merge_sort; [apply _|intros x y; lia]. Qed.

Lemma elem_of_route_ids routes id : id ∈ route_ids routes ↔ is_Some (routes !! id).
Proof.
  unfold route_ids. rewrite merge_sort_Permutation, elem_of_elements. apply elem_of_dom.
Qed.

Lemma routed_lookup routes id name :
  routed routes id name = true ↔ ∃ v, routes !! id = Some (mkRoute name v).
Proof.
  unfold routed. destruct (routes !! id) as [[i v]|]; simpl; [|by split; [|intros []]].
  rewrite bool_decide_eq_true. split; [intros ->; by exists v|]. by intros (v' & [= -> ->]).
Qed.

Definition live_node (h : list ServerInbound) (id : Z) : Prop :=
  ∃ v, live_object h id = Some (mkRoute CLIENT_NODE_INTERFACE v).

Lemma last_node_spec st h :
  tracks st h →
  match last_client_node_id st with
  | Some id => live_node h id ∧ ∀ id', live_node h id' → id' ≤ id
  | None => ∀ id, ¬ live_node h id
  end.
Proof.
  intros Ht. unfold last_client_node_id.
  assert (∀ id, live_node h id ↔
    id ∈ route_ids (object_routes st) ∧ routed (object_routes st) id CLIENT_NODE_INTERFACE = true) as Hl.
  { intros id. unfold live_node. rewrite routed_lookup, elem_of_route_ids, <- (Ht id).
    split; [intros (v & Hv); split; [by eexists|by exists v]|by intros [_ ?]]. }
  destruct (find _ _) as [id|] eqn:Hf.
  - destruct (find_greatest _ _ _ (route_ids_sorted _) Hf) as (Hin & Hp & Hle).
    split; [by apply Hl|]. intros id' [Hin' Hp']%Hl. by apply Hle.
  - intros id [Hin Hp]%Hl. apply list_elem_of_In, in_rev in Hin.
    by pose proof (find_none _ _ Hf id Hin) as Hn; rewrite Hn in Hp.
Qed.

(** ** Properties *)

(** C22: The server's route table is the table of the objects made for the
    client by GetRegistry and CreateObject. Whatever messages the client
    sends, they are taken if and only if each of these uses an id under which
    no such object lives and each Destroy names one that does; then every id
    has the interface and version of its last creation, if it was not
    destroyed since. Under ids that were never bound through the registry
    these are exactly the client's live proxies. A proxy that was only bound
    is not in the table, and its destruction is refused. The node that the
    ClientNode actions address is the live ClientNode with the greatest id,
    which need not be the one created last. *)
Theorem routes_follow_history (h : list ServerInbound) :
  match update_all exec_new h with
  | (st, Ok _) =>
      orderly (rev_append h []) ∧ (∀ id, object_routes st !! id = live_object (rev_append h []) id) ∧
      (∀ id, (∀ m, m ∈ h → binds m ≠ Some id) →
        client_proxy (rev_append h []) id = (Made,.) <$> object_routes st !! id) ∧
      (∀ id, (∀ m, m ∈ h → fst <$> creates m ≠ Some id) →
        object_routes st !! id = None ∧
        update_state_from_inbound st (InCoreDestroy id) = (st, Err (Custom KInvalidData))) ∧
      match last_client_node_id st with
      | Some id =>
          live_node (rev_append h []) id ∧ ∀ id', live_node (rev_append h []) id' → id' ≤ id
      | None => ∀ id, ¬ live_node (rev_append h []) id
      end
  | (_, Err _) => ¬ orderly (rev_append h [])
  | (_, Panic) => False
  end.
Proof.
  pose proof (update_all_tracks exec_new h [] orderly_nil) as H.
  assert (tracks exec_new []) as H0 by (intros id; apply lookup_empty). specialize (H H0).
  destruct (update_all exec_new h) as [st [u|e|]]; [|done..]. destruct H as [Ho Ht].
  assert (∀ m, m ∈ rev_append h [] → m ∈ h) as Hin.
  { intros m. rewrite !list_elem_of_In, rev_append_rev, app_nil_r. apply in_rev. }
  split_and!; [done|done|..|by apply last_node_spec].
  - intros id Hb. rewrite (Ht id). apply never_bound. auto.
  - intros id Hc. assert (object_routes st !! id = None) as Hn
      by (rewrite (Ht id); apply never_created; auto).
    split; [done|]. cbn [update_state_from_inbound]. by rewrite Hn.
Qed.

(** A client binds a global and destroys its proxy: it has the proxy, and the
    server refuses. *)
Example bound_proxy_refused :
  let h := [InCoreGetRegistry 3 2; InRegistryBind 33 (bytes_of "PipeWire:Interface:Node") 3 4] in
  client_proxy (rev h) 4 = Some (Bound, mkRoute (bytes_of "PipeWire:Interface:Node") 3) ∧
  (update_all exec_new h).2 = Ok tt ∧
  (update_all exec_new (h ++ [InCoreDestroy 4])).2 = Err (Custom KInvalidData).
Proof. by vm_compute. Qed.

(** Two nodes, the one with the smaller id created last. *)
Example last_node_is_greatest :
  let create id := InCoreCreateObject FACTORY_NAME CLIENT_NODE_INTERFACE CLIENT_NODE_VERSION id in
  last_client_node_id (update_all exec_new [create 7; create 5]).1 = Some 7.
Proof. by vm_compute. Qed.
