(* ===== verification/ServerRuntime.v ===== *)
(** * The run of a script

    The operational half of [server/src/runtime/mod.rs]. The operating system
    is a type class: the listening socket, the connection, the clock, and the
    calls that make descriptors. Loops carry fuel; running out of it is
    [Panic], like a panic of the code. *)

From S2P Require Import Prelude PodTypes PodCodec PodParser PodBuilder FrameHeader FrameControl.
From S2P Require Import FrameRecv FrameSend ClientNode InboundMessage Demarshal CoreClient.
From S2P Require Import ServerMessages ServerScript.

Inductive Socket := Listener | Client.
Inductive PollResult := PollReady | PollTimeout | PollErr (e : IoError).

Class ServerOs (K : Type) := {
  (** the path prepared, the listener bound and made non-blocking *)
  os_listen : K → K * Res IoError unit;
  os_accept : K → K * Res IoError unit;
  (** [deadline.saturating_duration_since(Instant::now()).is_zero()] *)
  os_expired : K → K * bool;
  os_poll : K → Socket → bool → K * PollResult;
  os_recvmsg : K → Z → Z → K * RawRecv;
  os_sendmsg : K → list byte → list byte → K * RawSend;
  os_memfd_create : K → Z → K * Res IoError Z;
  os_ftruncate : K → Z → Z → K * Res IoError unit;
  os_eventfd : K → K * Res IoError Z;
}.

Record Server (K : Type) := mkServer {
  sv_os : K; sv_receiver : FrameReceiver; sv_sender : FrameSender; sv_state : ExecutionState;
}.
Arguments mkServer {K} _ _ _ _.
Arguments sv_os {K} _.
Arguments sv_receiver {K} _.
Arguments sv_sender {K} _.
Arguments sv_state {K} _.

(** Code that works on the server and can fail. *)
Definition SM (K A : Type) : Type := Server K → Server K * StdRes A.
#[global] Instance sm_ret {K} : MRet (SM K) := λ A a s, (s, Ok a).
#[global] Instance sm_bind {K} : MBind (SM K) := λ A B f m s,
  match m s with
  | (s', Ok a) => f a s'
  | (s', Err e) => (s', Err e)
  | (s', Panic) => (s', Panic)
  end.
Definition sm_res {K A} (r : StdRes A) : SM K A := λ s, (s, r).
Definition sm_map_err {K A} (f : StdError → StdError) (m : SM K A) : SM K A := λ s,
  let '(s', r) := m s in (s', map_err f r).

Definition frame_error (e : FrameError) : StdError :=
  match e with
  | Io source => FromFrame source
  | PayloadTooLarge _ _ | TooManyFrameFds _ _ | SendQueueFull _ _ _ | SendFdQueueFull _ _ _ =>
      Custom KInvalidInput
  | WriteZero => Custom KWriteZero
  | _ => Custom KInvalidData
  end.

(** [runtime_wait_error] reports the time out, whatever the cause. *)
Definition runtime_wait_error (e : StdError) : StdError := Custom KTimedOut.

(** The errors of an action that are reported as a time out. *)
Definition ETIMEDOUT : Z := 110.
Definition wait_error (e : StdError) : bool :=
  match e with
  | Custom KTimedOut => true
  | FromFrame WouldBlock => true
  | FromFrame (OtherIo code) => bool_decide (code = ETIMEDOUT)
  | _ => false
  end.

Section run.
Context {K : Type} `{!ServerOs K} (fuel : nat).

Definition on_os {A} (f : K → K * StdRes A) : SM K A := λ s,
  let '(k, r) := f (sv_os s) in (mkServer k (sv_receiver s) (sv_sender s) (sv_state s), r).
Definition os_call {A} (f : K → K * Res IoError A) : SM K A := on_os (λ k,
  let '(k', r) := f k in (k', map_err FromFrame r)).
Definition get_state : SM K ExecutionState := λ s, (s, Ok (sv_state s)).
Definition on_state {A} (f : ExecutionState → ExecutionState * StdRes A) : SM K A := λ s,
  let '(st, r) := f (sv_state s) in (mkServer (sv_os s) (sv_receiver s) (sv_sender s) st, r).
Definition modify_state (f : ExecutionState → ExecutionState) : SM K unit :=
  on_state (λ st, (f st, Ok tt)).

Fixpoint wait_loop (n : nat) (sock : Socket) (out : bool) (k : K) : K * StdRes unit :=
  match n with
  | O => (k, Panic)
  | S n =>
      match os_expired k with
      | (k, true) => (k, Err (Custom KTimedOut))
      | (k, false) =>
          match os_poll k sock out with
          | (k, PollReady) => (k, Ok tt)
          | (k, PollTimeout) => wait_loop n sock out k
          | (k, PollErr Interrupted) => wait_loop n sock out k
          | (k, PollErr e) => (k, Err (FromFrame e))
          end
      end
  end.
Definition wait_until (sock : Socket) (out : bool) : SM K unit := on_os (wait_loop fuel sock out).

(** ** Sending *)
Definition flush_once : SM K FlushOutcome := λ s,
  let '(k, sender, r) := flush os_sendmsg fuel (sv_os s) (sv_sender s) in
  (mkServer k (sv_receiver s) sender (sv_state s), map_err frame_error r).

Fixpoint flush_all (n : nat) : SM K unit :=
  match n with
  | O => sm_res Panic
  | S n =>
      o ← flush_once;
      match o with
      | Drained => mret tt
      | FlushWouldBlock => _ ← wait_until Client true; flush_all n
      end
  end.

Definition enqueue_frame (frame : OutboundFrame) : SM K unit := λ s,
  let '(sender, r) := enqueue (sv_sender s) frame in
  (mkServer (sv_os s) (sv_receiver s) sender (sv_state s), map_err frame_error r).

Definition send_event_with_fds (object_id opcode : Z) (payload : list byte) (fds : list Z) : SM K unit :=
  frame ← sm_res (map_err frame_error
    (OutboundFrame_new object_id opcode 0 payload fds FrameLimits_default));
  _ ← enqueue_frame frame;
  flush_all fuel.

Definition send_event (object_id opcode : Z) (payload : list byte) : SM K unit :=
  send_event_with_fds object_id opcode payload [].

Definition send_client_node_event (opcode : Z) (payload : list byte) : SM K unit :=
  st ← get_state;
  id ← sm_res (require_client_node_id st);
  send_event id opcode payload.

(** ** Descriptors *)
Definition create_memfd_for_add_mem (id size : Z) : SM K Z :=
  if bool_decide (size = 0) then sm_res (Err (Custom KInvalidInput)) else
  fd ← os_call (λ k, os_memfd_create k id);
  _ ← os_call (λ k, os_ftruncate k fd (as_i64 size));
  mret fd.

Definition create_eventfd : SM K Z := os_call os_eventfd.

(** ** Actions; [false] ends the run *)
Definition apply_action (action : Action) : SM K bool :=
  match action with
  | SendCoreInfo info =>
      payload ← sm_res (encode_core_info_payload (ci_cookie info) (ci_user_name info) (ci_host_name info)
        (ci_version info) (ci_name info) (ci_props info));
      _ ← send_event CORE_ID server_event.INFO payload; mret true
  | SendCoreDoneFromLastSync =>
      st ← get_state;
      sync ← sm_res (ok_or (last_sync st) (Custom KInvalidData));
      payload ← sm_res (encode_core_done_payload (sync_id sync) (sync_seq sync));
      _ ← send_event CORE_ID server_event.DONE payload; mret true
  | SendCoreDone id seq =>
      payload ← sm_res (encode_core_done_payload id seq);
      _ ← send_event CORE_ID server_event.DONE payload; mret true
  | SendCoreError err =>
      payload ← sm_res (encode_core_error_payload (ce_id err) (ce_seq err) (ce_res err) (ce_message err));
      _ ← send_event CORE_ID server_event.ERROR payload; mret true
  | SendCoreAddMem mem =>
      payload ← sm_res (encode_core_add_mem_payload (ca_id mem) (ca_memory_type mem) (ca_fd_index mem)
        (ca_flags mem));
      fd ← create_memfd_for_add_mem (ca_id mem) (ca_size mem);
      _ ← send_event_with_fds CORE_ID server_event.ADD_MEM payload [fd];
      _ ← modify_state (λ st, with_exported st (ca_id mem)); mret true
  | SendCoreRemoveMem id =>
      payload ← sm_res (encode_core_remove_mem_payload id);
      _ ← send_event CORE_ID server_event.REMOVE_MEM payload; mret true
  | SendClientNodeCommand command =>
      st ← get_state;
      object_id ← sm_res (ok_or (last_client_node_id st) (Custom KInvalidData));
      payload ← sm_res (map_err wire_error (encode_command command));
      _ ← send_event object_id EVENT_COMMAND payload; mret true
  | SendClientNodeTransport trigger_index completion_index activation =>
      st ← get_state;
      object_id ← sm_res (require_client_node_id st);
      payload ← sm_res (map_err wire_error (encode_transport trigger_index completion_index activation));
      trigger ← create_eventfd;
      completion ← create_eventfd;
      _ ← send_event_with_fds object_id EVENT_TRANSPORT payload [trigger; completion]; mret true
  | SendClientNodePortSetParam value =>
      payload ← sm_res (map_err wire_error (encode_port_set_param value));
      _ ← send_client_node_event EVENT_PORT_SET_PARAM payload; mret true
  | SendClientNodePortUseBuffers value =>
      payload ← sm_res (map_err wire_error (encode_port_use_buffers value));
      _ ← send_client_node_event EVENT_PORT_USE_BUFFERS payload; mret true
  | SendClientNodePortSetIo value =>
      payload ← sm_res (map_err wire_error (encode_port_set_io value));
      _ ← send_client_node_event EVENT_PORT_SET_IO payload; mret true
  | SendClientNodeSetActivation node_id activation =>
      st ← get_state;
      object_id ← sm_res (require_client_node_id st);
      payload ← sm_res (map_err wire_error (encode_set_activation node_id ((λ r, (0, r)) <$> activation)));
      fds ← match activation with
            | Some _ => fd ← create_eventfd; mret [fd]
            | None => mret []
            end;
      _ ← send_event_with_fds object_id EVENT_SET_ACTIVATION payload fds; mret true
  | SendRegistryGlobalOnLastRegistry global =>
      st ← get_state;
      registry_id ← sm_res (ok_or (last_registry_proxy_id st) (Custom KInvalidData));
      payload ← sm_res (encode_registry_global_payload (rg_id global) (rg_permissions global)
        (rg_type global) (rg_version global) (rg_props global));
      _ ← send_event registry_id server_event.GLOBAL payload; mret true
  | SendRegistryGlobalRemoveOnLastRegistry id =>
      st ← get_state;
      registry_id ← sm_res (ok_or (last_registry_proxy_id st) (Custom KInvalidData));
      payload ← sm_res (encode_registry_global_remove_payload id);
      _ ← send_event registry_id server_event.GLOBAL_REMOVE payload; mret true
  | CloseConnection => mret false
  end.

(** ** The loop over the steps *)
Fixpoint reject_loop (n : nat) (k : K) (st : ExecutionState) : K * ExecutionState * StdRes unit :=
  match n with
  | O => (k, st, Panic)
  | S n =>
      match os_accept k with
      | (k, Ok _) => reject_loop n k (with_rejected st)
      | (k, Err WouldBlock) => (k, st, Ok tt)
      | (k, Err e) => (k, st, Err (FromFrame e))
      | (k, Panic) => (k, st, Panic)
      end
  end.
Definition reject_pending_clients : SM K unit := λ s,
  let '(k, st, r) := reject_loop fuel (sv_os s) (sv_state s) in
  (mkServer k (sv_receiver s) (sv_sender s) st, r).

Definition receive_once : SM K ReceiveOutcome := λ s,
  let '(k, receiver, r) := receive os_recvmsg fuel (sv_os s) (sv_receiver s) in
  (mkServer k receiver (sv_sender s) (sv_state s), map_err frame_error r).

Fixpoint receive_frame (n : nat) : SM K ReceivedFrame :=
  match n with
  | O => sm_res Panic
  | S n =>
      o ← receive_once;
      match o with
      | Frame frame => mret frame
      | ReceiveWouldBlock =>
          _ ← sm_map_err runtime_wait_error (wait_until Client false);
          receive_frame n
      | Closed => sm_res (Err (Custom KUnexpectedEof))
      end
  end.

(** What a frame means for the state, and whether it is the one expected. *)
Definition accept_frame (expect : Expectation) (frame : ReceivedFrame) : SM K unit :=
  let header := f_header frame in
  if bool_decide (len (f_fds frame) ≠ 0) then sm_res (Err (Custom KInvalidData)) else
  st ← get_state;
  inbound ← sm_res (decode_inbound_message_with_routes (object_id header) (opcode header)
    (f_payload frame) (object_routes st));
  if negb (matches expect (object_id header) (opcode header) inbound)
  then sm_res (Err (Custom KInvalidData))
  else on_state (λ st, update_state_from_inbound st inbound).

Fixpoint apply_actions (actions : list Action) : SM K bool :=
  match actions with
  | [] => mret true
  | action :: actions =>
      keep_running ← sm_map_err (λ e, if wait_error e then runtime_wait_error e else e)
        (apply_action action);
      if keep_running : bool then apply_actions actions else mret false
  end.

Definition check_deadline : SM K unit := on_os (λ k,
  let '(k, expired) := os_expired k in
  (k, if expired then Err (runtime_wait_error (Custom KTimedOut)) else Ok tt)).

Definition run_step (single_client : bool) (step : ScriptStep) : SM K bool :=
  _ ← (if single_client then reject_pending_clients else mret tt);
  _ ← check_deadline;
  frame ← receive_frame fuel;
  _ ← accept_frame (step_expect step) frame;
  _ ← (if single_client then reject_pending_clients else mret tt);
  keep_running ← apply_actions (step_actions step);
  _ ← modify_state with_completed;
  mret keep_running.

Fixpoint run_steps (single_client : bool) (steps : list ScriptStep) : SM K unit :=
  match steps with
  | [] => mret tt
  | step :: steps =>
      keep_running ← run_step single_client step;
      if keep_running : bool then run_steps single_client steps else mret tt
  end.

Definition run (single_client : option bool) (steps : list ScriptStep) (k : K) :
    Server K * StdRes RunReport :=
  (_ ← os_call os_listen;
   _ ← sm_map_err runtime_wait_error (wait_until Listener false);
   _ ← sm_map_err runtime_wait_error (os_call os_accept);
   _ ← run_steps (default true single_client) steps;
   st ← get_state;
   mret (to_run_report st))
  (mkServer k (FrameReceiver_new FrameLimits_default) (FrameSender_new FrameLimits_default) exec_new).
End run.
