(* ===== verification/ServerRuntimeProps.v ===== *)
(** * What a run of a script amounts to

    The abstract account of a scenario is a conversation: each step takes the
    next frame of the client, decodes it under the routes so far, matches it,
    updates the state and answers with the events of its actions. A run of
    the server that returns is such a conversation, and the bytes it has
    written are exactly the frames of the answers, in their order. *)

From S2P Require Import Prelude PodTypes PodCodec PodParser PodBuilder FrameHeader FrameControl.
From S2P Require Import FrameRecv FrameRecvLaws FrameStream FrameSend FrameFuel FrameChannel.
From S2P Require Import ClientNode InboundMessage Demarshal CoreClient.
From S2P Require Import ServerMessages ServerScript ServerRuntime.

(** ** What the operating system promises *)
Definition undisturbed {K} `{!ServerOs K} `{!StreamSocket os_recvmsg} (k k' : K) : Prop :=
  ∀ fs r, stream_inv os_recvmsg fs r k → stream_inv os_recvmsg fs r k'.

Definition unwritten {K} `{!ServerOs K} `{!SendSocket os_sendmsg} (k k' : K) : Prop :=
  sent_bytes k' = sent_bytes k ∧ sent_rights k' = sent_rights k.

(** The connection is a stream in both directions. No other call writes to
    it or takes what was received; more may arrive at any time. *)
Class ServerOsLaws (K : Type) `{!ServerOs K} := {
  osl_stream :: StreamSocket os_recvmsg;
  osl_send :: SendSocket os_sendmsg;
  osl_recv k n c : unwritten k (os_recvmsg k n c).1;
  osl_sendmsg k data control : undisturbed k (os_sendmsg k data control).1;
  osl_listen k : undisturbed k (os_listen k).1 ∧ unwritten k (os_listen k).1;
  osl_accept k : undisturbed k (os_accept k).1 ∧ unwritten k (os_accept k).1;
  osl_expired k : undisturbed k (os_expired k).1 ∧ unwritten k (os_expired k).1;
  osl_poll k sock out : undisturbed k (os_poll k sock out).1 ∧ unwritten k (os_poll k sock out).1;
  osl_memfd k id :
    (undisturbed k (os_memfd_create k id).1 ∧ unwritten k (os_memfd_create k id).1) ∧
    ∀ fd, (os_memfd_create k id).2 = Ok fd → 0 ≤ fd < 2 ^ 31;
  osl_ftruncate k fd size :
    undisturbed k (os_ftruncate k fd size).1 ∧ unwritten k (os_ftruncate k fd size).1;
  osl_eventfd k :
    (undisturbed k (os_eventfd k).1 ∧ unwritten k (os_eventfd k).1) ∧
    ∀ fd, (os_eventfd k).2 = Ok fd → 0 ≤ fd < 2 ^ 31;
}.

(** ** The conversation of a script *)
Definition action_event (st : ExecutionState) (a : Action) : option (StdRes (Z * Z * list byte)) :=
  let core op (p : StdRes (list byte)) := p ← p; Ok (CORE_ID, op, p) in
  let node op (p : WireRes (list byte)) :=
    p ← map_err wire_error p; id ← require_client_node_id st; Ok (id, op, p) in
  let registry op (p : StdRes (list byte)) :=
    id ← ok_or (last_registry_proxy_id st) (Custom KInvalidData); p ← p; Ok (id, op, p) in
  match a with
  | SendCoreInfo info => Some (core server_event.INFO (encode_core_info_payload (ci_cookie info)
      (ci_user_name info) (ci_host_name info) (ci_version info) (ci_name info) (ci_props info)))
  | SendCoreDoneFromLastSync =>
      Some (sync ← ok_or (last_sync st) (Custom KInvalidData);
            core server_event.DONE (encode_core_done_payload (sync_id sync) (sync_seq sync)))
  | SendCoreDone id seq => Some (core server_event.DONE (encode_core_done_payload id seq))
  | SendCoreError err => Some (core server_event.ERROR
      (encode_core_error_payload (ce_id err) (ce_seq err) (ce_res err) (ce_message err)))
  | SendCoreAddMem mem => Some (core server_event.ADD_MEM
      (encode_core_add_mem_payload (ca_id mem) (ca_memory_type mem) (ca_fd_index mem) (ca_flags mem)))
  | SendCoreRemoveMem id => Some (core server_event.REMOVE_MEM (encode_core_remove_mem_payload id))
  | SendClientNodeCommand command => Some (node EVENT_COMMAND (encode_command command))
  | SendClientNodeTransport t c a => Some (node EVENT_TRANSPORT (encode_transport t c a))
  | SendClientNodePortSetParam v => Some (node EVENT_PORT_SET_PARAM (encode_port_set_param v))
  | SendClientNodePortUseBuffers v => Some (node EVENT_PORT_USE_BUFFERS (encode_port_use_buffers v))
  | SendClientNodePortSetIo v => Some (node EVENT_PORT_SET_IO (encode_port_set_io v))
  | SendClientNodeSetActivation n a =>
      Some (node EVENT_SET_ACTIVATION (encode_set_activation n ((λ r, (0, r)) <$> a)))
  | SendRegistryGlobalOnLastRegistry g => Some (registry server_event.GLOBAL
      (encode_registry_global_payload (rg_id g) (rg_permissions g) (rg_type g) (rg_version g) (rg_props g)))
  | SendRegistryGlobalRemoveOnLastRegistry id =>
      Some (registry server_event.GLOBAL_REMOVE (encode_registry_global_remove_payload id))
  | CloseConnection => None
  end.

(** The descriptors made for an action. *)
Definition action_fds (a : Action) : nat :=
  match a with
  | SendCoreAddMem _ => 1
  | SendClientNodeTransport _ _ _ => 2
  | SendClientNodeSetActivation _ (Some _) => 1
  | _ => 0
  end.

Definition action_state (st : ExecutionState) (a : Action) : ExecutionState :=
  match a with SendCoreAddMem mem => with_exported st (ca_id mem) | _ => st end.

(** The events sent for a list of actions, and whether the run goes on. *)
Inductive answers : ExecutionState → list Action → list Message → ExecutionState → bool → Prop :=
| answers_nil st : answers st [] [] st true
| answers_close st actions : answers st (CloseConnection :: actions) [] st false
| answers_send st a actions id op payload fds ms st' b :
    action_event st a = Some (Ok (id, op, payload)) → length fds = action_fds a →
    answers (action_state st a) actions ms st' b →
    answers st (a :: actions) (mkMessage id op 0 payload fds :: ms) st' b.

(** A frame that is the next one expected. *)
Definition expected (st : ExecutionState) (expect : Expectation) (f : SentFrame) (st' : ExecutionState) : Prop :=
  s_fds f = [] ∧ ∃ inbound,
    decode_inbound_message_with_routes (object_id (s_header f)) (opcode (s_header f)) (s_payload f)
      (object_routes st) = Ok inbound ∧
    matches expect (object_id (s_header f)) (opcode (s_header f)) inbound = true ∧
    update_state_from_inbound st inbound = (st', Ok tt).

Inductive plays : ExecutionState → list ScriptStep → list SentFrame → list Message → ExecutionState → Prop :=
| plays_done st : plays st [] [] [] st
| plays_step st step steps f fs st1 ms st2 ms' st' :
    expected st (step_expect step) f st1 → answers st1 (step_actions step) ms st2 true →
    plays (with_completed st2) steps fs ms' st' →
    plays st (step :: steps) (f :: fs) (ms ++ ms') st'
| plays_closed st step steps f st1 ms st2 :
    expected st (step_expect step) f st1 → answers st1 (step_actions step) ms st2 false →
    plays st (step :: steps) [f] ms (with_completed st2).

(** The clients turned away are counted on the side. *)
Definition uncounted (st : ExecutionState) : ExecutionState :=
  mkExec (last_sync st) (last_registry_proxy_id st) (completed_steps st) (accepted_clients st) 0
    (exported_mem_ids st) (object_routes st).

(** What went out between two states of the connection. *)
Definition wrote_messages {K} `{!ServerOs K} `{!SendSocket os_sendmsg} (k k' : K) (ms : list Message) : Prop :=
  sent_bytes k' = sent_bytes k ++ concat (frame_bytes <$> (sent_frame <$> ms)) ∧
  sent_rights k' = sent_rights k ++ queue_rights (len (sent_bytes k)) (fresh <$> ms).

Definition idle (s : FrameSender) : Prop :=
  send_inv s ∧ queue_fds_ok s ∧ failed s = false ∧ s_limits s = FrameLimits_default ∧ queue s = [].

(** ** Runs of the monad *)
Lemma sm_bind_Ok {K A B} (m : SM K A) (f : A → SM K B) s s' b :
  (m ≫= f) s = (s', Ok b) → ∃ s1 a, m s = (s1, Ok a) ∧ f a s1 = (s', Ok b).
Proof. unfold mbind, sm_bind. destruct (m s) as [s1 [a|e|]]; [|done..]. intros H. by exists s1, a. Qed.

Lemma sm_ret_Ok {K A} (a b : A) (s s' : Server K) : (mret a : SM K A) s = (s', Ok b) → s' = s ∧ b = a.
Proof. by intros [= <- <-]. Qed.

Lemma sm_res_Ok {K A} (r : StdRes A) (s s' : Server K) a : sm_res r s = (s', Ok a) → s' = s ∧ r = Ok a.
Proof. by intros [= <- ->]. Qed.

Lemma map_err_Ok {E F A} (f : E → F) (r : Res E A) a : map_err f r = Ok a → r = Ok a.
Proof. destruct r; by intros [= ->]. Qed.

Lemma sm_map_err_Ok {K A} f (m : SM K A) s s' a : sm_map_err f m s = (s', Ok a) → m s = (s', Ok a).
Proof. unfold sm_map_err. destruct (m s) as [s1 r]. intros [= <- H]. by apply map_err_Ok in H as ->. Qed.

Lemma ok_or_Ok {E A} (o : option A) (e : E) a : ok_or o e = Ok a → o = Some a.
Proof. by destruct o; intros [= ->]. Qed.

Ltac sm_inv :=
  repeat match goal with
  | H : (_ ≫= _) _ = (_, Ok _) |- _ =>
      let s := fresh "s" in let a := fresh "a" in let H1 := fresh "H" in
      apply sm_bind_Ok in H as (s & a & H1 & H); cbv beta in H
  | H : (mret _) _ = (_, Ok _) |- _ => apply sm_ret_Ok in H as [? ?]; subst
  | H : sm_res _ _ = (_, Ok _) |- _ => apply sm_res_Ok in H as [? H]; subst
  | H : get_state _ = (_, Ok _) |- _ => injection H as <- <-
  | H : sm_map_err _ _ _ = (_, Ok _) |- _ => apply sm_map_err_Ok in H
  | H : map_err _ _ = Ok _ |- _ => apply map_err_Ok in H
  | H : ok_or _ _ = Ok _ |- _ => apply ok_or_Ok in H
  end.

Section os.
Context {K : Type} `{!ServerOs K} `{!ServerOsLaws K}.

(** The connection before and after a part of the run that reads nothing. *)
Record step_ok (s s' : Server K) (ms : list Message) : Prop := {
  so_receiver : sv_receiver s' = sv_receiver s;
  so_undisturbed : undisturbed (sv_os s) (sv_os s');
  so_wrote : wrote_messages (sv_os s) (sv_os s') ms;
}.

Lemma unwritten_refl (k : K) : unwritten k k.
Proof. done. Qed.
Lemma unwritten_trans (k1 k2 k3 : K) : unwritten k1 k2 → unwritten k2 k3 → unwritten k1 k3.
Proof. intros [H1 H2] [H3 H4]. split; congruence. Qed.

Lemma unwritten_nothing (k k' : K) : unwritten k k' ↔ wrote_messages k k' [].
Proof. unfold unwritten, wrote_messages. simpl. by rewrite !app_nil_r. Qed.

Lemma wrote_trans (k1 k2 k3 : K) ms ms' :
  wrote_messages k1 k2 ms → wrote_messages k2 k3 ms' → wrote_messages k1 k3 (ms ++ ms').
Proof.
  intros [H1 H2] [H3 H4]. split.
  - by rewrite H3, H1, !fmap_app, concat_app, app_assoc.
  - rewrite H4, H2, H1, fmap_app, queue_rights_app, <- app_assoc. do 3 f_equal. rewrite len_app.
    by rewrite fresh_left.
Qed.

Lemma step_ok_refl s : step_ok s s [].
Proof. split; [done|by intros ?|]. by apply unwritten_nothing. Qed.

Lemma step_ok_trans s1 s2 s3 ms ms' : step_ok s1 s2 ms → step_ok s2 s3 ms' → step_ok s1 s3 (ms ++ ms').
Proof.
  intros [H1 H2 H3] [H4 H5 H6]. split; [congruence| |by eapply wrote_trans].
  intros fs r Hs. by apply H5, H2.
Qed.

Lemma step_ok_trans_l s1 s2 s3 ms : step_ok s1 s2 [] → step_ok s2 s3 ms → step_ok s1 s3 ms.
Proof. apply (step_ok_trans s1 s2 s3 [] ms). Qed.
Lemma step_ok_trans_r s1 s2 s3 ms : step_ok s1 s2 ms → step_ok s2 s3 [] → step_ok s1 s3 ms.
Proof. intros H1 H2. rewrite <- (app_nil_r ms). by eapply step_ok_trans. Qed.

(** A call of the operating system that leaves the connection alone. *)
Definition silent {A} (m : SM K A) : Prop :=
  ∀ s, sv_sender (m s).1 = sv_sender s ∧ sv_state (m s).1 = sv_state s ∧ step_ok s (m s).1 [].

Lemma on_os_silent {A} (f : K → K * StdRes A) :
  (∀ k, undisturbed k (f k).1 ∧ unwritten k (f k).1) → silent (on_os f).
Proof.
  intros Hf s. destruct (Hf (sv_os s)) as [Hu Hw]. unfold on_os. destruct (f (sv_os s)) as [k r]. simpl in *.
  split_and!; [done|done|]. split; [done|done|]. by apply unwritten_nothing.
Qed.

Lemma os_call_silent {A} (f : K → K * Res IoError A) :
  (∀ k, undisturbed k (f k).1 ∧ unwritten k (f k).1) → silent (os_call f).
Proof. intros Hf. apply on_os_silent. intros k. specialize (Hf k). by destruct (f k). Qed.

Lemma quiet_trans (k1 k2 k3 : K) :
  undisturbed k1 k2 ∧ unwritten k1 k2 → undisturbed k2 k3 ∧ unwritten k2 k3 →
  undisturbed k1 k3 ∧ unwritten k1 k3.
Proof.
  intros [Hu Hw] [Hu' Hw']. split; [|by eapply unwritten_trans]. intros fs r Hs. by apply Hu', Hu.
Qed.
Lemma quiet_refl (k : K) : undisturbed k k ∧ unwritten k k.
Proof. split; [by intros ?|apply unwritten_refl]. Qed.

Lemma wait_loop_quiet n sock out (k : K) :
  undisturbed k (wait_loop n sock out k).1 ∧ unwritten k (wait_loop n sock out k).1.
Proof.
  revert k. induction n as [|n IH]; intros k; simpl; [apply quiet_refl|].
  pose proof (osl_expired k) as He. destruct (os_expired k) as [k1 []]; [done|]. simpl in He.
  pose proof (osl_poll k1 sock out) as Hp. destruct (os_poll k1 sock out) as [k2 [| |[]]]; simpl in Hp;
    (eapply quiet_trans; [exact He|]); try done; (eapply quiet_trans; [exact Hp|apply IH]).
Qed.

Lemma wait_until_silent fuel sock out : silent (wait_until fuel sock out).
Proof. apply on_os_silent, wait_loop_quiet. Qed.

Lemma check_deadline_silent : silent check_deadline.
Proof.
  apply on_os_silent. intros k. pose proof (osl_expired k) as He. by destruct (os_expired k).
Qed.

(** ** Sending *)
Lemma send_loop_undisturbed n (k : K) data fds : undisturbed k (send_loop os_sendmsg n k data fds).1.
Proof.
  revert k. induction n as [|n IH]; intros k; [by intros ?|]. cbn [send_loop]. unfold send_once.
  destruct (build_control fds) as [control|e|]; [|by intros ?..].
  pose proof (osl_sendmsg k data control) as Hs. destruct (os_sendmsg k data control) as [k' [[]|sent]];
    simpl in *; try done. intros fs r H. by apply IH, Hs.
Qed.

Lemma flush_undisturbed n (k : K) s : undisturbed k (flush os_sendmsg n k s).1.1.
Proof.
  unfold flush. destruct (failed s); [by intros ?|]. revert k s.
  induction n as [|n IH]; intros k s; cbn [flush_loop]; [by intros ?|].
  destruct (queue s) as [|f rest]; [by intros ?|]. destruct (slice_from _ _) as [data| |]; [|by intros ?..].
  match goal with |- context [send_loop _ _ _ _ ?o] =>
    pose proof (send_loop_undisturbed (S n) k data o) as Hs; destruct (send_loop _ _ _ _ o) as [k' [sent|[]|]] end;
    simpl in Hs; try done.
  case_bool_decide; [done|]. destruct (advance _ _ _ _ _) as [s'| |]; try done.
  intros fs r Hsi. by apply IH, Hs.
Qed.

(** [flush] with whatever fuel, when it returns. *)
Lemma flush_Ok n (k k' : K) s s' o :
  send_inv s → queue_fds_ok s → failed s = false → flush os_sendmsg n k s = (k', s', Ok o) →
  (send_inv s' ∧ queue_fds_ok s' ∧ failed s' = false ∧ s_limits s' = s_limits s) ∧
  (o = Drained → queue s' = []) ∧
  sent_bytes k' ++ queue_left (queue s') = sent_bytes k ++ queue_left (queue s) ∧
  sent_rights k' ++ queue_rights (len (sent_bytes k')) (queue s')
  = sent_rights k ++ queue_rights (len (sent_bytes k)) (queue s).
Proof.
  intros Hs Hq Hf He. pose proof (flush_limits os_sendmsg n k s) as Hlim. rewrite He in Hlim. simpl in Hlim.
  unfold flush in He. rewrite Hf in He.
  pose proof (flush_loop_spec os_sendmsg (n + S (interruptions k + length (queue_left (queue s)))) k s Hs Hq Hf
    ltac:(lia)) as Hspec.
  rewrite (flush_loop_fuel os_sendmsg n) in Hspec; [|lia|by rewrite He].
  rewrite He in Hspec. destruct Hspec as (? & ? & _ & Hd & Ho & _).
  destruct (Ho o eq_refl) as (? & ? & ?). split_and!; try done. intros ->. by apply Hd.
Qed.

Lemma flush_all_Ok fuel n (s s' : Server K) :
  send_inv (sv_sender s) → queue_fds_ok (sv_sender s) → failed (sv_sender s) = false →
  s_limits (sv_sender s) = FrameLimits_default →
  flush_all fuel n s = (s', Ok tt) →
  idle (sv_sender s') ∧ sv_state s' = sv_state s ∧ sv_receiver s' = sv_receiver s ∧
  undisturbed (sv_os s) (sv_os s') ∧
  sent_bytes (sv_os s') = sent_bytes (sv_os s) ++ queue_left (queue (sv_sender s)) ∧
  sent_rights (sv_os s')
  = sent_rights (sv_os s) ++ queue_rights (len (sent_bytes (sv_os s))) (queue (sv_sender s)).
Proof.
  revert s. induction n as [|n IH]; intros s Hs Hq Hf Hl; cbn [flush_all]; [done|]. intros H.
  apply sm_bind_Ok in H as (s1 & o & H1 & H). unfold flush_once in H1.
  pose proof (flush_undisturbed fuel (sv_os s) (sv_sender s)) as Hu.
  destruct (flush os_sendmsg fuel (sv_os s) (sv_sender s)) as [[k1 sn] r] eqn:Hfl. simpl in Hu.
  injection H1 as <- Hr. apply map_err_Ok in Hr as ->.
  destruct (flush_Ok _ _ _ _ _ _ Hs Hq Hf Hfl) as ((? & ? & ? & ?) & Hd & Hb & Hr).
  destruct o; cbv beta iota in H.
  - apply sm_ret_Ok in H as [-> _]. specialize (Hd eq_refl). cbn [sv_sender sv_state sv_receiver sv_os].
    rewrite Hd in Hb, Hr. simpl in Hb, Hr. rewrite app_nil_r in Hb, Hr.
    split_and!; try done. split_and!; try done. congruence.
  - apply sm_bind_Ok in H as (s2 & u & Hw & H).
    destruct (wait_until_silent fuel Client true (mkServer k1 (sv_receiver s) sn (sv_state s))) as (Hsn & Hst & Hok).
    rewrite Hw in Hsn, Hst, Hok. simpl in Hsn, Hst, Hok.
    destruct (IH s2) as (Hi & Hst' & Hrc & Hu' & Hb' & Hr'); [by rewrite Hsn..|by rewrite Hsn; congruence|done|].
    destruct Hok as [Hrc2 Hu2 [Hb2 Hr2]%unwritten_nothing]. simpl in Hrc2, Hu2, Hb2, Hr2.
    rewrite Hsn in Hb', Hr'. split_and!; [done|congruence|congruence| |congruence|congruence].
    intros fs r Hsi. by apply Hu', Hu2, Hu.
Qed.

Lemma fds_ok_small (fds : list Z) : (length fds ≤ 2)%nat → Forall (λ fd, 0 ≤ fd < 2 ^ 31) fds → fds_ok (Some fds).
Proof. intros Hl Hf. split; [done|]. unfold len, isize_max. lia. Qed.

Lemma send_event_Ok fuel id op payload fds (s s' : Server K) :
  idle (sv_sender s) → (length fds ≤ 2)%nat → Forall (λ fd, 0 ≤ fd < 2 ^ 31) fds →
  send_event_with_fds fuel id op payload fds s = (s', Ok tt) →
  idle (sv_sender s') ∧ sv_state s' = sv_state s ∧ step_ok s s' [mkMessage id op 0 payload fds].
Proof.
  intros (Hs & Hq & Hf & Hl & Hqueue) Hn Hfds H. unfold send_event_with_fds in H. sm_inv.
  match goal with H : OutboundFrame_new _ _ _ _ _ _ = Ok ?f |- _ =>
    destruct (OutboundFrame_new_inv _ _ _ _ _ _ _ (mkHeader id op (len payload) 0 (len fds)) H)
      as (Hfeq & Hout & _ & _) end.
  { rewrite (wrap_small 32 (len fds)) by (unfold len; lia). done. }
  { by apply fds_ok_small. }
  match goal with H : enqueue_frame ?f _ = _ |- _ => unfold enqueue_frame in H;
    pose proof (enqueue_spec (sv_sender s) f Hs Hq Hout) as He;
    destruct (enqueue (sv_sender s) f) as [sn r] eqn:Hen; injection H as <- Hr end.
  apply map_err_Ok in Hr as ->. destruct He as (Hs1 & Hq1 & Hf1 & Hl1 & Hq').
  apply flush_all_Ok in H as (Hi & Hst & Hrc & Hu & Hb & Hr); cbn [sv_sender sv_state sv_receiver sv_os] in *;
    [|done|done|congruence|congruence].
  split_and!; [done|done|]. rewrite Hqueue in Hq'. rewrite Hq', Hfeq in Hb, Hr.
  split; [done|done|]. split; [|exact Hr]. by rewrite Hb.
Qed.

(** ** Actions *)
Definition same_but_os (s s' : Server K) : Prop :=
  sv_sender s' = sv_sender s ∧ sv_state s' = sv_state s ∧ step_ok s s' [].

Lemma silent_Ok {A} (m : SM K A) s s' a : silent m → m s = (s', Ok a) → same_but_os s s'.
Proof. intros Hm Hs. specialize (Hm s). by rewrite Hs in Hm. Qed.

Lemma same_trans s1 s2 s3 : same_but_os s1 s2 → same_but_os s2 s3 → same_but_os s1 s3.
Proof.
  intros (H1 & H2 & H3) (H4 & H5 & H6). split_and!; [congruence|congruence|]. by eapply step_ok_trans_l.
Qed.

Lemma os_call_Ok {A} (f : K → K * Res IoError A) s s' a :
  os_call f s = (s', Ok a) → (f (sv_os s)).2 = Ok a.
Proof.
  unfold os_call, on_os. destruct (f (sv_os s)) as [k r]. intros [= _ H]. by apply map_err_Ok in H as ->.
Qed.

Lemma create_eventfd_Ok s s' fd : create_eventfd s = (s', Ok fd) → same_but_os s s' ∧ 0 ≤ fd < 2 ^ 31.
Proof.
  intros H. split; [|by eapply osl_eventfd, os_call_Ok].
  eapply silent_Ok; [|exact H]. apply os_call_silent. intros k. apply osl_eventfd.
Qed.

Lemma create_memfd_Ok id size s s' fd :
  create_memfd_for_add_mem id size s = (s', Ok fd) → same_but_os s s' ∧ 0 ≤ fd < 2 ^ 31.
Proof.
  unfold create_memfd_for_add_mem. destruct (bool_decide (size = 0)); [done|]. intros H. sm_inv.
  match goal with H1 : os_call (λ k, os_memfd_create k id) s = (?s1, _), H2 : os_call _ ?s1 = _ |- _ =>
    split; [|by eapply osl_memfd, (os_call_Ok _ _ _ _ H1)];
    eapply same_trans; [eapply silent_Ok, H1|eapply silent_Ok, H2] end;
    apply os_call_silent; intros k; [apply osl_memfd|apply osl_ftruncate].
Qed.

(** An event sent after descriptors were made for it. *)
Lemma sent_after fuel id op payload fds (s s1 s' : Server K) :
  idle (sv_sender s) → same_but_os s s1 → (length fds ≤ 2)%nat → Forall (λ fd, 0 ≤ fd < 2 ^ 31) fds →
  send_event_with_fds fuel id op payload fds s1 = (s', Ok tt) →
  idle (sv_sender s') ∧ sv_state s' = sv_state s ∧ step_ok s s' [mkMessage id op 0 payload fds].
Proof.
  intros Hi (Hsn & Hst & Hok) Hn Hf H. rewrite <- Hsn in Hi.
  destruct (send_event_Ok _ _ _ _ _ _ _ Hi Hn Hf H) as (? & Hst' & Hok').
  split_and!; [done|congruence|]. by eapply step_ok_trans_l.
Qed.

Definition acted (a : Action) (b : bool) (s s' : Server K) : Prop :=
  match action_event (sv_state s) a with
  | None => b = false ∧ s' = s
  | Some r =>
      b = true ∧ ∃ id op payload fds, r = Ok (id, op, payload) ∧ length fds = action_fds a ∧
        sv_state s' = action_state (sv_state s) a ∧ step_ok s s' [mkMessage id op 0 payload fds]
  end.

Lemma same_refl s : same_but_os s s.
Proof. split_and!; [done|done|apply step_ok_refl]. Qed.

Lemma acted_plain fuel a id op payload (s s' : Server K) :
  idle (sv_sender s) → action_fds a = 0%nat → action_state (sv_state s) a = sv_state s →
  action_event (sv_state s) a = Some (Ok (id, op, payload)) →
  send_event fuel id op payload s = (s', Ok tt) → idle (sv_sender s') ∧ acted a true s s'.
Proof.
  intros Hi Hn Hst He H. destruct (sent_after fuel id op payload [] s s s' Hi (same_refl s) ltac:(simpl; lia) (Forall_nil_2 _) H)
    as (? & ? & ?).
  split; [done|]. unfold acted. rewrite He. split; [done|]. exists id, op, payload, []. rewrite Hn, Hst. done.
Qed.

Lemma acted_fds fuel a id op payload fds (s s1 s' : Server K) :
  idle (sv_sender s) → same_but_os s s1 → length fds = action_fds a → Forall (λ fd, 0 ≤ fd < 2 ^ 31) fds →
  action_state (sv_state s) a = sv_state s →
  action_event (sv_state s) a = Some (Ok (id, op, payload)) →
  send_event_with_fds fuel id op payload fds s1 = (s', Ok tt) → idle (sv_sender s') ∧ acted a true s s'.
Proof.
  intros Hi Hs Hn Hf Hst He H.
  assert (length fds ≤ 2)%nat by (rewrite Hn; destruct a as [| | | | | | | | | | |? []| | |]; simpl; lia).
  destruct (sent_after _ _ _ _ _ _ _ _ Hi Hs ltac:(done) Hf H) as (? & ? & ?).
  split; [done|]. unfold acted. rewrite He. split; [done|]. exists id, op, payload, fds. rewrite Hst. done.
Qed.

(** The event of an action, from the equations its run left. *)
Ltac encoded :=
  lazymatch goal with
  | H : encode_core_info_payload _ _ _ _ _ _ = Ok _ |- _ => rewrite H
  | H : encode_core_done_payload _ _ = Ok _ |- _ => rewrite H
  | H : encode_core_error_payload _ _ _ _ = Ok _ |- _ => rewrite H
  | H : encode_core_add_mem_payload _ _ _ _ = Ok _ |- _ => rewrite H
  | H : encode_core_remove_mem_payload _ = Ok _ |- _ => rewrite H
  | H : encode_registry_global_payload _ _ _ _ _ = Ok _ |- _ => rewrite H
  | H : encode_registry_global_remove_payload _ = Ok _ |- _ => rewrite H
  | H : encode_command _ = Ok _ |- _ => rewrite H
  | H : encode_transport _ _ _ = Ok _ |- _ => rewrite H
  | H : encode_port_set_param _ = Ok _ |- _ => rewrite H
  | H : encode_port_use_buffers _ = Ok _ |- _ => rewrite H
  | H : encode_port_set_io _ = Ok _ |- _ => rewrite H
  | H : encode_set_activation _ _ = Ok _ |- _ => rewrite H
  end; cbn [map_err]; res_cbn.
Ltac event_of :=
  cbn [action_event]; unfold require_client_node_id in *; sm_inv;
  try (match goal with
  | H : last_sync _ = Some _ |- _ => rewrite H
  | H : last_registry_proxy_id _ = Some _ |- _ => rewrite H
  end; cbn [ok_or]; res_cbn);
  encoded;
  try (match goal with H : last_client_node_id _ = Some _ |- _ => rewrite H end; cbn [ok_or]; res_cbn);
  reflexivity.

Lemma apply_action_Ok fuel a b (s s' : Server K) :
  idle (sv_sender s) → apply_action fuel a s = (s', Ok b) → idle (sv_sender s') ∧ acted a b s s'.
Proof.
  intros Hi H. destruct a as [info| |id seq|err|mem|id|cmd|t c act|v|v|v|n act|g|id|]; cbn [apply_action] in H;
    unfold send_client_node_event in H; sm_inv;
    repeat match goal with u : unit |- _ => destruct u end;
    lazymatch goal with
    | H : send_event _ _ _ _ s = _ |- _ =>
        eapply acted_plain; [exact Hi|reflexivity|reflexivity| |exact H]; event_of
    | _ => idtac
    end.
  - destruct (create_memfd_Ok _ _ _ _ _ H1) as [Hs Hfd]. injection H3 as <-.
    assert (Forall (λ fd, 0 ≤ fd < 2 ^ 31) [a0]) as Hf by (repeat constructor; lia).
    assert (length [a0] ≤ 2)%nat as Hn by (simpl; lia).
    destruct (sent_after fuel CORE_ID server_event.ADD_MEM a [a0] s s1 s2 Hi Hs Hn Hf H2) as (Hi' & Hst & Hok).
    cbn [sv_sender]. split; [done|]. unfold acted. cbn [action_event].
    encoded. split; [reflexivity|]. eexists _, _, _, [a0]. split; [reflexivity|]. cbn [sv_state]. rewrite Hst.
    split; [reflexivity|]. split; [reflexivity|]. destruct Hok as [Hr Hu Hw]. split; [exact Hr|exact Hu|exact Hw].
  - destruct (create_eventfd_Ok _ _ _ H3) as [Hs Hfd]. destruct (create_eventfd_Ok _ _ _ H4) as [Hs' Hfd'].
    eapply acted_fds; [exact Hi|by eapply same_trans|..|exact H5]; [reflexivity|repeat constructor; lia|reflexivity|event_of].
  - destruct act as [act|]; sm_inv.
    + match goal with H : create_eventfd s = _ |- _ => destruct (create_eventfd_Ok _ _ _ H) as [Hs Hfd] end.
      eapply acted_fds; [exact Hi|exact Hs|..|exact H4]; [reflexivity|repeat constructor; lia|reflexivity|event_of].
    + eapply acted_fds; [exact Hi|apply same_refl|..|exact H4]; [reflexivity|constructor|reflexivity|event_of].
  - done.
Qed.

Lemma apply_actions_Ok fuel actions b (s s' : Server K) :
  idle (sv_sender s) → apply_actions fuel actions s = (s', Ok b) →
  idle (sv_sender s') ∧ ∃ ms, answers (sv_state s) actions ms (sv_state s') b ∧ step_ok s s' ms.
Proof.
  revert s. induction actions as [|a actions IH]; intros s Hi; cbn [apply_actions]; intros H.
  { apply sm_ret_Ok in H as [-> ->]. split; [done|]. exists []. split; [constructor|apply step_ok_refl]. }
  apply sm_bind_Ok in H as (s1 & keep & H1%sm_map_err_Ok & H).
  destruct (apply_action_Ok _ _ _ _ _ Hi H1) as [Hi1 Ha].
  unfold acted in Ha. destruct (action_event (sv_state s) a) as [r|] eqn:He.
  - destruct Ha as (-> & id & op & payload & fds & -> & Hn & Hst & Hok).
    destruct (IH s1 Hi1 H) as (Hi' & ms & Hans & Hok'). split; [done|].
    exists (mkMessage id op 0 payload fds :: ms). split; [|by apply (step_ok_trans _ s1 _ [_])].
    eapply answers_send; [done|done|]. by rewrite <- Hst.
  - destruct Ha as [-> ->]. sm_inv. split; [done|]. exists []. split; [|apply step_ok_refl].
    destruct a; try done. constructor.
Qed.

(** ** Receiving *)
Lemma recvmsg_loop_unwritten n (k : K) iov ctl : unwritten k (recvmsg_loop os_recvmsg n k iov ctl).1.
Proof.
  revert k. induction n as [|n IH]; intros k; [apply unwritten_refl|]. cbn [recvmsg_loop].
  pose proof (osl_recv k iov ctl) as Hr. destruct (os_recvmsg k iov ctl) as [k' [[]|]]; simpl in *; try done.
  eapply unwritten_trans; [exact Hr|apply IH].
Qed.

Lemma recv_once_unwritten n (k : K) chunk ctl : unwritten k (recv_once os_recvmsg n k chunk ctl).1.
Proof.
  unfold recv_once. destruct (_ ≫= _) as [buffer| |]; [|apply unwritten_refl..].
  pose proof (recvmsg_loop_unwritten n k chunk buffer) as Hr.
  by destruct (recvmsg_loop os_recvmsg n k chunk buffer) as [k' [[[]]| |]].
Qed.

Lemma receive_unwritten n (k : K) r : unwritten k (receive os_recvmsg n k r).1.1.
Proof.
  assert (∀ n k r, unwritten k (receive_loop os_recvmsg n k r).1.1) as Hl.
  { clear. intros n. induction n as [|n IH]; intros k r; [apply unwritten_refl|]. cbn [receive_loop].
    destruct (header_step r) as [r1 [res|]]; [apply unwritten_refl|].
    destruct (payload_step r1) as [r2 [res|]]; [apply unwritten_refl|].
    pose proof (recv_once_unwritten (S n) k (next_chunk_len r2) (recv_control_fds (limits r2))) as Hr.
    destruct (recv_once _ _ _ _ _) as [k' [[data fds]|[[]| | | | | | | | | | | | | |]|]]; simpl in Hr; try done.
    destruct data as [|x data]; [destruct (eof_step _ _) as [r3 [res|]]|destruct (append_step _ _ _) as [r3 [res|]]];
      try done; (eapply unwritten_trans; [exact Hr|apply IH]). }
  unfold receive. destruct (state r); try apply Hl; apply unwritten_refl.
Qed.

Lemma receive_Ok n f fs (k k' : K) r r' o :
  stream_inv os_recvmsg (f :: fs) r k → receive os_recvmsg n k r = (k', r', Ok o) →
  (o = Frame (delivered f) ∧ stream_inv os_recvmsg fs r' k') ∨
  (o = ReceiveWouldBlock ∧ stream_inv os_recvmsg (f :: fs) r' k').
Proof.
  intros Hs Hr. destruct (receive_loop_stream os_recvmsg f fs (n + S (retries k)) k r Hs ltac:(lia))
    as (k2 & r2 & _ & H).
  assert (receive_loop os_recvmsg (n + S (retries k)) k r = (k', r', Ok o)) as Hl.
  { assert (receive_loop os_recvmsg n k r = (k', r', Ok o)) as Hn.
    { destruct (si_live _ _ _ _ Hs) as [He Hf]. unfold receive in Hr. by destruct (state r). }
    rewrite (receive_loop_fuel os_recvmsg n); [done|lia|by rewrite Hn]. }
  rewrite Hl in H. case_bool_decide; destruct H as ([= -> -> ->] & Hs' & _); [by left|by right].
Qed.

(** Waiting for the next frame. *)
Record received (s s' : Server K) (fs : list SentFrame) : Prop := {
  rv_stream : stream_inv os_recvmsg fs (sv_receiver s') (sv_os s');
  rv_sender : sv_sender s' = sv_sender s;
  rv_state : sv_state s' = sv_state s;
  rv_unwritten : unwritten (sv_os s) (sv_os s');
}.

Lemma receive_frame_Ok fuel n f fs (s s' : Server K) g :
  stream_inv os_recvmsg (f :: fs) (sv_receiver s) (sv_os s) →
  receive_frame fuel n s = (s', Ok g) → g = delivered f ∧ received s s' fs.
Proof.
  revert s. induction n as [|n IH]; intros s Hs; cbn [receive_frame]; [done|]. intros H.
  apply sm_bind_Ok in H as (s1 & o & H1 & H). unfold receive_once in H1.
  pose proof (receive_unwritten fuel (sv_os s) (sv_receiver s)) as Hu.
  destruct (receive os_recvmsg fuel (sv_os s) (sv_receiver s)) as [[k1 r1] res] eqn:Hr. simpl in Hu.
  injection H1 as <- Hres. apply map_err_Ok in Hres as ->.
  destruct (receive_Ok _ _ _ _ _ _ _ _ Hs Hr) as [[-> Hs1]|[-> Hs1]].
  - apply sm_ret_Ok in H as [-> ->]. split; [done|]. by split.
  - apply sm_bind_Ok in H as (s2 & [] & H2%sm_map_err_Ok & H).
    destruct (silent_Ok _ _ _ _ (wait_until_silent fuel Client false) H2) as (Hsn & Hst & [Hrc Hun Hw]).
    apply unwritten_nothing in Hw. simpl in *.
    destruct (IH s2) as (-> & [Hs3 Hsn3 Hst3 Hun3]); [rewrite Hrc; by apply Hun|done|].
    split; [done|]. split; [done|congruence|congruence|].
    eapply unwritten_trans; [exact Hu|]. by eapply unwritten_trans.
Qed.

Lemma accept_frame_Ok e f (s s' : Server K) :
  accept_frame e (delivered f) s = (s', Ok tt) →
  expected (sv_state s) e f (sv_state s') ∧ sv_sender s' = sv_sender s ∧ step_ok s s' [].
Proof.
  unfold accept_frame. cbn [f_header f_payload f_fds delivered]. case_bool_decide as Hn; [done|]. intros H.
  apply sm_bind_Ok in H as (s1 & st & [= <- <-] & H). apply sm_bind_Ok in H as (s2 & inbound & H2 & H).
  apply sm_res_Ok in H2 as [-> Hd]. destruct (matches _ _ _ _) eqn:Hm; [|done]. cbn [negb] in H.
  unfold on_state in H. destruct (update_state_from_inbound (sv_state s) inbound) as [st r] eqn:Hu.
  injection H as <- ->. cbn [sv_state sv_sender]. split_and!; [|done|by destruct (step_ok_refl s)].
  split; [|by exists inbound]. unfold len in Hn. rewrite length_fmap in Hn. apply nil_length_inv. lia.
Qed.

Lemma reject_loop_quiet n (k : K) st :
  (undisturbed k (reject_loop n k st).1.1 ∧ unwritten k (reject_loop n k st).1.1) ∧
  uncounted (reject_loop n k st).1.2 = uncounted st.
Proof.
  revert k st. induction n as [|n IH]; intros k st; cbn [reject_loop]; [split; [apply quiet_refl|done]|].
  pose proof (osl_accept k) as Ha. destruct (os_accept k) as [k' [[]|[]|]]; simpl in Ha; try done.
  destruct (IH k' (with_rejected st)) as [Hq Hc]. split; [by eapply quiet_trans|]. by rewrite Hc.
Qed.

Lemma reject_pending_ok fuel (single : bool) (s s' : Server K) :
  (if single then reject_pending_clients fuel else mret tt) s = (s', Ok tt) →
  sv_sender s' = sv_sender s ∧ uncounted (sv_state s') = uncounted (sv_state s) ∧ step_ok s s' [].
Proof.
  destruct single; intros H.
  - unfold reject_pending_clients in H. destruct (reject_loop_quiet fuel (sv_os s) (sv_state s)) as [[Hu Hw] Hc].
    destruct (reject_loop _ _ _) as [[k st] r]. injection H as <- ->. simpl in *.
    split_and!; [done|done|]. split; [done|done|]. by apply unwritten_nothing.
  - apply sm_ret_Ok in H as [-> _]. split_and!; [done|done|apply step_ok_refl].
Qed.
End os.

(** ** The script, without the count of rejected clients *)
Lemma uncounted_insert st id i v :
  insert_route (uncounted st) id i v = (uncounted (insert_route st id i v).1, (insert_route st id i v).2).
Proof. unfold insert_route. cbn [object_routes uncounted]. by destruct (object_routes st !! id). Qed.

Lemma uncounted_update st inbound st' :
  update_state_from_inbound st inbound = (st', Ok tt) →
  update_state_from_inbound (uncounted st) inbound = (uncounted st', Ok tt).
Proof.
  destruct inbound; cbn [update_state_from_inbound]; try (by intros [= <-]).
  - intros H. change (with_registry (uncounted st) new_id) with (uncounted (with_registry st new_id)).
    by rewrite uncounted_insert, H.
  - intros H. by rewrite uncounted_insert, H.
  - cbn [object_routes uncounted]. destruct (object_routes st !! object_id); [|done]. by intros [= <-].
Qed.

Lemma uncounted_expected st e f st' : expected st e f st' → expected (uncounted st) e f (uncounted st').
Proof.
  intros (Hf & inbound & Hd & Hm & Hu). split; [done|]. exists inbound. split_and!; [done|done|].
  by apply uncounted_update.
Qed.

Lemma uncounted_action st a :
  action_event (uncounted st) a = action_event st a ∧ action_state (uncounted st) a = uncounted (action_state st a).
Proof. by destruct a. Qed.

Lemma uncounted_answers st actions ms st' b :
  answers st actions ms st' b → answers (uncounted st) actions ms (uncounted st') b.
Proof.
  induction 1 as [| |st a actions id op payload fds ms st' b He Hn _ IH]; [constructor..|].
  destruct (uncounted_action st a) as [H1 H2]. eapply answers_send; [by rewrite H1|done|]. by rewrite H2.
Qed.

Section script.
Context {K : Type} `{!ServerOs K} `{!ServerOsLaws K}.

Lemma run_step_Ok fuel single step b f fs (s s' : Server K) :
  stream_inv os_recvmsg (f :: fs) (sv_receiver s) (sv_os s) → idle (sv_sender s) →
  run_step fuel single step s = (s', Ok b) →
  stream_inv os_recvmsg fs (sv_receiver s') (sv_os s') ∧ idle (sv_sender s') ∧
  ∃ st1 ms st2, expected (uncounted (sv_state s)) (step_expect step) f st1 ∧
    answers st1 (step_actions step) ms st2 b ∧ uncounted (sv_state s') = with_completed st2 ∧
    wrote_messages (sv_os s) (sv_os s') ms.
Proof.
  intros Hs Hi H. unfold run_step in H.
  apply sm_bind_Ok in H as (s1 & [] & H1 & H). apply sm_bind_Ok in H as (s2 & [] & H2 & H).
  apply sm_bind_Ok in H as (s3 & g & H3 & H). apply sm_bind_Ok in H as (s4 & [] & H4 & H).
  apply sm_bind_Ok in H as (s5 & [] & H5 & H). apply sm_bind_Ok in H as (s6 & keep & H6 & H).
  apply sm_bind_Ok in H as (s7 & [] & H7 & [-> ->]%sm_ret_Ok). injection H7 as <-.
  destruct (reject_pending_ok _ _ _ _ H1) as (Hsn1 & Hc1 & [Hr1 Hu1 Hw1]).
  destruct (silent_Ok _ _ _ _ check_deadline_silent H2) as (Hsn2 & Hst2 & [Hr2 Hu2 Hw2]).
  destruct (receive_frame_Ok fuel fuel f fs s2 s3 g) as (-> & [Hs3 Hsn3 Hst3 Hw3]);
    [rewrite Hr2, Hr1; by apply Hu2, Hu1|done|].
  destruct (accept_frame_Ok _ _ _ _ H4) as (He & Hsn4 & [Hr4 Hu4 Hw4]).
  destruct (reject_pending_ok _ _ _ _ H5) as (Hsn5 & Hc5 & [Hr5 Hu5 Hw5]).
  destruct (apply_actions_Ok fuel (step_actions step) keep s5 s6) as (Hi6 & ms & Hans & [Hr6 Hu6 Hw6]);
    [by rewrite Hsn5, Hsn4, Hsn3, Hsn2, Hsn1|done|].
  cbn [sv_receiver sv_os sv_sender sv_state]. split_and!; [|done|].
  { rewrite Hr6, Hr5, Hr4. by apply Hu6, Hu5, Hu4. }
  exists (uncounted (sv_state s4)), ms, (uncounted (sv_state s6)). split_and!.
  - rewrite <- Hc1, <- Hst2, <- Hst3. by apply uncounted_expected.
  - rewrite <- Hc5. by apply uncounted_answers.
  - done.
  - apply unwritten_nothing in Hw3.
    eapply (wrote_trans _ _ _ [] ms); [|exact Hw6].
    eapply (wrote_trans _ _ _ [] []); [|exact Hw5]. eapply (wrote_trans _ _ _ [] []); [|exact Hw4].
    eapply (wrote_trans _ _ _ [] []); [|exact Hw3]. by eapply (wrote_trans _ _ _ [] []).
Qed.

Lemma run_steps_Ok fuel single steps fs (s s' : Server K) :
  stream_inv os_recvmsg fs (sv_receiver s) (sv_os s) → idle (sv_sender s) →
  (length steps ≤ length fs)%nat → run_steps fuel single steps s = (s', Ok tt) →
  ∃ used rest ms, fs = used ++ rest ∧
    plays (uncounted (sv_state s)) steps used ms (uncounted (sv_state s')) ∧
    wrote_messages (sv_os s) (sv_os s') ms.
Proof.
  revert fs s. induction steps as [|step steps IH]; intros fs s Hs Hi Hn; cbn [run_steps]; intros H.
  { apply sm_ret_Ok in H as [-> _]. exists [], fs, []. split_and!; [done|constructor|]. by apply unwritten_nothing. }
  destruct fs as [|f fs]; [simpl in Hn; lia|].
  apply sm_bind_Ok in H as (s1 & keep & H1 & H).
  destruct (run_step_Ok _ _ _ _ _ _ _ _ Hs Hi H1) as (Hs1 & Hi1 & st1 & ms & st2 & He & Ha & Hc & Hw).
  destruct keep.
  - destruct (IH fs s1 Hs1 Hi1 ltac:(simpl in Hn; lia) H) as (used & rest & ms' & -> & Hp & Hw').
    exists (f :: used), rest, (ms ++ ms'). split_and!; [done| |by eapply wrote_trans].
    eapply plays_step; [done|done|]. by rewrite <- Hc.
  - apply sm_ret_Ok in H as [-> _]. exists [f], fs, ms. split_and!; [done| |done].
    rewrite Hc. by eapply plays_closed.
Qed.

Lemma plays_completed st steps used ms st' :
  plays st steps used ms st' → completed_steps st' = completed_steps st + len used.
Proof.
  assert (∀ st e f st', expected st e f st' → completed_steps st' = completed_steps st) as He.
  { intros st0 e f st1 (_ & inbound & _ & _ & Hu).
    destruct inbound; cbn [update_state_from_inbound] in Hu; unfold insert_route in Hu; try (by injection Hu as <-).
    - cbn [object_routes with_registry] in Hu. destruct (object_routes st0 !! new_id); by injection Hu as <-.
    - destruct (object_routes st0 !! new_id); by injection Hu as <-.
    - destruct (object_routes st0 !! object_id); by injection Hu as <-. }
  assert (∀ st acts ms st' b, answers st acts ms st' b → completed_steps st' = completed_steps st) as Ha.
  { induction 1 as [| |st0 a acts id op p fds ms0 st1 b _ _ _ IH]; [done..|]. rewrite IH. by destruct a. }
  induction 1 as [|st step steps f fs st1 ms st2 ms' st' H1 H2 _ IH|st step steps f st1 ms st2 H1 H2].
  - unfold len. simpl. lia.
  - rewrite IH. cbn [with_completed completed_steps]. rewrite (Ha _ _ _ _ _ H2), (He _ _ _ _ H1).
    unfold len. simpl length. lia.
  - cbn [with_completed completed_steps]. rewrite (Ha _ _ _ _ _ H2), (He _ _ _ _ H1). done.
Qed.
End script.

(** ** A concrete operating system: a connection with all of the client's
    bytes in it, one connection to accept, and a clock that stands still. *)
Module Bench.
Record Bench := mkBench { bn_in : SegmentQueue.Queue; bn_out : Pipe.Pipe; bn_clients : nat }.

#[global] Instance bench_os : ServerOs Bench := {|
  os_listen k := (k, Ok tt);
  os_accept k :=
    match bn_clients k with
    | O => (k, Err WouldBlock)
    | S n => (mkBench (bn_in k) (bn_out k) n, Ok tt)
    end;
  os_expired k := (k, false);
  os_poll k _ _ := (k, PollReady);
  os_recvmsg k n c := let '(q, r) := SegmentQueue.recvmsg (bn_in k) n c in (mkBench q (bn_out k) (bn_clients k), r);
  os_sendmsg k d c := let '(p, r) := Pipe.sendmsg (bn_out k) d c in (mkBench (bn_in k) p (bn_clients k), r);
  os_memfd_create k _ := (k, Ok 20);
  os_ftruncate k _ _ := (k, Ok tt);
  os_eventfd k := (k, Ok 21);
|}.

#[global, refine] Instance bench_stream : StreamSocket (K:=Bench) os_recvmsg :=
  {| unread k := unread (bn_in k); rights k := rights (bn_in k); retries k := retries (bn_in k) |}.
Proof.
  intros k n c Hn Hc. pose proof (stream_recv (bn_in k) n c Hn Hc) as H. simpl.
  by destruct (SegmentQueue.recvmsg (bn_in k) n c) as [q r].
Defined.

#[global, refine] Instance bench_send : SendSocket (K:=Bench) os_sendmsg :=
  {| sent_bytes k := sent_bytes (bn_out k); sent_rights k := sent_rights (bn_out k);
     interruptions k := interruptions (bn_out k) |}.
Proof.
  intros k d c fds Hc. pose proof (send_law (bn_out k) d c fds Hc) as H. simpl.
  by destruct (Pipe.sendmsg (bn_out k) d c) as [p r].
Defined.

Lemma bench_undisturbed (k k' : Bench) : bn_in k' = bn_in k → undisturbed k k'.
Proof.
  intros He fs r [H1 H2 H3 H4 H5 H6 H7 H8]. split; try done; cbn [unread rights bench_stream] in *;
    rewrite ?He; done.
Qed.

#[global, refine] Instance bench_laws : ServerOsLaws Bench :=
  {| osl_stream := bench_stream; osl_send := bench_send |}.
Proof.
  - intros k n c. simpl. by destruct (SegmentQueue.recvmsg _ _ _).
  - intros k d c. apply bench_undisturbed. simpl. by destruct (Pipe.sendmsg _ _ _).
  - intros k. split; [by apply bench_undisturbed|done].
  - intros k. split; [apply bench_undisturbed|]; simpl; by destruct (bn_clients k).
  - intros k. split; [by apply bench_undisturbed|done].
  - intros k s o. split; [by apply bench_undisturbed|done].
  - intros k i. split; [split; [by apply bench_undisturbed|done]|]. by intros fd [= <-].
  - intros k f z. split; [by apply bench_undisturbed|done].
  - intros k. split; [split; [by apply bench_undisturbed|done]|]. by intros fd [= <-].
Defined.

(** A client that says hello, creates a ClientNode and syncs. *)
Definition payload (r : StdRes (list byte)) : list byte := match r with Ok p => p | _ => [] end.
Definition frame (id op : Z) (p : list byte) : SentFrame := mkSent (mkHeader id op (len p) 0 0) p [].
Definition create_payload : list byte :=
  payload (encode_struct_payload (push_string FACTORY_NAME ▷ push_string CLIENT_NODE_INTERFACE ▷ push_int 6 ▷
    push_struct (push_string_pair_list []) ▷ push_int 3)).
Definition frames : list SentFrame :=
  [ frame 0 1 (payload (encode_core_hello_payload 4));
    frame 0 6 create_payload;
    frame 0 2 (payload (encode_core_sync_payload 0 7)) ].

Definition queue_of (bs : list byte) : SegmentQueue.Queue :=
  match bs with [] => [] | b :: bs => [(b, take 9 bs, [])] ++
    match drop 9 bs with [] => [] | c :: cs => [(c, cs, [])] end end.
Definition os : Bench :=
  mkBench (queue_of (concat (frame_bytes <$> frames))) (Pipe.mkPipe [] [] [30; 0; 100; 100; 100; 100; 100; 100]) 2.

Definition steps : list ScriptStep :=
  [ mkStep ExCoreHello [SendCoreInfo (mkCoreInfoAction 9 (bytes_of "u") (bytes_of "h") (bytes_of "1")
      (bytes_of "pipewire-0") [])];
    mkStep ExClientNodeCreate [SendCoreAddMem (mkCoreAddMemAction 1 2 0 0 4096);
      SendClientNodeCommand Start];
    mkStep ExCoreSync [SendCoreDoneFromLastSync] ].
Definition outcome : Server Bench * StdRes RunReport := run 60 None steps os.

Definition report : RunReport := mkReport 3 1 1 (Some (mkSync 0 7)) None [1] 1.

Lemma outcome_ok : outcome.2 = Ok report.
Proof. by vm_compute. Qed.

Lemma frames_unread : stream_inv os_recvmsg frames (FrameReceiver_new FrameLimits_default) os.
Proof.
  apply (stream_start os_recvmsg FrameLimits_default frames os [] []).
  - apply default_limits_ok.
  - repeat constructor; by vm_compute.
  - by vm_compute.
  - by vm_compute.
  - by vm_compute.
  - by vm_compute.
  - constructor.
  - assert (rights os = []) as -> by by vm_compute. constructor.
Qed.
End Bench.

(** ** Properties *)

Lemma idle_new : idle (FrameSender_new FrameLimits_default).
Proof. split_and!; [apply new_send_inv|constructor|done|done|done]. Qed.

(** C12: A run of the server that returns is the conversation its script
    describes. Let the client's bytes spell the frames [fs], in whatever
    pieces they arrive. If the run returns a report, a prefix of [fs] plays
    the script: the frames decode, under the routes of the objects created
    so far, to what the steps expect, and [ms] are the events of their
    actions. What was written to the connection is exactly the frames of
    [ms] with their descriptors, in order, whatever the socket took at a
    time; and the report states the resulting state, with one completed step
    per frame. *)
Theorem script_conversation {K} `{!ServerOs K} `{!ServerOsLaws K} (fuel : nat) (single : option bool)
    (steps : list ScriptStep) (fs : list SentFrame) (k : K) (s' : Server K) (report : RunReport) :
  stream_inv os_recvmsg fs (FrameReceiver_new FrameLimits_default) k →
  (length steps ≤ length fs)%nat →
  run fuel single steps k = (s', Ok report) →
  ∃ used rest ms st, fs = used ++ rest ∧ plays exec_new steps used ms st ∧
    wrote_messages k (sv_os s') ms ∧
    report = mkReport (len used) (accepted_clients st) (rr_rejected_clients report) (last_sync st)
      (last_registry_proxy_id st) (exported_mem_ids st) (Z.of_nat (base.size (object_routes st))).
Proof.
  intros Hs Hn H. unfold run in H.
  apply sm_bind_Ok in H as (s1 & [] & H1 & H). apply sm_bind_Ok in H as (s2 & [] & H2%sm_map_err_Ok & H).
  apply sm_bind_Ok in H as (s3 & [] & H3%sm_map_err_Ok & H). apply sm_bind_Ok in H as (s4 & [] & H4 & H).
  apply sm_bind_Ok in H as (s5 & st & [= <- <-] & [-> ->]%sm_ret_Ok).
  pose proof (silent_Ok _ _ _ _ (os_call_silent _ osl_listen) H1) as S1.
  pose proof (same_trans _ _ _ S1 (silent_Ok _ _ _ _ (wait_until_silent _ _ _) H2)) as S2.
  destruct (same_trans _ _ _ S2 (silent_Ok _ _ _ _ (os_call_silent _ osl_accept) H3)) as (Hsn & Hst & [Hr Hu Hw]).
  cbn [sv_sender sv_state sv_receiver sv_os] in *.
  destruct (run_steps_Ok fuel (default true single) steps fs s3 s4) as (used & rest & ms & -> & Hp & Hw');
    [rewrite Hr; by apply Hu|rewrite Hsn; apply idle_new|done|done|].
  rewrite Hst in Hp. exists used, rest, ms, (uncounted (sv_state s4)).
  split_and!; [done|done|by eapply (wrote_trans _ _ _ [] ms)|].
  pose proof (plays_completed _ _ _ _ _ Hp : completed_steps (sv_state s4) = 0 + len used) as Hc.
  rewrite Z.add_0_l in Hc. by rewrite <- Hc.
Qed.

Lemma script_conversation_witness :
  ∃ used rest ms st, Bench.frames = used ++ rest ∧ plays exec_new Bench.steps used ms st ∧
    wrote_messages Bench.os (sv_os Bench.outcome.1) ms ∧
    Bench.report = mkReport (len used) (accepted_clients st) (rr_rejected_clients Bench.report) (last_sync st)
      (last_registry_proxy_id st) (exported_mem_ids st) (Z.of_nat (base.size (object_routes st))).
Proof.
  assert (length Bench.steps ≤ length Bench.frames)%nat as Hn by (simpl; lia).
  assert (run 60 None Bench.steps Bench.os = (Bench.outcome.1, Ok Bench.report)) as Hr
    by (rewrite <- Bench.outcome_ok; apply surjective_pairing).
  exact (script_conversation 60 None Bench.steps Bench.frames Bench.os Bench.outcome.1 Bench.report
    Bench.frames_unread Hn Hr).
Defined.
