(* ===== verification/ServerInterop.v ===== *)
(** * Server and client library together

    Composes the server's actions with the client's demarshalling: what each
    scripted event is to the listeners of the object it is sent to. *)

From S2P Require Import Prelude Utf8 PodTypes PodCodec PodParser PodBuilder FrameHeader.
From S2P Require Import ClientNode ClientNodeEvents InboundMessage Properties Demarshal CoreClient.
From S2P Require Import ServerMessages ServerEvents ServerScript ServerRuntime ServerRuntimeProps.

Definition action_interface (a : Action) : Interface :=
  match a with
  | SendClientNodeCommand _ | SendClientNodeTransport _ _ _ | SendClientNodePortSetParam _
  | SendClientNodePortUseBuffers _ | SendClientNodePortSetIo _ | SendClientNodeSetActivation _ _ => IClientNode
  | SendRegistryGlobalOnLastRegistry _ | SendRegistryGlobalRemoveOnLastRegistry _ => IRegistry
  | _ => ICore
  end.

(** The ClientNode event of an action, with the descriptors of its frame. *)
Definition node_event_of (a : Action) (fds : list Z) : option SentEvent :=
  match a, fds with
  | SendClientNodeCommand c, _ => Some (SendCommand c)
  | SendClientNodeTransport t c act, [fd0; fd1] => Some (SendTransport t c fd0 fd1 act)
  | SendClientNodePortSetParam v, _ => Some (SendSetParam v)
  | SendClientNodePortUseBuffers v, _ => Some (SendUseBuffers v)
  | SendClientNodePortSetIo v, _ => Some (SendSetIo v)
  | SendClientNodeSetActivation n act, _ => Some (SendSetActivation n (default 0 (head fds)) act)
  | _, _ => None
  end.

(** The values are of their types, and ClientNode events of valid contents. *)
Definition action_typed (st : ExecutionState) (a : Action) (fds : list Z) : Prop :=
  match a with
  | SendCoreInfo i =>
      u32_range (ci_cookie i) ∧ text (ci_user_name i) ∧ text (ci_host_name i) ∧ text (ci_version i) ∧
      text (ci_name i) ∧ props_typed (ci_props i)
  | SendCoreDoneFromLastSync =>
      match last_sync st with Some s => u32_range (sync_id s) ∧ u32_range (sync_seq s) | None => True end
  | SendCoreDone id seq => u32_range id ∧ u32_range seq
  | SendCoreError e => u32_range (ce_id e) ∧ u32_range (ce_seq e) ∧ i32_range (ce_res e) ∧ text (ce_message e)
  | SendCoreAddMem m =>
      u32_range (ca_id m) ∧ u32_range (ca_memory_type m) ∧ i32_range (ca_fd_index m) ∧ u32_range (ca_flags m)
  | SendCoreRemoveMem id | SendRegistryGlobalRemoveOnLastRegistry id => u32_range id
  | SendRegistryGlobalOnLastRegistry g =>
      u32_range (rg_id g) ∧ u32_range (rg_permissions g) ∧ text (rg_type g) ∧ u32_range (rg_version g) ∧
      props_typed (rg_props g)
  | _ => match node_event_of a fds with Some e => sent_valid e | None => True end
  end.

(** What the client makes of it: descriptors left, notifications, result. *)
Definition announced (st : ExecutionState) (a : Action) (fds : list Z) : Handled :=
  let tell n : Handled := (Some <$> fds, [n], Ok tt) in
  let silence : Handled := (Some <$> fds, [], Ok tt) in
  match a with
  | SendCoreInfo i =>
      tell (NCoreInfo (mkProxyCoreInfo 0 (ci_cookie i) (ci_user_name i) (ci_host_name i) (ci_version i)
        (ci_name i) 1 (Some (new_vec (ci_props i)))))
  | SendCoreDoneFromLastSync =>
      match last_sync st with Some s => tell (NCoreDone (sync_id s) (sync_seq s)) | None => silence end
  | SendCoreDone id seq => tell (NCoreDone id seq)
  | SendCoreError e => tell (NCoreError (ce_id e) (ce_seq e) (as_u32 (ce_res e)) (ce_message e))
  | SendCoreAddMem m =>
      match fds with
      | [fd] =>
          if bool_decide (ca_fd_index m = 0)
          then ([None], [NImportMemory (ca_id m) (ca_memory_type m) fd (ca_flags m)], Ok tt)
          else ([Some fd], [], Err (Custom KInvalidData))
      | _ => silence
      end
  | SendCoreRemoveMem id => tell (NRemoveMemory id)
  | SendRegistryGlobalOnLastRegistry g =>
      tell (NRegistryGlobal (rg_id g) (from_bits_truncate PermissionBits_all (rg_permissions g)) (rg_type g)
        (rg_version g) (new_vec (rg_props g)))
  | SendRegistryGlobalRemoveOnLastRegistry id => tell (NRegistryGlobalRemove id)
  | _ =>
      match node_event_of a fds with
      | Some e => (replicate (length fds) None, [NClientNode (sent_event e)], Ok tt)
      | None => silence
      end
  end.

(** The frame of an AddMem has one descriptor: only index 0 names it. *)
Lemma add_mem_announced id ty index flags fd :
  i32_range index →
  add_mem_handled id ty index flags [Some fd]
  = (if bool_decide (index = 0) then ([None], [NImportMemory id ty fd flags], Ok tt)
     else ([Some fd], [], Err (Custom KInvalidData))).
Proof.
  intros Hi. unfold add_mem_handled, add_mem_fd_index, inbound_take_fd, FrameFds_take.
  destruct (decide (0 ≤ index < 2 ^ 32)) as [H0|H0].
  - rewrite (bool_decide_eq_true_2 (0 ≤ index < 2 ^ 32)) by done. case_bool_decide as H1; [by subst|].
    destruct (Z.to_nat index) as [|n] eqn:Hn; [lia|done].
  - rewrite (bool_decide_eq_false_2 (0 ≤ index < 2 ^ 32)), bool_decide_eq_false_2 by lia. done.
Qed.

Lemma node_event_fds a fds e :
  node_event_of a fds = Some e → length fds = action_fds a → sent_fds e = Some <$> fds.
Proof.
  destruct a as [| | | | | | |t c act| | | |n [act|]| | |]; simpl; intros He Hn; try done.
  all: try (by injection He as <-; apply nil_length_inv in Hn as ->).
  - destruct fds as [|f0 [|f1 [|]]]; try done. by injection He as <-.
  - destruct fds as [|f [|]]; try done. by injection He as <-.
Qed.

Lemma node_event_payload st a fds e :
  node_event_of a fds = Some e →
  action_event st a = Some (p ← map_err wire_error (sent_encode e); id ← require_client_node_id st;
    Ok (id, sent_opcode e, p)).
Proof.
  destruct a as [| | | | | | |t c act| | | |n act| | |]; cbn [node_event_of]; intros He; try done;
    try (injection He as <-; reflexivity).
  destruct fds as [|f0 [|f1 [|]]]; try done. injection He as <-. reflexivity.
Qed.

(** A ClientNode event that was sent, and heard. *)
Lemma node_event_heard st a e id op payload fds :
  node_event_of a fds = Some e → length fds = action_fds a → sent_valid e →
  action_event st a = Some (Ok (id, op, payload)) →
  demarshal IClientNode op payload (Some <$> fds)
  = (None, (replicate (length fds) None, [NClientNode (sent_event e)], Ok tt)).
Proof.
  intros He Hn Hv Ha. destruct (sent_event_decodes e Hv) as (p & Hp & Hd).
  rewrite (node_event_payload _ _ _ _ He), Hp in Ha. cbn [map_err] in Ha. revert Ha. res_cbn.
  destruct (require_client_node_id st); [|done..]. intros [= _ <- <-].
  rewrite (node_event_fds _ _ _ He Hn) in Hd. rewrite length_fmap in Hd. by apply client_node_demarshals.
Qed.

Lemma core_event_Ok (op : Z) (r : StdRes (list byte)) (id op' : Z) (payload : list byte) :
  Some (p ← r; Ok (CORE_ID, op, p)) = Some (Ok (id, op', payload) : StdRes (Z * Z * list byte)) →
  op' = op ∧ r = Ok payload.
Proof. destruct r; simpl; by intros [= _ -> ->]. Qed.

Lemma registry_event_Ok (o : option Z) (op : Z) (r : StdRes (list byte)) (id op' : Z) (payload : list byte) :
  Some (i ← ok_or o (Custom KInvalidData); p ← r; Ok (i, op, p))
    = Some (Ok (id, op', payload) : StdRes (Z * Z * list byte)) →
  op' = op ∧ r = Ok payload.
Proof. destruct o; [|done]. destruct r; simpl; by intros [= _ -> ->]. Qed.

Ltac heard_node Hn Ht He :=
  lazymatch type of He with
  | action_event ?st ?a = _ =>
      lazymatch type of Hn with length ?l = _ => exact (node_event_heard st a _ _ _ _ l eq_refl Hn Ht He) end
  end.

(** ** Properties *)

(** C20: The client library understands the scripted server. When an action
    of a script has an event to send, with values of their types and, for a
    ClientNode event, contents the decoder admits ([sent_valid]), the payload
    demarshals at the client, on the object's interface and with the frame's
    descriptors, to exactly one notification: that of the action, with its
    values (permissions cut to the known bits) and every ClientNode event with
    its descriptors in their roles. AddMem is the one exception: its frame has
    one descriptor, so with index 0 the memory is imported from it, and with
    any other index the client is told nothing, keeps the descriptor in the
    frame and gets an invalid-data error. *)
Theorem actions_heard (st : ExecutionState) (a : Action) (id op : Z) (payload : list byte) (fds : list Z) :
  action_event st a = Some (Ok (id, op, payload)) → length fds = action_fds a → action_typed st a fds →
  demarshal (action_interface a) op payload (Some <$> fds) = (None, announced st a fds).
Proof.
  intros He Hn Ht.
  destruct a as [i| |i seq|e|m|i|c|t c act|v|v|v|n act|g|i|]; cbn [action_typed action_interface announced] in *;
    try (cbn [action_event] in He; apply core_event_Ok in He as [-> He]).
  - destruct Ht as (? & ? & ? & ? & ? & ?). by apply info_demarshals.
  - cbn [action_event] in He. destruct (last_sync st) as [sync|]; [|done]. destruct Ht.
    cbn [ok_or] in He. apply core_event_Ok in He as [-> He]. by apply done_demarshals.
  - destruct Ht. by apply done_demarshals.
  - destruct Ht as (? & ? & ? & ?). by apply error_demarshals.
  - destruct Ht as (? & ? & ? & ?). destruct fds as [|fd [|]]; [discriminate Hn| |discriminate Hn].
    change (Some <$> [fd]) with [Some fd].
    rewrite <- add_mem_announced by assumption. apply add_mem_demarshals; assumption.
  - by apply remove_mem_demarshals.
  - heard_node Hn Ht He.
  - destruct fds as [|f0 [|f1 [|]]]; try done. heard_node Hn Ht He.
  - heard_node Hn Ht He.
  - heard_node Hn Ht He.
  - heard_node Hn Ht He.
  - heard_node Hn Ht He.
  - cbn [action_event] in He. apply registry_event_Ok in He as [-> He]. destruct Ht as (? & ? & ? & ? & ?).
    by apply global_demarshals.
  - cbn [action_event] in He. apply registry_event_Ok in He as [-> He]. by apply global_remove_demarshals.
  - done.
Qed.

Lemma actions_heard_witness :
  let st := mkExec (Some (mkSync 0 7)) (Some 2) 0 1 0 [] {[3 := mkRoute CLIENT_NODE_INTERFACE 6]} in
  let a := SendClientNodeTransport 1 0 (mkRegion 5 0 4096) in
  let g := SendRegistryGlobalOnLastRegistry (mkRegistryGlobalAction 33 0x1c8 (bytes_of "PipeWire:Interface:Node") 3
    [(bytes_of "node.name", bytes_of "sine")]) in
  (∃ id op payload, action_event st a = Some (Ok (id, op, payload)) ∧
    demarshal IClientNode op payload [Some 30; Some 31]
    = (None, ([None; None], [NClientNode (ETransport (mkTransport 31 30 (mkRegion 5 0 4096)))], Ok tt))) ∧
  (∃ id op payload, action_event st g = Some (Ok (id, op, payload)) ∧
    demarshal IRegistry op payload []
    = (None, ([], [NRegistryGlobal 33 0x1c8 (bytes_of "PipeWire:Interface:Node") 3
        (new_vec [(bytes_of "node.name", bytes_of "sine")])], Ok tt))).
Proof.
  intros st a g. split.
  - destruct (action_event st a) as [[[[id op] payload]| |]|] eqn:He; [|by vm_compute in He..].
    exists id, op, payload. split; [done|].
    apply (actions_heard st a id op payload [30; 31] He eq_refl). clear. by vm_compute.
  - destruct (action_event st g) as [[[[id op] payload]| |]|] eqn:He; [|by vm_compute in He..].
    exists id, op, payload. split; [done|].
    refine (eq_trans (actions_heard st g id op payload [] He eq_refl _) _); [|reflexivity].
    clear. split; [by vm_compute|]. split; [by vm_compute|]. split; [by vm_compute|]. split; [by vm_compute|].
    split; [repeat constructor; by vm_compute|by vm_compute].
Defined.
