(* ===== verification/ServerTermination.v ===== *)
(** * The server returns

    The client the server accepted cannot hold a run beyond its deadline:
    every loop that serves it either makes progress or polls, and polling
    ends at the deadline. Fuel that covers what the operating system can
    still deliver is enough, and nothing the client sends makes the server
    panic. Others can: [reject_pending_clients] does not look at the
    deadline, so in single-client mode connections that never stop hold the
    run for good ([connections_hold_the_run]). *)

From S2P Require Import Prelude PodTypes PodCodec PodParser PodBuilder FrameHeader FrameControl.
From S2P Require Import FrameRecv FrameRecvLaws FrameStream FrameSend FrameFuel FrameChannel.
From S2P Require Import ClientNode InboundMessage Demarshal CoreClient.
From S2P Require Import ServerMessages ServerMessagesLaws ServerScript ServerRuntime ServerRuntimeProps.

(** ** What runs out *)
Class Finite (K : Type) `{!ServerOs K} := {
  fin_recv :: SocketLaws os_recvmsg;
  fin_send :: SendSocket os_sendmsg;
  (** polls until the deadline has passed *)
  patience : K → nat;
  (** connection attempts still to come, where they are finitely many *)
  backlog : K → nat;
}.

Definition winding {K} `{!ServerOs K} `{!Finite K} (k k' : K) : Prop :=
  (patience k' ≤ patience k)%nat ∧ (backlog k' ≤ backlog k)%nat ∧ (signals k' ≤ signals k)%nat ∧
  (interruptions k' ≤ interruptions k)%nat.

Class FiniteLaws (K : Type) `{!ServerOs K} `{!Finite K} := {
  fl_listen k : winding k (os_listen k).1;
  fl_accept k : winding k (os_accept k).1 ∧ (os_accept k).2 ≠ Panic;
  fl_expired k : winding k (os_expired k).1;
  (** the clock moves while polling, and the deadline is not far off forever *)
  fl_patient k : (os_expired k).2 = false → (0 < patience (os_expired k).1)%nat;
  fl_poll k sock out :
    winding k (os_poll k sock out).1 ∧
    ((0 < patience k)%nat → (patience (os_poll k sock out).1 < patience k)%nat);
  fl_recvmsg k n c : winding k (os_recvmsg k n c).1;
  fl_sendmsg k data control : winding k (os_sendmsg k data control).1;
  fl_memfd k id : winding k (os_memfd_create k id).1 ∧
    match (os_memfd_create k id).2 with Ok fd => 0 ≤ fd < 2 ^ 31 | Err _ => True | Panic => False end;
  fl_ftruncate k fd size : winding k (os_ftruncate k fd size).1 ∧ (os_ftruncate k fd size).2 ≠ Panic;
  fl_eventfd k : winding k (os_eventfd k).1 ∧
    match (os_eventfd k).2 with Ok fd => 0 ≤ fd < 2 ^ 31 | Err _ => True | Panic => False end;
  fl_listens k : (os_listen k).2 ≠ Panic;
}.

(** Connections come to an end: every one that is accepted is one less. This
    is no promise of the operating system; only single-client mode needs it. *)
Definition connections_end (K : Type) `{!ServerOs K} `{!Finite K} : Prop :=
  ∀ k, match (os_accept k).2 with Ok _ => (backlog (os_accept k).1 < backlog k)%nat | _ => True end.

(** Enough fuel for every loop from here on: the polls, connections and
    signals to come, and the bytes that fit into the two buffers. *)
Definition budget {K} `{!ServerOs K} `{!Finite K} (k : K) : nat :=
  patience k + backlog k + signals k + interruptions k + Z.to_nat (max_buffer FrameLimits_default) +
  Z.to_nat (max_queued_bytes FrameLimits_default).

Section returns.
Context {K : Type} `{!ServerOs K} `{!Finite K} `{!FiniteLaws K} (fuel : nat).

Lemma winding_refl (k : K) : winding k k.
Proof. unfold winding. lia. Qed.
Lemma winding_trans (k1 k2 k3 : K) : winding k1 k2 → winding k2 k3 → winding k1 k3.
Proof. unfold winding. lia. Qed.

(** The header of the frame being received is within the wire's limit. *)
Definition small_frame (r : FrameReceiver) : Prop :=
  match state r with StPayload h _ _ => payload_len h ≤ WIRE_MAX_PAYLOAD | _ => True end.

Record healthy (s : Server K) : Prop := {
  hl_receiver : recv_inv (sv_receiver s);
  hl_sender : send_inv (sv_sender s);
  hl_fds : queue_fds_ok (sv_sender s);
  hl_limits : s_limits (sv_sender s) = FrameLimits_default;
  hl_room : limits (sv_receiver s) = FrameLimits_default;
  hl_fuel : (budget (sv_os s) < fuel)%nat;
}.

(** [m] returns from [s], in a healthy state with [Q] unless it fails. *)
Definition runs_to {A} (m : SM K A) (s : Server K) (Q : A → Server K → Prop) : Prop :=
  match m s with (s', Ok a) => healthy s' ∧ Q a s' | (_, Err _) => True | (_, Panic) => False end.

Lemma runs_bind {A B} (m : SM K A) (f : A → SM K B) s Q R :
  runs_to m s Q → (∀ a s', healthy s' → Q a s' → runs_to (f a) s' R) → runs_to (m ≫= f) s R.
Proof.
  unfold runs_to, mbind, sm_bind. intros Hm Hf. destruct (m s) as [s' [a|e|]]; [|done..].
  destruct Hm as [Hs Ha]. by apply Hf.
Qed.

Lemma runs_ret {A} (a : A) s (Q : A → Server K → Prop) : healthy s → Q a s → runs_to (mret a) s Q.
Proof. done. Qed.

Lemma runs_res {A B} (r : StdRes A) (f : A → SM K B) s R :
  r ≠ Panic → (∀ a, r = Ok a → runs_to (f a) s R) → runs_to (sm_res r ≫= f) s R.
Proof. intros Hr Hf. destruct r; [by apply Hf|done|done]. Qed.

Lemma runs_get {B} (f : ExecutionState → SM K B) s R : runs_to (f (sv_state s)) s R → runs_to (get_state ≫= f) s R.
Proof. done. Qed.

Lemma runs_map_err {A} g (m : SM K A) s Q : runs_to m s Q → runs_to (sm_map_err g m) s Q.
Proof. unfold runs_to, sm_map_err. by destruct (m s) as [s' []]. Qed.

Lemma runs_mono {A} (m : SM K A) s (Q R : A → Server K → Prop) :
  (∀ a s', Q a s' → R a s') → runs_to m s Q → runs_to m s R.
Proof. unfold runs_to. intros HQ. destruct (m s) as [s' []]; [|done..]. intros []. split; auto. Qed.

Lemma healthy_os s k :
  healthy s → winding (sv_os s) k → healthy (mkServer k (sv_receiver s) (sv_sender s) (sv_state s)).
Proof. intros [H1 H2 H3 H4 H5 H6] Hw. split; try done. unfold winding, budget in *. cbn [sv_os]. lia. Qed.

(** A call of the operating system. *)
Lemma runs_on_os {A} (f : K → K * StdRes A) s (Q : A → K → Prop) :
  healthy s →
  winding (sv_os s) (f (sv_os s)).1 →
  match (f (sv_os s)).2 with Ok a => Q a (f (sv_os s)).1 | Err _ => True | Panic => False end →
  runs_to (on_os f) s (λ a s', Q a (sv_os s')).
Proof.
  intros Hs Hw HQ. unfold runs_to, on_os. destruct (f (sv_os s)) as [k [a|e|]]; [|done..].
  split; [by apply healthy_os|done].
Qed.

Lemma runs_os_call {A} (f : K → K * Res IoError A) s (Q : A → Prop) :
  healthy s → winding (sv_os s) (f (sv_os s)).1 →
  match (f (sv_os s)).2 with Ok a => Q a | Err _ => True | Panic => False end →
  runs_to (os_call f) s (λ a _, Q a).
Proof.
  intros Hs Hw HQ. apply (runs_on_os _ s (λ a _, Q a)); [done|by destruct (f (sv_os s))|].
  by destruct (f (sv_os s)) as [k []].
Qed.

Lemma wait_loop_returns n sock out (k : K) :
  (patience k < n)%nat →
  winding k (wait_loop n sock out k).1 ∧
  match (wait_loop n sock out k).2 with
  | Ok _ => (patience (wait_loop n sock out k).1 < patience k)%nat | Err _ => True | Panic => False
  end.
Proof.
  revert k. induction n as [|n IH]; intros k Hn; [lia|]. cbn [wait_loop].
  pose proof (fl_expired k) as He. pose proof (fl_patient k) as H0.
  destruct (os_expired k) as [k1 []]; [done|]. simpl in He, H0. specialize (H0 eq_refl).
  pose proof (fl_poll k1 sock out) as [Hp Hlt]. specialize (Hlt H0).
  assert (winding k (os_poll k1 sock out).1) as Hw by (by eapply winding_trans).
  assert (patience k1 ≤ patience k)%nat as Hk by apply He.
  destruct (os_poll k1 sock out) as [k2 [| |[]]]; simpl in *; try (split; [done|lia||done]).
  all: destruct (IH k2 ltac:(lia)) as [Hw2 H2]; split; [by eapply winding_trans|];
    destruct (wait_loop n sock out k2) as [k3 []]; simpl in *; [lia|done..].
Qed.

Lemma wait_until_returns sock out s :
  healthy s → runs_to (wait_until fuel sock out) s (λ _ s', (patience (sv_os s') < patience (sv_os s))%nat).
Proof.
  intros Hs. destruct (wait_loop_returns fuel sock out (sv_os s)) as [Hw Hr].
  { destruct Hs as [_ _ _ _ _ Hf]. unfold budget in Hf. lia. }
  by apply (runs_on_os _ s (λ _ k, (patience k < patience (sv_os s))%nat)).
Qed.

(** ** Sending *)
Lemma send_loop_winding n (k : K) data fds : winding k (send_loop os_sendmsg n k data fds).1.
Proof.
  revert k. induction n as [|n IH]; intros k; [apply winding_refl|]. cbn [send_loop]. unfold send_once.
  destruct (build_control fds) as [control|e|]; [|apply winding_refl..].
  pose proof (fl_sendmsg k data control) as Hs. destruct (os_sendmsg k data control) as [k' [[]|sent]];
    simpl in *; try done. eapply winding_trans; [exact Hs|apply IH].
Qed.

Lemma flush_winding n (k : K) s : winding k (flush os_sendmsg n k s).1.1.
Proof.
  unfold flush. destruct (failed s); [apply winding_refl|]. revert k s.
  induction n as [|n IH]; intros k s; cbn [flush_loop]; [apply winding_refl|].
  destruct (queue s) as [|f rest]; [apply winding_refl|].
  destruct (slice_from _ _) as [data| |]; [|apply winding_refl..].
  match goal with |- context [send_loop _ _ _ _ ?o] =>
    pose proof (send_loop_winding (S n) k data o) as Hs; destruct (send_loop _ _ _ _ o) as [k' [sent|[]|]] end;
    simpl in Hs; try done.
  case_bool_decide; [done|]. destruct (advance _ _ _ _ _) as [s'| |]; try done.
  eapply winding_trans; [exact Hs|apply IH].
Qed.

Lemma flush_once_returns s :
  healthy s → runs_to (flush_once fuel) s (λ _ s', winding (sv_os s) (sv_os s')).
Proof.
  intros Hs. pose proof Hs as [Hr Hsi Hq Hl Hrm Hf]. unfold runs_to, flush_once.
  pose proof (flush_winding fuel (sv_os s) (sv_sender s)) as Hw.
  pose proof (flush_limits os_sendmsg fuel (sv_os s) (sv_sender s)) as Hlim.
  assert ((flush os_sendmsg fuel (sv_os s) (sv_sender s)).2 ≠ Panic) as Hp.
  { apply (flush_total os_sendmsg); [done|done|]. destruct Hsi as (_ & _ & _ & Hb & _ & Hmax & _).
    rewrite Hl in Hmax. unfold budget in Hf. unfold len in Hb. lia. }
  pose proof (flush_ends os_sendmsg fuel (sv_os s) (sv_sender s) Hsi Hq Hp) as He.
  destruct (flush os_sendmsg fuel (sv_os s) (sv_sender s)) as [[k sn] [o|e|]]; simpl in *; [|done..].
  destruct He as (? & ? & _). split; [|done]. split; cbn [sv_receiver sv_sender sv_os]; try done; [congruence|].
  unfold winding, budget in *. lia.
Qed.

Lemma flush_all_returns n s :
  healthy s → (patience (sv_os s) < n)%nat → runs_to (flush_all fuel n) s (λ _ _, True).
Proof.
  revert s. induction n as [|n IH]; intros s Hs Hn; [lia|]. cbn [flush_all].
  eapply runs_bind; [by apply flush_once_returns|]. intros [] s1 Hs1 (Hw & _); [by apply runs_ret|].
  eapply runs_bind; [by apply wait_until_returns|]. intros [] s2 Hs2 Hlt. apply IH; [done|lia].
Qed.

Lemma send_event_returns id op payload fds s :
  healthy s → (length fds ≤ 2)%nat → Forall (λ fd, 0 ≤ fd < 2 ^ 31) fds →
  runs_to (send_event_with_fds fuel id op payload fds) s (λ _ _, True).
Proof.
  intros Hs Hn Hfds. unfold send_event_with_fds.
  apply runs_res.
  { unfold OutboundFrame_new. do 2 (destruct (bool_decide _); [done|]). cbv zeta. unfold Header_encode.
    destruct (bool_decide _); done. }
  intros f Hf%map_err_Ok. destruct (OutboundFrame_new_inv _ _ _ _ _ _ _ _ Hf eq_refl) as (_ & Hout & _).
  { by apply fds_ok_small. }
  eapply (runs_bind _ _ _ (λ _ _, True)).
  - destruct Hs as [Hr Hsi Hq Hl Hrm Hfu]. pose proof (enqueue_spec (sv_sender s) f Hsi Hq Hout) as He.
    unfold runs_to, enqueue_frame. destruct (enqueue (sv_sender s) f) as [sn [u|e|]]; [|done..].
    destruct He as (? & ? & _ & ? & _). split; [|done]. split; cbn [sv_receiver sv_sender sv_os]; try done. congruence.
  - intros u s1 Hs1 _. apply flush_all_returns; [done|]. destruct Hs1 as [_ _ _ _ _ Hfu]. unfold budget in Hfu. lia.
Qed.

(** ** Descriptors *)
Lemma create_eventfd_returns s : healthy s → runs_to create_eventfd s (λ fd _, 0 ≤ fd < 2 ^ 31).
Proof. intros Hs. destruct (fl_eventfd (sv_os s)) as [Hw Hr]. by apply (runs_os_call _ s (λ fd, 0 ≤ fd < 2 ^ 31)). Qed.

Lemma create_memfd_returns id size s :
  healthy s → runs_to (create_memfd_for_add_mem id size) s (λ fd _, 0 ≤ fd < 2 ^ 31).
Proof.
  intros Hs. unfold create_memfd_for_add_mem. destruct (bool_decide (size = 0)); [done|].
  eapply runs_bind.
  { destruct (fl_memfd (sv_os s) id) as [Hw Hr]. by apply (runs_os_call _ s (λ fd, 0 ≤ fd < 2 ^ 31)). }
  intros fd s1 Hs1 Hfd. eapply (runs_bind _ _ _ (λ _ _, True)); [|by intros; apply runs_ret].
  destruct (fl_ftruncate (sv_os s1) fd (as_i64 size)) as [Hw Hr]. apply (runs_os_call _ s1 (λ _, True)); [done|done|].
  by destruct (os_ftruncate _ _ _) as [k []].
Qed.

(** ** Actions *)
Lemma valid_one fd : 0 ≤ fd < 2 ^ 31 → Forall (λ fd, 0 ≤ fd < 2 ^ 31) [fd].
Proof. intros Hf. by constructor. Qed.
Lemma valid_two fd fd' :
  0 ≤ fd < 2 ^ 31 → 0 ≤ fd' < 2 ^ 31 → Forall (λ fd, 0 ≤ fd < 2 ^ 31) [fd; fd'].
Proof. intros Hf Hf'. constructor; [done|by apply valid_one]. Qed.

Lemma send_plain_returns id op payload s :
  healthy s → runs_to (_ ← send_event fuel id op payload; mret true) s (λ _ _, True).
Proof.
  intros Hs. eapply runs_bind; [apply (send_event_returns id op payload []); [done|simpl; lia|constructor]|].
  intros; by apply runs_ret.
Qed.

Lemma send_fds_returns id op payload fds s :
  healthy s → (length fds ≤ 2)%nat → Forall (λ fd, 0 ≤ fd < 2 ^ 31) fds →
  runs_to (_ ← send_event_with_fds fuel id op payload fds; mret true) s (λ _ _, True).
Proof.
  intros Hs Hn Hf. eapply runs_bind; [by apply send_event_returns|]. intros; by apply runs_ret.
Qed.

(** A ClientNode event: the payload is encoded, then the node is looked up. *)
Lemma send_node_returns op payload s :
  healthy s → runs_to (_ ← send_client_node_event fuel op payload; mret true) s (λ _ _, True).
Proof.
  intros Hs. unfold send_client_node_event. eapply (runs_bind _ _ _ (λ _ _, True)).
  - apply runs_get, runs_res.
    { unfold require_client_node_id. by destruct (last_client_node_id _). }
    intros id _. apply (send_event_returns id op payload []); [done|simpl; lia|constructor].
  - intros; by apply runs_ret.
Qed.

Lemma not_panic_bind {E A B} (r : Res E A) (f : A → Res E B) : (r ≫= f) ≠ Panic → r ≠ Panic.
Proof. by destruct r. Qed.
Lemma not_panic_some {A} (r : StdRes A) : Some r ≠ Some Panic → r ≠ Panic.
Proof. congruence. Qed.
Lemma not_panic_map {E F A} (g : E → F) (r : Res E A) : map_err g r ≠ Panic → r ≠ Panic.
Proof. by destruct r. Qed.
Lemma ok_or_not_panic {E A} (o : option A) (e : E) : ok_or o e ≠ Panic.
Proof. by destruct o. Qed.

Lemma apply_action_returns a s :
  healthy s → (∀ st, action_event st a ≠ Some Panic) → runs_to (apply_action fuel a) s (λ _ _, True).
Proof.
  intros Hs Hp. assert (action_event (sv_state s) a ≠ Some Panic) as Hps by apply Hp.
  destruct a as [info| |id seq|err|mem|id|cmd|t c act|v|v|v|n act|g|id|]; cbn [apply_action action_event] in *.
  1,3,4,6: apply not_panic_some, not_panic_bind in Hps; apply runs_res; [done|]; intros p _; by apply send_plain_returns.
  - apply runs_get, runs_res; [apply ok_or_not_panic|]. intros sync Hsync%ok_or_Ok. rewrite Hsync in Hps.
    cbn [ok_or] in Hps. apply not_panic_some, not_panic_bind in Hps. apply runs_res; [done|].
    intros p _. by apply send_plain_returns.
  - apply not_panic_some, not_panic_bind in Hps. apply runs_res; [done|]. intros p _.
    eapply runs_bind; [by apply create_memfd_returns|]. intros fd s1 Hs1 Hfd.
    eapply runs_bind; [apply (send_event_returns _ _ _ [fd]); [done|simpl; lia|by apply valid_one]|].
    intros u s2 Hs2 _. eapply (runs_bind _ _ _ (λ _ _, True)); [|intros; by apply runs_ret].
    split; [|done]. by destruct Hs2.
  - apply not_panic_some, not_panic_bind in Hps. apply runs_get, runs_res; [apply ok_or_not_panic|]. intros i _.
    apply runs_res; [done|]. intros p _. by apply send_plain_returns.
  - apply not_panic_some, not_panic_bind in Hps. apply runs_get, runs_res; [apply ok_or_not_panic|]. intros i _.
    apply runs_res; [done|]. intros p _.
    eapply runs_bind; [by apply create_eventfd_returns|]. intros fd s1 Hs1 Hfd.
    eapply runs_bind; [by apply create_eventfd_returns|]. intros fd' s2 Hs2 Hfd'.
    apply send_fds_returns; [done|simpl; lia|by apply valid_two].
  - apply not_panic_some, not_panic_bind in Hps. apply runs_res; [done|]. intros p _. by apply send_node_returns.
  - apply not_panic_some, not_panic_bind in Hps. apply runs_res; [done|]. intros p _. by apply send_node_returns.
  - apply not_panic_some, not_panic_bind in Hps. apply runs_res; [done|]. intros p _. by apply send_node_returns.
  - apply not_panic_some, not_panic_bind in Hps. apply runs_get, runs_res; [apply ok_or_not_panic|]. intros i _.
    apply runs_res; [done|]. intros p _. destruct act as [act|].
    + eapply (runs_bind _ _ _ (λ fds _, (length fds ≤ 2)%nat ∧ Forall (λ fd, 0 ≤ fd < 2 ^ 31) fds)).
      * eapply runs_bind; [by apply create_eventfd_returns|]. intros fd s1 Hs1 Hfd. apply runs_ret; [done|].
        split; [simpl; lia|by apply valid_one].
      * intros fds s1 Hs1 [Hn Hf]. by apply send_fds_returns.
    + apply (runs_bind _ _ _ (λ fds _, fds = [])); [done|]. intros ? s1 Hs1 ->.
      apply send_fds_returns; [done|simpl; lia|constructor].
  - apply runs_get, runs_res; [apply ok_or_not_panic|]. intros i Hi%ok_or_Ok. rewrite Hi in Hps.
    cbn [ok_or] in Hps. apply not_panic_some in Hps. cbn [mbind res_bind] in Hps. apply not_panic_bind in Hps. apply runs_res; [done|].
    intros p _. by apply send_plain_returns.
  - apply runs_get, runs_res; [apply ok_or_not_panic|]. intros i Hi%ok_or_Ok. rewrite Hi in Hps.
    cbn [ok_or] in Hps. apply not_panic_some in Hps. cbn [mbind res_bind] in Hps. apply not_panic_bind in Hps. apply runs_res; [done|].
    intros p _. by apply send_plain_returns.
  - by apply runs_ret.
Qed.

Lemma apply_actions_returns actions s :
  healthy s → Forall (λ a, ∀ st, action_event st a ≠ Some Panic) actions →
  runs_to (apply_actions fuel actions) s (λ _ _, True).
Proof.
  intros Hs Ha. revert s Hs. induction Ha as [|a actions Hp _ IH]; intros s Hs; cbn [apply_actions]; [by apply runs_ret|].
  eapply runs_bind; [by apply runs_map_err, apply_action_returns|].
  intros [] s1 Hs1 _; [by apply IH|by apply runs_ret].
Qed.

(** ** Receiving *)
Lemma recvmsg_loop_winding n (k : K) iov ctl : winding k (recvmsg_loop os_recvmsg n k iov ctl).1.
Proof.
  revert k. induction n as [|n IH]; intros k; [apply winding_refl|]. cbn [recvmsg_loop].
  pose proof (fl_recvmsg k iov ctl) as Hr. destruct (os_recvmsg k iov ctl) as [k' [[]|]]; simpl in *; try done.
  eapply winding_trans; [exact Hr|apply IH].
Qed.

Lemma recv_once_winding n (k : K) chunk ctl : winding k (recv_once os_recvmsg n k chunk ctl).1.
Proof.
  unfold recv_once. destruct (_ ≫= _) as [buffer| |]; [|apply winding_refl..].
  pose proof (recvmsg_loop_winding n k chunk buffer) as Hr.
  by destruct (recvmsg_loop os_recvmsg n k chunk buffer) as [k' [[[]]| |]].
Qed.

Lemma header_step_small r : small_frame r → small_frame (header_step r).1.
Proof.
  unfold header_step, small_frame. destruct (state r) eqn:Hs; intros Hr; cbn [fst]; rewrite ?Hs; try done.
  case_bool_decide; [|cbn [fst]; by rewrite Hs].
  destruct (Header_decode _) as [h|e|]; cbn [fst]; rewrite ?Hs; try done.
  case_bool_decide as Hp; [done|]. case_bool_decide; [done|].
  destruct (checked_add 64 HEADER_LEN _) as [fl|]; cbn [fst]; rewrite ?Hs; try done.
  destruct (checked_add 64 _ fl) as [fe|]; [|done]. cbn. pose proof (payload_limit_le (limits r)). lia.
Qed.

Lemma payload_step_small r r' res :
  small_frame r → payload_step r = (r', res) →
  small_frame r' ∧ ∀ f, res = Some (Ok (Frame f)) → len (f_payload f) ≤ isize_max.
Proof.
  unfold payload_step, small_frame. destruct (state r) eqn:Hs; intros Hr; try (intros [= <- <-]; by rewrite Hs).
  case_bool_decide; [|intros [= <- <-]; by rewrite Hs].
  case_bool_decide; [by intros [= <- <-]|].
  destruct (slice_from (bytes r) HEADER_LEN) as [b1|e|]; res_cbn;
    [|intros [= <- <-]; by rewrite Hs|destruct (drain_fds _ _ _ _) as [? []]; intros [= <- <-]; by rewrite Hs].
  destruct (slice b1 0 (payload_len header)) as [payload|e|] eqn:Hp; res_cbn;
    [|intros [= <- <-]; by rewrite Hs|destruct (drain_fds _ _ _ _) as [? []]; intros [= <- <-]; by rewrite Hs].
  apply slice_len in Hp.
  destruct (slice_from b1 (payload_len header)) as [b2|e|]; res_cbn;
    [|intros [= <- <-]; by rewrite Hs|destruct (drain_fds _ _ _ _) as [? []]; intros [= <- <-]; by rewrite Hs].
  destruct (drain_fds _ _ _ _) as [batches [fds|e|]]; intros [= <- <-]; rewrite ?Hs; try done.
  split; [done|]. intros f [= <-]. cbn [f_payload]. unfold WIRE_MAX_PAYLOAD, isize_max in *. lia.
Qed.

Lemma receive_loop_small n (k k' : K) r r' o :
  small_frame r → receive_loop os_recvmsg n k r = (k', r', Ok o) →
  winding k k' ∧ ∀ f, o = Frame f → len (f_payload f) ≤ isize_max.
Proof.
  revert k r. induction n as [|n IH]; intros k r Hr; cbn [receive_loop]; [done|].
  pose proof (header_step_small r Hr) as Hr1.
  assert (∀ f, (header_step r).2 ≠ Some (Ok (Frame f))) as Hno.
  { intros f. unfold header_step. destruct (state r); try done. case_bool_decide; [|done].
    destruct (Header_decode _); try done. case_bool_decide; [done|]. case_bool_decide; [done|].
    destruct (checked_add 64 HEADER_LEN _) as [fl|]; [|done]. by destruct (checked_add 64 _ fl). }
  destruct (header_step r) as [r1 [res|]].
  { intros [= <- <- ->]. split; [apply winding_refl|]. intros f ->. by destruct (Hno f). }
  destruct (payload_step r1) as [r2 [res|]] eqn:Hp; cbn [fst] in Hr1;
    destruct (payload_step_small _ _ _ Hr1 Hp) as [Hr2 Hf].
  { intros [= <- <- ->]. split; [apply winding_refl|]. intros f ->. by apply Hf. }
  pose proof (recv_once_winding (S n) k (next_chunk_len r2) (recv_control_fds (limits r2))) as Hw.
  destruct (recv_once _ _ _ _ _) as [k1 [[data fds]|e|]]; cbn [fst] in Hw; [| |done].
  - destruct data as [|x data].
    + unfold eof_step. repeat (destruct (bool_decide _); [done|]). by intros [= <- <- <-].
    + unfold append_step. destruct (bool_decide _); [done|]. destruct (checked_add _ _ _); [|done].
      intros H. apply IH in H as [Hw' Hf']; [|exact Hr2]. split; [by eapply winding_trans|done].
  - destruct e as [[]| | | | | | | | | | | | | |]; try done. by intros [= <- <- <-].
Qed.

Lemma small_of_inv r : recv_inv r → small_frame r.
Proof.
  intros [_ Hst]. unfold small_frame. destruct (state r) as [|h ? ?| |]; try done.
  destruct Hst as (_ & _ & _ & _ & _ & _ & (_ & Hl & _)). pose proof (payload_limit_le (limits r)). lia.
Qed.

Lemma receive_once_returns s :
  healthy s →
  runs_to (receive_once fuel) s (λ o s', winding (sv_os s) (sv_os s') ∧
    ∀ f, o = Frame f → len (f_payload f) ≤ isize_max).
Proof.
  intros [Hr Hsi Hq Hl Hrm Hf]. unfold runs_to, receive_once.
  assert ((receive os_recvmsg fuel (sv_os s) (sv_receiver s)).2 ≠ Panic) as Hp.
  { assert (signals (sv_os s) + recv_room (sv_receiver s) < fuel)%nat as Hc.
    { unfold budget in Hf. unfold recv_room. rewrite Hrm. len_facts. lia. }
    unfold receive. destruct (state (sv_receiver s)) eqn:Hs; try done;
      pose proof (receive_loop_spec os_recvmsg fuel (sv_os s) (sv_receiver s) Hc Hr) as H; rewrite Hs in H;
      specialize (H ltac:(done) ltac:(done)); destruct (receive_loop _ _ _ _) as [[k r] res]; apply H. }
  pose proof (receive_ends os_recvmsg fuel (sv_os s) (sv_receiver s) Hr Hp) as Hi.
  pose proof (receive_limits os_recvmsg fuel (sv_os s) (sv_receiver s)) as Hlim.
  assert (∀ k r o, receive os_recvmsg fuel (sv_os s) (sv_receiver s) = (k, r, Ok o) →
    winding (sv_os s) k ∧ ∀ f, o = Frame f → len (f_payload f) ≤ isize_max) as Hw.
  { intros k r o. unfold receive. destruct (state (sv_receiver s)); intros H;
      try exact (receive_loop_small _ _ _ _ _ _ (small_of_inv _ Hr) H); [|done].
    injection H as <- <- <-. split; [apply winding_refl|done]. }
  destruct (receive os_recvmsg fuel (sv_os s) (sv_receiver s)) as [[k r] [o|e|]]; cbn in *; [|done..].
  destruct (Hw k r o eq_refl) as [Hwk Hfo]. split; [|done].
  split; cbn [sv_receiver sv_sender sv_os]; try done; [congruence|]. unfold winding, budget in *. lia.
Qed.

Lemma receive_frame_returns n s :
  healthy s → (patience (sv_os s) < n)%nat →
  runs_to (receive_frame fuel n) s (λ f _, len (f_payload f) ≤ isize_max).
Proof.
  revert s. induction n as [|n IH]; intros s Hs Hn; [lia|]. cbn [receive_frame].
  eapply runs_bind; [by apply receive_once_returns|]. intros [f| |] s1 Hs1 [(Hw & _) Hf]; [|..|done].
  - apply runs_ret; [done|]. by apply Hf.
  - eapply runs_bind; [by apply runs_map_err, wait_until_returns|]. intros u s2 Hs2 Hlt. cbv beta in Hlt.
    apply IH; [done|lia].
Qed.

(** ** The script *)
Lemma accept_frame_returns e f s :
  healthy s → len (f_payload f) ≤ isize_max → runs_to (accept_frame e f) s (λ _ _, True).
Proof.
  intros Hs Hl. unfold accept_frame. destruct (bool_decide _); [done|]. apply runs_get, runs_res.
  { by apply inbound_message_total. }
  intros m _. destruct (negb _); [done|]. unfold runs_to, on_state.
  assert ((update_state_from_inbound (sv_state s) m).2 ≠ Panic) as Hp.
  { destruct m; cbn [update_state_from_inbound]; unfold insert_route; try done; by destruct (_ !! _). }
  destruct (update_state_from_inbound (sv_state s) m) as [st [u|er|]]; cbn [snd] in Hp; [|done..].
  split; [|done]. by destruct Hs.
Qed.

Lemma reject_loop_returns n (k : K) st :
  connections_end K → (backlog k < n)%nat → winding k (reject_loop n k st).1.1 ∧ (reject_loop n k st).2 ≠ Panic.
Proof.
  intros Hend. revert k st. induction n as [|n IH]; intros k st Hn; [lia|]. cbn [reject_loop].
  destruct (fl_accept k) as [Hw Hp0]. pose proof (Hend k) as Hb.
  destruct (os_accept k) as [k' [u|[]|]]; cbn [fst snd] in *; try done.
  destruct (IH k' (with_rejected st) ltac:(lia)) as [Hw' Hp]. split; [by eapply winding_trans|done].
Qed.

Lemma reject_returns (single : bool) s :
  (single = true → connections_end K) → healthy s → runs_to (if single then reject_pending_clients fuel else mret tt) s (λ _ _, True).
Proof.
  intros Hend Hs. destruct single; [|by apply runs_ret]. unfold runs_to, reject_pending_clients.
  destruct (reject_loop_returns fuel (sv_os s) (sv_state s)) as [Hw Hp]; [by apply Hend|..].
  { destruct Hs as [_ _ _ _ _ Hf]. unfold budget in Hf. lia. }
  destruct (reject_loop fuel (sv_os s) (sv_state s)) as [[k st] [u|e|]]; cbn [fst snd] in *; [|done..].
  split; [|done]. destruct (healthy_os s k Hs Hw). by split.
Qed.

Lemma check_deadline_returns s : healthy s → runs_to check_deadline s (λ _ _, True).
Proof.
  intros Hs. pose proof (fl_expired (sv_os s)) as Hw.
  apply (runs_on_os _ s (λ _ _, True)); [done|by destruct (os_expired (sv_os s))|].
  by destruct (os_expired (sv_os s)) as [k []].
Qed.

Lemma run_step_returns single step s :
  (single = true → connections_end K) → healthy s → Forall (λ a, ∀ st, action_event st a ≠ Some Panic) (step_actions step) →
  runs_to (run_step fuel single step) s (λ _ _, True).
Proof.
  intros Hend Hs Ha. unfold run_step. eapply runs_bind; [by apply reject_returns|]. intros _ s1 H1 _.
  eapply runs_bind; [by apply check_deadline_returns|]. intros _ s2 H2 _.
  eapply runs_bind; [apply (receive_frame_returns fuel); [done|]|].
  { destruct H2 as [_ _ _ _ _ Hf]. unfold budget in Hf. lia. }
  intros f s3 H3 Hl. eapply runs_bind; [by apply accept_frame_returns|]. intros _ s4 H4 _.
  eapply runs_bind; [by apply reject_returns|]. intros _ s5 H5 _.
  eapply runs_bind; [by apply apply_actions_returns|]. intros keep s6 H6 _.
  eapply (runs_bind _ _ _ (λ _ _, True)); [|intros; by apply runs_ret]. split; [|done]. by destruct H6.
Qed.

Lemma run_steps_returns single steps s :
  (single = true → connections_end K) → healthy s → Forall (λ step, Forall (λ a, ∀ st, action_event st a ≠ Some Panic) (step_actions step)) steps →
  runs_to (run_steps fuel single steps) s (λ _ _, True).
Proof.
  intros Hend Hs Ha. revert s Hs. induction Ha as [|step steps Hp _ IH]; intros s Hs; cbn [run_steps]; [by apply runs_ret|].
  eapply runs_bind; [by apply run_step_returns|]. intros [] s1 H1 _; [by apply IH|by apply runs_ret].
Qed.
End returns.

(** ** Properties *)

(** C19: The client cannot keep the server from returning and cannot make it
    panic. Whatever it sends, however much of it, and however the socket cuts
    and delays it, the run ends with a report or an error, provided that the
    deadline passes after finitely many polls, that finitely many signals
    interrupt the calls on the socket, that the script asks for no event whose
    encoder panics, and, in single-client mode only, that others connect
    finitely often. Fuel for what is still to come and for the bytes that fit
    into the two buffers is enough for the whole run. *)
Theorem server_returns {K} `{!ServerOs K} `{!Finite K} `{!FiniteLaws K} (fuel : nat)
    (single : option bool) (steps : list ScriptStep) (k : K) :
  Forall (λ step, Forall (λ a, ∀ st, action_event st a ≠ Some Panic) (step_actions step)) steps →
  (default true single = true → connections_end K) →
  (budget k < fuel)%nat → (run fuel single steps k).2 ≠ Panic.
Proof.
  intros Ha Hend Hf. unfold run.
  set (s0 := mkServer k (FrameReceiver_new FrameLimits_default) (FrameSender_new FrameLimits_default) exec_new).
  assert (healthy fuel s0) as H0.
  { split; [apply new_inv, default_limits_ok|apply new_send_inv|constructor|done..]. }
  match goal with |- (?m s0).2 ≠ Panic => assert (runs_to fuel m s0 (λ _ _, True)) as Hr end.
  - eapply (runs_bind _ _ _ _ (λ _ _, True)).
    { apply (runs_os_call _ _ _ (λ _, True)); [done|apply fl_listen|].
      pose proof (fl_listens (sv_os s0)). by destruct (os_listen (sv_os s0)) as [? []]. }
    intros _ s1 H1 _. eapply runs_bind; [by apply runs_map_err, wait_until_returns|]. intros _ s2 H2 _.
    eapply (runs_bind _ _ _ _ (λ _ _, True)).
    { apply runs_map_err. destruct (fl_accept (sv_os s2)) as [Hw Hb].
      apply (runs_os_call _ _ _ (λ _, True)); [done|done|]. by destruct (os_accept (sv_os s2)) as [? []]. }
    intros _ s3 H3 _. eapply runs_bind; [by apply run_steps_returns|]. intros _ s4 H4 _. by apply runs_ret.
  - unfold runs_to in Hr. match type of Hr with match ?x with _ => _ end => by destruct x as [s' []] end.
Qed.

(** In single-client mode the run does not return while connections keep
    coming, however late it is: no fuel is enough for the loop that refuses
    them, and it never asks the clock. *)
Lemma connections_hold_the_run {K} `{!ServerOs K} (P : K → Prop) (k : K) (n : nat) st :
  (∀ k, P k → (os_accept k).2 = Ok tt ∧ P (os_accept k).1) →
  P k → (reject_loop n k st).2 = Panic.
Proof.
  intros Hacc. revert k st. induction n as [|n IH]; intros k st Hk; [done|]. cbn [reject_loop].
  destruct (Hacc k Hk) as [Ho Hp]. destruct (os_accept k) as [k' r]. cbn [fst snd] in *. subst r. by apply IH.
Qed.

(** A client that connects and says nothing, against a clock. *)
Module Silent.
Record Clocked := mkClocked { ck_bench : Bench.Bench; ck_left : nat }.

Definition lift {A} (f : Bench.Bench → Bench.Bench * A) (k : Clocked) : Clocked * A :=
  let '(b, a) := f (ck_bench k) in (mkClocked b (ck_left k), a).

#[global] Instance clocked_os : ServerOs Clocked := {|
  os_listen := lift os_listen;
  os_accept := lift os_accept;
  os_expired k := (k, bool_decide (ck_left k = 0%nat));
  os_poll k sock out :=
    (mkClocked (ck_bench k) (pred (ck_left k)),
     match sock with Listener => PollReady | Client => PollTimeout end);
  os_recvmsg k n c := lift (λ b, os_recvmsg b n c) k;
  os_sendmsg k d c := lift (λ b, os_sendmsg b d c) k;
  os_memfd_create k id := lift (λ b, os_memfd_create b id) k;
  os_ftruncate k fd size := lift (λ b, os_ftruncate b fd size) k;
  os_eventfd := lift os_eventfd;
|}.

#[global, refine] Instance clocked_recv : SocketLaws (K:=Clocked) os_recvmsg :=
  {| signals k := signals (Bench.bn_in (ck_bench k)) |}.
Proof.
  - intros k n c k'. cbn. unfold lift. cbn.
    destruct (SegmentQueue.recvmsg (Bench.bn_in (ck_bench k)) n c) as [q r] eqn:Hr. intros [= <- ->].
    exact (signals_interrupted _ _ _ _ Hr).
  - intros k n c. pose proof (signals_left (Bench.bn_in (ck_bench k)) n c) as Hs. cbn. unfold lift. cbn.
    by destruct (SegmentQueue.recvmsg (Bench.bn_in (ck_bench k)) n c).
  - intros k n c k' control flags Hn. cbn. unfold lift. cbn.
    destruct (SegmentQueue.recvmsg (Bench.bn_in (ck_bench k)) n c) as [q r] eqn:Hr. intros [= <- ->].
    exact (eof_no_control _ _ _ _ _ _ Hn Hr).
Defined.

#[global, refine] Instance clocked_send : SendSocket (K:=Clocked) os_sendmsg :=
  {| sent_bytes k := sent_bytes (ck_bench k); sent_rights k := sent_rights (ck_bench k);
     interruptions k := interruptions (ck_bench k) |}.
Proof.
  intros k d c fds Hc. pose proof (send_law (ck_bench k) d c fds Hc) as H. revert H. cbn. unfold lift. cbn.
  by destruct (Pipe.sendmsg (Bench.bn_out (ck_bench k)) d c) as [p [|]].
Defined.

#[global] Instance clocked_finite : Finite Clocked :=
  {| fin_recv := clocked_recv; fin_send := clocked_send; patience := ck_left;
     backlog k := Bench.bn_clients (ck_bench k) |}.

Lemma pipe_interruptions p d c : (interruptions (Pipe.sendmsg p d c).1 ≤ interruptions p)%nat.
Proof.
  unfold Pipe.sendmsg. destruct (Pipe.plan p) as [|z plan] eqn:Hp; [done|].
  destruct (bool_decide (z ≤ 0)); cbn; rewrite Hp; cbn; lia.
Qed.

Lemma lift_winding {A} (f : Bench.Bench → Bench.Bench * A) k :
  (signals (Bench.bn_in (f (ck_bench k)).1) ≤ signals (Bench.bn_in (ck_bench k)))%nat →
  (interruptions (f (ck_bench k)).1 ≤ interruptions (ck_bench k))%nat →
  (Bench.bn_clients (f (ck_bench k)).1 ≤ Bench.bn_clients (ck_bench k))%nat →
  winding k (lift f k).1.
Proof. unfold lift, winding. destruct (f (ck_bench k)) as [b a]. intros H1 H2 H3. split_and!; [done..]. Qed.

#[global] Instance clocked_laws : FiniteLaws Clocked.
Proof.
  split.
  - intros k. by apply lift_winding.
  - intros k. split; [apply lift_winding; cbn; destruct (Bench.bn_clients (ck_bench k)) eqn:H; cbn; lia|].
    cbn. unfold lift. cbn. by destruct (Bench.bn_clients (ck_bench k)).
  - intros k. apply winding_refl.
  - intros k. cbn. intros H%bool_decide_eq_false. lia.
  - intros k sock out. cbn. split; [unfold winding; cbn; lia|lia].
  - intros k n c. pose proof (signals_left (Bench.bn_in (ck_bench k)) n c) as Hq. apply lift_winding; cbn;
      destruct (SegmentQueue.recvmsg (Bench.bn_in (ck_bench k)) n c); [exact Hq|done|done].
  - intros k d c. pose proof (pipe_interruptions (Bench.bn_out (ck_bench k)) d c) as Hp. apply lift_winding; cbn;
      destruct (Pipe.sendmsg (Bench.bn_out (ck_bench k)) d c); [done|exact Hp|done].
  - intros k i. split; [by apply lift_winding|]. cbn. lia.
  - intros k fd z. split; [by apply lift_winding|done].
  - intros k. split; [by apply lift_winding|]. cbn. lia.
  - done.
Qed.

Lemma clocked_end : connections_end Clocked.
Proof. intros k. cbn. unfold lift. cbn. destruct (Bench.bn_clients (ck_bench k)) eqn:H; cbn; [done|lia]. Qed.

Definition os : Clocked := mkClocked (Bench.mkBench [] (Pipe.mkPipe [] [] []) 4) 3.
Definition steps : list ScriptStep :=
  [mkStep ExCoreHello [SendCoreInfo (mkCoreInfoAction 9 (bytes_of "u") (bytes_of "h") (bytes_of "1")
    (bytes_of "pipewire-0") []); SendCoreDone 0 7]].
End Silent.

Lemma server_returns_witness :
  (run (S (budget Silent.os)) None Silent.steps Silent.os).2 ≠ Panic ∧
  (run 5 None Silent.steps Silent.os).2 = Err (Custom KTimedOut).
Proof.
  split; [|by vm_compute].
  apply (server_returns (S (budget Silent.os)) None Silent.steps Silent.os); [|intros _; apply Silent.clocked_end|lia].
  constructor; [|constructor]. constructor; [|constructor; [|constructor]]; intros st; by vm_compute.
Defined.
